(* ===== verification/_CoqProject ===== *)
-Q . S2P
Prelude.v
Text.v
Metrics.v
Float64.v
Util.v
VarInt.v
Kv.v
Bloom.v
Iter.v
IterTest.v
Pb.v
Storage.v
Block.v
Table.v
TableBuild.v
TableSeek.v
TableIter.v
TableMerge.v
WaterMark.v
Oracle.v
Txn.v
Manifest.v
Level.v
KeySearch.v
Compact.v
Vlog.v
Arena.v
SkipList.v
SkipListInv.v
SkipListPush.v
SkipListSpec.v
MemTable.v
Mmap.v
Discard.v
CompactRun.v
CompactSpec.v
Trie.v
Closer.v
Publisher.v
KeyRegistry.v
Pool.v
Throttle.v
Write.v
ReadBack.v
Snapshot.v
WriterTask.v
LevelsOpen.v
Flush.v
Config.v
Cache.v
VlogOpen.v
Lock.v
Schedule.v
Histogram.v
DbOpen.v
