(* ===== verification/Prelude.v ===== *)
(** * Mors: a verification library for an LSM key-value store

    Mors (src/) is an embedded key-value store in the manner of Badger.  A
    transaction buffers its writes, asks an oracle for a commit timestamp and
    sends one batch to the writer; the batch goes to a value log and to a
    memtable with a write-ahead log; full memtables become tables of level 0;
    compactions move tables down the levels; a manifest records which tables
    exist.  Readers look in the memtables, then in the levels, for the newest
    version at or below their read timestamp.

    ** Files, and the code they model

    - [Prelude]: errors (src/src/errors.rs), the [outcome] monad, slices,
      machine-width integers, bytes and comparisons, with the tactics and hint
      databases of the library.
    - [Text]: the string functions of the standard library that the code uses,
      and the names of files (src/src/util/mod.rs).
    - [Metrics]: the counters of the process and the sizes of the directories
      (src/src/util/metrics.rs).
    - [Float64]: double-precision numbers, for scores and percentiles.
    - [Util]: the binary search of src/src/util/mod.rs.
    - [VarInt]: interface of the crate integer_encoding, with a LEB128 instance.
    - [Kv]: keys with timestamps, values, pointers and entries (src/src/kv.rs).
    - [Bloom]: the filter of a table (src/src/util/bloom.rs).
    - [Iter]: the iterator traits (src/src/iter.rs) as classes, and the relation
      [yields] their clients rely on; [IterTest]: items, seeking and the test macros
      of the same file.
    - [Pb]: checksums and manifest changes (src/src/pb/mod.rs, with the names of
      src/src/pb/badgerpb4.rs).
    - [Storage]: compression, encryption and file slices (src/src/config.rs,
      src/src/key_registry.rs, src/src/util/mmap.rs, parts only).
    - [Block]: block builder, block format and block iterator (src/src/table/).
    - [Table], [TableBuild], [TableSeek]: table builder, file format, opening,
      iterating, seeking, and tables built from an iterator (src/src/table/).
    - [TableIter], [TableMerge]: the concatenating and the merging iterator
      (src/src/table/iter.rs), and the sorted union a merge goes through.
    - [WaterMark]: the task that tracks finished timestamps
      (src/src/txn/water_mark.rs).
    - [Oracle]: timestamps, conflict detection and the interleaving of
      transactions with the two water-mark tasks (src/src/txn/oracle.rs).
    - [Txn]: transactions and point reads (src/src/txn/mod.rs,
      src/src/txn/item.rs, src/src/read.rs, sending of src/src/write.rs).
    - [Manifest]: the manifest file (src/src/manifest.rs).
    - [Level]: level handlers, flushing into level 0, reads through the levels
      (src/src/level/level_handler.rs, flush.rs, read.rs, parts of levels.rs).
    - [KeySearch]: keys as bytes with inverted versions, the search of a level
      written out and its synchronisation (src/src/util/mod.rs,
      src/src/level/level_handler.rs).
    - [Compact]: key ranges, compaction status, priorities and plans
      (src/src/level/compaction.rs, plan.rs, [check_overlap] of compact.rs).
    - [Vlog]: log files, entry headers, the log reader, writes to the value log
      and the reload of a memtable (src/src/vlog/, src/src/util/log_file.rs,
      src/src/memtable/write.rs).
    - [Arena], [SkipList], [SkipListInv], [SkipListPush], [SkipListSpec]: the
      arena, the skip list in it, its invariant, the push that links a node level
      by level, and the sorted map it implements (src/src/util/arena.rs,
      src/src/util/skip_list.rs).
    - [MemTable]: memtables over a skip list and a log (src/src/memtable/).
    - [Mmap], [Discard]: mapped files with their buffer, and the discard
      statistics kept in one (src/src/util/mmap.rs, src/src/vlog/discard.rs).
    - [CompactRun], [CompactSpec]: running a compaction plan, and what it keeps
      (src/src/level/compact.rs).
    - [Trie], [Closer], [Publisher]: the prefix trie of subscriptions, the closers
      of background tasks, and the publisher (src/src/util/tire.rs, closer.rs,
      publisher.rs).
    - [KeyRegistry]: the data keys and their file (src/src/key_registry.rs).
    - [Pool]: tasks of the thread pool and their handles (src/src/util/rayon.rs).
    - [Throttle]: the throttle under which tables are opened (src/src/util/mod.rs).
    - [Write], [WriterTask]: a batch of write requests on the whole state, and the
      tasks that collect batches and flush memtables, as step relations
      (src/src/write.rs, src/src/level/flush.rs).
    - [ReadBack]: a commit, the writing of its batch and a later read, put together
      (src/src/txn/mod.rs, write.rs, read.rs).
    - [Snapshot]: updates as one call, and reads of a transaction while others commit
      and the writer works, await by await (src/src/txn/mod.rs, write.rs, read.rs,
      txn/oracle.rs).
    - [LevelsOpen]: opening the levels of a manifest, identifiers of new tables,
      the highest version (src/src/level/levels.rs, src/src/txn/oracle.rs).
    - [Flush]: a memtable becomes a table of level 0 (src/src/level/flush.rs).
    - [Config]: the configuration, its checks and what is derived from it
      (src/src/config.rs, parts of src/src/vlog/ and src/src/util/cache.rs).
    - [Cache]: the caches of indexes and blocks that all tables share, and reads
      through them (src/src/util/cache.rs, src/src/table/mod.rs).
    - [VlogOpen]: opening the value log (src/src/vlog/mod.rs).
    - [Lock]: the locks on directories, and processes that share them
      (src/src/util/lock.rs, src/src/util/sys.rs).
    - [Schedule]: which compaction runs next (src/src/level/compaction.rs).
    - [Histogram]: the histogram of value sizes and the threshold that follows it
      (src/src/vlog/histogram.rs, src/src/vlog/threshold.rs).
    - [DbOpen]: opening a database as the composition of its parts (src/src/db.rs).

    ** Conventions of the translation

    A call that can fail returns an [outcome]: [Ok], [Err] with a [DBError] or a
    message, or [Panic].  Slicing and indexing out of range, [unwrap] of a
    missing value, failing assertions ([debug_assert] included) and subtraction
    below zero in [usize] are [Panic], as in a build with overflow checks.  A
    [u16], [u32] or [u64] is a [Z] with its wrap-around or its checked
    operations written out; bytes are [Z] in [0..255]; lengths and offsets in
    memory are [nat], not bounded by the width of [usize], and a conversion of
    such a length to a narrower field is written where the code has it.  A
    struct is a record with its fields, [&mut self] a returned state, a file its
    bytes.  The clock, the random nonce and the seeded hash are arguments.

    ** Interfaces

    Code that is not in the repository is a class of operations with a class of
    laws, the documented behaviour of the crate: [VarInt] and [VarIntRead]
    (integer_encoding), [ChecksumCodec] (crc32fast, xxhash, prost), [Compressor]
    (snap, zstd), [Aead] (AES-GCM), [TableIndexFb] (generated flatbuffer code),
    [Libm] (logarithm and exponential of the machine), [CacheLib] (moka),
    [ManifestCodec] and [DataKeyCodec] (prost) and [TableOrder] (the enumeration
    of a [HashMap]).
    Each has an instance that satisfies the laws, on which the examples
    evaluate.  Between components, [SinkIterator] and its companions, [LevelTable],
    [TableLookup] and [TableAge] state what a client uses of an iterator or of a
    table, [TableStats] what the level information reads of one, [KeyCoding] what
    the skip list uses of its keys; the tables of [Table] and the keys of [Kv] are
    instances, and the theorems on levels, compactions and skip lists hold for
    any instance.

    ** What the theorems show

    - The database: what a transaction committed is what a later read gets
      ([committed_is_read]); a point read gives the newest version among the
      memtables and the answer of the levels ([store_get_newest]); a transaction
      reads the same result whatever others commit meanwhile ([repeatable_reads]),
      unless a read overlaps the rotation of a full memtable, when it can miss
      versions ([read_misses_rotated]); an update gives its read mark back on every
      way out and answers as its parts did ([update_releases]).
    - Tables: a block and a whole table file read back exactly the entries
      pushed, forwards and backwards, under every compression, encryption and
      coherent cache ([block_roundtrip], [table_roundtrip]); pushing never panics
      when sizes fit, nor does finishing without compression and cipher
      ([table_builder_total]); filters have no false
      negatives ([Bloom_no_false_negatives], [table_bloom_no_false_negatives]);
      what seeks do ([block_seek_first_not_below], [table_seek_cases]); tables
      from iterators ([build_l0_table_keeps]).
    - Caches: sharing them changes no answer of any table as long as table ids are
      not used twice ([caches_transparent], [same_id_is_stale]), and what they hold
      is what the theorems on tables ask of a coherent cache ([coherent_lookups]).
    - Metrics: a directory is measured by what can be read of it
      ([total_size_counts], [calculate_size_sets]), and counters are sums whatever
      the interleaving ([counters_sum]).
    - Keys and searches: the byte order of stored keys is the order of keys, the
      encodings round-trip, the binary search terminates and finds.
    - Timestamps: a water mark is exactly the greatest timestamp that was, after
      some event, seen and below all outstanding work ([watermark_refines],
      [watermark_progress]); in every interleaving the marks never pass work in
      progress and timestamps stay below the next one ([oracle_safe]) and a started reader's snapshot is stable
      ([oracle_snapshot_stable]); which commits conflict
      ([conflict_detection], [default_config_never_conflicts]).
    - Transactions: reading one's own writes, the limits and the batch of a commit
      ([read_your_writes], [txn_limits], [commit_batch]), and which of the answers a
      point read gathers it gives ([DB_get_newest]).
    - Manifest: reopening gives the state in memory ([manifest_reopen]), when a
      rewritten manifest opens, and what a torn tail does.
    - Levels and compactions: ordered disjoint tables below level 0, size
      accounting, reads of a level, complete plans, disjoint compactions,
      covering splits; which levels are due and what a worker tries
      ([pick_lists_due_levels], [turn_tries_due_levels], [worker_zero_idles]).
    - Logs: headers and entries read back, what a reload restores, where a
      value-log write leaves each entry, and that an orderly restart keeps them in
      a log without a cipher ([vlog_survives_reopen]); the threshold for the value log
      ([threshold_follows_smallest]).
    - Memtables: a push into a skip list is an insertion into a sorted map for
      every height drawn, or a panic when the arena is full
      ([skiplist_push_refines], [skiplist_is_sorted_map]); a memtable answers with
      the newest or the exact version ([memtable_reads_newest]); what reopening one restores; a
      flush moves its entries to level 0 ([flush_keeps]).
    - Merging and compacting: a merge goes through the sorted union of its inputs
      ([merge_iter_sorted_union]); a compaction of versions that may all be
      discarded keeps the newest version of each key its iterators yield
      ([compaction_keeps_newest]; the concatenating iterator yields none); inputs on which merges and compactions
      panic or never return.
    - Files and keys: well-placed buffered writes to a mapped file are the writes of
      a plain file ([mmap_file_refines]); a key registry opens with the keys it had
      ([registry_reopens]) and rotates them ([data_key_age]).
    - Tasks and tests: a handle of the thread pool is answered with the result or the
      panic of its own function in every schedule ([handle_answered]); what the test
      macros of iterators check ([test_loop_prefix], [test_iter_meets]).
    - Writing and publishing: a batch of requests is applied in order across
      memtable rotations ([write_requests_applies]); the writer task loses and
      reorders nothing ([writer_batches]) but never closes
      ([writer_never_closes]); the trie is the set of registrations
      ([trie_refines]) and a publication hands to a subscriber of plain prefixes
      exactly the entries under them ([publish_delivers]).
    - Opening: which configurations are accepted ([config_init_accepts]) and when
      the arena takes a batch ([batch_fits_arena]); writers exclude each other
      from a directory ([lock_exclusive], [try_build_all_or_nothing]); the levels
      hold the tables of the manifest ([levels_build_opens]); the throttle ends or
      waits for ever ([throttle_finish]); a database that opens has locks on the
      directories of its configuration, unless that bypasses the lock guard, and
      timestamps above its versions, one that does not gives the locks back
      ([db_open_locks_and_timestamps]).

    Some theorems state behaviour that differs from what the comments of the code
    intend (a read below level 0, the reload of a log, stale sizes, the rewritten
    manifest, the default conflict check): they say what the code does.

    ** Fuel and bounds

    The search loop gets as many turns as the range has elements; it shrinks the
    range on each turn, and [search_correct] covers every run.  Replaying a
    manifest and reading a log take one turn per record, and a record has at
    least one byte, so the number of bytes plus one is enough; the theorems
    conclude with a result, not with running out.  [drain] runs an iterator for
    given turns, [drain_yields] says that one more than the number of items is
    enough.  The loops over marks and heaps recurse on their data.
    A search in a skip list gets one turn per node and level ([list_fuel],
    [descent_fuel]), and the push theorems conclude with a result; a
    compare-and-swap needs one try without other writers.  A move of a merge needs
    at most three turns and the depth of its tree, [add_keys] two turns per
    version and one more.  A decimal number has at most 20 digits, a registry has
    no more records than bytes, a range of levels no more than 256 steps.

    ** Not modelled

    The variants of the code behind the features async_cache and stretto (not built
    by default), errors of the operating system other than those named, logging and
    the progress reports while tables are opened, and generated code: the flatbuffer
    accessors (src/src/fb/: raw offsets into a byte buffer, whose coding is the class
    [TableIndexFb]) and the coding the crate prost derives for the messages of
    src/src/pb/badgerpb4.rs (the classes of the codings).  A value log is opened after
    its write buffers were flushed; the buffers of one mapped file are in [Mmap].  A
    transaction has a fixed value threshold, the channels of subscribers have no
    bound, and the flush of a memtable's log under sync_writes, which changes no byte
    of it, is left out. *)
From stdpp Require Import base list gmap strings.
From Stdlib Require Import ZArith Lia.

(* ------------------------------------------------------------------ *)
(** ** Errors and outcomes *)

(** [DBError] of src/src/errors.rs. *)
Inductive DBError : Type :=
| ValuelogSize
| KeyNotFound
| TxnTooBig
| Conflict
| ReadOnlyTxn
| DiscardedTxn
| EmptyKey
| InvalidKey
| BannedKey
| ThresholdZero
| InvalidEncryptionKey
| EncryptionKeyMismatch
| InvalidDataKeyID
| DBClosed
| TruncateNeeded (end_offset size : nat)
| BlockedWrites.

(** An [anyhow::Error]: a database error, or a message of another kind. *)
Inductive error : Type :=
| EDB (e : DBError)
| EMsg (msg : string).

(** A Rust computation returns, fails with [Err], or panics (slice out of
    range, [unwrap] of [None], failed [assert!], checked subtraction below
    zero). *)
Inductive outcome (A : Type) : Type :=
| Ok (a : A)
| Err (e : error)
| Panic.

Arguments Ok {A} a.
Arguments Err {A} e.
Arguments Panic {A}.

#[global] Instance outcome_ret : MRet outcome := λ A a, Ok a.

#[global] Instance outcome_bind : MBind outcome := λ A B f m,
  match m with
  | Ok a => f a
  | Err e => Err e
  | Panic => Panic
  end.

#[global] Instance outcome_fmap : FMap outcome := λ A B f m,
  match m with
  | Ok a => Ok (f a)
  | Err e => Err e
  | Panic => Panic
  end.

(** [assert!] and the implicit checks of indexing. *)
Definition assert_or_panic (b : bool) : outcome unit :=
  if b then Ok () else Panic.

Definition unwrap {A} (o : option A) : outcome A :=
  match o with
  | Some a => Ok a
  | None => Panic
  end.

(** Indexing [l[i]], slicing [l[..n]], [l[n..]] and [l[a..b]]. *)
Definition idx {A} (l : list A) (i : nat) : outcome A := unwrap (l !! i).

Definition slice_to {A} (l : list A) (n : nat) : outcome (list A) :=
  if n <=? length l then Ok (take n l) else Panic.

Definition slice_from {A} (l : list A) (n : nat) : outcome (list A) :=
  if n <=? length l then Ok (drop n l) else Panic.

Definition slice {A} (l : list A) (a b : nat) : outcome (list A) :=
  if (a <=? b) && (b <=? length l) then Ok (take (b - a) (drop a l)) else Panic.

(** [usize] subtraction with the overflow check on. *)
Definition usub (a b : nat) : outcome nat :=
  if b <=? a then Ok (a - b) else Panic.

(* ------------------------------------------------------------------ *)
(** ** Machine integers *)

Definition u8 (z : Z) : Z := z `mod` 2 ^ 8.
Definition u16 (z : Z) : Z := z `mod` 2 ^ 16.
Definition u32 (z : Z) : Z := z `mod` 2 ^ 32.
Definition u64 (z : Z) : Z := z `mod` 2 ^ 64.

Definition U64_MAX : Z := 2 ^ 64 - 1.
Definition U32_MAX : Z := 2 ^ 32 - 1.

(** [u32] and [u64] addition with the overflow check on. *)
Definition u32_add (a b : Z) : outcome Z :=
  if (a + b <=? U32_MAX)%Z then Ok (a + b)%Z else Panic.
Definition u64_add (a b : Z) : outcome Z :=
  if (a + b <=? U64_MAX)%Z then Ok (a + b)%Z else Panic.

(** A fallible function mapped over a list, stopping at the first failure. *)
Fixpoint map_outcome {A B} (f : A → outcome B) (l : list A) : outcome (list B) :=
  match l with
  | [] => Ok []
  | x :: l' => y ← f x; r ← map_outcome f l'; Ok (y :: r)
  end.

(** A fallible fold: a [for] loop with [?] in its body. *)
Fixpoint fold_outcome {A S} (f : S → A → outcome S) (s : S) (l : list A) : outcome S :=
  match l with
  | [] => Ok s
  | x :: l' => s' ← f s x; fold_outcome f s' l'
  end.

(** The range of a [w]-bit unsigned integer. *)
Definition in_width (w : Z) (z : Z) : Prop := (0 ≤ z < 2 ^ w)%Z.

(** A byte string is a [list Z] whose elements are bytes. *)
Definition is_bytes (l : list Z) : Prop := Forall (in_width 8) l.

(* ------------------------------------------------------------------ *)
(** ** Big-endian integers ([BufMut::put_uN], [Buf::get_uN], [to_be_bytes]) *)

Fixpoint be_encode (n : nat) (v : Z) : list Z :=
  match n with
  | O => []
  | S m => (Z.shiftr v (8 * Z.of_nat m)) `mod` 256 :: be_encode m v
  end%Z.

Definition be_step (acc b : Z) : Z := (acc * 256 + b)%Z.

Definition be_decode (l : list Z) : Z := fold_left be_step l 0%Z.

Definition put_u16 : Z → list Z := be_encode 2.
Definition put_u32 : Z → list Z := be_encode 4.
Definition put_u64 : Z → list Z := be_encode 8.

(** [get_uN] reads from the front and advances; it panics when the buffer
    is too short. *)
Definition get_uint (n : nat) (l : list Z) : outcome (Z * list Z) :=
  if n <=? length l then Ok (be_decode (take n l), drop n l) else Panic.

Definition get_u16 : list Z → outcome (Z * list Z) := get_uint 2.
Definition get_u32 : list Z → outcome (Z * list Z) := get_uint 4.
Definition get_u64 : list Z → outcome (Z * list Z) := get_uint 8.

(* ------------------------------------------------------------------ *)
(** ** Lexicographic comparison of byte slices ([<[u8] as Ord>::cmp]) *)

Fixpoint bytes_cmp (a b : list Z) : comparison :=
  match a, b with
  | [], [] => Eq
  | [], _ :: _ => Lt
  | _ :: _, [] => Gt
  | x :: a', y :: b' =>
      match Z.compare x y with
      | Eq => bytes_cmp a' b'
      | c => c
      end
  end.

Definition bytes_eqb (a b : list Z) : bool := bool_decide (a = b).

(** [a.starts_with(p)] *)
Fixpoint starts_with (a p : list Z) : bool :=
  match p, a with
  | [], _ => true
  | _ :: _, [] => false
  | y :: p', x :: a' => Z.eqb x y && starts_with a' p'
  end.

(** Lexicographic product of two comparisons ([match .. Equal => ..]). *)
Definition then_cmp (c d : comparison) : comparison :=
  match c with Eq => d | _ => c end.

(** What a client of an [Ord] implementation relies on: [Eq] is equality,
    swapping the arguments reverses the answer, and it is transitive. *)
Class CmpOrder {A : Type} (cmp : A → A → comparison) : Prop := {
  cmp_eq : ∀ a b, cmp a b = Eq ↔ a = b;
  cmp_antisym : ∀ a b, cmp b a = CompOpp (cmp a b);
  cmp_trans : ∀ a b c o, cmp a b = o → cmp b c = o → cmp a c = o
}.

(** [a <= b] in the order of [cmp]. *)
Definition cmp_le {A} (cmp : A → A → comparison) (a b : A) : Prop := cmp a b ≠ Gt.

Definition cmp_lt {A} (cmp : A → A → comparison) (a b : A) : Prop := cmp a b = Lt.

(* ------------------------------------------------------------------ *)
(** ** Tactics and hints *)

Create HintDb mors.

(** Split on the boolean guard of a conditional and turn the tests into
    propositions usable by [lia]. *)
Ltac bool_to_prop :=
  repeat match goal with
  | H : andb _ _ = true |- _ => apply andb_true_iff in H; destruct H
  | H : andb _ _ = false |- _ => apply andb_false_iff in H
  | H : orb _ _ = false |- _ => apply orb_false_iff in H; destruct H
  | H : orb _ _ = true |- _ => apply orb_true_iff in H
  | H : (_ <=? _)%nat = true |- _ => apply Nat.leb_le in H
  | H : (_ <=? _)%nat = false |- _ => apply Nat.leb_gt in H
  | H : (_ <? _)%nat = true |- _ => apply Nat.ltb_lt in H
  | H : (_ <? _)%nat = false |- _ => apply Nat.ltb_ge in H
  | H : (_ =? _)%nat = true |- _ => apply Nat.eqb_eq in H
  | H : (_ =? _)%nat = false |- _ => apply Nat.eqb_neq in H
  | H : (_ <=? _)%Z = true |- _ => apply Z.leb_le in H
  | H : (_ <=? _)%Z = false |- _ => apply Z.leb_gt in H
  | H : (_ <? _)%Z = true |- _ => apply Z.ltb_lt in H
  | H : (_ <? _)%Z = false |- _ => apply Z.ltb_ge in H
  | H : (_ =? _)%Z = true |- _ => apply Z.eqb_eq in H
  | H : (_ =? _)%Z = false |- _ => apply Z.eqb_neq in H
  | H : negb _ = true |- _ => apply negb_true_iff in H
  | H : negb _ = false |- _ => apply negb_false_iff in H
  | H : bool_decide _ = true |- _ => apply bool_decide_eq_true in H
  | H : bool_decide _ = false |- _ => apply bool_decide_eq_false in H
  end.

Ltac case_if :=
  match goal with
  | |- context [if ?b then _ else _] =>
      let E := fresh "E" in destruct b eqn:E; bool_to_prop
  end.

(** Expose the head of a monadic computation that is known to succeed. *)
Ltac step_ok :=
  repeat (cbn [mbind outcome_bind mret outcome_ret fmap outcome_fmap] in *;
          simplify_eq).

Ltac guard_true :=
  match goal with
  | |- context [if ?b then _ else _] =>
      let E := fresh "E" in
      destruct b eqn:E; bool_to_prop;
      [| exfalso;
         repeat match goal with H : _ ∨ _ |- _ => destruct H end; bool_to_prop;
         (lia || congruence)]
  end.

Ltac guard_false :=
  match goal with
  | |- context [if ?b then _ else _] =>
      let E := fresh "E" in
      destruct b eqn:E; bool_to_prop;
      [exfalso;
       repeat match goal with H : _ ∨ _ |- _ => destruct H end; bool_to_prop;
       (lia || congruence)|]
  end.

(* ------------------------------------------------------------------ *)
(** ** Outcomes and slices *)

Lemma bind_Ok {A B} (f : A → outcome B) (m : outcome A) b :
  m ≫= f = Ok b ↔ ∃ a, m = Ok a ∧ f a = Ok b.
Proof.
  destruct m as [x|e|]; cbn; split.
  - eauto.
  - intros (? & [= ->] & ?). done.
  - done.
  - intros (? & ? & _). done.
  - done.
  - intros (? & ? & _). done.
Qed.

(** Take apart the computations that are known to return. *)
Ltac returned := repeat match goal with
  | E : _ ≫= _ = Ok _ |- _ => let x := fresh "x" in apply bind_Ok in E; destruct E as (x & ? & E)
  | x : (_ * _)%type |- _ => destruct x
  | E : Ok _ = Ok _ |- _ => injection E as ?; subst
  | E : (let '(_, _) := ?p in _) = Ok _ |- _ => destruct p
  | E : (if ?b then _ else _) = Ok _ |- _ => destruct b eqn:?
  | E : match ?x with _ => _ end = Ok _ |- _ => destruct x eqn:?
  end; try done.

Lemma idx_Ok {A} (l : list A) i x : l !! i = Some x → idx l i = Ok x.
Proof. intros H. unfold idx. by rewrite H. Qed.

Lemma slice_to_Ok {A} (l : list A) n : n ≤ length l → slice_to l n = Ok (take n l).
Proof. intros. unfold slice_to. by guard_true. Qed.

Lemma slice_from_Ok {A} (l : list A) n : n ≤ length l → slice_from l n = Ok (drop n l).
Proof. intros. unfold slice_from. by guard_true. Qed.

Lemma slice_Ok {A} (l : list A) a b :
  a ≤ b → b ≤ length l → slice l a b = Ok (take (b - a) (drop a l)).
Proof.
  intros. unfold slice.
  rewrite (proj2 (Nat.leb_le a b)), (proj2 (Nat.leb_le b (length l))) by lia. done.
Qed.

Lemma slice_app_mid {A} (x y z : list A) a b :
  a = length x → b = length x + length y → slice (x ++ y ++ z) a b = Ok y.
Proof.
  intros -> ->. rewrite slice_Ok by (rewrite ?length_app; lia).
  rewrite drop_app_length. replace (_ + _ - _) with (length y) by lia.
  by rewrite take_app_length.
Qed.

Lemma slice_from_app {A} (x y : list A) n :
  n = length x → slice_from (x ++ y) n = Ok y.
Proof.
  intros ->. rewrite slice_from_Ok by (rewrite length_app; lia).
  by rewrite drop_app_length.
Qed.

Lemma slice_to_app {A} (x y : list A) n :
  n = length x → slice_to (x ++ y) n = Ok x.
Proof.
  intros ->. rewrite slice_to_Ok by (rewrite length_app; lia).
  by rewrite take_app_length.
Qed.

Lemma usub_Ok a b : b ≤ a → usub a b = Ok (a - b).
Proof. intros. unfold usub. by guard_true. Qed.

Lemma u32_add_Ok a b : (a + b < 2 ^ 32)%Z → u32_add a b = Ok (a + b)%Z.
Proof. intros. unfold u32_add, U32_MAX. by guard_true. Qed.

Lemma u32_small z : in_width 32 z → u32 z = z.
Proof. apply Z.mod_small. Qed.

Lemma u32_add_inv a b c : u32_add a b = Ok c → c = (a + b)%Z ∧ (c < 2 ^ 32)%Z.
Proof.
  unfold u32_add, U32_MAX. destruct (_ <=? _)%Z eqn:E; [|done]. bool_to_prop.
  intros [= <-]. split; [done|lia].
Qed.

Lemma map_outcome_Ok {A B} (f : A → outcome B) (g : A → B) l :
  (∀ x, x ∈ l → f x = Ok (g x)) → map_outcome f l = Ok (g <$> l).
Proof.
  induction l as [|x l IH]; intros Hf; cbn [map_outcome]; [done|].
  rewrite Hf by apply list_elem_of_here. cbn [mbind outcome_bind].
  rewrite IH; [done|]. intros y Hy. apply Hf. by apply list_elem_of_further.
Qed.

Lemma map_outcome_inv {A B} (f : A → outcome B) l r :
  map_outcome f l = Ok r → Forall2 (λ x y, f x = Ok y) l r.
Proof.
  revert r. induction l as [|x l IH]; intros r; cbn [map_outcome].
  - intros [= <-]. constructor.
  - rewrite bind_Ok. intros (y & Hy & (r' & Hr & [= <-])%bind_Ok). constructor; auto.
Qed.

Lemma fold_outcome_app {A S} (f : S → A → outcome S) s l1 l2 :
  fold_outcome f s (l1 ++ l2) = fold_outcome f s l1 ≫= λ s', fold_outcome f s' l2.
Proof.
  revert s. induction l1 as [|x l1 IH]; intros s; cbn [fold_outcome app]; [done|].
  destruct (f s x) as [s'|e|]; cbn; [apply IH|done|done].
Qed.

(* ------------------------------------------------------------------ *)
(** ** Sums over lists *)

Fixpoint sum_of {A} (w : A → Z) (l : list A) : Z :=
  match l with
  | [] => 0
  | x :: l' => w x + sum_of w l'
  end%Z.

Lemma foldl_max_spec {A} (f : A → Z) (l : list A) v :
  (v ≤ foldl (λ v i, Z.max v (f i)) v l)%Z ∧ (∀ x, x ∈ l → (f x ≤ foldl (λ v i, Z.max v (f i)) v l)%Z) ∧
  (foldl (λ v i, Z.max v (f i)) v l = v ∨ ∃ x, x ∈ l ∧ foldl (λ v i, Z.max v (f i)) v l = f x).
Proof.
  revert v. induction l as [|y l IH]; intros v; cbn.
  - split_and!; [lia|by intros x Hx%elem_of_nil|by left].
  - destruct (IH (Z.max v (f y))) as (H1 & H2 & H3). split_and!; [lia| |].
    + intros x [->|Hx]%elem_of_cons; [lia|by apply H2].
    + destruct H3 as [->|(x & Hx & ->)]; [|right; exists x; split; [by constructor|done]].
      destruct (Z.max_spec v (f y)) as [[_ ->]|[_ ->]]; [right; exists y; split; [constructor|done]|by left].
Qed.

Lemma sum_of_app {A} (w : A → Z) l1 l2 : sum_of w (l1 ++ l2) = (sum_of w l1 + sum_of w l2)%Z.
Proof. induction l1 as [|x l1 IH]; cbn [app sum_of]; lia. Qed.

Lemma sum_of_insert {A} (w : A → Z) l i x y :
  l !! i = Some x → sum_of w (<[i := y]> l) = (sum_of w l - w x + w y)%Z.
Proof.
  revert i. induction l as [|z l IH]; intros [|i] Hl; cbn in Hl; try done.
  - simplify_eq. change (<[0:=y]> (x :: l)) with (y :: l). cbn [sum_of]. lia.
  - specialize (IH i Hl). change (<[S i:=y]> (z :: l)) with (z :: <[i:=y]> l). cbn [sum_of]. lia.
Qed.

Lemma sum_of_nonneg {A} (w : A → Z) l : (∀ y, 0 ≤ w y)%Z → (0 ≤ sum_of w l)%Z.
Proof. intros Hw. induction l as [|y l IH]; cbn [sum_of]; [lia|]. specialize (Hw y). lia. Qed.

Lemma sum_of_lookup_le {A} (w : A → Z) l i x :
  (∀ y, 0 ≤ w y)%Z → l !! i = Some x → (w x ≤ sum_of w l)%Z.
Proof.
  intros Hw. revert i. induction l as [|z l IH]; intros [|i] Hl; cbn in Hl; try done; cbn [sum_of].
  - simplify_eq. pose proof (sum_of_nonneg w l Hw). lia.
  - specialize (IH i Hl). specialize (Hw z). lia.
Qed.

(* ------------------------------------------------------------------ *)
(** ** Bytes and big-endian integers *)

Lemma is_bytes_app a b : is_bytes (a ++ b) ↔ is_bytes a ∧ is_bytes b.
Proof. apply Forall_app. Qed.

Lemma is_bytes_take n l : is_bytes l → is_bytes (take n l).
Proof. apply Forall_take. Qed.

Lemma is_bytes_drop n l : is_bytes l → is_bytes (drop n l).
Proof. apply Forall_drop. Qed.

Lemma length_be_encode n v : length (be_encode n v) = n.
Proof. induction n; cbn; congruence. Qed.

Lemma length_put_u16 v : length (put_u16 v) = 2.
Proof. apply length_be_encode. Qed.

Lemma length_put_u32 v : length (put_u32 v) = 4.
Proof. apply length_be_encode. Qed.

Lemma length_put_u64 v : length (put_u64 v) = 8.
Proof. apply length_be_encode. Qed.

Lemma be_encode_is_bytes n v : is_bytes (be_encode n v).
Proof.
  induction n as [|n IH]; cbn [be_encode]; constructor; [|done].
  unfold in_width. change (2 ^ 8)%Z with 256%Z. apply Z.mod_pos_bound. lia.
Qed.

#[export] Hint Resolve is_bytes_take is_bytes_drop be_encode_is_bytes : mors.

Lemma be_fold_acc l acc :
  fold_left be_step l acc = (acc * 256 ^ Z.of_nat (length l) + be_decode l)%Z.
Proof.
  unfold be_decode. revert acc. induction l as [|b l IH]; intros acc.
  - cbn [fold_left length Z.of_nat]. rewrite Z.pow_0_r. lia.
  - cbn [fold_left length]. rewrite IH, (IH (be_step 0 b)). unfold be_step.
    rewrite Nat2Z.inj_succ, Z.pow_succ_r by lia. ring.
Qed.

Lemma be_decode_cons b l :
  be_decode (b :: l) = (b * 256 ^ Z.of_nat (length l) + be_decode l)%Z.
Proof. unfold be_decode at 1. cbn [fold_left]. rewrite be_fold_acc. unfold be_step. ring. Qed.

Lemma be_decode_bound l :
  is_bytes l → (0 ≤ be_decode l < 256 ^ Z.of_nat (length l))%Z.
Proof.
  unfold is_bytes. induction 1 as [|b l Hb _ IH]; [cbn; lia|].
  rewrite be_decode_cons. cbn [length]. rewrite Nat2Z.inj_succ, Z.pow_succ_r by lia.
  unfold in_width in Hb. nia.
Qed.

Lemma pow256 n : (256 ^ Z.of_nat n = 2 ^ (8 * Z.of_nat n))%Z.
Proof. rewrite Z.pow_mul_r by lia. done. Qed.

Lemma be_decode_encode n v :
  be_decode (be_encode n v) = (v `mod` 256 ^ Z.of_nat n)%Z.
Proof.
  induction n as [|n IH].
  - cbn [Z.of_nat]. rewrite Z.pow_0_r, Z.mod_1_r. done.
  - cbn [be_encode]. rewrite be_decode_cons, IH, length_be_encode.
    rewrite Z.shiftr_div_pow2 by lia. rewrite <- pow256.
    rewrite Nat2Z.inj_succ, Z.pow_succ_r by lia.
    rewrite (Z.mul_comm 256), Z.rem_mul_r by lia. ring.
Qed.

Lemma be_decode_encode_id n v :
  in_width (8 * Z.of_nat n) v → be_decode (be_encode n v) = v.
Proof.
  intros H. rewrite be_decode_encode, pow256. by apply Z.mod_small.
Qed.

Lemma be_encode_mod n v k :
  n ≤ k → be_encode n (v `mod` 256 ^ Z.of_nat k)%Z = be_encode n v.
Proof.
  intros Hk. induction n as [|n IH]; [done|]. cbn [be_encode]. rewrite IH by lia.
  f_equal. rewrite !Z.shiftr_div_pow2 by lia. rewrite <- !pow256.
  replace (Z.of_nat k) with (Z.of_nat n + (1 + (Z.of_nat k - Z.of_nat n - 1)))%Z by lia.
  rewrite 2 Z.pow_add_r by lia. rewrite Z.rem_mul_r by lia.
  rewrite Z.add_comm, (Z.mul_comm (256 ^ Z.of_nat n)), Z.div_add_l by lia.
  rewrite (Z.div_small (_ `mod` _)) by (apply Z.mod_pos_bound; lia).
  rewrite Z.add_0_r, Z.pow_1_r. apply Z.mod_mod_divide.
  apply Z.divide_factor_l.
Qed.

Lemma be_encode_decode l : is_bytes l → be_encode (length l) (be_decode l) = l.
Proof.
  unfold is_bytes. induction 1 as [|b l Hb Hl IH]; [done|].
  cbn [length be_encode]. pose proof (be_decode_bound l Hl) as Hbd.
  unfold in_width in Hb. f_equal.
  - rewrite be_decode_cons, Z.shiftr_div_pow2, <- pow256 by lia.
    rewrite Z.div_add_l, Z.div_small, Z.add_0_r by lia. apply Z.mod_small. lia.
  - rewrite <- IH at 3.
    rewrite <- (be_encode_mod _ (be_decode (b :: l)) (length l)) by lia.
    rewrite be_decode_cons, Z.add_comm, Z.mod_add by lia.
    by rewrite be_encode_mod.
Qed.

Lemma get_uint_app n v rest :
  in_width (8 * Z.of_nat n) v →
  get_uint n (be_encode n v ++ rest) = Ok (v, rest).
Proof.
  intros H. unfold get_uint. rewrite length_app, length_be_encode.
  guard_true. rewrite take_app_length', drop_app_length' by (by rewrite length_be_encode).
  by rewrite be_decode_encode_id.
Qed.

Lemma get_put_u16 v rest : in_width 16 v → get_u16 (put_u16 v ++ rest) = Ok (v, rest).
Proof. apply (get_uint_app 2). Qed.

Lemma get_put_u32 v rest : in_width 32 v → get_u32 (put_u32 v ++ rest) = Ok (v, rest).
Proof. apply (get_uint_app 4). Qed.

Lemma get_put_u64 v rest : in_width 64 v → get_u64 (put_u64 v ++ rest) = Ok (v, rest).
Proof. apply (get_uint_app 8). Qed.

(* ------------------------------------------------------------------ *)
(** ** Lexicographic order *)

Lemma bytes_cmp_refl a : bytes_cmp a a = Eq.
Proof. induction a as [|x a IH]; cbn; [done|]. by rewrite Z.compare_refl. Qed.

Lemma bytes_cmp_eq a b : bytes_cmp a b = Eq ↔ a = b.
Proof.
  split; [|intros ->; apply bytes_cmp_refl].
  revert b. induction a as [|x a IH]; intros [|y b]; cbn; try done.
  destruct (Z.compare_spec x y); [|done|done]. intros ?%IH. congruence.
Qed.

Lemma bytes_cmp_antisym a b : bytes_cmp b a = CompOpp (bytes_cmp a b).
Proof.
  revert b. induction a as [|x a IH]; intros [|y b]; cbn; try done.
  rewrite Z.compare_antisym. destruct (Z.compare x y); cbn; auto.
Qed.

Lemma bytes_cmp_trans a b c o :
  bytes_cmp a b = o → bytes_cmp b c = o → bytes_cmp a c = o.
Proof.
  revert b c. induction a as [|x a IH]; intros [|y b] [|z c]; cbn; try congruence.
  destruct (Z.compare_spec x y), (Z.compare_spec y z), (Z.compare_spec x z);
    subst; intros; try congruence; try lia; eauto.
Qed.

Lemma bytes_cmp_app_prefix p a b : bytes_cmp (p ++ a) (p ++ b) = bytes_cmp a b.
Proof. induction p as [|x p IH]; cbn; [done|]. by rewrite Z.compare_refl. Qed.

(** Comparison of equal-length prefixes decides before the suffixes do. *)
Lemma bytes_cmp_app_same_length a b x y :
  length a = length b →
  bytes_cmp (a ++ x) (b ++ y) = then_cmp (bytes_cmp a b) (bytes_cmp x y).
Proof.
  revert b. induction a as [|p a IH]; intros [|q b]; cbn; try done.
  intros [= H]. destruct (Z.compare p q); cbn; auto.
Qed.

(** Big-endian encodings compare as the integers they encode. *)
Lemma bytes_cmp_be_decode a b :
  is_bytes a → is_bytes b → length a = length b →
  bytes_cmp a b = Z.compare (be_decode a) (be_decode b).
Proof.
  intros Ha. revert b. induction Ha as [|x a Hx Ha IH]; intros [|y b] Hb; try done.
  intros [= Hlen]. inversion Hb as [|? ? Hy Hb']; subst.
  cbn [bytes_cmp]. rewrite !be_decode_cons, <- Hlen.
  pose proof (be_decode_bound a Ha) as Ba. pose proof (be_decode_bound b Hb') as Bb.
  rewrite <- Hlen in Bb. set (P := (256 ^ Z.of_nat (length a))%Z) in *.
  unfold in_width in *.
  destruct (Z.compare_spec x y) as [->|Hlt|Hgt].
  - rewrite (IH b Hb' Hlen). destruct (Z.compare_spec (be_decode a) (be_decode b));
      symmetry; [apply Z.compare_eq_iff|apply Z.compare_lt_iff|apply Z.compare_gt_iff]; lia.
  - symmetry. apply Z.compare_lt_iff. nia.
  - symmetry. apply Z.compare_gt_iff. nia.
Qed.

Lemma bytes_cmp_be_encode n a b :
  in_width (8 * Z.of_nat n) a → in_width (8 * Z.of_nat n) b →
  bytes_cmp (be_encode n a) (be_encode n b) = Z.compare a b.
Proof.
  intros. rewrite bytes_cmp_be_decode by (rewrite ?length_be_encode; auto with mors).
  by rewrite !be_decode_encode_id.
Qed.

Lemma starts_with_spec a p : starts_with a p = true ↔ ∃ s, a = p ++ s.
Proof.
  revert a. induction p as [|y p IH]; intros a; [split; [by exists a|by destruct a]|].
  destruct a as [|x a]; [split; [intros [=]|intros (? & [=])]|].
  cbn [starts_with]. rewrite andb_true_iff, Z.eqb_eq, IH. split.
  - intros [-> [s ->]]. by exists s.
  - intros [s [= -> ->]]. eauto.
Qed.

(* ------------------------------------------------------------------ *)
(** ** Orders *)

#[export] Instance bytes_cmp_order : CmpOrder bytes_cmp.
Proof. split; [apply bytes_cmp_eq|apply bytes_cmp_antisym|apply bytes_cmp_trans]. Qed.

#[export] Instance Z_compare_order : CmpOrder Z.compare.
Proof.
  split.
  - apply Z.compare_eq_iff.
  - intros a b. apply Z.compare_antisym.
  - intros a b c o. destruct (Z.compare_spec a b), (Z.compare_spec b c),
      (Z.compare_spec a c); subst; intros; congruence || lia.
Qed.

Section CmpOrderFacts.
Context {A : Type} (cmp : A → A → comparison) `{!CmpOrder cmp}.

Lemma cmp_refl a : cmp a a = Eq.
Proof. by apply (@cmp_eq _ cmp _). Qed.

Lemma cmp_gt_lt a b : cmp a b = Gt ↔ cmp b a = Lt.
Proof. rewrite (@cmp_antisym _ cmp _ a b). destruct (cmp a b); cbn; done. Qed.

Lemma cmp_lt_trans a b c : cmp_lt cmp a b → cmp_lt cmp b c → cmp_lt cmp a c.
Proof. apply (@cmp_trans _ cmp _). Qed.

Lemma cmp_lt_irrefl a : ¬ cmp_lt cmp a a.
Proof. unfold cmp_lt. rewrite cmp_refl. done. Qed.

Lemma cmp_le_lt_eq a b : cmp_le cmp a b ↔ cmp_lt cmp a b ∨ a = b.
Proof.
  unfold cmp_le, cmp_lt. rewrite <- (@cmp_eq _ cmp _). destruct (cmp a b); naive_solver.
Qed.

Lemma cmp_lt_le_trans a b c : cmp_lt cmp a b → cmp_le cmp b c → cmp_lt cmp a c.
Proof.
  intros ? [?| ->]%cmp_le_lt_eq; [eapply cmp_lt_trans; eauto|done].
Qed.

Lemma cmp_le_lt_trans a b c : cmp_le cmp a b → cmp_lt cmp b c → cmp_lt cmp a c.
Proof.
  intros [?| ->]%cmp_le_lt_eq ?; [eapply cmp_lt_trans; eauto|done].
Qed.

Lemma cmp_le_trans a b c : cmp_le cmp a b → cmp_le cmp b c → cmp_le cmp a c.
Proof.
  intros [?| ->]%cmp_le_lt_eq ?; [|done].
  apply cmp_le_lt_eq. left. by eapply cmp_lt_le_trans.
Qed.

Lemma cmp_le_total a b : cmp_le cmp a b ∨ cmp_le cmp b a.
Proof.
  unfold cmp_le. rewrite (@cmp_antisym _ cmp _ a b). destruct (cmp a b); cbn; auto.
Qed.

(** Comparing two elements in order with a third, as a binary search does. *)
Lemma cmp_lt_search a c k :
  cmp a c = Lt →
  (cmp c k = Lt → cmp a k = Lt) ∧ (cmp a k = Gt → cmp c k = Gt) ∧ (cmp a k = Eq → cmp c k ≠ Lt).
Proof.
  intros Hac. split_and!.
  - intros Hck. by eapply (@cmp_trans _ cmp _).
  - intros Hak%cmp_gt_lt. apply cmp_gt_lt. by eapply (@cmp_trans _ cmp _).
  - intros <-%(@cmp_eq _ cmp _). rewrite (@cmp_antisym _ cmp _ a c), Hac. done.
Qed.

(** The lexicographic product with the second order reversed, which is how
    versions of a key are ordered. *)
Lemma then_cmp_rev_order {B} (cmpB : B → B → comparison) `{!CmpOrder cmpB} :
  CmpOrder (λ p q : A * B, then_cmp (cmp p.1 q.1) (cmpB q.2 p.2)).
Proof.
  split.
  - intros [a x] [b y]; cbn. split.
    + destruct (cmp a b) eqn:E; cbn; try done. apply (@cmp_eq _ cmp _) in E as ->.
      intros ->%(@cmp_eq _ cmpB _). done.
    + intros [= -> ->]. rewrite cmp_refl. by apply (@cmp_eq _ cmpB _).
  - intros [a x] [b y]; cbn. rewrite (@cmp_antisym _ cmp _ a b).
    destruct (cmp a b); cbn; try done. apply cmp_antisym.
  - intros [a x] [b y] [c z] o; cbn.
    destruct (cmp a b) eqn:Eab, (cmp b c) eqn:Ebc; cbn; intros H1 H2; subst; try done.
    + rewrite (@cmp_trans _ cmp _ _ _ _ _ Eab Ebc); cbn. by eapply cmp_trans.
    + apply (@cmp_eq _ cmp _) in Eab as ->. by rewrite Ebc.
    + apply (@cmp_eq _ cmp _) in Eab as ->. by rewrite Ebc.
    + apply (@cmp_eq _ cmp _) in Ebc as ->. by rewrite Eab.
    + by rewrite (@cmp_trans _ cmp _ _ _ _ _ Eab Ebc).
    + apply (@cmp_eq _ cmp _) in Ebc as ->. by rewrite Eab.
    + by rewrite (@cmp_trans _ cmp _ _ _ _ _ Eab Ebc).
Qed.

End CmpOrderFacts.
