(* ===== verification/Text.v ===== *)
(** * Text: the functions on strings the code uses

    A [&str] is the list of its Unicode scalar values.  This file has the
    methods of the standard library the sources call ([trim], [split],
    [trim_end_matches], [ends_with], [parse] of an unsigned integer, decimal
    formatting with padding) and the file names of src/src/util/mod.rs
    ([DBFileId]). *)
From stdpp Require Import base list gmap strings.
From Stdlib Require Import ZArith Lia Ascii.
From S2P Require Import Prelude.

Local Open Scope nat_scope.

Definition bytes_of_string (s : string) : list Z :=
  (λ c, Z.of_nat (nat_of_ascii c)) <$> String.list_ascii_of_string s.

(** [char::is_whitespace]: the Unicode property White_Space. *)
Definition is_whitespace (c : Z) : bool :=
  ((9 <=? c) && (c <=? 13) || (c =? 32) || (c =? 133) || (c =? 160) || (c =? 5760)
   || (8192 <=? c) && (c <=? 8202) || (c =? 8232) || (c =? 8233) || (c =? 8239)
   || (c =? 8287) || (c =? 12288))%Z.

Fixpoint trim_start (s : list Z) : list Z :=
  match s with
  | [] => []
  | c :: s' => if is_whitespace c then trim_start s' else s
  end.

Definition trim (s : list Z) : list Z := rev (trim_start (rev (trim_start s))).

(** [s.split(sep)] for a separator of one character: there is always one piece
    at least. *)
Fixpoint split_on (sep : Z) (s : list Z) : list (list Z) :=
  match s with
  | [] => [[]]
  | c :: s' =>
      if (c =? sep)%Z then [] :: split_on sep s'
      else match split_on sep s' with
           | [] => [[c]]
           | p :: ps => (c :: p) :: ps
           end
  end.

Definition is_digit (c : Z) : bool := ((48 <=? c) && (c <=? 57))%Z.

(** The digits of [from_str_radix(_, 10)], with its overflow checks. *)
Fixpoint parse_digits (max acc : Z) (s : list Z) : option Z :=
  match s with
  | [] => Some acc
  | c :: s' =>
      if is_digit c then
        let acc' := (acc * 10 + (c - 48))%Z in
        if (acc' <=? max)%Z then parse_digits max acc' s' else None
      else None
  end.

(** [s.parse::<uN>()]: no empty text, no lone sign, a leading plus is skipped. *)
Definition parse_uint (max : Z) (s : list Z) : option Z :=
  match s with
  | [] => None
  | c :: s' =>
      if (c =? 43)%Z then
        match s' with
        | [] => None
        | _ => parse_digits max 0 s'
        end
      else parse_digits max 0 s
  end.

(** The decimal digits of a number, most significant first; twenty digits are
    enough for 64 bits. *)
Fixpoint decimal_go (fuel : nat) (n : Z) (acc : list Z) : list Z :=
  match fuel with
  | 0 => acc
  | S fuel =>
      let acc' := (48 + n `mod` 10)%Z :: acc in
      if (n <? 10)%Z then acc' else decimal_go fuel (n `div` 10)%Z acc'
  end.

Definition decimal (n : Z) : list Z := decimal_go 20 n [].

(** [format!("{:0w$}", n)] *)
Definition padded (w : nat) (n : Z) : list Z :=
  let d := decimal n in replicate (w - length d) 48%Z ++ d.

Definition ends_with (s suffix : list Z) : bool := starts_with (rev s) (rev suffix).

(** [s.trim_end_matches(suffix)] for a suffix that is not empty: the suffix is
    removed as often as it is there.  The length of [s] bounds the turns. *)
Fixpoint trim_end_go (fuel : nat) (s suffix : list Z) : list Z :=
  match fuel with
  | 0 => s
  | S fuel =>
      if ends_with s suffix then trim_end_go fuel (take (length s - length suffix) s) suffix
      else s
  end.

Definition trim_end_matches (s suffix : list Z) : list Z := trim_end_go (length s) s suffix.

(* ------------------------------------------------------------------ *)
(** ** File names: [DBFileId] of src/src/util/mod.rs *)

(** The implementors of the trait, each with its suffix. *)
Inductive FileKind : Type := MemTableFile | SSTableFile | VlogFile.

Definition SUFFIX (k : FileKind) : list Z :=
  match k with
  | MemTableFile => bytes_of_string ".mem"
  | SSTableFile => bytes_of_string ".sst"
  | VlogFile => bytes_of_string ".vlog"
  end.

(** [parse], on the last component of the path; [None] for a path without one
    or one that is not UTF-8. *)
Definition file_parse (k : FileKind) (name : option (list Z)) : outcome Z :=
  let bad := Err (EMsg "failed parse PathBuf") in
  match name with
  | Some name =>
      if ends_with name (SUFFIX k) then
        match parse_uint U32_MAX (trim_end_matches name (SUFFIX k)) with
        | Some id => Ok id
        | None => bad
        end
      else bad
  | None => bad
  end.

(** [join_dir]: the name put below the directory. *)
Definition file_name (k : FileKind) (id : Z) : list Z := padded 6 id ++ SUFFIX k.

(** [SSTableId::parse_set_from_dir]: the entries of the directory, each with
    whether it is a file; a directory that cannot be read has none. *)
Definition parse_set_from_dir (entries : option (list (bool * option (list Z)))) : gset Z :=
  match entries with
  | Some l =>
      foldl (λ (ids : gset Z) (e : bool * option (list Z)),
        if e.1 then
          match file_parse SSTableFile e.2 with
          | Ok id => {[ id ]} ∪ ids
          | _ => ids
          end
        else ids) ∅ l
  | None => ∅
  end.

(* ------------------------------------------------------------------ *)
(** ** Numbers read back *)

Definition digits (l : list Z) : Prop := Forall (λ c, is_digit c = true) l.

Definition dec_value (acc : Z) (l : list Z) : Z := foldl (λ a c, a * 10 + (c - 48))%Z acc l.

Lemma dec_value_ge acc l : digits l → (0 ≤ acc)%Z → (acc ≤ dec_value acc l)%Z.
Proof.
  intros Hd. revert acc. induction Hd as [|c l Hc _ IH]; intros acc Ha; [done|].
  unfold is_digit in Hc; cbn beta in Hc. bool_to_prop. cbn.
  etrans; [|apply IH; lia]. lia.
Qed.

Lemma parse_digits_value max acc l :
  digits l → (0 ≤ acc)%Z → (dec_value acc l ≤ max)%Z → parse_digits max acc l = Some (dec_value acc l).
Proof.
  intros Hd. revert acc. induction Hd as [|c l Hc Hl IH]; intros acc Ha Hm; [done|].
  cbn in Hm |- *. rewrite Hc. unfold is_digit in Hc; cbn beta in Hc. bool_to_prop.
  pose proof (dec_value_ge (acc * 10 + (c - 48)) l Hl ltac:(lia)) as Hge.
  rewrite (proj2 (Z.leb_le _ _)); [apply IH; [lia|exact Hm]|].
  unfold dec_value in Hge, Hm. lia.
Qed.

Lemma decimal_go_value fuel n acc :
  (0 ≤ n < 10 ^ Z.of_nat (S fuel))%Z →
  ∃ d, decimal_go (S fuel) n acc = d ++ acc ∧ digits d ∧ d ≠ [] ∧ dec_value 0 d = n.
Proof.
  revert n acc. induction fuel as [|fuel IH]; intros n acc Hn;
    pose proof (Z.mod_pos_bound n 10 ltac:(lia)) as Hm.
  - exists [(48 + n `mod` 10)%Z]. cbn. rewrite (proj2 (Z.ltb_lt n 10)) by (cbn in Hn; lia).
    split_and!; [done| |done|].
    + constructor; [unfold is_digit; rewrite !(proj2 (Z.leb_le _ _)) by lia; done|constructor].
    + rewrite Z.mod_small by (cbn in Hn; lia). lia.
  - rewrite Nat2Z.inj_succ, Z.pow_succ_r in Hn by lia.
    remember (S fuel) as f eqn:Hf. cbn [decimal_go]. case_if.
    + exists [(48 + n `mod` 10)%Z]. split_and!; [done| |done|].
      * constructor; [unfold is_digit; rewrite !(proj2 (Z.leb_le _ _)) by lia; done|constructor].
      * cbn. rewrite Z.mod_small by lia. lia.
    + destruct (IH (n `div` 10)%Z ((48 + n `mod` 10)%Z :: acc)) as (d & Hd & Hds & Hne & Hv).
      { split; [apply Z.div_pos; lia|]. apply Z.div_lt_upper_bound; lia. }
      exists (d ++ [(48 + n `mod` 10)%Z]). rewrite Hd, <- app_assoc. split_and!; [done| | |].
      * apply Forall_app; split; [exact Hds|].
        constructor; [unfold is_digit; rewrite !(proj2 (Z.leb_le _ _)) by lia; done|constructor].
      * by destruct d.
      * unfold dec_value in *. rewrite foldl_app, Hv. cbn. pose proof (Z.div_mod n 10). lia.
Qed.

Lemma decimal_spec n :
  (0 ≤ n < 10 ^ 20)%Z → digits (decimal n) ∧ decimal n ≠ [] ∧ dec_value 0 (decimal n) = n.
Proof.
  intros Hn. destruct (decimal_go_value 19 n [] Hn) as (d & Hd & H1 & H2 & H3).
  unfold decimal. rewrite Hd, app_nil_r. done.
Qed.

Lemma padded_spec w n :
  (0 ≤ n < 10 ^ 20)%Z → digits (padded w n) ∧ padded w n ≠ [] ∧ dec_value 0 (padded w n) = n.
Proof.
  intros Hn. destruct (decimal_spec n Hn) as (H1 & H2 & H3). unfold padded. split_and!.
  - apply Forall_app; split; [|exact H1]. by apply Forall_replicate.
  - intros [_ H]%app_eq_nil. done.
  - unfold dec_value in *. rewrite foldl_app.
    assert (foldl (λ a c, a * 10 + (c - 48))%Z 0%Z (replicate (w - length (decimal n)) 48%Z) = 0%Z) as ->;
      [|exact H3].
    induction (w - length (decimal n)) as [|k IH]; [done|exact IH].
Qed.

(** A text of digits parses to its value. *)
Lemma parse_uint_digits max l :
  digits l → l ≠ [] → (dec_value 0 l ≤ max)%Z → parse_uint max l = Some (dec_value 0 l).
Proof.
  intros Hd Hne Hm. destruct l as [|c l]; [done|]. cbn [parse_uint].
  apply Forall_cons in Hd as Hc. destruct Hc as [Hc _]. unfold is_digit in Hc; cbn beta in Hc. bool_to_prop.
  rewrite (proj2 (Z.eqb_neq _ _)) by lia. apply parse_digits_value; [exact Hd|lia|exact Hm].
Qed.

Lemma parse_uint_padded w max n :
  (0 ≤ n ≤ max)%Z → (max < 10 ^ 20)%Z → parse_uint max (padded w n) = Some n.
Proof.
  intros Hn Hm. destruct (padded_spec w n) as (H1 & H2 & H3); [lia|].
  rewrite parse_uint_digits, H3; [done|exact H1|exact H2|lia].
Qed.

(* ------------------------------------------------------------------ *)
(** ** Suffixes *)

Lemma starts_with_app p l : starts_with (p ++ l) p = true.
Proof. induction p as [|c p IH]; cbn; [by destruct l|]. by rewrite Z.eqb_refl. Qed.

Lemma ends_with_app l s : ends_with (l ++ s) s = true.
Proof. unfold ends_with. rewrite rev_app_distr. apply starts_with_app. Qed.

(** A text of digits does not end with a suffix of file names. *)
Lemma digits_not_suffix k l : digits l → ends_with l (SUFFIX k) = false.
Proof.
  intros Hd. unfold ends_with. apply Forall_rev in Hd. destruct (rev l) as [|c r]; [by destruct k|].
  apply Forall_cons in Hd as [Hc _]. unfold is_digit in Hc; cbn beta in Hc. bool_to_prop.
  destruct k; vm_compute rev; cbn [starts_with]; rewrite (proj2 (Z.eqb_neq _ _)) by lia; done.
Qed.

Lemma trim_end_digits k l : digits l → trim_end_matches (l ++ SUFFIX k) (SUFFIX k) = l.
Proof.
  intros Hd. unfold trim_end_matches. rewrite length_app.
  assert (∃ n, length l + length (SUFFIX k) = S n) as [n ->].
  { exists (length l + length (SUFFIX k) - 1). destruct k; cbn; lia. }
  cbn [trim_end_go]. rewrite ends_with_app, length_app, Nat.add_sub, take_app_length.
  destruct n; cbn [trim_end_go]; [done|]. by rewrite digits_not_suffix.
Qed.

(** The name given to a file is the name it is found by. *)
Theorem file_name_roundtrip k id :
  in_width 32 id → file_parse k (Some (file_name k id)) = Ok id.
Proof.
  intros Hid. unfold in_width in Hid. unfold file_parse, file_name.
  rewrite ends_with_app, trim_end_digits by (apply padded_spec; lia).
  rewrite parse_uint_padded by (unfold U32_MAX; lia). done.
Qed.

(** Names are not unique: a suffix written twice, missing padding or a plus sign
    lead to the same identifier. *)
Example file_names_alias :
  let parse s := file_parse SSTableFile (Some (bytes_of_string s)) in
  parse "000007.sst" = Ok 7%Z ∧ parse "000007.sst.sst" = Ok 7%Z ∧ parse "7.sst" = Ok 7%Z ∧
  parse "+7.sst" = Ok 7%Z ∧ parse "7.mem" = Err (EMsg "failed parse PathBuf").
Proof. vm_compute. split_and!; reflexivity. Qed.

(** The set of tables of a directory that holds the files of a set of tables and
    other entries that are no tables. *)
Lemma parse_set_from_dir_spec l id :
  id ∈ parse_set_from_dir (Some l) ↔
  ∃ name, (true, name) ∈ l ∧ file_parse SSTableFile name = Ok id.
Proof.
  unfold parse_set_from_dir. induction l as [|[b name] l IH] using rev_ind.
  - split; [set_solver|]. intros (? & H & _). by apply elem_of_nil in H.
  - rewrite foldl_app. cbn. setoid_rewrite elem_of_app. setoid_rewrite list_elem_of_singleton.
    destruct b; [destruct (file_parse SSTableFile name) as [i| |] eqn:Hp|];
      rewrite ?elem_of_union, ?elem_of_singleton, IH; clear IH; split.
    all: try (intros [->|(n & Hn & Hf)]; [by eauto|by eauto]).
    all: try (intros (n & Hn & Hf); by eauto).
    all: intros (n & [Hn|[=]] & Hf); subst; eauto; rewrite Hp in Hf; simplify_eq; eauto.
Qed.

(* ------------------------------------------------------------------ *)
(** ** Splitting and trimming *)

(** Text made of digits and of dashes and commas has nothing to trim. *)
Definition plain (l : list Z) : Prop := Forall (λ c, is_whitespace c = false) l.

Lemma trim_start_plain l : plain l → trim_start l = l.
Proof. intros H. destruct H as [|c l Hc _]; cbn; [done|]. by rewrite Hc. Qed.

Lemma plain_rev l : plain l → plain (rev l).
Proof. apply Forall_rev. Qed.

Lemma trim_plain l : plain l → trim l = l.
Proof.
  intros H. unfold trim. rewrite (trim_start_plain l H), trim_start_plain, rev_involutive; [done|].
  by apply plain_rev.
Qed.

Lemma digit_plain c : is_digit c = true → is_whitespace c = false.
Proof.
  unfold is_digit, is_whitespace. intros H. bool_to_prop.
  repeat first [rewrite (proj2 (Z.eqb_neq _ _)) by lia
               | rewrite (proj2 (Z.leb_gt _ _)) by lia
               | rewrite (proj2 (Z.leb_le _ _)) by lia]; reflexivity.
Qed.

Lemma digits_plain l : digits l → plain l.
Proof. intros H. eapply Forall_impl; [exact H|]. intros c. apply digit_plain. Qed.

Lemma split_on_none sep l : sep ∉ l → split_on sep l = [l].
Proof.
  induction l as [|c l IH]; [done|]. rewrite not_elem_of_cons. intros [Hc Hl]. cbn.
  rewrite (proj2 (Z.eqb_neq _ _)) by congruence. by rewrite IH.
Qed.

Lemma split_on_app sep a b : sep ∉ a → split_on sep (a ++ sep :: b) = a :: split_on sep b.
Proof.
  induction a as [|c a IH]; cbn; [by rewrite Z.eqb_refl|]. rewrite not_elem_of_cons. intros [Hc Ha].
  rewrite (proj2 (Z.eqb_neq _ _)) by congruence. by rewrite IH.
Qed.

Lemma digits_no_sep sep l : is_digit sep = false → digits l → sep ∉ l.
Proof. intros Hs Hd Hin. apply (proj1 (Forall_forall _ l) Hd) in Hin. congruence. Qed.

(** [pieces.join(sep)] for a separator of one character. *)
Fixpoint join (sep : Z) (ps : list (list Z)) : list Z :=
  match ps with
  | [] => []
  | [p] => p
  | p :: ps' => p ++ sep :: join sep ps'
  end.

Lemma split_on_join sep ps :
  ps ≠ [] → Forall (λ p, sep ∉ p) ps → split_on sep (join sep ps) = ps.
Proof.
  intros Hne H. induction H as [|p ps Hp Hps IH]; [done|].
  destruct ps as [|q ps]; [by apply split_on_none|].
  change (join sep (p :: q :: ps)) with (p ++ sep :: join sep (q :: ps)).
  by rewrite split_on_app, IH.
Qed.

Lemma plain_join sep ps : is_whitespace sep = false → Forall plain ps → plain (join sep ps).
Proof.
  intros Hs H. induction H as [|p ps Hp Hps IH]; [constructor|].
  destruct ps as [|q ps]; [done|].
  change (join sep (p :: q :: ps)) with (p ++ sep :: join sep (q :: ps)).
  apply Forall_app; split; [done|]. by constructor.
Qed.

Lemma parse_uint_decimal max n : (0 ≤ n ≤ max)%Z → (max < 10 ^ 20)%Z → parse_uint max (decimal n) = Some n.
Proof.
  intros Hn Hm. destruct (decimal_spec n) as (H1 & H2 & H3); [lia|].
  rewrite parse_uint_digits, H3; [done|exact H1|exact H2|lia].
Qed.
