(* ===== verification/Metrics.v ===== *)
(** * Metrics: the counters of a process, and the sizes of the directories

    src/src/util/metrics.rs.  The counters are static: one set for all databases
    of the process.  [fetch_add] and [fetch_sub] on [AtomicUsize] wrap; the counters
    by level are behind a mutex and [+=] on their [usize] panics on overflow (as
    compiled with overflow checks).

    [total_size] walks a directory tree.  The tree is what the file system answers:
    for a directory, that it cannot be listed or the entries in the order of
    [read_dir], each of which may be an error; an entry is a directory, a file
    whose metadata may fail, or neither. *)
From stdpp Require Import base list gmap strings.
From Stdlib Require Import ZArith Lia.
From S2P Require Import Prelude Text.

Local Open Scope Z_scope.

(** ** Counters *)

Definition usize_wrap (v : Z) : Z := v mod 2 ^ 64.

Definition fetch_add (counter val : Z) : Z := usize_wrap (counter + val).
Definition fetch_sub (counter val : Z) : Z := usize_wrap (counter - val).

Inductive Counter : Type :=
| NUM_COMPACTION_TABLES | NUM_BYTES_WRITTEN_USER | NUM_WRITES_VLOG | NUM_BYTES_VLOG_WRITTEN
| NUM_PUTS | NUM_GETS | NUM_MEMTABLE_GETS | NUM_GETS_WITH_RESULTS | NUM_BYTES_WRITTEN_TO_L0
| NUM_BLOOM_USE | NUM_BLOOM_NOT_EXIST.

#[export] Instance Counter_eq_dec : EqDecision Counter.
Proof. solve_decision. Defined.

Inductive LevelCounter : Type :=
| NUM_BLOOM_NOT_EXIST_LEVEL | NUM_BYTES_COMPACTION_WRITTEN | NUM_LSM_GETS.

#[export] Instance LevelCounter_eq_dec : EqDecision LevelCounter.
Proof. solve_decision. Defined.

Record Metrics : Type := mkMetrics {
  me_lsm_size : gmap nat Z;
  me_vlog_size : gmap nat Z;
  me_pending_writes : gmap nat nat;
  me_counters : Counter → Z;
  me_levels : LevelCounter → gmap Z Z
}.

Definition Metrics_init : Metrics := mkMetrics ∅ ∅ ∅ (λ _, 0) (λ _, ∅).

Definition set_counter (c : Counter) (v : Z) (m : Metrics) : Metrics :=
  mkMetrics (me_lsm_size m) (me_vlog_size m) (me_pending_writes m)
    (λ c', if decide (c' = c) then v else me_counters m c') (me_levels m).

Definition set_level (c : LevelCounter) (v : gmap Z Z) (m : Metrics) : Metrics :=
  mkMetrics (me_lsm_size m) (me_vlog_size m) (me_pending_writes m) (me_counters m)
    (λ c', if decide (c' = c) then v else me_levels m c').

(** The functions that add to a counter, and the one that takes away *)
Definition add_num (c : Counter) (val : Z) (m : Metrics) : Metrics :=
  set_counter c (fetch_add (me_counters m c) val) m.

Definition add_num_bytes_written_user : Z → Metrics → Metrics := add_num NUM_BYTES_WRITTEN_USER.
Definition add_num_writes_vlog : Z → Metrics → Metrics := add_num NUM_WRITES_VLOG.
Definition add_num_bytes_vlog_written : Z → Metrics → Metrics := add_num NUM_BYTES_VLOG_WRITTEN.
Definition add_num_compaction_tables : Z → Metrics → Metrics := add_num NUM_COMPACTION_TABLES.
Definition add_num_puts : Z → Metrics → Metrics := add_num NUM_PUTS.
Definition add_num_gets : Z → Metrics → Metrics := add_num NUM_GETS.
Definition add_num_memtable_gets : Z → Metrics → Metrics := add_num NUM_MEMTABLE_GETS.
Definition add_num_gets_with_result : Z → Metrics → Metrics := add_num NUM_GETS_WITH_RESULTS.
Definition add_num_bytes_written_to_l0 : Z → Metrics → Metrics := add_num NUM_BYTES_WRITTEN_TO_L0.
Definition add_num_bloom_use : Z → Metrics → Metrics := add_num NUM_BLOOM_USE.
Definition add_num_bloom_not_exist : Z → Metrics → Metrics := add_num NUM_BLOOM_NOT_EXIST.

Definition sub_num_compaction_tables (val : Z) (m : Metrics) : Metrics :=
  set_counter NUM_COMPACTION_TABLES (fetch_sub (me_counters m NUM_COMPACTION_TABLES) val) m.

(** The functions that add to the counter of a level *)
Definition add_num_level (c : LevelCounter) (level val : Z) (m : Metrics) : outcome Metrics :=
  match me_levels m c !! level with
  | Some v => v ← u64_add v val; Ok (set_level c (<[level := v]> (me_levels m c)) m)
  | None => Ok (set_level c (<[level := val]> (me_levels m c)) m)
  end.

Definition add_num_bytes_compaction_written : Z → Z → Metrics → outcome Metrics :=
  add_num_level NUM_BYTES_COMPACTION_WRITTEN.
Definition add_num_bloom_not_exist_level : Z → Z → Metrics → outcome Metrics :=
  add_num_level NUM_BLOOM_NOT_EXIST_LEVEL.
Definition add_num_lsm_gets : Z → Z → Metrics → outcome Metrics := add_num_level NUM_LSM_GETS.

Definition set_lsm_size (k : nat) (v : Z) (m : Metrics) : Metrics :=
  mkMetrics (<[k := v]> (me_lsm_size m)) (me_vlog_size m) (me_pending_writes m) (me_counters m) (me_levels m).

Definition set_vlog_size (k : nat) (v : Z) (m : Metrics) : Metrics :=
  mkMetrics (me_lsm_size m) (<[k := v]> (me_vlog_size m)) (me_pending_writes m) (me_counters m) (me_levels m).

(** The shared counter of a writer is named by a number. *)
Definition set_pending_writes (dir : nat) (req_len : nat) (m : Metrics) : Metrics :=
  mkMetrics (me_lsm_size m) (me_vlog_size m) (<[dir := req_len]> (me_pending_writes m)) (me_counters m) (me_levels m).

(** ** Directories *)

(** [path.is_dir()] and [path.is_file()] follow symbolic links and are [false] on
    error, so an entry that is neither is an [Other].  The path of a file is the
    text [to_string_lossy] gives. *)
Inductive Dir : Type :=
| Unreadable
| Listing (entries : list Ele)
with Ele : Type :=
| EleErr
| Sub (d : Dir)
| File (path : list Z) (len : option Z)
| Other.

Definition ls_sizes (path : list Z) (len : Z) (acc : Z * Z) : outcome (Z * Z) :=
  if ends_with path (bytes_of_string ".sst") then a ← u64_add acc.1 len; Ok (a, acc.2)
  else if ends_with path (bytes_of_string ".vlog") then b ← u64_add acc.2 len; Ok (acc.1, b)
  else Ok acc.

(** The loop of [total_size] over the entries of a directory, with the result for
    a directory below. *)
Definition walk (total_size : Dir → outcome (Z * Z)) : list Ele → Z * Z → outcome (Z * Z) :=
  fix walk es acc :=
    match es with
    | [] => Ok acc
    | EleErr :: _ => Err (EMsg "entry")
    | Sub d :: es' =>
        match total_size d with
        | Ok (sub_lsm, sub_vlog) =>
            a ← u64_add acc.1 sub_lsm;
            b ← u64_add acc.2 sub_vlog;
            walk es' (a, b)
        | Err _ => walk es' acc
        | Panic => Panic
        end
    | File path (Some len) :: es' => acc ← ls_sizes path len acc; walk es' acc
    | File path None :: _ => Err (EMsg "metadata")
    | Other :: es' => walk es' acc
    end.

(** [total_size]; the tree is finite, so the recursion is on it. *)
Fixpoint total_size (d : Dir) : outcome (Z * Z) :=
  match d with
  | Unreadable => Err (EMsg "read_dir")
  | Listing entries => walk total_size entries (0, 0)
  end.

(** [calculate_size]: an error counts as nothing. *)
Definition calculate_size (fs : nat → Dir) (level_dir vlog_dir : nat) (m : Metrics) : outcome Metrics :=
  '(lsm_size, vlog_size) ← match total_size (fs level_dir) with
                           | Ok r => Ok r
                           | Err _ => Ok (0, 0)
                           | Panic => Panic
                           end;
  let m := set_lsm_size level_dir lsm_size m in
  vlog_size ← (if decide (vlog_dir = level_dir) then Ok vlog_size
               else match total_size (fs vlog_dir) with
                    | Ok (_, v) => Ok v
                    | Err _ => Ok 0
                    | Panic => Panic
                    end);
  Ok (set_vlog_size vlog_dir vlog_size m).

(** [update_size]: the turns of the task; it measures at each tick and ends when
    the semaphore gives a permit. *)
Inductive UpdateTurn : Type :=
| Tick (fs : nat → Dir)
| Acquired.

Fixpoint update_size (level_dir vlog_dir : nat) (turns : list UpdateTurn) (m : Metrics) : outcome Metrics :=
  match turns with
  | [] => Ok m
  | Tick fs :: turns' => m ← calculate_size fs level_dir vlog_dir m; update_size level_dir vlog_dir turns' m
  | Acquired :: _ => Ok m
  end.

(* ------------------------------------------------------------------ *)
(** ** What a tree counts *)

(** An entry that ends the listing of its directory with an error. *)
Definition readable_ele (e : Ele) : bool :=
  match e with EleErr | File _ None => false | _ => true end.

Definition readable (d : Dir) : bool :=
  match d with Unreadable => false | Listing es => forallb readable_ele es end.

(** The files of a tree that count: those of a directory with an error count
    nowhere, nor do those below it. *)
Fixpoint counted (d : Dir) : list (list Z * Z) :=
  match d with
  | Unreadable => []
  | Listing es =>
      if forallb readable_ele es then
        flat_map (λ e, match e with
                       | Sub d' => counted d'
                       | File path (Some len) => [(path, len)]
                       | _ => []
                       end) es
      else []
  end.

Definition counted_ele (e : Ele) : list (list Z * Z) :=
  match e with
  | Sub d' => counted d'
  | File path (Some len) => [(path, len)]
  | _ => []
  end.

(** All files of a tree. *)
Fixpoint weight (d : Dir) : Z :=
  match d with
  | Unreadable => 0
  | Listing es =>
      foldr (λ e z, match e with
                    | Sub d' => weight d'
                    | File _ (Some len) => Z.max 0 len
                    | _ => 0
                    end + z) 0 es
  end.

Definition weight_ele (e : Ele) : Z :=
  match e with
  | Sub d' => weight d'
  | File _ (Some len) => Z.max 0 len
  | _ => 0
  end.

Definition is_lsm (path : list Z) : bool := ends_with path (bytes_of_string ".sst").
Definition is_vlog (path : list Z) : bool :=
  negb (is_lsm path) && ends_with path (bytes_of_string ".vlog").

(** The bytes of the files of a kind. *)
Definition bytes_of (kind : list Z → bool) (files : list (list Z * Z)) : Z :=
  foldr (λ f z, (if kind f.1 then Z.max 0 f.2 else 0) + z) 0 files.

Lemma bytes_of_app kind a b : bytes_of kind (a ++ b) = bytes_of kind a + bytes_of kind b.
Proof. unfold bytes_of. induction a as [|f a IH]; cbn [app foldr]; lia. Qed.

Lemma bytes_of_nonneg kind l : 0 ≤ bytes_of kind l.
Proof. unfold bytes_of. induction l as [|f l IH]; cbn [foldr]; [done|]. case_match; lia. Qed.

(** Induction on trees, with the hypothesis for every directory below. *)
Lemma Dir_ind' (P : Dir → Prop) :
  P Unreadable →
  (∀ es, Forall (λ e, match e with Sub d => P d | _ => True end) es → P (Listing es)) →
  ∀ d, P d.
Proof.
  intros HU HL. fix IH 1. intros [|es]; [exact HU|]. apply HL. revert es. fix go 1.
  intros [|[|d|p o|] es]; [apply Forall_nil_2|..]; (apply Forall_cons_2; [|apply go]);
    first [exact I|apply IH].
Qed.

Definition weights (es : list Ele) : Z := foldr (λ e z, weight_ele e + z) 0 es.

Lemma weight_nonneg d : 0 ≤ weight d.
Proof.
  induction d as [|es IH] using Dir_ind'; [done|]. cbn [weight].
  induction IH as [|e es He _ IHes]; cbn [foldr]; [done|].
  destruct e as [|d|p [n|]|]; lia.
Qed.

Lemma weights_cons e es : weights (e :: es) = weight_ele e + weights es.
Proof. done. Qed.

Lemma weights_nonneg es : 0 ≤ weights es.
Proof.
  induction es as [|e es IH]; [done|]. rewrite weights_cons.
  destruct e as [|d|p [n|]|]; cbn [weight_ele]; [|pose proof (weight_nonneg d)|..]; lia.
Qed.

(** What counts is no more than all there is. *)
Lemma counted_le kind d : bytes_of kind (counted d) ≤ weight d.
Proof.
  induction d as [|es IH] using Dir_ind'; [done|]. cbn [counted].
  case_match; [|apply weight_nonneg]. cbn [weight]. clear H.
  induction IH as [|e es He _ IHes]; cbn [foldr flat_map]; [done|].
  rewrite bytes_of_app. destruct e as [|d|p [n|]|]; unfold bytes_of at 1; cbn [foldr fst snd]; try lia.
  - fold (bytes_of kind (counted d)). lia.
  - case_match; lia.
Qed.

(** The lengths the file system reports. *)
Fixpoint lens_ok (d : Dir) : Prop :=
  match d with
  | Unreadable => True
  | Listing es =>
      foldr (λ e P, match e with
                    | Sub d' => lens_ok d'
                    | File _ (Some len) => 0 ≤ len
                    | _ => True
                    end ∧ P) True es
  end.

Lemma u64_add_Ok a b : a + b < 2 ^ 64 → u64_add a b = Ok (a + b).
Proof. intros H. unfold u64_add. destruct (Z.leb_spec (a + b) U64_MAX); [done|unfold U64_MAX in *; lia]. Qed.

Definition sizes (files : list (list Z * Z)) : Z * Z := (bytes_of is_lsm files, bytes_of is_vlog files).

Lemma ls_sizes_Ok path len acc :
  0 ≤ len → acc.1 + len < 2 ^ 64 → acc.2 + len < 2 ^ 64 →
  ls_sizes path len acc =
    Ok (acc.1 + bytes_of is_lsm [(path, len)], acc.2 + bytes_of is_vlog [(path, len)]).
Proof.
  intros H0 H1 H2. unfold ls_sizes, bytes_of, is_vlog, is_lsm. cbn [foldr fst snd].
  rewrite !Z.add_0_r, Z.max_r by done. destruct acc as [a b]; cbn [fst snd] in *.
  destruct (ends_with path (bytes_of_string ".sst")); cbn [negb andb].
  - rewrite u64_add_Ok, Z.add_0_r by done. done.
  - destruct (ends_with path (bytes_of_string ".vlog")).
    + rewrite u64_add_Ok, Z.add_0_r by done. done.
    + by rewrite !Z.add_0_r.
Qed.

Definition lens_ele (e : Ele) : Prop :=
  match e with
  | Sub d' => lens_ok d'
  | File _ (Some len) => 0 ≤ len
  | _ => True
  end.

Lemma lens_ok_Forall es : lens_ok (Listing es) → Forall lens_ele es.
Proof. cbn [lens_ok]. induction es as [|e es IH]; [constructor|]. intros [He Hes]. constructor; auto. Qed.

Definition size_spec (d : Dir) : Prop :=
  lens_ok d → weight d < 2 ^ 64 →
  if readable d then total_size d = Ok (sizes (counted d)) else ∃ e, total_size d = Err e.

Lemma unreadable_counts_nothing d : readable d = false → counted d = [].
Proof. destruct d as [|es]; [done|]. cbn [readable counted]. by intros ->. Qed.

Lemma walk_spec es acc :
  Forall (λ e, match e with Sub d => size_spec d | _ => True end) es →
  Forall lens_ele es → 0 ≤ acc.1 → 0 ≤ acc.2 →
  acc.1 + weights es < 2 ^ 64 → acc.2 + weights es < 2 ^ 64 →
  if forallb readable_ele es
  then walk total_size es acc =
         Ok (acc.1 + bytes_of is_lsm (flat_map counted_ele es), acc.2 + bytes_of is_vlog (flat_map counted_ele es))
  else ∃ e, walk total_size es acc = Err e.
Proof.
  intros Hs. revert acc. induction Hs as [|e es He _ IH]; intros acc Hl H1 H2 W1 W2.
  { cbn. by rewrite !Z.add_0_r, <- surjective_pairing. }
  apply Forall_cons in Hl as [Hle Hl]. rewrite weights_cons in W1, W2. pose proof (weights_nonneg es) as W0.
  cbn [flat_map forallb]. rewrite !bytes_of_app, !Z.add_assoc. destruct e as [|d|p [n|]|].
  - by eexists.
  - cbn [readable_ele andb counted_ele walk]. cbn [weight_ele] in W1, W2.
    pose proof (counted_le is_lsm d) as B1. pose proof (counted_le is_vlog d) as B2.
    pose proof (bytes_of_nonneg is_lsm (counted d)) as N1. pose proof (bytes_of_nonneg is_vlog (counted d)) as N2.
    specialize (He Hle ltac:(lia)). destruct (readable d) eqn:Er.
    + rewrite He. unfold sizes. rewrite !u64_add_Ok by lia. cbn [mbind outcome_bind].
      specialize (IH (acc.1 + bytes_of is_lsm (counted d), acc.2 + bytes_of is_vlog (counted d))).
      cbn [fst snd] in IH. apply IH; [done|lia..].
    + destruct He as [e ->]. rewrite (unreadable_counts_nothing d Er). cbn [bytes_of foldr]. rewrite !Z.add_0_r.
      pose proof (weight_nonneg d). apply IH; [done|lia..].
  - cbn [readable_ele andb counted_ele walk]. cbn [weight_ele lens_ele] in *. rewrite Z.max_r in W1, W2 by done.
    rewrite ls_sizes_Ok by lia. cbn [mbind outcome_bind].
    assert (bytes_of is_lsm [(p, n)] ≤ n ∧ bytes_of is_vlog [(p, n)] ≤ n) as [B1 B2].
    { unfold bytes_of. cbn [foldr fst snd]. split; [destruct (is_lsm p)|destruct (is_vlog p)]; lia. }
    pose proof (bytes_of_nonneg is_lsm [(p, n)]) as N1. pose proof (bytes_of_nonneg is_vlog [(p, n)]) as N2.
    specialize (IH (acc.1 + bytes_of is_lsm [(p, n)], acc.2 + bytes_of is_vlog [(p, n)])).
    cbn [fst snd] in IH. apply IH; [done|lia..].
  - by eexists.
  - cbn [readable_ele andb counted_ele walk bytes_of foldr]. rewrite !Z.add_0_r. apply IH; [done|done..|cbn [weight_ele] in *; lia|cbn [weight_ele] in *; lia].
Qed.

(** [total_size] of a directory tree: when the directory can be read, the bytes
    of the tables and of the value logs in it and in every directory below it that
    can be read, each file once, by the end of its name; a directory below with an
    error anywhere in its own listing is passed over with all it holds.  When the
    directory itself cannot be read, or an entry or a file of it cannot, the answer is
    an error. *)
Theorem total_size_counts d :
  lens_ok d → weight d < 2 ^ 64 →
  if readable d then total_size d = Ok (sizes (counted d)) else ∃ e, total_size d = Err e.
Proof.
  change (size_spec d). induction d as [|es IH] using Dir_ind'; [by eexists|].
  intros Hl Hw. pose proof (walk_spec es (0, 0) IH (lens_ok_Forall es Hl)) as H.
  cbn [fst snd readable total_size counted] in *. unfold weights in H.
  specialize (H ltac:(lia) ltac:(lia) Hw Hw). by destruct (forallb readable_ele es).
Qed.

(** The sizes of both directories, as the metrics keep them. *)
Theorem calculate_size_sets fs level_dir vlog_dir m :
  (∀ d, lens_ok (fs d) ∧ weight (fs d) < 2 ^ 64) →
  ∃ m', calculate_size fs level_dir vlog_dir m = Ok m' ∧
    me_lsm_size m' !! level_dir = Some (bytes_of is_lsm (counted (fs level_dir))) ∧
    me_vlog_size m' !! vlog_dir = Some (bytes_of is_vlog (counted (fs vlog_dir))) ∧
    me_counters m' = me_counters m ∧ me_levels m' = me_levels m.
Proof.
  intros Hfs.
  assert (∀ d, total_size (fs d) = Ok (sizes (counted (fs d))) ∨
               (∃ e, total_size (fs d) = Err e) ∧ counted (fs d) = []) as Hd.
  { intros d. destruct (Hfs d) as [Hl Hw]. pose proof (total_size_counts (fs d) Hl Hw) as H.
    destruct (readable (fs d)) eqn:Er; [by left|right]. by split; [|apply unreadable_counts_nothing]. }
  assert (match total_size (fs level_dir) with Ok r => Ok r | Err _ => Ok (0, 0) | Panic => Panic end =
          Ok (sizes (counted (fs level_dir)))) as E1 by (by destruct (Hd level_dir) as [->|[[e ->] ->]]).
  assert (match total_size (fs vlog_dir) with Ok (_, v) => Ok v | Err _ => Ok 0 | Panic => Panic end =
          Ok (bytes_of is_vlog (counted (fs vlog_dir)))) as E2 by (by destruct (Hd vlog_dir) as [->|[[e ->] ->]]).
  unfold calculate_size. rewrite E1, E2. unfold sizes. cbn [mbind outcome_bind].
  assert ((if decide (vlog_dir = level_dir) then Ok (bytes_of is_vlog (counted (fs level_dir)))
           else Ok (bytes_of is_vlog (counted (fs vlog_dir)))) =
          Ok (bytes_of is_vlog (counted (fs vlog_dir)))) as -> by (case_decide; congruence).
  eexists. split; [reflexivity|]. cbn [me_lsm_size me_vlog_size set_vlog_size set_lsm_size].
  by rewrite !lookup_insert_eq.
Qed.

(** ** Counters under interleaving *)

(** The steps the threads of the process take on one counter, in any order. *)
Inductive CounterStep : Type :=
| Add (c : Counter) (val : Z)
| SubTables (val : Z).

Definition counter_step (m : Metrics) (s : CounterStep) : Metrics :=
  match s with
  | Add c val => add_num c val m
  | SubTables val => sub_num_compaction_tables val m
  end.

(** What a step adds to a counter. *)
Definition delta (c : Counter) (s : CounterStep) : Z :=
  match s with
  | Add c' val => if decide (c = c') then val else 0
  | SubTables val => if decide (c = NUM_COMPACTION_TABLES) then - val else 0
  end.

Definition deltas (c : Counter) (l : list CounterStep) : Z := foldr (λ s z, delta c s + z) 0 l.

Lemma counter_step_value m s c :
  me_counters (counter_step m s) c mod 2 ^ 64 = (me_counters m c + delta c s) mod 2 ^ 64.
Proof.
  destruct s as [c' val|val]; cbn [counter_step delta]; unfold add_num, sub_num_compaction_tables, set_counter;
    cbn [me_counters]; (case_decide; [subst|by rewrite Z.add_0_r]);
    unfold fetch_add, fetch_sub, usize_wrap; rewrite Z.mod_mod by lia; f_equal; lia.
Qed.

(** A counter is the sum of what was added to it, modulo its width, whatever the
    order in which the threads reach it; a level's counters do not move. *)
Theorem counters_sum m l c :
  me_counters (foldl counter_step m l) c mod 2 ^ 64 = (me_counters m c + deltas c l) mod 2 ^ 64 ∧
  me_levels (foldl counter_step m l) = me_levels m.
Proof.
  revert m. induction l as [|s l IH]; intros m; cbn [foldl deltas foldr].
  { by rewrite Z.add_0_r. }
  destruct (IH (counter_step m s)) as [E1 E2]. split; [|rewrite E2; by destruct s].
  rewrite E1, <- Zplus_mod_idemp_l, counter_step_value, Zplus_mod_idemp_l. f_equal. unfold deltas. lia.
Qed.

(** The order does not matter. *)
Lemma deltas_perm c l l' : l ≡ₚ l' → deltas c l = deltas c l'.
Proof. unfold deltas. induction 1; cbn [foldr]; lia. Qed.

(** Counters by level. *)
Definition level_count (m : Metrics) (c : LevelCounter) (level : Z) : Z := default 0 (me_levels m c !! level).

Lemma add_num_level_counts c level val m :
  0 ≤ level_count m c level → level_count m c level + val < 2 ^ 64 →
  ∃ m', add_num_level c level val m = Ok m' ∧
    level_count m' c level = level_count m c level + val ∧
    (∀ c' l', (c', l') ≠ (c, level) → level_count m' c' l' = level_count m c' l').
Proof.
  unfold add_num_level, level_count. intros H0 Hw.
  assert (∀ v, ∃ m', m' = set_level c (<[level := v]> (me_levels m c)) m ∧
    default 0 (me_levels m' c !! level) = v ∧
    (∀ c' l', (c', l') ≠ (c, level) → default 0 (me_levels m' c' !! l') = default 0 (me_levels m c' !! l'))) as Hset.
  { intros v. eexists. split; [reflexivity|]. cbn [me_levels set_level]. split.
    - rewrite decide_True by done. by rewrite lookup_insert_eq.
    - intros c' l' Hne. case_decide; [subst|done]. rewrite lookup_insert_ne; [done|congruence]. }
  destruct (me_levels m c !! level) as [v|] eqn:E; cbn [default] in *.
  - rewrite u64_add_Ok by done. destruct (Hset (v + val)) as (m' & -> & H1 & H2). eexists. by split_and!.
  - destruct (Hset val) as (m' & -> & H1 & H2). eexists. split_and!; [done|by rewrite H1|done].
Qed.

(** ** Examples *)

Module MetricsExamples.

Definition path (s : string) : list Z := bytes_of_string s.

Definition tree : Dir :=
  Listing [File (path "000001.sst") (Some 10); File (path "000001.vlog") (Some 7); Other;
           Sub (Listing [File (path "x.sst") (Some 5); EleErr]);
           Sub (Listing [File (path "d/y.sst") (Some 3); Sub Unreadable; File (path "LOCK") (Some 4)])].

Lemma tree_measured : total_size tree = Ok (13, 7).
Proof. reflexivity. Qed.

Lemma total_size_counts_witness :
  total_size tree = Ok (sizes (counted tree)) ∧ sizes (counted tree) = (13, 7).
Proof.
  split; [|reflexivity]. apply (total_size_counts tree); [cbn; lia|reflexivity].
Defined.

(** The block at the head of [compact_build_tables]: the deferred subtraction runs
    when the block ends, so the counter is back before the compaction starts. *)
Lemma compaction_tables_uncounted val :
  0 ≤ val < 2 ^ 64 →
  me_counters (sub_num_compaction_tables val (add_num_compaction_tables val Metrics_init)) NUM_COMPACTION_TABLES = 0.
Proof.
  intros H. unfold sub_num_compaction_tables, add_num_compaction_tables, add_num, set_counter. cbn [me_counters].
  rewrite !decide_True by done. unfold fetch_sub, fetch_add, usize_wrap. cbn [me_counters Metrics_init].
  rewrite Z.add_0_l, (Z.mod_small val) by lia. by rewrite Z.sub_diag.
Qed.

(** Taking more tables out than were counted in wraps. *)
Lemma compaction_tables_wrap :
  me_counters (sub_num_compaction_tables 1 Metrics_init) NUM_COMPACTION_TABLES = 2 ^ 64 - 1.
Proof. reflexivity. Qed.

End MetricsExamples.
