(* ===== verification/Float64.v ===== *)
(** * Float64: the double-precision numbers of the code

    [f64] as the standard library's [spec_float] at precision 53 and exponent
    bound 1024: conversions, arithmetic rounded to nearest even, comparisons that
    are false on a NaN, and casts to integers that truncate and saturate, as
    Rust's [as] does. *)
From stdpp Require Import base list.
From Stdlib Require Import ZArith Lia SpecFloat.
From S2P Require Import Prelude.

Local Open Scope Z_scope.

Definition f64 : Type := spec_float.

(** [n as f64] for an unsigned integer *)
Definition f64_of (n : Z) : f64 := binary_normalize 53 1024 n 0 false.

Definition f64_add : f64 → f64 → f64 := SFadd 53 1024.
Definition f64_mul : f64 → f64 → f64 := SFmul 53 1024.
Definition f64_div : f64 → f64 → f64 := SFdiv 53 1024.

Definition f64_ltb : f64 → f64 → bool := SFltb.
Definition f64_leb : f64 → f64 → bool := SFleb.
Definition f64_eqb : f64 → f64 → bool := SFeqb.
Definition f64_partial_cmp : f64 → f64 → option comparison := SFcompare.

(** [f as u] for an unsigned type with greatest value [max] *)
Definition f64_to (max : Z) (f : f64) : Z :=
  match f with
  | S754_finite false m e => Z.min max (if 0 <=? e then Zpos m * 2 ^ e else Zpos m / 2 ^ (- e))
  | S754_infinity false => max
  | _ => 0
  end.

Definition f64_zero : f64 := S754_zero false.
Definition f64_one : f64 := f64_of 1.

(** [x < y] is decided by exactly one of the two comparisons, unless one of them is
    a NaN, on which every comparison is false. *)
Lemma f64_nan_compare f : f64_ltb S754_nan f = false ∧ f64_ltb f S754_nan = false ∧
  f64_leb S754_nan f = false ∧ f64_leb f S754_nan = false.
Proof. destruct f as [[]|[]| |[]]; done. Qed.

Lemma f64_ltb_leb f g : f64_ltb f g = true → f64_leb f g = true.
Proof. unfold f64_ltb, f64_leb, SFltb, SFleb. by destruct (SFcompare f g) as [[]|]. Qed.

Lemma f64_to_bounds max f : 0 ≤ max → 0 ≤ f64_to max f ≤ max.
Proof.
  intros H. unfold f64_to. destruct f as [s|s| |[] m e]; try (destruct s); try lia.
  destruct (0 <=? e) eqn:E; [apply Z.leb_le in E|apply Z.leb_gt in E].
  - pose proof (Z.pow_pos_nonneg 2 e ltac:(lia) E). nia.
  - pose proof (Z.pow_pos_nonneg 2 (- e) ltac:(lia) ltac:(lia)).
    pose proof (Z.div_pos (Zpos m) (2 ^ (- e)) ltac:(lia) ltac:(lia)). lia.
Qed.


(** Comparing the other way round gives the opposite answer. *)
Lemma f64_compare_swap f g : f64_partial_cmp g f = CompOpp <$> f64_partial_cmp f g.
Proof.
  unfold f64_partial_cmp. destruct f as [[]|[]| |[] m e], g as [[]|[]| |[] m' e']; try done; cbn [SFcompare].
  all: rewrite (Z.compare_antisym e e'); destruct (e ?= e')%Z eqn:E; cbn [CompOpp fmap option_fmap option_map]; try done.
  all: change (Pos.compare_cont Eq m' m) with (m' ?= m)%positive; change (Pos.compare_cont Eq m m') with (m ?= m')%positive.
  all: rewrite (Pos.compare_antisym m m'); by destruct (m ?= m')%positive.
Qed.

(** Two numbers are comparable unless one is a NaN. *)
Lemma f64_compare_some f g : f ≠ S754_nan → g ≠ S754_nan → is_Some (f64_partial_cmp f g).
Proof.
  intros Hf Hg. unfold f64_partial_cmp.
  destruct f as [[]|[]| |[] m e], g as [[]|[]| |[] m' e']; try done; cbn [SFcompare]; try by eexists.
  all: destruct (e ?= e')%Z; by eexists.
Qed.

Lemma f64_leb_compare f g : f64_leb f g = true ↔ f64_partial_cmp f g = Some Eq ∨ f64_partial_cmp f g = Some Lt.
Proof. unfold f64_leb, SFleb, f64_partial_cmp. destruct (SFcompare f g) as [[]|]; naive_solver. Qed.
