(* ===== verification/Util.v ===== *)
(** * Util: the binary search of src/src/util/mod.rs

    [search] is the loop of [util::search]; the slice method
    [binary_search_by] of the standard library runs the same loop over the
    elements of a slice.  Comparators may panic (they slice byte buffers), so
    the search is written in the [outcome] monad. *)
From stdpp Require Import base list.
From Stdlib Require Import ZArith Lia.
From S2P Require Import Prelude.

(** [Result<usize, usize>] of a search: [Ok i] or [Err i]. *)
Inductive search_result : Type :=
| Found (i : nat)
| NotFound (i : nat).

(** The [while left < right] loop; the interval shrinks at each turn, so [n]
    turns are enough (see [search_spec]). *)
Fixpoint search_loop (fuel : nat) (f : nat → outcome comparison)
    (left right : nat) : outcome search_result :=
  match fuel with
  | O => Ok (NotFound left)
  | S fuel' =>
      if left <? right then
        let mid := (left + right) / 2 in
        ord ← f mid;
        match ord with
        | Gt => search_loop fuel' f left mid
        | Lt => search_loop fuel' f (mid + 1) right
        | Eq => Ok (Found mid)
        end
      else Ok (NotFound left)
  end.

Definition search (n : nat) (f : nat → outcome comparison) : outcome search_result :=
  search_loop n f 0 n.

(** [slice::binary_search_by]. *)
Definition binary_search_by {A} (l : list A) (f : A → outcome comparison) :
    outcome search_result :=
  search (length l) (λ i, x ← idx l i; f x).

(** The comparator is ordered on [0..n): everything before a [Less] is [Less]
    and everything after a [Greater] is [Greater]. *)
Definition ordered_cmp (n : nat) (f : nat → comparison) : Prop :=
  ∀ i j, i < j → j < n →
    (f j = Lt → f i = Lt) ∧ (f i = Gt → f j = Gt) ∧ (f i = Eq → f j ≠ Lt).

(** What the caller of a search may rely on. *)
Definition search_post (n : nat) (f : nat → comparison) (r : search_result) : Prop :=
  match r with
  | Found i => i < n ∧ f i = Eq
  | NotFound i => i ≤ n ∧ (∀ j, j < i → f j = Lt) ∧ (∀ j, i ≤ j → j < n → f j = Gt)
  end.

(* ------------------------------------------------------------------ *)
(** ** Correctness of the search *)

Lemma search_loop_spec n f g fuel left right :
  (∀ i, i < n → g i = Ok (f i)) →
  ordered_cmp n f →
  right ≤ n → left ≤ right → right - left ≤ fuel →
  (∀ j, j < left → f j = Lt) →
  (∀ j, right ≤ j → j < n → f j = Gt) →
  ∃ r, search_loop fuel g left right = Ok r ∧ search_post n f r.
Proof.
  intros Hg Hord. revert left right.
  induction fuel as [|fuel IH]; intros left right Hr Hlr Hf Hlo Hhi; cbn [search_loop].
  { exists (NotFound left). split; [done|]. cbn. split_and!; [lia|done|].
    intros j ??. apply Hhi; lia. }
  destruct (left <? right) eqn:Elr; bool_to_prop.
  2:{ exists (NotFound left). split; [done|]. cbn. split_and!; [lia|done|].
      intros j ??. apply Hhi; lia. }
  assert (left ≤ (left + right) / 2 < right) as [Hm1 Hm2].
  { split; [apply Nat.div_le_lower_bound|apply Nat.Div0.div_lt_upper_bound]; lia. }
  set (mid := (left + right) / 2) in *.
  rewrite Hg by lia. cbn [mbind outcome_bind].
  destruct (f mid) eqn:Emid.
  - exists (Found mid). split; [done|]. split; [lia|done].
  - apply IH; try lia; [|done].
    intros j Hj. destruct (decide (j = mid)) as [->|]; [done|].
    apply (Hord j mid); [lia|lia|done].
  - apply IH; try lia; [done|].
    intros j Hj1 Hj2. destruct (decide (j = mid)) as [->|]; [done|].
    apply (Hord mid j); [lia|lia|done].
Qed.

Lemma search_ok n f g :
  (∀ i, i < n → g i = Ok (f i)) → ordered_cmp n f →
  ∃ r, search n g = Ok r ∧ search_post n f r.
Proof.
  intros Hg Hord. apply (search_loop_spec n f g); auto; lia.
Qed.

Lemma search_post_found n f r i :
  search_post n f r → i < n → f i = Eq → ∃ j, r = Found j.
Proof.
  intros Hp Hi Hf. destruct r as [j|j]; [eauto|]. cbn in Hp.
  destruct Hp as (? & Hlo & Hhi). destruct (decide (i < j)).
  - rewrite Hlo in Hf by lia. done.
  - rewrite Hhi in Hf by lia. done.
Qed.

Lemma binary_search_by_ok {A} (l : list A) (f : A → comparison) (g : A → outcome comparison) :
  (∀ x, x ∈ l → g x = Ok (f x)) →
  (∀ i j x y, i < j → l !! i = Some x → l !! j = Some y →
     (f y = Lt → f x = Lt) ∧ (f x = Gt → f y = Gt) ∧ (f x = Eq → f y ≠ Lt)) →
  ∃ r, binary_search_by l g = Ok r ∧
    match r with
    | Found i => ∃ x, l !! i = Some x ∧ f x = Eq
    | NotFound i => i ≤ length l ∧
        (∀ j x, j < i → l !! j = Some x → f x = Lt) ∧
        (∀ j x, i ≤ j → l !! j = Some x → f x = Gt)
    end.
Proof.
  intros Hg Hord. unfold binary_search_by.
  set (F := λ i, match l !! i with Some x => f x | None => Gt end).
  destruct (search_ok (length l) F (λ i, x ← idx l i; g x)) as (r & Hr & Hpost).
  { intros i Hi. destruct (lookup_lt_is_Some_2 l i Hi) as [x Hx].
    rewrite (idx_Ok _ _ _ Hx). cbn [mbind outcome_bind].
    unfold F. rewrite Hx. apply Hg, list_elem_of_lookup. by exists i. }
  { intros i j Hij Hj. unfold F. clear Hg.
    destruct (lookup_lt_is_Some_2 l j Hj) as [y Hy]. rewrite Hy.
    destruct (lookup_lt_is_Some_2 l i) as [x Hx]; [lia|]. rewrite Hx.
    exact (Hord i j x y Hij Hx Hy). }
  exists r. split; [done|]. destruct r as [i|i]; cbn in Hpost.
  - destruct Hpost as [Hi Hf]. destruct (lookup_lt_is_Some_2 l i Hi) as [x Hx].
    exists x. split; [done|]. unfold F in Hf. by rewrite Hx in Hf.
  - destruct Hpost as (Hi & Hlo & Hhi). split_and!; [done| |].
    + intros j x Hj Hx. specialize (Hlo j Hj). unfold F in Hlo. by rewrite Hx in Hlo.
    + intros j x Hj Hx. specialize (Hhi j Hj (lookup_lt_Some _ _ _ Hx)).
      unfold F in Hhi. by rewrite Hx in Hhi.
Qed.

Definition never_eq_2 (i : nat) : comparison := Nat.compare i 2.

(** [search n f] terminates on every comparator that is ordered on
    [0..n): it answers [Found i] only at an index where the comparator says
    [Equal], it answers [NotFound i] only when every index below [i] is [Less]
    and every index from [i] on is [Greater], and it never misses a match. *)
Theorem search_correct n (f : nat → comparison) :
  ordered_cmp n f →
  ∃ r, search n (λ i, Ok (f i)) = Ok r ∧ search_post n f r ∧
       ((∃ i, i < n ∧ f i = Eq) → ∃ j, r = Found j).
Proof.
  intros Hord. destruct (search_ok n f (λ i, Ok (f i))) as (r & Hr & Hp); [done|done|].
  exists r. split_and!; [done|done|].
  intros (i & Hi & Hf). by eapply search_post_found.
Qed.

Lemma search_correct_witness :
  ordered_cmp 5 never_eq_2 ∧
  ∃ r, search 5 (λ i, Ok (never_eq_2 i)) = Ok r ∧ search_post 5 never_eq_2 r ∧
       ((∃ i, i < 5 ∧ never_eq_2 i = Eq) → ∃ j, r = Found j).
Proof.
  assert (ordered_cmp 5 never_eq_2) as H.
  { intros i j ??. unfold never_eq_2. split_and!;
      rewrite ?Nat.compare_lt_iff, ?Nat.compare_gt_iff, ?Nat.compare_eq_iff; lia. }
  split; [exact H|]. apply (search_correct 5 never_eq_2 H).
Defined.

(** The assertions of [test_search]. *)
Example search_test_1 : search 5 (λ n, Ok (Nat.compare n 2)) = Ok (Found 2).
Proof. reflexivity. Qed.

Example search_test_2 : search 10 (λ n, Ok (Nat.compare n 11)) = Ok (NotFound 10).
Proof. reflexivity. Qed.

Example search_test_3 : binary_search_by [1;3;5]%Z (λ x, Ok (Z.compare x 2)) = Ok (NotFound 1).
Proof. reflexivity. Qed.

Example search_test_4 : binary_search_by [1;3;5]%Z (λ x, Ok (Z.compare x 5)) = Ok (Found 2).
Proof. reflexivity. Qed.
