(* ===== verification/VarInt.v ===== *)
(** * VarInt: the interface of the variable-length integer codec

    The program calls [encode_var], [decode_var] and [required_space] of the
    crate [integer_encoding], whose source is not part of the repository.  The
    class [VarInt] holds these operations and [VarIntLaws] the documented
    behaviour its clients rely on.  [leb128] is an instance: the base-128
    format the crate documents. *)
From stdpp Require Import base list.
From Stdlib Require Import ZArith Lia.
From S2P Require Import Prelude.

(** [decode_var w] is [uW::decode_var]: the value and the bytes consumed. *)
Class VarInt : Type := {
  encode_var : Z → list Z;
  decode_var : Z → list Z → option (Z * nat);
  required_space : Z → nat
}.

Class VarIntLaws `{VarInt} : Prop := {
  length_encode_var : ∀ v, in_width 64 v → length (encode_var v) = required_space v;
  encode_var_is_bytes : ∀ v, in_width 64 v → is_bytes (encode_var v);
  decode_encode_var : ∀ w v rest, (w = 32 ∨ w = 64)%Z → in_width w v →
    decode_var w (encode_var v ++ rest) = Some (v, required_space v);
  decode_var_consumed : ∀ w l v n, decode_var w l = Some (v, n) → n ≤ length l;
  required_space_0 : required_space 0 = 1;
  required_space_pos : ∀ v, in_width 64 v → 1 ≤ required_space v ≤ 10;
  required_space_u32 : ∀ v, in_width 32 v → required_space v ≤ 5
}.

(* ------------------------------------------------------------------ *)
(** ** The base-128 instance *)

Fixpoint leb_encode (fuel : nat) (v : Z) : list Z :=
  match fuel with
  | O => []
  | S fuel' =>
      if (v <? 128)%Z then [v]
      else (v `mod` 128 + 128)%Z :: leb_encode fuel' (v / 128)%Z
  end.

Fixpoint leb_decode (l : list Z) : option (Z * nat) :=
  match l with
  | [] => None
  | b :: l' =>
      if (b <? 128)%Z then Some (b, 1)
      else match leb_decode l' with
           | Some (v, n) => Some ((b - 128) + 128 * v, S n)%Z
           | None => None
           end
  end.

#[export] Instance leb128 : VarInt | 100 := {|
  encode_var v := leb_encode 10 v;
  decode_var w l := leb_decode l;
  required_space v := length (leb_encode 10 v)
|}.

Lemma leb_decode_encode fuel v rest :
  fuel ≠ 0 → (0 ≤ v < 128 ^ Z.of_nat fuel)%Z →
  leb_decode (leb_encode fuel v ++ rest) = Some (v, length (leb_encode fuel v)).
Proof.
  revert v. induction fuel as [|fuel IH]; intros v Hf Hv; [done|].
  cbn [leb_encode]. destruct (v <? 128)%Z eqn:E; bool_to_prop.
  { cbn. destruct (v <? 128)%Z eqn:E'; bool_to_prop; [done|lia]. }
  rewrite Nat2Z.inj_succ, Z.pow_succ_r in Hv by lia.
  assert (0 ≤ v / 128 < 128 ^ Z.of_nat fuel)%Z as Hd.
  { split; [apply Z.div_pos; lia|apply Z.div_lt_upper_bound; lia]. }
  pose proof (Z.mod_pos_bound v 128) as Hm.
  cbn [app leb_decode length].
  destruct (_ <? 128)%Z eqn:E'; bool_to_prop; [lia|].
  destruct fuel as [|fuel].
  { cbn in Hd. assert (1 ≤ v / 128)%Z by (apply Z.div_le_lower_bound; lia). lia. }
  rewrite IH by (done || lia). repeat f_equal.
  pose proof (Z.div_mod v 128). lia.
Qed.

Lemma leb_encode_is_bytes fuel v : (0 ≤ v)%Z → is_bytes (leb_encode fuel v).
Proof.
  revert v. induction fuel as [|fuel IH]; intros v Hv; cbn [leb_encode]; [constructor|].
  destruct (v <? 128)%Z eqn:E; bool_to_prop.
  - constructor; [unfold in_width; lia|constructor].
  - pose proof (Z.mod_pos_bound v 128). constructor; [unfold in_width; lia|].
    apply IH, Z.div_pos; lia.
Qed.

Lemma leb_encode_length fuel v : fuel ≠ 0 → 1 ≤ length (leb_encode fuel v) ≤ fuel.
Proof.
  revert v. induction fuel as [|fuel IH]; intros v Hf; [done|].
  cbn [leb_encode]. destruct (v <? 128)%Z; cbn [length]; [lia|].
  destruct fuel; [cbn; lia|]. specialize (IH (v / 128)%Z). lia.
Qed.

(** Seven bits per byte. *)
Lemma leb_encode_short fuel n v :
  n ≠ 0 → (0 ≤ v < 128 ^ Z.of_nat n)%Z → length (leb_encode fuel v) ≤ n.
Proof.
  revert n v. induction fuel as [|fuel IH]; intros n v Hn Hv; cbn [leb_encode length]; [lia|].
  destruct (v <? 128)%Z eqn:E; bool_to_prop; cbn [length]; [lia|].
  destruct n as [|[|n]]; [done|cbn in Hv; lia|]. apply le_n_S, (IH (S n)); [done|].
  rewrite Nat2Z.inj_succ, Z.pow_succ_r in Hv by lia.
  split; [apply Z.div_pos; lia|apply Z.div_lt_upper_bound; lia].
Qed.

Lemma leb_decode_consumed l v n : leb_decode l = Some (v, n) → n ≤ length l.
Proof.
  revert v n. induction l as [|b l IH]; intros v n; cbn [leb_decode]; [done|].
  destruct (b <? 128)%Z; cbn [length]; [intros; simplify_eq; lia|].
  destruct (leb_decode l) as [[v' n']|] eqn:E; [|done].
  intros [= <- <-]. specialize (IH _ _ eq_refl). lia.
Qed.

#[export] Instance leb128_laws : VarIntLaws (H := leb128) | 100.
Proof.
  split; cbn [encode_var decode_var required_space leb128].
  - done.
  - intros v Hv. apply leb_encode_is_bytes, Hv.
  - intros w v rest Hw Hv. apply leb_decode_encode; [done|].
    unfold in_width in Hv. destruct Hw as [-> | ->]; cbn in *; lia.
  - intros w l v n. apply leb_decode_consumed.
  - done.
  - intros v _. by apply leb_encode_length.
  - intros v Hv. apply leb_encode_short; [done|]. unfold in_width in Hv. cbn. lia.
Qed.
