(* ===== verification/Kv.v ===== *)
(** * Kv: keys, values and entries (src/src/kv.rs)

    A key of the store is a user key with a transaction timestamp.  [KeyTs] is
    the owned pair, a [KeyTsBorrow] is a byte slice holding the user key
    followed by the timestamp in eight big-endian bytes.  [ValueMeta] is the
    value with its expiry and flags, [ValuePointer] the address of a value in
    the value log, and [Entry] what a transaction writes.

    Timestamps are [u64] and kept as [Z]; [now] is the argument that stands for
    [PhyTs::now()]. *)
From stdpp Require Import base list.
From Stdlib Require Import ZArith Lia.
From S2P Require Import Prelude VarInt.

(** ** Timestamps *)

(** [impl Add<u64> for TxnTs]: checked addition. *)
Definition TxnTs_add (ts rhs : Z) : outcome Z :=
  if (ts + rhs <=? U64_MAX)%Z then Ok (ts + rhs)%Z else Panic.

(** [impl Sub<u64> for TxnTs]: checked subtraction. *)
Definition TxnTs_sub (ts rhs : Z) : outcome Z :=
  if (rhs <=? ts)%Z then Ok (ts - rhs)%Z else Panic.

(** ** KeyTs *)

Record KeyTs : Type := mkKeyTs { kt_key : list Z; kt_ts : Z }.

#[export] Instance KeyTs_eq_dec : EqDecision KeyTs.
Proof. solve_decision. Defined.

Definition KeyTs_default : KeyTs := mkKeyTs [] 0.

Definition KeyTs_set_key (k : KeyTs) (key : list Z) : KeyTs := mkKeyTs key (kt_ts k).

Definition KeyTs_set_txn_ts (k : KeyTs) (ts : Z) : KeyTs := mkKeyTs (kt_key k) ts.

Definition KeyTs_serialize (k : KeyTs) : list Z := kt_key k ++ put_u64 (kt_ts k).

Definition KeyTs_len (k : KeyTs) : nat := length (kt_key k) + 8.

Definition KeyTs_is_empty (k : KeyTs) : bool := bool_decide (k = KeyTs_default).

(** [impl From<&[u8]> for KeyTs] *)
Definition KeyTs_from (value : list Z) : KeyTs :=
  let len := length value in
  if len <=? 8 then mkKeyTs value 0
  else mkKeyTs (take (len - 8) value) (be_decode (take 8 (drop (len - 8) value))).

(** [impl Ord for KeyTs]: by key, then the newest version first. *)
Definition KeyTs_cmp (a b : KeyTs) : comparison :=
  then_cmp (bytes_cmp (kt_key a) (kt_key b)) (Z.compare (kt_ts b) (kt_ts a)).

(** ** KeyTsBorrow *)

Definition kb_key (b : list Z) : list Z :=
  if 8 <=? length b then take (length b - 8) b else b.

Definition kb_txn_ts (b : list Z) : Z :=
  if 8 <=? length b then be_decode (take 8 (drop (length b - 8) b)) else 0%Z.

Definition kb_is_empty (b : list Z) : bool := bool_decide (kb_key b = []).

(** [impl From<KeyTsBorrow> for KeyTs] *)
Definition KeyTs_from_borrow (b : list Z) : KeyTs := mkKeyTs (kb_key b) (kb_txn_ts b).

(** [KeyTsBorrow::cmp]: the order given to the skip list and used in blocks. *)
Definition kb_cmp (left right : list Z) : comparison :=
  if (8 <? length left) && (8 <? length right) then
    let left_split := length left - 8 in
    let right_split := length right - 8 in
    then_cmp (bytes_cmp (take left_split left) (take right_split right))
             (bytes_cmp (drop right_split right) (drop left_split left))
  else bytes_cmp left right.

Definition kb_equal_key (left right : list Z) : bool :=
  if (8 <? length left) && (8 <? length right) then
    bytes_eqb (take (length left - 8) left) (take (length right - 8) right)
  else bytes_eqb left right.

(** [impl PartialOrd for KeyTsBorrow]: [len - 8] underflows on short slices. *)
Definition kb_partial_cmp (a b : list Z) : outcome comparison :=
  a_split ← usub (length a) 8;
  b_split ← usub (length b) 8;
  Ok (then_cmp (bytes_cmp (take a_split a) (take b_split b))
               (bytes_cmp (drop b_split b) (drop a_split a))).

(** [impl PartialOrd<KeyTsBorrow> for KeyTs] and its mirror image. *)
Definition KeyTs_cmp_borrow (k : KeyTs) (b : list Z) : comparison :=
  then_cmp (bytes_cmp (kt_key k) (kb_key b)) (Z.compare (kb_txn_ts b) (kt_ts k)).

Definition kb_cmp_KeyTs (b : list Z) (k : KeyTs) : comparison :=
  then_cmp (bytes_cmp (kb_key b) (kt_key k)) (Z.compare (kt_ts k) (kb_txn_ts b)).

Definition KeyTs_eq_borrow (k : KeyTs) (b : list Z) : bool :=
  bytes_eqb (kt_key k) (kb_key b) && Z.eqb (kt_ts k) (kb_txn_ts b).

(** ** Meta: the bit flags of an entry *)

Definition Meta_DELETE : Z := Z.shiftl 1 0.
Definition Meta_VALUE_POINTER : Z := Z.shiftl 1 1.
Definition Meta_DISCARD_EARLIER_VERSIONS : Z := Z.shiftl 1 2.
Definition Meta_MERGE_ENTRY : Z := Z.shiftl 1 3.
Definition Meta_TXN : Z := Z.shiftl 1 6.
Definition Meta_FIN_TXN : Z := Z.shiftl 1 7.

Definition Meta_contains (m flag : Z) : bool := Z.eqb (Z.land m flag) flag.
Definition Meta_insert (m flag : Z) : Z := Z.lor m flag.
Definition Meta_remove (m flag : Z) : Z := Z.ldiff m flag.
Definition Meta_is_empty (m : Z) : bool := Z.eqb m 0.

(** ** ValueMeta *)

Record ValueMeta : Type := mkValueMeta {
  vm_value : list Z;
  vm_expires_at : Z;
  vm_user_meta : Z;
  vm_meta : Z
}.

#[export] Instance ValueMeta_eq_dec : EqDecision ValueMeta.
Proof. solve_decision. Defined.

Definition ValueMeta_default : ValueMeta := mkValueMeta [] 0 0 0.

Definition ValueMeta_set_value (vm : ValueMeta) (v : list Z) : ValueMeta :=
  mkValueMeta v (vm_expires_at vm) (vm_user_meta vm) (vm_meta vm).

Definition ValueMeta_is_deleted_or_expired (now : Z) (vm : ValueMeta) : bool :=
  if Meta_contains (vm_meta vm) Meta_DELETE then true
  else if Z.eqb (vm_expires_at vm) 0 then false
  else (vm_expires_at vm <=? now)%Z.

Section ValueMetaCodec.
Context `{!VarInt}.

Definition ValueMeta_serialized_size (vm : ValueMeta) : nat :=
  2 + required_space (vm_expires_at vm) + length (vm_value vm).

Definition VALUEMETA_MIN_SERIALIZED_SIZE : nat := ValueMeta_serialized_size ValueMeta_default.

Definition ValueMeta_serialize (vm : ValueMeta) : list Z :=
  [vm_user_meta vm; vm_meta vm] ++ encode_var (vm_expires_at vm) ++ vm_value vm.

Definition ValueMeta_deserialize (data : list Z) : option ValueMeta :=
  if length data <? VALUEMETA_MIN_SERIALIZED_SIZE then None
  else match data with
       | b0 :: b1 :: rest =>
           match decode_var 64 rest with
           | Some (expires_at, size) => Some (mkValueMeta (drop size rest) expires_at b0 b1)
           | None => None
           end
       | _ => None
       end.

End ValueMetaCodec.

(** The fields are machine integers. *)
Definition ValueMeta_wf (vm : ValueMeta) : Prop :=
  is_bytes (vm_value vm) ∧ in_width 64 (vm_expires_at vm) ∧
  in_width 8 (vm_user_meta vm) ∧ in_width 8 (vm_meta vm).

(** ** ValuePointer *)

Record ValuePointer : Type := mkValuePointer {
  vp_fid : Z;
  vp_len : Z;
  vp_offset : Z
}.

#[export] Instance ValuePointer_eq_dec : EqDecision ValuePointer.
Proof. solve_decision. Defined.

Definition ValuePointer_default : ValuePointer := mkValuePointer 0 0 0.

(** [ValuePointer::new] truncates the length and the offset to [u32]. *)
Definition ValuePointer_new (fid : Z) (len offset : nat) : ValuePointer :=
  mkValuePointer fid (u32 (Z.of_nat len)) (u32 (Z.of_nat offset)).

Definition ValuePointer_is_empty (vp : ValuePointer) : bool :=
  bool_decide (vp = ValuePointer_default).

Definition ValuePointer_serialize (vp : ValuePointer) : list Z :=
  put_u32 (vp_fid vp) ++ put_u32 (vp_len vp) ++ put_u32 (vp_offset vp).

Definition ValuePointer_deserialize (bytes : list Z) : outcome ValuePointer :=
  '(fid, p) ← get_u32 bytes;
  '(len, p) ← get_u32 p;
  '(offset, _) ← get_u32 p;
  Ok (mkValuePointer fid len offset).

(** ** Entry *)

Record Entry : Type := mkEntry {
  e_key_ts : KeyTs;
  e_value_meta : ValueMeta;
  e_offset : nat;
  e_header_len : nat;
  e_value_threshold : nat
}.

Definition Entry_default : Entry := mkEntry KeyTs_default ValueMeta_default 0 0 0.

Definition Entry_new (key value : list Z) : Entry :=
  mkEntry (mkKeyTs key 0) (mkValueMeta value 0 0 0) 0 0 0.

Definition Entry_key (e : Entry) : list Z := kt_key (e_key_ts e).
Definition Entry_version (e : Entry) : Z := kt_ts (e_key_ts e).
Definition Entry_value (e : Entry) : list Z := vm_value (e_value_meta e).
Definition Entry_meta (e : Entry) : Z := vm_meta (e_value_meta e).
Definition Entry_expires_at (e : Entry) : Z := vm_expires_at (e_value_meta e).

Definition Entry_with_key_ts (e : Entry) (k : KeyTs) : Entry :=
  mkEntry k (e_value_meta e) (e_offset e) (e_header_len e) (e_value_threshold e).

Definition Entry_with_value_meta (e : Entry) (vm : ValueMeta) : Entry :=
  mkEntry (e_key_ts e) vm (e_offset e) (e_header_len e) (e_value_threshold e).

Definition Entry_set_key (e : Entry) (key : list Z) : Entry :=
  Entry_with_key_ts e (KeyTs_set_key (e_key_ts e) key).

Definition Entry_set_version (e : Entry) (version : Z) : Entry :=
  Entry_with_key_ts e (KeyTs_set_txn_ts (e_key_ts e) version).

Definition Entry_set_value (e : Entry) (value : list Z) : Entry :=
  Entry_with_value_meta e (ValueMeta_set_value (e_value_meta e) value).

Definition Entry_set_meta (e : Entry) (meta : Z) : Entry :=
  let vm := e_value_meta e in
  Entry_with_value_meta e
    (mkValueMeta (vm_value vm) (vm_expires_at vm) (vm_user_meta vm) meta).

Definition Entry_set_expires_at (e : Entry) (at_ : Z) : Entry :=
  let vm := e_value_meta e in
  Entry_with_value_meta e
    (mkValueMeta (vm_value vm) at_ (vm_user_meta vm) (vm_meta vm)).

Definition Entry_set_user_meta (e : Entry) (um : Z) : Entry :=
  let vm := e_value_meta e in
  Entry_with_value_meta e
    (mkValueMeta (vm_value vm) (vm_expires_at vm) um (vm_meta vm)).

Definition Entry_estimate_size (e : Entry) (threshold : nat) : nat :=
  if length (Entry_value e) <? threshold
  then length (Entry_key e) + length (Entry_value e) + 2
  else length (Entry_key e) + 12 + 2.

(** [Entry::new_ts] drops the header's flags: expiry and flags are zero. *)
Definition Entry_new_ts (key_ts value : list Z) (offset header_len : nat) : Entry :=
  mkEntry (KeyTs_from key_ts) (mkValueMeta value 0 0 0) offset header_len 0.

Definition Entry_is_deleted (e : Entry) : bool := Meta_contains (Entry_meta e) Meta_DELETE.

Definition Entry_is_expired (now : Z) (e : Entry) : bool :=
  if Z.eqb (Entry_expires_at e) 0 then false else (Entry_expires_at e <=? now)%Z.

Definition Entry_try_set_value_threshold (e : Entry) (threshold : nat) : Entry :=
  if e_value_threshold e =? 0
  then mkEntry (e_key_ts e) (e_value_meta e) (e_offset e) (e_header_len e) threshold
  else e.

(* ------------------------------------------------------------------ *)
(** ** Lemmas on keys *)

#[export] Instance KeyTs_cmp_order : CmpOrder KeyTs_cmp.
Proof.
  destruct (then_cmp_rev_order bytes_cmp Z.compare) as [He Ha Ht].
  set (p := λ k : KeyTs, (kt_key k, kt_ts k)).
  split.
  - intros a b. specialize (He (p a) (p b)). cbn in He. unfold KeyTs_cmp. rewrite He.
    destruct a as [ka ta], b as [kb tb]; cbn. split; intros [= -> ->]; done.
  - intros a b. apply (Ha (p a) (p b)).
  - intros a b c o. apply (Ht (p a) (p b) (p c) o).
Qed.

Lemma length_KeyTs_serialize k : length (KeyTs_serialize k) = KeyTs_len k.
Proof. unfold KeyTs_serialize, KeyTs_len. by rewrite length_app, length_put_u64. Qed.

Lemma KeyTs_serialize_split k :
  take (length (KeyTs_serialize k) - 8) (KeyTs_serialize k) = kt_key k ∧
  drop (length (KeyTs_serialize k) - 8) (KeyTs_serialize k) = put_u64 (kt_ts k).
Proof.
  rewrite length_KeyTs_serialize. unfold KeyTs_len.
  replace (length (kt_key k) + 8 - 8) with (length (kt_key k)) by lia.
  unfold KeyTs_serialize. by rewrite take_app_length, drop_app_length.
Qed.

Lemma kb_key_serialize k : kb_key (KeyTs_serialize k) = kt_key k.
Proof.
  unfold kb_key. rewrite (proj1 (KeyTs_serialize_split k)), length_KeyTs_serialize.
  unfold KeyTs_len. guard_true. done.
Qed.

Lemma kb_txn_ts_serialize k :
  in_width 64 (kt_ts k) → kb_txn_ts (KeyTs_serialize k) = kt_ts k.
Proof.
  intros H. unfold kb_txn_ts. rewrite (proj2 (KeyTs_serialize_split k)).
  rewrite length_KeyTs_serialize. unfold KeyTs_len. guard_true.
  rewrite take_ge by (rewrite length_put_u64; lia).
  by apply (be_decode_encode_id 8).
Qed.

Lemma KeyTs_from_borrow_serialize k :
  in_width 64 (kt_ts k) → KeyTs_from_borrow (KeyTs_serialize k) = k.
Proof.
  intros. unfold KeyTs_from_borrow. rewrite kb_key_serialize, kb_txn_ts_serialize by done.
  by destruct k.
Qed.

Lemma KeyTs_from_serialize k :
  kt_key k ≠ [] → in_width 64 (kt_ts k) → KeyTs_from (KeyTs_serialize k) = k.
Proof.
  intros Hk Hts. unfold KeyTs_from.
  destruct (KeyTs_serialize_split k) as [Ht Hd].
  rewrite length_KeyTs_serialize in Ht, Hd |- *. rewrite Ht, Hd.
  unfold KeyTs_len. destruct (kt_key k) as [|x key] eqn:E; [done|].
  cbn [length]. case_if; [lia|].
  rewrite take_ge by (rewrite length_put_u64; lia).
  unfold put_u64. rewrite (be_decode_encode_id 8) by done.
  destruct k; cbn in *; congruence.
Qed.

Lemma kb_cmp_serialize a b :
  kt_key a ≠ [] → kt_key b ≠ [] → in_width 64 (kt_ts a) → in_width 64 (kt_ts b) →
  kb_cmp (KeyTs_serialize a) (KeyTs_serialize b) = KeyTs_cmp a b.
Proof.
  intros Ha Hb Hta Htb. unfold kb_cmp, KeyTs_cmp.
  destruct (KeyTs_serialize_split a) as [-> ->], (KeyTs_serialize_split b) as [-> ->].
  rewrite !length_KeyTs_serialize. unfold KeyTs_len.
  destruct (kt_key a), (kt_key b); try done. cbn [length]. guard_true.
  unfold put_u64. by rewrite (bytes_cmp_be_encode 8).
Qed.

Lemma kb_partial_cmp_serialize a b :
  in_width 64 (kt_ts a) → in_width 64 (kt_ts b) →
  kb_partial_cmp (KeyTs_serialize a) (KeyTs_serialize b) = Ok (KeyTs_cmp a b).
Proof.
  intros Hta Htb. unfold kb_partial_cmp, KeyTs_cmp.
  rewrite !usub_Ok by (rewrite length_KeyTs_serialize; unfold KeyTs_len; lia).
  cbn [mbind outcome_bind].
  destruct (KeyTs_serialize_split a) as [-> ->], (KeyTs_serialize_split b) as [-> ->].
  unfold put_u64. by rewrite (bytes_cmp_be_encode 8).
Qed.

Lemma KeyTs_cmp_borrow_serialize a b :
  in_width 64 (kt_ts b) → KeyTs_cmp_borrow a (KeyTs_serialize b) = KeyTs_cmp a b.
Proof.
  intros. unfold KeyTs_cmp_borrow. by rewrite kb_key_serialize, kb_txn_ts_serialize.
Qed.

Lemma kb_cmp_KeyTs_serialize a b :
  in_width 64 (kt_ts a) → kb_cmp_KeyTs (KeyTs_serialize a) b = KeyTs_cmp a b.
Proof.
  intros. unfold kb_cmp_KeyTs. by rewrite kb_key_serialize, kb_txn_ts_serialize.
Qed.

Lemma kb_equal_key_serialize a b :
  kt_key a ≠ [] → kt_key b ≠ [] →
  kb_equal_key (KeyTs_serialize a) (KeyTs_serialize b) = bytes_eqb (kt_key a) (kt_key b).
Proof.
  intros Ha Hb. unfold kb_equal_key.
  rewrite (proj1 (KeyTs_serialize_split a)), (proj1 (KeyTs_serialize_split b)).
  rewrite !length_KeyTs_serialize. unfold KeyTs_len.
  destruct (kt_key a), (kt_key b); try done. cbn [length]. by guard_true.
Qed.

Section ValueMetaLemmas.
Context `{!VarInt, !VarIntLaws}.

Lemma length_ValueMeta_serialize vm :
  in_width 64 (vm_expires_at vm) →
  length (ValueMeta_serialize vm) = ValueMeta_serialized_size vm.
Proof.
  intros. unfold ValueMeta_serialize, ValueMeta_serialized_size.
  rewrite !length_app, length_encode_var by done. cbn. lia.
Qed.

Lemma ValueMeta_deserialize_serialize vm :
  in_width 64 (vm_expires_at vm) →
  ValueMeta_deserialize (ValueMeta_serialize vm) = Some vm.
Proof.
  intros Hexp. unfold ValueMeta_deserialize.
  assert ((length (ValueMeta_serialize vm) <? VALUEMETA_MIN_SERIALIZED_SIZE) = false) as ->.
  { apply Nat.ltb_ge. rewrite length_ValueMeta_serialize by done.
    unfold VALUEMETA_MIN_SERIALIZED_SIZE, ValueMeta_serialized_size. cbn [vm_expires_at ValueMeta_default vm_value length].
    rewrite required_space_0. pose proof (required_space_pos _ Hexp). lia. }
  unfold ValueMeta_serialize. cbn [app].
  rewrite (decode_encode_var 64) by auto.
  rewrite drop_app_length' by (by rewrite length_encode_var). by destruct vm.
Qed.

End ValueMetaLemmas.

Lemma ValuePointer_deserialize_serialize fid len offset rest :
  in_width 32 fid → in_width 32 len → in_width 32 offset →
  ValuePointer_deserialize (ValuePointer_serialize (mkValuePointer fid len offset) ++ rest)
  = Ok (mkValuePointer fid len offset).
Proof.
  intros. unfold ValuePointer_deserialize, ValuePointer_serialize.
  rewrite <- !app_assoc. cbn [vp_fid vp_len vp_offset].
  do 3 (rewrite get_put_u32 by done; cbn [mbind outcome_bind]). done.
Qed.

(* ------------------------------------------------------------------ *)
(** ** Properties *)

(** Comparing two serialised keys byte-wise with [KeyTsBorrow::cmp] (the
    order the skip list and the blocks use) gives the order of the keys
    themselves: user keys ascending, and for one user key the newest version
    first.  The heterogeneous comparisons of [KeyTs] with a borrowed key and
    [partial_cmp] agree with it. *)
Theorem KeyTsBorrow_cmp_refines_KeyTs_cmp a b :
  kt_key a ≠ [] → kt_key b ≠ [] → in_width 64 (kt_ts a) → in_width 64 (kt_ts b) →
  kb_cmp (KeyTs_serialize a) (KeyTs_serialize b) = KeyTs_cmp a b ∧
  kb_partial_cmp (KeyTs_serialize a) (KeyTs_serialize b) = Ok (KeyTs_cmp a b) ∧
  KeyTs_cmp_borrow a (KeyTs_serialize b) = KeyTs_cmp a b ∧
  kb_cmp_KeyTs (KeyTs_serialize a) b = KeyTs_cmp a b.
Proof.
  intros. split_and!;
    auto using kb_cmp_serialize, kb_partial_cmp_serialize,
      KeyTs_cmp_borrow_serialize, kb_cmp_KeyTs_serialize.
Qed.

Lemma KeyTsBorrow_cmp_refines_KeyTs_cmp_witness :
  let a := mkKeyTs [97]%Z 1 in let c := mkKeyTs [97]%Z 2 in
  KeyTs_cmp a c = Gt ∧
  kb_cmp (KeyTs_serialize a) (KeyTs_serialize c) = KeyTs_cmp a c ∧
  kb_partial_cmp (KeyTs_serialize a) (KeyTs_serialize c) = Ok (KeyTs_cmp a c) ∧
  KeyTs_cmp_borrow a (KeyTs_serialize c) = KeyTs_cmp a c ∧
  kb_cmp_KeyTs (KeyTs_serialize a) c = KeyTs_cmp a c.
Proof.
  intros a c. split; [reflexivity|].
  apply (KeyTsBorrow_cmp_refines_KeyTs_cmp a c); done.
Defined.

(** Serialising a key and reading it back gives the same key: always
    through [KeyTsBorrow], and through [KeyTs::from] when the user key is not
    empty; the serialised length is [KeyTs::len]. *)
Theorem KeyTs_serialize_roundtrip k :
  in_width 64 (kt_ts k) →
  KeyTs_from_borrow (KeyTs_serialize k) = k ∧
  (kt_key k ≠ [] → KeyTs_from (KeyTs_serialize k) = k) ∧
  length (KeyTs_serialize k) = KeyTs_len k.
Proof.
  intros. split_and!; auto using KeyTs_from_borrow_serialize, KeyTs_from_serialize,
    length_KeyTs_serialize.
Qed.

Lemma KeyTs_serialize_roundtrip_witness :
  let k := mkKeyTs [97]%Z 1 in
  in_width 64 (kt_ts k) ∧
  KeyTs_from_borrow (KeyTs_serialize k) = k ∧
  (kt_key k ≠ [] → KeyTs_from (KeyTs_serialize k) = k) ∧
  length (KeyTs_serialize k) = KeyTs_len k.
Proof.
  intros k. split; [done|]. apply (KeyTs_serialize_roundtrip k). done.
Defined.

(** The serialised form of a value with its metadata has the advertised
    size and decodes to the value it came from, for every codec that satisfies
    the laws of the variable-length integers. *)
Theorem ValueMeta_serialize_roundtrip `{!VarInt, !VarIntLaws} vm :
  ValueMeta_wf vm →
  length (ValueMeta_serialize vm) = ValueMeta_serialized_size vm ∧
  is_bytes (ValueMeta_serialize vm) ∧
  ValueMeta_deserialize (ValueMeta_serialize vm) = Some vm.
Proof.
  intros (Hv & He & Hu & Hm). split_and!;
    auto using length_ValueMeta_serialize, ValueMeta_deserialize_serialize.
  unfold ValueMeta_serialize. cbn [app]. repeat (constructor; [done|]).
  apply is_bytes_app. split; [by apply encode_var_is_bytes|done].
Qed.

Definition value_meta_abc : ValueMeta := mkValueMeta [97; 98; 99]%Z 123456789 0 1.

Lemma ValueMeta_serialize_roundtrip_witness :
  ValueMeta_serialized_size value_meta_abc = 9 ∧
  length (ValueMeta_serialize value_meta_abc) = ValueMeta_serialized_size value_meta_abc ∧
  is_bytes (ValueMeta_serialize value_meta_abc) ∧
  ValueMeta_deserialize (ValueMeta_serialize value_meta_abc) = Some value_meta_abc.
Proof.
  split; [reflexivity|].
  apply (ValueMeta_serialize_roundtrip value_meta_abc).
  unfold ValueMeta_wf, is_bytes, in_width. cbn. split_and!; try lia.
  repeat (constructor; [lia|]). constructor.
Defined.

(** The empty user key is outside the order: [KeyTsBorrow::cmp] compares two
    of its versions the wrong way round, and [KeyTs::from] takes the timestamp
    for the key. *)
Theorem empty_key_diverges :
  kb_cmp (KeyTs_serialize (mkKeyTs [] 1)) (KeyTs_serialize (mkKeyTs [] 2)) = Lt ∧
  KeyTs_cmp (mkKeyTs [] 1) (mkKeyTs [] 2) = Gt ∧
  KeyTs_from (KeyTs_serialize (mkKeyTs [] 1)) = mkKeyTs [0;0;0;0;0;0;0;1]%Z 0 ∧
  KeyTs_from_borrow (KeyTs_serialize (mkKeyTs [] 1)) = mkKeyTs [] 1.
Proof. split_and!; reflexivity. Qed.
