(* ===== verification/Bloom.v ===== *)
(** * Bloom: the Bloom filter of a table (src/src/util/bloom.rs)

    A filter is a byte string: the bit array followed by one byte holding the
    number of probes.  [u32] arithmetic wraps.  The source writes the additions
    and multiplications with [unchecked_add] and [unchecked_mul], whose result
    on overflow is not defined by the language; the test vectors of the source
    are those of wrapping arithmetic, and so is the model (see
    [hash_step_overflows]).

    The number of probes [k] and the number of bits per key are computed from
    the false positive rate with [f64] logarithms; they are arguments here.  The
    code clamps [k] to [1..30]. *)
From stdpp Require Import base list.
From Stdlib Require Import ZArith Lia.
From S2P Require Import Prelude.

Definition wrapping_add32 (a b : Z) : Z := u32 (a + b).
Definition wrapping_mul32 (a b : Z) : Z := u32 (a * b).
Definition shl32 (a n : Z) : Z := u32 (Z.shiftl a n).

(** ** The hash of a key *)

Definition HASH_SEED : Z := 0xbc9f1d34.
Definition HASH_M : Z := 0xc6a4a793.

(** The [while bytes.len() >= 4] loop: the hash and the bytes left. *)
Fixpoint hash_words (bytes : list Z) (hash : Z) : Z * list Z :=
  match bytes with
  | b0 :: b1 :: b2 :: b3 :: rest =>
      let w := Z.lor (Z.lor (Z.lor b0 (shl32 b1 8)) (shl32 b2 16)) (shl32 b3 24) in
      let h := wrapping_mul32 (wrapping_add32 hash w) HASH_M in
      hash_words rest (Z.lxor h (Z.shiftr h 16))
  | _ => (hash, bytes)
  end.

Definition hash_tail (bytes : list Z) (hash : Z) : Z :=
  let h :=
    match bytes with
    | [b0; b1; b2] => wrapping_add32 hash (Z.lor (Z.lor b0 (shl32 b1 8)) (shl32 b2 16))
    | [b0; b1] => wrapping_add32 hash (Z.lor b0 (shl32 b1 8))
    | [b0] => wrapping_add32 hash b0
    | _ => hash
    end in
  match bytes with
  | [] => h
  | _ => let h' := wrapping_mul32 h HASH_M in Z.lxor h' (Z.shiftr h' 24)
  end.

Definition Bloom_hash (bytes : list Z) : Z :=
  let hash := Z.lxor HASH_SEED (wrapping_mul32 (u32 (Z.of_nat (length bytes))) HASH_M) in
  let '(h, rest) := hash_words bytes hash in
  hash_tail rest h.

(** ** Probing *)

Definition probe_delta (hash : Z) : Z := Z.lor (Z.shiftr hash 17) (shl32 hash 15).

Definition bit_pos (hash : Z) (bit_len : nat) : nat := Z.to_nat (hash `mod` Z.of_nat bit_len).

(** [filter[pos / 8] & (1 << (pos % 8)) != 0]; [pos] is below [bit_len], so the
    byte exists. *)
Definition test_bit (filter : list Z) (pos : nat) : bool :=
  match filter !! (pos / 8) with
  | Some b => negb (Z.eqb (Z.land b (Z.shiftl 1 (Z.of_nat (pos `mod` 8)))) 0)
  | None => false
  end.

Definition set_bit (filter : list Z) (pos : nat) : list Z :=
  alter (λ b, Z.lor b (Z.shiftl 1 (Z.of_nat (pos `mod` 8)))) (pos / 8) filter.

Fixpoint probe_all (k : nat) (filter : list Z) (bit_len : nat) (hash delta : Z) : bool :=
  match k with
  | O => true
  | S k' =>
      if test_bit filter (bit_pos hash bit_len)
      then probe_all k' filter bit_len (wrapping_add32 hash delta) delta
      else false
  end.

(** [BloomBorrow::may_contain] *)
Definition may_contain (filter : list Z) (hash : Z) : bool :=
  if length filter <? 2 then false
  else
    let k := filter !!! (length filter - 1) in
    let bit_len := (length filter - 1) * 8 in
    probe_all (Z.to_nat k) filter bit_len hash (probe_delta hash).

(** [BloomBorrow::may_contain_key] *)
Definition may_contain_key (filter bytes : list Z) : bool := may_contain filter (Bloom_hash bytes).

(** ** Building *)

Fixpoint insert_probes (k : nat) (bit_len : nat) (hash delta : Z) (filter : list Z) : list Z :=
  match k with
  | O => filter
  | S k' =>
      insert_probes k' bit_len (wrapping_add32 hash delta) delta
        (set_bit filter (bit_pos hash bit_len))
  end.

Definition insert_hash (k bit_len : nat) (filter : list Z) (hash : Z) : list Z :=
  insert_probes k bit_len hash (probe_delta hash) filter.

(** [bit_len as f64 / 8.0], rounded up *)
Definition byte_len_of (bits_per_key n : nat) : nat := (Nat.max (n * bits_per_key) 64 + 7) / 8.

(** [Bloom::new]; the [while cap < want] loop only chooses a capacity. *)
Definition Bloom_new (bits_per_key k : nat) (key_hashes : list Z) : list Z :=
  let byte_len := byte_len_of bits_per_key (length key_hashes) in
  let bit_len := byte_len * 8 in
  let filter := replicate (byte_len + 1) 0%Z in
  let filter := foldl (insert_hash k bit_len) filter key_hashes in
  <[byte_len := u8 (Z.of_nat k)]> filter.

(* ------------------------------------------------------------------ *)
(** ** Lemmas *)

Lemma test_bit_lookup filter pos :
  test_bit filter pos = true ↔
  ∃ b, filter !! (pos / 8) = Some b ∧ Z.testbit b (Z.of_nat (pos `mod` 8)) = true.
Proof.
  unfold test_bit. set (n := Z.of_nat (pos `mod` 8)).
  assert (∀ b, Z.land b (Z.shiftl 1 n) = 0%Z ↔ Z.testbit b n = false) as Hland.
  { intros b. rewrite Z.shiftl_1_l. split; intros Hb.
    - apply (f_equal (λ z, Z.testbit z n)) in Hb.
      rewrite Z.land_spec, Z.pow2_bits_true, Z.bits_0, andb_true_r in Hb by lia. done.
    - apply Z.bits_inj'. intros i Hi. rewrite Z.land_spec, Z.bits_0.
      destruct (decide (i = n)) as [->|]; [by rewrite Hb|].
      rewrite Z.pow2_bits_false by lia. apply andb_false_r. }
  destruct (filter !! (pos / 8)) as [b|] eqn:E.
  - rewrite negb_true_iff, Z.eqb_neq, Hland. split.
    + intros Hb. exists b. split; [done|]. by destruct (Z.testbit b n).
    + intros (? & [= <-] & ->). done.
  - split; [done|]. intros (? & ? & _). done.
Qed.

Lemma length_set_bit filter pos : length (set_bit filter pos) = length filter.
Proof. apply length_alter. Qed.

Lemma test_set_bit filter pos :
  pos / 8 < length filter → test_bit (set_bit filter pos) pos = true.
Proof.
  intros Hlt. apply test_bit_lookup. unfold set_bit.
  destruct (lookup_lt_is_Some_2 filter (pos / 8) Hlt) as [b Hb].
  eexists. rewrite list_lookup_alter_eq, Hb. split; [done|].
  rewrite Z.lor_spec, Z.shiftl_1_l, Z.pow2_bits_true by lia. apply orb_true_r.
Qed.

Lemma test_bit_set_mono filter p q :
  test_bit filter p = true → test_bit (set_bit filter q) p = true.
Proof.
  rewrite !test_bit_lookup. intros (b & Hb & Ht). unfold set_bit.
  destruct (decide (q / 8 = p / 8)) as [Heq|Hne].
  - rewrite Heq, list_lookup_alter_eq, Hb. eexists. split; [done|].
    rewrite Z.lor_spec, Ht. done.
  - rewrite list_lookup_alter_ne by done. eauto.
Qed.

Lemma length_insert_probes k bl h d filter :
  length (insert_probes k bl h d filter) = length filter.
Proof.
  revert h filter. induction k as [|k IH]; intros h filter; cbn [insert_probes probe_all foldl]; [done|].
  by rewrite IH, length_set_bit.
Qed.

Lemma insert_probes_mono k bl h d filter p :
  test_bit filter p = true → test_bit (insert_probes k bl h d filter) p = true.
Proof.
  revert h filter. induction k as [|k IH]; intros h filter Hp; cbn [insert_probes probe_all foldl]; [done|].
  apply IH, test_bit_set_mono, Hp.
Qed.

Lemma probe_all_mono k filter filter' bl h d :
  (∀ p, p < bl → test_bit filter p = true → test_bit filter' p = true) →
  bl ≠ 0 → probe_all k filter bl h d = true → probe_all k filter' bl h d = true.
Proof.
  intros Hm Hbl. revert h. induction k as [|k IH]; intros h; cbn [insert_probes probe_all foldl]; [done|].
  destruct (test_bit filter _) eqn:E; [|done].
  rewrite (Hm _); [apply IH| |done].
  unfold bit_pos. pose proof (Z.mod_pos_bound h (Z.of_nat bl)). lia.
Qed.

Lemma bit_pos_lt h bl : bl ≠ 0 → bit_pos h bl < bl.
Proof. intros. unfold bit_pos. pose proof (Z.mod_pos_bound h (Z.of_nat bl)). lia. Qed.

Lemma insert_probes_all k bl h d filter :
  bl ≠ 0 → bl ≤ length filter * 8 →
  probe_all k (insert_probes k bl h d filter) bl h d = true.
Proof.
  intros Hbl. revert h filter. induction k as [|k IH]; intros h filter Hlen; cbn [insert_probes probe_all foldl]; [done|].
  rewrite insert_probes_mono; [|apply test_set_bit].
  - apply IH. by rewrite length_set_bit.
  - apply Nat.Div0.div_lt_upper_bound. pose proof (bit_pos_lt h bl Hbl). lia.
Qed.

Section Build.
Context (k bl : nat) (Hbl : bl ≠ 0).

Lemma length_fold_insert hs filter :
  length (foldl (insert_hash k bl) filter hs) = length filter.
Proof.
  revert filter. induction hs as [|h hs IH]; intros filter; cbn [insert_probes probe_all foldl]; [done|].
  rewrite IH. apply length_insert_probes.
Qed.

Lemma fold_insert_mono hs filter p :
  test_bit filter p = true → test_bit (foldl (insert_hash k bl) filter hs) p = true.
Proof.
  revert filter. induction hs as [|h hs IH]; intros filter Hp; cbn [insert_probes probe_all foldl]; [done|].
  apply IH, insert_probes_mono, Hp.
Qed.

Lemma fold_insert_all hs filter h :
  bl ≤ length filter * 8 → h ∈ hs →
  probe_all k (foldl (insert_hash k bl) filter hs) bl h (probe_delta h) = true.
Proof.
  intros Hlen Hin. revert filter Hlen.
  induction Hin as [hs|x hs y Hin IH]; intros filter Hlen; cbn [foldl].
  - eapply probe_all_mono; [|exact Hbl|by apply insert_probes_all].
    intros p _. apply fold_insert_mono.
  - apply IH. unfold insert_hash. by rewrite length_insert_probes.
Qed.

End Build.

Lemma byte_len_ge_8 bpk n : 8 ≤ byte_len_of bpk n.
Proof. unfold byte_len_of. apply Nat.div_le_lower_bound; lia. Qed.

Lemma length_Bloom_new bpk k hs :
  length (Bloom_new bpk k hs) = byte_len_of bpk (length hs) + 1.
Proof.
  unfold Bloom_new. rewrite length_insert, length_fold_insert, length_replicate. done.
Qed.

Lemma Bloom_new_no_false_negative bpk k hs h :
  k < 256 → h ∈ hs → may_contain (Bloom_new bpk k hs) h = true.
Proof.
  intros Hk Hin. unfold may_contain. rewrite length_Bloom_new.
  pose proof (byte_len_ge_8 bpk (length hs)) as H8.
  case_if; [lia|].
  set (n := byte_len_of bpk (length hs)) in *.
  replace (n + 1 - 1) with n by lia.
  unfold Bloom_new. fold n.
  set (f := foldl (insert_hash k (n * 8)) (replicate (n + 1) 0%Z) hs).
  assert (length f = n + 1) as Hlf.
  { unfold f. by rewrite length_fold_insert, length_replicate. }
  rewrite (list_lookup_total_correct _ n (u8 (Z.of_nat k)))
    by (apply list_lookup_insert_eq; lia).
  replace (Z.to_nat (u8 (Z.of_nat k))) with k
    by (unfold u8; rewrite Z.mod_small; lia).
  apply (probe_all_mono k f); [|lia|].
  - intros p Hp. rewrite !test_bit_lookup. intros (b & Hb & Ht).
    exists b. split; [|done]. rewrite list_lookup_insert_ne; [done|].
    assert (p / 8 < n); [apply Nat.Div0.div_lt_upper_bound; lia|lia].
  - apply fold_insert_all; [lia| |done]. rewrite length_replicate. lia.
Qed.

(* ------------------------------------------------------------------ *)
(** ** Properties *)

(** A Bloom filter built over a list of key hashes never denies a key it
    holds: whatever the number of probes (at most 30) and of bits per key, each
    key whose hash was inserted is answered "may contain"; and the filter has
    the byte count the code computes, at least nine bytes. *)
Theorem Bloom_no_false_negatives bits_per_key k (keys : list (list Z)) key :
  k ≤ 30 → key ∈ keys →
  may_contain_key (Bloom_new bits_per_key k (Bloom_hash <$> keys)) key = true ∧
  9 ≤ length (Bloom_new bits_per_key k (Bloom_hash <$> keys)).
Proof.
  intros Hk Hin. split.
  - apply Bloom_new_no_false_negative; [lia|]. by apply list_elem_of_fmap_2.
  - rewrite length_Bloom_new. pose proof (byte_len_ge_8 bits_per_key (length (Bloom_hash <$> keys))). lia.
Qed.

Lemma Bloom_no_false_negatives_witness :
  let keys := [[104; 105]; [97; 98; 99; 100; 101]]%Z in
  may_contain_key (Bloom_new 10 6 (Bloom_hash <$> keys)) [104; 105]%Z = true ∧
  9 ≤ length (Bloom_new 10 6 (Bloom_hash <$> keys)).
Proof.
  apply (Bloom_no_false_negatives 10 6); [lia|constructor].
Defined.

(** The assertions of [test_hash]. *)
Example hash_test_empty : Bloom_hash [] = 0xbc9f1d34%Z.
Proof. reflexivity. Qed.

Example hash_test_a : Bloom_hash [97]%Z = 0x286e9db0%Z.
Proof. reflexivity. Qed.

Example hash_test_ab : Bloom_hash [97; 98]%Z = 0x39aca330%Z.
Proof. reflexivity. Qed.

Example hash_test_abc : Bloom_hash [97; 98; 99]%Z = 0x855d012f%Z.
Proof. reflexivity. Qed.

Example hash_test_abcd : Bloom_hash [97; 98; 99; 100]%Z = 0xb9c83353%Z.
Proof. reflexivity. Qed.

Example hash_test_abcdefghi :
  Bloom_hash [97; 98; 99; 100; 101; 102; 103; 104; 105]%Z = 0xf065ec74%Z.
Proof. reflexivity. Qed.

(** Hashing the one-byte key [a] multiplies past [u32::MAX]: the source's
    [unchecked_mul] is called outside its contract. *)
Lemma hash_step_overflows :
  let h := Z.lxor HASH_SEED (wrapping_mul32 1 HASH_M) in
  (U32_MAX < wrapping_add32 h 97 * HASH_M)%Z.
Proof. reflexivity. Qed.
