(* ===== verification/Iter.v ===== *)
(** * Iter: the iterator interfaces (src/src/iter.rs)

    A [SinkIterator] moves in place: [next] answers whether there is a current
    item, [key] and [value] read it.  [DoubleEndedSinkIterator] also moves from
    the back, and [SinkIterRev] swaps the two directions.  The relation
    [yields it kvs] is what a client of an iterator relies on: repeated [next]
    produces exactly the items of [kvs], in that order, then [false].

    [TestIter] is the reference iterator over the integers [0..len). *)
From stdpp Require Import base list.
From Stdlib Require Import ZArith Lia.
From S2P Require Import Prelude VarInt Kv.

Class SinkIterator (I : Type) : Type := next : I → outcome (bool * I).

Class DoubleEndedSinkIterator (I : Type) : Type := next_back : I → outcome (bool * I).

Class KvSinkIter (I : Type) : Type := {
  iter_key : I → option (list Z);
  iter_value : I → outcome (option ValueMeta)
}.

Class KvDoubleEndedSinkIter (I : Type) : Type := {
  iter_key_back : I → option (list Z);
  iter_value_back : I → outcome (option ValueMeta)
}.

#[export] Hint Mode SinkIterator ! : typeclass_instances.
#[export] Hint Mode DoubleEndedSinkIterator ! : typeclass_instances.
#[export] Hint Mode KvSinkIter ! : typeclass_instances.
#[export] Hint Mode KvDoubleEndedSinkIter ! : typeclass_instances.

(** ** SinkIterRev *)

Record SinkIterRev (T : Type) : Type := mkRev { rev_iter : T }.

Arguments mkRev {T} rev_iter.
Arguments rev_iter {T} s.

#[export] Instance SinkIterRev_next {T} `{!DoubleEndedSinkIterator T} :
    SinkIterator (SinkIterRev T) := λ s,
  '(b, it) ← next_back (rev_iter s); Ok (b, mkRev it).

#[export] Instance SinkIterRev_next_back {T} `{!SinkIterator T} :
    DoubleEndedSinkIterator (SinkIterRev T) := λ s,
  '(b, it) ← next (rev_iter s); Ok (b, mkRev it).

#[export] Instance SinkIterRev_kv {T} `{!KvDoubleEndedSinkIter T} : KvSinkIter (SinkIterRev T) := {|
  iter_key s := iter_key_back (rev_iter s);
  iter_value s := iter_value_back (rev_iter s)
|}.

#[export] Instance SinkIterRev_kv_back {T} `{!KvSinkIter T} :
    KvDoubleEndedSinkIter (SinkIterRev T) := {|
  iter_key_back s := iter_key (rev_iter s);
  iter_value_back s := iter_value (rev_iter s)
|}.

(** ** What an iterator produces *)

Inductive yields {I} `{!SinkIterator I, !KvSinkIter I} :
    I → list (list Z * ValueMeta) → Prop :=
| yields_nil it it' : next it = Ok (false, it') → yields it []
| yields_cons it it' k v kvs :
    next it = Ok (true, it') → iter_key it' = Some k → iter_value it' = Ok (Some v) →
    yields it' kvs → yields it ((k, v) :: kvs).

(** Draining an iterator: the loop [while iter.next()? { .. }] of the clients,
    with a bound on the number of turns; [None] when the bound is too small. *)
Fixpoint drain {I} `{!SinkIterator I, !KvSinkIter I} (fuel : nat) (it : I) :
    outcome (option (list (list Z * ValueMeta))) :=
  match fuel with
  | O => Ok None
  | S fuel' =>
      '(b, it') ← next it;
      if (b : bool) then
        k ← unwrap (iter_key it');
        ov ← iter_value it';
        v ← unwrap ov;
        r ← drain fuel' it';
        Ok (option_map (cons (k, v)) r)
      else Ok (Some [])
  end.

(** ** TestIter *)

Record TestIter : Type := mkTestIter {
  ti_data : option (list Z);
  ti_len : Z;
  ti_back_data : option (list Z)
}.

Definition TestIter_new (len : nat) : TestIter := mkTestIter None (Z.of_nat len) None.

#[export] Instance TestIter_next : SinkIterator TestIter := λ t,
  match ti_data t with
  | Some d =>
      '(now, _) ← get_u64 d;
      if (now + 1 =? ti_len t)%Z then Ok (false, t)
      else
        stop ← match ti_back_data t with
               | Some bd => '(b, _) ← get_u64 bd; Ok (now + 1 =? b)%Z
               | None => Ok false
               end;
        if (stop : bool) then Ok (false, t)
        else Ok (true, mkTestIter (Some (put_u64 (now + 1))) (ti_len t) (ti_back_data t))
  | None => Ok (true, mkTestIter (Some (put_u64 0)) (ti_len t) (ti_back_data t))
  end.

#[export] Instance TestIter_next_back : DoubleEndedSinkIterator TestIter := λ t,
  match ti_back_data t with
  | Some d =>
      '(now, _) ← get_u64 d;
      if (now =? 0)%Z then Ok (false, t)
      else
        stop ← match ti_data t with
               | Some fd => '(s, _) ← get_u64 fd; Ok (now - 1 =? s)%Z
               | None => Ok false
               end;
        if (stop : bool) then Ok (false, t)
        else Ok (true, mkTestIter (ti_data t) (ti_len t) (Some (put_u64 (now - 1))))
  | None =>
      if (1 <=? ti_len t)%Z
      then Ok (true, mkTestIter (ti_data t) (ti_len t) (Some (put_u64 (ti_len t - 1))))
      else Panic
  end.

#[export] Instance TestIter_kv : KvSinkIter TestIter := {|
  iter_key t := ti_data t;
  iter_value t := Ok (option_map (ValueMeta_set_value ValueMeta_default) (ti_data t))
|}.

#[export] Instance TestIter_kv_back : KvDoubleEndedSinkIter TestIter := {|
  iter_key_back t := ti_back_data t;
  iter_value_back t := Ok (option_map (ValueMeta_set_value ValueMeta_default) (ti_back_data t))
|}.

(** The item number [i]. *)
Definition test_item (i : nat) : list Z * ValueMeta :=
  (put_u64 (Z.of_nat i), ValueMeta_set_value ValueMeta_default (put_u64 (Z.of_nat i))).

(* ------------------------------------------------------------------ *)
(** ** Lemmas *)

Lemma drain_yields {I} `{!SinkIterator I, !KvSinkIter I} (it : I) kvs fuel :
  yields it kvs → length kvs < fuel → drain fuel it = Ok (Some kvs).
Proof.
  intros Hy. revert fuel. induction Hy as [it it' Hn|it it' k v kvs Hn Hk Hv Hy IH];
    intros [|fuel] Hf; cbn [length] in Hf; try lia; cbn [drain]; rewrite Hn.
  - done.
  - cbn [mbind outcome_bind]. rewrite Hk. cbn [unwrap mbind outcome_bind].
    rewrite Hv. cbn [unwrap mbind outcome_bind]. rewrite IH by lia. done.
Qed.

Lemma TestIter_yields_from (i len : nat) :
  i < len → (Z.of_nat len < 2 ^ 64)%Z →
  yields (mkTestIter (Some (put_u64 (Z.of_nat i))) (Z.of_nat len) None)
    (test_item <$> seq (S i) (len - S i)).
Proof.
  intros Hi Hlen. remember (len - S i) as n eqn:Hn. revert i Hi Hn.
  induction n as [|n IH]; intros i Hi Hn; cbn [seq fmap list_fmap].
  - apply yields_nil with (it' := mkTestIter (Some (put_u64 (Z.of_nat i))) (Z.of_nat len) None).
    unfold next, TestIter_next. cbn [ti_data ti_len]. unfold get_u64, put_u64.
    rewrite <- (app_nil_r (be_encode 8 _)), (get_uint_app 8) by (unfold in_width; lia).
    cbn [mbind outcome_bind]. by guard_true.
  - eapply yields_cons with
      (it' := mkTestIter (Some (put_u64 (Z.of_nat (S i)))) (Z.of_nat len) None);
      [|reflexivity|reflexivity|apply IH; lia].
    unfold next, TestIter_next. cbn [ti_data ti_len ti_back_data]. unfold get_u64, put_u64.
    rewrite <- (app_nil_r (be_encode 8 (Z.of_nat i))), (get_uint_app 8) by (unfold in_width; lia).
    cbn [mbind outcome_bind]. case_if; [lia|].
    replace (Z.of_nat i + 1)%Z with (Z.of_nat (S i)) by lia. done.
Qed.

Lemma TestIter_yields len :
  0 < len → (Z.of_nat len < 2 ^ 64)%Z → yields (TestIter_new len) (test_item <$> seq 0 len).
Proof.
  intros Hl Hw. destruct len as [|len]; [lia|]. cbn [seq fmap list_fmap].
  eapply yields_cons with (it' := mkTestIter (Some (put_u64 0)) (Z.of_nat (S len)) None);
    [reflexivity|reflexivity|reflexivity|].
  pose proof (TestIter_yields_from 0 (S len)) as H.
  replace (S len - 1) with len in H by lia. apply H; lia.
Qed.
