(* ===== verification/IterTest.v ===== *)
(** * IterTest: items, seeking and the test macros of the iterators

    The rest of src/src/iter.rs: the traits that read the current item
    ([SinkIter], [DoubleEndedSinkIter]) and their asynchronous variants, [rev], the
    [seek] of the reference iterator, and the macros with which the iterators of the
    other files are tested against it, as functions that panic where an assertion
    fails. *)
From stdpp Require Import base list.
From Stdlib Require Import ZArith Lia.
From S2P Require Import Prelude VarInt Kv Iter.

Local Open Scope nat_scope.

(** ** Items *)

Class SinkIter (I Item : Type) : Type := item : I → option Item.

Class DoubleEndedSinkIter (I Item : Type) : Type := item_back : I → option Item.

(** An asynchronous iterator moves without an answer. *)
Class AsyncSinkIterator (I : Type) : Type := async_next : I → outcome I.

Class AsyncDoubleEndedSinkIterator (I : Type) : Type := async_next_back : I → outcome I.

#[export] Hint Mode SinkIter ! - : typeclass_instances.
#[export] Hint Mode DoubleEndedSinkIter ! - : typeclass_instances.
#[export] Hint Mode AsyncSinkIterator ! : typeclass_instances.
#[export] Hint Mode AsyncDoubleEndedSinkIterator ! : typeclass_instances.

#[export] Instance SinkIterRev_item {T Item} `{!DoubleEndedSinkIter T Item} : SinkIter (SinkIterRev T) Item :=
  λ s, item_back (rev_iter s).

#[export] Instance SinkIterRev_item_back {T Item} `{!SinkIter T Item} : DoubleEndedSinkIter (SinkIterRev T) Item :=
  λ s, item (rev_iter s).

#[export] Instance SinkIterRev_async_next {T} `{!AsyncDoubleEndedSinkIterator T} :
    AsyncSinkIterator (SinkIterRev T) := λ s, it ← async_next_back (rev_iter s); Ok (mkRev it).

#[export] Instance SinkIterRev_async_next_back {T} `{!AsyncSinkIterator T} :
    AsyncDoubleEndedSinkIterator (SinkIterRev T) := λ s, it ← async_next (rev_iter s); Ok (mkRev it).

#[export] Instance TestIter_item : SinkIter TestIter (list Z) := ti_data.

#[export] Instance TestIter_item_back : DoubleEndedSinkIter TestIter (list Z) := ti_back_data.

(** [rev] *)
Definition rev {I : Type} (it : I) : SinkIterRev I := mkRev it.

(** [KvSeekIter::seek] of the reference iterator; the number is the first eight
    bytes of the key. *)
Definition TestIter_seek (k : list Z) (t : TestIter) : outcome (bool * TestIter) :=
  '(key, _) ← get_u64 k;
  if (ti_len t <=? key)%Z then Ok (false, t)
  else Ok (true, mkTestIter (Some (put_u64 key)) (ti_len t) (ti_back_data t)).

(** ** The test macros *)

Section Macros.
Context {I : Type} `{!SinkIterator I, !DoubleEndedSinkIterator I, !KvSinkIter I, !KvDoubleEndedSinkIter I}.
Context {T : Type} `{!SinkIterator T, !DoubleEndedSinkIterator T, !KvSinkIter T, !KvDoubleEndedSinkIter T}.

(** The assertions of one turn. *)
Definition same_item (it : I) (t : T) : outcome unit :=
  _ ← assert_or_panic (bool_decide (iter_key it = iter_key t));
  v ← iter_value it; w ← iter_value t; assert_or_panic (bool_decide (v = w)).

Definition same_item_back (it : I) (t : T) : outcome unit :=
  _ ← assert_or_panic (bool_decide (iter_key_back it = iter_key_back t));
  v ← iter_value_back it; w ← iter_value_back t; assert_or_panic (bool_decide (v = w)).

(** [while iter.next().unwrap() { assert!(test_iter.next().unwrap()); .. }], with a
    bound on the turns; [false] when the bound is too small. *)
Fixpoint test_loop (fuel : nat) (it : I) (t : T) : outcome bool :=
  match fuel with
  | O => Ok false
  | S fuel' =>
      '(b, it) ← next it;
      if (b : bool) then
        '(b', t) ← next t; _ ← assert_or_panic b'; _ ← same_item it t; test_loop fuel' it t
      else Ok true
  end.

Fixpoint test_loop_back (fuel : nat) (it : I) (t : T) : outcome bool :=
  match fuel with
  | O => Ok false
  | S fuel' =>
      '(b, it) ← next_back it;
      if (b : bool) then
        '(b', t) ← next_back t; _ ← assert_or_panic b'; _ ← same_item_back it t; test_loop_back fuel' it t
      else Ok true
  end.

(** [for _ in 0..n { assert!(iter.next().unwrap()); .. }] *)
Fixpoint test_turns (n : nat) (it : I) (t : T) : outcome (I * T) :=
  match n with
  | O => Ok (it, t)
  | S n' =>
      '(b, it) ← next it; _ ← assert_or_panic b;
      '(b', t) ← next t; _ ← assert_or_panic b'; _ ← same_item it t; test_turns n' it t
  end.

Fixpoint test_turns_back (n : nat) (it : I) (t : T) : outcome (I * T) :=
  match n with
  | O => Ok (it, t)
  | S n' =>
      '(b, it) ← next_back it; _ ← assert_or_panic b;
      '(b', t) ← next_back t; _ ← assert_or_panic b'; _ ← same_item_back it t; test_turns_back n' it t
  end.

Definition double_ended (len split : nat) (it : I) (t : T) : outcome unit :=
  '(it, t) ← test_turns split it t;
  '(it, t) ← test_turns_back (len - split) it t;
  '(b, it) ← next it; _ ← assert_or_panic (negb b);
  '(b, _) ← next_back it; assert_or_panic (negb b).

End Macros.

Section OneMacros.
Context {I : Type} `{!SinkIterator I, !DoubleEndedSinkIterator I, !KvSinkIter I, !KvDoubleEndedSinkIter I}.

Definition test_iter_next (fuel : nat) (it : I) (len : nat) : outcome bool := test_loop fuel it (TestIter_new len).
Definition test_iter_rev_next (fuel : nat) (it : I) (len : nat) : outcome bool :=
  test_loop fuel (rev it) (rev (TestIter_new len)).
Definition test_iter_rev_rev_next (fuel : nat) (it : I) (len : nat) : outcome bool :=
  test_loop fuel (rev (rev it)) (TestIter_new len).
Definition test_iter_next_back (fuel : nat) (it : I) (len : nat) : outcome bool :=
  test_loop_back fuel it (TestIter_new len).
Definition test_iter_rev_next_back (fuel : nat) (it : I) (len : nat) : outcome bool :=
  test_loop_back fuel (rev it) (rev (TestIter_new len)).
Definition test_iter_double_ended (it : I) (len split : nat) : outcome unit :=
  double_ended len split it (TestIter_new len).
Definition test_iter_rev_double_ended (it : I) (len split : nat) : outcome unit :=
  double_ended len split (rev it) (rev (TestIter_new len)).

End OneMacros.

(* ------------------------------------------------------------------ *)
(** ** What the macros check *)

Section Laws.
Context {I : Type} `{!SinkIterator I, !DoubleEndedSinkIterator I, !KvSinkIter I, !KvDoubleEndedSinkIter I}.
Context {T : Type} `{!SinkIterator T, !DoubleEndedSinkIterator T, !KvSinkIter T, !KvDoubleEndedSinkIter T}.

(** The loop passes exactly when the tested iterator goes through a prefix of what
    the reference goes through: it does not look whether the reference has more. *)
Lemma test_loop_prefix (it : I) (t : T) kvs ts fuel :
  yields it kvs → yields t ts → length kvs < fuel →
  test_loop fuel it t = Ok true ↔ kvs `prefix_of` ts.
Proof.
  intros Hy. revert t ts fuel. induction Hy as [it it' Hn|it it' k v kvs Hn Hk Hv Hy IH];
    intros t ts [|fuel] Ht Hf; cbn [length] in Hf; try lia; cbn [test_loop]; rewrite Hn;
    cbn [mbind outcome_bind].
  - split; [intros; apply prefix_nil|done].
  - destruct Ht as [t t' Hn'|t t' k' v' ts Hn' Hk' Hv' Ht]; rewrite Hn'; cbn [mbind outcome_bind assert_or_panic].
    + split; [done|]. by intros ?%prefix_nil_not.
    + unfold same_item. rewrite Hk, Hv, Hk', Hv'. cbn [mbind outcome_bind].
      destruct (decide ((k, v) = (k', v'))) as [[= <- <-]|Hne].
      * rewrite !bool_decide_eq_true_2 by done. cbn [assert_or_panic mbind outcome_bind].
        rewrite (IH t' ts fuel Ht) by lia. split; [apply prefix_cons|apply prefix_cons_inv_2].
      * split; [|by intros ?%prefix_cons_inv_1].
        repeat case_bool_decide; cbn [assert_or_panic mbind outcome_bind]; try done. by simplify_eq.
Qed.

(** Two reversals change nothing. *)
Lemma rev_rev_yields (it : I) kvs : yields it kvs → yields (rev (rev it)) kvs.
Proof.
  induction 1 as [it it' Hn|it it' k v kvs Hn Hk Hv Hy IH].
  - apply (yields_nil _ (rev (rev it'))). unfold next, SinkIterRev_next, next_back, SinkIterRev_next_back.
    cbn. by rewrite Hn.
  - apply (yields_cons _ (rev (rev it'))); [|done|done|done].
    unfold next, SinkIterRev_next, next_back, SinkIterRev_next_back. cbn. by rewrite Hn.
Qed.

(** Going back is going forward on the reversed iterators. *)
Lemma test_loop_back_rev fuel (it : I) (t : T) : test_loop_back fuel it t = test_loop fuel (rev it) (rev t).
Proof.
  revert it t. induction fuel as [|fuel IH]; intros it t; [done|]. cbn [test_loop test_loop_back].
  unfold next, SinkIterRev_next. cbn [rev rev_iter]. destruct (next_back it) as [[[] it']| |]; [|done..].
  cbn [mbind outcome_bind]. destruct (next_back t) as [[b t']| |]; [|done..]. cbn [mbind outcome_bind].
  destruct b; [|done]. cbn [assert_or_panic mbind outcome_bind].
  change (same_item (mkRev it') (mkRev t')) with (same_item_back it' t').
  destruct (same_item_back it' t'); [|done..]. apply IH.
Qed.

End Laws.

(** ** The reference iterator from both ends *)

(** The iterator between the items [front] and [back], where it has shown one. *)
Definition between (front back : option nat) (len : nat) : TestIter :=
  mkTestIter ((λ i, put_u64 (Z.of_nat i)) <$> front) (Z.of_nat len) ((λ j, put_u64 (Z.of_nat j)) <$> back).

Lemma get_item i : (Z.of_nat i < 2 ^ 64)%Z → get_u64 (put_u64 (Z.of_nat i)) = Ok (Z.of_nat i, []).
Proof. intros Hi. rewrite <- (app_nil_r (put_u64 _)). apply get_put_u64. unfold in_width. lia. Qed.

Lemma same_item_refl (t : TestIter) : same_item t t = Ok () ∧ same_item_back t t = Ok ().
Proof.
  unfold same_item, same_item_back. cbn [iter_value TestIter_kv iter_value_back TestIter_kv_back mbind outcome_bind].
  by rewrite !bool_decide_eq_true_2.
Qed.

(** Forward from item [i]: the next one, unless it is past the end or shown. *)
Lemma between_next i back len :
  i < len → (Z.of_nat len < 2 ^ 64)%Z → (∀ j, back = Some j → j < len) →
  next (between (Some i) back len) =
    if bool_decide (S i = len ∨ back = Some (S i)) then Ok (false, between (Some i) back len)
    else Ok (true, between (Some (S i)) back len).
Proof.
  intros Hi Hlen Hb. unfold next, TestIter_next, between. cbn [ti_data ti_len ti_back_data fmap option_fmap option_map].
  rewrite get_item by lia. cbn [mbind outcome_bind]. replace (Z.of_nat i + 1)%Z with (Z.of_nat (S i)) by lia.
  destruct (Z.of_nat (S i) =? Z.of_nat len)%Z eqn:E; bool_to_prop.
  { rewrite bool_decide_eq_true_2; [done|]. left. lia. }
  destruct back as [j|]; cbn [fmap option_fmap option_map].
  - specialize (Hb j eq_refl). rewrite get_item by lia. cbn [mbind outcome_bind].
    destruct (Z.of_nat (S i) =? Z.of_nat j)%Z eqn:E'; bool_to_prop.
    + rewrite bool_decide_eq_true_2; [done|]. right. f_equal. lia.
    + rewrite bool_decide_eq_false_2; [done|]. intros [?|?]; simplify_eq; lia.
  - cbn [mbind outcome_bind]. rewrite bool_decide_eq_false_2; [done|]. intros [?|?]; [lia|done].
Qed.

Lemma between_next_back j front len :
  j < len → (Z.of_nat len < 2 ^ 64)%Z → (∀ i, front = Some i → i < len) →
  next_back (between front (Some j) len) =
    if bool_decide (j = 0 ∨ front = Some (j - 1)) then Ok (false, between front (Some j) len)
    else Ok (true, between front (Some (j - 1)) len).
Proof.
  intros Hj Hlen Hf. unfold next_back, TestIter_next_back, between.
  cbn [ti_data ti_len ti_back_data fmap option_fmap option_map]. rewrite get_item by lia. cbn [mbind outcome_bind].
  destruct (Z.of_nat j =? 0)%Z eqn:E; bool_to_prop.
  { rewrite bool_decide_eq_true_2; [done|]. left. lia. }
  replace (Z.of_nat j - 1)%Z with (Z.of_nat (j - 1)) by lia.
  destruct front as [i|]; cbn [fmap option_fmap option_map].
  - specialize (Hf i eq_refl). rewrite get_item by lia. cbn [mbind outcome_bind].
    destruct (Z.of_nat (j - 1) =? Z.of_nat i)%Z eqn:E'; bool_to_prop.
    + rewrite bool_decide_eq_true_2; [done|]. right. f_equal. lia.
    + rewrite bool_decide_eq_false_2; [done|]. intros [?|?]; simplify_eq; lia.
  - cbn [mbind outcome_bind]. rewrite bool_decide_eq_false_2; [done|]. intros [?|?]; [lia|done].
Qed.

Lemma turns_between n i len :
  i + n < len → (Z.of_nat len < 2 ^ 64)%Z →
  test_turns n (between (Some i) None len) (between (Some i) None len) =
    Ok (between (Some (i + n)) None len, between (Some (i + n)) None len).
Proof.
  intros Hn Hlen. revert i Hn. induction n as [|n IH]; intros i Hn; cbn [test_turns]; [by rewrite Nat.add_0_r|].
  rewrite between_next, bool_decide_eq_false_2 by (done || lia || naive_solver lia).
  cbn [mbind outcome_bind assert_or_panic]. rewrite (proj1 (same_item_refl _)). cbn [mbind outcome_bind].
  rewrite (IH (S i)) by lia. by rewrite Nat.add_succ_r.
Qed.

Lemma turns_back_between n i j len :
  i < j - n → j < len → (Z.of_nat len < 2 ^ 64)%Z →
  test_turns_back n (between (Some i) (Some j) len) (between (Some i) (Some j) len) =
    Ok (between (Some i) (Some (j - n)) len, between (Some i) (Some (j - n)) len).
Proof.
  intros Hn Hj Hlen. revert j Hn Hj. induction n as [|n IH]; intros j Hn Hj; cbn [test_turns_back].
  { by rewrite Nat.sub_0_r. }
  rewrite between_next_back, bool_decide_eq_false_2 by (done || lia || (intros; simplify_eq; lia) || naive_solver lia).
  cbn [mbind outcome_bind assert_or_panic]. rewrite (proj2 (same_item_refl _)). cbn [mbind outcome_bind].
  rewrite (IH (j - 1)) by lia. by rewrite <- Nat.sub_add_distr.
Qed.

(** The two ends of the reference iterator meet: with [split] items taken from the
    front and the others from the back, each item is shown once and both ends are
    over. *)
Lemma test_iter_meets len split :
  0 < split < len → (Z.of_nat len < 2 ^ 64)%Z →
  test_iter_double_ended (TestIter_new len) len split = Ok ().
Proof.
  intros Hs Hlen. unfold test_iter_double_ended, double_ended.
  destruct split as [|split]; [lia|]. cbn [test_turns].
  change (next (TestIter_new len)) with (Ok (true, between (Some 0) None len) : outcome (bool * TestIter)).
  cbn [mbind outcome_bind assert_or_panic]. rewrite (proj1 (same_item_refl _)). cbn [mbind outcome_bind].
  rewrite turns_between by lia. cbn [mbind outcome_bind].
  destruct (len - S split) as [|n] eqn:Hn; [lia|]. cbn [test_turns_back].
  assert (next_back (between (Some (0 + split)) None len) = Ok (true, between (Some split) (Some (len - 1)) len)) as ->.
  { unfold next_back, TestIter_next_back, between. cbn [ti_back_data ti_len ti_data fmap option_fmap option_map].
    rewrite (proj2 (Z.leb_le _ _)) by lia. replace (Z.of_nat len - 1)%Z with (Z.of_nat (len - 1)) by lia. done. }
  cbn [mbind outcome_bind assert_or_panic]. rewrite (proj2 (same_item_refl _)). cbn [mbind outcome_bind].
  rewrite turns_back_between by lia. cbn [mbind outcome_bind].
  replace (len - 1 - n) with (S split) by lia.
  rewrite between_next by (lia || (intros; simplify_eq; lia)). rewrite bool_decide_eq_true_2 by by right.
  cbn [mbind outcome_bind assert_or_panic negb].
  rewrite between_next_back by (lia || (intros; simplify_eq; lia)).
  by rewrite bool_decide_eq_true_2 by (right; f_equal; lia).
Qed.

(** The reference forward passes its own test, and so does every iterator that stops
    early: one that shows nothing at all passes. *)
Lemma test_iter_next_weak {I} `{!SinkIterator I, !KvSinkIter I} (it : I) n len fuel :
  0 < len → n ≤ len → (Z.of_nat len < 2 ^ 64)%Z → n < fuel →
  yields it (test_item <$> seq 0 n) → test_iter_next fuel it len = Ok true.
Proof.
  intros Hl Hn Hw Hf Hy. unfold test_iter_next.
  apply (test_loop_prefix it (TestIter_new len) _ (test_item <$> seq 0 len) fuel Hy); [by apply TestIter_yields|by rewrite length_fmap, length_seq|].
  replace len with (n + (len - n)) by lia. rewrite seq_app, fmap_app. by apply prefix_app_r.
Qed.

Module IterTestExamples.

(** [test_next] with its three items, split at two. *)
Example test_next :
  test_iter_next 9 (TestIter_new 3) 3 = Ok true ∧
  test_iter_rev_next 9 (TestIter_new 3) 3 = Ok true ∧
  test_iter_rev_rev_next 9 (TestIter_new 3) 3 = Ok true ∧
  test_iter_next_back 9 (TestIter_new 3) 3 = Ok true ∧
  test_iter_rev_next_back 9 (TestIter_new 3) 3 = Ok true ∧
  test_iter_double_ended (TestIter_new 3) 3 2 = Ok () ∧
  test_iter_rev_double_ended (TestIter_new 3) 3 2 = Ok ().
Proof. by vm_compute. Qed.

(** With all items taken from one end, the other end starts over: it looks for the
    item it has shown last, and it has shown none. *)
Example ends_pass_each_other :
  test_iter_double_ended (TestIter_new 3) 3 3 = Panic ∧ test_iter_double_ended (TestIter_new 3) 3 0 = Panic.
Proof. by vm_compute. Qed.

(** The empty reference shows an item. *)
Example empty_shows_item :
  next (TestIter_new 0) = Ok (true, mkTestIter (Some (put_u64 0)) 0 None) ∧
  next_back (TestIter_new 0) = Panic.
Proof. done. Qed.

Example seek_in_and_out :
  TestIter_seek (put_u64 2) (TestIter_new 3) = Ok (true, mkTestIter (Some (put_u64 2)) 3 None) ∧
  TestIter_seek (put_u64 3) (TestIter_new 3) = Ok (false, TestIter_new 3) ∧
  TestIter_seek [1; 2]%Z (TestIter_new 3) = Panic.
Proof. by vm_compute. Qed.

End IterTestExamples.
