(* ===== verification/Pb.v ===== *)
(** * Pb: checksums and manifest messages (src/src/pb/mod.rs, src/src/pb/badgerpb4.rs)

    The hash functions (crates [crc32fast] and [xxhash_rust]) and the protobuf
    encoding (crate [prost]) are not part of the repository: they are the
    operations of the class [ChecksumCodec], with the round trip of [encode]
    and [decode] and the ranges of the results as its laws.  [toy_checksum] is
    an instance. *)
From stdpp Require Import base list strings.
From Stdlib Require Import ZArith Lia.
From S2P Require Import Prelude.

Inductive Algorithm : Type :=
| Crc32c
| XxHash64.

#[export] Instance Algorithm_eq_dec : EqDecision Algorithm.
Proof. solve_decision. Defined.

(** The names of the algorithms in the protobuf definition. *)
Definition Algorithm_as_str_name (a : Algorithm) : string :=
  match a with Crc32c => "CRC32C" | XxHash64 => "XXHash64" end.

Definition Algorithm_from_str_name (value : string) : option Algorithm :=
  if String.eqb value "CRC32C" then Some Crc32c
  else if String.eqb value "XXHash64" then Some XxHash64 else None.

Record Checksum : Type := mkChecksum { cs_algo : Algorithm; cs_sum : Z }.

Class ChecksumCodec : Type := {
  crc32_hash : list Z → Z;
  xxh3_64 : list Z → Z;
  checksum_encode : Checksum → list Z;
  checksum_decode : list Z → option Checksum
}.

Class ChecksumLaws `{ChecksumCodec} : Prop := {
  crc32_hash_range : ∀ l, in_width 32 (crc32_hash l);
  xxh3_64_range : ∀ l, in_width 64 (xxh3_64 l);
  checksum_decode_encode : ∀ c, in_width 64 (cs_sum c) →
    checksum_decode (checksum_encode c) = Some c;
  checksum_encode_short : ∀ c, length (checksum_encode c) < 32
}.

Section Checksums.
Context `{!ChecksumCodec}.

(** [Algorithm::calculate] *)
Definition Algorithm_calculate (algo : Algorithm) (data : list Z) : Z :=
  match algo with
  | Crc32c => crc32_hash data
  | XxHash64 => xxh3_64 data
  end.

Definition Checksum_new (algo : Algorithm) (data : list Z) : Checksum :=
  mkChecksum algo (Algorithm_calculate algo data).

Definition Checksum_verify (c : Checksum) (data : list Z) : outcome unit :=
  let sum := Algorithm_calculate (cs_algo c) data in
  if Z.eqb (cs_sum c) sum then Ok () else Err (EMsg "checksum mismatch").

End Checksums.

(** ** The protobuf message of a manifest change *)

Inductive Operation : Type :=
| Create
| Delete.

(** The names of the operations in the protobuf definition. *)
Definition Operation_as_str_name (o : Operation) : string :=
  match o with Create => "CREATE" | Delete => "DELETE" end.

Definition Operation_from_str_name (value : string) : option Operation :=
  if String.eqb value "CREATE" then Some Create
  else if String.eqb value "DELETE" then Some Delete else None.

Record ManifestChange : Type := mkManifestChange {
  mc_id : Z;
  mc_op : Operation;
  mc_level : Z;
  mc_key_id : Z;
  mc_compression : Z
}.

(** [ManifestChange::new_create]; the encryption algorithm is the constant
    [Aes] and is left out. *)
Definition new_create (table_id level cipher_key_id compression : Z) : ManifestChange :=
  mkManifestChange table_id Create level cipher_key_id compression.

(** [ManifestChange::new_delete]: the level of the message is the default, 0. *)
Definition new_delete (table_id : Z) : ManifestChange :=
  mkManifestChange table_id Delete 0 0 0.

(* ------------------------------------------------------------------ *)
(** ** Lemmas *)

(** The names are those of exactly one value each. *)
Lemma Algorithm_from_str_name_iff value a : Algorithm_from_str_name value = Some a ↔ value = Algorithm_as_str_name a.
Proof.
  unfold Algorithm_from_str_name. split; [|intros ->; by destruct a].
  destruct (String.eqb_spec value "CRC32C") as [->|]; [by intros [= <-]|].
  destruct (String.eqb_spec value "XXHash64") as [->|]; [by intros [= <-]|done].
Qed.

Lemma Operation_from_str_name_iff value o : Operation_from_str_name value = Some o ↔ value = Operation_as_str_name o.
Proof.
  unfold Operation_from_str_name. split; [|intros ->; by destruct o].
  destruct (String.eqb_spec value "CREATE") as [->|]; [by intros [= <-]|].
  destruct (String.eqb_spec value "DELETE") as [->|]; [by intros [= <-]|done].
Qed.

Section ChecksumLemmas.
Context `{!ChecksumCodec, !ChecksumLaws}.

Lemma Algorithm_calculate_range algo data : in_width 64 (Algorithm_calculate algo data).
Proof.
  destruct algo; cbn; [|apply xxh3_64_range].
  pose proof (crc32_hash_range data). unfold in_width in *. lia.
Qed.

Lemma Checksum_verify_new algo data : Checksum_verify (Checksum_new algo data) data = Ok ().
Proof. unfold Checksum_verify, Checksum_new. cbn. by rewrite Z.eqb_refl. Qed.

Lemma checksum_decode_new algo data :
  checksum_decode (checksum_encode (Checksum_new algo data)) = Some (Checksum_new algo data).
Proof. apply checksum_decode_encode, Algorithm_calculate_range. Qed.

End ChecksumLemmas.

(** ** An instance of the codec: additive hashes, a tag byte and eight bytes *)

Definition toy_sum (w : Z) (l : list Z) : Z := ((foldr Z.add 0 l) `mod` 2 ^ w)%Z.

Definition toy_tag (a : Algorithm) : Z := match a with Crc32c => 0 | XxHash64 => 1 end.

#[export] Instance toy_checksum : ChecksumCodec | 100 := {|
  crc32_hash := toy_sum 32;
  xxh3_64 := toy_sum 64;
  checksum_encode c := toy_tag (cs_algo c) :: put_u64 (cs_sum c);
  checksum_decode l :=
    match l with
    | t :: rest => Some (mkChecksum (if Z.eqb t 0 then Crc32c else XxHash64) (be_decode rest))
    | [] => None
    end
|}.

#[export] Instance toy_checksum_laws : ChecksumLaws (H := toy_checksum) | 100.
Proof.
  split; cbn [crc32_hash xxh3_64 checksum_encode checksum_decode toy_checksum].
  - intros l. apply Z.mod_pos_bound. lia.
  - intros l. apply Z.mod_pos_bound. lia.
  - intros [a s] Hs. cbn [cs_algo cs_sum] in *. unfold put_u64.
    rewrite (be_decode_encode_id 8) by done. by destruct a.
  - intros c. cbn [length]. rewrite length_put_u64. lia.
Qed.
