(* ===== verification/Storage.v ===== *)
(** * Storage: compression, encryption and file slices

    [CompressionType] of src/src/config.rs, [AesCipher] of
    src/src/key_registry.rs, [try_encrypt]/[try_decrypt] of
    src/src/table/mod.rs and [MmapFile::read_slice_ref] of
    src/src/util/mmap.rs.  The compressors (snap, zstd), the AES-GCM ciphers and
    the random source are other crates' code: they are the members of two
    classes, with the documented round trips as laws. *)
From stdpp Require Import base list strings.
From Stdlib Require Import ZArith Lia.
From S2P Require Import Prelude.

(** ** Interfaces *)

Class Compressor : Type := {
  snappy_compress : list Z → outcome (list Z);
  snappy_decompress : list Z → outcome (list Z);
  zstd_compress : Z → list Z → outcome (list Z);
  zstd_decompress : list Z → outcome (list Z)
}.

Class CompressorLaws `{Compressor} : Prop := {
  snappy_roundtrip : ∀ d c, snappy_compress d = Ok c → snappy_decompress c = Ok d;
  zstd_roundtrip : ∀ l d c, zstd_compress l d = Ok c → zstd_decompress c = Ok d
}.

(** The arguments of the ciphers are the key, the nonce and the text;
    [nonce_at n] is the [n]-th nonce drawn from the operating system. *)
Class Aead : Type := {
  aes128_encrypt : list Z → list Z → list Z → option (list Z);
  aes128_decrypt : list Z → list Z → list Z → option (list Z);
  aes256_encrypt : list Z → list Z → list Z → option (list Z);
  aes256_decrypt : list Z → list Z → list Z → option (list Z);
  nonce_at : nat → list Z
}.

Definition NONCE_SIZE : nat := 12.

Class AeadLaws `{Aead} : Prop := {
  aes128_roundtrip : ∀ k n d c, aes128_encrypt k n d = Some c → aes128_decrypt k n c = Some d;
  aes256_roundtrip : ∀ k n d c, aes256_encrypt k n d = Some c → aes256_decrypt k n c = Some d;
  length_nonce_at : ∀ i, length (nonce_at i) = NONCE_SIZE
}.

(** ** CompressionType (src/src/config.rs) *)

Inductive CompressionType : Type :=
| CNone
| Snappy
| ZSTD (level : Z).

#[export] Instance CompressionType_eq_dec : EqDecision CompressionType.
Proof. solve_decision. Defined.

Definition CompressionType_default : CompressionType := CNone.

Definition CompressionType_from (value : Z) : CompressionType :=
  if Z.eqb value 1 then Snappy
  else if Z.eqb value 2 then ZSTD 1
  else CNone.

Definition CompressionType_into (c : CompressionType) : Z :=
  match c with
  | CNone => 0
  | Snappy => 1
  | ZSTD _ => 2
  end.

Definition CompressionType_is_none (c : CompressionType) : bool :=
  match c with
  | CNone => true
  | _ => false
  end.

Definition compress `{!Compressor} (c : CompressionType) (data : list Z) : outcome (list Z) :=
  match c with
  | CNone => Ok data
  | Snappy => snappy_compress data
  | ZSTD level => zstd_compress level data
  end.

Definition decompress `{!Compressor} (c : CompressionType) (data : list Z) : outcome (list Z) :=
  match c with
  | CNone => Ok data
  | Snappy => snappy_decompress data
  | ZSTD _ => zstd_decompress data
  end.

(** ** AesCipher (src/src/key_registry.rs) *)

Inductive AesCipher : Type :=
| Aes128 (key : list Z) (id : Z)
| Aes256 (key : list Z) (id : Z).

Definition AesCipher_new (key : list Z) (id : Z) : outcome AesCipher :=
  if length key =? 16 then Ok (Aes128 key id)
  else if length key =? 32 then Ok (Aes256 key id)
  else Err (EDB InvalidEncryptionKey).

Definition cipher_key_id (c : AesCipher) : Z :=
  match c with
  | Aes128 _ id => id
  | Aes256 _ id => id
  end.

Definition AesCipher_encrypt `{!Aead} (c : AesCipher) (nonce plaintext : list Z) :
    option (list Z) :=
  match c with
  | Aes128 key _ => aes128_encrypt key nonce plaintext
  | Aes256 key _ => aes256_encrypt key nonce plaintext
  end.

Definition AesCipher_decrypt `{!Aead} (c : AesCipher) (nonce ciphertext : list Z) :
    option (list Z) :=
  match c with
  | Aes128 key _ => aes128_decrypt key nonce ciphertext
  | Aes256 key _ => aes256_decrypt key nonce ciphertext
  end.

(** [decrypt_with_slice]: [Nonce::from_slice] panics on another length. *)
Definition decrypt_with_slice `{!Aead} (c : AesCipher) (nonce ciphertext : list Z) :
    outcome (option (list Z)) :=
  _ ← assert_or_panic (length nonce =? NONCE_SIZE);
  Ok (AesCipher_decrypt c nonce ciphertext).

(** ** try_encrypt and try_decrypt (src/src/table/mod.rs)

    [draw] numbers the nonce that [generate_nonce] returns. *)

Definition ok_or {A} (o : option A) (msg : string) : outcome A :=
  match o with
  | Some a => Ok a
  | None => Err (EMsg msg)
  end.

Definition try_encrypt `{!Aead} (cipher : option AesCipher) (draw : nat) (data : list Z) :
    outcome (list Z) :=
  match cipher with
  | Some c =>
      let nonce := nonce_at draw in
      ciphertext ← ok_or (AesCipher_encrypt c nonce data) "while encrypt";
      Ok (ciphertext ++ nonce)
  | None => Ok data
  end.

Definition try_decrypt `{!Aead} (cipher : option AesCipher) (data : list Z) : outcome (list Z) :=
  match cipher with
  | Some c =>
      split ← usub (length data) NONCE_SIZE;
      nonce ← slice_from data split;
      ciphertext ← slice_to data split;
      r ← decrypt_with_slice c nonce ciphertext;
      ok_or r "while decrypt"
  | None => Ok data
  end.

(** ** Reading a slice of a mapped file (src/src/util/mmap.rs) *)

Definition read_slice_ref (file : list Z) (offset len : nat) : outcome (list Z) :=
  rest ← slice_from file offset;
  if length rest <? len then Err (EMsg "UnexpectedEof")
  else slice file offset (offset + len).

(* ------------------------------------------------------------------ *)
(** ** Lemmas *)

Lemma CompressionType_into_from c :
  CompressionType_from (CompressionType_into c) =
  match c with ZSTD _ => ZSTD 1 | c => c end.
Proof. by destruct c. Qed.

Lemma decompress_compress `{!Compressor, !CompressorLaws} c d x :
  compress c d = Ok x → decompress c x = Ok d.
Proof.
  destruct c; cbn [compress decompress]; [congruence| |].
  - apply snappy_roundtrip.
  - apply zstd_roundtrip.
Qed.

Lemma try_decrypt_encrypt `{!Aead, !AeadLaws} cipher draw d x :
  try_encrypt cipher draw d = Ok x → try_decrypt cipher x = Ok d.
Proof.
  destruct cipher as [c|]; cbn [try_encrypt try_decrypt]; [|congruence].
  destruct (AesCipher_encrypt c (nonce_at draw) d) as [ct|] eqn:E;
    cbn [ok_or mbind outcome_bind]; [|done].
  intros [= <-]. pose proof (length_nonce_at draw) as Hn.
  rewrite length_app, Hn, usub_Ok by lia. cbn [mbind outcome_bind].
  replace (length ct + NONCE_SIZE - NONCE_SIZE) with (length ct) by lia.
  rewrite slice_from_app, slice_to_app by done. cbn [mbind outcome_bind].
  unfold decrypt_with_slice. rewrite Hn. cbn [NONCE_SIZE Nat.eqb assert_or_panic mbind outcome_bind].
  assert (AesCipher_decrypt c (nonce_at draw) ct = Some d) as ->; [|done].
  destruct c; cbn in *; [by apply aes128_roundtrip|by apply aes256_roundtrip].
Qed.

Lemma read_slice_ref_ok a m c offset len :
  offset = length a → len = length m → read_slice_ref (a ++ m ++ c) offset len = Ok m.
Proof.
  intros -> ->. unfold read_slice_ref. rewrite slice_from_app by done.
  cbn [mbind outcome_bind]. rewrite length_app. case_if; [lia|]. by apply slice_app_mid.
Qed.

Lemma read_slice_at file a m c offset len :
  file = a ++ m ++ c → offset = length a → len = length m →
  read_slice_ref file offset len = Ok m.
Proof. intros ->. apply read_slice_ref_ok. Qed.

(** ** Instances: compressors and ciphers that only tag the text *)

#[export] Instance store_compressor : Compressor | 100 := {|
  snappy_compress d := Ok (255%Z :: d);
  snappy_decompress d := match d with _ :: r => Ok r | [] => Err (EMsg "empty") end;
  zstd_compress l d := Ok (l :: d);
  zstd_decompress d := match d with _ :: r => Ok r | [] => Err (EMsg "empty") end
|}.

#[export] Instance store_compressor_laws : CompressorLaws (H := store_compressor) | 100.
Proof. split; cbn; intros; by simplify_eq. Qed.

Definition toy_encrypt (k n d : list Z) : option (list Z) := Some (0%Z :: d).
Definition toy_decrypt (k n c : list Z) : option (list Z) :=
  match c with 0%Z :: d => Some d | _ => None end.

#[export] Instance toy_aead : Aead | 100 := {|
  aes128_encrypt := toy_encrypt; aes128_decrypt := toy_decrypt;
  aes256_encrypt := toy_encrypt; aes256_decrypt := toy_decrypt;
  nonce_at i := replicate 12 (Z.of_nat i `mod` 256)%Z
|}.

#[export] Instance toy_aead_laws : AeadLaws (H := toy_aead) | 100.
Proof. split; cbn; unfold toy_encrypt, toy_decrypt; intros; by simplify_eq. Qed.
