(* ===== verification/Block.v ===== *)
(** * Block: the blocks of a table

    The builder of src/src/table/write.rs ([BlockBuilder]), the on-disk format
    read back by [BlockInner::deserialize] of src/src/table/mod.rs, and the
    iterator [SinkBlockIter] of src/src/table/read.rs.

    A block is the concatenation of its entries, the [u32] offsets of the
    entries, their number, a checksum and the length of the checksum.  An entry
    stores the length of the prefix its key shares with the first key of the
    block, the rest of the key, and the value. *)
From stdpp Require Import base list strings.
From Stdlib Require Import ZArith Lia.
From S2P Require Import Prelude Util VarInt Kv Iter Pb Storage.

(** ** Entry headers (src/src/table/mod.rs) *)

Record EntryHeader : Type := mkEntryHeader { eh_overlap : Z; eh_diff : Z }.

Definition EntryHeader_default : EntryHeader := mkEntryHeader 0 0.

Definition HEADER_SIZE : nat := 4.

Definition EntryHeader_serialize (h : EntryHeader) : list Z :=
  put_u16 (eh_overlap h) ++ put_u16 (eh_diff h).

Definition EntryHeader_deserialize (data : list Z) : outcome EntryHeader :=
  '(overlap, data) ← get_u16 data;
  '(diff, _) ← get_u16 data;
  Ok (mkEntryHeader overlap diff).

Definition get_overlap (h : EntryHeader) : nat := Z.to_nat (eh_overlap h).
Definition get_diff (h : EntryHeader) : nat := Z.to_nat (eh_diff h).

(** ** Offset tables *)

Definition vec_u32_to_bytes (s : list Z) : list Z := concat (put_u32 <$> s).

Fixpoint bytes_to_vec_u32_loop (n : nat) (s : list Z) : outcome (list Z) :=
  match n with
  | O => Ok []
  | S n' => '(v, s') ← get_u32 s; r ← bytes_to_vec_u32_loop n' s'; Ok (v :: r)
  end.

Definition bytes_to_vec_u32 (src : list Z) : outcome (list Z) :=
  bytes_to_vec_u32_loop (length src / 4) src.

(** ** The block builder (src/src/table/write.rs) *)

Record BlockBuilder : Type := mkBlockBuilder {
  bb_data : list Z;
  bb_base_keyts : list Z;
  bb_entry_offsets : list Z
}.

Definition BlockBuilder_new : BlockBuilder := mkBlockBuilder [] [] [].

Fixpoint common_prefix (a b : list Z) : nat :=
  match a, b with
  | x :: a', y :: b' => if Z.eqb x y then S (common_prefix a' b') else O
  | _, _ => O
  end.

Definition diff_base_key (bb : BlockBuilder) (new_key : list Z) : nat :=
  common_prefix (bb_base_keyts bb) new_key.

Section BlockCode.
Context `{!VarInt, !ChecksumCodec}.

Definition should_finish_block (bb : BlockBuilder) (key : list Z) (value : ValueMeta)
    (block_size : nat) (is_encrypt : bool) : outcome bool :=
  let n := length (bb_entry_offsets bb) in
  if n =? 0 then Ok false
  else
    _ ← assert_or_panic ((Z.of_nat n + 1) * 4 + 4 + 8 + 4 <? U32_MAX)%Z;
    let entries_offsets_size := (n + 1) * 4 + 4 + 8 + 4 in
    let estimate_size := length (bb_data bb) + 6 + length key
                         + ValueMeta_serialized_size value + entries_offsets_size in
    let estimate_size := if is_encrypt then estimate_size + NONCE_SIZE else estimate_size in
    _ ← assert_or_panic (Z.of_nat (length (bb_data bb) + estimate_size) <? U32_MAX)%Z;
    Ok (block_size <? estimate_size).

Definition push_entry (bb : BlockBuilder) (key_ts : list Z) (value : ValueMeta) :
    outcome BlockBuilder :=
  let '(base, diff_key) :=
    if length (bb_base_keyts bb) =? 0 then (key_ts, key_ts)
    else (bb_base_keyts bb, drop (diff_base_key bb key_ts) key_ts) in
  let overlap := length key_ts - length diff_key in
  _ ← assert_or_panic (Z.of_nat overlap <=? 65535)%Z;
  _ ← assert_or_panic (Z.of_nat (length diff_key) <=? 65535)%Z;
  let entry_header :=
    mkEntryHeader (u16 (Z.of_nat overlap)) (u16 (Z.of_nat (length diff_key))) in
  Ok (mkBlockBuilder
        (bb_data bb ++ EntryHeader_serialize entry_header ++ diff_key
           ++ ValueMeta_serialize value)
        base
        (bb_entry_offsets bb ++ [u32 (Z.of_nat (length (bb_data bb)))])).

Definition finish_block (bb : BlockBuilder) (algo : Algorithm) : BlockBuilder :=
  let data := bb_data bb ++ vec_u32_to_bytes (bb_entry_offsets bb)
              ++ put_u32 (Z.of_nat (length (bb_entry_offsets bb))) in
  let checksum := Checksum_new algo data in
  let enc := checksum_encode checksum in
  mkBlockBuilder (data ++ enc ++ put_u32 (Z.of_nat (length enc)))
    (bb_base_keyts bb) (bb_entry_offsets bb).

(** ** Reading a block back (src/src/table/mod.rs) *)

Record Block : Type := mkBlock {
  bk_table_id : Z;
  bk_block_index : nat;
  bk_block_offset : Z;
  bk_data : list Z;
  bk_entries_index_start : nat;
  bk_entry_offsets : list Z;
  bk_checksum : list Z;
  bk_checksum_len : nat
}.

Definition Block_deserialize (table_id : Z) (block_id : nat) (block_offset : Z)
    (data : list Z) : outcome Block :=
  read_pos ← usub (length data) 4;
  buf ← slice data read_pos (read_pos + 4);
  '(checksum_len, _) ← get_u32 buf;
  let checksum_len := Z.to_nat checksum_len in
  if length data <? checksum_len then Err (EMsg "Invalid checksum len")
  else
    read_pos ← usub read_pos checksum_len;
    checksum ← slice data read_pos (read_pos + checksum_len);
    let data := take read_pos data in
    read_pos ← usub read_pos 4;
    buf ← slice data read_pos (read_pos + 4);
    '(num_entries, _) ← get_u32 buf;
    entries_index_start ← usub read_pos (Z.to_nat num_entries * 4);
    buf ← slice data entries_index_start read_pos;
    entry_offsets ← bytes_to_vec_u32 buf;
    Ok (mkBlock table_id block_id block_offset data entries_index_start
          entry_offsets checksum checksum_len).

(** [BlockInner::data] *)
Definition Block_actual_data (b : Block) : outcome (list Z) :=
  slice_to (bk_data b) (bk_entries_index_start b).

Definition Block_verify (b : Block) : outcome unit :=
  match checksum_decode (bk_checksum b) with
  | None => Err (EMsg "Failed decode pb::checksum for block")
  | Some c => Checksum_verify c (bk_data b)
  end.

(** ** The block iterator (src/src/table/read.rs) *)

Record SinkBlockIter : Type := mkSinkBlockIter {
  bi_inner : Block;
  bi_base_key : list Z;
  bi_key : list Z;
  bi_header : EntryHeader;
  bi_entry_index : option nat;
  bi_back_key : list Z;
  bi_back_header : EntryHeader;
  bi_back_entry_index : option nat
}.

(** [Block::iter] *)
Definition Block_iter (b : Block) : SinkBlockIter :=
  mkSinkBlockIter b [] [] EntryHeader_default None [] EntryHeader_default None.

(** The header and the bytes from the entry on. *)
Definition entry_at (b : Block) (entry_offset : nat) : outcome (EntryHeader * list Z) :=
  d ← Block_actual_data b;
  data ← slice_from d entry_offset;
  hd ← slice_to data HEADER_SIZE;
  h ← EntryHeader_deserialize hd;
  Ok (h, data).

(** The key is rebuilt from the previous one: keep or extend the shared
    prefix, then append the rest stored in the entry. *)
Definition rebuild_key (base key : list Z) (prev next_header : EntryHeader) (data : list Z) :
    outcome (list Z) :=
  let prev_overlap := get_overlap prev in
  let next_overlap := get_overlap next_header in
  prefix ← (if prev_overlap <? next_overlap
            then ext ← slice base prev_overlap next_overlap; Ok (take prev_overlap key ++ ext)
            else Ok (take next_overlap key));
  diff ← slice data HEADER_SIZE (HEADER_SIZE + get_diff next_header);
  Ok (prefix ++ diff).

Definition set_entry_index (it : SinkBlockIter) (entry_index : nat) : outcome SinkBlockIter :=
  off ← idx (bk_entry_offsets (bi_inner it)) entry_index;
  '(next_header, data) ← entry_at (bi_inner it) (Z.to_nat off);
  key ← rebuild_key (bi_base_key it) (bi_key it) (bi_header it) next_header data;
  Ok (mkSinkBlockIter (bi_inner it) (bi_base_key it) key next_header (Some entry_index)
        (bi_back_key it) (bi_back_header it) (bi_back_entry_index it)).

(** The base key and the first header, read on the first move. *)
Definition load_base (it : SinkBlockIter) : outcome SinkBlockIter :=
  if length (bi_base_key it) =? 0 then
    '(h, data) ← entry_at (bi_inner it) 0;
    base ← slice data HEADER_SIZE (HEADER_SIZE + get_diff h);
    Ok (mkSinkBlockIter (bi_inner it) base (bi_key it) h (bi_entry_index it)
          (bi_back_key it) (bi_back_header it) (bi_back_entry_index it))
  else Ok it.

#[export] Instance SinkBlockIter_next : SinkIterator SinkBlockIter := λ it,
  let n := length (bk_entry_offsets (bi_inner it)) in
  match bi_entry_index it with
  | Some id =>
      stop ← match bi_back_entry_index it with
             | Some back_id => Ok (id + 1 =? back_id)
             | None => last ← usub n 1; Ok (id =? last)
             end;
      if (stop : bool) then Ok (false, it)
      else it' ← set_entry_index it (id + 1); Ok (true, it')
  | None =>
      if n =? 0 then Ok (false, it)
      else
        it' ← load_base it;
        Ok (true, mkSinkBlockIter (bi_inner it') (bi_base_key it') (bi_base_key it')
                    (bi_header it') (Some 0)
                    (bi_back_key it') (bi_back_header it') (bi_back_entry_index it'))
  end.

#[export] Instance SinkBlockIter_next_back : DoubleEndedSinkIterator SinkBlockIter := λ it,
  let offs := bk_entry_offsets (bi_inner it) in
  match bi_back_entry_index it with
  | Some back_id =>
      stop ← match bi_entry_index it with
             | Some id => prev ← usub back_id 1; Ok (prev =? id)
             | None => Ok (back_id =? 0)
             end;
      if (stop : bool) then Ok (false, it)
      else
        prev ← usub back_id 1;
        off ← idx offs prev;
        '(next_back_header, data) ← entry_at (bi_inner it) (Z.to_nat off);
        back_key ← rebuild_key (bi_base_key it) (bi_back_key it) (bi_back_header it)
                     next_back_header data;
        Ok (true, mkSinkBlockIter (bi_inner it) (bi_base_key it) (bi_key it) (bi_header it)
                    (bi_entry_index it) back_key next_back_header (Some prev))
  | None =>
      if length offs =? 0 then Ok (false, it)
      else
        it' ← load_base it;
        last_offset ← unwrap (last offs);
        '(back_header, data) ← entry_at (bi_inner it') (Z.to_nat last_offset);
        prefix ← slice_to (bi_base_key it') (get_overlap back_header);
        diff ← slice data HEADER_SIZE (HEADER_SIZE + get_diff back_header);
        Ok (true, mkSinkBlockIter (bi_inner it') (bi_base_key it') (bi_key it') (bi_header it')
                    (bi_entry_index it') (prefix ++ diff) back_header (Some (length offs - 1)))
  end.

Definition value_at (b : Block) (header : EntryHeader) (entry_id : nat) :
    outcome (option ValueMeta) :=
  let offs := bk_entry_offsets b in
  end_offset ← (if entry_id + 1 =? length offs then Ok (bk_entries_index_start b)
                else o ← idx offs (entry_id + 1); Ok (Z.to_nat o));
  o ← idx offs entry_id;
  let start_offset := Z.to_nat o + HEADER_SIZE + get_diff header in
  d ← Block_actual_data b;
  value ← slice d start_offset end_offset;
  Ok (ValueMeta_deserialize value).

Definition block_key (key : list Z) : option (list Z) :=
  if length key =? 0 then None else Some key.

#[export] Instance SinkBlockIter_kv : KvSinkIter SinkBlockIter := {|
  iter_key it := block_key (bi_key it);
  iter_value it :=
    match bi_entry_index it with
    | Some id => value_at (bi_inner it) (bi_header it) id
    | None => Ok None
    end
|}.

#[export] Instance SinkBlockIter_kv_back : KvDoubleEndedSinkIter SinkBlockIter := {|
  iter_key_back it := block_key (bi_back_key it);
  iter_value_back it :=
    match bi_back_entry_index it with
    | Some id => value_at (bi_inner it) (bi_back_header it) id
    | None => Ok None
    end
|}.

(** The comparison of [seek]: a first comparison of the shared prefix, cut
    before the timestamp, then the whole key. *)
Definition seek_cmp (b : Block) (base k : list Z) (offset : Z) : outcome comparison :=
  '(header, data) ← entry_at b (Z.to_nat offset);
  let ov := get_overlap header in
  let df := get_diff header in
  quick ← (if (ov <=? length k) && (8 <? ov) then
             tmp ← usub (ov + df) 8;
             let split := Nat.min tmp ov in
             x ← slice_to base split;
             y ← slice_to k split;
             Ok (bytes_cmp x y)
           else Ok Eq);
  match quick with
  | Eq =>
      prefix ← slice_to base ov;
      diff ← slice data HEADER_SIZE (HEADER_SIZE + df);
      Ok (kb_cmp (prefix ++ diff) k)
  | ord => Ok ord
  end.

Definition SinkBlockIter_seek (it : SinkBlockIter) (k : list Z) :
    outcome (bool * SinkBlockIter) :=
  '(go, it) ← (match bi_entry_index it with
               | None => SinkBlockIter_next it
               | Some _ => Ok (true, it)
               end);
  if negb go then Ok (false, it)
  else
    r ← binary_search_by (bk_entry_offsets (bi_inner it)) (seek_cmp (bi_inner it) (bi_base_key it) k);
    match r with
    | Found index => it' ← set_entry_index it index; Ok (true, it')
    | NotFound index =>
        if length (bk_entry_offsets (bi_inner it)) <=? index then Ok (false, it)
        else it' ← set_entry_index it index; Ok (true, it')
    end.

(** Pushing a list of entries. *)
Fixpoint push_entries (bb : BlockBuilder) (kvs : list (list Z * ValueMeta)) :
    outcome BlockBuilder :=
  match kvs with
  | [] => Ok bb
  | (k, v) :: rest => bb' ← push_entry bb k v; push_entries bb' rest
  end.

End BlockCode.

(* ------------------------------------------------------------------ *)
(** ** The block format, as a specification

    [chunks kvs] is the list of the encoded entries of a block that holds
    [kvs]; the first key is the base key. *)

Definition base_of (kvs : list (list Z * ValueMeta)) : list Z :=
  match kvs with
  | [] => []
  | (k, _) :: _ => k
  end.

Definition entry_overlap (base : list Z) (i : nat) (k : list Z) : nat :=
  if i =? 0 then 0 else common_prefix base k.

Definition entry_header (base : list Z) (i : nat) (k : list Z) : EntryHeader :=
  let ov := entry_overlap base i k in
  mkEntryHeader (Z.of_nat ov) (Z.of_nat (length k - ov)).

Section BlockSpec.
Context `{!VarInt}.

Definition chunk (base : list Z) (i : nat) (kv : list Z * ValueMeta) : list Z :=
  EntryHeader_serialize (entry_header base i kv.1)
  ++ drop (entry_overlap base i kv.1) kv.1 ++ ValueMeta_serialize kv.2.

Definition chunks (kvs : list (list Z * ValueMeta)) : list (list Z) :=
  imap (chunk (base_of kvs)) kvs.

Definition start_of (cs : list (list Z)) (i : nat) : nat := length (concat (take i cs)).

Definition offsets (cs : list (list Z)) : list Z :=
  (λ i, Z.of_nat (start_of cs i)) <$> seq 0 (length cs).

(** What the entries must satisfy: a non-empty key of at most [u16::MAX]
    bytes, a 64-bit expiry, and a block below [u32::MAX] bytes. *)
Definition entry_ok (kv : list Z * ValueMeta) : Prop :=
  kv.1 ≠ [] ∧ (Z.of_nat (length kv.1) ≤ 65535)%Z ∧ in_width 64 (vm_expires_at kv.2).

Definition entries_ok (kvs : list (list Z * ValueMeta)) : Prop :=
  Forall entry_ok kvs ∧ in_width 32 (Z.of_nat (length (concat (chunks kvs)) + 4 * length kvs)).

Definition builder_repr (bb : BlockBuilder) (kvs : list (list Z * ValueMeta)) : Prop :=
  bb_data bb = concat (chunks kvs) ∧ bb_base_keyts bb = base_of kvs ∧
  bb_entry_offsets bb = offsets (chunks kvs).

Definition block_repr (b : Block) (kvs : list (list Z * ValueMeta)) : Prop :=
  (∃ tail, bk_data b = concat (chunks kvs) ++ tail) ∧
  bk_entries_index_start b = length (concat (chunks kvs)) ∧
  bk_entry_offsets b = offsets (chunks kvs).

End BlockSpec.

(* ------------------------------------------------------------------ *)
(** ** Lemmas: prefixes and offsets *)

Lemma common_prefix_le_l a b : common_prefix a b ≤ length a.
Proof.
  revert b. induction a as [|x a IH]; intros [|y b]; cbn; try lia.
  destruct (Z.eqb x y); [specialize (IH b)|]; lia.
Qed.

Lemma common_prefix_le_r a b : common_prefix a b ≤ length b.
Proof.
  revert b. induction a as [|x a IH]; intros [|y b]; cbn; try lia.
  destruct (Z.eqb x y); [specialize (IH b)|]; lia.
Qed.

Lemma common_prefix_take a b : take (common_prefix a b) a = take (common_prefix a b) b.
Proof.
  revert b. induction a as [|x a IH]; intros [|y b]; cbn; try done.
  destruct (Z.eqb x y) eqn:E; [|done]. bool_to_prop. cbn. congruence.
Qed.

Lemma entry_overlap_facts base i k :
  entry_overlap base i k ≤ length base ∧ entry_overlap base i k ≤ length k ∧
  take (entry_overlap base i k) base = take (entry_overlap base i k) k.
Proof.
  unfold entry_overlap. case_if; [split_and!; [lia|lia|done]|].
  auto using common_prefix_le_l, common_prefix_le_r, common_prefix_take.
Qed.

Lemma concat_middle {A} (cs : list (list A)) i c :
  cs !! i = Some c → concat cs = concat (take i cs) ++ c ++ concat (drop (S i) cs).
Proof.
  intros H. rewrite <- (take_drop_middle cs i c H) at 1.
  by rewrite concat_app.
Qed.

Lemma start_of_S cs i c : cs !! i = Some c → start_of cs (S i) = start_of cs i + length c.
Proof.
  intros H. unfold start_of. rewrite (take_S_r _ _ _ H), concat_app, length_app.
  cbn. rewrite app_nil_r. done.
Qed.

Lemma start_of_le cs i : start_of cs i ≤ length (concat cs).
Proof.
  unfold start_of. rewrite <- (take_drop i cs) at 2. rewrite concat_app, length_app. lia.
Qed.

Lemma length_offsets cs : length (offsets cs) = length cs.
Proof. unfold offsets. by rewrite length_fmap, length_seq. Qed.

Lemma offsets_lookup cs i : i < length cs → offsets cs !! i = Some (Z.of_nat (start_of cs i)).
Proof.
  intros Hi. unfold offsets. rewrite list_lookup_fmap, lookup_seq_lt by done. done.
Qed.

Lemma start_of_app cs cs' i : i ≤ length cs → start_of (cs ++ cs') i = start_of cs i.
Proof. intros. unfold start_of. by rewrite take_app_le. Qed.

Lemma offsets_snoc cs c :
  offsets (cs ++ [c]) = offsets cs ++ [Z.of_nat (length (concat cs))].
Proof.
  unfold offsets. rewrite length_app. cbn [length]. rewrite Nat.add_1_r, seq_S, fmap_app.
  cbn [fmap list_fmap Nat.add]. f_equal.
  - apply list_fmap_ext. intros i x Hx. apply lookup_seq in Hx as [-> Hi].
    rewrite start_of_app by lia. done.
  - rewrite start_of_app by lia. unfold start_of. by rewrite take_ge by lia.
Qed.

Lemma vec_u32_to_bytes_length s : length (vec_u32_to_bytes s) = 4 * length s.
Proof.
  unfold vec_u32_to_bytes. induction s as [|x s IH]; cbn [fmap list_fmap concat length]; [done|].
  rewrite length_app, length_put_u32, IH. lia.
Qed.

Lemma bytes_to_vec_u32_loop_ok s rest :
  Forall (in_width 32) s →
  bytes_to_vec_u32_loop (length s) (vec_u32_to_bytes s ++ rest) = Ok s.
Proof.
  unfold vec_u32_to_bytes.
  induction 1 as [|x s Hx Hs IH]; cbn [fmap list_fmap concat length bytes_to_vec_u32_loop]; [done|].
  rewrite <- app_assoc, get_put_u32 by done.
  cbn [mbind outcome_bind]. rewrite IH. done.
Qed.

Lemma bytes_to_vec_u32_roundtrip s :
  Forall (in_width 32) s → bytes_to_vec_u32 (vec_u32_to_bytes s) = Ok s.
Proof.
  intros Hs. unfold bytes_to_vec_u32. rewrite vec_u32_to_bytes_length.
  replace (4 * length s / 4) with (length s) by (rewrite Nat.mul_comm, Nat.div_mul; lia).
  rewrite <- (app_nil_r (vec_u32_to_bytes s)). by apply bytes_to_vec_u32_loop_ok.
Qed.

Lemma EntryHeader_roundtrip h rest :
  in_width 16 (eh_overlap h) → in_width 16 (eh_diff h) →
  EntryHeader_deserialize (EntryHeader_serialize h ++ rest) = Ok h.
Proof.
  intros. unfold EntryHeader_deserialize, EntryHeader_serialize.
  rewrite <- app_assoc, get_put_u16 by done. cbn [mbind outcome_bind].
  rewrite get_put_u16 by done. cbn [mbind outcome_bind]. by destruct h.
Qed.

Lemma length_EntryHeader_serialize h : length (EntryHeader_serialize h) = HEADER_SIZE.
Proof. unfold EntryHeader_serialize. by rewrite length_app, !length_put_u16. Qed.

(* ------------------------------------------------------------------ *)
(** ** Lemmas: the builder *)

Section BuilderLemmas.
Context `{!VarInt, !ChecksumCodec}.

Lemma chunks_lookup kvs i kv :
  kvs !! i = Some kv → chunks kvs !! i = Some (chunk (base_of kvs) i kv).
Proof. intros Hl. unfold chunks. by rewrite list_lookup_imap, Hl. Qed.

Lemma length_chunks kvs : length (chunks kvs) = length kvs.
Proof. apply length_imap. Qed.

Lemma base_of_app kvs kvs' : kvs ≠ [] → base_of (kvs ++ kvs') = base_of kvs.
Proof. by destruct kvs. Qed.

Lemma chunks_snoc kvs kv :
  chunks (kvs ++ [kv]) = chunks kvs ++ [chunk (base_of (kvs ++ [kv])) (length kvs) kv].
Proof.
  unfold chunks. rewrite imap_app. cbn [imap]. rewrite Nat.add_0_r. f_equal.
  destruct kvs as [|p kvs]; [done|]. by rewrite base_of_app.
Qed.

(** Pushing one entry appends its chunk. *)
Lemma push_entry_repr bb kvs k v :
  builder_repr bb kvs → Forall entry_ok kvs → entry_ok (k, v) →
  in_width 32 (Z.of_nat (length (concat (chunks kvs)))) →
  ∃ bb', push_entry bb k v = Ok bb' ∧ builder_repr bb' (kvs ++ [(k, v)]).
Proof.
  intros (Hd & Hb & Ho) Hkvs (Hk & Hlk & _) Hw. cbn [fst] in *.
  set (ov := entry_overlap (base_of (kvs ++ [(k, v)])) (length kvs) k).
  destruct (entry_overlap_facts (base_of (kvs ++ [(k, v)])) (length kvs) k) as (_ & Hov & _).
  fold ov in Hov.
  assert ((if length (bb_base_keyts bb) =? 0 then (k, k)
           else (bb_base_keyts bb, drop (diff_base_key bb k) k))
          = (base_of (kvs ++ [(k, v)]), drop ov k)) as Hpair.
  { unfold ov, entry_overlap, diff_base_key. rewrite Hb.
    destruct kvs as [|[k0 v0] kvs]; [done|]. cbn [base_of app length].
    apply Forall_cons in Hkvs as [(Hk0 & _) _]. cbn [fst] in Hk0.
    destruct k0; done. }
  unfold push_entry. rewrite Hpair, length_drop.
  replace (length k - (length k - ov)) with ov by lia.
  unfold assert_or_panic.
  do 2 (guard_true; cbn [mbind outcome_bind]).
  eexists. split; [reflexivity|].
  split_and!; cbn [bb_data bb_base_keyts bb_entry_offsets]; [| done |].
  - rewrite Hd, chunks_snoc, concat_app. cbn [concat]. rewrite app_nil_r. f_equal.
    unfold chunk, entry_header. cbn [fst snd]. fold ov. unfold u16.
    rewrite !Z.mod_small by lia. done.
  - rewrite Ho, Hd, chunks_snoc, offsets_snoc. unfold u32.
    rewrite Z.mod_small by done. done.
Qed.

Lemma chunks_prefix kvs kvs' :
  kvs `prefix_of` kvs' → length (concat (chunks kvs)) ≤ length (concat (chunks kvs')).
Proof.
  intros [rest ->]. induction rest as [|kv rest IH] using rev_ind; [by rewrite app_nil_r|].
  rewrite app_assoc, chunks_snoc, concat_app, length_app. lia.
Qed.

Lemma push_entries_repr kvs bb done_kvs :
  builder_repr bb done_kvs → entries_ok (done_kvs ++ kvs) →
  ∃ bb', push_entries bb kvs = Ok bb' ∧ builder_repr bb' (done_kvs ++ kvs).
Proof.
  revert bb done_kvs. induction kvs as [|[k v] kvs IH]; intros bb dk Hr Hok; cbn [push_entries].
  { exists bb. by rewrite app_nil_r. }
  pose proof Hok as [Hall Hw]. apply Forall_app in Hall as [Hdk Hkv].
  apply Forall_cons in Hkv as [Hkv _].
  destruct (push_entry_repr bb dk k v) as (bb' & Hp & Hr'); try done.
  { pose proof (chunks_prefix dk (dk ++ (k, v) :: kvs)) as Hle.
    unfold in_width in *. rewrite length_app in Hw. cbn in Hw.
    assert (dk `prefix_of` dk ++ (k, v) :: kvs) as Hpre by (by eexists).
    specialize (Hle Hpre). lia. }
  rewrite Hp. cbn [mbind outcome_bind].
  destruct (IH bb' (dk ++ [(k, v)]) Hr') as (bb'' & Hp' & Hr''); [by rewrite <- app_assoc|].
  exists bb''. split; [done|]. by rewrite <- app_assoc in Hr''.
Qed.

Lemma builder_new_repr : builder_repr BlockBuilder_new [].
Proof. split_and!; done. Qed.

Lemma offsets_in_width cs :
  in_width 32 (Z.of_nat (length (concat cs))) → Forall (in_width 32) (offsets cs).
Proof.
  intros Hw. unfold offsets. apply Forall_fmap, Forall_forall. intros i _. cbn.
  pose proof (start_of_le cs i). unfold in_width in *. lia.
Qed.

(** Reading the finished block gives the entries and the checksum back. *)
Lemma deserialize_finish `{!ChecksumLaws} bb kvs algo tid bid off :
  builder_repr bb kvs → entries_ok kvs →
  ∃ b, Block_deserialize tid bid off (bb_data (finish_block bb algo)) = Ok b ∧
       block_repr b kvs ∧ Block_verify b = Ok () ∧
       bk_block_index b = bid.
Proof.
  intros (Hd & Hb & Ho) [_ Hw]. unfold finish_block. cbn [bb_data].
  rewrite Hd, Ho, length_offsets, length_chunks.
  set (body := concat (chunks kvs)) in *. set (n := length kvs) in *.
  set (data := body ++ vec_u32_to_bytes (offsets (chunks kvs)) ++ put_u32 (Z.of_nat n)).
  set (enc := checksum_encode (Checksum_new algo data)).
  assert (length data = length body + 4 * n + 4) as Hlen.
  { unfold data. rewrite !length_app, vec_u32_to_bytes_length, length_put_u32.
    rewrite length_offsets, length_chunks. fold n. lia. }
  assert (length enc < 32) as Henc by apply checksum_encode_short.
  assert (length (vec_u32_to_bytes (offsets (chunks kvs))) = 4 * n) as Hv.
  { by rewrite vec_u32_to_bytes_length, length_offsets, length_chunks. }
  assert (∀ p q, p = length body + 4 * n → q = p + 4 →
    slice data p q = Ok (put_u32 (Z.of_nat n))) as Hs1.
  { intros p q -> ->. unfold data. rewrite app_assoc, <- (app_nil_r (put_u32 _)) at 1.
    apply slice_app_mid; rewrite ?length_app, ?Hv, ?length_put_u32; lia. }
  assert (∀ p q, p = length body → q = p + 4 * n →
    slice data p q = Ok (vec_u32_to_bytes (offsets (chunks kvs)))) as Hs2.
  { intros p q -> ->. unfold data. apply slice_app_mid; rewrite ?Hv; lia. }
  unfold Block_deserialize. rewrite !length_app, length_put_u32, Hlen.
  rewrite usub_Ok by lia. cbn [mbind outcome_bind].
  rewrite (app_assoc data). rewrite <- (app_nil_r (put_u32 (Z.of_nat (length enc)))).
  rewrite slice_app_mid by (rewrite ?length_app, ?length_put_u32, ?app_nil_r, ?Hlen; lia).
  cbn [mbind outcome_bind].
  rewrite <- (app_nil_r (put_u32 _)), get_put_u32 by (unfold in_width; lia).
  cbn [mbind outcome_bind]. rewrite Nat2Z.id. case_if; [lia|].
  rewrite usub_Ok by lia. cbn [mbind outcome_bind].
  rewrite <- app_assoc, slice_app_mid by (rewrite ?Hlen; lia).
  cbn [mbind outcome_bind].
  rewrite take_app_length' by (rewrite Hlen; lia).
  rewrite usub_Ok by lia. cbn [mbind outcome_bind].
  rewrite Hs1 by lia. cbn [mbind outcome_bind].
  rewrite <- (app_nil_r (put_u32 _)), get_put_u32 by (unfold in_width in *; lia).
  cbn [mbind outcome_bind]. rewrite Nat2Z.id, usub_Ok by lia. cbn [mbind outcome_bind].
  rewrite Hs2 by lia. cbn [mbind outcome_bind].
  rewrite bytes_to_vec_u32_roundtrip
    by (apply offsets_in_width; fold body; unfold in_width in *; lia).
  cbn [mbind outcome_bind]. eexists. split; [reflexivity|].
  split; [|split; [|done]].
  - split_and!; cbn [bk_data bk_entries_index_start bk_entry_offsets]; [|fold body; lia|done].
    eexists. reflexivity.
  - unfold Block_verify. cbn [bk_checksum bk_data]. unfold enc.
    rewrite checksum_decode_new. apply Checksum_verify_new.
Qed.

End BuilderLemmas.

(* ------------------------------------------------------------------ *)
(** ** Lemmas: the iterator *)

(** The key held by an iterator shares the prefix its header announces. *)
Definition prefix_ok (base key : list Z) (h : EntryHeader) : Prop :=
  get_overlap h ≤ length base ∧ take (get_overlap h) key = take (get_overlap h) base.

Lemma prefix_ok_entry base i k : prefix_ok base k (entry_header base i k).
Proof.
  destruct (entry_overlap_facts base i k) as (H1 & H2 & H3).
  unfold prefix_ok, get_overlap, entry_header. cbn [eh_overlap]. by rewrite Nat2Z.id.
Qed.

Section IterLemmas.
Context `{!VarInt, !VarIntLaws}.
Context (b : Block) (kvs : list (list Z * ValueMeta)).
Context (Hrep : block_repr b kvs) (Hok : entries_ok kvs).

Local Abbreviation cs := (chunks kvs).
Local Abbreviation base := (base_of kvs).

Lemma Block_actual_data_ok : Block_actual_data b = Ok (concat cs).
Proof.
  destruct Hrep as ([tail Hd] & Hs & _). unfold Block_actual_data. rewrite Hd, Hs.
  by apply slice_to_app.
Qed.

Lemma entry_ok_lookup i k v :
  kvs !! i = Some (k, v) →
  k ≠ [] ∧ (Z.of_nat (length k) ≤ 65535)%Z ∧ in_width 64 (vm_expires_at v).
Proof.
  intros Hl. destruct Hok as [Hall _].
  exact (proj1 (Forall_lookup _ _) Hall i (k, v) Hl).
Qed.

Lemma chunk_header i k v rest :
  slice_to (chunk base i (k, v) ++ rest) HEADER_SIZE
  = Ok (EntryHeader_serialize (entry_header base i k)).
Proof.
  unfold chunk. cbn [fst]. rewrite <- app_assoc. apply slice_to_app.
  by rewrite length_EntryHeader_serialize.
Qed.

Lemma entry_at_ok i k v :
  kvs !! i = Some (k, v) →
  entry_at b (start_of cs i) =
    Ok (entry_header base i k, chunk base i (k, v) ++ concat (drop (S i) cs)).
Proof.
  intros Hl. unfold entry_at. rewrite Block_actual_data_ok. cbn [mbind outcome_bind].
  rewrite (concat_middle _ _ _ (chunks_lookup _ _ _ Hl)), slice_from_app by done.
  cbn [mbind outcome_bind]. rewrite chunk_header.
  cbn [mbind outcome_bind]. rewrite <- (app_nil_r (EntryHeader_serialize _)).
  destruct (entry_ok_lookup _ _ _ Hl) as (_ & Hk & _).
  destruct (entry_overlap_facts base i k) as (_ & Hov & _).
  rewrite EntryHeader_roundtrip
    by (unfold entry_header, in_width; cbn [eh_overlap eh_diff]; lia).
  done.
Qed.

Lemma chunk_diff i k v rest :
  slice (chunk base i (k, v) ++ rest) HEADER_SIZE (HEADER_SIZE + get_diff (entry_header base i k))
  = Ok (drop (entry_overlap base i k) k).
Proof.
  unfold chunk. cbn [fst snd]. rewrite <- !app_assoc. apply slice_app_mid.
  - by rewrite length_EntryHeader_serialize.
  - rewrite length_EntryHeader_serialize, length_drop. unfold get_diff, entry_header.
    cbn [eh_diff]. rewrite Nat2Z.id. done.
Qed.

Lemma rebuild_key_ok key h i k v rest :
  prefix_ok base key h →
  rebuild_key base key h (entry_header base i k) (chunk base i (k, v) ++ rest) = Ok k.
Proof.
  intros [Hle Htake]. unfold rebuild_key. rewrite chunk_diff.
  destruct (entry_overlap_facts base i k) as (Hb & Hk & Hpre).
  replace (get_overlap (entry_header base i k)) with (entry_overlap base i k)
    by (unfold get_overlap, entry_header; cbn [eh_overlap]; by rewrite Nat2Z.id).
  set (n := entry_overlap base i k) in *. set (p := get_overlap h) in *.
  case_if.
  - rewrite slice_Ok by lia. cbn [mbind outcome_bind]. f_equal.
    rewrite Htake, take_take_drop. replace (p + (n - p)) with n by lia.
    by rewrite Hpre, take_drop.
  - cbn [mbind outcome_bind]. f_equal.
    replace (take n key) with (take n (take p key)) by (rewrite take_take; f_equal; lia).
    rewrite Htake, take_take, Nat.min_l by lia. by rewrite Hpre, take_drop.
Qed.

Lemma offset_lookup i k v :
  kvs !! i = Some (k, v) → bk_entry_offsets b !! i = Some (Z.of_nat (start_of cs i)).
Proof.
  intros Hl. destruct Hrep as (_ & _ & ->). apply offsets_lookup.
  rewrite length_chunks. by eapply lookup_lt_Some.
Qed.

Lemma length_offsets_b : length (bk_entry_offsets b) = length kvs.
Proof. destruct Hrep as (_ & _ & ->). by rewrite length_offsets, length_chunks. Qed.

Lemma set_entry_index_ok it i k v :
  bi_inner it = b → bi_base_key it = base →
  prefix_ok base (bi_key it) (bi_header it) → kvs !! i = Some (k, v) →
  set_entry_index it i =
    Ok (mkSinkBlockIter b base k (entry_header base i k) (Some i)
          (bi_back_key it) (bi_back_header it) (bi_back_entry_index it)).
Proof.
  intros Hin Hbase Hpre Hl. unfold set_entry_index.
  rewrite Hin, Hbase, (idx_Ok _ _ _ (offset_lookup _ _ _ Hl)). cbn [mbind outcome_bind].
  rewrite Nat2Z.id, (entry_at_ok _ _ _ Hl). cbn [mbind outcome_bind].
  by rewrite rebuild_key_ok.
Qed.

Lemma value_at_ok i k v :
  kvs !! i = Some (k, v) → value_at b (entry_header base i k) i = Ok (Some v).
Proof.
  intros Hl. unfold value_at.
  assert ((if i + 1 =? length (bk_entry_offsets b) then Ok (bk_entries_index_start b)
           else o ← idx (bk_entry_offsets b) (i + 1); Ok (Z.to_nat o))
          = Ok (start_of cs (S i))) as ->.
  { pose proof (lookup_lt_Some _ _ _ Hl). rewrite length_offsets_b. case_if.
    - destruct Hrep as (_ & -> & _). unfold start_of. rewrite take_ge; [done|].
      rewrite length_chunks. lia.
    - destruct Hrep as (_ & _ & ->). rewrite Nat.add_1_r in *.
      rewrite (idx_Ok _ _ (Z.of_nat (start_of cs (S i)))).
      + cbn [mbind outcome_bind]. by rewrite Nat2Z.id.
      + apply offsets_lookup. rewrite length_chunks. lia. }
  cbn [mbind outcome_bind].
  rewrite (idx_Ok _ _ _ (offset_lookup _ _ _ Hl)). cbn [mbind outcome_bind].
  rewrite Block_actual_data_ok. cbn [mbind outcome_bind].
  pose proof (chunks_lookup _ _ _ Hl) as Hc.
  rewrite (start_of_S _ _ _ Hc), Nat2Z.id, (concat_middle _ _ _ Hc).
  unfold chunk. cbn [fst snd].
  set (hd := EntryHeader_serialize (entry_header base i k)).
  set (df := drop (entry_overlap base i k) k).
  replace (concat (take i cs) ++ (hd ++ df ++ ValueMeta_serialize v) ++ concat (drop (S i) cs))
    with ((concat (take i cs) ++ hd ++ df) ++ ValueMeta_serialize v ++ concat (drop (S i) cs))
    by (by rewrite <- !app_assoc).
  assert (length hd = HEADER_SIZE) as Hhd by apply length_EntryHeader_serialize.
  assert (length df = get_diff (entry_header base i k)) as Hdf.
  { unfold df, get_diff, entry_header. cbn [eh_diff]. by rewrite length_drop, Nat2Z.id. }
  rewrite slice_app_mid.
  - cbn [mbind outcome_bind]. rewrite ValueMeta_deserialize_serialize; [done|].
    by destruct (entry_ok_lookup _ _ _ Hl) as (_ & _ & ?).
  - rewrite !length_app, Hhd, Hdf. unfold start_of. lia.
  - rewrite !length_app, Hhd, Hdf. unfold start_of. lia.
Qed.

Lemma block_key_ok i k v : kvs !! i = Some (k, v) → block_key k = Some k.
Proof.
  intros Hl. destruct (entry_ok_lookup _ _ _ Hl) as (Hk & _). by destruct k.
Qed.

(** A forward iterator standing on entry [i], nothing consumed from the back. *)
Definition fwd_at (i : nat) (k : list Z) : SinkBlockIter :=
  mkSinkBlockIter b base k (entry_header base i k) (Some i) [] EntryHeader_default None.

Lemma load_base_ok it k v :
  bi_inner it = b → bi_base_key it = [] → kvs !! 0 = Some (k, v) →
  load_base it = Ok (mkSinkBlockIter b base (bi_key it) (entry_header base 0 k)
    (bi_entry_index it) (bi_back_key it) (bi_back_header it) (bi_back_entry_index it)).
Proof.
  intros Hin Hb Hl. unfold load_base. rewrite Hb. cbn [length Nat.eqb].
  pose proof (entry_at_ok 0 k v Hl) as He. change (start_of cs 0) with 0 in He.
  rewrite Hin, He. cbn [mbind outcome_bind]. rewrite chunk_diff. cbn [mbind outcome_bind].
  replace (drop (entry_overlap base 0 k) k) with base; [done|].
  destruct kvs as [|[k0 v0] ?]; [done|]. cbn in Hl. by simplify_eq.
Qed.

Lemma next_first k v : kvs !! 0 = Some (k, v) → next (Block_iter b) = Ok (true, fwd_at 0 k).
Proof.
  intros Hl. unfold next, SinkBlockIter_next, Block_iter. cbn [bi_entry_index bi_inner].
  rewrite length_offsets_b. pose proof (lookup_lt_Some _ _ _ Hl).
  case_if; [lia|]. erewrite load_base_ok by (reflexivity || exact Hl). cbn.
  unfold fwd_at. do 2 f_equal. destruct kvs as [|[k0 v0] ?]; [done|]. cbn in Hl. by simplify_eq.
Qed.

Lemma next_step i k k' v' :
  kvs !! S i = Some (k', v') → next (fwd_at i k) = Ok (true, fwd_at (S i) k').
Proof.
  intros Hl. unfold next, SinkBlockIter_next, fwd_at.
  cbn [bi_entry_index bi_inner bi_back_entry_index]. rewrite length_offsets_b.
  pose proof (lookup_lt_Some _ _ _ Hl). rewrite usub_Ok by lia. cbn [mbind outcome_bind].
  case_if; [lia|]. rewrite Nat.add_1_r.
  erewrite set_entry_index_ok by (reflexivity || exact Hl || apply prefix_ok_entry). done.
Qed.

Lemma next_end i k v :
  kvs !! i = Some (k, v) → length kvs = S i → next (fwd_at i k) = Ok (false, fwd_at i k).
Proof.
  intros Hl Hn. unfold next, SinkBlockIter_next, fwd_at.
  cbn [bi_entry_index bi_inner bi_back_entry_index]. rewrite length_offsets_b, Hn.
  rewrite usub_Ok by lia. cbn [mbind outcome_bind]. by guard_true.
Qed.

Lemma block_yields_from i k v :
  kvs !! i = Some (k, v) → yields (fwd_at i k) (drop (S i) kvs).
Proof.
  intros Hl. remember (length kvs - S i) as n eqn:Hn. revert i k v Hl Hn.
  induction n as [|n IH]; intros i k v Hl Hn; pose proof (lookup_lt_Some _ _ _ Hl).
  - rewrite drop_ge by lia. eapply yields_nil. eapply next_end; [done|lia].
  - destruct (lookup_lt_is_Some_2 kvs (S i)) as [[k' v'] Hl']; [lia|].
    rewrite (drop_S _ _ _ Hl').
    eapply yields_cons; [by eapply next_step| | |].
    + by eapply block_key_ok.
    + by apply value_at_ok.
    + eapply IH; [done|lia].
Qed.

Lemma block_iter_yields : yields (Block_iter b) kvs.
Proof.
  destruct (decide (kvs = [])) as [Hnil|Hne].
  { rewrite Hnil. eapply yields_nil. unfold next, SinkBlockIter_next, Block_iter.
    cbn [bi_entry_index bi_inner]. rewrite length_offsets_b, Hnil. done. }
  assert (∃ kv, kvs !! 0 = Some kv) as [[k v] Hl] by (destruct kvs; [done|]; eexists; done).
  rewrite <- (drop_0 kvs). rewrite (drop_S _ _ _ Hl).
  eapply yields_cons; [by eapply next_first| | |].
  - by eapply block_key_ok.
  - by apply value_at_ok.
  - by eapply block_yields_from.
Qed.

End IterLemmas.

(* ------------------------------------------------------------------ *)
(** ** Lemmas: iterating from the back *)

Section BackLemmas.
Context `{!VarInt, !VarIntLaws}.
Context (b : Block) (kvs : list (list Z * ValueMeta)).
Context (Hrep : block_repr b kvs) (Hok : entries_ok kvs).

Local Abbreviation cs := (chunks kvs).
Local Abbreviation base := (base_of kvs).

(** A backward iterator standing on entry [i], nothing consumed in front. *)
Definition bwd_at (i : nat) (k : list Z) : SinkBlockIter :=
  mkSinkBlockIter b base [] (entry_header base 0 base) None k (entry_header base i k) (Some i).

Lemma next_back_first i k v :
  kvs !! i = Some (k, v) → length kvs = S i →
  next_back (Block_iter b) = Ok (true, bwd_at i k).
Proof.
  intros Hl Hn. unfold next_back, SinkBlockIter_next_back, Block_iter.
  cbn [bi_back_entry_index bi_inner]. rewrite (length_offsets_b b kvs Hrep).
  case_if; [lia|].
  assert (∃ v0, kvs !! 0 = Some (base, v0)) as [v0 Hl0].
  { destruct kvs as [|[k0 v0] ?]; [done|]. by exists v0. }
  erewrite (load_base_ok b kvs Hrep Hok) by (reflexivity || exact Hl0).
  cbn [mbind outcome_bind bi_inner bi_base_key bi_key bi_header bi_entry_index].
  rewrite last_lookup, (length_offsets_b b kvs Hrep), Hn. cbn [pred].
  rewrite (offset_lookup b kvs Hrep _ _ _ Hl). cbn [unwrap mbind outcome_bind].
  rewrite Nat2Z.id, (entry_at_ok b kvs Hrep Hok _ _ _ Hl). cbn [mbind outcome_bind].
  destruct (entry_overlap_facts base i k) as (Hb & Hk & Hpre).
  replace (get_overlap (entry_header base i k)) with (entry_overlap base i k)
    by (unfold get_overlap, entry_header; cbn [eh_overlap]; by rewrite Nat2Z.id).
  rewrite slice_to_Ok by done. cbn [mbind outcome_bind].
  rewrite (chunk_diff kvs). cbn [mbind outcome_bind].
  rewrite Hpre, take_drop. replace (S i - 1) with i by lia. done.
Qed.

Lemma next_back_step i k k' v' :
  kvs !! i = Some (k', v') → next_back (bwd_at (S i) k) = Ok (true, bwd_at i k').
Proof.
  intros Hl. unfold next_back, SinkBlockIter_next_back, bwd_at.
  cbn [bi_back_entry_index bi_inner bi_entry_index]. cbn [mbind outcome_bind Nat.eqb].
  rewrite usub_Ok by lia. cbn [mbind outcome_bind].
  replace (S i - 1) with i by lia.
  rewrite (idx_Ok _ _ _ (offset_lookup b kvs Hrep _ _ _ Hl)). cbn [mbind outcome_bind].
  rewrite Nat2Z.id, (entry_at_ok b kvs Hrep Hok _ _ _ Hl).
  cbn [mbind outcome_bind bi_base_key bi_back_key bi_back_header].
  rewrite (rebuild_key_ok kvs) by apply prefix_ok_entry. done.
Qed.

Lemma next_back_end k : next_back (bwd_at 0 k) = Ok (false, bwd_at 0 k).
Proof. done. Qed.

Lemma block_yields_back_from i k v :
  kvs !! i = Some (k, v) → yields (mkRev (bwd_at i k)) (reverse (take i kvs)).
Proof.
  revert k v. induction i as [|i IH]; intros k v Hl.
  - eapply yields_nil. unfold next, SinkIterRev_next. cbn [rev_iter].
    rewrite next_back_end. reflexivity.
  - destruct (lookup_lt_is_Some_2 kvs i) as [[k' v'] Hl'].
    { pose proof (lookup_lt_Some _ _ _ Hl). lia. }
    rewrite (take_S_r _ _ _ Hl'), reverse_snoc.
    eapply yields_cons; [| | |by eapply IH].
    + unfold next, SinkIterRev_next. cbn [rev_iter].
      rewrite (next_back_step _ _ _ _ Hl'). reflexivity.
    + by eapply (block_key_ok kvs Hok).
    + by apply (value_at_ok b kvs Hrep Hok).
Qed.

Lemma block_iter_yields_back : yields (mkRev (Block_iter b)) (reverse kvs).
Proof.
  destruct (decide (kvs = [])) as [Hnil|Hne].
  { rewrite Hnil. eapply yields_nil. unfold next, SinkIterRev_next. cbn [rev_iter].
    unfold next_back, SinkBlockIter_next_back, Block_iter.
    cbn [bi_back_entry_index bi_inner]. rewrite (length_offsets_b b kvs Hrep), Hnil. done. }
  destruct (lookup_lt_is_Some_2 kvs (length kvs - 1)) as [[k v] Hl].
  { destruct kvs; [done|]. cbn [length]. lia. }
  set (i := length kvs - 1) in *. assert (length kvs = S i) as Hn.
  { unfold i. destruct kvs; [done|]. cbn [length]. lia. }
  assert (reverse kvs = (k, v) :: reverse (take i kvs)) as Hr.
  { rewrite <- (take_ge kvs (length kvs)) at 1 by done.
    by rewrite Hn, (take_S_r _ _ _ Hl), reverse_snoc. }
  rewrite Hr. eapply yields_cons; [| | |by eapply block_yields_back_from].
  - unfold next, SinkIterRev_next. cbn [rev_iter].
    rewrite (next_back_first _ _ _ Hl Hn). reflexivity.
  - by eapply (block_key_ok kvs Hok).
  - by apply (value_at_ok b kvs Hrep Hok).
Qed.

End BackLemmas.

(* ------------------------------------------------------------------ *)
(** ** Lemmas: seeking *)

Definition kt_ok (K : KeyTs) : Prop := kt_key K ≠ [] ∧ in_width 64 (kt_ts K).

(** The entries of a block given by their keys rather than their bytes. *)
Definition ser_entries (es : list (KeyTs * ValueMeta)) : list (list Z * ValueMeta) :=
  (λ e, (KeyTs_serialize e.1, e.2)) <$> es.

(** Strictly ascending keys. *)
Definition keys_sorted (es : list (KeyTs * ValueMeta)) : Prop :=
  ∀ i j a c, i < j → es !! i = Some a → es !! j = Some c → KeyTs_cmp a.1 c.1 = Lt.

(** The prefix comparison of [seek] never reaches into the timestamp of the
    sought key. *)
Definition seek_safe (K : KeyTs) (es : list (KeyTs * ValueMeta)) : Prop :=
  ∀ i e, es !! i = Some e →
    let ov := entry_overlap (base_of (ser_entries es)) i (KeyTs_serialize e.1) in
    Nat.min (length (kt_key e.1)) ov ≤ length (kt_key K).

Lemma take_KeyTs_serialize n K :
  n ≤ length (kt_key K) → take n (KeyTs_serialize K) = take n (kt_key K).
Proof. intros. unfold KeyTs_serialize. by rewrite take_app_le. Qed.

(** Comparing equal-length prefixes of two user keys decides their order. *)
Lemma prefix_cmp_decides n A B :
  n ≤ length (kt_key A) → n ≤ length (kt_key B) →
  bytes_cmp (take n (kt_key A)) (take n (kt_key B)) ≠ Eq →
  KeyTs_cmp A B = bytes_cmp (take n (kt_key A)) (take n (kt_key B)).
Proof.
  intros HA HB Hne. unfold KeyTs_cmp.
  rewrite <- (take_drop n (kt_key A)) at 1. rewrite <- (take_drop n (kt_key B)) at 1.
  rewrite bytes_cmp_app_same_length by (rewrite !length_take; lia).
  by destruct (bytes_cmp (take n (kt_key A)) (take n (kt_key B))).
Qed.

Section SeekLemmas.
Context `{!VarInt, !VarIntLaws}.
Context (b : Block) (es : list (KeyTs * ValueMeta)) (K : KeyTs).
Context (Hrep : block_repr b (ser_entries es)) (Hok : entries_ok (ser_entries es)).
Context (Hkts : Forall (λ e, kt_ok e.1) es) (HK : kt_ok K).
Context (Hsafe : seek_safe K es).

Local Abbreviation kvs := (ser_entries es).
Local Abbreviation base := (base_of kvs).

Lemma ser_entries_lookup i e :
  es !! i = Some e → kvs !! i = Some (KeyTs_serialize e.1, e.2).
Proof. intros Hl. unfold ser_entries. by rewrite list_lookup_fmap, Hl. Qed.

Lemma seek_cmp_ok i e :
  es !! i = Some e →
  seek_cmp b base (KeyTs_serialize K) (Z.of_nat (start_of (chunks kvs) i)) =
  Ok (KeyTs_cmp e.1 K).
Proof.
  intros Hl. pose proof (ser_entries_lookup _ _ Hl) as Hkv.
  destruct (proj1 (Forall_lookup _ _) Hkts i e Hl) as [He1 He2]. destruct HK as [HK1 HK2].
  pose proof (Hsafe i e Hl) as Hs. cbn zeta in Hs.
  set (k := KeyTs_serialize e.1) in *. set (ov := entry_overlap base i k) in *.
  destruct (entry_overlap_facts base i k) as (Hb & Hk & Hpre). fold ov in Hb, Hk, Hpre.
  unfold seek_cmp. rewrite Nat2Z.id, (entry_at_ok b kvs Hrep Hok _ _ _ Hkv).
  cbn [mbind outcome_bind].
  replace (get_overlap (entry_header base i k)) with ov
    by (unfold get_overlap, entry_header; cbn [eh_overlap]; by rewrite Nat2Z.id).
  rewrite (chunk_diff kvs). fold ov. rewrite (slice_to_Ok base ov) by done.
  cbn [mbind outcome_bind]. rewrite Hpre, take_drop.
  assert (kb_cmp k (KeyTs_serialize K) = KeyTs_cmp e.1 K) as Hfull
    by (by apply kb_cmp_serialize).
  replace (get_diff (entry_header base i k)) with (length k - ov)
    by (unfold get_diff, entry_header; cbn [eh_diff]; by rewrite Nat2Z.id).
  assert (length k = length (kt_key e.1) + 8) as Hlk by apply length_KeyTs_serialize.
  case_if; [|cbn [mbind outcome_bind]; by rewrite Hfull].
  rewrite usub_Ok by lia. cbn [mbind outcome_bind].
  replace (ov + (length k - ov) - 8) with (length (kt_key e.1)) by lia.
  set (n := Nat.min (length (kt_key e.1)) ov) in *.
  rewrite length_KeyTs_serialize in *. unfold KeyTs_len in *.
  rewrite !slice_to_Ok by (rewrite ?length_KeyTs_serialize; unfold KeyTs_len; lia).
  cbn [mbind outcome_bind].
  replace (take n base) with (take n (kt_key e.1)).
  2:{ rewrite <- (take_KeyTs_serialize n e.1) by lia. fold k.
      replace (take n k) with (take n (take ov k)) by (rewrite take_take; f_equal; lia).
      rewrite <- Hpre, take_take. f_equal. lia. }
  rewrite take_KeyTs_serialize by lia.
  destruct (bytes_cmp (take n (kt_key e.1)) (take n (kt_key K))) eqn:Ec.
  - by rewrite Hfull.
  - rewrite (prefix_cmp_decides n e.1 K) by (lia || congruence). by rewrite Ec.
  - rewrite (prefix_cmp_decides n e.1 K) by (lia || congruence). by rewrite Ec.
Qed.

(** The binary search over the offsets. *)
Lemma seek_search_ok :
  keys_sorted es →
  ∃ r, binary_search_by (bk_entry_offsets b) (seek_cmp b base (KeyTs_serialize K)) = Ok r ∧
    match r with
    | Found i => ∃ e, es !! i = Some e ∧ KeyTs_cmp e.1 K = Eq
    | NotFound i => i ≤ length es ∧
        (∀ j e, j < i → es !! j = Some e → KeyTs_cmp e.1 K = Lt) ∧
        (∀ j e, i ≤ j → es !! j = Some e → KeyTs_cmp e.1 K = Gt)
    end.
Proof.
  intros Hsorted. unfold binary_search_by.
  assert (length (bk_entry_offsets b) = length es) as Hlen.
  { rewrite (length_offsets_b b kvs Hrep). apply length_fmap. }
  set (F := λ i, match es !! i with Some e => KeyTs_cmp e.1 K | None => Gt end).
  destruct (search_ok (length es) F
    (λ i, x ← idx (bk_entry_offsets b) i; seek_cmp b base (KeyTs_serialize K) x))
    as (r & Hr & Hpost).
  - intros i Hi. destruct (lookup_lt_is_Some_2 es i Hi) as [e He].
    rewrite (idx_Ok _ _ _ (offset_lookup b kvs Hrep _ _ _ (ser_entries_lookup _ _ He))).
    cbn [mbind outcome_bind]. unfold F. rewrite He. by apply seek_cmp_ok.
  - intros i j Hij Hj. unfold F.
    destruct (lookup_lt_is_Some_2 es j Hj) as [c Hc]. rewrite Hc.
    destruct (lookup_lt_is_Some_2 es i) as [a Ha]; [lia|]. rewrite Ha.
    apply (cmp_lt_search KeyTs_cmp), (Hsorted i j a c Hij Ha Hc).
  - rewrite Hlen. exists r. split; [done|]. destruct r as [i|i]; cbn in Hpost.
    + destruct Hpost as [Hi Hf]. destruct (lookup_lt_is_Some_2 es i Hi) as [e He].
      exists e. split; [done|]. unfold F in Hf. by rewrite He in Hf.
    + destruct Hpost as (Hi & Hlo & Hhi). split_and!; [done| |].
      * intros j e Hj He. specialize (Hlo j Hj). unfold F in Hlo. by rewrite He in Hlo.
      * intros j e Hj He. specialize (Hhi j Hj (lookup_lt_Some _ _ _ He)).
        unfold F in Hhi. by rewrite He in Hhi.
Qed.

End SeekLemmas.


(** What a successful [seek] establishes: the iterator stands on the first
    entry that is not below [K] and goes on from there; [false] means that
    there is none. *)
Definition seek_post `{!VarInt} (es : list (KeyTs * ValueMeta)) (K : KeyTs)
    (r : bool * SinkBlockIter) : Prop :=
  let '(found, it) := r in
  if (found : bool) then
    ∃ i e, es !! i = Some e ∧ KeyTs_cmp e.1 K ≠ Lt ∧
      (∀ j e', j < i → es !! j = Some e' → KeyTs_cmp e'.1 K = Lt) ∧
      iter_key it = Some (KeyTs_serialize e.1) ∧ iter_value it = Ok (Some e.2) ∧
      yields it (drop (S i) (ser_entries es))
  else ∀ e, e ∈ es → KeyTs_cmp e.1 K = Lt.

Section SeekResult.
Context `{!VarInt, !VarIntLaws}.
Context (b : Block) (es : list (KeyTs * ValueMeta)) (K : KeyTs).
Context (Hrep : block_repr b (ser_entries es)) (Hok : entries_ok (ser_entries es)).
Context (Hsorted : keys_sorted es).

Local Abbreviation kvs := (ser_entries es).

(** Landing on entry [i] when everything before it is below [K]. *)
Lemma seek_land it0 i e :
  bi_inner it0 = b → bi_base_key it0 = base_of kvs →
  prefix_ok (base_of kvs) (bi_key it0) (bi_header it0) →
  bi_back_key it0 = [] → bi_back_header it0 = EntryHeader_default →
  bi_back_entry_index it0 = None →
  es !! i = Some e → KeyTs_cmp e.1 K ≠ Lt →
  (∀ j e', j < i → es !! j = Some e' → KeyTs_cmp e'.1 K = Lt) →
  ∃ it, set_entry_index it0 i = Ok it ∧ seek_post es K (true, it).
Proof.
  intros Hin Hbase Hpre Hb1 Hb2 Hb3 He Hge Hlow.
  pose proof (ser_entries_lookup es i e He) as Hl.
  rewrite (set_entry_index_ok b kvs Hrep Hok it0 i _ _ Hin Hbase Hpre Hl), Hb1, Hb2, Hb3.
  eexists. split; [reflexivity|]. exists i, e. split_and!; try done.
  - by eapply (block_key_ok kvs Hok).
  - by apply (value_at_ok b kvs Hrep Hok).
  - by eapply (block_yields_from b kvs Hrep Hok).
Qed.

Lemma seek_ok :
  Forall (λ e, kt_ok e.1) es → kt_ok K → seek_safe K es →
  ∃ r, SinkBlockIter_seek (Block_iter b) (KeyTs_serialize K) = Ok r ∧ seek_post es K r.
Proof.
  intros Hkts HK Hsafe. unfold SinkBlockIter_seek. cbn [bi_entry_index Block_iter].
  destruct (es !! 0) as [[K0 v0]|] eqn:He0.
  2:{ destruct es as [|e0 es0]; [|done]. destruct Hrep as (_ & _ & Ho).
      exists (false, Block_iter b). split; [|by intros e ?%elem_of_nil].
      unfold SinkBlockIter_next, Block_iter. cbn [bi_entry_index bi_inner]. by rewrite Ho. }
  pose proof (ser_entries_lookup es _ _ He0) as Hl0. cbn [fst snd] in Hl0.
  pose proof (next_first b kvs Hrep Hok _ _ Hl0) as Hnext. unfold next in Hnext.
  rewrite Hnext. cbn [mbind outcome_bind negb]. cbn [fwd_at bi_inner bi_base_key].
  destruct (seek_search_ok b es K Hrep Hok Hkts HK Hsafe Hsorted) as (r & Hr & Hpost).
  rewrite Hr. cbn [mbind outcome_bind].
  assert (length (bk_entry_offsets b) = length es) as Hlen.
  { rewrite (length_offsets_b b kvs Hrep). apply length_fmap. }
  assert (∀ i e, es !! i = Some e → KeyTs_cmp e.1 K ≠ Lt →
    (∀ j e', j < i → es !! j = Some e' → KeyTs_cmp e'.1 K = Lt) →
    ∃ it, set_entry_index (fwd_at b kvs 0 (KeyTs_serialize K0)) i = Ok it ∧
          seek_post es K (true, it)) as Hland.
  { intros i e He Hge Hlow. apply (seek_land _ i e); try done. apply prefix_ok_entry. }
  destruct r as [i|i].
  - destruct Hpost as (e & He & Heq).
    destruct (Hland i e He) as (it & Hit & Hpost); [congruence| |].
    { intros j e' Hj He'. pose proof (Hsorted j i e' e Hj He' He) as Hlt.
      apply (cmp_eq (cmp := KeyTs_cmp)) in Heq. by rewrite <- Heq. }
    rewrite Hit. by exists (true, it).
  - destruct Hpost as (Hi & Hlow & Hhigh). rewrite Hlen. case_if.
    + eexists. split; [done|]. intros e [j Hj]%list_elem_of_lookup.
      apply (Hlow j e); [|done]. pose proof (lookup_lt_Some _ _ _ Hj). lia.
    + destruct (lookup_lt_is_Some_2 es i) as [e He]; [lia|].
      destruct (Hland i e He) as (it & Hit & Hpost); [|exact (λ j e' Hj, Hlow j e' Hj)|].
      { rewrite (Hhigh i e) by done. done. }
      rewrite Hit. by exists (true, it).
Qed.

End SeekResult.

(* ------------------------------------------------------------------ *)
(** ** Theorems *)

(** C11: A block that is built by pushing entries and finished reads back: the
    bytes deserialise, their checksum verifies, the forward iterator delivers
    exactly the pushed entries in order, and the reversed iterator delivers
    them in the opposite order, each in one turn per entry. *)
Theorem block_roundtrip `{!VarInt, !VarIntLaws, !ChecksumCodec, !ChecksumLaws}
    kvs algo tid bid off :
  entries_ok kvs →
  ∃ bb b,
    push_entries BlockBuilder_new kvs = Ok bb ∧
    Block_deserialize tid bid off (bb_data (finish_block bb algo)) = Ok b ∧
    Block_verify b = Ok () ∧
    drain (S (length kvs)) (Block_iter b) = Ok (Some kvs) ∧
    drain (S (length kvs)) (mkRev (Block_iter b)) = Ok (Some (reverse kvs)).
Proof.
  intros Hok.
  destruct (push_entries_repr kvs BlockBuilder_new [] builder_new_repr Hok) as (bb & Hp & Hr).
  destruct (deserialize_finish bb kvs algo tid bid off Hr Hok) as (b & Hd & Hrep & Hv & _).
  exists bb, b. split_and!; try done.
  - apply drain_yields; [by apply block_iter_yields|lia].
  - apply drain_yields; [by apply block_iter_yields_back|]. rewrite length_reverse. lia.
Qed.

(** On a block whose keys ascend, [seek] from a fresh iterator stops at the
    first entry that is not below the sought key, and answers [false] only when
    there is none, provided the shared prefix it compares first does not reach
    beyond the user key of the sought key. *)
Theorem block_seek_first_not_below `{!VarInt, !VarIntLaws} b es K :
  block_repr b (ser_entries es) → entries_ok (ser_entries es) →
  Forall (λ e, kt_ok e.1) es → keys_sorted es → kt_ok K → seek_safe K es →
  ∃ r, SinkBlockIter_seek (Block_iter b) (KeyTs_serialize K) = Ok r ∧ seek_post es K r.
Proof. intros. by apply seek_ok. Qed.

(** ** Witnesses and examples *)

Module Examples.

Definition vm (v : list Z) : ValueMeta := mkValueMeta v 5 1 64.

(** Three keys with a shared prefix; the second has two versions. *)
Definition es : list (KeyTs * ValueMeta) :=
  [(mkKeyTs [1; 2; 3; 4; 5; 6; 7; 8; 9; 1] 7, vm [10]);
   (mkKeyTs [1; 2; 3; 4; 5; 6; 7; 8; 9; 2] 9, vm [20; 21]);
   (mkKeyTs [1; 2; 3; 4; 5; 6; 7; 8; 9; 2] 3, vm [])]%Z.

Lemma es_ok : entries_ok (ser_entries es).
Proof.
  split; [|vm_compute; split; congruence].
  repeat constructor; vm_compute; congruence.
Defined.

Definition built : outcome Block :=
  bb ← push_entries BlockBuilder_new (ser_entries es);
  Block_deserialize 1 0 0 (bb_data (finish_block bb Crc32c)).

Lemma block_roundtrip_witness :
  entries_ok (ser_entries es) ∧ (b ← built; drain 4 (Block_iter b)) = Ok (Some (ser_entries es)).
Proof.
  split; [apply es_ok|].
  destruct (block_roundtrip (ser_entries es) Crc32c 1 0 0 es_ok) as (bb & b & Hp & Hd & _ & Hf & _).
  unfold built. rewrite Hp. cbn [mbind outcome_bind]. rewrite Hd. exact Hf.
Defined.

Definition the_block : Block := match built with Ok b => b | _ => mkBlock 0 0 0 [] 0 [] [] 0 end.

Lemma the_block_repr : block_repr the_block (ser_entries es).
Proof.
  split_and!; [|reflexivity|reflexivity].
  exists (drop (length (concat (chunks (ser_entries es)))) (bk_data the_block)).
  vm_compute. reflexivity.
Defined.

Lemma es_sorted : keys_sorted es.
Proof.
  intros [|[|[|i]]] [|[|[|j]]] a c Hij Ha Hc; try lia; cbn in *; simplify_eq; reflexivity.
Defined.

(** Seeking version 5 of the second key lands on its version 3. *)
Lemma block_seek_witness :
  (∃ r, SinkBlockIter_seek (Block_iter the_block)
          (KeyTs_serialize (mkKeyTs [1; 2; 3; 4; 5; 6; 7; 8; 9; 2] 5)) = Ok r ∧
        seek_post es (mkKeyTs [1; 2; 3; 4; 5; 6; 7; 8; 9; 2] 5) r)%Z.
Proof.
  apply (block_seek_first_not_below the_block es (mkKeyTs [1; 2; 3; 4; 5; 6; 7; 8; 9; 2] 5)%Z).
  - apply the_block_repr.
  - apply es_ok.
  - repeat constructor; vm_compute; congruence.
  - apply es_sorted.
  - split; vm_compute; [|split]; congruence.
  - intros [|[|[|i]]] e He; cbn in He; simplify_eq; vm_compute; lia.
Defined.

Example seek_lands :
  match SinkBlockIter_seek (Block_iter the_block)
          (KeyTs_serialize (mkKeyTs [1; 2; 3; 4; 5; 6; 7; 8; 9; 2] 5)) with
  | Ok (true, it) => iter_key it = Some (KeyTs_serialize (mkKeyTs [1; 2; 3; 4; 5; 6; 7; 8; 9; 2] 3))
  | _ => False
  end%Z.
Proof. vm_compute. reflexivity. Qed.

(** Without the proviso [seek] is wrong: both keys of this block are above
    ([97], version 1), and the answer is [false], because the prefix compared
    first runs into the timestamp of the sought key. *)
Definition deep : list (KeyTs * ValueMeta) :=
  [(mkKeyTs [97; 0; 0; 0; 0; 0; 0; 0; 0; 5] 1, vm [1]);
   (mkKeyTs [97; 0; 0; 0; 0; 0; 0; 0; 0; 6] 1, vm [2])]%Z.

Definition seek_deep : outcome bool :=
  bb ← push_entries BlockBuilder_new (ser_entries deep);
  b ← Block_deserialize 1 0 0 (bb_data (finish_block bb Crc32c));
  r ← SinkBlockIter_seek (Block_iter b) (KeyTs_serialize (mkKeyTs [97]%Z 1));
  Ok (fst r).

Example seek_misses_entries_above :
  seek_deep = Ok false ∧ Forall (λ e, KeyTs_cmp e.1 (mkKeyTs [97] 1) = Gt)%Z deep.
Proof. split; [vm_compute; reflexivity|]. repeat constructor. Qed.

End Examples.
