(* ===== verification/Table.v ===== *)
(** * Table: building, opening and iterating an SSTable

    [TableBuilder] and [TableBuildData] of src/src/table/write.rs, [TableConfig],
    [TableInner] and [TableIndexBuf] of src/src/table/mod.rs, and
    [SinkTableIter] of src/src/table/read.rs.

    A table file is the sequence of its blocks (compressed, then encrypted), the
    index (a flatbuffer, encrypted), the length of the index, a checksum of the
    index and the length of the checksum.  The flatbuffer code is generated: its
    two directions are a class with their round trip as a law.  The block cache
    and the index cache are other crates' code; a table carries a lookup
    function for each, and the theorems ask only that what a lookup returns is
    what a read of the file would give. *)
From stdpp Require Import base list strings countable.
From Stdlib Require Import ZArith Lia.
From S2P Require Import Prelude Util VarInt Kv Bloom Iter Pb Storage Block.

(** ** The table index *)

Record BlockOffset : Type := mkBlockOffset {
  bo_key_ts : option (list Z);
  bo_offset : Z;
  bo_len : Z
}.

Record TableIndex : Type := mkTableIndex {
  ti_offsets : option (list BlockOffset);
  ti_bloom_filter : option (list Z);
  ti_max_version : Z;
  ti_key_count : Z;
  ti_uncompressed_size : Z;
  ti_on_disk_size : Z;
  ti_stale_data_size : Z
}.

(** [FlatBufferBuilder::finish] and [flatbuffers::root]. *)
Class TableIndexFb : Type := {
  fb_finish : TableIndex → list Z;
  fb_root : list Z → option TableIndex
}.

Definition block_offset_wf (o : BlockOffset) : Prop :=
  in_width 32 (bo_offset o) ∧ in_width 32 (bo_len o).

Definition table_index_wf (t : TableIndex) : Prop :=
  (∀ os, ti_offsets t = Some os → Forall block_offset_wf os) ∧
  in_width 64 (ti_max_version t) ∧ in_width 32 (ti_key_count t) ∧
  in_width 32 (ti_uncompressed_size t) ∧ in_width 32 (ti_on_disk_size t) ∧
  in_width 32 (ti_stale_data_size t).

Class TableIndexFbLaws `{TableIndexFb} : Prop :=
  fb_root_finish : ∀ t, table_index_wf t → fb_root (fb_finish t) = Some t.

(** The index as it is kept in memory (src/src/table/mod.rs). *)
Record BlockOffsetBuf : Type := mkBlockOffsetBuf {
  bob_key_ts : KeyTs;
  bob_offset : Z;
  bob_len : Z
}.

Record TableIndexBuf : Type := mkTableIndexBuf {
  tib_offsets : list BlockOffsetBuf;
  tib_bloom_filter : option (list Z);
  tib_max_version : Z;
  tib_key_count : Z;
  tib_uncompressed_size : Z;
  tib_on_disk_size : Z;
  tib_stale_data_size : Z
}.

Record CheapTableIndex : Type := mkCheapTableIndex {
  ci_max_version : Z;
  ci_key_count : Z;
  ci_uncompressed_size : Z;
  ci_on_disk_size : Z;
  ci_stale_data_size : Z;
  ci_offsets_len : nat;
  ci_bloom_filter_len : nat
}.

Definition CheapTableIndex_from (v : TableIndexBuf) : CheapTableIndex :=
  mkCheapTableIndex (tib_max_version v) (tib_key_count v) (tib_uncompressed_size v)
    (tib_on_disk_size v) (tib_stale_data_size v) (length (tib_offsets v))
    (match tib_bloom_filter v with Some bloom => length bloom | None => 0 end).

(** ** Configuration *)

Inductive ChecksumVerificationMode : Type :=
| NoVerification
| OnTableRead
| OnBlockRead
| OnTableAndBlockRead.

(** The Bloom filter parameters are what [Bloom::bits_per_key] and the probe
    count give for [bloom_false_positive]; [None] when it is not positive. *)
Record TableConfig : Type := mkTableConfig {
  tc_table_size : nat;
  tc_table_capacity : nat;
  tc_checksum_verify_mode : ChecksumVerificationMode;
  tc_checksum_algo : Algorithm;
  tc_bloom : option (nat * nat);
  tc_block_size : nat;
  tc_compression : CompressionType;
  tc_zstd_compression_level : Z
}.

(** ** The table builder (src/src/table/write.rs) *)

Record TableBuilder : Type := mkTableBuilder {
  tb_cur_block : BlockBuilder;
  tb_compressed_size : Z;
  tb_uncompressed_size : Z;
  tb_cipher : option AesCipher;
  tb_len_offsets : Z;
  tb_key_hashes : list Z;
  tb_max_version : Z;
  tb_on_disk_size : Z;
  tb_stale_data_size : Z;
  tb_config : TableConfig;
  tb_compress_task : list (outcome BlockBuilder)
}.

Definition TableBuilder_new (config : TableConfig) (cipher : option AesCipher) : TableBuilder :=
  mkTableBuilder BlockBuilder_new 0 0 cipher 0 [] 0 0 0 config [].

Definition set_stale_data_size (tb : TableBuilder) (z : Z) : TableBuilder :=
  mkTableBuilder (tb_cur_block tb) (tb_compressed_size tb) (tb_uncompressed_size tb)
    (tb_cipher tb) (tb_len_offsets tb) (tb_key_hashes tb) (tb_max_version tb)
    (tb_on_disk_size tb) z (tb_config tb) (tb_compress_task tb).

Definition set_on_disk_size (tb : TableBuilder) (z : Z) : TableBuilder :=
  mkTableBuilder (tb_cur_block tb) (tb_compressed_size tb) (tb_uncompressed_size tb)
    (tb_cipher tb) (tb_len_offsets tb) (tb_key_hashes tb) (tb_max_version tb)
    z (tb_stale_data_size tb) (tb_config tb) (tb_compress_task tb).

Record TableBuildData : Type := mkTableBuildData {
  td_block_list : list BlockBuilder;
  td_index : list Z;
  td_checksum : list Z;
  td_size : nat
}.

Section TableCode.
Context `{!VarInt, !ChecksumCodec, !Compressor, !Aead, !TableIndexFb}.

(** The closure given to the thread pool: compress, then encrypt. *)
Definition compress_task (compression : CompressionType) (cipher : option AesCipher)
    (draw : nat) (finished_block : BlockBuilder) : outcome BlockBuilder :=
  data ← (if bool_decide (compression = CNone) then Ok (bb_data finished_block)
          else compress compression (bb_data finished_block));
  data ← match cipher with
         | Some c => try_encrypt (Some c) draw data
         | None => Ok data
         end;
  Ok (mkBlockBuilder data (bb_base_keyts finished_block) (bb_entry_offsets finished_block)).

(** [(len as f32 / 4.0).ceil() as u32 * 4 + 40] *)
Definition offset_estimate (base_len : nat) : Z := Z.of_nat ((base_len + 3) / 4) * 4 + 40.

(** The compressed size is added by the task when it ends; here it is added
    when the task is given out. *)
Definition finish_cur_block (tb : TableBuilder) : outcome TableBuilder :=
  if length (bb_entry_offsets (tb_cur_block tb)) =? 0 then Ok tb
  else
    let cur := finish_block (tb_cur_block tb) (tc_checksum_algo (tb_config tb)) in
    let uncompressed :=
      u32 (tb_uncompressed_size tb + u32 (Z.of_nat (length (bb_data cur)))) in
    len_offsets ← u32_add (tb_len_offsets tb) (offset_estimate (length (bb_base_keyts cur)));
    let task := compress_task (tc_compression (tb_config tb)) (tb_cipher tb)
                  (length (tb_compress_task tb)) cur in
    let compressed :=
      match task with
      | Ok b => u32 (tb_compressed_size tb + u32 (Z.of_nat (length (bb_data b))))
      | _ => tb_compressed_size tb
      end in
    Ok (mkTableBuilder BlockBuilder_new compressed uncompressed (tb_cipher tb) len_offsets
          (tb_key_hashes tb) (tb_max_version tb) (tb_on_disk_size tb) (tb_stale_data_size tb)
          (tb_config tb) (tb_compress_task tb ++ [task])).

Definition push_internal (tb : TableBuilder) (key_ts : list Z) (value : ValueMeta)
    (vptr_len : option Z) (is_stale : bool) : outcome TableBuilder :=
  full ← should_finish_block (tb_cur_block tb) key_ts value (tc_block_size (tb_config tb))
           (bool_decide (is_Some (tb_cipher tb)));
  tb ← (if (full : bool) then
          tb ← (if is_stale then
                  n ← u32_add (u32 (Z.of_nat (length key_ts))) 4;
                  s ← u32_add (tb_stale_data_size tb) n;
                  Ok (set_stale_data_size tb s)
                else Ok tb);
          finish_cur_block tb
        else Ok tb);
  cur ← push_entry (tb_cur_block tb) key_ts value;
  on_disk ← u32_add (tb_on_disk_size tb) (default 0%Z vptr_len);
  Ok (mkTableBuilder cur (tb_compressed_size tb) (tb_uncompressed_size tb) (tb_cipher tb)
        (tb_len_offsets tb) (tb_key_hashes tb ++ [Bloom_hash (kb_key key_ts)])
        (Z.max (tb_max_version tb) (kb_txn_ts key_ts)) on_disk (tb_stale_data_size tb)
        (tb_config tb) (tb_compress_task tb)).

Definition reacded_capacity (tb : TableBuilder) : outcome bool :=
  let sum_block_sizes :=
    if bool_decide (tc_compression (tb_config tb) = CNone) && negb (bool_decide (is_Some (tb_cipher tb)))
    then tb_uncompressed_size tb else tb_compressed_size tb in
  a ← u32_add sum_block_sizes (u32 (Z.of_nat (length (bb_entry_offsets (tb_cur_block tb)) * 4)));
  blocks_size ← u32_add a (4 + 8 + 4);
  b ← u32_add blocks_size 4;
  estimate_size ← u32_add b (tb_len_offsets tb);
  Ok (tc_table_capacity (tb_config tb) <? Z.to_nat estimate_size).

Definition push (tb : TableBuilder) (key_ts : list Z) (value : ValueMeta)
    (vptr_len : option Z) : outcome TableBuilder :=
  push_internal tb key_ts value vptr_len false.

Definition push_stale (tb : TableBuilder) (key_ts : list Z) (value : ValueMeta)
    (vptr_len : option Z) : outcome TableBuilder :=
  a ← u32_add (u32 (Z.of_nat (length key_ts))) (u32 (Z.of_nat (length (vm_value value))));
  n ← u32_add a 4;
  s ← u32_add (tb_stale_data_size tb) n;
  push_internal (set_stale_data_size tb s) key_ts value vptr_len true.

Definition TableBuilder_is_empty (tb : TableBuilder) : bool := length (tb_key_hashes tb) =? 0.

(** The loop of [build_index]: the offsets and the size of the data. *)
Definition index_step (acc : list BlockOffset * Z) (block : BlockBuilder) :
    outcome (list BlockOffset * Z) :=
  let '(block_offset, data_size) := acc in
  let len := u32 (Z.of_nat (length (bb_data block))) in
  data_size' ← u32_add data_size len;
  Ok (block_offset ++ [mkBlockOffset (Some (bb_base_keyts block)) data_size len], data_size').

Definition build_index (tb : TableBuilder) (block_list : list BlockBuilder)
    (bloom : option (list Z)) : outcome (list Z * Z) :=
  '(block_offset, data_size) ← fold_outcome index_step ([], 0%Z) block_list;
  on_disk ← u32_add (tb_on_disk_size tb) data_size;
  let table_index :=
    mkTableIndex (Some block_offset) bloom (tb_max_version tb)
      (u32 (Z.of_nat (length (tb_key_hashes tb)))) (tb_uncompressed_size tb) on_disk
      (tb_stale_data_size tb) in
  index ← try_encrypt (tb_cipher tb) (length (tb_compress_task tb)) (fb_finish table_index);
  Ok (index, data_size).

(** [done]: flush the last block, wait for the tasks in order, build the index. *)
Definition TableBuilder_done (tb : TableBuilder) : outcome TableBuildData :=
  tb ← finish_cur_block tb;
  block_list ← map_outcome id (tb_compress_task tb);
  let bloom :=
    match tc_bloom (tb_config tb) with
    | Some (bits_per_key, k) => Some (Bloom_new bits_per_key k (tb_key_hashes tb))
    | None => None
    end in
  '(index, data_size) ← build_index tb block_list bloom;
  let checksum := checksum_encode (Checksum_new (tc_checksum_algo (tb_config tb)) index) in
  let size := Z.to_nat data_size + length index + 4 + length checksum + 4 in
  Ok (mkTableBuildData block_list index checksum size).

(** [buf[at..at + src.len()].copy_from_slice(src)] *)
Definition copy_at (buf : list Z) (at_ : nat) (src : list Z) : outcome (list Z) :=
  if at_ + length src <=? length buf
  then Ok (take at_ buf ++ src ++ drop (at_ + length src) buf)
  else Panic.

Definition copy_step (acc : list Z * nat) (src : list Z) : outcome (list Z * nat) :=
  let '(buf, written) := acc in
  buf ← copy_at buf written src;
  Ok (buf, written + length src).

(** [TableBuildData::read_all]: the buffer and the number of bytes written. *)
Definition read_all (d : TableBuildData) (buf : list Z) : outcome (list Z * nat) :=
  _ ← assert_or_panic (length buf =? td_size d);
  acc ← fold_outcome copy_step (buf, 0) (bb_data <$> td_block_list d);
  acc ← copy_step acc (td_index d);
  acc ← copy_step acc (put_u32 (u32 (Z.of_nat (length (td_index d)))));
  acc ← copy_step acc (td_checksum d);
  copy_step acc (put_u32 (u32 (Z.of_nat (length (td_checksum d))))).

Definition TableBuilder_finish (tb : TableBuilder) : outcome (list Z) :=
  data ← TableBuilder_done tb;
  let buf := replicate (td_size data) 0%Z in
  '(buf, written) ← read_all data buf;
  _ ← assert_or_panic (written =? length buf);
  Ok buf.

(** ** Opening a table (src/src/table/mod.rs) *)

Record Table : Type := mkTable {
  t_table_id : Z;
  t_file : list Z;
  t_table_size : nat;
  t_smallest : KeyTs;
  t_biggest : KeyTs;
  t_cheap_index : CheapTableIndex;
  t_block_cache : option (Z * nat → option Block);
  t_index_cache : Z → option TableIndexBuf;
  t_cipher : option AesCipher;
  t_index_start : nat;
  t_index_len : nat;
  t_config : TableConfig
}.

Definition offset_from_fb (o : BlockOffset) : outcome BlockOffsetBuf :=
  k ← unwrap (bo_key_ts o);
  Ok (mkBlockOffsetBuf (KeyTs_from k) (bo_offset o) (bo_len o)).

Definition TableIndexBuf_from_vec (data : list Z) : outcome TableIndexBuf :=
  table_index ← ok_or (fb_root data) "InvalidFlatbuffer";
  offsets ← unwrap (ti_offsets table_index);
  offsets ← map_outcome offset_from_fb offsets;
  Ok (mkTableIndexBuf offsets (ti_bloom_filter table_index) (ti_max_version table_index)
        (ti_key_count table_index) (ti_uncompressed_size table_index)
        (ti_on_disk_size table_index) (ti_stale_data_size table_index)).

Definition init_index (file : list Z) (cipher : option AesCipher) :
    outcome (TableIndexBuf * nat * nat) :=
  read_pos ← usub (length file) 4;
  buf ← read_slice_ref file read_pos 4;
  '(checksum_len, _) ← get_u32 buf;
  let checksum_len := Z.to_nat checksum_len in
  read_pos ← usub read_pos checksum_len;
  buf ← read_slice_ref file read_pos checksum_len;
  checksum ← ok_or (checksum_decode buf) "DecodeError";
  read_pos ← usub read_pos 4;
  buf ← read_slice_ref file read_pos 4;
  '(index_len, _) ← get_u32 buf;
  let index_len := Z.to_nat index_len in
  index_start ← usub read_pos index_len;
  data ← read_slice_ref file index_start index_len;
  _ ← Checksum_verify checksum data;
  plain ← try_decrypt cipher data;
  index_buf ← TableIndexBuf_from_vec plain;
  _ ← assert_or_panic (negb (length (tib_offsets index_buf) =? 0));
  Ok (index_buf, index_start, index_len).

(** The bytes of a block, decrypted and decompressed. *)
Definition load_block (config : TableConfig) (cipher : option AesCipher) (file : list Z)
    (offset len : nat) : outcome (list Z) :=
  raw ← read_slice_ref file offset len;
  plain ← try_decrypt cipher raw;
  decompress (tc_compression config) plain.

Definition get_smallest_biggest (config : TableConfig) (table_index : TableIndexBuf)
    (file : list Z) (cipher : option AesCipher) : outcome (KeyTs * KeyTs) :=
  first ← unwrap (tib_offsets table_index !! 0);
  let smallest := bob_key_ts first in
  last_block_id ← usub (length (tib_offsets table_index)) 1;
  last_block_offset ← unwrap (tib_offsets table_index !! last_block_id);
  data ← load_block config cipher file (Z.to_nat (bob_offset last_block_offset))
           (Z.to_nat (bob_len last_block_offset));
  block ← Block_deserialize 0 last_block_id (bob_offset last_block_offset) data;
  _ ← Block_verify block;
  '(b, block_iter) ← next_back (Block_iter block);
  _ ← assert_or_panic b;
  k ← unwrap (iter_key_back block_iter);
  Ok (smallest, KeyTs_from k).

(** Looking the index up in its cache, or reading it. *)
Definition get_index (t : Table) : outcome TableIndexBuf :=
  match t_index_cache t (t_table_id t) with
  | Some s => Ok s
  | None =>
      data ← read_slice_ref (t_file t) (t_index_start t) (t_index_len t);
      plain ← try_decrypt (t_cipher t) data;
      TableIndexBuf_from_vec plain
  end.

Definition verifies_blocks (m : ChecksumVerificationMode) : bool :=
  match m with
  | OnBlockRead | OnTableAndBlockRead => true
  | _ => false
  end.

(** [get_block] where the cache misses. *)
Definition read_block (t : Table) (block_index : nat) : outcome Block :=
  table_index_buf ← get_index t;
  block ← idx (tib_offsets table_index_buf) block_index;
  let block_offset := bob_offset block in
  raw_data ← load_block (t_config t) (t_cipher t) (t_file t) (Z.to_nat block_offset)
               (Z.to_nat (bob_len block));
  block ← Block_deserialize (t_table_id t) block_index block_offset raw_data;
  _ ← (if verifies_blocks (tc_checksum_verify_mode (t_config t)) then Block_verify block
       else Ok ());
  Ok block.

Definition get_block (t : Table) (block_index : nat) : outcome Block :=
  if ci_offsets_len (t_cheap_index t) <=? block_index then Err (EMsg "block out of index")
  else
    match t_block_cache t with
    | Some cache =>
        match cache (t_table_id t, block_index) with
        | Some blk => Ok blk
        | None => read_block t block_index
        end
    | None => read_block t block_index
    end.

(** [TableInner::verify] *)
Definition verify_step (t : Table) (_ : unit) (i : nat) : outcome unit :=
  block ← get_block t i;
  if verifies_blocks (tc_checksum_verify_mode (t_config t)) then Ok () else Block_verify block.

Definition Table_verify (t : Table) : outcome unit :=
  fold_outcome (verify_step t) () (seq 0 (ci_offsets_len (t_cheap_index t))).

(** [TableConfig::open]; the id of the table comes from the file name. *)
Definition Table_open (config : TableConfig) (table_id : Z) (file : list Z)
    (cipher : option AesCipher) (index_cache : Z → option TableIndexBuf)
    (block_cache : option (Z * nat → option Block)) : outcome Table :=
  if (tc_block_size config =? 0) && negb (bool_decide (tc_compression config = CNone))
  then Err (EMsg "Block size cannot be zero")
  else
    '(table_index, index_start, index_len) ← init_index file cipher;
    '(smallest, biggest) ← get_smallest_biggest config table_index file cipher;
    let inner := mkTable table_id file (length file) smallest biggest
                   (CheapTableIndex_from table_index) block_cache index_cache cipher
                   index_start index_len config in
    _ ← match tc_checksum_verify_mode config with
        | OnTableRead | OnTableAndBlockRead => Ok ()
        | _ => Table_verify inner
        end;
    Ok inner.

Definition Table_may_contain_key (t : Table) (key : KeyTs) : outcome bool :=
  if ci_bloom_filter_len (t_cheap_index t) =? 0 then Ok true
  else
    table_index_buf ← get_index t;
    bloom ← unwrap (tib_bloom_filter table_index_buf);
    Ok (may_contain_key bloom (kt_key key)).

(** ** The table iterator (src/src/table/read.rs) *)

Record SinkTableIter : Type := mkSinkTableIter {
  si_inner : Table;
  si_block_iter : option SinkBlockIter;
  si_back_block_iter : option SinkBlockIter
}.

Definition Table_iter (t : Table) : SinkTableIter := mkSinkTableIter t None None.

Definition double_ended_eq (it : SinkTableIter) : outcome bool :=
  match si_block_iter it, si_back_block_iter it with
  | Some iter, Some back_iter =>
      if bool_decide (iter_key iter = iter_key_back back_iter) then
        v ← iter_value iter;
        bv ← iter_value_back back_iter;
        Ok (bool_decide (v = bv))
      else Ok false
  | _, _ => Ok false
  end.

Definition negated (o : outcome bool) : outcome bool := b ← o; Ok (negb b).

Definition enter_block (it : SinkTableIter) (index : nat) : outcome (bool * SinkTableIter) :=
  next_block ← get_block (si_inner it) index;
  '(b, bi) ← next (Block_iter next_block);
  let it' := mkSinkTableIter (si_inner it) (Some bi) (si_back_block_iter it) in
  if (b : bool) then r ← negated (double_ended_eq it'); Ok (r, it') else Ok (false, it').

#[export] Instance SinkTableIter_next : SinkIterator SinkTableIter := λ it,
  eq ← double_ended_eq it;
  if (eq : bool) then Ok (false, it)
  else
    match si_block_iter it with
    | Some iter =>
        '(b, iter') ← next iter;
        let it' := mkSinkTableIter (si_inner it) (Some iter') (si_back_block_iter it) in
        if (b : bool) then r ← negated (double_ended_eq it'); Ok (r, it')
        else
          let block_index := bk_block_index (bi_inner iter') in
          last ← usub (ci_offsets_len (t_cheap_index (si_inner it))) 1;
          if block_index =? last then Ok (false, it')
          else enter_block it' (block_index + 1)
    | None =>
        if ci_offsets_len (t_cheap_index (si_inner it)) =? 0 then Ok (false, it)
        else enter_block it 0
    end.

Definition enter_block_back (it : SinkTableIter) (index : nat) : outcome (bool * SinkTableIter) :=
  block ← get_block (si_inner it) index;
  '(b, bi) ← next_back (Block_iter block);
  let it' := mkSinkTableIter (si_inner it) (si_block_iter it) (Some bi) in
  if (b : bool) then r ← negated (double_ended_eq it'); Ok (r, it') else Ok (false, it').

#[export] Instance SinkTableIter_next_back : DoubleEndedSinkIterator SinkTableIter := λ it,
  eq ← double_ended_eq it;
  if (eq : bool) then Ok (false, it)
  else
    match si_back_block_iter it with
    | Some back_iter =>
        '(b, back_iter') ← next_back back_iter;
        let it' := mkSinkTableIter (si_inner it) (si_block_iter it) (Some back_iter') in
        if (b : bool) then r ← negated (double_ended_eq it'); Ok (r, it')
        else
          let block_index := bk_block_index (bi_inner back_iter') in
          if block_index =? 0 then Ok (false, it')
          else enter_block_back it' (block_index - 1)
    | None =>
        let n := ci_offsets_len (t_cheap_index (si_inner it)) in
        if n =? 0 then Ok (false, it) else enter_block_back it (n - 1)
    end.

#[export] Instance SinkTableIter_kv : KvSinkIter SinkTableIter := {|
  iter_key it := match si_block_iter it with Some iter => iter_key iter | None => None end;
  iter_value it := match si_block_iter it with Some iter => iter_value iter | None => Ok None end
|}.

#[export] Instance SinkTableIter_kv_back : KvDoubleEndedSinkIter SinkTableIter := {|
  iter_key_back it :=
    match si_back_block_iter it with Some iter => iter_key_back iter | None => None end;
  iter_value_back it :=
    match si_back_block_iter it with Some iter => iter_value_back iter | None => Ok None end
|}.

Definition SinkTableIter_seek (it : SinkTableIter) (k : list Z) : outcome (bool * SinkTableIter) :=
  index_buf ← get_index (si_inner it);
  search ← binary_search_by (tib_offsets index_buf) (λ b, Ok (KeyTs_cmp_borrow (bob_key_ts b) k));
  target ← match search with
           | Found index => Ok (Some index)
           | NotFound index =>
               if length (tib_offsets index_buf) <=? index then Ok None
               else i ← usub index 1; Ok (Some i)
           end;
  match target with
  | None => Ok (false, it)
  | Some index =>
      next_block ← get_block (si_inner it) index;
      '(b, bi) ← SinkBlockIter_seek (Block_iter next_block) k;
      Ok (b, mkSinkTableIter (si_inner it) (Some bi) (si_back_block_iter it))
  end.

(** ** Building a table from an iterator (src/src/table/write.rs) *)

Definition vptr_len_of (value : ValueMeta) : outcome (option Z) :=
  if Meta_contains (vm_meta value) Meta_VALUE_POINTER then
    vp ← ValuePointer_deserialize (vm_value value);
    Ok (Some (vp_len vp))
  else Ok None.

Definition l0_dropped (drop_prefixed : list (list Z)) (key_bytes : list Z) : bool :=
  (0 <? length drop_prefixed) && existsb (starts_with key_bytes) drop_prefixed.

(** The loop of [build_l0_table], with a bound on the number of turns; [None]
    when the bound is too small. *)
Fixpoint build_l0_loop {I} `{!SinkIterator I, !KvSinkIter I} (fuel : nat)
    (drop_prefixed : list (list Z)) (iter : I) (tb : TableBuilder) :
    outcome (option TableBuilder) :=
  match fuel with
  | O => Ok None
  | S fuel' =>
      '(b, iter) ← next iter;
      if (b : bool) then
        key_bytes ← unwrap (iter_key iter);
        if l0_dropped drop_prefixed key_bytes then build_l0_loop fuel' drop_prefixed iter tb
        else
          ov ← iter_value iter;
          value ← unwrap ov;
          vptr_len ← vptr_len_of value;
          tb ← push tb key_bytes value vptr_len;
          build_l0_loop fuel' drop_prefixed iter tb
      else Ok (Some tb)
  end.

Definition build_l0_table {I} `{!SinkIterator I, !KvSinkIter I} (fuel : nat) (iter : I)
    (drop_prefixed : list (list Z)) (config : TableConfig) (cipher : option AesCipher) :
    outcome (option TableBuilder) :=
  build_l0_loop fuel drop_prefixed iter (TableBuilder_new config cipher).

End TableCode.

(* ------------------------------------------------------------------ *)
(** ** What a table holds, as a specification

    [table_repr t gs]: the blocks of [t] hold the groups [gs], and the index
    lists the first key of each. *)

Abbreviation kv := (list Z * ValueMeta)%type.

Section TableSpec.
Context `{!VarInt, !ChecksumCodec, !Compressor, !Aead, !TableIndexFb}.

Definition group_ok (g : list kv) : Prop := g ≠ [] ∧ entries_ok g.

Record table_repr (t : Table) (gs : list (list kv)) : Prop := {
  tr_groups : Forall group_ok gs;
  tr_len : ci_offsets_len (t_cheap_index t) = length gs;
  tr_block : ∀ j g, gs !! j = Some g →
    ∃ b, get_block t j = Ok b ∧ block_repr b g ∧ bk_block_index b = j;
  tr_index : ∃ ib, get_index t = Ok ib ∧
    bob_key_ts <$> tib_offsets ib = (λ g, KeyTs_from (base_of g)) <$> gs
}.

End TableSpec.

(* ------------------------------------------------------------------ *)
(** ** Lemmas: iterating *)

Section TableIterLemmas.
Context `{!VarInt, !VarIntLaws, !ChecksumCodec, !Compressor, !Aead, !TableIndexFb}.
Context (t : Table) (gs : list (list kv)) (Hrep : table_repr t gs).

Local Abbreviation at_fwd b g i k := (mkSinkTableIter t (Some (fwd_at b g i k)) None).
Local Abbreviation at_bwd b g i k := (mkSinkTableIter t None (Some (bwd_at b g i k))).

Lemma group_lookup j g : gs !! j = Some g → g ≠ [] ∧ entries_ok g.
Proof. intros Hl. exact (proj1 (Forall_lookup _ _) (tr_groups t gs Hrep) j g Hl). Qed.

Lemma enter_block_ok it j g :
  si_inner it = t → si_back_block_iter it = None → gs !! j = Some g →
  ∃ b k v, block_repr b g ∧ bk_block_index b = j ∧ g !! 0 = Some (k, v) ∧
    enter_block it j = Ok (true, at_fwd b g 0 k).
Proof.
  intros Hin Hback Hl. destruct (group_lookup _ _ Hl) as [Hne Hok].
  destruct (tr_block t gs Hrep _ _ Hl) as (b & Hb & Hbr & Hj).
  destruct g as [|[k v] g]; [done|]. exists b, k, v. split_and!; try done.
  unfold enter_block. rewrite Hin, Hb, Hback. cbn [mbind outcome_bind].
  rewrite (next_first b _ Hbr Hok k v) by done. reflexivity.
Qed.

Lemma enter_block_back_ok it j g :
  si_inner it = t → si_block_iter it = None → gs !! j = Some g →
  ∃ b i k v, block_repr b g ∧ bk_block_index b = j ∧ g !! i = Some (k, v) ∧ length g = S i ∧
    enter_block_back it j = Ok (true, at_bwd b g i k).
Proof.
  intros Hin Hfw Hl. destruct (group_lookup _ _ Hl) as [Hne Hok].
  destruct (tr_block t gs Hrep _ _ Hl) as (b & Hb & Hbr & Hj).
  assert (∃ i, length g = S i) as [i Hi] by (destruct g; [done|]; by eexists).
  destruct (lookup_lt_is_Some_2 g i) as [[k v] Hkv]; [lia|].
  exists b, i, k, v. split_and!; try done.
  unfold enter_block_back. rewrite Hin, Hb, Hfw. cbn [mbind outcome_bind].
  rewrite (next_back_first b _ Hbr Hok i k v) by done. reflexivity.
Qed.

(** A step of the table iterator from a step of its block iterator. *)
Lemma table_next_inner bi bi' :
  next bi = Ok (true, bi') →
  next (mkSinkTableIter t (Some bi) None) = Ok (true, mkSinkTableIter t (Some bi') None).
Proof.
  intros Hn. change (SinkTableIter_next (mkSinkTableIter t (Some bi) None) =
    Ok (true, mkSinkTableIter t (Some bi') None)).
  unfold SinkTableIter_next, double_ended_eq.
  cbn [si_block_iter si_back_block_iter si_inner mbind outcome_bind]. rewrite Hn. reflexivity.
Qed.

Lemma table_next_block bi bi' :
  next bi = Ok (false, bi') → 0 < length gs →
  next (mkSinkTableIter t (Some bi) None) =
    let it := mkSinkTableIter t (Some bi') None in
    if bk_block_index (bi_inner bi') =? length gs - 1 then Ok (false, it)
    else enter_block it (bk_block_index (bi_inner bi') + 1).
Proof.
  intros Hn Hlen. change (next (mkSinkTableIter t (Some bi) None)) with
    (SinkTableIter_next (mkSinkTableIter t (Some bi) None)).
  unfold SinkTableIter_next. cbn [double_ended_eq si_block_iter si_back_block_iter si_inner
    mbind outcome_bind]. rewrite Hn. cbn [mbind outcome_bind].
  rewrite (tr_len t gs Hrep), usub_Ok by lia. reflexivity.
Qed.

Lemma table_next_back_inner bi bi' :
  next_back bi = Ok (true, bi') →
  next (mkRev (mkSinkTableIter t None (Some bi))) =
    Ok (true, mkRev (mkSinkTableIter t None (Some bi'))).
Proof.
  intros Hn. unfold next, SinkIterRev_next. cbn [rev_iter].
  change (next_back (mkSinkTableIter t None (Some bi))) with
    (SinkTableIter_next_back (mkSinkTableIter t None (Some bi))).
  unfold SinkTableIter_next_back, double_ended_eq.
  cbn [si_block_iter si_back_block_iter si_inner mbind outcome_bind]. rewrite Hn. reflexivity.
Qed.

Lemma table_next_back_block bi bi' :
  next_back bi = Ok (false, bi') →
  next_back (mkSinkTableIter t None (Some bi)) =
    let it := mkSinkTableIter t None (Some bi') in
    if bk_block_index (bi_inner bi') =? 0 then Ok (false, it)
    else enter_block_back it (bk_block_index (bi_inner bi') - 1).
Proof.
  intros Hn. change (next_back (mkSinkTableIter t None (Some bi))) with
    (SinkTableIter_next_back (mkSinkTableIter t None (Some bi))).
  unfold SinkTableIter_next_back. cbn [double_ended_eq si_block_iter si_back_block_iter si_inner
    mbind outcome_bind]. rewrite Hn. reflexivity.
Qed.

Lemma table_yields_from n j g b i k v :
  gs !! j = Some g → block_repr b g → bk_block_index b = j → g !! i = Some (k, v) →
  n = length (drop (S i) g ++ concat (drop (S j) gs)) →
  yields (at_fwd b g i k) (drop (S i) g ++ concat (drop (S j) gs)).
Proof.
  revert j g b i k v. induction n as [n IH] using lt_wf_ind. intros j g b i k v Hj Hbr Hbi Hi Hn.
  destruct (group_lookup _ _ Hj) as [Hne Hok]. pose proof (lookup_lt_Some _ _ _ Hi) as Hlt.
  pose proof (lookup_lt_Some _ _ _ Hj) as Hjlt.
  assert (length g = S i ∨ S i < length g) as [Hend|Hmore] by lia.
  - rewrite drop_ge in * by lia. cbn [app] in *.
    assert (length gs = S j ∨ S j < length gs) as [Hlast|Hnext] by lia.
    + rewrite drop_ge by lia. cbn [concat]. eapply yields_nil.
      rewrite (table_next_block _ _ (next_end b g Hbr _ _ _ Hi Hend)) by lia.
      cbn zeta. cbn [fwd_at bi_inner]. rewrite Hbi. by guard_true.
    + destruct (lookup_lt_is_Some_2 gs (S j) Hnext) as [g' Hg'].
      destruct (enter_block_ok (at_fwd b g i k) (S j) g' eq_refl eq_refl Hg')
        as (b' & k' & v' & Hbr' & Hbi' & Hk' & He).
      rewrite (drop_S _ _ _ Hg') in *. cbn [concat] in *.
      destruct g' as [|[k0 v0] g']; [done|]. cbn in Hk'. injection Hk' as -> ->.
      cbn [app]. eapply yields_cons.
      * rewrite (table_next_block _ _ (next_end b g Hbr _ _ _ Hi Hend)) by lia.
        cbn zeta. cbn [fwd_at bi_inner]. rewrite Hbi. case_if; [lia|].
        rewrite Nat.add_1_r. exact He.
      * cbn. destruct (group_lookup _ _ Hg') as [_ Hok']. by eapply (block_key_ok _ Hok' 0).
      * cbn. destruct (group_lookup _ _ Hg') as [_ Hok'].
        by apply (value_at_ok b' _ Hbr' Hok' 0 k').
      * cbn [app length] in Hn. 
        refine (IH _ _ (S j) ((k', v') :: g') b' 0 k' v' Hg' Hbr' Hbi' eq_refl eq_refl).
        rewrite skipn_cons, drop_0. lia.
  - destruct (lookup_lt_is_Some_2 g (S i) Hmore) as [[k' v'] Hi'].
    rewrite (drop_S _ _ _ Hi') in *. cbn [app] in *. eapply yields_cons.
    + apply table_next_inner, (next_step b g Hbr Hok _ _ _ _ Hi').
    + by eapply (block_key_ok g Hok).
    + by apply (value_at_ok b g Hbr Hok).
    + cbn [length] in Hn. 
      refine (IH _ _ j g b (S i) k' v' Hj Hbr Hbi Hi' eq_refl). lia.
Qed.

Lemma table_iter_yields : yields (Table_iter t) (concat gs).
Proof.
  destruct (decide (gs = [])) as [Hnil|Hne].
  { rewrite Hnil. eapply yields_nil. change (next (Table_iter t)) with (SinkTableIter_next (Table_iter t)).
    unfold SinkTableIter_next, Table_iter.
    cbn [double_ended_eq si_block_iter si_inner mbind outcome_bind].
    rewrite (tr_len t gs Hrep), Hnil. reflexivity. }
  assert (∃ g, gs !! 0 = Some g) as [g Hg] by (destruct gs; [done|]; by eexists).
  destruct (enter_block_ok (Table_iter t) 0 g eq_refl eq_refl Hg)
    as (b & k & v & Hbr & Hbi & Hk & He).
  destruct (group_lookup _ _ Hg) as [_ Hok].
  assert (concat gs = (k, v) :: (drop 1 g ++ concat (drop 1 gs))) as Heq.
  { rewrite <- (drop_0 gs) at 1. rewrite (drop_S _ _ _ Hg). cbn [concat].
    rewrite <- (drop_0 g) at 1. by rewrite (drop_S _ _ _ Hk). }
  rewrite Heq. eapply yields_cons.
  - change (next (Table_iter t)) with (SinkTableIter_next (Table_iter t)).
    unfold SinkTableIter_next. cbn [double_ended_eq si_block_iter si_inner Table_iter mbind outcome_bind].
    rewrite (tr_len t gs Hrep). case_if; [destruct gs; done|]. exact He.
  - by eapply (block_key_ok g Hok 0).
  - by apply (value_at_ok b g Hbr Hok 0).
  - by eapply table_yields_from.
Qed.

Lemma table_yields_back_from n j g b i k v :
  gs !! j = Some g → block_repr b g → bk_block_index b = j → g !! i = Some (k, v) →
  n = length (concat (take j gs) ++ take i g) →
  yields (mkRev (at_bwd b g i k)) (reverse (concat (take j gs) ++ take i g)).
Proof.
  revert j g b i k v. induction n as [n IH] using lt_wf_ind. intros j g b i k v Hj Hbr Hbi Hi Hn.
  destruct (group_lookup _ _ Hj) as [Hne Hok]. destruct i as [|i].
  - rewrite take_0, app_nil_r in *.
    pose proof (table_next_back_block _ _ (next_back_end b g k)) as Hnb. cbn zeta in Hnb.
    cbn [bwd_at bi_inner] in Hnb. rewrite Hbi in Hnb. destruct j as [|j].
    + cbn [take concat]. eapply yields_nil. unfold next, SinkIterRev_next. cbn [rev_iter].
      cbn [Nat.eqb] in Hnb. rewrite Hnb. reflexivity.
    + destruct (lookup_lt_is_Some_2 gs j) as [g' Hg'].
      { pose proof (lookup_lt_Some _ _ _ Hj). lia. }
      destruct (enter_block_back_ok (at_bwd b g 0 k) j g' eq_refl eq_refl Hg')
        as (b' & i' & k' & v' & Hbr' & Hbi' & Hk' & Hlen & He).
      destruct (group_lookup _ _ Hg') as [_ Hok'].
      assert (concat (take (S j) gs) = (concat (take j gs) ++ take i' g') ++ [(k', v')]) as Heq.
      { rewrite (take_S_r _ _ _ Hg'), concat_app. cbn [concat]. rewrite app_nil_r, <- app_assoc.
        f_equal. rewrite <- (take_S_r _ _ _ Hk'). by rewrite take_ge by lia. }
      rewrite Heq in *. rewrite reverse_snoc. rewrite length_app in Hn. cbn [length] in Hn.
      eapply yields_cons.
      * unfold next, SinkIterRev_next. cbn [rev_iter]. cbn [Nat.eqb] in Hnb.
        replace (S j - 1) with j in Hnb by lia. rewrite Hnb, He. reflexivity.
      * by eapply (block_key_ok g' Hok').
      * by apply (value_at_ok b' g' Hbr' Hok').
      * refine (IH _ _ j g' b' i' k' v' Hg' Hbr' Hbi' Hk' eq_refl). lia.
  - destruct (lookup_lt_is_Some_2 g i) as [[k' v'] Hi'].
    { pose proof (lookup_lt_Some _ _ _ Hi). lia. }
    rewrite (take_S_r _ _ _ Hi'), app_assoc, reverse_snoc in *.
    rewrite length_app in Hn. cbn [length] in Hn. eapply yields_cons.
    + apply table_next_back_inner, (next_back_step b g Hbr Hok _ _ _ _ Hi').
    + by eapply (block_key_ok g Hok).
    + by apply (value_at_ok b g Hbr Hok).
    + refine (IH _ _ j g b i k' v' Hj Hbr Hbi Hi' eq_refl). lia.
Qed.

Lemma table_next_back_start :
  next_back (Table_iter t) =
  if length gs =? 0 then Ok (false, Table_iter t)
  else enter_block_back (Table_iter t) (length gs - 1).
Proof.
  change (next_back (Table_iter t)) with (SinkTableIter_next_back (Table_iter t)).
  unfold SinkTableIter_next_back, Table_iter.
  cbn [double_ended_eq si_block_iter si_back_block_iter si_inner mbind outcome_bind].
  by rewrite (tr_len t gs Hrep).
Qed.

Lemma table_iter_yields_back : yields (mkRev (Table_iter t)) (reverse (concat gs)).
Proof.
  pose proof table_next_back_start as Hstart. destruct (decide (gs = [])) as [Hnil|Hne].
  { rewrite Hnil in Hstart |- *. eapply yields_nil. unfold next, SinkIterRev_next. cbn [rev_iter].
    rewrite Hstart. reflexivity. }
  assert (∃ j, length gs = S j) as [j Hj] by (destruct gs; [done|]; by eexists).
  rewrite Hj in Hstart. cbn [Nat.eqb] in Hstart. replace (S j - 1) with j in Hstart by lia.
  destruct (lookup_lt_is_Some_2 gs j) as [g Hg]; [lia|].
  destruct (enter_block_back_ok (Table_iter t) j g eq_refl eq_refl Hg)
    as (b & i & k & v & Hbr & Hbi & Hk & Hlen & He).
  destruct (group_lookup _ _ Hg) as [_ Hok].
  assert (concat gs = (concat (take j gs) ++ take i g) ++ [(k, v)]) as Heq.
  { rewrite <- (take_ge gs (length gs)) at 1 by done. rewrite Hj, (take_S_r _ _ _ Hg), concat_app.
    cbn [concat]. rewrite app_nil_r, <- app_assoc. f_equal.
    rewrite <- (take_S_r _ _ _ Hk). by rewrite take_ge by lia. }
  rewrite Heq, reverse_snoc. eapply yields_cons.
  - unfold next, SinkIterRev_next. cbn [rev_iter]. rewrite Hstart, He. reflexivity.
  - by eapply (block_key_ok g Hok).
  - by apply (value_at_ok b g Hbr Hok).
  - by eapply table_yields_back_from.
Qed.

End TableIterLemmas.

(** ** An instance of the flatbuffer codec: an enumeration of the indexes *)

#[export] Instance BlockOffset_eq_dec : EqDecision BlockOffset.
Proof. solve_decision. Defined.

#[export] Instance TableIndex_eq_dec : EqDecision TableIndex.
Proof. solve_decision. Defined.

Definition BlockOffset_tuple (o : BlockOffset) := (bo_offset o, bo_len o, bo_key_ts o).

#[export] Instance BlockOffset_countable : Countable BlockOffset.
Proof.
  refine (inj_countable' BlockOffset_tuple (λ '(a, b, k), mkBlockOffset k a b) _).
  by intros [].
Defined.

Definition TableIndex_tuple (t : TableIndex) :=
  (ti_max_version t, ti_key_count t, ti_uncompressed_size t, ti_on_disk_size t,
   ti_stale_data_size t, ti_bloom_filter t, ti_offsets t).

#[export] Instance TableIndex_countable : Countable TableIndex.
Proof.
  refine (inj_countable' TableIndex_tuple
    (λ '(m, k, u, o, s, b, os), mkTableIndex os b m k u o s) _).
  by intros [].
Defined.

(** The bits of a number, as bytes. *)
Fixpoint pos_bits (p : positive) : list Z :=
  match p with
  | xH => []
  | xO q => 0%Z :: pos_bits q
  | xI q => 1%Z :: pos_bits q
  end.

Fixpoint bits_pos (l : list Z) : positive :=
  match l with
  | [] => xH
  | 0%Z :: l' => xO (bits_pos l')
  | _ :: l' => xI (bits_pos l')
  end.

Lemma bits_pos_bits p : bits_pos (pos_bits p) = p.
Proof. induction p as [p IH|p IH|]; cbn; by rewrite ?IH. Qed.

#[export] Instance enum_fb : TableIndexFb | 100 := {|
  fb_finish t := pos_bits (encode t);
  fb_root l := decode (bits_pos l)
|}.

#[export] Instance enum_fb_laws : TableIndexFbLaws (H := enum_fb) | 100.
Proof. intros t _. cbn. by rewrite bits_pos_bits, decode_encode. Qed.
