(* ===== verification/TableBuild.v ===== *)
(** * TableBuild: a built table holds what was pushed

    The invariant of [TableBuilder] (Table.v, src/src/table/write.rs): the
    finished blocks and the current block partition the pushed entries in order,
    and the sizes it accumulates stay below their widths; then the file the
    builder writes opens (src/src/table/mod.rs) as a table that holds the
    entries. *)
From stdpp Require Import base list list_numbers strings.
From Stdlib Require Import ZArith Lia.
From S2P Require Import Prelude Util VarInt Kv Bloom Iter Pb Storage Block Table.

(** ** Items and weights *)

(** One call of [push] or [push_stale]. *)
Record item : Type := mkItem {
  it_kv : kv;
  it_vptr_len : option Z;
  it_stale : bool
}.

Definition vptr (i : item) : Z := default 0%Z (it_vptr_len i).

Section BuildSpec.
Context `{!VarInt, !ChecksumCodec, !Compressor, !Aead, !TableIndexFb}.

Definition push_item (tb : TableBuilder) (i : item) : outcome TableBuilder :=
  if it_stale i then push_stale tb (it_kv i).1 (it_kv i).2 (it_vptr_len i)
  else push tb (it_kv i).1 (it_kv i).2 (it_vptr_len i).

Definition push_items (tb : TableBuilder) (its : list item) : outcome TableBuilder :=
  fold_outcome push_item tb its.

(** An upper bound for everything an entry adds to the sizes. *)
Definition kv_weight (e : kv) : nat := length e.1 + length (ValueMeta_serialize e.2) + 64.

Definition item_ok (i : item) : Prop :=
  entry_ok (it_kv i) ∧ is_bytes (it_kv i).1 ∧ in_width 32 (vptr i).

Definition items_weight (its : list item) : Z :=
  (Z.of_nat (sum_list_with kv_weight (it_kv <$> its)) + foldr (λ i z, vptr i + z) 0 its)%Z.

(** The sizes fit: a block plus everything pushed is below a gigabyte. *)
Definition items_fit (config : TableConfig) (its : list item) : Prop :=
  Forall item_ok its ∧ (Z.of_nat (tc_block_size config) + items_weight its < 2 ^ 30)%Z.

(** The builder of a block that holds [kvs]. *)
Definition builder (kvs : list kv) : BlockBuilder :=
  mkBlockBuilder (concat (chunks kvs)) (base_of kvs) (offsets (chunks kvs)).

Definition task_of (config : TableConfig) (cipher : option AesCipher) (draw : nat) (g : list kv) :
    outcome BlockBuilder :=
  compress_task (tc_compression config) cipher draw
    (finish_block (builder g) (tc_checksum_algo config)).

Definition max_ts (kvs : list kv) : Z := foldl (λ m e, Z.max m (kb_txn_ts e.1)) 0%Z kvs.

(** A block of several entries respects the block size. *)
Definition fits_block (config : TableConfig) (g : list kv) : Prop :=
  length g ≤ 1 ∨ length (concat (chunks g)) + 4 * length g + 16 ≤ tc_block_size config.

Record tb_inv (tb : TableBuilder) (config : TableConfig) (cipher : option AesCipher)
    (gs : list (list kv)) (cur : list kv) (ptrs : Z) : Prop := {
  ti_cfg : tb_config tb = config;
  ti_cipher : tb_cipher tb = cipher;
  ti_cur : tb_cur_block tb = builder cur;
  ti_tasks : tb_compress_task tb = imap (task_of config cipher) gs;
  ti_gs : Forall group_ok gs;
  ti_cur_ok : entries_ok cur;
  ti_fits : Forall (fits_block config) (gs ++ [cur]);
  ti_bytes : Forall (λ e : kv, is_bytes e.1) (concat gs ++ cur);
  ti_hashes : tb_key_hashes tb = (λ e : kv, Bloom_hash (kb_key e.1)) <$> concat gs ++ cur;
  ti_max : tb_max_version tb = max_ts (concat gs ++ cur);
  ti_len_offsets : (0 ≤ tb_len_offsets tb ≤ Z.of_nat (sum_list_with kv_weight (concat gs)))%Z;
  ti_on_disk : tb_on_disk_size tb = ptrs;
  ti_uncompressed : in_width 32 (tb_uncompressed_size tb)
}.

End BuildSpec.

(* ------------------------------------------------------------------ *)
(** ** Lemmas: weights *)

Section WeightLemmas.
Context `{!VarInt, !VarIntLaws, !ChecksumCodec}.

Lemma builder_repr_eq bb kvs : builder_repr bb kvs → bb = builder kvs.
Proof. destruct bb. intros (Hd & Hb & Ho). cbn in *. subst. done. Qed.

Lemma builder_builder_repr kvs : builder_repr (builder kvs) kvs.
Proof. split_and!; done. Qed.

Lemma length_chunk base i e : length (chunk base i e) ≤ 4 + length e.1 + length (ValueMeta_serialize e.2).
Proof.
  unfold chunk. rewrite !length_app, length_EntryHeader_serialize, length_drop.
  unfold HEADER_SIZE. lia.
Qed.

Lemma chunks_weight kvs :
  length (concat (chunks kvs)) + 4 * length kvs ≤ sum_list_with kv_weight kvs.
Proof.
  induction kvs as [|e kvs IH] using rev_ind; [done|].
  rewrite chunks_snoc, concat_app, !length_app, sum_list_with_app. cbn [concat length sum_list_with].
  rewrite app_nil_r. pose proof (length_chunk (base_of (kvs ++ [e])) (length kvs) e).
  unfold kv_weight at 2. lia.
Qed.

Lemma base_weight g : g ≠ [] → length (base_of g) + 64 ≤ sum_list_with kv_weight g.
Proof.
  destruct g as [|[k v] g]; [done|]. intros _. cbn [base_of sum_list_with].
  unfold kv_weight at 1. cbn [fst]. lia.
Qed.

Lemma offset_estimate_le n : (0 ≤ offset_estimate n ≤ Z.of_nat (n + 64))%Z.
Proof.
  unfold offset_estimate. pose proof (Nat.div_mod (n + 3) 4 ltac:(lia)).
  pose proof (Nat.mod_upper_bound (n + 3) 4 ltac:(lia)). lia.
Qed.

Lemma items_weight_app its1 its2 :
  items_weight (its1 ++ its2) = (items_weight its1 + items_weight its2)%Z.
Proof.
  unfold items_weight. rewrite fmap_app, sum_list_with_app, foldr_app.
  enough (∀ z, foldr (λ i z, vptr i + z) z its1 = foldr (λ i z, vptr i + z) 0 its1 + z)%Z as ->
    by lia.
  intros z. induction its1 as [|i its1 IH]; cbn; lia.
Qed.

(** [should_finish_block] answers without panicking on blocks of this size. *)
Lemma should_finish_ok kvs k v bs enc :
  in_width 64 (vm_expires_at v) →
  (Z.of_nat (bs + sum_list_with kv_weight kvs + kv_weight (k, v)) < 2 ^ 30)%Z →
  ∃ full, should_finish_block (builder kvs) k v bs enc = Ok full ∧
    (kvs = [] → full = false) ∧
    (full = false → kvs = [] ∨
      length (concat (chunks kvs)) + 4 + length k + length (ValueMeta_serialize v)
        + 4 * (length kvs + 1) + 16 ≤ bs).
Proof.
  intros Hv Hw. unfold should_finish_block. cbn [builder bb_entry_offsets bb_data].
  rewrite length_offsets, length_chunks. pose proof (chunks_weight kvs) as Hc.
  rewrite <- (length_ValueMeta_serialize v) by done.
  unfold kv_weight at 2 in Hw. cbn [fst snd] in Hw.
  case_if.
  { eexists. split; [reflexivity|]. split; [done|]. intros _. left. by destruct kvs. }
  unfold assert_or_panic, U32_MAX, NONCE_SIZE.
  destruct enc; do 2 (guard_true; cbn [mbind outcome_bind]);
    (eexists; split; [reflexivity|]; split; [by intros ->|]);
    intros Hf; right; apply Nat.ltb_ge in Hf; lia.
Qed.

End WeightLemmas.

(* ------------------------------------------------------------------ *)
(** ** Lemmas: the invariant of the builder *)

Section BuilderInv.
Context `{!VarInt, !VarIntLaws, !ChecksumCodec, !Compressor, !Aead, !TableIndexFb}.
Context (config : TableConfig) (cipher : option AesCipher).

Local Abbreviation inv tb gs cur ptrs := (tb_inv tb config cipher gs cur ptrs).

Lemma entries_ok_nil : entries_ok [].
Proof. split; [constructor|]. cbn. split; lia. Qed.

Lemma tb_new_inv : inv (TableBuilder_new config cipher) [] [] 0.
Proof.
  split; try done; try apply entries_ok_nil; try (cbn; split; lia); by repeat constructor.
Qed.

Lemma u32_range z : in_width 32 (u32 z).
Proof. apply Z.mod_pos_bound. lia. Qed.

Lemma finish_cur_block_inv tb gs cur ptrs :
  inv tb gs cur ptrs → cur ≠ [] →
  (Z.of_nat (sum_list_with kv_weight (concat gs ++ cur)) < 2 ^ 30)%Z →
  ∃ tb', finish_cur_block tb = Ok tb' ∧ inv tb' (gs ++ [cur]) [] ptrs ∧
    tb_stale_data_size tb' = tb_stale_data_size tb.
Proof.
  intros I Hne Hw. unfold finish_cur_block. rewrite (ti_cur _ _ _ _ _ _ I).
  cbn [builder bb_entry_offsets]. rewrite length_offsets, length_chunks.
  case_if; [by destruct cur|]. rewrite sum_list_with_app in Hw.
  pose proof (ti_len_offsets _ _ _ _ _ _ I) as Hlo. pose proof (base_weight cur Hne) as Hb.
  assert (bb_base_keyts (finish_block (builder cur) (tc_checksum_algo (tb_config tb)))
          = base_of cur) as -> by done.
  pose proof (offset_estimate_le (length (base_of cur))) as He.
  rewrite u32_add_Ok by lia. cbn [mbind outcome_bind].
  eexists. split; [reflexivity|]. split; [|done]. destruct I.
  split; cbn [tb_config tb_cipher tb_cur_block tb_compress_task tb_key_hashes tb_max_version
    tb_len_offsets tb_on_disk_size tb_uncompressed_size tb_stale_data_size];
    rewrite ?concat_app; cbn [concat]; rewrite ?app_nil_r; try done.
  - rewrite ti_tasks0, imap_app, length_imap, ti_cfg0, ti_cipher0. cbn [imap].
    by rewrite Nat.add_0_r.
  - apply Forall_app. split; [done|]. constructor; [|constructor]. by split.
  - apply Forall_app. split; [done|]. constructor; [left; cbn; lia|constructor].
  - rewrite sum_list_with_app. lia.
  - apply u32_range.
Qed.

Lemma max_ts_snoc kvs e : max_ts (kvs ++ [e]) = Z.max (max_ts kvs) (kb_txn_ts e.1).
Proof. unfold max_ts. by rewrite foldl_app. Qed.

(** The part of [push_internal] after the block was flushed or kept. *)
Definition push_tail (tb : TableBuilder) (key_ts : list Z) (value : ValueMeta)
    (vptr_len : option Z) : outcome TableBuilder :=
  cur ← push_entry (tb_cur_block tb) key_ts value;
  on_disk ← u32_add (tb_on_disk_size tb) (default 0%Z vptr_len);
  Ok (mkTableBuilder cur (tb_compressed_size tb) (tb_uncompressed_size tb) (tb_cipher tb)
        (tb_len_offsets tb) (tb_key_hashes tb ++ [Bloom_hash (kb_key key_ts)])
        (Z.max (tb_max_version tb) (kb_txn_ts key_ts)) on_disk (tb_stale_data_size tb)
        (tb_config tb) (tb_compress_task tb)).

Lemma push_tail_inv tb gs cur ptrs k v p :
  inv tb gs cur ptrs → entry_ok (k, v) → is_bytes k → in_width 32 (default 0%Z p) →
  (Z.of_nat (sum_list_with kv_weight ((concat gs ++ cur) ++ [(k, v)])) < 2 ^ 30)%Z →
  (0 ≤ ptrs)%Z → (ptrs + default 0 p < 2 ^ 32)%Z →
  cur = [] ∨ length (concat (chunks cur)) + 4 + length k + length (ValueMeta_serialize v)
               + 4 * (length cur + 1) + 16 ≤ tc_block_size config →
  ∃ tb', push_tail tb k v p = Ok tb' ∧ inv tb' gs (cur ++ [(k, v)]) (ptrs + default 0%Z p) ∧
    tb_stale_data_size tb' = tb_stale_data_size tb.
Proof.
  intros I Hk Hbytes Hp Hw Hp0 Hp1 Hfit. unfold push_tail. rewrite (ti_cur _ _ _ _ _ _ I).
  pose proof (chunks_weight (cur ++ [(k, v)])) as Hcw. pose proof (chunks_weight cur) as Hcw0.
  rewrite <- app_assoc, sum_list_with_app in Hw.
  destruct (ti_cur_ok _ _ _ _ _ _ I) as [Hcur Hcw1].
  destruct (push_entry_repr (builder cur) cur k v) as (bb' & Hpush & Hbr); try done.
  { unfold in_width in *. lia. }
  rewrite Hpush. cbn [mbind outcome_bind]. rewrite (ti_on_disk _ _ _ _ _ _ I), u32_add_Ok by done.
  cbn [mbind outcome_bind]. eexists. split; [reflexivity|]. split; [|done]. destruct I.
  split; cbn [tb_config tb_cipher tb_cur_block tb_compress_task tb_key_hashes tb_max_version
    tb_len_offsets tb_on_disk_size tb_uncompressed_size tb_stale_data_size]; try done.
  - by apply builder_repr_eq.
  - split; [apply Forall_app; split; [done|by apply Forall_singleton]|].
    unfold in_width. lia.
  - apply Forall_app in ti_fits0 as [Hgs _]. apply Forall_app. split; [done|].
    constructor; [|done]. rewrite chunks_snoc, concat_app in *. rewrite !length_app in *.
    cbn [concat length] in *. rewrite app_nil_r in *.
    pose proof (length_chunk (base_of (cur ++ [(k, v)])) (length cur) (k, v)) as Hc.
    cbn [fst snd] in Hc. unfold fits_block.
    rewrite chunks_snoc, concat_app, !length_app. cbn [concat length]. rewrite app_nil_r.
    destruct Hfit as [->|Hfit]; [left; done|right; lia].
  - rewrite app_assoc. apply Forall_app. split; [done|]. by apply Forall_singleton.
  - by rewrite ti_hashes0, app_assoc, (fmap_app _ (concat gs ++ cur)).
  - by rewrite app_assoc, max_ts_snoc, ti_max0.
Qed.

Lemma set_stale_inv tb gs cur ptrs s : inv tb gs cur ptrs → inv (set_stale_data_size tb s) gs cur ptrs.
Proof. intros []. by split. Qed.

Lemma push_internal_inv tb gs cur ptrs k v p stale :
  inv tb gs cur ptrs → entry_ok (k, v) → is_bytes k → in_width 32 (default 0%Z p) →
  (Z.of_nat (tc_block_size config)
   + Z.of_nat (sum_list_with kv_weight ((concat gs ++ cur) ++ [(k, v)])) < 2 ^ 30)%Z →
  (0 ≤ ptrs)%Z → (ptrs + default 0 p < 2 ^ 32)%Z →
  (0 ≤ tb_stale_data_size tb < 2 ^ 31)%Z →
  ∃ tb' gs' cur', push_internal tb k v p stale = Ok tb' ∧
    inv tb' gs' cur' (ptrs + default 0%Z p) ∧
    concat gs' ++ cur' = (concat gs ++ cur) ++ [(k, v)] ∧
    (tb_stale_data_size tb ≤ tb_stale_data_size tb' ≤
     tb_stale_data_size tb + Z.of_nat (length k + 4))%Z.
Proof.
  intros I Hk Hb Hp Hw Hp0 Hp1 Hs.
  pose proof Hw as Hw'. rewrite !sum_list_with_app in Hw'. cbn [sum_list_with] in Hw'.
  unfold push_internal. rewrite (ti_cur _ _ _ _ _ _ I), (ti_cfg _ _ _ _ _ _ I).
  destruct (should_finish_ok cur k v (tc_block_size config)
              (bool_decide (is_Some (tb_cipher tb)))) as (full & Hf & Hnil & Hfit).
  { apply Hk. } { lia. }
  rewrite Hf. cbn [mbind outcome_bind]. destruct full.
  - assert (∃ s, (if stale then
        n ← u32_add (u32 (Z.of_nat (length k))) 4;
        s ← u32_add (tb_stale_data_size tb) n;
        Ok (set_stale_data_size tb s) else Ok tb) = Ok (set_stale_data_size tb s) ∧
        (tb_stale_data_size tb ≤ s ≤ tb_stale_data_size tb + Z.of_nat (length k + 4))%Z)
      as (s & -> & Hs').
    { destruct stale; [|exists (tb_stale_data_size tb); destruct tb; split; [done|cbn; lia]].
      unfold kv_weight in Hw'. cbn [fst snd] in Hw'.
      rewrite u32_small by (unfold in_width; lia). rewrite u32_add_Ok by lia. cbn [mbind outcome_bind].
      rewrite u32_add_Ok by lia. eexists. split; [done|]. lia. }
    cbn [mbind outcome_bind].
    destruct (finish_cur_block_inv (set_stale_data_size tb s) gs cur ptrs) as (tb1 & Hfin & I1 & Hst).
    { by apply set_stale_inv. } { intros ->. by specialize (Hnil eq_refl). }
    { rewrite sum_list_with_app. lia. }
    rewrite Hfin. cbn [mbind outcome_bind].
    destruct (push_tail_inv tb1 (gs ++ [cur]) [] ptrs k v p) as (tb2 & Ht & I2 & Hst2); try done.
    { rewrite concat_app. cbn [concat]. rewrite !app_nil_r. lia. } { by left. }
    exists tb2, (gs ++ [cur]), [(k, v)]. split; [exact Ht|]. split; [exact I2|]. split.
    + rewrite concat_app. cbn [concat]. by rewrite app_nil_r.
    + rewrite Hst2, Hst. cbn [set_stale_data_size tb_stale_data_size]. lia.
  - cbn [mbind outcome_bind].
    destruct (push_tail_inv tb gs cur ptrs k v p) as (tb2 & Ht & I2 & Hst2); try done; [lia|auto|].
    exists tb2, gs, (cur ++ [(k, v)]). split; [exact Ht|]. split; [exact I2|].
    split; [by rewrite app_assoc|lia].
Qed.

Definition ptr_sum (its : list item) : Z := foldr (λ i z, vptr i + z)%Z 0%Z its.

Lemma ptr_sum_app its1 its2 : ptr_sum (its1 ++ its2) = (ptr_sum its1 + ptr_sum its2)%Z.
Proof.
  unfold ptr_sum. rewrite foldr_app. generalize (foldr (λ i z, vptr i + z)%Z 0%Z its2).
  intros z. induction its1 as [|i its1 IH]; cbn; lia.
Qed.

Lemma ptr_sum_nonneg its : Forall item_ok its → (0 ≤ ptr_sum its)%Z.
Proof.
  induction 1 as [|i its (_ & _ & Hi) _ IH]; cbn; [lia|]. unfold in_width in Hi. unfold ptr_sum in IH. lia.
Qed.

Lemma push_item_inv tb gs cur ptrs i :
  inv tb gs cur ptrs → item_ok i →
  (Z.of_nat (tc_block_size config)
   + Z.of_nat (sum_list_with kv_weight ((concat gs ++ cur) ++ [it_kv i])) < 2 ^ 30)%Z →
  (0 ≤ ptrs)%Z → (ptrs + vptr i < 2 ^ 30)%Z →
  (0 ≤ tb_stale_data_size tb
     ≤ 2 * Z.of_nat (sum_list_with kv_weight (concat gs ++ cur)))%Z →
  ∃ tb' gs' cur', push_item tb i = Ok tb' ∧ inv tb' gs' cur' (ptrs + vptr i) ∧
    concat gs' ++ cur' = (concat gs ++ cur) ++ [it_kv i] ∧
    (0 ≤ tb_stale_data_size tb'
       ≤ 2 * Z.of_nat (sum_list_with kv_weight (concat gs' ++ cur')))%Z.
Proof.
  destruct i as [[k v] p stale]. intros I (Hk & Hb & Hp) Hw Hp0 Hp1 Hs.
  cbn [it_kv] in *. unfold vptr in *. cbn [it_vptr_len] in *.
  pose proof Hw as Hw'. rewrite !sum_list_with_app in Hw'. cbn [sum_list_with] in Hw'.
  rewrite sum_list_with_app in Hs. unfold kv_weight at 3 in Hw'. cbn [fst snd] in Hw'.
  assert (length (vm_value v) ≤ length (ValueMeta_serialize v)) as Hv.
  { unfold ValueMeta_serialize. rewrite !length_app. lia. }
  unfold push_item, push, push_stale. cbn [it_stale it_kv it_vptr_len fst snd]. destruct stale.
  - rewrite !u32_small by (unfold in_width; lia).
    rewrite u32_add_Ok by lia. cbn [mbind outcome_bind]. rewrite u32_add_Ok by lia.
    cbn [mbind outcome_bind]. rewrite u32_add_Ok by lia. cbn [mbind outcome_bind].
    destruct (push_internal_inv (set_stale_data_size tb (tb_stale_data_size tb +
      (Z.of_nat (length k) + Z.of_nat (length (vm_value v)) + 4))) gs cur ptrs k v p true)
      as (tb' & gs' & cur' & Hpush & I' & Heq & Hst); try done.
    { by apply set_stale_inv. } { lia. } { cbn; lia. }
    exists tb', gs', cur'. split_and!; try done; cbn [set_stale_data_size tb_stale_data_size] in Hst;
      [lia|]. rewrite Heq, !sum_list_with_app. cbn [sum_list_with].
    unfold kv_weight at 3. cbn [fst snd]. lia.
  - destruct (push_internal_inv tb gs cur ptrs k v p false)
      as (tb' & gs' & cur' & Hpush & I' & Heq & Hst); try done; [lia|lia|].
    exists tb', gs', cur'. split_and!; try done; [lia|].
    rewrite Heq, !sum_list_with_app. cbn [sum_list_with].
    unfold kv_weight at 3. cbn [fst snd]. lia.
Qed.

Lemma push_items_inv its :
  items_fit config its →
  ∃ tb gs cur, push_items (TableBuilder_new config cipher) its = Ok tb ∧
    inv tb gs cur (ptr_sum its) ∧ concat gs ++ cur = it_kv <$> its ∧
    (0 ≤ tb_stale_data_size tb ≤ 2 * Z.of_nat (sum_list_with kv_weight (it_kv <$> its)))%Z.
Proof.
  induction its as [|i its IH] using rev_ind; intros [Hall Hw].
  { exists (TableBuilder_new config cipher), [], []. split_and!; try done. apply tb_new_inv. }
  apply Forall_app in Hall as [Hall Hi]. apply (proj1 (Forall_singleton _ _)) in Hi.
  pose proof (ptr_sum_nonneg its Hall) as Hp0.
  assert (0 ≤ vptr i)%Z as Hv0 by (destruct Hi as (_ & _ & Hv); unfold in_width in Hv; lia).
  assert (items_weight its = Z.of_nat (sum_list_with kv_weight (it_kv <$> its)) + ptr_sum its)%Z
    as Hwi by done.
  assert (items_weight [i] = Z.of_nat (kv_weight (it_kv i)) + vptr i)%Z as Hw1
    by (unfold items_weight; cbn; lia).
  rewrite items_weight_app, Hwi, Hw1 in Hw.
  destruct IH as (tb & gs & cur & Hp & I & Heq & Hst).
  { split; [done|]. rewrite Hwi. lia. }
  destruct (push_item_inv tb gs cur (ptr_sum its) i) as (tb' & gs' & cur' & Hp' & I' & Heq' & Hst');
    try done.
  { rewrite Heq, sum_list_with_app. cbn [sum_list_with]. lia. } { lia. } { by rewrite Heq. }
  exists tb', gs', cur'. rewrite ptr_sum_app. cbn [ptr_sum foldr]. rewrite Z.add_0_r.
  rewrite fmap_app, Heq' in *. cbn [fmap list_fmap]. rewrite Heq in *.
  split_and!; try done; try lia.
  unfold push_items in *. rewrite fold_outcome_app, Hp. cbn [mbind outcome_bind fold_outcome].
  by rewrite Hp'.
Qed.

End BuilderInv.

(* ------------------------------------------------------------------ *)
(** ** Lemmas: writing the file *)

Lemma copy_step_inv buf w src buf' w' :
  copy_step (buf, w) src = Ok (buf', w') →
  w' = w + length src ∧ w' ≤ length buf ∧ buf' = take w buf ++ src ++ drop w' buf.
Proof.
  unfold copy_step, copy_at. destruct (_ <=? _) eqn:E; [|done]. bool_to_prop.
  cbn [mbind outcome_bind]. intros [= <- <-]. done.
Qed.

Lemma copy_fold_inv srcs buf w buf' w' :
  fold_outcome copy_step (buf, w) srcs = Ok (buf', w') → w ≤ length buf →
  w' = w + length (concat srcs) ∧ w' ≤ length buf ∧
  buf' = take w buf ++ concat srcs ++ drop w' buf.
Proof.
  revert buf w. induction srcs as [|s srcs IH]; intros buf w; cbn [fold_outcome concat].
  { intros [= <- <-] Hw. cbn. rewrite take_drop. split_and!; [lia|done|done]. }
  rewrite bind_Ok. intros ([b1 w1] & Hs & Hr) Hw.
  apply copy_step_inv in Hs as (-> & Hle & ->).
  assert (length (take w buf ++ s ++ drop (w + length s) buf) = length buf) as Hlen.
  { rewrite !length_app, length_take, length_drop. lia. }
  apply IH in Hr as (-> & Hle' & ->); [|lia]. rewrite length_app.
  split_and!; [lia|lia|].
  replace (take w buf ++ s ++ drop (w + length s) buf)
    with ((take w buf ++ s) ++ drop (w + length s) buf) by by rewrite app_assoc.
  rewrite take_app_length' by (rewrite length_app, length_take; lia).
  rewrite drop_app_ge by (rewrite length_app, length_take; lia).
  rewrite drop_drop, !length_app, length_take, <- !app_assoc. do 4 f_equal. lia.
Qed.

Section Layout.
Context `{!VarInt, !ChecksumCodec, !Compressor, !Aead, !TableIndexFb}.

(** What [finish] writes. *)
Definition layout (d : TableBuildData) : list Z :=
  concat (bb_data <$> td_block_list d) ++ td_index d
  ++ put_u32 (u32 (Z.of_nat (length (td_index d)))) ++ td_checksum d
  ++ put_u32 (u32 (Z.of_nat (length (td_checksum d)))).

Lemma finish_layout tb file :
  TableBuilder_finish tb = Ok file → ∃ d, TableBuilder_done tb = Ok d ∧ file = layout d.
Proof.
  unfold TableBuilder_finish. rewrite bind_Ok. intros (d & Hd & Hr).
  apply bind_Ok in Hr as ([buf w] & Hr & Hc).
  exists d. split; [done|]. apply bind_Ok in Hc as (u & Ha & [= <-]).
  unfold read_all in Hr. apply bind_Ok in Hr as (u' & Hlen & Hr).
  assert (fold_outcome copy_step (replicate (td_size d) 0%Z, 0)
    ((bb_data <$> td_block_list d) ++
      [td_index d; put_u32 (u32 (Z.of_nat (length (td_index d)))); td_checksum d;
       put_u32 (u32 (Z.of_nat (length (td_checksum d))))]) = Ok (buf, w)) as Hf.
  { rewrite fold_outcome_app. apply bind_Ok in Hr as (acc & Hacc & Hr). rewrite Hacc.
    cbn [mbind outcome_bind fold_outcome].
    apply bind_Ok in Hr as (a1 & -> & Hr). cbn [mbind outcome_bind].
    apply bind_Ok in Hr as (a2 & -> & Hr). cbn [mbind outcome_bind].
    apply bind_Ok in Hr as (a3 & -> & Hr). cbn [mbind outcome_bind]. by rewrite Hr. }
  apply copy_fold_inv in Hf as (Hw & Hle & Hbuf); [|lia].
  unfold assert_or_panic in Ha. destruct (w =? length buf) eqn:E; [|done]. bool_to_prop.
  rewrite take_0, app_nil_l in Hbuf. rewrite Nat.add_0_l in Hw. rewrite Hbuf in E.
  rewrite length_app, length_drop in E.
  rewrite drop_ge, app_nil_r in Hbuf by lia. rewrite Hbuf, concat_app. cbn [concat].
  by rewrite app_nil_r.
Qed.

(** The offsets of the index, when no block is longer than [u32::MAX]. *)
Definition index_offsets (bbs : list BlockBuilder) : list BlockOffset :=
  imap (λ i bb, mkBlockOffset (Some (bb_base_keyts bb))
                  (Z.of_nat (start_of (bb_data <$> bbs) i)) (Z.of_nat (length (bb_data bb)))) bbs.

Lemma index_offsets_snoc bbs bb :
  index_offsets (bbs ++ [bb]) =
  index_offsets bbs ++ [mkBlockOffset (Some (bb_base_keyts bb))
    (Z.of_nat (length (concat (bb_data <$> bbs)))) (Z.of_nat (length (bb_data bb)))].
Proof.
  unfold index_offsets. rewrite imap_app. cbn [imap]. f_equal.
  - apply imap_ext. intros i x Hx. do 2 f_equal. rewrite fmap_app. apply start_of_app.
    rewrite length_fmap. apply lookup_lt_Some in Hx. lia.
  - do 3 f_equal. rewrite fmap_app, start_of_app by (rewrite length_fmap; lia).
    unfold start_of. by rewrite take_ge by (rewrite length_fmap; lia).
Qed.

Lemma index_fold_inv bbs r :
  fold_outcome index_step ([], 0%Z) bbs = Ok r →
  Forall (λ bb, in_width 32 (Z.of_nat (length (bb_data bb)))) bbs →
  r = (index_offsets bbs, Z.of_nat (length (concat (bb_data <$> bbs)))) ∧ in_width 32 r.2.
Proof.
  revert r. induction bbs as [|bb bbs IH] using rev_ind; intros r.
  { intros [= <-] _. split; [done|]. split; cbn; lia. }
  rewrite fold_outcome_app, bind_Ok. intros (r1 & Hr1 & Hs) [Hall Hbb]%Forall_app.
  destruct (IH r1 Hr1 Hall) as [-> Hw]. cbn [snd] in Hw.
  apply (proj1 (Forall_singleton _ _)) in Hbb. cbn [fold_outcome index_step] in Hs.
  apply bind_Ok in Hs as (s & (ds & Hds & [= <-])%bind_Ok & [= <-]).
  rewrite u32_small in Hds by done. apply u32_add_inv in Hds as [Heq Hlt].
  rewrite index_offsets_snoc, fmap_app, concat_app, length_app.
  cbn [fmap list_fmap concat]. rewrite app_nil_r, u32_small by done.
  rewrite Nat2Z.inj_add, Heq. split; [done|]. cbn [snd]. unfold in_width in *. lia.
Qed.

End Layout.

(* ------------------------------------------------------------------ *)
(** ** Lemmas: opening the file *)

(** What a cache lookup returns is what a read of the file gives. *)
Definition caches_coherent `{!VarInt, !ChecksumCodec, !Compressor, !Aead, !TableIndexFb}
    (config : TableConfig) (tid : Z) (file : list Z) (cipher : option AesCipher)
    (ic : Z → option TableIndexBuf) (bc : option (Z * nat → option Block)) : Prop :=
  ∀ t0, Table_open config tid file cipher (λ _, None) None = Ok t0 →
    (∀ s, ic tid = Some s → get_index t0 = Ok s) ∧
    (∀ c i b, bc = Some c → c (tid, i) = Some b → get_block t0 i = Ok b).

Lemma fold_outcome_unit {A} (f : unit → A → outcome unit) l :
  (∀ x, x ∈ l → f () x = Ok ()) → fold_outcome f () l = Ok ().
Proof.
  induction l as [|x l IH]; intros Hf; cbn [fold_outcome]; [done|].
  rewrite Hf by apply list_elem_of_here. apply IH. intros y Hy. by apply Hf, list_elem_of_further.
Qed.

Section Opening.
Context `{!VarInt, !VarIntLaws, !ChecksumCodec, !ChecksumLaws, !Compressor, !CompressorLaws}.
Context `{!Aead, !AeadLaws, !TableIndexFb, !TableIndexFbLaws}.
Context (config : TableConfig) (cipher : option AesCipher).
Context (gs : list (list kv)) (bbs : list BlockBuilder) (ti : TableIndex) (d : TableBuildData).
Context (draw : nat).
Context (Htasks : map_outcome id (imap (task_of config cipher) gs) = Ok bbs).
Context (Hgs : Forall group_ok gs) (Hne : gs ≠ []).
Context (Hblocks : td_block_list d = bbs).
Context (Hoff : ti_offsets ti = Some (index_offsets bbs)) (Hwf : table_index_wf ti).
Context (Hindex : try_encrypt cipher draw (fb_finish ti) = Ok (td_index d)).
Context (Hsum : td_checksum d =
  checksum_encode (Checksum_new (tc_checksum_algo config) (td_index d))).
Context (Hlen : in_width 32 (Z.of_nat (length (layout d)))).

Local Abbreviation datas := (bb_data <$> bbs).

(** The index as it is read back. *)
Definition index_buf : TableIndexBuf :=
  mkTableIndexBuf
    (imap (λ i bb, mkBlockOffsetBuf (KeyTs_from (bb_base_keyts bb))
             (Z.of_nat (start_of datas i)) (Z.of_nat (length (bb_data bb)))) bbs)
    (ti_bloom_filter ti) (ti_max_version ti) (ti_key_count ti) (ti_uncompressed_size ti)
    (ti_on_disk_size ti) (ti_stale_data_size ti).

Lemma task_lookup j g :
  gs !! j = Some g → ∃ bb, bbs !! j = Some bb ∧ task_of config cipher j g = Ok bb.
Proof.
  intros Hl. apply map_outcome_inv in Htasks.
  destruct (Forall2_lookup_l _ _ _ j (task_of config cipher j g) Htasks) as (bb & Hbb & Hid).
  { by rewrite list_lookup_imap, Hl. }
  by exists bb.
Qed.

Lemma length_bbs : length bbs = length gs.
Proof. apply map_outcome_inv, Forall2_length in Htasks. by rewrite <- Htasks, length_imap. Qed.

Lemma from_vec_index : TableIndexBuf_from_vec (fb_finish ti) = Ok index_buf.
Proof.
  unfold TableIndexBuf_from_vec. rewrite fb_root_finish by done.
  cbn [ok_or mbind outcome_bind]. rewrite Hoff. cbn [unwrap mbind outcome_bind].
  rewrite (map_outcome_Ok _ (λ o, mkBlockOffsetBuf (KeyTs_from (default [] (bo_key_ts o)))
             (bo_offset o) (bo_len o))).
  - cbn [mbind outcome_bind]. unfold index_buf, index_offsets. do 2 f_equal. by rewrite fmap_imap.
  - intros o (i & Hi)%list_elem_of_lookup. unfold index_offsets in Hi.
    apply list_lookup_imap_Some in Hi as (bb & _ & ->). done.
Qed.

Lemma init_index_ok :
  init_index (layout d) cipher =
    Ok (index_buf, length (concat datas), length (td_index d)).
Proof.
  pose proof (checksum_encode_short (Checksum_new (tc_checksum_algo config) (td_index d))) as Hcs.
  rewrite <- Hsum in Hcs. unfold init_index. remember (layout d) as file eqn:Hfile.
  pose proof Hlen as Hlen'. rewrite Hfile in Hlen'. unfold layout in Hlen', Hfile.
  rewrite Hblocks in *. rewrite !length_app, !length_put_u32 in Hlen'.
  rewrite !u32_small in Hfile by (unfold in_width in *; lia).
  set (D := concat datas) in *. set (X := td_index d) in *. set (C := td_checksum d) in *.
  assert (length file = length D + length X + 4 + length C + 4) as Hfl.
  { rewrite Hfile, !length_app, !length_put_u32. lia. }
  rewrite Hfl, usub_Ok by lia. cbn [mbind outcome_bind].
  assert (read_slice_ref file (length D + length X + 4 + length C + 4 - 4) 4
          = Ok (put_u32 (Z.of_nat (length C)))) as ->.
  { eapply (read_slice_at _ (D ++ X ++ put_u32 (Z.of_nat (length X)) ++ C) _ []);
      [by rewrite Hfile, app_nil_r, <- !app_assoc|..]; rewrite ?length_app, ?length_put_u32; lia. }
  cbn [mbind outcome_bind]. rewrite <- (app_nil_r (put_u32 (Z.of_nat (length C)))).
  rewrite get_put_u32 by (unfold in_width in *; lia). cbn [mbind outcome_bind].
  rewrite Nat2Z.id, usub_Ok by lia. cbn [mbind outcome_bind].
  assert (read_slice_ref file (length D + length X + 4 + length C + 4 - 4 - length C) (length C)
          = Ok C) as ->.
  { eapply (read_slice_at _ (D ++ X ++ put_u32 (Z.of_nat (length X))));
      [by rewrite Hfile, <- !app_assoc|..]; rewrite ?length_app, ?length_put_u32; lia. }
  cbn [mbind outcome_bind].
  assert (checksum_decode C = Some (Checksum_new (tc_checksum_algo config) X)) as ->
    by (rewrite Hsum; apply checksum_decode_new).
  cbn [ok_or mbind outcome_bind].
  rewrite usub_Ok by lia. cbn [mbind outcome_bind].
  assert (read_slice_ref file (length D + length X + 4 + length C + 4 - 4 - length C - 4) 4
          = Ok (put_u32 (Z.of_nat (length X)))) as ->.
  { eapply (read_slice_at _ (D ++ X));
      [by rewrite Hfile, <- !app_assoc|..]; rewrite ?length_app, ?length_put_u32; lia. }
  cbn [mbind outcome_bind]. rewrite <- (app_nil_r (put_u32 (Z.of_nat (length X)))).
  rewrite get_put_u32 by (unfold in_width in *; lia). cbn [mbind outcome_bind].
  rewrite Nat2Z.id, usub_Ok by lia. cbn [mbind outcome_bind].
  replace (length D + length X + 4 + length C + 4 - 4 - length C - 4 - length X)
    with (length D) by lia.
  rewrite Hfile, (read_slice_ref_ok D X) by done. cbn [mbind outcome_bind].
  rewrite Checksum_verify_new. cbn [mbind outcome_bind].
  rewrite (try_decrypt_encrypt _ _ _ _ Hindex). cbn [mbind outcome_bind].
  rewrite from_vec_index. cbn [mbind outcome_bind index_buf tib_offsets].
  rewrite length_imap, length_bbs. destruct gs; [done|]. reflexivity.
Qed.

Lemma compress_task_inv comp n bb bb' :
  compress_task comp cipher n bb = Ok bb' →
  bb_base_keyts bb' = bb_base_keyts bb ∧
  ∃ plain, try_decrypt cipher (bb_data bb') = Ok plain ∧ decompress comp plain = Ok (bb_data bb).
Proof.
  unfold compress_task. rewrite bind_Ok. intros (x & Hx & Hy).
  apply bind_Ok in Hy as (y & Hy & [= <-]). split; [done|]. cbn [bb_data].
  exists x. split.
  - destruct cipher as [c|]; [by apply (try_decrypt_encrypt _ n)|]. injection Hy as <-. done.
  - destruct (bool_decide (comp = CNone)) eqn:E; bool_to_prop.
    + injection Hx as <-. by rewrite E.
    + by apply decompress_compress.
Qed.

(** Reading the bytes of block [j] gives back the finished block. *)
Lemma load_block_ok j g bb :
  gs !! j = Some g → bbs !! j = Some bb → task_of config cipher j g = Ok bb →
  load_block config cipher (layout d) (start_of datas j) (length (bb_data bb)) =
    Ok (bb_data (finish_block (builder g) (tc_checksum_algo config))).
Proof.
  intros Hg Hbb Ht. apply compress_task_inv in Ht as (_ & plain & Hd & Hc).
  unfold load_block, layout. rewrite Hblocks.
  assert (datas !! j = Some (bb_data bb)) as Hl by (by rewrite list_lookup_fmap, Hbb).
  rewrite (concat_middle _ _ _ Hl), <- !app_assoc.
  rewrite read_slice_ref_ok by done. cbn [mbind outcome_bind]. by rewrite Hd.
Qed.

Lemma index_buf_lookup j bb :
  bbs !! j = Some bb →
  tib_offsets index_buf !! j = Some (mkBlockOffsetBuf (KeyTs_from (bb_base_keyts bb))
    (Z.of_nat (start_of datas j)) (Z.of_nat (length (bb_data bb)))).
Proof. intros Hl. cbn [index_buf tib_offsets]. by rewrite list_lookup_imap, Hl. Qed.

(** The opened table with the given caches. *)
Definition opened (tid : Z) (sm bg : KeyTs) (ic : Z → option TableIndexBuf)
    (bc : option (Z * nat → option Block)) : Table :=
  mkTable tid (layout d) (length (layout d)) sm bg (CheapTableIndex_from index_buf) bc ic cipher
    (length (concat datas)) (length (td_index d)) config.

Lemma get_index_cold tid sm bg bc : get_index (opened tid sm bg (λ _, None) bc) = Ok index_buf.
Proof.
  unfold get_index, opened. cbn [t_index_cache t_table_id t_file t_index_start t_index_len t_cipher].
  unfold layout. rewrite Hblocks, read_slice_ref_ok by done. cbn [mbind outcome_bind].
  rewrite (try_decrypt_encrypt _ _ _ _ Hindex). cbn [mbind outcome_bind]. apply from_vec_index.
Qed.

Lemma read_block_ok tid sm bg ic bc j g :
  get_index (opened tid sm bg ic bc) = Ok index_buf → gs !! j = Some g →
  ∃ b, read_block (opened tid sm bg ic bc) j = Ok b ∧ block_repr b g ∧
       Block_verify b = Ok () ∧ bk_block_index b = j.
Proof.
  intros Hgi Hg. destruct (task_lookup j g Hg) as (bb & Hbb & Ht).
  destruct (proj1 (Forall_lookup _ _) Hgs j g Hg) as [_ Hok].
  destruct (deserialize_finish (builder g) g (tc_checksum_algo config) tid j
    (Z.of_nat (start_of datas j)) (builder_builder_repr g) Hok) as (b & Hdes & Hbr & Hv & Hbi).
  exists b. split_and!; try done. unfold read_block. rewrite Hgi. cbn [mbind outcome_bind].
  rewrite (idx_Ok _ _ _ (index_buf_lookup _ _ Hbb)). cbn [mbind outcome_bind bob_offset bob_len].
  cbn [opened t_config t_cipher t_file t_table_id]. rewrite !Nat2Z.id, (load_block_ok _ _ _ Hg Hbb Ht).
  cbn [mbind outcome_bind]. rewrite Hdes. cbn [mbind outcome_bind]. rewrite Hv. by case_if.
Qed.

Lemma smallest_biggest_ok :
  ∃ k0 v0 kl vl, head (concat gs) = Some (k0, v0) ∧ last (concat gs) = Some (kl, vl) ∧
    get_smallest_biggest config index_buf (layout d) cipher = Ok (KeyTs_from k0, KeyTs_from kl).
Proof.
  assert (∃ n, length gs = S n) as [n Hn].
  { assert (length gs ≠ 0) as Hnz by (intros E; by apply Hne, nil_length_inv).
    exists (length gs - 1). lia. }
  destruct (lookup_lt_is_Some_2 gs 0) as [g0 Hg0]; [lia|].
  destruct (task_lookup 0 g0 Hg0) as (bb0 & Hbb0 & Ht0).
  destruct (lookup_lt_is_Some_2 gs n) as [gl Hgl]; [lia|].
  destruct (task_lookup n gl Hgl) as (bbl & Hbbl & Htl).
  destruct (proj1 (Forall_lookup _ _) Hgs 0 g0 Hg0) as [Hne0 _].
  destruct (proj1 (Forall_lookup _ _) Hgs n gl Hgl) as [Hnel Hokl].
  destruct g0 as [|[k0 v0] g0]; [done|].
  destruct (exists_last Hnel) as (gi & [kl vl] & Hgi).
  exists k0, v0, kl, vl. split_and!.
  - rewrite <- (drop_0 gs), (drop_S _ _ _ Hg0). done.
  - rewrite <- (take_ge gs (length gs)) by done.
    rewrite Hn, (take_S_r _ _ _ Hgl), concat_app, Hgi. cbn [concat].
    by rewrite app_nil_r, app_assoc, last_snoc.
  - unfold get_smallest_biggest. rewrite (index_buf_lookup _ _ Hbb0).
    cbn [unwrap mbind outcome_bind bob_key_ts].
    replace (length (tib_offsets index_buf)) with (S n)
      by (cbn [index_buf tib_offsets]; by rewrite length_imap, length_bbs).
    rewrite usub_Ok by lia. cbn [mbind outcome_bind]. replace (S n - 1) with n by lia.
    rewrite (index_buf_lookup _ _ Hbbl). cbn [unwrap mbind outcome_bind bob_offset bob_len].
    rewrite !Nat2Z.id, (load_block_ok _ _ _ Hgl Hbbl Htl). cbn [mbind outcome_bind].
    destruct (deserialize_finish (builder gl) gl (tc_checksum_algo config) 0 n
      (Z.of_nat (start_of datas n)) (builder_builder_repr gl) Hokl) as (b & Hdes & Hbr & Hv & Hbi).
    rewrite Hdes. cbn [mbind outcome_bind]. rewrite Hv. cbn [mbind outcome_bind].
    assert (gl !! length gi = Some (kl, vl)) as Hl by (by rewrite Hgi, list_lookup_middle).
    rewrite (next_back_first b gl Hbr Hokl _ _ _ Hl)
      by (rewrite Hgi, length_app; cbn [length]; lia).
    cbn [mbind outcome_bind assert_or_panic].
    change (iter_key_back (bwd_at b gl (length gi) kl)) with (block_key kl).
    rewrite (block_key_ok gl Hokl _ _ _ Hl). cbn [unwrap mbind outcome_bind].
    apply compress_task_inv in Ht0 as [-> _]. done.
Qed.

Lemma get_block_ok tid sm bg ic bc j g :
  get_index (opened tid sm bg ic bc) = Ok index_buf →
  (∀ c b, bc = Some c → c (tid, j) = Some b →
     read_block (opened tid sm bg (λ _, None) None) j = Ok b) →
  gs !! j = Some g →
  ∃ b, get_block (opened tid sm bg ic bc) j = Ok b ∧ block_repr b g ∧
       Block_verify b = Ok () ∧ bk_block_index b = j.
Proof.
  intros Hgi Hbc Hg.
  destruct (read_block_ok tid sm bg ic bc j g Hgi Hg) as (b & Hrd & Hb).
  destruct (read_block_ok tid sm bg (λ _, None) None j g (get_index_cold _ _ _ _) Hg)
    as (b' & Hrd' & Hb').
  unfold get_block. cbn [opened t_cheap_index t_block_cache t_table_id].
  replace (ci_offsets_len (CheapTableIndex_from index_buf)) with (length gs)
    by (cbn [CheapTableIndex_from ci_offsets_len index_buf tib_offsets];
        by rewrite length_imap, length_bbs).
  pose proof (lookup_lt_Some _ _ _ Hg). case_if; [lia|].
  destruct bc as [c|]; [|by exists b]. destruct (c (tid, j)) as [b1|] eqn:Ec; [|by exists b].
  specialize (Hbc c b1 eq_refl Ec). rewrite Hrd' in Hbc. injection Hbc as ->. by exists b1.
Qed.

Lemma get_block_cold tid sm bg j :
  j < length gs →
  get_block (opened tid sm bg (λ _, None) None) j = read_block (opened tid sm bg (λ _, None) None) j.
Proof.
  intros Hj. unfold get_block. cbn [opened t_cheap_index t_block_cache].
  replace (ci_offsets_len (CheapTableIndex_from index_buf)) with (length gs)
    by (cbn [CheapTableIndex_from ci_offsets_len index_buf tib_offsets];
        by rewrite length_imap, length_bbs).
  by case_if; [lia|].
Qed.

Lemma open_opened tid sm bg ic bc :
  get_smallest_biggest config index_buf (layout d) cipher = Ok (sm, bg) →
  tc_block_size config ≠ 0 ∨ tc_compression config = CNone →
  (∀ j g, gs !! j = Some g →
     ∃ b, get_block (opened tid sm bg ic bc) j = Ok b ∧ Block_verify b = Ok ()) →
  Table_open config tid (layout d) cipher ic bc = Ok (opened tid sm bg ic bc).
Proof.
  intros Hsb Hcfg Hblk. unfold Table_open. case_if.
  { destruct Hcfg; congruence. }
  rewrite init_index_ok. cbn [mbind outcome_bind]. rewrite Hsb. cbn [mbind outcome_bind].
  assert (Table_verify (opened tid sm bg ic bc) = Ok ()) as Hver.
  { unfold Table_verify. apply fold_outcome_unit. intros j [_ Hj]%elem_of_seq.
    cbn [opened t_cheap_index CheapTableIndex_from ci_offsets_len index_buf tib_offsets] in Hj.
    rewrite length_imap, length_bbs in Hj.
    destruct (lookup_lt_is_Some_2 gs j) as [g Hg]; [lia|]. destruct (Hblk j g Hg) as (b & Hb & Hv).
    unfold verify_step. rewrite Hb. cbn [mbind outcome_bind]. by case_if. }
  unfold opened in Hver. rewrite Hver. by destruct (tc_checksum_verify_mode config).
Qed.

(** The file opens as a table that holds the groups, whatever coherent caches
    are given. *)
Lemma open_repr tid ic bc :
  tc_block_size config ≠ 0 ∨ tc_compression config = CNone →
  caches_coherent config tid (layout d) cipher ic bc →
  ∃ t k0 v0 kl vl, Table_open config tid (layout d) cipher ic bc = Ok t ∧ table_repr t gs ∧
    head (concat gs) = Some (k0, v0) ∧ last (concat gs) = Some (kl, vl) ∧
    t_smallest t = KeyTs_from k0 ∧ t_biggest t = KeyTs_from kl ∧
    t_cheap_index t = CheapTableIndex_from index_buf ∧ get_index t = Ok index_buf.
Proof.
  intros Hcfg Hcoh. destruct smallest_biggest_ok as (k0 & v0 & kl & vl & Hh & Hl & Hsb).
  set (sm := KeyTs_from k0) in *. set (bg := KeyTs_from kl) in *.
  assert (Table_open config tid (layout d) cipher (λ _, None) None
          = Ok (opened tid sm bg (λ _, None) None)) as Hcold.
  { apply open_opened; try done. intros j g Hg.
    destruct (get_block_ok tid sm bg (λ _, None) None j g (get_index_cold _ _ _ _))
      as (b & Hb & _ & Hv & _); try done. by exists b. }
  destruct (Hcoh _ Hcold) as [Hic Hbc].
  assert (get_index (opened tid sm bg ic bc) = Ok index_buf) as Hgi.
  { pose proof (get_index_cold tid sm bg bc) as Hc. unfold get_index in *.
    cbn [opened t_index_cache t_table_id t_file t_index_start t_index_len t_cipher] in *.
    destruct (ic tid) as [s|] eqn:Es; [|done].
    rewrite <- (Hic s eq_refl). exact Hc. }
  assert (∀ j g, gs !! j = Some g → ∃ b, get_block (opened tid sm bg ic bc) j = Ok b ∧
    block_repr b g ∧ Block_verify b = Ok () ∧ bk_block_index b = j) as Hblk.
  { intros j g Hg. apply get_block_ok; try done. intros c b Hc Hcb.
    rewrite <- get_block_cold by (by eapply lookup_lt_Some). by eapply Hbc. }
  exists (opened tid sm bg ic bc), k0, v0, kl, vl. split_and!; try done.
  - apply open_opened; try done. intros j g Hg.
    destruct (Hblk j g Hg) as (b & Hb & _ & Hv & _). by exists b.
  - split; [done| | |].
    + cbn [opened t_cheap_index CheapTableIndex_from ci_offsets_len index_buf tib_offsets].
      by rewrite length_imap, length_bbs.
    + intros j g Hg. destruct (Hblk j g Hg) as (b & Hb & Hbr & _ & Hbi). by exists b.
    + exists index_buf. split; [done|]. cbn [index_buf tib_offsets]. rewrite fmap_imap.
      apply list_eq. intros j. rewrite list_lookup_imap, list_lookup_fmap.
      destruct (gs !! j) as [g|] eqn:Hg.
      * destruct (task_lookup j g Hg) as (bb & Hbb & Ht). rewrite Hbb. cbn.
        apply compress_task_inv in Ht as [-> _]. done.
      * rewrite (lookup_ge_None_2 bbs); [done|]. rewrite length_bbs. by apply lookup_ge_None_1.
Qed.

End Opening.

(* ------------------------------------------------------------------ *)
(** ** Lemmas: from the invariant to the file *)

Section Finishing.
Context `{!VarInt, !VarIntLaws, !ChecksumCodec, !ChecksumLaws, !Compressor, !CompressorLaws}.
Context `{!Aead, !AeadLaws, !TableIndexFb, !TableIndexFbLaws}.
Context (config : TableConfig) (cipher : option AesCipher).

(** The groups once the current block is flushed. *)
Definition flushed (gs : list (list kv)) (cur : list kv) : list (list kv) :=
  match cur with
  | [] => gs
  | _ => gs ++ [cur]
  end.

Lemma concat_flushed gs cur : concat (flushed gs cur) = concat gs ++ cur.
Proof. destruct cur; cbn [flushed]; rewrite ?concat_app; cbn; by rewrite ?app_nil_r. Qed.

Lemma flush_inv tb gs cur ptrs :
  tb_inv tb config cipher gs cur ptrs →
  (Z.of_nat (sum_list_with kv_weight (concat gs ++ cur)) < 2 ^ 30)%Z →
  ∃ tb', finish_cur_block tb = Ok tb' ∧ tb_inv tb' config cipher (flushed gs cur) [] ptrs ∧
    tb_stale_data_size tb' = tb_stale_data_size tb.
Proof.
  intros I Hw. destruct cur as [|e cur]; [|by apply finish_cur_block_inv].
  exists tb. split; [|by split]. unfold finish_cur_block. by rewrite (ti_cur _ _ _ _ _ _ I).
Qed.

Lemma max_ts_range kvs : Forall (λ e : kv, is_bytes e.1) kvs → in_width 64 (max_ts kvs).
Proof.
  induction kvs as [|e kvs IH] using rev_ind; intros Hall; [split; cbn; lia|].
  apply Forall_app in Hall as [Hall He]. apply (proj1 (Forall_singleton _ _)) in He.
  rewrite max_ts_snoc. specialize (IH Hall).
  assert (in_width 64 (kb_txn_ts e.1)) as Hts.
  { unfold kb_txn_ts. case_if; [|split; lia].
    pose proof (be_decode_bound (take 8 (drop (length e.1 - 8) e.1))) as Hb.
    rewrite length_take, length_drop, Nat.min_l in Hb by lia.
    apply Hb. by apply is_bytes_take, is_bytes_drop. }
  unfold in_width in *. lia.
Qed.

(** The index that [done] writes. *)
Definition final_index (tb : TableBuilder) (bbs : list BlockBuilder) (on_disk : Z) : TableIndex :=
  mkTableIndex (Some (index_offsets bbs))
    (match tc_bloom (tb_config tb) with
     | Some (bits_per_key, k) => Some (Bloom_new bits_per_key k (tb_key_hashes tb))
     | None => None
     end)
    (tb_max_version tb) (u32 (Z.of_nat (length (tb_key_hashes tb)))) (tb_uncompressed_size tb)
    on_disk (tb_stale_data_size tb).

Lemma layout_blocks_small d :
  in_width 32 (Z.of_nat (length (layout d))) →
  Forall (λ bb, in_width 32 (Z.of_nat (length (bb_data bb)))) (td_block_list d).
Proof.
  intros Hlen. unfold layout in Hlen. rewrite length_app in Hlen. apply Forall_forall.
  intros bb [i Hi]%list_elem_of_lookup.
  assert ((bb_data <$> td_block_list d) !! i = Some (bb_data bb)) as Hl
    by (by rewrite list_lookup_fmap, Hi).
  rewrite (concat_middle _ _ _ Hl), !length_app in Hlen. unfold in_width in *. lia.
Qed.

Lemma index_offsets_wf bbs :
  in_width 32 (Z.of_nat (length (concat (bb_data <$> bbs)))) →
  Forall (λ bb, in_width 32 (Z.of_nat (length (bb_data bb)))) bbs →
  Forall block_offset_wf (index_offsets bbs).
Proof.
  intros Hd Hall. apply Forall_lookup. intros i o Ho. unfold index_offsets in Ho.
  apply list_lookup_imap_Some in Ho as (bb & Hbb & ->). split; cbn [bo_offset bo_len].
  - pose proof (start_of_le (bb_data <$> bbs) i). unfold in_width in *. lia.
  - exact (proj1 (Forall_lookup _ _) Hall i bb Hbb).
Qed.

Lemma done_inv tb gs ptrs d :
  tb_inv tb config cipher gs [] ptrs → (0 ≤ ptrs)%Z → in_width 32 (tb_stale_data_size tb) →
  (block_list ← map_outcome id (tb_compress_task tb);
   let bloom := match tc_bloom (tb_config tb) with
     | Some (bits_per_key, k) => Some (Bloom_new bits_per_key k (tb_key_hashes tb))
     | None => None
     end in
   '(index, data_size) ← build_index tb block_list bloom;
   let checksum := checksum_encode (Checksum_new (tc_checksum_algo (tb_config tb)) index) in
   let size := Z.to_nat data_size + length index + 4 + length checksum + 4 in
   Ok (mkTableBuildData block_list index checksum size)) = Ok d →
  in_width 32 (Z.of_nat (length (layout d))) →
  ∃ on_disk, let ti := final_index tb (td_block_list d) on_disk in
    map_outcome id (imap (task_of config cipher) gs) = Ok (td_block_list d) ∧
    table_index_wf ti ∧
    try_encrypt cipher (length gs) (fb_finish ti) = Ok (td_index d) ∧
    td_checksum d = checksum_encode (Checksum_new (tc_checksum_algo config) (td_index d)).
Proof.
  intros I Hp Hst Hd Hlen. apply bind_Ok in Hd as (bbs & Hbbs & Hd). cbn zeta in Hd.
  apply bind_Ok in Hd as ([index ds] & Hbi & [= <-]).
  pose proof (layout_blocks_small _ Hlen) as Hsmall. cbn [td_block_list td_index td_checksum] in *.
  unfold build_index in Hbi. apply bind_Ok in Hbi as (r & Hfold & Hbi).
  apply index_fold_inv in Hfold as [-> Hds]; [|done]. cbn [snd] in Hds.
  apply bind_Ok in Hbi as (on_disk & Hod & Hbi). apply bind_Ok in Hbi as (x & Henc & [= <- <-]).
  apply u32_add_inv in Hod as [Hod Hod']. rewrite (ti_on_disk _ _ _ _ _ _ I) in Hod.
  exists on_disk. cbn zeta. rewrite <- (ti_tasks _ _ _ _ _ _ I), <- (ti_cfg _ _ _ _ _ _ I).
  split_and!; [done| | |done].
  - unfold table_index_wf, final_index. cbn [ti_offsets ti_max_version ti_key_count
      ti_uncompressed_size ti_on_disk_size ti_stale_data_size]. split_and!.
    + intros os [= <-]. by apply index_offsets_wf.
    + rewrite (ti_max _ _ _ _ _ _ I). apply max_ts_range, (ti_bytes _ _ _ _ _ _ I).
    + apply u32_range.
    + apply (ti_uncompressed _ _ _ _ _ _ I).
    + unfold in_width in *. lia.
    + done.
  - rewrite <- (ti_cipher _ _ _ _ _ _ I).
    replace (length gs) with (length (tb_compress_task tb)); [exact Henc|].
    by rewrite (ti_tasks _ _ _ _ _ _ I), length_imap.
Qed.

End Finishing.

(** ** Lemmas: the builder does not fail without compression and encryption *)

Lemma copy_fold_ok srcs buf w :
  w + length (concat srcs) ≤ length buf →
  ∃ buf', fold_outcome copy_step (buf, w) srcs = Ok (buf', w + length (concat srcs)) ∧
    length buf' = length buf.
Proof.
  revert buf w. induction srcs as [|s srcs IH]; intros buf w; cbn [fold_outcome concat].
  { intros _. exists buf. cbn [length]. by rewrite Nat.add_0_r. }
  rewrite length_app. intros Hle.
  assert (copy_step (buf, w) s = Ok (take w buf ++ s ++ drop (w + length s) buf, w + length s)) as ->
    by (unfold copy_step, copy_at; by guard_true).
  cbn [mbind outcome_bind].
  assert (length (take w buf ++ s ++ drop (w + length s) buf) = length buf) as Hlen.
  { rewrite !length_app, length_take, length_drop. lia. }
  destruct (IH (take w buf ++ s ++ drop (w + length s) buf) (w + length s)) as (b & Hb & Hl); [lia|].
  exists b. rewrite Hb, Hl, Hlen. split; [|done]. do 2 f_equal. lia.
Qed.

Section Totality.
Context `{!VarInt, !VarIntLaws, !ChecksumCodec, !ChecksumLaws, !Compressor, !Aead, !TableIndexFb}.
Context (config : TableConfig) (Hplain : tc_compression config = CNone).

Definition plain_block (g : list kv) : BlockBuilder :=
  finish_block (builder g) (tc_checksum_algo config).

Lemma task_plain draw g : task_of config None draw g = Ok (plain_block g).
Proof.
  unfold task_of, compress_task. rewrite Hplain. cbn [bool_decide decide].
  rewrite bool_decide_eq_true_2 by done. cbn [mbind outcome_bind]. done.
Qed.

Lemma plain_block_length g : g ≠ [] → length (bb_data (plain_block g)) ≤ 2 * sum_list_with kv_weight g.
Proof.
  intros Hne. unfold plain_block, finish_block. cbn [bb_data builder bb_entry_offsets].
  rewrite !length_app, !length_put_u32, vec_u32_to_bytes_length, length_offsets, length_chunks.
  match goal with |- context [checksum_encode ?c] => pose proof (checksum_encode_short c) as Hc end.
  pose proof (chunks_weight g). pose proof (base_weight g Hne). lia.
Qed.

Lemma plain_blocks_length gs :
  Forall group_ok gs →
  length (concat (bb_data <$> (plain_block <$> gs))) ≤ 2 * sum_list_with kv_weight (concat gs).
Proof.
  induction 1 as [|g gs [Hne _] _ IH]; [done|]. rewrite !fmap_cons. cbn [concat].
  rewrite length_app, sum_list_with_app. pose proof (plain_block_length g Hne). lia.
Qed.

Lemma index_fold_ok bbs :
  in_width 32 (Z.of_nat (length (concat (bb_data <$> bbs)))) →
  fold_outcome index_step ([], 0%Z) bbs =
    Ok (index_offsets bbs, Z.of_nat (length (concat (bb_data <$> bbs)))).
Proof.
  induction bbs as [|bb bbs IH] using rev_ind; intros Hw; [done|].
  rewrite fmap_app, concat_app, length_app in *. cbn [fmap list_fmap concat] in *.
  rewrite app_nil_r in *. unfold in_width in *.
  rewrite fold_outcome_app, IH by lia. cbn [mbind outcome_bind fold_outcome index_step].
  rewrite u32_small by (unfold in_width; lia). rewrite u32_add_Ok by lia.
  cbn [mbind outcome_bind]. rewrite index_offsets_snoc. do 2 f_equal. lia.
Qed.

Lemma finish_plain tb gs cur ptrs :
  tb_inv tb config None gs cur ptrs →
  (Z.of_nat (sum_list_with kv_weight (concat gs ++ cur)) < 2 ^ 30)%Z →
  (0 ≤ ptrs < 2 ^ 30)%Z → ∃ file, TableBuilder_finish tb = Ok file.
Proof.
  intros I Hw Hp. destruct (flush_inv config None tb gs cur ptrs I Hw) as (tb' & Hf & I' & _).
  set (gs' := flushed gs cur) in *.
  assert (map_outcome id (tb_compress_task tb') = Ok (plain_block <$> gs')) as Hm.
  { rewrite (ti_tasks _ _ _ _ _ _ I').
    assert (imap (task_of config None) gs' = (λ g, Ok (plain_block g)) <$> gs') as ->.
    { apply list_eq. intros i. rewrite list_lookup_imap, list_lookup_fmap.
      destruct (gs' !! i); cbn; [by rewrite task_plain|done]. }
    generalize gs'. intros l. induction l as [|g l IH]; [done|].
    rewrite !fmap_cons. cbn [map_outcome id mbind outcome_bind]. by rewrite IH. }
  pose proof (plain_blocks_length gs' (ti_gs _ _ _ _ _ _ I')) as Hlen.
  unfold gs' in Hlen at 2. rewrite concat_flushed in Hlen.
  set (bbs := plain_block <$> gs') in *.
  assert (in_width 32 (Z.of_nat (length (concat (bb_data <$> bbs))))) as Hwid.
  { unfold in_width. lia. }
  unfold TableBuilder_finish, TableBuilder_done. rewrite Hf. cbn [mbind outcome_bind].
  rewrite Hm. cbn [mbind outcome_bind]. unfold build_index. rewrite index_fold_ok by done.
  cbn [mbind outcome_bind]. rewrite (ti_on_disk _ _ _ _ _ _ I'), u32_add_Ok by lia.
  cbn [mbind outcome_bind]. rewrite (ti_cipher _ _ _ _ _ _ I'). cbn [try_encrypt mbind outcome_bind].
  match goal with |- context [Z.to_nat ?z + length ?x + 4 + length ?c + 4] =>
    set (X := x) in * end.
  match goal with |- context [Z.to_nat ?z + length ?x + 4 + length ?c + 4] =>
    set (C := c) in * end.
  rewrite Nat2Z.id. unfold read_all. cbn [td_size td_block_list td_index td_checksum].
  rewrite length_replicate, Nat.eqb_refl. cbn [assert_or_panic mbind outcome_bind].
  destruct (copy_fold_ok ((bb_data <$> bbs) ++ [X; put_u32 (u32 (Z.of_nat (length X))); C;
      put_u32 (u32 (Z.of_nat (length C)))])
    (replicate (length (concat (bb_data <$> bbs)) + length X + 4 + length C + 4) 0%Z) 0)
    as (buf & Hbuf & Hbl).
  { rewrite length_replicate, concat_app, length_app. cbn [concat].
    rewrite !length_app, !length_put_u32. cbn [length]. lia. }
  rewrite length_replicate in Hbl. rewrite Nat.add_0_l, fold_outcome_app in Hbuf.
  apply bind_Ok in Hbuf as (acc & -> & Hr). cbn [mbind outcome_bind fold_outcome] in *.
  apply bind_Ok in Hr as (a1 & -> & Hr). cbn [mbind outcome_bind].
  apply bind_Ok in Hr as (a2 & -> & Hr). cbn [mbind outcome_bind].
  apply bind_Ok in Hr as (a3 & -> & Hr). cbn [mbind outcome_bind].
  apply bind_Ok in Hr as (a4 & -> & [= ->]). cbn [mbind outcome_bind].
  rewrite concat_app, length_app, Hbl. cbn [concat].
  rewrite !length_app, !length_put_u32. cbn [length]. unfold assert_or_panic.
  guard_true. by eexists.
Qed.

End Totality.

(* ------------------------------------------------------------------ *)
(** ** Theorems *)

Section Theorems.
Context `{!VarInt, !VarIntLaws, !ChecksumCodec, !ChecksumLaws, !Compressor, !CompressorLaws}.
Context `{!Aead, !AeadLaws, !TableIndexFb, !TableIndexFbLaws}.

(** Building a table: push every item, then finish. *)
Definition build_table (config : TableConfig) (cipher : option AesCipher) (its : list item) :
    outcome (list Z) :=
  tb ← push_items (TableBuilder_new config cipher) its;
  TableBuilder_finish tb.

Lemma build_table_open config cipher tid ic bc its file :
  its ≠ [] → items_fit config its →
  tc_block_size config ≠ 0 ∨ tc_compression config = CNone →
  build_table config cipher its = Ok file → in_width 32 (Z.of_nat (length file)) →
  caches_coherent config tid file cipher ic bc →
  ∃ t gs k0 v0 kl vl ib, Table_open config tid file cipher ic bc = Ok t ∧ table_repr t gs ∧
    concat gs = it_kv <$> its ∧ Forall (fits_block config) gs ∧
    head (concat gs) = Some (k0, v0) ∧ last (concat gs) = Some (kl, vl) ∧
    t_smallest t = KeyTs_from k0 ∧ t_biggest t = KeyTs_from kl ∧
    t_cheap_index t = CheapTableIndex_from ib ∧ get_index t = Ok ib ∧
    tib_max_version ib = max_ts (it_kv <$> its) ∧
    tib_bloom_filter ib =
      match tc_bloom config with
      | Some (bits_per_key, k) =>
          Some (Bloom_new bits_per_key k ((λ e : kv, Bloom_hash (kb_key e.1)) <$> (it_kv <$> its)))
      | None => None
      end.
Proof.
  intros Hne Hfit Hcfg Hbuild Hlen Hcoh.
  destruct (push_items_inv config cipher its Hfit) as (tb & gs & cur & Hp & I & Heq & Hst).
  unfold build_table in Hbuild. rewrite Hp in Hbuild. cbn [mbind outcome_bind] in Hbuild.
  destruct Hfit as [Hall Hw]. unfold items_weight in Hw. fold (ptr_sum its) in Hw.
  pose proof (ptr_sum_nonneg its Hall) as Hp0.
  assert (Z.of_nat (sum_list_with kv_weight (concat gs ++ cur)) < 2 ^ 30)%Z as Hw' by (rewrite Heq; lia).
  apply finish_layout in Hbuild as (d & Hd & ->). unfold TableBuilder_done in Hd.
  destruct (flush_inv config cipher tb gs cur _ I Hw') as (tb' & Hfl & I' & Hst').
  rewrite Hfl in Hd. cbn [mbind outcome_bind] in Hd.
  destruct (done_inv config cipher tb' (flushed gs cur) _ d I' Hp0) as (od & Hm & Hwf & Henc & Hcs);
    [unfold in_width; rewrite Hst'; lia|exact Hd|exact Hlen|].
  assert (concat (flushed gs cur) = it_kv <$> its) as Hcat by (by rewrite concat_flushed).
  destruct (open_repr config cipher (flushed gs cur) (td_block_list d)
    (final_index tb' (td_block_list d) od) d (length (flushed gs cur)) Hm
    (ti_gs _ _ _ _ _ _ I') ltac:(intros E; rewrite E in Hcat; by destruct its)
    eq_refl eq_refl Hwf Henc Hcs Hlen tid ic bc Hcfg Hcoh)
    as (t & k0 & v0 & kl & vl & Ho & Hr & Hh & Hl & Hs & Hb & Hci & Hgi).
  exists t, (flushed gs cur), k0, v0, kl, vl.
  eexists. split_and!; [exact Ho|exact Hr|exact Hcat| |exact Hh|exact Hl|exact Hs|exact Hb
    |exact Hci|exact Hgi| |].
  - pose proof (ti_fits _ _ _ _ _ _ I') as Hf. by apply Forall_app in Hf as [Hf _].
  - cbn [index_buf tib_max_version final_index ti_max_version]. rewrite (ti_max _ _ _ _ _ _ I').
    by rewrite app_nil_r, Hcat.
  - cbn [index_buf tib_bloom_filter final_index ti_bloom_filter].
    rewrite (ti_cfg _ _ _ _ _ _ I'), (ti_hashes _ _ _ _ _ _ I'), app_nil_r, Hcat. done.
Qed.

(** C3: The file a table builder writes opens, whatever the caches hold as long
    as they are coherent, as a table whose forward iterator delivers exactly the
    pushed entries in order and whose reversed iterator delivers them in the
    opposite order; its smallest and biggest keys are the first and the last
    pushed, and its version is the newest pushed. *)
Theorem table_roundtrip config cipher tid ic bc its file :
  its ≠ [] → items_fit config its →
  tc_block_size config ≠ 0 ∨ tc_compression config = CNone →
  build_table config cipher its = Ok file → in_width 32 (Z.of_nat (length file)) →
  caches_coherent config tid file cipher ic bc →
  ∃ t, Table_open config tid file cipher ic bc = Ok t ∧
    drain (S (length its)) (Table_iter t) = Ok (Some (it_kv <$> its)) ∧
    drain (S (length its)) (mkRev (Table_iter t)) = Ok (Some (reverse (it_kv <$> its))) ∧
    Some (t_smallest t) = KeyTs_from ∘ fst <$> head (it_kv <$> its) ∧
    Some (t_biggest t) = KeyTs_from ∘ fst <$> last (it_kv <$> its) ∧
    ci_max_version (t_cheap_index t) = max_ts (it_kv <$> its).
Proof.
  intros Hne Hfit Hcfg Hbuild Hlen Hcoh.
  destruct (build_table_open config cipher tid ic bc its file)
    as (t & gs & k0 & v0 & kl & vl & ib & Ho & Hr & Hcat & _ & Hh & Hl & Hs & Hb & Hci & _ & Hm & _);
    try done.
  exists t. rewrite <- Hcat in *. rewrite Hh, Hl, Hs, Hb, Hci. split_and!; try done.
  - apply drain_yields; [by apply table_iter_yields|]. rewrite Hcat, length_fmap. lia.
  - apply drain_yields; [by apply table_iter_yields_back|]. rewrite length_reverse, Hcat, length_fmap. lia.
Qed.

(** C22: The Bloom filter of a built table never rejects a user key that was
    pushed, at any version. *)
Theorem table_bloom_no_false_negatives config cipher tid ic bc its file :
  its ≠ [] → items_fit config its →
  tc_block_size config ≠ 0 ∨ tc_compression config = CNone →
  (∀ bits_per_key k, tc_bloom config = Some (bits_per_key, k) → k ≤ 30) →
  build_table config cipher its = Ok file → in_width 32 (Z.of_nat (length file)) →
  caches_coherent config tid file cipher ic bc →
  ∃ t, Table_open config tid file cipher ic bc = Ok t ∧
    ∀ i key, i ∈ its → kb_key (it_kv i).1 = kt_key key → Table_may_contain_key t key = Ok true.
Proof.
  intros Hne Hfit Hcfg Hk Hbuild Hlen Hcoh.
  destruct (build_table_open config cipher tid ic bc its file)
    as (t & gs & k0 & v0 & kl & vl & ib & Ho & _ & _ & _ & _ & _ & _ & _ & Hci & Hgi & _ & Hbf);
    try done.
  exists t. split; [done|]. intros i key Hi Hkey. unfold Table_may_contain_key. rewrite Hci, Hgi.
  cbn [CheapTableIndex_from ci_bloom_filter_len mbind outcome_bind].
  case_if; [done|]. rewrite Hbf. destruct (tc_bloom config) as [[bpk k]|] eqn:Ebl.
  2:{ rewrite Hbf in E. done. }
  cbn [unwrap mbind outcome_bind]. unfold may_contain_key. f_equal.
  specialize (Hk bpk k eq_refl). apply Bloom_new_no_false_negative; [lia|].
  rewrite <- Hkey, <- list_fmap_compose. apply list_elem_of_fmap. by exists i.
Qed.

(** C25: Pushing entries whose sizes fit never panics, whatever the compression and
    the cipher; without both of them finishing does not fail either, so that the
    builder produces a file; and when the length of that file fits 32 bits, it opens
    as a table whose blocks partition the entries in order, a block of several
    entries staying within the configured block size. *)
Theorem table_builder_total config cipher tid its :
  its ≠ [] → items_fit config its →
  (∃ tb, push_items (TableBuilder_new config cipher) its = Ok tb) ∧
  (tc_compression config = CNone → cipher = None →
   ∃ file, build_table config cipher its = Ok file ∧
     (in_width 32 (Z.of_nat (length file)) →
      ∃ t gs, Table_open config tid file cipher (λ _, None) None = Ok t ∧ table_repr t gs ∧
        concat gs = it_kv <$> its ∧ Forall (fits_block config) gs)).
Proof.
  intros Hne Hfit. split.
  { destruct (push_items_inv config cipher its Hfit) as (tb & gs & cur & Hp & _). by exists tb. }
  intros Hplain ->.
  destruct (push_items_inv config None its Hfit) as (tb & gs & cur & Hp & I & Heq & Hst).
  pose proof Hfit as [Hall Hw]. unfold items_weight in Hw. fold (ptr_sum its) in Hw.
  pose proof (ptr_sum_nonneg its Hall) as Hp0.
  destruct (finish_plain config Hplain tb gs cur (ptr_sum its) I) as (file & Hf);
    [rewrite Heq; lia|lia|].
  assert (build_table config None its = Ok file) as Hb by (unfold build_table; by rewrite Hp).
  exists file. split; [done|]. intros Hlen.
  destruct (build_table_open config None tid (λ _, None) None its file)
    as (t & gs' & k0 & v0 & kl & vl & ib & Ho & Hr & Hcat & Hfits & _); try done; [by right|].
  by exists t, gs'.
Qed.

End Theorems.

(** ** Witnesses *)

Module BuildExamples.

(** A block size that forces several blocks, compression and encryption. *)
Definition config : TableConfig :=
  mkTableConfig 1000 900 OnBlockRead Crc32c (Some (10, 6)) 80 Snappy 1.

Definition plain_config : TableConfig :=
  mkTableConfig 1000 900 NoVerification XxHash64 None 80 CNone 1.

Definition cipher : option AesCipher := Some (Aes128 (replicate 16 7%Z) 1).

Definition mk (k : Z) (ts : Z) (v : list Z) (stale : bool) : item :=
  mkItem (KeyTs_serialize (mkKeyTs [1; 2; k]%Z ts), mkValueMeta v 0 0 0) (Some 3%Z) stale.

Definition its : list item :=
  [mk 1 5 [9; 9]%Z false; mk 2 7 [8]%Z true; mk 3 2 (replicate 20 4%Z) false; mk 4 1 [] true].

Definition get_file (o : outcome (list Z)) : list Z := match o with Ok f => f | _ => [] end.

Definition file : list Z := get_file (build_table config cipher its).

Lemma its_fit c : tc_block_size c = 80 → items_fit c its.
Proof.
  intros Hbs. split; [|rewrite Hbs; vm_compute; reflexivity].
  repeat (apply Forall_cons; split; [vm_compute; repeat constructor; congruence|]). constructor.
Defined.

Lemma no_caches c cip f : caches_coherent c 1 f cip (λ _, None) None.
Proof. intros t0 _. split; intros; discriminate. Defined.

Lemma table_roundtrip_witness :
  ∃ t, Table_open config 1 file cipher (λ _, None) None = Ok t ∧
    drain 5 (Table_iter t) = Ok (Some (it_kv <$> its)).
Proof.
  destruct (table_roundtrip config cipher 1 (λ _, None) None its file) as (t & Ho & Hd & _).
  - discriminate.
  - by apply its_fit.
  - left. discriminate.
  - vm_compute. reflexivity.
  - vm_compute. split; [discriminate|reflexivity].
  - apply no_caches.
  - exists t. split; [exact Ho|exact Hd].
Defined.

Lemma table_bloom_witness :
  ∃ t, Table_open config 1 file cipher (λ _, None) None = Ok t ∧
    Table_may_contain_key t (mkKeyTs [1; 2; 3]%Z 100) = Ok true.
Proof.
  destruct (table_bloom_no_false_negatives config cipher 1 (λ _, None) None its file)
    as (t & Ho & Hk).
  - discriminate.
  - by apply its_fit.
  - left. discriminate.
  - intros bpk k [= <- <-]. lia.
  - vm_compute. reflexivity.
  - vm_compute. split; [discriminate|reflexivity].
  - apply no_caches.
  - exists t. split; [exact Ho|].
    apply (Hk (mk 3 2 (replicate 20 4%Z) false)); [|reflexivity].
    do 2 apply list_elem_of_further. apply list_elem_of_here.
Defined.

Lemma table_builder_witness :
  (∃ tb, push_items (TableBuilder_new config cipher) its = Ok tb) ∧
  ∃ f t gs, build_table plain_config None its = Ok f ∧ Table_open plain_config 1 f None (λ _, None) None = Ok t ∧
    concat gs = it_kv <$> its ∧ Forall (fits_block plain_config) gs.
Proof.
  split.
  { apply (table_builder_total config cipher 1 its); [discriminate|by apply its_fit]. }
  destruct (table_builder_total plain_config None 1 its) as (_ & Hplain); [discriminate|by apply its_fit|].
  destruct (Hplain eq_refl eq_refl) as (f & Hf & Hopen).
  assert (in_width 32 (Z.of_nat (length (get_file (build_table plain_config None its))))) as Hlen
    by (vm_compute; split; congruence).
  rewrite Hf in Hlen. destruct (Hopen Hlen) as (t & gs & Ht & _ & Hc & Hfits).
  exists f, t, gs. exact (conj Hf (conj Ht (conj Hc Hfits))).
Defined.

(** The four entries lie in three blocks. *)
Example three_blocks :
  match Table_open config 1 file cipher (λ _, None) None with
  | Ok t => ci_offsets_len (t_cheap_index t)
  | _ => 0
  end = 3.
Proof. vm_compute. reflexivity. Qed.

End BuildExamples.
