(* ===== verification/TableSeek.v ===== *)
(** * TableSeek: seeking in a table and building one from an iterator

    [SinkTableIter::seek] of src/src/table/read.rs chooses a block by the first
    keys of the index and seeks inside it; [TableBuilder::build_l0_table] of
    src/src/table/write.rs pushes what an iterator delivers. *)
From stdpp Require Import base list list_numbers strings.
From Stdlib Require Import ZArith Lia.
From S2P Require Import Prelude Util VarInt Kv Bloom Iter Pb Storage Block Table TableBuild.

(** ** What [seek] does, as a specification *)

(** The first key of a group. *)
Definition base_key (es : list (KeyTs * ValueMeta)) : KeyTs :=
  match es with
  | [] => KeyTs_default
  | e :: _ => e.1
  end.

(** The groups of a sorted table: each holds well-formed ascending keys, and
    the first keys ascend. *)
Record groups_sorted (ess : list (list (KeyTs * ValueMeta))) : Prop := {
  gs_nonempty : Forall (λ es, es ≠ []) ess;
  gs_keys : Forall (Forall (λ e, kt_ok e.1)) ess;
  gs_inner : Forall keys_sorted ess;
  gs_outer : ∀ i j a c, i < j → ess !! i = Some a → ess !! j = Some c →
    KeyTs_cmp (base_key a) (base_key c) = Lt
}.

(** The three cases: below the first key of the table the code panics, above
    the first key of the last block it answers [false], and otherwise it seeks
    in the last block whose first key is not above the sought key. *)
Definition table_seek_post `{!VarInt} (t : Table) (ess : list (list (KeyTs * ValueMeta)))
    (K : KeyTs) (r : outcome (bool * SinkTableIter)) : Prop :=
  (r = Panic ∧ ∃ es, ess !! 0 = Some es ∧ KeyTs_cmp K (base_key es) = Lt) ∨
  (r = Ok (false, Table_iter t) ∧ ∀ es, es ∈ ess → KeyTs_cmp (base_key es) K = Lt) ∨
  (∃ j es b bi, ess !! j = Some es ∧ r = Ok (b, mkSinkTableIter t (Some bi) None) ∧
     KeyTs_cmp (base_key es) K ≠ Gt ∧
     (∀ es', ess !! S j = Some es' → KeyTs_cmp K (base_key es') = Lt) ∧
     seek_post es K (b, bi)).

Section Seek.
Context `{!VarInt, !VarIntLaws, !ChecksumCodec, !Compressor, !Aead, !TableIndexFb}.
Context (t : Table) (ess : list (list (KeyTs * ValueMeta))) (K : KeyTs).
Context (Hrep : table_repr t (ser_entries <$> ess)) (Hs : groups_sorted ess).
Context (HK : kt_ok K) (Hsafe : Forall (seek_safe K) ess).

Lemma base_of_ser es : es ≠ [] → base_of (ser_entries es) = KeyTs_serialize (base_key es).
Proof. by destruct es as [|[k v] es]. Qed.

Lemma group_facts j es :
  ess !! j = Some es →
  es ≠ [] ∧ Forall (λ e, kt_ok e.1) es ∧ keys_sorted es ∧ seek_safe K es ∧
  KeyTs_from (base_of (ser_entries es)) = base_key es.
Proof.
  intros Hl. destruct Hs as [Hne Hk Hi _]. rewrite Forall_lookup in Hne, Hk, Hi, Hsafe.
  specialize (Hne j es Hl). specialize (Hk j es Hl). split_and!; eauto.
  rewrite base_of_ser by done. destruct es as [|e es]; [done|].
  apply Forall_cons in Hk as [[Hk1 Hk2] _]. by apply KeyTs_from_serialize.
Qed.

(** Seeking inside block [j]. *)
Lemma seek_in_block j es :
  ess !! j = Some es →
  ∃ b bl bi, get_block t j = Ok bl ∧
    SinkBlockIter_seek (Block_iter bl) (KeyTs_serialize K) = Ok (b, bi) ∧ seek_post es K (b, bi).
Proof.
  intros Hl. destruct (group_facts j es Hl) as (_ & Hk & Hsort & Hsf & _).
  assert ((ser_entries <$> ess) !! j = Some (ser_entries es)) as Hg
    by (by rewrite list_lookup_fmap, Hl).
  destruct (tr_block t _ Hrep _ _ Hg) as (bl & Hbl & Hbr & _).
  destruct (group_lookup t _ Hrep _ _ Hg) as [_ Hok].
  destruct (seek_ok bl es K Hbr Hok Hsort Hk HK Hsf) as ([b bi] & Hsk & Hpost).
  by exists b, bl, bi.
Qed.

Lemma index_search :
  ∃ ib r, get_index t = Ok ib ∧ length (tib_offsets ib) = length ess ∧
    binary_search_by (tib_offsets ib)
      (λ o, Ok (KeyTs_cmp_borrow (bob_key_ts o) (KeyTs_serialize K))) = Ok r ∧
    match r with
    | Found i => ∃ es, ess !! i = Some es ∧ base_key es = K
    | NotFound i => i ≤ length ess ∧
        (∀ j es, j < i → ess !! j = Some es → KeyTs_cmp (base_key es) K = Lt) ∧
        (∀ j es, i ≤ j → ess !! j = Some es → KeyTs_cmp (base_key es) K = Gt)
    end.
Proof.
  destruct (tr_index t _ Hrep) as (ib & Hib & Hkeys). exists ib.
  assert (length (tib_offsets ib) = length ess) as Hlen.
  { apply (f_equal length) in Hkeys. by rewrite !length_fmap in Hkeys. }
  assert (∀ i es, ess !! i = Some es →
    ∃ o, tib_offsets ib !! i = Some o ∧ bob_key_ts o = base_key es) as Hto.
  { intros i es Hl. apply (f_equal (lookup i)) in Hkeys. rewrite !list_lookup_fmap, Hl in Hkeys.
    cbn in Hkeys. destruct (tib_offsets ib !! i) as [o|]; [|done]. exists o. split; [done|].
    injection Hkeys as ->. by eapply group_facts. }
  assert (∀ i o, tib_offsets ib !! i = Some o →
    ∃ es, ess !! i = Some es ∧ bob_key_ts o = base_key es) as Hof.
  { intros i o Ho. destruct (lookup_lt_is_Some_2 ess i) as [es Hl].
    { rewrite <- Hlen. by eapply lookup_lt_Some. }
    destruct (Hto i es Hl) as (o' & Ho' & Hb). simplify_eq. by exists es. }
  destruct (binary_search_by_ok (tib_offsets ib) (λ o, KeyTs_cmp (bob_key_ts o) K)
    (λ o, Ok (KeyTs_cmp_borrow (bob_key_ts o) (KeyTs_serialize K)))) as (r & Hr & Hpost).
  - intros o _. by rewrite KeyTs_cmp_borrow_serialize by apply HK.
  - intros i j x y Hij Hx Hy. destruct (Hof i x Hx) as (a & Ha & ->).
    destruct (Hof j y Hy) as (c & Hc & ->).
    apply (cmp_lt_search KeyTs_cmp), (gs_outer ess Hs i j a c Hij Ha Hc).
  - exists r. split_and!; try done. destruct r as [i|i].
    + destruct Hpost as (o & Ho & Heq). destruct (Hof i o Ho) as (es & Hl & Hb).
      exists es. split; [done|]. rewrite <- Hb. by apply (cmp_eq (cmp := KeyTs_cmp)).
    + destruct Hpost as (Hi & Hlo & Hhi). rewrite Hlen in Hi. split_and!; [done| |].
      * intros j es Hj Hl. destruct (Hto j es Hl) as (o & Ho & <-). by eapply Hlo.
      * intros j es Hj Hl. destruct (Hto j es Hl) as (o & Ho & <-). by eapply Hhi.
Qed.

Lemma table_seek_ok :
  ess ≠ [] →
  table_seek_post t ess K (SinkTableIter_seek (Table_iter t) (KeyTs_serialize K)).
Proof.
  intros Hne. unfold SinkTableIter_seek. cbn [Table_iter si_inner si_back_block_iter].
  destruct index_search as (ib & r & Hib & Hlen & Hr & Hpost).
  rewrite Hib. cbn [mbind outcome_bind]. rewrite Hr. cbn [mbind outcome_bind].
  assert (∀ j es, ess !! j = Some es → KeyTs_cmp (base_key es) K ≠ Gt →
    (∀ es', ess !! S j = Some es' → KeyTs_cmp K (base_key es') = Lt) →
    table_seek_post t ess K
      (next_block ← get_block t j;
       '(b, bi) ← SinkBlockIter_seek (Block_iter next_block) (KeyTs_serialize K);
       Ok (b, mkSinkTableIter t (Some bi) None))) as Hin.
  { intros j es Hl Hle Hnext. destruct (seek_in_block j es Hl) as (b & bl & bi & -> & Hsk & Hp).
    cbn [mbind outcome_bind]. rewrite Hsk. right. right. by exists j, es, b, bi. }
  destruct r as [i|i].
  - destruct Hpost as (es & Hl & HbK). cbn [mbind outcome_bind]. apply (Hin i es Hl).
    + rewrite HbK, (cmp_refl KeyTs_cmp). done.
    + intros es' Hl'. rewrite <- HbK. eapply (gs_outer ess Hs i (S i)); [lia|done|done].
  - destruct Hpost as (Hi & Hlo & Hhi). rewrite Hlen. case_if.
    + right. left. split; [done|]. intros es [j Hj]%list_elem_of_lookup.
      apply (Hlo j es); [|done]. apply lookup_lt_Some in Hj. lia.
    + destruct i as [|i].
      * left. split; [done|]. destruct (lookup_lt_is_Some_2 ess 0) as [es Hes]; [lia|].
        exists es. split; [done|]. apply (cmp_gt_lt KeyTs_cmp). apply (Hhi 0 es); [lia|done].
      * rewrite usub_Ok by lia. cbn [mbind outcome_bind]. replace (S i - 1) with i by lia.
        destruct (lookup_lt_is_Some_2 ess i) as [es Hes]; [lia|]. apply (Hin i es Hes).
        { rewrite (Hlo i es) by (lia || done). done. }
        intros es' Hes'. apply (cmp_gt_lt KeyTs_cmp). apply (Hhi (S i) es'); [lia|done].
Qed.

End Seek.

(* ------------------------------------------------------------------ *)
(** ** Building from an iterator *)

Section FromIterator.
Context `{!VarInt, !VarIntLaws, !ChecksumCodec, !Compressor, !Aead, !TableIndexFb}.

Definition l0_item (e : kv) : item :=
  mkItem e (match vptr_len_of e.2 with Ok p => p | _ => None end) false.

(** What survives the dropped prefixes. *)
Definition l0_kept (drop_prefixed : list (list Z)) (kvs : list kv) : list kv :=
  base.filter (λ e : kv, l0_dropped drop_prefixed e.1 = false) kvs.

(** A value flagged as a pointer holds one. *)
Definition pointer_ok (e : kv) : Prop := ∃ p, vptr_len_of e.2 = Ok p.

Lemma build_l0_loop_yields {I} `{!SinkIterator I, !KvSinkIter I} (iter : I) kvs drops fuel tb :
  yields iter kvs → length kvs < fuel → Forall pointer_ok (l0_kept drops kvs) →
  build_l0_loop fuel drops iter tb =
    (tb' ← push_items tb (l0_item <$> l0_kept drops kvs); Ok (Some tb')).
Proof.
  intros Hy. revert fuel tb.
  induction Hy as [it it' Hn|it it' k v kvs Hn Hk Hv Hy IH]; intros [|fuel] tb Hf Hp;
    cbn [length] in Hf; try lia; cbn [build_l0_loop]; rewrite Hn; cbn [mbind outcome_bind]; [done|].
  rewrite Hk. cbn [unwrap mbind outcome_bind]. unfold l0_kept in *. rewrite filter_cons in *.
  cbn [fst] in *. destruct (l0_dropped drops k) eqn:Ed.
  - rewrite decide_False in * by done. apply IH; [lia|done].
  - rewrite decide_True in * by done. apply Forall_cons in Hp as [[p Hp1] Hp2].
    rewrite Hv. cbn [mbind outcome_bind unwrap]. cbn [snd] in Hp1. rewrite Hp1.
    cbn [mbind outcome_bind]. rewrite fmap_cons. unfold push_items. cbn [fold_outcome].
    assert (push_item tb (l0_item (k, v)) = push tb k v p) as ->
      by (unfold push_item, l0_item; cbn [it_stale it_kv it_vptr_len fst snd]; by rewrite Hp1).
    destruct (push tb k v p) as [tb1|e|]; cbn [mbind outcome_bind]; [|done|done].
    apply IH; [lia|done].
Qed.

End FromIterator.

(* ------------------------------------------------------------------ *)
(** ** Theorems *)

(** Seeking in a sorted table: below its first key the code panics; above
    the first key of its last block it answers [false]; otherwise it seeks in the
    last block whose first key is not above the sought key, landing on the first
    entry of that block that is not below it. *)
Theorem table_seek_cases
    `{!VarInt, !VarIntLaws, !ChecksumCodec, !Compressor, !Aead, !TableIndexFb} t ess K :
  table_repr t (ser_entries <$> ess) → groups_sorted ess → ess ≠ [] → kt_ok K →
  Forall (seek_safe K) ess →
  table_seek_post t ess K (SinkTableIter_seek (Table_iter t) (KeyTs_serialize K)).
Proof. intros. by apply table_seek_ok. Qed.

(** Building a level-0 table from an iterator terminates after one turn per
    entry, keeps exactly the entries whose key has none of the dropped prefixes,
    and the file it finishes into opens as a table that iterates them. *)
Theorem build_l0_table_keeps
    `{!VarInt, !VarIntLaws, !ChecksumCodec, !ChecksumLaws, !Compressor, !CompressorLaws}
    `{!Aead, !AeadLaws, !TableIndexFb, !TableIndexFbLaws}
    {I} `{!SinkIterator I, !KvSinkIter I} (iter : I) kvs drops config cipher :
  yields iter kvs → Forall pointer_ok (l0_kept drops kvs) → l0_kept drops kvs ≠ [] →
  items_fit config (l0_item <$> l0_kept drops kvs) →
  tc_block_size config ≠ 0 ∨ tc_compression config = CNone →
  ∃ tb, build_l0_table (S (length kvs)) iter drops config cipher = Ok (Some tb) ∧
    ∀ tid file, TableBuilder_finish tb = Ok file → in_width 32 (Z.of_nat (length file)) →
      ∃ t, Table_open config tid file cipher (λ _, None) None = Ok t ∧
        drain (S (length kvs)) (Table_iter t) = Ok (Some (l0_kept drops kvs)).
Proof.
  intros Hy Hp Hne Hfit Hcfg.
  destruct (push_items_inv config cipher _ Hfit) as (tb & gs & cur & Hpush & _).
  exists tb. split.
  { unfold build_l0_table. rewrite (build_l0_loop_yields iter kvs) by (done || lia).
    by rewrite Hpush. }
  intros tid file Hfin Hlen.
  destruct (build_table_open config cipher tid (λ _, None) None (l0_item <$> l0_kept drops kvs) file)
    as (t & gs' & k0 & v0 & kl & vl & ib & Ho & Hr & Hcat & _); try done.
  { by destruct (l0_kept drops kvs). }
  { unfold build_table. by rewrite Hpush. }
  exists t. split; [done|].
  assert (it_kv <$> (l0_item <$> l0_kept drops kvs) = l0_kept drops kvs) as Hid.
  { rewrite <- list_fmap_compose. apply list_fmap_id. }
  rewrite Hid in Hcat. rewrite <- Hcat. apply drain_yields; [by apply table_iter_yields|].
  rewrite Hcat. unfold l0_kept.
  pose proof (length_filter (λ e : kv, l0_dropped drops e.1 = false) kvs). lia.
Qed.

(** ** Witnesses *)

Module SeekExamples.
Import BuildExamples.

Definition vmt (v : list Z) : ValueMeta := mkValueMeta v 0 0 0.

(** The entries of [BuildExamples.its], by block. *)
Definition ess : list (list (KeyTs * ValueMeta)) :=
  [[(mkKeyTs [1; 2; 1] 5, vmt [9; 9]); (mkKeyTs [1; 2; 2] 7, vmt [8])];
   [(mkKeyTs [1; 2; 3] 2, vmt (replicate 20 4))]; [(mkKeyTs [1; 2; 4] 1, vmt [])]]%Z.

Definition plain_file : list Z := get_file (build_table plain_config None its).

Definition the_table : Table :=
  match Table_open plain_config 1 plain_file None (λ _, None) None with
  | Ok t => t
  | _ => mkTable 0 [] 0 KeyTs_default KeyTs_default (mkCheapTableIndex 0 0 0 0 0 0 0) None
           (λ _, None) None 0 0 plain_config
  end.

(** A block whose bytes, index and offsets are computed holds its group. *)
Lemma block_repr_compute b g :
  take (length (concat (chunks g))) (bk_data b) = concat (chunks g) →
  bk_entries_index_start b = length (concat (chunks g)) →
  bk_entry_offsets b = offsets (chunks g) → block_repr b g.
Proof.
  intros Ht Hs Ho. split_and!; [|done|done].
  exists (drop (length (concat (chunks g))) (bk_data b)). by rewrite <- Ht at 1; rewrite take_drop.
Defined.

Lemma the_table_repr : table_repr the_table (ser_entries <$> ess).
Proof.
  split.
  - repeat (apply Forall_cons; split; [split; [discriminate|split;
      [repeat (apply Forall_cons; split; [vm_compute; repeat constructor; congruence|]); constructor
      |vm_compute; split; congruence]]|]). constructor.
  - vm_compute. reflexivity.
  - intros [|[|[|j]]] g Hg; cbn in Hg; simplify_eq;
      (eexists; split; [vm_compute; reflexivity|]; split; [|reflexivity]);
      apply block_repr_compute; vm_compute; reflexivity.
  - eexists. split; vm_compute; reflexivity.
Defined.

Lemma ess_sorted : groups_sorted ess.
Proof.
  split.
  - repeat constructor; discriminate.
  - repeat (apply Forall_cons; split;
      [repeat (apply Forall_cons; split; [split; vm_compute; [|split]; congruence|]); constructor|]).
    constructor.
  - repeat (apply Forall_cons; split;
      [intros [|[|i]] [|[|j]] a c Hij Ha Hc; try lia; cbn in *; simplify_eq; reflexivity|]).
    constructor.
  - intros [|[|[|i]]] [|[|[|j]]] a c Hij Ha Hc; try lia; cbn in *; simplify_eq; reflexivity.
Defined.

Lemma table_seek_witness :
  table_seek_post the_table ess (mkKeyTs [1; 2; 1]%Z 1)
    (SinkTableIter_seek (Table_iter the_table) (KeyTs_serialize (mkKeyTs [1; 2; 1]%Z 1))).
Proof.
  apply (table_seek_cases the_table ess (mkKeyTs [1; 2; 1]%Z 1)).
  - apply the_table_repr.
  - apply ess_sorted.
  - discriminate.
  - split; vm_compute; [|split]; congruence.
  - repeat (apply Forall_cons; split;
      [intros [|[|i]] e He; cbn in He; simplify_eq; vm_compute; lia|]). constructor.
Defined.

(** In a table of one block that holds two keys, [seek] does not find the second:
    the search for a first key above it runs off the index. *)
Definition seek_second : outcome bool :=
  t ← Table_open plain_config 1 (get_file (build_table plain_config None (take 2 its))) None
        (λ _, None) None;
  '(b, _) ← SinkTableIter_seek (Table_iter t) (KeyTs_serialize (mkKeyTs [1; 2; 2]%Z 7));
  Ok b.

Example seek_misses_last_block :
  it_kv <$> last (take 2 its) = Some (KeyTs_serialize (mkKeyTs [1; 2; 2]%Z 7), vmt [8]%Z) ∧
  seek_second = Ok false.
Proof. vm_compute. split; reflexivity. Qed.

(** Seeking below the first key panics. *)
Example seek_below_panics :
  SinkTableIter_seek (Table_iter the_table) (KeyTs_serialize (mkKeyTs [1; 2]%Z 9)) = Panic.
Proof. vm_compute. reflexivity. Qed.

Definition drops : list (list Z) := [[0; 0; 0; 0; 0; 0; 0; 1]]%Z.

Lemma build_l0_witness :
  ∃ tb, build_l0_table 4 (TestIter_new 3) drops plain_config None = Ok (Some tb).
Proof.
  destruct (build_l0_table_keeps (TestIter_new 3) (test_item <$> seq 0 3) drops plain_config None)
    as (tb & Htb & _).
  - apply TestIter_yields; lia.
  - repeat (apply Forall_cons; split; [eexists; reflexivity|]). constructor.
  - vm_compute. discriminate.
  - split; [|vm_compute; reflexivity].
    repeat (apply Forall_cons; split; [vm_compute; repeat constructor; congruence|]). constructor.
  - right. reflexivity.
  - by exists tb.
Defined.

End SeekExamples.
