(* ===== verification/TableIter.v ===== *)
(** * TableIter: iterators over several tables

    [SinkTableConcatIter] and [SinkMergeIter] of src/src/table/iter.rs: one
    iterator after the other, and the merge of a list of iterators as a binary tree
    of nodes.  The loops of the merge run for at most [turns] turns, and the calls
    go down at most [d] merges of the tree, whose shape never changes; past these
    bounds the answer is the error [out_of_turns]. *)
From stdpp Require Import base list strings.
From Stdlib Require Import ZArith Lia.
From S2P Require Import Prelude Util VarInt Kv Iter Pb Storage Block Table.

Local Open Scope nat_scope.

Definition out_of_turns : error := EMsg "out of turns".

(** ** SinkTableConcatIter *)

Record SinkTableConcatIter : Type := mkConcat {
  cc_index : option nat;
  cc_back_index : option nat;
  cc_iters : list (option SinkTableIter);
  cc_tables : list Table
}.

Definition with_iters (c : SinkTableConcatIter) (iters : list (option SinkTableIter)) : SinkTableConcatIter :=
  mkConcat (cc_index c) (cc_back_index c) iters (cc_tables c).

Definition with_index (c : SinkTableConcatIter) (index : option nat) : SinkTableConcatIter :=
  mkConcat index (cc_back_index c) (cc_iters c) (cc_tables c).

Definition SinkTableConcatIter_new (tables : list Table) : SinkTableConcatIter :=
  mkConcat None None (replicate (length tables) None) tables.

Definition concat_item (c : SinkTableConcatIter) : option SinkTableIter :=
  index ← cc_index c; s ← cc_iters c !! index; s.

Definition concat_item_back (c : SinkTableConcatIter) : option SinkTableIter :=
  index ← cc_back_index c; s ← cc_iters c !! index; s.

(** ** SinkMergeIter: the tree of nodes *)

Inductive SinkMergeNodeIter : Type :=
| NodeTable (iter : SinkTableIter)
| NodeTableConcat (iter : SinkTableConcatIter)
| NodeMerge (iter : SinkMergeIter)
with SinkMergeNode : Type :=
| mkMergeNode (valid valid_back : bool) (iter : SinkMergeNodeIter)
with SinkMergeIter : Type :=
| mkMerge (left : SinkMergeNode) (right : option SinkMergeNode) (temp_key back_temp_key : list Z)
    (left_small back_left_big : bool).

Definition mn_valid (n : SinkMergeNode) : bool := let 'mkMergeNode v _ _ := n in v.
Definition mn_valid_back (n : SinkMergeNode) : bool := let 'mkMergeNode _ v _ := n in v.
Definition mn_iter (n : SinkMergeNode) : SinkMergeNodeIter := let 'mkMergeNode _ _ it := n in it.
Definition mg_left (m : SinkMergeIter) : SinkMergeNode := let 'mkMerge l _ _ _ _ _ := m in l.
Definition mg_right (m : SinkMergeIter) : option SinkMergeNode := let 'mkMerge _ r _ _ _ _ := m in r.
Definition mg_temp_key (m : SinkMergeIter) : list Z := let 'mkMerge _ _ t _ _ _ := m in t.
Definition mg_back_temp_key (m : SinkMergeIter) : list Z := let 'mkMerge _ _ _ t _ _ := m in t.
Definition mg_left_small (m : SinkMergeIter) : bool := let 'mkMerge _ _ _ _ s _ := m in s.
Definition mg_back_left_big (m : SinkMergeIter) : bool := let 'mkMerge _ _ _ _ _ b := m in b.

Definition with_left (m : SinkMergeIter) (n : SinkMergeNode) : SinkMergeIter :=
  let 'mkMerge _ r t bt s b := m in mkMerge n r t bt s b.
Definition with_right (m : SinkMergeIter) (n : SinkMergeNode) : SinkMergeIter :=
  let 'mkMerge l _ t bt s b := m in mkMerge l (Some n) t bt s b.
Definition with_temp_key (m : SinkMergeIter) (k : list Z) : SinkMergeIter :=
  let 'mkMerge l r _ bt s b := m in mkMerge l r k bt s b.
Definition with_back_temp_key (m : SinkMergeIter) (k : list Z) : SinkMergeIter :=
  let 'mkMerge l r t _ s b := m in mkMerge l r t k s b.
Definition flip_left_small (m : SinkMergeIter) : SinkMergeIter :=
  let 'mkMerge l r t bt s b := m in mkMerge l r t bt (negb s) b.
Definition flip_back_left_big (m : SinkMergeIter) : SinkMergeIter :=
  let 'mkMerge l r t bt s b := m in mkMerge l r t bt s (negb b).

(** [From<S> for SinkMergeNode] *)
Definition MergeNode_from (it : SinkMergeNodeIter) : SinkMergeNode := mkMergeNode true true it.

(** [SinkMergeIter::new]; the halves of a list of three or more are shorter, so the
    length of the list bounds the recursion. *)
Fixpoint merge_new_loop (fuel : nat) (iters : list SinkMergeNodeIter) : option SinkMergeIter :=
  let new left right := mkMerge left right [] [] true true in
  match fuel, iters with
  | _, [] => None
  | _, [it] => Some (new (MergeNode_from it) None)
  | _, [l; r] => Some (new (MergeNode_from l) (Some (MergeNode_from r)))
  | 0, _ => None
  | S fuel, _ =>
      let mid := length iters / 2 in
      l ← merge_new_loop fuel (take mid iters);
      r ← merge_new_loop fuel (drop mid iters);
      Some (new (MergeNode_from (NodeMerge l)) (Some (MergeNode_from (NodeMerge r))))
  end.

Definition SinkMergeIter_new (iters : list SinkMergeNodeIter) : option SinkMergeIter :=
  merge_new_loop (length iters) iters.

(** The node the forward and the backward direction read from, and the other one. *)
Definition smaller (m : SinkMergeIter) : outcome SinkMergeNode :=
  if mg_left_small m then Ok (mg_left m) else unwrap (mg_right m).
Definition bigger (m : SinkMergeIter) : outcome SinkMergeNode :=
  if mg_left_small m then unwrap (mg_right m) else Ok (mg_left m).
Definition back_bigger (m : SinkMergeIter) : outcome SinkMergeNode :=
  if mg_back_left_big m then Ok (mg_left m) else unwrap (mg_right m).
Definition back_smaller (m : SinkMergeIter) : outcome SinkMergeNode :=
  if mg_back_left_big m then unwrap (mg_right m) else Ok (mg_left m).

(** Storing back through [smaller_mut], [bigger_mut] and their backward versions. *)
Definition set_smaller (m : SinkMergeIter) (n : SinkMergeNode) : SinkMergeIter :=
  if mg_left_small m then with_left m n else with_right m n.
Definition set_bigger (m : SinkMergeIter) (n : SinkMergeNode) : SinkMergeIter :=
  if mg_left_small m then with_right m n else with_left m n.
Definition set_back_bigger (m : SinkMergeIter) (n : SinkMergeNode) : SinkMergeIter :=
  if mg_back_left_big m then with_left m n else with_right m n.
Definition set_back_smaller (m : SinkMergeIter) (n : SinkMergeNode) : SinkMergeIter :=
  if mg_back_left_big m then with_right m n else with_left m n.

(** [SinkMergeIter::valid] *)
Definition merge_valid (m : SinkMergeIter) : outcome bool := n ← smaller m; Ok (mn_valid n).

(** [Option<KeyTsBorrow>::cmp]: no key is below every key. *)
Definition key_opt_cmp (a b : option (list Z)) : comparison :=
  match a, b with
  | None, None => Eq
  | None, Some _ => Lt
  | Some _, None => Gt
  | Some a, Some b => kb_cmp a b
  end.

Section TableIterCode.
Context `{!VarInt, !ChecksumCodec, !Compressor, !Aead, !TableIndexFb}.

#[export] Instance Concat_kv : KvSinkIter SinkTableConcatIter := {|
  iter_key c := it ← concat_item c; iter_key it;
  iter_value c := match concat_item c with Some it => iter_value it | None => Ok None end
|}.

#[export] Instance Concat_kv_back : KvDoubleEndedSinkIter SinkTableConcatIter := {|
  iter_key_back c := it ← concat_item_back c; iter_key it;
  iter_value_back c := match concat_item_back c with Some it => iter_value it | None => Ok None end
|}.

Definition concat_double_ended_eq (c : SinkTableConcatIter) : outcome bool :=
  if bool_decide (iter_key c = iter_key_back c) then
    v ← iter_value c;
    bv ← iter_value_back c;
    Ok (bool_decide (v = bv))
  else Ok false.

(** The end of [next] and [next_back]: entering the table at [new_index]. *)
Definition concat_enter (step : SinkTableIter → outcome (bool * SinkTableIter)) (c : SinkTableConcatIter)
    (new_index : nat) : outcome (bool * SinkTableConcatIter) :=
  table ← unwrap (cc_tables c !! new_index);
  '(b, iter) ← step (Table_iter table);
  if (b : bool) then
    let c := with_iters c (<[new_index := Some iter]> (cc_iters c)) in
    r ← negated (concat_double_ended_eq c);
    Ok (r, c)
  else Ok (false, c).

#[export] Instance Concat_next : SinkIterator SinkTableConcatIter := λ c,
  eq ← concat_double_ended_eq c;
  if (eq : bool) then Ok (false, c)
  else
    match cc_index c with
    | Some index =>
        slot ← idx (cc_iters c) index;
        match slot with
        | Some cur =>
            '(b, cur) ← next cur;
            let c := with_iters c (<[index := Some cur]> (cc_iters c)) in
            if (b : bool) then r ← negated (concat_double_ended_eq c); Ok (r, c)
            else
              last ← usub (length (cc_tables c)) 1;
              if index =? last then Ok (false, c) else concat_enter next c (index + 1)
        | None => concat_enter next c index
        end
    | None => if length (cc_tables c) =? 0 then Ok (false, c) else concat_enter next c 0
    end.

(** [next_back]: the current iterator is moved with [next], and the table entered
    after one that is exhausted is the first. *)
#[export] Instance Concat_next_back : DoubleEndedSinkIterator SinkTableConcatIter := λ c,
  eq ← concat_double_ended_eq c;
  if (eq : bool) then Ok (false, c)
  else
    match cc_back_index c with
    | Some back_index =>
        slot ← idx (cc_iters c) back_index;
        match slot with
        | Some cur =>
            '(b, cur) ← next cur;
            let c := with_iters c (<[back_index := Some cur]> (cc_iters c)) in
            if (b : bool) then r ← negated (concat_double_ended_eq c); Ok (r, c)
            else if back_index =? 0 then Ok (false, c) else concat_enter next_back c 0
        | None => concat_enter next_back c back_index
        end
    | None =>
        if length (cc_tables c) =? 0 then Ok (false, c)
        else concat_enter next_back c (length (cc_tables c) - 1)
    end.

Definition Concat_seek (c : SinkTableConcatIter) (k : list Z) : outcome (bool * SinkTableConcatIter) :=
  r ← binary_search_by (cc_tables c) (λ t, Ok (KeyTs_cmp_borrow (t_biggest t) k));
  let index := match r with Found i | NotFound i => i end in
  if index =? length (cc_tables c) then Ok (false, c)
  else
    slot ← idx (cc_iters c) index;
    match slot with
    | Some cur =>
        '(b, cur) ← SinkTableIter_seek cur k;
        Ok (b, with_iters c (<[index := Some cur]> (cc_iters c)))
    | None =>
        table ← idx (cc_tables c) index;
        '(b, iter) ← SinkTableIter_seek (Table_iter table) k;
        if (b : bool) then
          Ok (true, with_iters (with_index c (Some index)) (<[index := Some iter]> (cc_iters c)))
        else Ok (false, c)
    end.

(** ** The keys and values of the nodes *)

Fixpoint node_iter_key (it : SinkMergeNodeIter) : outcome (option (list Z)) :=
  match it with
  | NodeTable it => Ok (iter_key it)
  | NodeTableConcat c => Ok (iter_key c)
  | NodeMerge m => merge_key m
  end
with node_key (n : SinkMergeNode) : outcome (option (list Z)) :=
  match n with mkMergeNode valid _ it => if valid then node_iter_key it else Ok None end
with merge_key (m : SinkMergeIter) : outcome (option (list Z)) :=
  match m with
  | mkMerge l r _ _ left_small _ =>
      if left_small then node_key l else match r with Some r => node_key r | None => Panic end
  end.

Fixpoint node_iter_value (it : SinkMergeNodeIter) : outcome (option ValueMeta) :=
  match it with
  | NodeTable it => iter_value it
  | NodeTableConcat c => iter_value c
  | NodeMerge m => merge_value m
  end
with node_value (n : SinkMergeNode) : outcome (option ValueMeta) :=
  match n with mkMergeNode valid _ it => if valid then node_iter_value it else Ok None end
with merge_value (m : SinkMergeIter) : outcome (option ValueMeta) :=
  match m with
  | mkMerge l r _ _ left_small _ =>
      if left_small then node_value l else match r with Some r => node_value r | None => Panic end
  end.

Fixpoint node_iter_key_back (it : SinkMergeNodeIter) : outcome (option (list Z)) :=
  match it with
  | NodeTable it => Ok (iter_key_back it)
  | NodeTableConcat c => Ok (iter_key_back c)
  | NodeMerge m => merge_key_back m
  end
with node_key_back (n : SinkMergeNode) : outcome (option (list Z)) :=
  match n with mkMergeNode _ valid_back it => if valid_back then node_iter_key_back it else Ok None end
with merge_key_back (m : SinkMergeIter) : outcome (option (list Z)) :=
  match m with
  | mkMerge l r _ _ _ back_left_big =>
      if back_left_big then node_key_back l else match r with Some r => node_key_back r | None => Panic end
  end.

Fixpoint node_iter_value_back (it : SinkMergeNodeIter) : outcome (option ValueMeta) :=
  match it with
  | NodeTable it => iter_value_back it
  | NodeTableConcat c => iter_value_back c
  | NodeMerge m => merge_value_back m
  end
with node_value_back (n : SinkMergeNode) : outcome (option ValueMeta) :=
  match n with mkMergeNode _ valid_back it => if valid_back then node_iter_value_back it else Ok None end
with merge_value_back (m : SinkMergeIter) : outcome (option ValueMeta) :=
  match m with
  | mkMerge l r _ _ _ back_left_big =>
      if back_left_big then node_value_back l else match r with Some r => node_value_back r | None => Panic end
  end.

(** ** Moving a node and a merge, given how to move the iterator of a node *)

Abbreviation moves := (SinkMergeNodeIter → outcome (bool * SinkMergeNodeIter)).

Definition node_next (nx : moves) (n : SinkMergeNode) : outcome (bool * SinkMergeNode) :=
  let 'mkMergeNode valid valid_back it := n in
  '(b, it) ← nx it;
  Ok (b, mkMergeNode (if (b : bool) then valid else false) valid_back it).

Definition node_next_back (nx : moves) (n : SinkMergeNode) : outcome (bool * SinkMergeNode) :=
  let 'mkMergeNode valid valid_back it := n in
  '(b, it) ← nx it;
  Ok (b, mkMergeNode valid (if (b : bool) then valid_back else false) it).

(** What [next] does when [smaller] was moved to [true] and [bigger] is valid. *)
Definition order_nodes (nx : moves) (m : SinkMergeIter) : outcome SinkMergeIter :=
  b ← bigger m;
  bk ← node_key b;
  '(go, m) ← (match bk with None => '(b', n) ← node_next nx b; Ok (b', set_bigger m n) | Some _ => Ok (true, m) end);
  if (go : bool) then
    s ← smaller m; sk ← node_key s;
    b ← bigger m; bk ← node_key b;
    match key_opt_cmp sk bk with
    | Lt => Ok m
    | Eq => '(_, n) ← node_next nx b; Ok (set_bigger m n)
    | Gt => Ok (flip_left_small m)
    end
  else Ok m.

(** One turn of [while self.smaller().valid { .. }]: the answer, or the state for
    the next turn. *)
Definition merge_turn (nx : moves) (m : SinkMergeIter) : outcome (option bool * SinkMergeIter) :=
  s ← smaller m;
  if mn_valid s then
    k ← node_key s;
    let fresh := match k with Some k => negb (bool_decide (mg_temp_key m = k)) | None => false end in
    if fresh then
      let k := default [] k in
      if negb (bool_decide (mg_back_temp_key m = [])) && bool_decide (mg_back_temp_key m = k)
      then Ok (Some false, m)
      else Ok (Some true, with_temp_key m k)
    else
      '(result, n) ← node_next nx s;
      let m := set_smaller m n in
      b ← bigger m;
      if mn_valid b then
        if (result : bool) then m ← order_nodes nx m; Ok (None, m)
        else Ok (None, flip_left_small m)
      else Ok (None, m)
  else Ok (Some false, m).

Fixpoint merge_loop (turns : nat) (nx : moves) (m : SinkMergeIter) : outcome (bool * SinkMergeIter) :=
  match turns with
  | 0 => Err out_of_turns
  | S turns =>
      '(r, m) ← merge_turn nx m;
      match r with Some b => Ok (b, m) | None => merge_loop turns nx m end
  end.

(** The same for [next_back], with its test of [valid] and of equal keys. *)
Definition order_nodes_back (nx : moves) (m : SinkMergeIter) : outcome SinkMergeIter :=
  s ← back_smaller m;
  sk ← node_key_back s;
  '(go, m) ← (match sk with None => '(b', n) ← node_next_back nx s; Ok (b', set_back_smaller m n) | Some _ => Ok (true, m) end);
  if (go : bool) then
    b ← back_bigger m; bk ← node_key_back b;
    s ← back_smaller m; sk ← node_key_back s;
    match key_opt_cmp bk sk with
    | Lt => Ok (flip_back_left_big m)
    | Eq => '(_, n) ← node_next_back nx s; Ok (set_back_smaller m n)
    | Gt => Ok m
    end
  else Ok m.

Definition merge_turn_back (nx : moves) (m : SinkMergeIter) : outcome (option bool * SinkMergeIter) :=
  b ← back_bigger m;
  if mn_valid b then
    k ← node_key_back b;
    let same := match k with Some k => bool_decide (mg_back_temp_key m = k) | None => false end in
    if same then
      let k := default [] k in
      if negb (bool_decide (mg_temp_key m = [])) && bool_decide (mg_temp_key m = k)
      then Ok (Some false, m)
      else Ok (Some true, with_back_temp_key m k)
    else
      '(result, n) ← node_next_back nx b;
      let m := set_back_bigger m n in
      s ← back_smaller m;
      if mn_valid s then
        if (result : bool) then m ← order_nodes_back nx m; Ok (None, m)
        else Ok (None, flip_back_left_big m)
      else Ok (None, m)
  else Ok (Some false, m).

Fixpoint merge_loop_back (turns : nat) (nx : moves) (m : SinkMergeIter) : outcome (bool * SinkMergeIter) :=
  match turns with
  | 0 => Err out_of_turns
  | S turns =>
      '(r, m) ← merge_turn_back nx m;
      match r with Some b => Ok (b, m) | None => merge_loop_back turns nx m end
  end.

(** [SinkMergeNodeIter as SinkIterator], down at most [d] merges. *)
Fixpoint node_iter_next (turns d : nat) (it : SinkMergeNodeIter) : outcome (bool * SinkMergeNodeIter) :=
  match it, d with
  | NodeTable it, _ => '(b, it) ← next it; Ok (b, NodeTable it)
  | NodeTableConcat c, _ => '(b, c) ← next c; Ok (b, NodeTableConcat c)
  | NodeMerge m, 0 => Err out_of_turns
  | NodeMerge m, S d => '(b, m) ← merge_loop turns (node_iter_next turns d) m; Ok (b, NodeMerge m)
  end.

Fixpoint node_iter_next_back (turns d : nat) (it : SinkMergeNodeIter) : outcome (bool * SinkMergeNodeIter) :=
  match it, d with
  | NodeTable it, _ => '(b, it) ← next_back it; Ok (b, NodeTable it)
  | NodeTableConcat c, _ => '(b, c) ← next_back c; Ok (b, NodeTableConcat c)
  | NodeMerge m, 0 => Err out_of_turns
  | NodeMerge m, S d => '(b, m) ← merge_loop_back turns (node_iter_next_back turns d) m; Ok (b, NodeMerge m)
  end.

(** [SinkMergeIter as SinkIterator] and [DoubleEndedSinkIterator]. *)
Definition Merge_next (turns d : nat) (m : SinkMergeIter) : outcome (bool * SinkMergeIter) :=
  merge_loop turns (node_iter_next turns d) m.

Definition Merge_next_back (turns d : nat) (m : SinkMergeIter) : outcome (bool * SinkMergeIter) :=
  merge_loop_back turns (node_iter_next_back turns d) m.

(** [seek], with its test of [smaller] the wrong way round. *)
Definition seek_order (nx : moves) (m : SinkMergeIter) : outcome SinkMergeIter :=
  b ← bigger m;
  if mn_valid b then
    s ← smaller m;
    if mn_valid s then Ok (flip_left_small m)
    else
      bk ← node_key b;
      m ← (match bk with None => '(_, n) ← node_next nx b; Ok (set_bigger m n) | Some _ => Ok m end);
      b ← bigger m; bk ← node_key b;
      match bk with
      | Some _ =>
          s ← smaller m; sk ← node_key s;
          match key_opt_cmp sk bk with
          | Lt => Ok m
          | Eq => '(_, n) ← node_next nx b; Ok (set_bigger m n)
          | Gt => Ok (flip_left_small m)
          end
      | None => Ok m
      end
  else Ok m.

Definition node_seek (sk : SinkMergeNodeIter → list Z → outcome (bool * SinkMergeNodeIter)) (n : SinkMergeNode)
    (k : list Z) : outcome (bool * SinkMergeNode) :=
  let 'mkMergeNode valid valid_back it := n in
  '(b, it) ← sk it k;
  Ok (b, mkMergeNode valid valid_back it).

Definition merge_seek (nx : moves) (sk : SinkMergeNodeIter → list Z → outcome (bool * SinkMergeNodeIter))
    (m : SinkMergeIter) (k : list Z) : outcome (bool * SinkMergeIter) :=
  '(l, n) ← node_seek sk (mg_left m) k;
  let m := with_left m n in
  '(r, m) ← match mg_right m with
            | Some r => '(b, n) ← node_seek sk r k; Ok (b, with_right m n)
            | None => Ok (false, m)
            end;
  m ← seek_order nx m;
  if (l : bool) || (r : bool) then
    ok ← merge_key m;
    key ← unwrap ok;
    Ok (true, with_temp_key m key)
  else Ok (false, m).

Fixpoint node_iter_seek (turns d : nat) (it : SinkMergeNodeIter) (k : list Z) :
    outcome (bool * SinkMergeNodeIter) :=
  match it, d with
  | NodeTable it, _ => '(b, it) ← SinkTableIter_seek it k; Ok (b, NodeTable it)
  | NodeTableConcat c, _ => '(b, c) ← Concat_seek c k; Ok (b, NodeTableConcat c)
  | NodeMerge m, 0 => Err out_of_turns
  | NodeMerge m, S d =>
      '(b, m) ← merge_seek (node_iter_next turns d) (node_iter_seek turns d) m k; Ok (b, NodeMerge m)
  end.

Definition Merge_seek (turns d : nat) (m : SinkMergeIter) (k : list Z) : outcome (bool * SinkMergeIter) :=
  merge_seek (node_iter_next turns d) (node_iter_seek turns d) m k.

End TableIterCode.
