(* ===== verification/TableMerge.v ===== *)
(** * TableMerge: what the iterators over several tables produce

    The merge of TableIter.v goes through the sorted union of its iterators when
    their number is a power of two from 2 on, and panics at its first move for any
    other number, because a merge of a single iterator looks at a node that is not
    there.  A concatenation of tables produces nothing. *)
From stdpp Require Import base list strings sorting sets.
From Stdlib Require Import ZArith Lia.
From S2P Require Import Prelude Util VarInt Kv Iter Pb Storage Block Table TableBuild TableSeek TableIter.

Local Open Scope nat_scope.

(** ** What an iterator runs through *)

Abbreviation version := (KeyTs * ValueMeta)%type.

Definition version_lt (a b : version) : Prop := KeyTs_cmp a.1 b.1 = Lt.

(** A key that is not empty, with a version of 64 bits. *)
Definition version_ok (e : version) : Prop := kt_key e.1 ≠ [] ∧ in_width 64 (kt_ts e.1).

Definition sorted_versions (es : list version) : Prop := StronglySorted version_lt es ∧ Forall version_ok es.

Definition version_key (o : option version) : option (list Z) := (λ e, KeyTs_serialize e.1) <$> o.

(** The current item is [cur], and repeated moves show the items of [rest] and then
    answer [false]. *)
Fixpoint runs {X} (key : X → outcome (option (list Z))) (value : X → outcome (option ValueMeta))
    (nx : X → outcome (bool * X)) (x : X) (cur : option version) (rest : list version) : Prop :=
  key x = Ok (version_key cur) ∧ value x = Ok (snd <$> cur) ∧
  match rest with
  | [] => ∃ x', nx x = Ok (false, x')
  | e :: rest => ∃ x', nx x = Ok (true, x') ∧ runs key value nx x' (Some e) rest
  end.

(** A sorted union of two lists, which takes one of two items with equal keys. *)
Inductive merges : list version → list version → list version → Prop :=
| merges_nil_l b : merges [] b b
| merges_nil_r a : merges a [] a
| merges_lt x a y b ms : KeyTs_cmp x.1 y.1 = Lt → merges a (y :: b) ms → merges (x :: a) (y :: b) (x :: ms)
| merges_gt x a y b ms : KeyTs_cmp x.1 y.1 = Gt → merges (x :: a) b ms → merges (x :: a) (y :: b) (y :: ms)
| merges_eq_l x a y b ms : KeyTs_cmp x.1 y.1 = Eq → merges a b ms → merges (x :: a) (y :: b) (x :: ms)
| merges_eq_r x a y b ms : KeyTs_cmp x.1 y.1 = Eq → merges a b ms → merges (x :: a) (y :: b) (y :: ms).

Lemma KeyTs_cmp_flip a b : KeyTs_cmp b a = CompOpp (KeyTs_cmp a b).
Proof. apply cmp_antisym. Qed.

Lemma merges_sym a b ms : merges a b ms → merges b a ms.
Proof.
  induction 1 as [| |x a y b ms E H IH|x a y b ms E H IH|x a y b ms E H IH|x a y b ms E H IH].
  - constructor.
  - constructor.
  - apply merges_gt; [by rewrite KeyTs_cmp_flip, E|done].
  - apply merges_lt; [by rewrite KeyTs_cmp_flip, E|done].
  - apply merges_eq_r; [by rewrite KeyTs_cmp_flip, E|done].
  - apply merges_eq_l; [by rewrite KeyTs_cmp_flip, E|done].
Qed.

Lemma merges_nil_inv a ms : merges a [] ms → ms = a.
Proof. by inversion 1. Qed.

Lemma merges_elem a b ms : merges a b ms → ∀ x, x ∈ ms → x ∈ a ∨ x ∈ b.
Proof. induction 1; set_solver. Qed.

Lemma merges_cover a b ms : merges a b ms → ∀ x, x ∈ a ∨ x ∈ b → ∃ y, y ∈ ms ∧ y.1 = x.1.
Proof.
  induction 1 as [b|a|x a y b ms E H IH|x a y b ms E H IH|x a y b ms E H IH|x a y b ms E H IH]; intros z Hz.
  - exists z. set_solver.
  - exists z. set_solver.
  - destruct (decide (z = x)) as [->|Hne]; [exists x; set_solver|]. destruct (IH z) as (w & ? & ?); [set_solver|].
    exists w. set_solver.
  - destruct (decide (z = y)) as [->|Hne]; [exists y; set_solver|]. destruct (IH z) as (w & ? & ?); [set_solver|].
    exists w. set_solver.
  - apply cmp_eq in E. destruct (decide (z = x)) as [->|Hx]; [exists x; set_solver|].
    destruct (decide (z = y)) as [->|Hy]; [exists x; set_solver|].
    destruct (IH z) as (w & ? & ?); [set_solver|]. exists w. set_solver.
  - apply cmp_eq in E. destruct (decide (z = x)) as [->|Hx]; [exists y; set_solver|].
    destruct (decide (z = y)) as [->|Hy]; [exists y; set_solver|].
    destruct (IH z) as (w & ? & ?); [set_solver|]. exists w. set_solver.
Qed.

Lemma sorted_versions_cons x es :
  sorted_versions (x :: es) → version_ok x ∧ sorted_versions es ∧ Forall (version_lt x) es.
Proof. intros [[Hs Hl]%StronglySorted_inv [Hx Hes]%Forall_cons]. done. Qed.

Lemma sorted_versions_nil : sorted_versions [].
Proof. split; constructor. Qed.

Lemma merges_sorted a b ms : sorted_versions a → sorted_versions b → merges a b ms → sorted_versions ms.
Proof.
  intros Ha Hb H. revert Ha Hb.
  assert (∀ x a b ms, version_ok x → sorted_versions ms → merges a b ms → Forall (version_lt x) a → Forall (version_lt x) b →
    sorted_versions (x :: ms)) as Hcons.
  { intros x a' b' ms' Hx [Hs Hok] Hm Ha Hb. split; [|by constructor]. constructor; [done|].
    rewrite Forall_forall in Ha, Hb |- *. intros z [Hz|Hz]%(merges_elem _ _ _ Hm); auto. }
  induction H as [| |x a y b ms E H IH|x a y b ms E H IH|x a y b ms E H IH|x a y b ms E H IH];
    intros Ha Hb; try done;
    destruct (sorted_versions_cons _ _ Ha) as (Hx & Ha' & Hxa), (sorted_versions_cons _ _ Hb) as (Hy & Hb' & Hyb).
  - refine (Hcons x a (y :: b) ms Hx (IH Ha' Hb) H Hxa _). constructor; [done|].
    eapply Forall_impl; [exact Hyb|]. intros z Hz. by eapply (cmp_lt_trans KeyTs_cmp x.1 y.1).
  - assert (version_lt y x) as Hyx by (unfold version_lt; by rewrite KeyTs_cmp_flip, E).
    refine (Hcons y (x :: a) b ms Hy (IH Ha Hb') H _ Hyb). constructor; [done|].
    eapply Forall_impl; [exact Hxa|]. intros z Hz. by eapply (cmp_lt_trans KeyTs_cmp y.1 x.1).
  - apply cmp_eq in E. refine (Hcons x a b ms Hx (IH Ha' Hb') H Hxa _).
    eapply Forall_impl; [exact Hyb|]. intros z Hz. unfold version_lt in *. by rewrite E.
  - apply cmp_eq in E. refine (Hcons y a b ms Hy (IH Ha' Hb') H _ Hyb).
    eapply Forall_impl; [exact Hxa|]. intros z Hz. unfold version_lt in *. by rewrite <- E.
Qed.

(** The serialised keys of items are compared like the keys. *)
Lemma version_key_cmp x y : version_ok x → version_ok y → kb_cmp (KeyTs_serialize x.1) (KeyTs_serialize y.1) = KeyTs_cmp x.1 y.1.
Proof. intros [] []. by apply kb_cmp_serialize. Qed.

Lemma version_key_ne x y :
  version_ok x → version_ok y → version_lt x y → KeyTs_serialize x.1 ≠ KeyTs_serialize y.1.
Proof.
  intros Hx Hy Hlt E. pose proof (version_key_cmp x y Hx Hy) as C. rewrite E, (version_key_cmp y y) in C by done.
  unfold version_lt in Hlt. rewrite Hlt in C. assert (KeyTs_cmp y.1 y.1 = Eq) by (by apply cmp_eq). congruence.
Qed.

Lemma version_key_nonempty (x : version) : KeyTs_serialize x.1 ≠ [].
Proof. intros E%(f_equal length). rewrite length_KeyTs_serialize in E. unfold KeyTs_len in E. cbn in E. lia. Qed.

Section MergeLemmas.
Context `{!VarInt, !ChecksumCodec, !Compressor, !Aead, !TableIndexFb}.
Context (nx : SinkMergeNodeIter → outcome (bool * SinkMergeNodeIter)).

Abbreviation iter_runs := (runs node_iter_key node_iter_value nx).

(** A node that is exhausted, or has a current item and more to come. *)
Definition node_is (n : SinkMergeNode) (st : option (option version * list version)) : Prop :=
  match st with
  | None => mn_valid n = false
  | Some (cur, rest) => mn_valid n = true ∧ iter_runs (mn_iter n) cur rest
  end.

Lemma node_is_key n cur rest : node_is n (Some (cur, rest)) → node_key n = Ok (version_key cur).
Proof. destruct n as [v vb it]. intros [E Hr]. cbn in E. subst v. by destruct rest; destruct Hr. Qed.

Lemma node_is_value n cur rest : node_is n (Some (cur, rest)) → node_value n = Ok (snd <$> cur).
Proof. destruct n as [v vb it]. intros [E Hr]. cbn in E. subst v. by destruct rest; destruct Hr as (_ & ? & _). Qed.

Lemma node_step n cur e rest :
  node_is n (Some (cur, e :: rest)) →
  ∃ n', node_next nx n = Ok (true, n') ∧ node_is n' (Some (Some e, rest)).
Proof.
  destruct n as [v vb it]. intros [E (_ & _ & it' & Hn & Hr)]. cbn in E, Hn, Hr. subst v. unfold node_next. rewrite Hn.
  cbn [mbind outcome_bind]. eexists. split; [done|]. by split.
Qed.

Lemma node_end n cur :
  node_is n (Some (cur, [])) → ∃ n', node_next nx n = Ok (false, n') ∧ node_is n' None.
Proof.
  destruct n as [v vb it]. intros [E (_ & _ & it' & Hn)]. cbn in E, Hn. subst v. unfold node_next. rewrite Hn.
  cbn [mbind outcome_bind]. by eexists.
Qed.

(** A merge by its smaller and its bigger node. *)
Definition merge_state (ls : bool) (s b : SinkMergeNode) (tk : list Z) (bb : bool) : SinkMergeIter :=
  if ls then mkMerge s (Some b) tk [] true bb else mkMerge b (Some s) tk [] false bb.

Lemma state_smaller ls s b tk bb : smaller (merge_state ls s b tk bb) = Ok s.
Proof. by destruct ls. Qed.
Lemma state_bigger ls s b tk bb : bigger (merge_state ls s b tk bb) = Ok b.
Proof. by destruct ls. Qed.
Lemma state_set_smaller ls s b tk bb n : set_smaller (merge_state ls s b tk bb) n = merge_state ls n b tk bb.
Proof. by destruct ls. Qed.
Lemma state_set_bigger ls s b tk bb n : set_bigger (merge_state ls s b tk bb) n = merge_state ls s n tk bb.
Proof. by destruct ls. Qed.
Lemma state_flip ls s b tk bb : flip_left_small (merge_state ls s b tk bb) = merge_state (negb ls) b s tk bb.
Proof. by destruct ls. Qed.
Lemma state_temp ls s b tk bb k : with_temp_key (merge_state ls s b tk bb) k = merge_state ls s b k bb.
Proof. by destruct ls. Qed.
Lemma state_temp_key ls s b tk bb : mg_temp_key (merge_state ls s b tk bb) = tk.
Proof. by destruct ls. Qed.
Lemma state_back_temp_key ls s b tk bb : mg_back_temp_key (merge_state ls s b tk bb) = [].
Proof. by destruct ls. Qed.
Lemma state_key ls s b tk bb : merge_key (merge_state ls s b tk bb) = node_key s.
Proof. by destruct ls. Qed.
Lemma state_value ls s b tk bb : merge_value (merge_state ls s b tk bb) = node_value s.
Proof. by destruct ls. Qed.

Create Rewrite HintDb merge.
Hint Rewrite state_smaller state_bigger state_set_smaller state_set_bigger state_flip state_temp state_temp_key
  state_back_temp_key state_key state_value : merge.

Ltac mstep := repeat (autorewrite with merge; cbn [mbind outcome_bind]).

(** A turn that finds a new key at the smaller node answers [true]. *)
Lemma turn_fresh ls s b tk bb e rest :
  node_is s (Some (Some e, rest)) → tk ≠ KeyTs_serialize e.1 →
  merge_turn nx (merge_state ls s b tk bb) = Ok (Some true, merge_state ls s b (KeyTs_serialize e.1) bb).
Proof.
  intros Hs Hne. unfold merge_turn. mstep. destruct Hs as [Hv Hr]. rewrite Hv.
  rewrite (node_is_key s (Some e) rest) by done. cbn [mbind outcome_bind version_key fmap option_fmap option_map].
  mstep. rewrite bool_decide_eq_false_2 by done. cbn [negb default]. mstep.
  rewrite bool_decide_eq_true_2 by done. done.
Qed.

(** A turn that moves the smaller node: it shows the key answered last, or none. *)
Lemma turn_moves ls s b tk bb cur rest :
  node_is s (Some (cur, rest)) → match cur with Some e => tk = KeyTs_serialize e.1 | None => True end →
  merge_turn nx (merge_state ls s b tk bb) =
    ('(result, n) ← node_next nx s;
     let m := merge_state ls n b tk bb in
     if mn_valid b then
       if (result : bool) then m ← order_nodes nx m; Ok (None, m) else Ok (None, merge_state (negb ls) b n tk bb)
     else Ok (None, m)).
Proof.
  intros Hs Htk. unfold merge_turn. mstep. pose proof Hs as [Hv Hr]. rewrite Hv.
  rewrite (node_is_key s cur rest) by done. cbn [mbind outcome_bind]. mstep.
  assert ((match version_key cur with Some k => negb (bool_decide (tk = k)) | None => false end) = false) as ->.
  { destruct cur; cbn; [|done]. subst tk. by rewrite bool_decide_eq_true_2. }
  destruct (node_next nx s) as [[result n]|e|]; cbn [mbind outcome_bind]; [|done|done]. mstep.
  destruct (mn_valid b), result; mstep; done.
Qed.

Lemma turn_dead ls s b tk bb :
  node_is s None → merge_turn nx (merge_state ls s b tk bb) = Ok (Some false, merge_state ls s b tk bb).
Proof. intros Hs. unfold merge_turn. mstep. by rewrite Hs. Qed.

(** Ordering two nodes that show an item. *)
Lemma order_shown ls s b tk bb x a e br :
  version_ok x → version_ok e → node_is s (Some (Some x, a)) → node_is b (Some (Some e, br)) →
  order_nodes nx (merge_state ls s b tk bb) =
    match KeyTs_cmp x.1 e.1 with
    | Lt => Ok (merge_state ls s b tk bb)
    | Eq => '(_, n) ← node_next nx b; Ok (merge_state ls s n tk bb)
    | Gt => Ok (merge_state (negb ls) b s tk bb)
    end.
Proof.
  intros Hx He Hs Hb. unfold order_nodes. mstep. rewrite (node_is_key b _ _ Hb). cbn [mbind outcome_bind version_key fmap option_fmap option_map].
  mstep. rewrite (node_is_key s _ _ Hs). cbn [mbind outcome_bind]. rewrite (node_is_key b _ _ Hb).
  cbn [mbind outcome_bind version_key fmap option_fmap option_map key_opt_cmp]. rewrite version_key_cmp by done.
  destruct (KeyTs_cmp x.1 e.1); mstep; [|done|done]. destruct (node_next nx b) as [[? ?]| |]; by mstep.
Qed.

(** The items of the bigger node, its current one first. *)
Definition pending (bst : option (option version * list version)) (l : list version) : Prop :=
  match bst with
  | None => l = []
  | Some (Some e, br) => l = e :: br
  | Some (None, _) => False
  end.

Abbreviation merge_runs turns := (runs merge_key merge_value (merge_loop turns nx)).

(** The answer of a call: the least item [e] of [a] and [l], and a merge that shows
    it and goes on with what is left. *)
Definition answers (bb : bool) (r : outcome (bool * SinkMergeIter)) (a l : list version) : Prop :=
  ∃ e a' l' ls s b bst,
    r = Ok (true, merge_state ls s b (KeyTs_serialize e.1) bb) ∧
    version_ok e ∧ sorted_versions a' ∧ sorted_versions l' ∧ Forall (version_lt e) a' ∧ Forall (version_lt e) l' ∧
    node_is s (Some (Some e, a')) ∧ node_is b bst ∧ pending bst l' ∧ length a' + length l' < length a + length l ∧
    ∀ ms, merges a' l' ms → merges a l (e :: ms).

(** The smaller node shows a new item and the bigger one is exhausted. *)
Lemma answer_alone turns ls s b tk bb x a :
  sorted_versions (x :: a) → node_is s (Some (Some x, a)) → node_is b None → tk ≠ KeyTs_serialize x.1 →
  answers bb (merge_loop (S turns) nx (merge_state ls s b tk bb)) (x :: a) [].
Proof.
  intros Ha Hs Hb Hne. destruct (sorted_versions_cons _ _ Ha) as (Hx & Ha' & Hxa). cbn [merge_loop].
  rewrite (turn_fresh _ s b _ bb x a Hs Hne). cbn [mbind outcome_bind].
  pose proof sorted_versions_nil. exists x, a, [], ls, s, b, None. split_and!; try done; [cbn; lia|].
  intros ms ->%merges_nil_inv. constructor.
Qed.

(** Both show a new item. *)
Lemma answer_ordered turns ls s b tk bb x a e br :
  sorted_versions (x :: a) → sorted_versions (e :: br) →
  node_is s (Some (Some x, a)) → node_is b (Some (Some e, br)) →
  tk ≠ KeyTs_serialize x.1 → tk ≠ KeyTs_serialize e.1 →
  answers bb (m ← order_nodes nx (merge_state ls s b tk bb); merge_loop (S turns) nx m) (x :: a) (e :: br).
Proof.
  intros Ha Hl Hs Hb Hnx Hne. destruct (sorted_versions_cons _ _ Ha) as (Hx & Ha' & Hxa).
  destruct (sorted_versions_cons _ _ Hl) as (He & Hbr & Hebr). rewrite (order_shown ls s b _ bb x a e br) by done.
  destruct (KeyTs_cmp x.1 e.1) eqn:Cmp; cbn [mbind outcome_bind].
  - assert (∃ b' bst', (∃ r, node_next nx b = Ok (r, b')) ∧ node_is b' bst' ∧ pending bst' br)
      as (b' & bst' & [r ->] & Hb' & Hp').
    { destruct br as [|e2 br].
      - destruct (node_end b _ Hb) as (b' & E & Hb'). exists b', None. by split_and!; [eexists| |].
      - destruct (node_step b _ _ _ Hb) as (b' & E & Hb'). exists b', (Some (Some e2, br)). by split_and!; [eexists| |]. }
    cbn [mbind outcome_bind merge_loop]. rewrite (turn_fresh _ s b' _ bb x a Hs Hnx). cbn [mbind outcome_bind].
    exists x, a, br, ls, s, b', bst'. split_and!; try done; [|cbn; lia|].
    + apply cmp_eq in Cmp. eapply Forall_impl; [exact Hebr|]. intros z Hz. unfold version_lt in *. by rewrite Cmp.
    + intros ms Hm. by apply merges_eq_l.
  - cbn [merge_loop]. rewrite (turn_fresh _ s b _ bb x a Hs Hnx). cbn [mbind outcome_bind].
    exists x, a, (e :: br), ls, s, b, (Some (Some e, br)). split_and!; try done; [|cbn; lia|].
    + constructor; [done|]. eapply Forall_impl; [exact Hebr|]. intros z Hz. by eapply (cmp_lt_trans KeyTs_cmp x.1 e.1).
    + intros ms Hm. by apply merges_lt.
  - cbn [merge_loop]. rewrite (turn_fresh _ b s _ bb e br Hb Hne). cbn [mbind outcome_bind].
    assert (version_lt e x) as Hex by (unfold version_lt; by rewrite KeyTs_cmp_flip, Cmp).
    exists e, br, (x :: a), (negb ls), b, s, (Some (Some x, a)). split_and!; try done; [|cbn; lia|].
    + constructor; [done|]. eapply Forall_impl; [exact Hxa|]. intros z Hz. by eapply (cmp_lt_trans KeyTs_cmp e.1 x.1).
    + intros ms Hm%merges_sym. by apply merges_gt.
Qed.

Lemma answers_sym bb r a l : answers bb r a l → answers bb r l a.
Proof.
  intros (e & a' & l' & ls & s & b & bst & E & He & Ha & Hl & Hea & Hel & Hs & Hb & Hp & Hlt & Hm).
  exists e, a', l', ls, s, b, bst. rewrite (Nat.add_comm (length l)). split_and!; try done. intros ms Hms%Hm. by apply merges_sym.
Qed.

(** One call at a merge that shows [cur]. *)
Lemma merge_call turns ls s b bb cur a l bst :
  3 <= turns → version_ok cur → sorted_versions a → sorted_versions l → Forall (version_lt cur) a → Forall (version_lt cur) l →
  node_is s (Some (Some cur, a)) → node_is b bst → pending bst l →
  let r := merge_loop turns nx (merge_state ls s b (KeyTs_serialize cur.1) bb) in
  (a = [] ∧ l = [] ∧ ∃ m, r = Ok (false, m)) ∨ answers bb r a l.
Proof.
  intros Ht Hc Ha Hl Hca Hcl Hs Hb Hp. destruct turns as [|[|turns]]; [lia|lia|]. cbn zeta.
  assert (∀ m, merge_loop (S (S turns)) nx m = '(r, m) ← merge_turn nx m;
    match r with Some b => Ok (b, m) | None => merge_loop (S turns) nx m end) as -> by done.
  rewrite (turn_moves ls s b _ bb (Some cur) a Hs eq_refl). destruct a as [|x a].
  - destruct (node_end s _ Hs) as (s' & -> & Hs'). cbn [mbind outcome_bind]. destruct bst as [[[e|] br]|]; [| done|].
    + cbn in Hp. subst l. pose proof Hb as [-> _]. cbn [mbind outcome_bind]. apply Forall_cons in Hcl as [Hce _].
      right. apply answers_sym, answer_alone; try done. apply version_key_ne; try done. by destruct (sorted_versions_cons _ _ Hl).
    + cbn in Hp, Hb. subst l. rewrite Hb. cbn [mbind outcome_bind merge_loop]. rewrite turn_dead by done.
      left. split_and!; [done|done|]. by eexists.
  - destruct (node_step s _ _ _ Hs) as (s' & -> & Hs'). cbn [mbind outcome_bind].
    destruct (sorted_versions_cons _ _ Ha) as (Hx & Ha' & Hxa). apply Forall_cons in Hca as [Hcx _].
    assert (KeyTs_serialize cur.1 ≠ KeyTs_serialize x.1) as Hnx by (by apply version_key_ne).
    right. destruct bst as [[[e|] br]|]; [|done|].
    + cbn in Hp. subst l. pose proof Hb as [-> _]. apply Forall_cons in Hcl as [Hce _].
      assert (version_ok e) as He by (by destruct (sorted_versions_cons _ _ Hl)).
      pose proof (answer_ordered turns ls s' b _ bb x a e br Ha Hl Hs' Hb Hnx (version_key_ne cur e Hc He Hce)) as HA.
      destruct (order_nodes nx _); done.
    + cbn in Hp, Hb. subst l. rewrite Hb. cbn [mbind outcome_bind]. by apply answer_alone.
Qed.

(** From a merge that shows [cur], the calls go through a sorted union. *)
Lemma merge_runs_from turns : 3 <= turns → ∀ n ls s b bb cur a l bst,
  length a + length l < n → version_ok cur → sorted_versions a → sorted_versions l →
  Forall (version_lt cur) a → Forall (version_lt cur) l →
  node_is s (Some (Some cur, a)) → node_is b bst → pending bst l →
  ∃ ms, merges a l ms ∧ merge_runs turns (merge_state ls s b (KeyTs_serialize cur.1) bb) (Some cur) ms.
Proof.
  intros Ht n. induction n as [|n IH]; intros ls s b bb cur a l bst Hn Hc Ha Hl Hca Hcl Hs Hb Hp; [lia|].
  assert (merge_key (merge_state ls s b (KeyTs_serialize cur.1) bb) = Ok (version_key (Some cur)) ∧
    merge_value (merge_state ls s b (KeyTs_serialize cur.1) bb) = Ok (snd <$> Some cur)) as [Hk Hv]
    by (mstep; by rewrite (node_is_key s _ _ Hs), (node_is_value s _ _ Hs)).
  destruct (merge_call turns ls s b bb cur a l bst Ht Hc Ha Hl Hca Hcl Hs Hb Hp)
    as [(-> & -> & m & E)|(e & a' & l' & ls' & s' & b' & bst' & E & He & Ha' & Hl' & Hea & Hel & Hs' & Hb' & Hp' & Hlt & Hm)].
  - exists []. split; [constructor|]. split_and!; [done|done|]. by exists m.
  - destruct (IH ls' s' b' bb e a' l' bst') as (ms & Hms & Hr); try done; [lia|].
    exists (e :: ms). split; [by apply Hm|]. split_and!; [done|done|]. eexists. by split.
Qed.

(** Ordering a bigger node that was never moved. *)
Lemma order_hidden ls s b tk bb e br :
  node_is b (Some (None, e :: br)) →
  ∃ b', node_is b' (Some (Some e, br)) ∧
    order_nodes nx (merge_state ls s b tk bb) = order_nodes nx (merge_state ls s b' tk bb).
Proof.
  intros Hb. destruct (node_step b _ _ _ Hb) as (b' & E & Hb'). exists b'. split; [done|].
  unfold order_nodes. mstep. rewrite (node_is_key b _ _ Hb), (node_is_key b' _ _ Hb').
  cbn [mbind outcome_bind version_key fmap option_fmap option_map]. rewrite E. by mstep.
Qed.

Lemma order_empty ls s b tk bb :
  node_is b (Some (None, [])) →
  ∃ b', node_is b' None ∧ order_nodes nx (merge_state ls s b tk bb) = Ok (merge_state ls s b' tk bb).
Proof.
  intros Hb. destruct (node_end b _ Hb) as (b' & E & Hb'). exists b'. split; [done|].
  unfold order_nodes. mstep. rewrite (node_is_key b _ _ Hb).
  cbn [mbind outcome_bind version_key fmap option_fmap option_map]. rewrite E. by mstep.
Qed.

(** The first call at a merge of two iterators that were never moved. *)
Lemma first_call turns L R a l :
  3 <= turns → sorted_versions a → sorted_versions l →
  node_is L (Some (None, a)) → node_is R (Some (None, l)) →
  let r := merge_loop turns nx (merge_state true L R [] true) in
  (a = [] ∧ l = [] ∧ ∃ m, r = Ok (false, m)) ∨ answers true r a l.
Proof.
  intros Ht Ha Hl NL NR. destruct turns as [|[|[|turns]]]; [lia..|]. cbn zeta.
  assert (∀ t m, merge_loop (S t) nx m = '(r, m) ← merge_turn nx m;
    match r with Some b => Ok (b, m) | None => merge_loop t nx m end) as Hloop by done.
  assert (∀ e : version, [] ≠ KeyTs_serialize e.1) as Hnil by (intros e; pose proof (version_key_nonempty e); congruence).
  rewrite Hloop, (turn_moves true L R [] true None a NL I). pose proof NR as [-> _]. destruct a as [|x a].
  - destruct (node_end L _ NL) as (L' & -> & NL'). cbn [mbind outcome_bind negb].
    rewrite Hloop, (turn_moves false R L' [] true None l NR I). rewrite NL'. destruct l as [|y l].
    + destruct (node_end R _ NR) as (R' & -> & NR'). cbn [mbind outcome_bind]. rewrite Hloop, turn_dead by done.
      left. split_and!; [done|done|]. by eexists.
    + destruct (node_step R _ _ _ NR) as (R' & -> & NR'). cbn [mbind outcome_bind]. right.
      by apply answers_sym, answer_alone.
  - destruct (node_step L _ _ _ NL) as (L' & -> & NL'). cbn [mbind outcome_bind]. right. destruct l as [|y l].
    + destruct (order_empty true L' R [] true NR) as (R' & NR' & ->). cbn [mbind outcome_bind]. by apply answer_alone.
    + destruct (order_hidden true L' R [] true y l NR) as (R' & NR' & ->).
      pose proof (answer_ordered (S turns) true L' R' [] true x a y l Ha Hl NL' NR' (Hnil x) (Hnil y)) as HA.
      destruct (order_nodes nx _); done.
Qed.

(** A new merge of two iterators. *)
Lemma merge_runs_new turns l r a b :
  3 <= turns → iter_runs l None a → iter_runs r None b → sorted_versions a → sorted_versions b →
  ∃ ms, merges a b ms ∧
    merge_runs turns (mkMerge (MergeNode_from l) (Some (MergeNode_from r)) [] [] true true) None ms.
Proof.
  intros Ht Hl Hr Ha Hb. change (mkMerge (MergeNode_from l) (Some (MergeNode_from r)) [] [] true true)
    with (merge_state true (MergeNode_from l) (MergeNode_from r) [] true).
  assert (node_is (MergeNode_from l) (Some (None, a))) as NL by done.
  assert (node_is (MergeNode_from r) (Some (None, b))) as NR by done.
  set (L := MergeNode_from l) in *. set (R := MergeNode_from r) in *.
  assert (merge_key (merge_state true L R [] true) = Ok (version_key None) ∧
    merge_value (merge_state true L R [] true) = Ok (snd <$> None)) as [Hk Hv]
    by (mstep; by rewrite (node_is_key L _ _ NL), (node_is_value L _ _ NL)).
  destruct (first_call turns L R a b Ht Ha Hb NL NR)
    as [(-> & -> & m & E)|(e & a' & l' & ls & s & b' & bst & E & He & Ha' & Hl' & Hea & Hel & Hs & Hb' & Hp & Hlt & Hm)].
  - exists []. split; [constructor|]. split_and!; [done|done|]. by exists m.
  - destruct (merge_runs_from turns Ht (S (length a' + length l')) ls s b' true e a' l' bst) as (ms & Hms & Hruns); try done; [lia|].
    exists (e :: ms). split; [by apply Hm|]. split_and!; [done|done|]. eexists. by split.
Qed.

(** A merge of one iterator: there is no other node to look at. *)
Lemma merge_single_panics turns it es :
  iter_runs it None es → merge_loop (S turns) nx (mkMerge (MergeNode_from it) None [] [] true true) = Panic.
Proof.
  intros Hr. assert (node_is (MergeNode_from it) (Some (None, es))) as N by done.
  cbn [merge_loop]. unfold merge_turn, smaller. cbn [mg_left_small mg_left mbind outcome_bind]. pose proof N as [-> _].
  rewrite (node_is_key _ _ _ N). cbn [mbind outcome_bind version_key fmap option_fmap option_map].
  destruct es as [|e es]; [destruct (node_end _ _ N) as (n & -> & _)|destruct (node_step _ _ _ _ N) as (n & -> & _)]; done.
Qed.

(** A merge with a node whose first move panics. *)
Lemma merge_panics turns l r :
  (nx l = Panic ∧ node_iter_key l = Ok None) ∨
  (∃ a, iter_runs l None a ∧ nx r = Panic ∧ node_iter_key r = Ok None) →
  merge_loop (S (S turns)) nx (mkMerge (MergeNode_from l) (Some (MergeNode_from r)) [] [] true true) = Panic.
Proof.
  change (mkMerge (MergeNode_from l) (Some (MergeNode_from r)) [] [] true true)
    with (merge_state true (MergeNode_from l) (MergeNode_from r) [] true).
  assert (∀ t m, merge_loop (S t) nx m = '(r, m) ← merge_turn nx m;
    match r with Some b => Ok (b, m) | None => merge_loop t nx m end) as Hloop by done.
  intros [[Hp Hk]|(a & Hl & Hp & Hk)].
  - assert (node_next nx (MergeNode_from l) = Panic) as HL by (unfold node_next; cbn [MergeNode_from]; by rewrite Hp).
    assert (node_key (MergeNode_from l) = Ok None) as KL by done.
    rewrite Hloop. unfold merge_turn. mstep. change (mn_valid (MergeNode_from l)) with true. rewrite KL.
    cbn [mbind outcome_bind]. by rewrite HL.
  - assert (node_is (MergeNode_from l) (Some (None, a))) as NL by done.
    assert (node_next nx (MergeNode_from r) = Panic) as HR by (unfold node_next; cbn [MergeNode_from]; by rewrite Hp).
    assert (node_key (MergeNode_from r) = Ok None) as KR by done.
    rewrite Hloop, (turn_moves true _ _ [] true None a NL I). change (mn_valid (MergeNode_from r)) with true.
    destruct a as [|x a].
    + destruct (node_end _ _ NL) as (L' & -> & NL'). cbn [mbind outcome_bind negb]. rewrite Hloop. unfold merge_turn. mstep.
      change (mn_valid (MergeNode_from r)) with true. rewrite KR. cbn [mbind outcome_bind]. by rewrite HR.
    + destruct (node_step _ _ _ _ NL) as (L' & -> & NL'). cbn [mbind outcome_bind]. unfold order_nodes. mstep. rewrite KR.
      cbn [mbind outcome_bind]. by rewrite HR.
Qed.

End MergeLemmas.

(** ** When a merge is exhausted *)

Section ValidLemmas.
Context `{!VarInt, !ChecksumCodec, !Compressor, !Aead, !TableIndexFb}.
Context (nx : SinkMergeNodeIter → outcome (bool * SinkMergeNodeIter)).

Lemma merge_key_valid m k : merge_key m = Ok (Some k) → merge_valid m = Ok true.
Proof. destruct m as [[[] ? ?] [[[] ? ?]|] ? ? [] ?]; cbn; done. Qed.

Lemma back_temp_set_smaller m n : mg_back_temp_key (set_smaller m n) = mg_back_temp_key m.
Proof. by destruct m as [? ? ? ? [] ?]. Qed.
Lemma back_temp_set_bigger m n : mg_back_temp_key (set_bigger m n) = mg_back_temp_key m.
Proof. by destruct m as [? ? ? ? [] ?]. Qed.
Lemma back_temp_flip m : mg_back_temp_key (flip_left_small m) = mg_back_temp_key m.
Proof. by destruct m. Qed.
Lemma back_temp_temp m k : mg_back_temp_key (with_temp_key m k) = mg_back_temp_key m.
Proof. by destruct m. Qed.

Create Rewrite HintDb back_temp.
Hint Rewrite back_temp_set_smaller back_temp_set_bigger back_temp_flip back_temp_temp : back_temp.

Lemma order_back_temp m m' : order_nodes nx m = Ok m' → mg_back_temp_key m' = mg_back_temp_key m.
Proof.
  unfold order_nodes. intros E. returned; by autorewrite with back_temp.
Qed.

(** A turn leaves the key of the other direction alone, and answers [false] when
    the smaller node is exhausted only. *)
Lemma turn_back_temp m r m' :
  mg_back_temp_key m = [] → merge_turn nx m = Ok (r, m') →
  mg_back_temp_key m' = [] ∧ (r = Some false → merge_valid m' = Ok false).
Proof.
  unfold merge_turn, merge_valid. intros Hb E. rewrite Hb in E.
  rewrite bool_decide_eq_true_2 in E by done. cbn [negb andb] in E.
  apply bind_Ok in E as (s & Es & E). destruct (mn_valid s) eqn:Ev.
  - split; [|intros ->]; returned; autorewrite with back_temp; try done.
    all: match goal with H : order_nodes nx _ = Ok _ |- _ => apply order_back_temp in H; rewrite H end.
    all: by autorewrite with back_temp.
  - injection E as <- <-. split; [done|]. intros _. rewrite Es. cbn. by rewrite Ev.
Qed.

Lemma loop_back_temp turns m r m' :
  mg_back_temp_key m = [] → merge_loop turns nx m = Ok (r, m') →
  mg_back_temp_key m' = [] ∧ (r = false → merge_valid m' = Ok false).
Proof.
  revert m. induction turns as [|turns IH]; intros m Hb E; [done|]. cbn [merge_loop] in E.
  apply bind_Ok in E as ([[b|] m1] & E1 & E); destruct (turn_back_temp _ _ _ Hb E1) as [Hb1 Hv].
  - injection E as -> <-. split; [done|]. intros ->. by apply Hv.
  - by apply (IH m1).
Qed.

End ValidLemmas.

(** ** The tree of a list of iterators *)

(** A number of iterators whose halves are never single: a power of two from 2 on. *)
Definition balanced (n : nat) : Prop := 2 <= n ∧ 2 ^ Nat.log2 n = n.

#[export] Instance balanced_dec n : Decision (balanced n).
Proof. unfold balanced. apply _. Defined.

Lemma balanced_pow k : balanced (2 ^ S k).
Proof.
  split; [|by rewrite Nat.log2_pow2 by lia]. rewrite Nat.pow_succ_r by lia.
  pose proof (Nat.pow_nonzero 2 k ltac:(lia)). lia.
Qed.

Lemma balanced_inv n : balanced n → ∃ k, n = 2 ^ S k.
Proof.
  intros [Hn E]. destruct (Nat.log2 n) as [|k]; [cbn in E; lia|]. by exists k.
Qed.

Lemma balanced_halves n : balanced (n / 2) → balanced (n - n / 2) → balanced n.
Proof.
  intros [a Ea]%balanced_inv [b Eb]%balanced_inv. pose proof (Nat.div_mod_eq n 2). pose proof (Nat.mod_upper_bound n 2).
  replace n with (2 ^ S (S a)); [apply balanced_pow|]. rewrite Nat.pow_succ_r, <- Ea by lia.
  rewrite Nat.pow_succ_r in Ea, Eb by lia. lia.
Qed.

Lemma merge_new_split fuel iters :
  3 <= length iters →
  merge_new_loop (S fuel) iters =
    (l ← merge_new_loop fuel (take (length iters / 2) iters); r ← merge_new_loop fuel (drop (length iters / 2) iters);
     Some (mkMerge (MergeNode_from (NodeMerge l)) (Some (MergeNode_from (NodeMerge r))) [] [] true true)).
Proof. destruct iters as [|? [|? [|? ?]]]; cbn [length]; [lia..|]. done. Qed.

Section TreeLemmas.
Context `{!VarInt, !VarIntLaws, !ChecksumCodec, !Compressor, !Aead, !TableIndexFb}.
Context (turns : nat) (Hturns : 3 <= turns).

Abbreviation nx := (node_iter_next turns).
Abbreviation iter_runs d := (runs node_iter_key node_iter_value (nx d)).
Abbreviation merge_runs d := (runs merge_key merge_value (merge_loop turns (nx d))).

Lemma merge_as_node d m cur rest : merge_runs d m cur rest → iter_runs (S d) (NodeMerge m) cur rest.
Proof.
  revert m cur. induction rest as [|e rest IH]; intros m cur (Hk & Hv & m' & Hn); split_and!; try done.
  - exists (NodeMerge m'). cbn [node_iter_next]. by rewrite Hn.
  - destruct Hn as [Hn Hr]. exists (NodeMerge m'). cbn [node_iter_next]. rewrite Hn. split; [done|]. by apply IH.
Qed.

(** The iterators a merge is made of: each runs through a sorted list. *)
Definition leaf_runs (it : SinkMergeNodeIter) (es : list version) : Prop :=
  sorted_versions es ∧ ∀ d, iter_runs d it None es.

(** [ms] is the sorted union of the lists. *)
Definition sorted_union (ess : list (list version)) (ms : list version) : Prop :=
  sorted_versions ms ∧ (∀ x, x ∈ ms → x ∈ concat ess) ∧ (∀ x, x ∈ concat ess → ∃ y, y ∈ ms ∧ y.1 = x.1).

Lemma union_merges ess1 ess2 a b ms :
  sorted_union ess1 a → sorted_union ess2 b → merges a b ms → sorted_union (ess1 ++ ess2) ms.
Proof.
  intros (Hs1 & He1 & Hc1) (Hs2 & He2 & Hc2) Hm. split_and!; [by apply (merges_sorted a b)| |]; rewrite concat_app.
  - intros x [Hx|Hx]%(merges_elem _ _ _ Hm); apply elem_of_app; auto.
  - assert (∀ y, y ∈ a ∨ y ∈ b → ∃ z, z ∈ ms ∧ z.1 = y.1) as Hc by apply (merges_cover _ _ _ Hm).
    intros x [Hx|Hx]%elem_of_app.
    + destruct (Hc1 x Hx) as (y & Hy & <-). auto.
    + destruct (Hc2 x Hx) as (y & Hy & <-). auto.
Qed.

Lemma union_single es : sorted_versions es → sorted_union [es] es.
Proof. intros Hs. split_and!; [done| |]; cbn [concat]; rewrite app_nil_r; eauto. Qed.

Lemma merge_tree_runs k : ∀ fuel d iters ess,
  k <= d → length iters <= fuel → length iters = 2 ^ S k → Forall2 leaf_runs iters ess →
  ∃ m ms, merge_new_loop fuel iters = Some m ∧ merge_runs d m None ms ∧ sorted_union ess ms.
Proof.
  induction k as [|k IH]; intros fuel d iters ess Hd Hf Hlen Hall.
  - destruct iters as [|l [|r [|? ?]]]; cbn in Hlen; try lia.
    destruct ess as [|a [|b [|? ?]]]; try (by apply Forall2_length in Hall).
    apply Forall2_cons in Hall as [[Ha Hl] [[Hb Hr] _]%Forall2_cons].
    destruct (merge_runs_new (nx d) turns l r a b Hturns (Hl d) (Hr d) Ha Hb) as (ms & Hm & Hruns).
    eexists _, ms. split_and!; [by destruct fuel|done|].
    change [a; b] with ([a] ++ [b]). by apply (union_merges _ _ a b); [apply union_single..|].
  - assert (length iters / 2 = 2 ^ S k) as Hmid by (rewrite Hlen, (Nat.pow_succ_r 2 (S k)), Nat.mul_comm by lia; by apply Nat.div_mul).
    pose proof (Nat.pow_nonzero 2 k ltac:(lia)). assert (length iters = 2 * 2 ^ S k) as Hl2 by (by rewrite Hlen, (Nat.pow_succ_r 2 (S k)) by lia).
    assert (2 ^ S k = 2 * 2 ^ k) as Hp by (by rewrite Nat.pow_succ_r by lia).
    destruct fuel as [|fuel]; [lia|]. destruct d as [|d]; [lia|]. rewrite merge_new_split, Hmid by lia.
    destruct (IH fuel d (take (2 ^ S k) iters) (take (2 ^ S k) ess)) as (ml & a & -> & Hl & Ua);
      [lia|rewrite length_take; lia|rewrite length_take; lia|by apply Forall2_take|].
    destruct (IH fuel d (drop (2 ^ S k) iters) (drop (2 ^ S k) ess)) as (mr & b & -> & Hr & Ub);
      [lia|rewrite length_drop; lia|rewrite length_drop; lia|by apply Forall2_drop|]. cbn [mbind option_bind].
    destruct (merge_runs_new (nx (S d)) turns (NodeMerge ml) (NodeMerge mr) a b Hturns) as (ms & Hm & Hruns);
      [by apply merge_as_node|by apply merge_as_node|apply Ua|apply Ub|].
    eexists _, ms. split_and!; [done|done|]. rewrite <- (take_drop (2 ^ S k) ess). by apply (union_merges _ _ a b).
Qed.

(** A tree with a single iterator in it panics at its first move. *)
Lemma merge_tree_panics n : ∀ fuel d iters ess,
  length iters <= fuel → length iters <= d → length iters = n → 1 <= n → ¬ balanced n → Forall2 leaf_runs iters ess →
  ∃ m, merge_new_loop fuel iters = Some m ∧ merge_key m = Ok None ∧ merge_loop turns (nx d) m = Panic.
Proof.
  induction (lt_wf n) as [n _ IH]. intros fuel d iters ess Hf Hd Hlen Hn Hbad Hall.
  assert (∃ t, turns = S (S t)) as [t ET] by (exists (turns - 2); lia).
  destruct (decide (n = 1)) as [->|Hn1].
  { destruct iters as [|it [|? ?]]; cbn in Hlen; try lia. destruct ess as [|es [|? ?]]; try (by apply Forall2_length in Hall).
    apply Forall2_cons in Hall as [[Hs Hr] _]. eexists. split_and!; [by destruct fuel| |].
    - specialize (Hr 0). cbn [merge_key MergeNode_from node_key]. by destruct es, Hr as [-> _].
    - rewrite ET at 1. by apply (merge_single_panics (nx d) (S t) it es). }
  destruct (decide (n = 2)) as [->|Hn2]; [exfalso; apply Hbad; apply (balanced_pow 0)|].
  destruct fuel as [|fuel]; [lia|]. destruct d as [|d]; [lia|]. rewrite merge_new_split, Hlen by lia.
  pose proof (Nat.div_mod_eq n 2). pose proof (Nat.mod_upper_bound n 2).
  assert (length (take (n / 2) iters) = n / 2) as L1 by (rewrite length_take; lia).
  assert (length (drop (n / 2) iters) = n - n / 2) as L2 by (rewrite length_drop; lia).
  assert (∀ its ess', length its < n → 1 <= length its → length its <= fuel → length its <= d → Forall2 leaf_runs its ess' →
    ∃ m, merge_new_loop fuel its = Some m ∧
      ((balanced (length its) ∧ ∃ ms, iter_runs (S d) (NodeMerge m) None ms) ∨
       (¬ balanced (length its) ∧ node_iter_key (NodeMerge m) = Ok None ∧ nx (S d) (NodeMerge m) = Panic))) as Hhalf.
  { intros its ess' H1' H2' H3' H4' Hits. destruct (decide (balanced (length its))) as [Hb|Hb].
    - destruct (balanced_inv _ Hb) as [k Ek]. assert (k < 2 ^ S k) by (pose proof (Nat.pow_gt_lin_r 2 (S k)); lia).
      destruct (merge_tree_runs k fuel d its ess') as (m & ms & E & Hr & _); [lia|done|done|done|].
      exists m. split; [done|]. left. split; [done|]. exists ms. by apply merge_as_node.
    - destruct (IH (length its) H1' fuel d its ess') as (m & E & Hk & Hp); try done.
      exists m. split; [done|]. right. split_and!; [done|done|]. cbn [node_iter_next]. by rewrite Hp. }
  destruct (Hhalf (take (n / 2) iters) (take (n / 2) ess)) as (ml & -> & Hl); [lia..|by apply Forall2_take|].
  destruct (Hhalf (drop (n / 2) iters) (drop (n / 2) ess)) as (mr & -> & Hr); [lia..|by apply Forall2_drop|].
  cbn [mbind option_bind]. rewrite L1 in Hl. rewrite L2 in Hr. eexists. split; [done|]. split.
  - cbn [merge_key MergeNode_from node_key]. destruct Hl as [[_ [ms Hl]]|(_ & Hk & _)]; [|done].
    by destruct ms, Hl as [-> _].
  - rewrite ET at 1. apply (merge_panics (nx (S d))).
    destruct Hl as [[Hb [ms Hl]]|(_ & Hk & Hp)]; [|by left]. right. exists ms. split; [done|].
    destruct Hr as [[Hb' _]|(_ & Hk & Hp)]; [|done]. exfalso. by apply Hbad, balanced_halves.
Qed.

End TreeLemmas.

(** ** The iterators of tables *)

Section SourceLemmas.
Context `{!VarInt, !VarIntLaws, !ChecksumCodec, !Compressor, !Aead, !TableIndexFb}.

Lemma concat_fresh_eq tables : concat_double_ended_eq (SinkTableConcatIter_new tables) = Ok true.
Proof. reflexivity. Qed.

Lemma concat_next_new tables : next (SinkTableConcatIter_new tables) = Ok (false, SinkTableConcatIter_new tables).
Proof. unfold next, Concat_next. by rewrite concat_fresh_eq. Qed.

Lemma concat_next_back_new tables :
  next_back (SinkTableConcatIter_new tables) = Ok (false, SinkTableConcatIter_new tables).
Proof. unfold next_back, Concat_next_back. by rewrite concat_fresh_eq. Qed.

(** A new iterator over a table that holds the items [es], or a new concatenation,
    which holds none. *)
Inductive source : SinkMergeNodeIter → list version → Prop :=
| source_table t gs es :
    table_repr t gs → concat gs = ser_entries es → sorted_versions es → source (NodeTable (Table_iter t)) es
| source_concat tables : source (NodeTableConcat (SinkTableConcatIter_new tables)) [].

Lemma table_runs turns d it cur es :
  yields it (ser_entries es) → iter_key it = version_key cur → iter_value it = Ok (snd <$> cur) →
  runs node_iter_key node_iter_value (node_iter_next turns d) (NodeTable it) cur es.
Proof.
  revert it cur. induction es as [|e es IH]; intros it cur Hy Hk Hv; inversion Hy as [? it' Hn|? it' k v kvs Hn Hk' Hv' Hy']; subst.
  - cbn [runs node_iter_key node_iter_value]. rewrite Hk, Hv. split_and!; [done|done|]. exists (NodeTable it').
    by destruct d; cbn [node_iter_next]; rewrite Hn.
  - cbn [runs node_iter_key node_iter_value]. rewrite Hk, Hv. split_and!; [done|done|]. exists (NodeTable it').
    split; [by destruct d; cbn [node_iter_next]; rewrite Hn|]. by apply IH.
Qed.

Lemma source_leaf turns it es : source it es → leaf_runs turns it es.
Proof.
  intros [t gs es' Hrep Hcat Hs|tables].
  - split; [done|]. intros d. apply table_runs; [|done|done]. rewrite <- Hcat. by apply table_iter_yields.
  - split; [apply sorted_versions_nil|]. intros d. split_and!; [done|done|]. eexists.
    destruct d; cbn [node_iter_next]; by rewrite concat_next_new.
Qed.

Lemma sources_leaves turns iters ess : Forall2 source iters ess → Forall2 (leaf_runs turns) iters ess.
Proof. intros Hf. eapply Forall2_impl; [exact Hf|]. intros it es. apply source_leaf. Qed.

End SourceLemmas.

(* ------------------------------------------------------------------ *)
(** ** Properties *)

Section MergeTheorems.
Context `{!VarInt, !VarIntLaws, !ChecksumCodec, !Compressor, !Aead, !TableIndexFb}.

(** C14: the merge of 2, 4, 8, ... iterators over sorted tables returns from every
    call within three turns of its loop and goes through the sorted union of the
    tables: every item comes from one of them, every key of each of them appears,
    and no key twice. *)
Theorem merge_iter_sorted_union turns d k iters ess :
  3 <= turns → k <= d → length iters = 2 ^ S k → Forall2 source iters ess →
  ∃ m ms, SinkMergeIter_new iters = Some m ∧ runs merge_key merge_value (Merge_next turns d) m None ms ∧
    sorted_union ess ms.
Proof.
  intros Ht Hd Hlen Hsrc. unfold SinkMergeIter_new, Merge_next.
  apply (merge_tree_runs turns Ht k (length iters) d iters ess Hd); [lia|done|by apply sources_leaves].
Qed.

(** The merge of any other number of iterators panics at its first move. *)
Theorem merge_iter_panics turns d iters ess :
  3 <= turns → length iters <= d → iters ≠ [] → ¬ balanced (length iters) → Forall2 source iters ess →
  ∃ m, SinkMergeIter_new iters = Some m ∧ Merge_next turns d m = Panic.
Proof.
  intros Ht Hd Hne Hbad Hsrc. unfold SinkMergeIter_new, Merge_next.
  destruct (merge_tree_panics turns Ht (length iters) (length iters) d iters ess) as (m & E & _ & Hp);
    [lia|lia|done|destruct iters; [done|cbn; lia]|done|by apply sources_leaves|]. by exists m.
Qed.

(** A new concatenation of tables, whatever they hold, has no item in either
    direction, and asking for one leaves it as it was. *)
Theorem concat_iter_yields_nothing tables :
  yields (SinkTableConcatIter_new tables) [] ∧ yields (mkRev (SinkTableConcatIter_new tables)) [] ∧
  next (SinkTableConcatIter_new tables) = Ok (false, SinkTableConcatIter_new tables) ∧
  next_back (SinkTableConcatIter_new tables) = Ok (false, SinkTableConcatIter_new tables).
Proof.
  pose proof (concat_next_new tables) as Hn. pose proof (concat_next_back_new tables) as Hb. split_and!; try done.
  - by eapply yields_nil.
  - eapply yields_nil. unfold next, SinkIterRev_next. cbn [rev_iter]. by rewrite Hb.
Qed.

End MergeTheorems.

Module MergeExamples.
Import BuildExamples SeekExamples.

Lemma versions_sorted : sorted_versions (concat ess).
Proof.
  split; [repeat constructor|]. repeat (apply Forall_cons; split; [split; vm_compute; [|split]; congruence|]). constructor.
Defined.

Lemma the_table_source : source (NodeTable (Table_iter the_table)) (concat ess).
Proof. apply (source_table the_table (ser_entries <$> ess)); [apply the_table_repr|reflexivity|apply versions_sorted]. Defined.

(** Merging a table with itself. *)
Lemma merge_iter_sorted_union_witness :
  ∃ m ms, SinkMergeIter_new [NodeTable (Table_iter the_table); NodeTable (Table_iter the_table)] = Some m ∧
    runs merge_key merge_value (Merge_next 3 0) m None ms ∧ sorted_union [concat ess; concat ess] ms.
Proof.
  apply (merge_iter_sorted_union 3 0 0 [NodeTable (Table_iter the_table); NodeTable (Table_iter the_table)]
           [concat ess; concat ess]).
  - lia.
  - lia.
  - reflexivity.
  - repeat (apply Forall2_cons; split; [apply the_table_source|]). constructor.
Defined.

(** Three iterators, as a compaction of two tables of level 0 has. *)
Lemma merge_iter_panics_witness :
  ∃ m, SinkMergeIter_new [NodeTable (Table_iter the_table); NodeTable (Table_iter the_table);
                          NodeTableConcat (SinkTableConcatIter_new [the_table])] = Some m ∧ Merge_next 3 3 m = Panic.
Proof.
  apply (merge_iter_panics 3 3 [NodeTable (Table_iter the_table); NodeTable (Table_iter the_table);
           NodeTableConcat (SinkTableConcatIter_new [the_table])] [concat ess; concat ess; []]).
  - lia.
  - reflexivity.
  - discriminate.
  - intros [_ E]. discriminate.
  - repeat (apply Forall2_cons; split; [apply the_table_source || apply source_concat|]). constructor.
Defined.

End MergeExamples.
