(* ===== verification/WaterMark.v ===== *)
(** * WaterMark: the task that tracks finished timestamps

    [WaterMark] of src/src/txn/water_mark.rs.  One task receives marks: the
    beginning or the end of the work at a timestamp, or a waiter for a
    timestamp.  It keeps how many ends are missing per timestamp and advances
    [done_until] past the timestamps that are complete; waiters at or below it
    are notified.

    [process_one] and [handle_mark] are the body of the task; a run of the task
    is a list of marks.  The specification counts, per timestamp, the beginnings
    without an end in the trace of marks. *)
From stdpp Require Import base list list_numbers gmap sorting.
From Stdlib Require Import ZArith Lia.
From S2P Require Import Prelude Kv.

Local Open Scope Z_scope.

(** ** State *)

(** A [Notify] is a number; the state records the ones that were notified. *)
Record WaterMark : Type := mkWaterMark {
  wm_done_until : Z;
  wm_waiters : gmap Z (list nat);
  wm_min_heap : list Z;
  wm_pending : gmap Z Z;
  wm_notified : list nat
}.

Record Mark : Type := mkMark {
  mk_txn_ts : Z;
  mk_waiter : option nat;
  mk_indices : list Z;
  mk_done : bool
}.

Definition Mark_new (txn_ts : Z) (done : bool) : Mark := mkMark txn_ts None [] done.

Definition WaterMark_new (done_until : Z) : WaterMark := mkWaterMark done_until ∅ [] ∅ [].

(** ** The min heap: [BinaryHeap<Reverse<TxnTs>>] as an ascending list *)

Fixpoint heap_push (x : Z) (heap : list Z) : list Z :=
  match heap with
  | [] => [x]
  | y :: rest => if x <=? y then x :: y :: rest else y :: heap_push x rest
  end.

(** ** process_one *)

Definition mark_delta (done : bool) : Z := if done then 1 else -1.

Definition add_pending (heap : list Z) (pending : gmap Z Z) (txn_ts : Z) (done : bool) :
    list Z * gmap Z Z :=
  match pending !! txn_ts with
  | Some prev => (heap, <[txn_ts := prev + mark_delta done]> pending)
  | None => (heap_push txn_ts heap, <[txn_ts := mark_delta done]> pending)
  end.

(** The [while !min_heap.is_empty()] loop. *)
Fixpoint pop_done (heap : list Z) (pending : gmap Z Z) (until : Z) : list Z * gmap Z Z * Z :=
  match heap with
  | [] => ([], pending, until)
  | min :: rest =>
      match pending !! min with
      | Some done => if done <? 0 then (heap, pending, until)
                     else pop_done rest (delete min pending) min
      | None => pop_done rest (delete min pending) min
      end
  end.

(** Notify and forget the waiters of one timestamp. *)
Definition notify_at (acc : gmap Z (list nat) * list nat) (txn : Z) : gmap Z (list nat) * list nat :=
  let '(waiters, notified) := acc in
  (delete txn waiters, notified ++ default [] (waiters !! txn)).

Definition notify_waiters (waiters : gmap Z (list nat)) (notified : list nat)
    (done_until until : Z) : outcome (gmap Z (list nat) * list nat) :=
  if until - done_until <=? Z.of_nat (size waiters) then
    lo ← u64_add done_until 1;
    Ok (foldl notify_at (waiters, notified) (seqZ lo (until + 1 - lo)))
  else
    let need_remove := filter (λ txn, txn <= until) (map_to_list waiters).*1 in
    Ok (foldl notify_at (waiters, notified) need_remove).

Definition process_one (st : WaterMark) (txn_ts : Z) (done : bool) : outcome WaterMark :=
  let '(heap, pending) := add_pending (wm_min_heap st) (wm_pending st) txn_ts done in
  let done_until := wm_done_until st in
  _ ← assert_or_panic (done_until <=? txn_ts);
  let '(heap, pending, until) := pop_done heap pending done_until in
  _ ← assert_or_panic (done_until <=? until);
  '(waiters, notified) ← notify_waiters (wm_waiters st) (wm_notified st) done_until until;
  Ok (mkWaterMark until waiters heap pending notified).

(** ** The receive loop of [process] *)

Definition push_waiter (st : WaterMark) (txn_ts : Z) (notify : nat) : WaterMark :=
  if txn_ts <=? wm_done_until st then
    mkWaterMark (wm_done_until st) (wm_waiters st) (wm_min_heap st) (wm_pending st)
      (wm_notified st ++ [notify])
  else
    let v := default [] (wm_waiters st !! txn_ts) in
    mkWaterMark (wm_done_until st) (<[txn_ts := v ++ [notify]]> (wm_waiters st)) (wm_min_heap st)
      (wm_pending st) (wm_notified st).

Definition process_index (done : bool) (st : WaterMark) (indice : Z) : outcome WaterMark :=
  process_one st indice done.

Definition handle_mark (st : WaterMark) (mark : Mark) : outcome WaterMark :=
  match mk_waiter mark with
  | Some notify => Ok (push_waiter st (mk_txn_ts mark) notify)
  | None =>
      st ← (if 0 <? mk_txn_ts mark then process_one st (mk_txn_ts mark) (mk_done mark) else Ok st);
      fold_outcome (process_index (mk_done mark)) st (mk_indices mark)
  end.

(** A run of the task on the marks it receives. *)
Definition process (st : WaterMark) (marks : list Mark) : outcome WaterMark :=
  fold_outcome handle_mark st marks.

(* ------------------------------------------------------------------ *)
(** ** Specification: traces of beginnings and ends *)

Definition event : Type := Z * bool.

(** The events a mark carries, in the order in which they are processed. *)
Definition mark_events (m : Mark) : list event :=
  match mk_waiter m with
  | Some _ => []
  | None => (if 0 <? mk_txn_ts m then [(mk_txn_ts m, mk_done m)] else [])
            ++ ((λ i, (i, mk_done m)) <$> mk_indices m)
  end.

Definition trace (marks : list Mark) : list event := concat (mark_events <$> marks).

(** The waiters registered by the marks. *)
Definition registered (marks : list Mark) : list (Z * nat) :=
  omap (λ m, (λ n, (mk_txn_ts m, n)) <$> mk_waiter m) marks.

(** Beginnings without an end. *)
Fixpoint outstanding (evs : list event) (t : Z) : Z :=
  match evs with
  | [] => 0
  | e :: evs' => (if decide (e.1 = t) then - mark_delta e.2 else 0) + outstanding evs' t
  end.

(** Traces as the oracle produces them: work begins at timestamps that do not
    decrease, and ends where it is outstanding. *)
Inductive admissible (d0 : Z) : list event → Prop :=
| adm_nil : admissible d0 []
| adm_begin evs t :
    admissible d0 evs → d0 <= t < U64_MAX → Forall (λ e, e.1 <= t) evs →
    admissible d0 (evs ++ [(t, false)])
| adm_end evs t :
    admissible d0 evs → 0 < outstanding evs t → admissible d0 (evs ++ [(t, true)]).

(** A timestamp is settled when it was seen and all outstanding work is above it. *)
Definition settled (evs : list event) (t : Z) : Prop :=
  (∃ b, (t, b) ∈ evs) ∧ ∀ t', 0 < outstanding evs t' → t < t'.

(** The abstract state: [done_until] is the greatest timestamp that was settled at
    some moment so far, or the start when there was none.  (Work may begin again at
    [done_until] itself, so that it need not be settled now.) *)
Definition done_until_spec (d0 : Z) (evs : list event) (d : Z) : Prop :=
  (d = d0 ∨ ∃ pre, pre `prefix_of` evs ∧ settled pre d) ∧ d0 <= d ∧
  ∀ pre t, pre `prefix_of` evs → settled pre t → t <= d.

(** A waiter is notified when [done_until] has reached its timestamp, and
    otherwise still waits. *)
Definition waiters_spec (regs : list (Z * nat)) (st : WaterMark) : Prop :=
  (∀ w n, (w, n) ∈ regs →
     if decide (w <= wm_done_until st) then n ∈ wm_notified st
     else n ∈ default [] (wm_waiters st !! w)) ∧
  (∀ n, n ∈ wm_notified st → ∃ w, (w, n) ∈ regs ∧ w <= wm_done_until st).

(* ------------------------------------------------------------------ *)
(** ** Lemmas: traces *)

Lemma outstanding_app evs1 evs2 t :
  outstanding (evs1 ++ evs2) t = outstanding evs1 t + outstanding evs2 t.
Proof.
  induction evs1 as [|e evs1 IH]; cbn [app outstanding]; [lia|]. rewrite IH. lia.
Qed.

Lemma outstanding_snoc evs ts done t :
  outstanding (evs ++ [(ts, done)]) t =
  outstanding evs t + (if decide (ts = t) then - mark_delta done else 0).
Proof. rewrite outstanding_app. cbn [outstanding fst snd]. lia. Qed.

Lemma admissible_nonneg d0 evs t : admissible d0 evs → 0 <= outstanding evs t.
Proof.
  induction 1 as [|evs s _ IH|evs s _ IH Hs]; [done| |]; rewrite outstanding_snoc;
    case_decide as E; cbn [mark_delta]; try lia. subst. lia.
Qed.

Lemma admissible_app_inv d0 evs evs' : admissible d0 (evs ++ evs') → admissible d0 evs.
Proof.
  induction evs' as [|e evs' IH] using rev_ind; [by rewrite app_nil_r|].
  rewrite app_assoc. intros Ha. apply IH.
  inversion Ha as [E|a t Ha' ? ? E|a t Ha' ? E]; [by destruct (evs ++ evs')|..];
    apply app_inj_tail in E as [<- _]; done.
Qed.

(** ** Lemmas: the heap *)

Lemma elem_of_heap_push x y heap : y ∈ heap_push x heap ↔ y = x ∨ y ∈ heap.
Proof.
  induction heap as [|z heap IH]; cbn [heap_push]; [set_solver|].
  destruct (x <=? z); set_solver.
Qed.

Lemma heap_push_sorted x heap :
  StronglySorted Z.lt heap → x ∉ heap → StronglySorted Z.lt (heap_push x heap).
Proof.
  induction heap as [|z heap IH]; cbn [heap_push]; intros Hs Hx.
  { by repeat constructor. }
  apply StronglySorted_cons in Hs as [Hall Hs]. apply not_elem_of_cons in Hx as [Hxz Hx].
  case_if; apply StronglySorted_cons.
  - split; [|by apply StronglySorted_cons]. constructor; [lia|].
    eapply Forall_impl; [exact Hall|]. cbn. intros; lia.
  - split; [|auto]. apply Forall_forall. intros y [->|Hy]%elem_of_heap_push; [lia|].
    by eapply Forall_forall in Hall.
Qed.

(** What the popping loop does: a prefix of complete timestamps goes, and the
    one that remains at the front is incomplete. *)
Lemma pop_done_spec heap pending until :
  StronglySorted Z.lt heap → (∀ t, t ∈ heap → is_Some (pending !! t)) →
  ∃ popped heap' pending' until', pop_done heap pending until = (heap', pending', until') ∧
    heap = popped ++ heap' ∧
    (∀ t, t ∈ popped → ∃ c, pending !! t = Some c ∧ 0 <= c) ∧
    (∀ t, pending' !! t = if decide (t ∈ popped) then None else pending !! t) ∧
    until' = default until (last popped) ∧
    (∀ m, head heap' = Some m → ∃ c, pending !! m = Some c ∧ c < 0).
Proof.
  revert pending until. induction heap as [|m heap IH]; intros pending until Hs Hd; cbn [pop_done].
  { exists [], [], pending, until. split_and!; try done. set_solver. }
  apply StronglySorted_cons in Hs as [Hm Hs].
  destruct (Hd m) as [c Hc]; [set_solver|]. rewrite Hc. case_if.
  { exists [], (m :: heap), pending, until. split_and!; try done; [set_solver|].
    intros m' [= <-]. by exists c. }
  assert (m ∉ heap) as Hnin.
  { intros Hin. eapply Forall_forall in Hm; [|exact Hin]. cbn in Hm. lia. }
  destruct (IH (delete m pending) m) as (popped & h' & p' & u' & Heq & Hh & Hpop & Hp' & Hu & Hhead).
  { done. }
  { intros t Ht. rewrite lookup_delete_ne by set_solver. apply Hd. set_solver. }
  assert (∀ t, t ∈ heap → t ≠ m) as Hne by (intros t Ht ->; done).
  exists (m :: popped), h', p', u'. split_and!.
  - done.
  - by rewrite Hh.
  - intros t [->|Ht]%elem_of_cons; [by exists c|]. destruct (Hpop t Ht) as (c' & Hc' & ?).
    rewrite lookup_delete_ne in Hc' by (apply not_eq_sym, Hne; rewrite Hh; set_solver). by exists c'.
  - intros t. rewrite Hp'. destruct (decide (t ∈ popped)).
    { rewrite decide_True by set_solver. done. }
    destruct (decide (t = m)) as [->|Htm].
    + rewrite decide_True by set_solver. by rewrite lookup_delete_eq.
    + rewrite decide_False by set_solver. by rewrite lookup_delete_ne.
  - rewrite Hu, last_cons. by destruct (last popped).
  - intros m' Hm'. destruct (Hhead m' Hm') as (c' & Hc' & ?). exists c'. split; [|done].
    rewrite lookup_delete_ne in Hc'; [done|]. apply not_eq_sym, Hne. rewrite Hh.
    apply elem_of_app. right. by destruct h'; simplify_eq/=; left.
Qed.

(** ** Lemmas: notifying *)

Lemma foldl_notify ks ws ns :
  ∃ ws' ns', foldl notify_at (ws, ns) ks = (ws', ns') ∧
    (∀ w, ws' !! w = if decide (w ∈ ks) then None else ws !! w) ∧
    (∀ n, n ∈ ns' ↔ n ∈ ns ∨ ∃ w, w ∈ ks ∧ n ∈ default [] (ws !! w)).
Proof.
  revert ws ns. induction ks as [|k ks IH]; intros ws ns; cbn [foldl].
  { exists ws, ns. split_and!; [done|done|]. set_solver. }
  destruct (IH (delete k ws) (ns ++ default [] (ws !! k))) as (ws' & ns' & Heq & Hws & Hns).
  exists ws', ns'. split_and!; [exact Heq| |].
  - intros w. rewrite Hws. destruct (decide (w ∈ ks)); [by rewrite decide_True by set_solver|].
    destruct (decide (w = k)) as [->|].
    + rewrite decide_True by set_solver. by rewrite lookup_delete_eq.
    + rewrite decide_False by set_solver. by rewrite lookup_delete_ne.
  - intros n. rewrite Hns, elem_of_app. split.
    + intros [[?|?]|(w & Hw & Hn)]; [by left|right; exists k; set_solver|].
      right. exists w. split; [set_solver|]. destruct (decide (w = k)) as [->|].
      * rewrite lookup_delete_eq in Hn. cbn in Hn. set_solver.
      * by rewrite lookup_delete_ne in Hn.
    + intros [?|(w & [->|Hw]%elem_of_cons & Hn)]; [tauto|tauto|].
      destruct (decide (w = k)) as [->|]; [tauto|].
      right. exists w. by rewrite lookup_delete_ne.
Qed.

(** Both ways of notifying do the same: exactly the waiters at or below
    [until] go. *)
Lemma notify_waiters_spec ws ns du until :
  du <= until → 0 <= du < U64_MAX → (∀ w, is_Some (ws !! w) → du < w) →
  ∃ ws' ns', notify_waiters ws ns du until = Ok (ws', ns') ∧
    (∀ w, ws' !! w = if decide (w <= until) then None else ws !! w) ∧
    (∀ n, n ∈ ns' ↔ n ∈ ns ∨ ∃ w, w <= until ∧ n ∈ default [] (ws !! w)).
Proof.
  intros Hle Hdu Hw. unfold notify_waiters, u64_add.
  assert (∀ (ks : list Z) (ws' : gmap Z (list nat)) (ns' : list nat),
    (∀ w, is_Some (ws !! w) → w ∈ ks ↔ w <= until) →
    (∀ w, ws' !! w = if decide (w ∈ ks) then None else ws !! w) →
    (∀ n, n ∈ ns' ↔ n ∈ ns ∨ ∃ w, w ∈ ks ∧ n ∈ default [] (ws !! w)) →
    (∀ w, ws' !! w = if decide (w <= until) then None else ws !! w) ∧
    (∀ n, n ∈ ns' ↔ n ∈ ns ∨ ∃ w, w <= until ∧ n ∈ default [] (ws !! w))) as Hconv.
  { intros ks ws' ns' Hks Hws Hns. split.
    - intros w. rewrite Hws. destruct (ws !! w) as [l|] eqn:E; [|by repeat case_decide].
      specialize (Hks w (mk_is_Some _ _ E)). repeat case_decide; tauto || done.
    - intros n. rewrite Hns. split; (intros [?|(w & Hk & Hn)]; [by left|right; exists w]);
        (destruct (ws !! w) as [l|] eqn:E; [|cbn in Hn; set_solver]);
        specialize (Hks w (mk_is_Some _ _ E)); tauto. }
  case_if.
  - guard_true. cbn [mbind outcome_bind].
    destruct (foldl_notify (seqZ (du + 1) (until + 1 - (du + 1))) ws ns)
      as (ws' & ns' & -> & Hws & Hns).
    exists ws', ns'. split; [done|]. eapply Hconv; [|exact Hws|exact Hns].
    intros w Hs. specialize (Hw w Hs). rewrite elem_of_seqZ. lia.
  - destruct (foldl_notify (filter (λ txn, txn <= until) (map_to_list ws).*1) ws ns)
      as (ws' & ns' & -> & Hws & Hns).
    exists ws', ns'. split; [done|]. eapply Hconv; [|exact Hws|exact Hns].
    intros w [l Hl]. rewrite list_elem_of_filter. split; [tauto|]. intros Hwu. split; [done|].
    apply list_elem_of_fmap. exists (w, l). split; [done|]. by apply elem_of_map_to_list.
Qed.

(* ------------------------------------------------------------------ *)
(** ** The invariant of the task *)

Record wm_inv (d0 : Z) (evs : list event) (regs : list (Z * nat)) (st : WaterMark) : Prop := {
  wi_sorted : StronglySorted Z.lt (wm_min_heap st);
  wi_dom : ∀ t, t ∈ wm_min_heap st ↔ is_Some (wm_pending st !! t);
  wi_low : Forall (λ t, wm_done_until st <= t) (wm_min_heap st);
  wi_blocked : ∀ m, head (wm_min_heap st) = Some m → ∃ c, wm_pending st !! m = Some c ∧ c < 0;
  wi_pending : ∀ t c, wm_pending st !! t = Some c → c = - outstanding evs t;
  wi_settled : ∀ t, wm_pending st !! t = None → outstanding evs t = 0;
  wi_seen : ∀ t b, (t, b) ∈ evs → t <= wm_done_until st ∨ t ∈ wm_min_heap st;
  wi_start : d0 <= wm_done_until st;
  wi_from : wm_done_until st = d0 ∨ ∃ b, (wm_done_until st, b) ∈ evs;
  wi_width : 0 <= wm_done_until st < U64_MAX;
  wi_waiting : ∀ w, is_Some (wm_waiters st !! w) → wm_done_until st < w;
  wi_waiters : waiters_spec regs st;
  wi_heap : ∀ t, t ∈ wm_min_heap st → t < U64_MAX ∧ ∃ b, (t, b) ∈ evs;
  wi_regs : ∀ w n, n ∈ default [] (wm_waiters st !! w) → (w, n) ∈ regs
}.

Lemma wm_new_inv d0 : 0 <= d0 < U64_MAX → wm_inv d0 [] [] (WaterMark_new d0).
Proof.
  intros Hd. split; cbn [WaterMark_new wm_min_heap wm_pending wm_done_until wm_waiters].
  - constructor.
  - intros t. rewrite lookup_empty. split; [set_solver|by intros []].
  - constructor.
  - done.
  - intros t c. by rewrite lookup_empty.
  - done.
  - intros t b. set_solver.
  - lia.
  - by left.
  - done.
  - intros w. rewrite lookup_empty. by intros [].
  - split; cbn; set_solver.
  - intros t. set_solver.
  - intros w n. rewrite lookup_empty. cbn. set_solver.
Qed.

(** [done_until] lies at or below everything outstanding, and at or above
    everything settled. *)
Lemma wm_inv_bounds d0 evs regs st :
  wm_inv d0 evs regs st →
  d0 <= wm_done_until st ∧ (∀ t, 0 < outstanding evs t → wm_done_until st <= t) ∧
  (∀ t, settled evs t → t <= wm_done_until st).
Proof.
  intros [Hs Hd Hl Hb Hp Hn Hseen Hd0 _ _ _ _ _ _]. rewrite Forall_forall in Hl. split_and!; [done| |].
  - intros t Ht. apply Hl, Hd. destruct (wm_pending st !! t) eqn:E; [done|]. rewrite (Hn t E) in Ht. lia.
  - intros t [[b Ht] Hlow]. destruct (Hseen t b Ht) as [?|Hin]; [done|].
    destruct (wm_min_heap st) as [|m heap] eqn:E; [set_solver|].
    destruct (Hb m) as (c & Hc & Hc0); [done|]. specialize (Hp m c Hc).
    specialize (Hlow m ltac:(lia)). apply StronglySorted_cons in Hs as [Hm _].
    rewrite Forall_forall in Hm. apply elem_of_cons in Hin as [->|Hin]; [lia|].
    specialize (Hm t Hin). lia.
Qed.

(** The specification follows the moves of [done_until]. *)
Lemma done_until_start d0 : done_until_spec d0 [] d0.
Proof.
  split_and!; [by left|lia|]. intros pre t ->%prefix_nil_inv [[b Hb] _]. by apply elem_of_nil in Hb.
Qed.

Lemma done_until_step d0 evs e regs d st :
  done_until_spec d0 evs d → wm_inv d0 (evs ++ [e]) regs st → d <= wm_done_until st →
  wm_done_until st = d ∨ settled (evs ++ [e]) (wm_done_until st) →
  done_until_spec d0 (evs ++ [e]) (wm_done_until st).
Proof.
  intros (Hfrom & Hd0 & Hmax) I Hle Hwhere. destruct (wm_inv_bounds _ _ _ _ I) as (_ & _ & Hnow). split_and!.
  - destruct Hwhere as [->|Hs]; [|right; by exists (evs ++ [e])].
    destruct Hfrom as [->|(pre & Hpre & Hs)]; [by left|right]. exists pre. split; [by apply prefix_app_r|done].
  - lia.
  - intros pre t Hpre Ht. destruct (decide (pre = evs ++ [e])) as [->|Hne]; [by apply Hnow|].
    assert (pre `prefix_of` evs) as Hpre'.
    { destruct Hpre as [k Hk]. destruct k as [|x k _] using rev_ind; [by rewrite app_nil_r in Hk|].
      rewrite app_assoc in Hk. apply app_inj_tail in Hk as [-> _]. by apply prefix_app_r. }
    specialize (Hmax pre t Hpre' Ht). lia.
Qed.

(** Recording an event. *)
Lemma add_pending_inv d0 evs regs st ts done heap pending :
  wm_inv d0 evs regs st → add_pending (wm_min_heap st) (wm_pending st) ts done = (heap, pending) →
  StronglySorted Z.lt heap ∧
  (∀ t, t ∈ heap ↔ is_Some (pending !! t)) ∧
  (∀ t, t ∈ heap ↔ t = ts ∨ t ∈ wm_min_heap st) ∧
  (∀ t c, pending !! t = Some c → c = - outstanding (evs ++ [(ts, done)]) t) ∧
  (∀ t, pending !! t = None → outstanding (evs ++ [(ts, done)]) t = 0).
Proof.
  intros [Hs Hd _ _ Hp Hn _ _ _ _ _ _ _ _]. unfold add_pending.
  assert (∀ t, t ≠ ts → outstanding (evs ++ [(ts, done)]) t = outstanding evs t) as Hother.
  { intros t Hne. rewrite outstanding_snoc, decide_False by congruence. lia. }
  assert (outstanding (evs ++ [(ts, done)]) ts = outstanding evs ts - mark_delta done) as Hts.
  { rewrite outstanding_snoc, decide_True by done. lia. }
  assert (∀ c, c = - (outstanding evs ts - mark_delta done) →
    let pending := <[ts := c]> (wm_pending st) in
    (∀ t c, pending !! t = Some c → c = - outstanding (evs ++ [(ts, done)]) t) ∧
    (∀ t, pending !! t = None → outstanding (evs ++ [(ts, done)]) t = 0)) as Hupd.
  { intros c Hc. cbn zeta. split; intros t; destruct (decide (t = ts)) as [->|Hne];
      rewrite ?lookup_insert_eq, ?lookup_insert_ne, ?Hother by congruence.
    - intros c' [= <-]. rewrite Hts. lia.
    - intros c'. apply Hp.
    - done.
    - apply Hn. }
  destruct (wm_pending st !! ts) as [prev|] eqn:E; intros [= <- <-].
  - destruct (Hupd (prev + mark_delta done)) as [H1 H2]; [rewrite (Hp ts prev E); lia|].
    assert (ts ∈ wm_min_heap st) as Hin by (apply Hd; by exists prev).
    split_and!; try done.
    + intros t. rewrite Hd. destruct (decide (t = ts)) as [->|].
      * rewrite lookup_insert_eq, E. split; eauto.
      * by rewrite lookup_insert_ne.
    + intros t. split; [tauto|]. by intros [->|?].
  - destruct (Hupd (mark_delta done)) as [H1 H2]; [rewrite (Hn ts E); lia|].
    assert (ts ∉ wm_min_heap st) as Hnin by (rewrite Hd, E; by intros []).
    split_and!; try done.
    + by apply heap_push_sorted.
    + intros t. rewrite elem_of_heap_push, Hd. destruct (decide (t = ts)) as [->|].
      * rewrite lookup_insert_eq. split; eauto.
      * rewrite lookup_insert_ne by done. tauto.
    + intros t. apply elem_of_heap_push.
Qed.

(** Moving [done_until] and notifying keeps what the waiters are promised. *)
Lemma waiters_spec_advance regs st until ws' ns' heap pending :
  waiters_spec regs st → wm_done_until st <= until →
  (∀ w, ws' !! w = if decide (w <= until) then None else wm_waiters st !! w) →
  (∀ n, n ∈ ns' ↔ n ∈ wm_notified st ∨
     ∃ w, w <= until ∧ n ∈ default [] (wm_waiters st !! w)) →
  (∀ w n, n ∈ default [] (wm_waiters st !! w) → (w, n) ∈ regs) →
  waiters_spec regs (mkWaterMark until ws' heap pending ns').
Proof.
  intros [Hr Hn] Hle Hws Hns Hreg. split; cbn [wm_done_until wm_notified wm_waiters].
  - intros w n Hin. specialize (Hr w n Hin). destruct (decide (w <= until)) as [Hwu|Hwu].
    + apply Hns. destruct (decide (w <= wm_done_until st)); [by left|right; by exists w].
    + rewrite decide_False in Hr by lia. by rewrite Hws, decide_False by lia.
  - intros n [Hin|(w & Hwu & Hin)]%Hns.
    + destruct (Hn n Hin) as (w & ? & ?). exists w. split; [done|lia].
    + exists w. split; [by apply Hreg|done].
Qed.

(** What remains after popping lies above what was popped. *)
Lemma popped_bounds popped heap du :
  StronglySorted Z.lt (popped ++ heap) → Forall (λ t, du <= t) (popped ++ heap) →
  du <= default du (last popped) ∧
  Forall (λ t, t <= default du (last popped)) popped ∧
  Forall (λ t, default du (last popped) <= t) heap ∧
  (popped = [] ∨ default du (last popped) ∈ popped).
Proof.
  intros Hs Hall. destruct popped as [|x popped _] using rev_ind.
  { cbn. split_and!; [lia|done|done|by left]. }
  rewrite last_snoc. cbn [default from_option id].
  rewrite <- app_assoc in Hs, Hall. cbn in Hs, Hall. apply StronglySorted_app in Hs as (Hlt & _ & Hs).
  apply StronglySorted_cons in Hs as [Hx _]. rewrite !Forall_forall in *. split_and!.
  - apply Hall. set_solver.
  - intros t [Ht|Ht]%elem_of_app; [|apply list_elem_of_singleton in Ht as ->; lia].
    specialize (Hlt t x Ht ltac:(set_solver)). lia.
  - intros t Ht. specialize (Hx t Ht). lia.
  - right. set_solver.
Qed.

(** Popping a prefix of the heap and dropping its counters keeps the heap and
    the counters in step, and leaves the counters of the rest alone. *)
Lemma popped_pending popped heap (pending pending' : gmap Z Z) :
  StronglySorted Z.lt (popped ++ heap) →
  (∀ t, t ∈ popped ++ heap ↔ is_Some (pending !! t)) →
  (∀ t, pending' !! t = if decide (t ∈ popped) then None else pending !! t) →
  (∀ t, t ∈ heap ↔ is_Some (pending' !! t)) ∧
  (∀ m, head heap = Some m → pending' !! m = pending !! m).
Proof.
  intros Hs Hd Hp. apply StronglySorted_app in Hs as (Hlt & _ & _).
  assert (∀ t, t ∈ heap → t ∉ popped) as Hdisj.
  { intros t H1 H2. specialize (Hlt t t H2 H1). lia. }
  split.
  - intros t. rewrite Hp. case_decide as Hpd.
    + split; [intros ?; by exfalso; eapply Hdisj|by intros []].
    + rewrite <- Hd. set_solver.
  - intros m Hm. rewrite Hp, decide_False; [done|]. apply Hdisj.
    by destruct heap; simplify_eq/=; left.
Qed.

Lemma process_one_inv d0 evs regs st ts done :
  wm_inv d0 evs regs st → wm_done_until st <= ts < U64_MAX →
  (∀ t, 0 <= outstanding (evs ++ [(ts, done)]) t) →
  ∃ st', process_one st ts done = Ok st' ∧ wm_inv d0 (evs ++ [(ts, done)]) regs st' ∧
    wm_done_until st <= wm_done_until st' ∧
    (wm_done_until st' = wm_done_until st ∨ settled (evs ++ [(ts, done)]) (wm_done_until st')).
Proof.
  intros I Hts Hnn. unfold process_one.
  destruct (add_pending (wm_min_heap st) (wm_pending st) ts done) as [heap pending] eqn:Eadd.
  destruct (add_pending_inv _ _ _ _ _ _ _ _ I Eadd) as (Hs & Hd & Hin & Hp & Hn).
  destruct I as [_ _ Hlow _ _ _ Hseen Hd0 Hfrom Hwid Hwait Hws Hhs Hreg]. rewrite Forall_forall in Hlow.
  rewrite (proj2 (Z.leb_le (wm_done_until st) ts)) by lia. cbn [assert_or_panic mbind outcome_bind].
  destruct (pop_done_spec heap pending (wm_done_until st) Hs) as
    (popped & heap' & pending' & until & -> & Hheap & Hpop & Hpend' & Hu & Hhead).
  { intros t Ht. by apply Hd. }
  assert (Forall (λ t, wm_done_until st <= t) (popped ++ heap')) as Hall.
  { rewrite <- Hheap. apply Forall_forall. intros t [->|Ht]%Hin; [lia|by apply Hlow]. }
  assert (∀ t, t ∈ heap → t < U64_MAX ∧ ∃ b, (t, b) ∈ evs ++ [(ts, done)]) as Hhs'.
  { intros t [->|Ht]%Hin; [split; [lia|exists done; set_solver]|].
    destruct (Hhs t Ht) as [? [b ?]]. split; [done|]. exists b. set_solver. }
  rewrite Hheap in Hs. destruct (popped_bounds _ _ _ Hs Hall) as (Hb1 & Hb2 & Hb3 & Hb4).
  rewrite <- Hu in *. rewrite Forall_forall in Hb2.
  rewrite (proj2 (Z.leb_le (wm_done_until st) until)) by lia. cbn [assert_or_panic mbind outcome_bind].
  destruct (notify_waiters_spec (wm_waiters st) (wm_notified st) (wm_done_until st) until)
    as (ws' & ns' & -> & Hws' & Hns'); [done|done|done|]. cbn [mbind outcome_bind].
  eexists. split; [reflexivity|].
  assert (until = wm_done_until st ∨ settled (evs ++ [(ts, done)]) until) as Hwhere.
  { destruct Hb4 as [->|Hpd]; [by left|right].
    assert (∀ t, t ∈ popped → outstanding (evs ++ [(ts, done)]) t = 0) as Hzero.
    { intros t Ht. destruct (Hpop t Ht) as (c & Hc & ?). specialize (Hp t c Hc). specialize (Hnn t). lia. }
    split; [apply Hhs'; rewrite Hheap; set_solver|]. intros t' Ht'.
    destruct (decide (t' ∈ popped)) as [Hin'|Hnin]; [rewrite Hzero in Ht' by done; lia|].
    assert (t' ∈ heap') as Hh'.
    { assert (t' ∈ heap) as Ht'h.
      { apply Hd. destruct (pending !! t') eqn:E; [by eexists|]. rewrite (Hn t' E) in Ht'. lia. }
      rewrite Hheap in Ht'h. set_solver. }
    rewrite Forall_forall in Hb3. specialize (Hb3 t' Hh'). specialize (Hzero until Hpd).
    destruct (decide (t' = until)) as [->|]; lia. }
  split; [|by split].
  assert (until = wm_done_until st ∨ until ∈ heap) as Huntil.
  { destruct Hb4 as [->|?]; [by left|right; rewrite Hheap; set_solver]. }
  assert (∀ t, t ∈ heap → t ∈ popped ∨ t ∈ heap') as Hsplit by (intros t; rewrite Hheap; set_solver).
  rewrite Hheap in Hd. destruct (popped_pending _ _ _ _ Hs Hd Hpend') as [Hd' Hrest].
  split; cbn [wm_min_heap wm_pending wm_done_until wm_waiters].
  - by apply StronglySorted_app in Hs as (_ & _ & Hs).
  - exact Hd'.
  - done.
  - intros m Hm. destruct (Hhead m Hm) as (c & Hc & ?). exists c. by rewrite Hrest.
  - intros t c. rewrite Hpend'. case_decide; [done|]. apply Hp.
  - intros t. rewrite Hpend'. case_decide as Hpd; [|apply Hn]. intros _.
    destruct (Hpop t Hpd) as (c & Hc & ?). specialize (Hp t c Hc). specialize (Hnn t). lia.
  - intros t b [Hev|Hev]%elem_of_app.
    + destruct (Hseen t b Hev) as [?|Hh]; [left; lia|].
      destruct (Hsplit t) as [Hpd|?]; [apply Hin; by right|left; by apply Hb2|by right].
    + apply list_elem_of_singleton in Hev as [= -> ->].
      destruct (Hsplit ts) as [Hpd|?]; [apply Hin; by left|left; by apply Hb2|by right].
  - lia.
  - destruct Huntil as [->|Hu']; [|right; by apply Hhs'].
    destruct Hfrom as [->|[b Hb]]; [by left|right; exists b; set_solver].
  - destruct Huntil as [->|Hu']; [done|]. destruct (Hhs' until Hu') as [? _]. lia.
  - intros w. rewrite Hws'. case_decide; [by intros []|lia].
  - by eapply waiters_spec_advance.
  - intros t Ht. apply Hhs'. rewrite Hheap. set_solver.
  - intros w n. rewrite Hws'. case_decide; [cbn; set_solver|apply Hreg].
Qed.

Lemma push_waiter_inv d0 evs regs st w n :
  wm_inv d0 evs regs st → wm_inv d0 evs (regs ++ [(w, n)]) (push_waiter st w n).
Proof.
  intros [? ? ? ? ? ? ? ? ? ? Hwait [Hr Hn] ? Hreg]. unfold push_waiter. case_if;
    split; cbn [wm_min_heap wm_pending wm_done_until wm_waiters]; try done.
  - split; cbn [wm_done_until wm_notified wm_waiters].
    + intros w' n' [Hin|Hin]%elem_of_app.
      * specialize (Hr w' n' Hin). case_decide; [set_solver|done].
      * apply list_elem_of_singleton in Hin as [= -> ->]. rewrite decide_True by done. set_solver.
    + intros n' [Hin|Hin]%elem_of_app.
      * destruct (Hn n' Hin) as (w' & ? & ?). exists w'. set_solver.
      * apply list_elem_of_singleton in Hin as ->. exists w. set_solver.
  - intros w' n' Hin. specialize (Hreg w' n' Hin). set_solver.
  - intros w'. destruct (decide (w' = w)) as [->|]; [lia|]. rewrite lookup_insert_ne by done. apply Hwait.
  - split; cbn [wm_done_until wm_notified wm_waiters].
    + intros w' n' [Hin|Hin]%elem_of_app.
      * specialize (Hr w' n' Hin). destruct (decide (w' <= wm_done_until st)); [done|].
        destruct (decide (w' = w)) as [->|].
        -- rewrite lookup_insert_eq. cbn. set_solver.
        -- by rewrite lookup_insert_ne.
      * apply list_elem_of_singleton in Hin as [= -> ->]. rewrite decide_False by lia.
        rewrite lookup_insert_eq. cbn. set_solver.
    + intros n' Hin. destruct (Hn n' Hin) as (w' & ? & ?). exists w'. set_solver.
  - intros w' n'. destruct (decide (w' = w)) as [->|].
    + rewrite lookup_insert_eq. cbn [default from_option id]. intros [Hin|Hin]%elem_of_app.
      * specialize (Hreg w n' Hin). set_solver.
      * set_solver.
    + rewrite lookup_insert_ne by done. intros Hin. specialize (Hreg w' n' Hin). set_solver.
Qed.

(** Processing a list of events. *)
Definition process_events (st : WaterMark) (evs : list event) : outcome WaterMark :=
  fold_outcome (λ st e, process_one st e.1 e.2) st evs.

Lemma handle_mark_events st m :
  mk_waiter m = None → handle_mark st m = process_events st (mark_events m).
Proof.
  intros Hw. unfold handle_mark, process_events, mark_events. rewrite Hw, fold_outcome_app.
  assert (∀ l s, fold_outcome (process_index (mk_done m)) s l =
    fold_outcome (λ st e, process_one st e.1 e.2) s ((λ i, (i, mk_done m)) <$> l)) as Hfold.
  { induction l as [|i l IH]; intros s; rewrite ?fmap_cons; cbn [fold_outcome fst snd]; [done|].
    change (process_index (mk_done m) s i) with (process_one s i (mk_done m)).
    destruct (process_one s i (mk_done m)); cbn [mbind outcome_bind]; [apply IH|done|done]. }
  case_if; cbn [fold_outcome fst snd mbind outcome_bind].
  - destruct (process_one st (mk_txn_ts m) (mk_done m)); cbn [mbind outcome_bind]; [apply Hfold|done|done].
  - apply Hfold.
Qed.

Lemma process_event_inv d0 evs regs st e :
  wm_inv d0 evs regs st → admissible d0 (evs ++ [e]) →
  ∃ st', process_one st e.1 e.2 = Ok st' ∧ wm_inv d0 (evs ++ [e]) regs st' ∧
    wm_done_until st <= wm_done_until st' ∧
    (wm_done_until st' = wm_done_until st ∨ settled (evs ++ [e]) (wm_done_until st')).
Proof.
  intros I Ha. pose proof (wm_inv_bounds _ _ _ _ I) as (Hd0 & Hout & _).
  destruct e as [ts done]. apply (process_one_inv d0 evs regs st ts done I);
    [|intros t; by eapply admissible_nonneg]. cbn [fst].
  destruct I as [_ Hd _ _ _ Hn _ _ Hfrom _ _ _ Hhs _].
  inversion Ha as [E|evs0 t Ha' Hd0t Hall E|evs0 t Ha' Ht E]; [by destruct evs|..];
    apply app_inj_tail in E as [-> [= -> <-]].
  - split; [|lia]. destruct Hfrom as [->|[b Hb]]; [lia|].
    by eapply Forall_forall in Hall; [|exact Hb].
  - split; [by apply Hout|]. destruct (wm_pending st !! ts) as [c|] eqn:E.
    + destruct (Hhs ts) as [? _]; [apply Hd; by exists c|done].
    + rewrite (Hn ts E) in Ht. lia.
Qed.

Lemma process_events_inv d0 evs regs st evs' :
  wm_inv d0 evs regs st → admissible d0 (evs ++ evs') →
  ∃ st', process_events st evs' = Ok st' ∧ wm_inv d0 (evs ++ evs') regs st' ∧
    wm_done_until st <= wm_done_until st' ∧
    (done_until_spec d0 evs (wm_done_until st) → done_until_spec d0 (evs ++ evs') (wm_done_until st')).
Proof.
  revert evs st. induction evs' as [|e evs' IH]; intros evs st I Ha.
  { exists st. rewrite app_nil_r. by split_and!. }
  assert (evs ++ e :: evs' = (evs ++ [e]) ++ evs') as Heq by by rewrite <- app_assoc.
  rewrite Heq in *. destruct (process_event_inv d0 evs regs st e I) as (st1 & H1 & I1 & Hle1 & Hw1).
  { by eapply admissible_app_inv. }
  destruct (IH (evs ++ [e]) st1 I1 Ha) as (st2 & H2 & I2 & Hle2 & Hsp2).
  exists st2. split_and!; [|done|lia|intros Hsp; by eapply Hsp2, done_until_step]. unfold process_events in *. cbn [fold_outcome].
  by rewrite H1.
Qed.

Lemma trace_app ms ms' : trace (ms ++ ms') = trace ms ++ trace ms'.
Proof. unfold trace. by rewrite fmap_app, concat_app. Qed.

Lemma registered_app ms ms' : registered (ms ++ ms') = registered ms ++ registered ms'.
Proof. apply omap_app. Qed.

Lemma handle_mark_inv d0 evs regs st m :
  wm_inv d0 evs regs st → admissible d0 (evs ++ mark_events m) →
  ∃ st', handle_mark st m = Ok st' ∧
    wm_inv d0 (evs ++ mark_events m) (regs ++ registered [m]) st' ∧
    wm_done_until st <= wm_done_until st' ∧
    (done_until_spec d0 evs (wm_done_until st) → done_until_spec d0 (evs ++ mark_events m) (wm_done_until st')).
Proof.
  intros I Ha. destruct (mk_waiter m) as [n|] eqn:Hw.
  - exists (push_waiter st (mk_txn_ts m) n). unfold handle_mark, mark_events, registered. cbn.
    rewrite Hw. cbn. rewrite app_nil_r. split_and!; [done|by apply push_waiter_inv|..];
      unfold push_waiter; by case_if.
  - rewrite (handle_mark_events st m Hw). unfold registered. cbn. rewrite Hw. cbn.
    rewrite app_nil_r. by apply process_events_inv.
Qed.

Lemma process_inv d0 ms0 ms st :
  wm_inv d0 (trace ms0) (registered ms0) st → admissible d0 (trace (ms0 ++ ms)) →
  ∃ st', process st ms = Ok st' ∧ wm_inv d0 (trace (ms0 ++ ms)) (registered (ms0 ++ ms)) st' ∧
    wm_done_until st <= wm_done_until st' ∧
    (done_until_spec d0 (trace ms0) (wm_done_until st) →
     done_until_spec d0 (trace (ms0 ++ ms)) (wm_done_until st')).
Proof.
  revert ms0 st. induction ms as [|m ms IH]; intros ms0 st I Ha.
  { exists st. rewrite app_nil_r. by split_and!. }
  assert (ms0 ++ m :: ms = (ms0 ++ [m]) ++ ms) as Heq by by rewrite <- app_assoc.
  rewrite Heq in *.
  assert (trace (ms0 ++ [m]) = trace ms0 ++ mark_events m) as Ht.
  { rewrite trace_app. unfold trace at 2. cbn. by rewrite app_nil_r. }
  destruct (handle_mark_inv d0 (trace ms0) (registered ms0) st m I) as (st1 & H1 & I1 & Hle1 & Hsp1).
  { rewrite <- Ht. rewrite trace_app in Ha. by eapply admissible_app_inv. }
  rewrite <- Ht in I1, Hsp1. rewrite <- registered_app in I1.
  destruct (IH (ms0 ++ [m]) st1 I1 Ha) as (st2 & H2 & I2 & Hle2 & Hsp2).
  exists st2. split_and!; [|done|lia|by auto]. unfold process in *. cbn [fold_outcome]. by rewrite H1.
Qed.

(** ** Lemmas: timestamps that begin once *)

(** Every beginning is above the start and has not been seen before. *)
Definition fresh_begins (d0 : Z) (evs : list event) : Prop :=
  ∀ pre t post, evs = pre ++ (t, false) :: post → d0 < t ∧ ∀ b, (t, b) ∉ pre.

Lemma fresh_begins_app d0 evs evs' : fresh_begins d0 (evs ++ evs') → fresh_begins d0 evs.
Proof.
  intros Hf pre t post ->. apply (Hf pre t (post ++ evs')). by rewrite <- app_assoc.
Qed.

Lemma fresh_begins_snoc d0 evs e :
  fresh_begins d0 evs → (e.2 = false → d0 < e.1 ∧ ∀ b, (e.1, b) ∉ evs) →
  fresh_begins d0 (evs ++ [e]).
Proof.
  intros Hf He pre t post Heq. destruct post as [|x post _] using rev_ind.
  - apply app_inj_tail in Heq as [<- ->]. by apply He.
  - rewrite app_comm_cons, app_assoc in Heq. apply app_inj_tail in Heq as [-> ->]. by eapply Hf.
Qed.

(** Then [done_until] lies strictly below everything outstanding. *)
Lemma process_event_strict d0 evs regs st e :
  wm_inv d0 evs regs st → (∀ t, 0 < outstanding evs t → wm_done_until st < t) →
  fresh_begins d0 (evs ++ [e]) → admissible d0 (evs ++ [e]) →
  ∃ st', process_one st e.1 e.2 = Ok st' ∧ wm_inv d0 (evs ++ [e]) regs st' ∧
    ∀ t, 0 < outstanding (evs ++ [e]) t → wm_done_until st' < t.
Proof.
  intros I Hst Hf Ha.
  destruct (process_event_inv d0 evs regs st e I Ha) as (st' & Hp & I' & Hle & Hwhere).
  exists st'. split_and!; try done. intros t Ht.
  destruct (wm_inv_bounds _ _ _ _ I') as (_ & Hout & _). specialize (Hout t Ht).
  destruct (decide (wm_done_until st' = t)) as [<-|]; [exfalso|lia].
  destruct Hwhere as [Hsame|[_ Habove]]; [|specialize (Habove _ Ht); lia]. rewrite Hsame in Ht. destruct e as [ts done].
  rewrite outstanding_snoc in Ht. case_decide as E; [subst ts|specialize (Hst (wm_done_until st) ltac:(lia)); lia].
  destruct done; cbn [mark_delta] in Ht; [specialize (Hst (wm_done_until st) ltac:(lia)); lia|].
  destruct (Hf evs (wm_done_until st) [] eq_refl) as [Hd Hnin].
  destruct (wi_from _ _ _ _ I) as [?|[b Hb]]; [lia|]. by apply (Hnin b).
Qed.

Lemma process_strict d0 ms st :
  0 <= d0 < U64_MAX → process (WaterMark_new d0) ms = Ok st →
  admissible d0 (trace ms) → fresh_begins d0 (trace ms) →
  ∀ t, 0 < outstanding (trace ms) t → wm_done_until st < t.
Proof.
  intros Hd Hp Ha Hf.
  enough (∃ st, process (WaterMark_new d0) ms = Ok st ∧
    wm_inv d0 (trace ms) (registered ms) st ∧
    ∀ t, 0 < outstanding (trace ms) t → wm_done_until st < t) as (st' & Hp' & _ & Hs)
    by (rewrite Hp' in Hp; by simplify_eq).
  clear Hp st. induction ms as [|m ms IH] using rev_ind.
  { exists (WaterMark_new d0). split_and!; [done|by apply wm_new_inv|done]. }
  rewrite trace_app in Ha, Hf. assert (trace [m] = mark_events m) as Htm
    by (unfold trace; cbn; by rewrite app_nil_r).
  destruct IH as (st & Hp & I & Hs); [by eapply admissible_app_inv|by eapply fresh_begins_app|].
  unfold process in *. rewrite fold_outcome_app, Hp. cbn [mbind outcome_bind fold_outcome].
  destruct (mk_waiter m) as [n|] eqn:Ew.
  { rewrite trace_app, registered_app, Htm. unfold mark_events, handle_mark.
    unfold registered at 2. cbn. rewrite Ew. cbn. rewrite app_nil_r. eexists. split; [reflexivity|].
    split; [by apply push_waiter_inv|]. unfold push_waiter. by case_if. }
  rewrite (handle_mark_events _ _ Ew), trace_app, registered_app.
  assert (registered [m] = []) as -> by (unfold registered; cbn; by rewrite Ew).
  rewrite Htm in *. rewrite app_nil_r. clear Htm Ew Hp.
  generalize dependent (mark_events m). intros evs'. unfold process_events.
  revert st I Hs. generalize (trace ms) as evs. induction evs' as [|e evs' IH]; intros evs st I Hs Ha Hf.
  { exists st. rewrite app_nil_r. by split. }
  assert (evs ++ e :: evs' = (evs ++ [e]) ++ evs') as Heq by by rewrite <- app_assoc.
  rewrite Heq in *.
  destruct (process_event_strict d0 evs (registered ms) st e I Hs) as (st1 & Hp1 & I1 & Hs1);
    [by eapply fresh_begins_app|by eapply admissible_app_inv|].
  destruct (IH (evs ++ [e]) st1 I1 Hs1 Ha Hf) as (st2 & Hp2 & I2 & Hs2).
  exists st2. split_and!; try done. cbn [fold_outcome]. rewrite Hp1. exact Hp2.
Qed.

(* ------------------------------------------------------------------ *)
(** ** Theorems *)

(** C5: On the marks the oracle sends (beginnings at timestamps that do not
    decrease, ends where work is outstanding, waiters anywhere) the task never
    panics; [done_until] is exactly the greatest timestamp that, after some event so
    far, was seen and below all outstanding work, or the start when there was none;
    it is not above any outstanding timestamp; and a waiter has been notified exactly
    when [done_until] has reached its timestamp. *)
Theorem watermark_refines d0 marks :
  0 <= d0 < U64_MAX → admissible d0 (trace marks) →
  ∃ st, process (WaterMark_new d0) marks = Ok st ∧
    done_until_spec d0 (trace marks) (wm_done_until st) ∧
    (∀ t, 0 < outstanding (trace marks) t → wm_done_until st <= t) ∧ waiters_spec (registered marks) st.
Proof.
  intros Hd Ha. destruct (process_inv d0 [] marks _ (wm_new_inv d0 Hd) Ha) as (st & Hp & I & _ & Hsp).
  exists st. split_and!; [done|by apply Hsp, done_until_start|apply (wm_inv_bounds _ _ _ _ I)|apply (wi_waiters _ _ _ _ I)].
Qed.

(** C26: [done_until] never goes back as marks arrive, and once every beginning
    has its end it has passed every timestamp seen, so that every waiter for such
    a timestamp has been notified. *)
Theorem watermark_progress d0 marks marks' :
  0 <= d0 < U64_MAX → admissible d0 (trace (marks ++ marks')) →
  ∃ st st', process (WaterMark_new d0) marks = Ok st ∧ process st marks' = Ok st' ∧
    wm_done_until st <= wm_done_until st' ∧
    ((∀ t, outstanding (trace (marks ++ marks')) t = 0) →
     ∀ t b, (t, b) ∈ trace (marks ++ marks') →
       t <= wm_done_until st' ∧
       ∀ w n, (w, n) ∈ registered (marks ++ marks') → w <= t → n ∈ wm_notified st').
Proof.
  intros Hd Ha.
  destruct (process_inv d0 [] marks _ (wm_new_inv d0 Hd)) as (st & Hp & I & _).
  { cbn [app]. rewrite trace_app in Ha. by eapply admissible_app_inv. }
  destruct (process_inv d0 marks marks' st I Ha) as (st' & Hp' & I' & Hle & _).
  exists st, st'. split_and!; try done. intros Hzero t b Ht.
  destruct (wm_inv_bounds _ _ _ _ I') as (_ & _ & Hdone).
  assert (t <= wm_done_until st') as Htd.
  { apply Hdone. split; [by exists b|]. intros t' Ht'. rewrite Hzero in Ht'. lia. }
  split; [done|]. intros w n Hr Hw. destruct (wi_waiters _ _ _ _ I') as [Hreg _].
  specialize (Hreg w n Hr). by rewrite decide_True in Hreg by lia.
Qed.

(** ** Witnesses *)

Module WaterMarkExamples.

(** Two transactions begin, the younger ends first; a reader waits for it. *)
Definition marks : list Mark :=
  [Mark_new 4 false; Mark_new 5 false; mkMark 5 (Some 1%nat) [] false; Mark_new 5 true].

Lemma marks_admissible : admissible 3 (trace (marks ++ [Mark_new 4 true])).
Proof.
  change (admissible 3 (((([] ++ [(4, false)]) ++ [(5, false)]) ++ [(5, true)]) ++ [(4, true)])).
  apply adm_end; [|reflexivity]. apply adm_end; [|reflexivity].
  apply adm_begin; [|vm_compute; split; congruence|repeat constructor; cbn; lia].
  apply adm_begin; [constructor|vm_compute; split; congruence|constructor].
Defined.

Lemma watermark_refines_witness :
  ∃ st, process (WaterMark_new 3) (marks ++ [Mark_new 4 true]) = Ok st ∧ wm_done_until st = 5.
Proof.
  destruct (watermark_refines 3 (marks ++ [Mark_new 4 true])) as (st & Hp & _).
  - vm_compute. split; congruence.
  - apply marks_admissible.
  - exists st. split; [exact Hp|]. vm_compute in Hp. by injection Hp as <-.
Defined.

Lemma watermark_progress_witness :
  ∃ st st', process (WaterMark_new 3) marks = Ok st ∧ process st [Mark_new 4 true] = Ok st' ∧
    wm_done_until st = 3 ∧ wm_done_until st' = 5.
Proof.
  destruct (watermark_progress 3 marks [Mark_new 4 true]) as (st & st' & Hp & Hp' & _).
  - vm_compute. split; congruence.
  - apply marks_admissible.
  - exists st, st'. split; [exact Hp|]. split; [exact Hp'|].
    vm_compute in Hp. injection Hp as <-. vm_compute in Hp'. injection Hp' as <-. split; reflexivity.
Defined.

End WaterMarkExamples.
