(* ===== verification/Oracle.v ===== *)
(** * Oracle: timestamps, conflicts and the marks of transactions

    [OracleInner] and [OracleCore] of src/src/txn/oracle.rs, with the senders of
    marks of src/src/txn/water_mark.rs.  The state holds the oracle's data, the
    two watermark tasks (WaterMark.v) and the channels to them; an operation
    appends marks to the channels, and the tasks take them in order.

    [sys_step] is the interleaving of any number of transactions that begin,
    commit, finish and are discarded with the two tasks. *)
From stdpp Require Import base list list_numbers gmap sets.
From Stdlib Require Import ZArith Lia.
From S2P Require Import Prelude Kv WaterMark.

Local Open Scope Z_scope.

(** ** Configuration (src/src/txn/mod.rs) *)

Record TxnConfig : Type := mkTxnConfig {
  tx_read_only : bool;
  tx_detect_conflicts : bool;
  tx_managed_txns : bool
}.

Definition TxnConfig_default : TxnConfig := mkTxnConfig false true false.

(** ** State *)

Record CommittedTxn : Type := mkCommittedTxn {
  ct_ts : Z;
  ct_conflict_keys : gset Z
}.

Record OracleCore : Type := mkOracleCore {
  oc_next_txn_ts : Z;
  oc_discard_ts : Z;
  oc_last_cleanup_ts : Z;
  oc_committed_txns : list CommittedTxn
}.

Record Oracle : Type := mkOracle {
  or_inner : OracleCore;
  or_read_mark : WaterMark;
  or_read_chan : list Mark;
  or_txn_mark : WaterMark;
  or_txn_chan : list Mark;
  or_config : TxnConfig
}.

Definition Oracle_new (config : TxnConfig) (max_version : Z) : outcome Oracle :=
  next ← TxnTs_add max_version 1;
  Ok (mkOracle (mkOracleCore next 0 0 []) (WaterMark_new max_version) []
        (WaterMark_new max_version) [] config).

(** The part of a transaction the oracle reads. *)
Record OTxn : Type := mkOTxn {
  ot_read_ts : Z;
  ot_commit_ts : Z;
  ot_read_key_hash : list Z;
  ot_conflict_keys : option (gset Z);
  ot_done_read : bool
}.

Definition set_done_read (t : OTxn) : OTxn :=
  mkOTxn (ot_read_ts t) (ot_commit_ts t) (ot_read_key_hash t) (ot_conflict_keys t) true.

Definition set_inner (o : Oracle) (c : OracleCore) : Oracle :=
  mkOracle c (or_read_mark o) (or_read_chan o) (or_txn_mark o) (or_txn_chan o) (or_config o).

Definition send_read (o : Oracle) (m : Mark) : Oracle :=
  mkOracle (or_inner o) (or_read_mark o) (or_read_chan o ++ [m]) (or_txn_mark o) (or_txn_chan o)
    (or_config o).

Definition send_txn (o : Oracle) (m : Mark) : Oracle :=
  mkOracle (or_inner o) (or_read_mark o) (or_read_chan o) (or_txn_mark o) (or_txn_chan o ++ [m])
    (or_config o).

(** ** Operations *)

Definition discard_at_or_below (o : Oracle) : Z :=
  if tx_managed_txns (or_config o) then oc_discard_ts (or_inner o)
  else wm_done_until (or_read_mark o).

(** [WaterMarkInner::wait_for_mark]: nothing to wait for, or a waiter is sent. *)
Definition wait_for_mark (o : Oracle) (read_ts : Z) (notify : nat) : Oracle :=
  if read_ts <=? wm_done_until (or_txn_mark o) then o
  else send_txn o (mkMark read_ts (Some notify) [] false).

Definition get_latest_read_ts (o : Oracle) (notify : nat) : outcome (Z * Oracle) :=
  if tx_managed_txns (or_config o) then Panic
  else
    read_ts ← TxnTs_sub (oc_next_txn_ts (or_inner o)) 1;
    let o := send_read o (Mark_new read_ts false) in
    Ok (read_ts, wait_for_mark o read_ts notify).

(** [done_read]: the flag is swapped, the mark is sent once. *)
Definition done_read (o : Oracle) (t : OTxn) : Oracle * OTxn :=
  if ot_done_read t then (o, t)
  else (send_read o (Mark_new (ot_read_ts t) true), set_done_read t).

Definition done_commit (o : Oracle) (commit_ts : Z) : Oracle :=
  if negb (tx_managed_txns (or_config o)) then send_txn o (Mark_new commit_ts true) else o.

Definition cleanup_committed_txns (o : Oracle) : outcome Oracle :=
  if negb (tx_detect_conflicts (or_config o)) then Ok o
  else
    let guard := or_inner o in
    let max_read_tx :=
      if tx_managed_txns (or_config o) then oc_discard_ts guard
      else wm_done_until (or_read_mark o) in
    _ ← assert_or_panic (oc_last_cleanup_ts guard <=? max_read_tx);
    if max_read_tx =? oc_last_cleanup_ts guard then Ok o
    else
      Ok (set_inner o (mkOracleCore (oc_next_txn_ts guard) (oc_discard_ts guard) max_read_tx
            (filter (λ txn, max_read_tx < ct_ts txn) (oc_committed_txns guard)))).

(** The read-write conflict check. *)
Definition conflicts_with (t : OTxn) (c : CommittedTxn) : bool :=
  (ot_read_ts t <? ct_ts c)
  && existsb (λ h, bool_decide (h ∈ ct_conflict_keys c)) (ot_read_key_hash t).

Definition has_conflict (o : Oracle) (t : OTxn) : bool :=
  if (length (ot_read_key_hash t) =? 0)%nat then false
  else existsb (conflicts_with t) (oc_committed_txns (or_inner o)).

Definition set_next_txn_ts (c : OracleCore) (z : Z) : OracleCore :=
  mkOracleCore z (oc_discard_ts c) (oc_last_cleanup_ts c) (oc_committed_txns c).

Definition push_committed (c : OracleCore) (x : CommittedTxn) : OracleCore :=
  mkOracleCore (oc_next_txn_ts c) (oc_discard_ts c) (oc_last_cleanup_ts c)
    (oc_committed_txns c ++ [x]).

Definition get_latest_commit_ts (o : Oracle) (t : OTxn) : outcome (Z * Oracle * OTxn) :=
  if has_conflict o t then Err (EDB Conflict)
  else
    '(commit_ts, o, t) ←
      (if negb (tx_managed_txns (or_config o)) then
         let '(o, t) := done_read o t in
         o ← cleanup_committed_txns o;
         let txn_ts := oc_next_txn_ts (or_inner o) in
         next ← TxnTs_add txn_ts 1;
         let o := set_inner o (set_next_txn_ts (or_inner o) next) in
         Ok (txn_ts, send_txn o (Mark_new txn_ts false), t)
       else Ok (ot_commit_ts t, o, t));
    _ ← assert_or_panic (oc_last_cleanup_ts (or_inner o) <=? commit_ts);
    o ← (if tx_managed_txns (or_config o) then
           keys ← unwrap (ot_conflict_keys t);
           Ok (set_inner o (push_committed (or_inner o) (mkCommittedTxn commit_ts keys)))
         else Ok o);
    Ok (commit_ts, o, t).

(** The tasks take the next mark of their channel. *)
Definition deliver_read (o : Oracle) : outcome Oracle :=
  match or_read_chan o with
  | [] => Ok o
  | m :: rest =>
      wm ← handle_mark (or_read_mark o) m;
      Ok (mkOracle (or_inner o) wm rest (or_txn_mark o) (or_txn_chan o) (or_config o))
  end.

Definition deliver_txn (o : Oracle) : outcome Oracle :=
  match or_txn_chan o with
  | [] => Ok o
  | m :: rest =>
      wm ← handle_mark (or_txn_mark o) m;
      Ok (mkOracle (or_inner o) (or_read_mark o) (or_read_chan o) wm rest (or_config o))
  end.

(** ** The system: transactions interleaved with the tasks *)

(** A live transaction and the timestamp of its commit in flight. *)
Record Live : Type := mkLive { lv_txn : OTxn; lv_commit : option Z }.

Record Sys : Type := mkSys { sys_oracle : Oracle; sys_txns : list Live }.

Inductive sys_step : Sys → Sys → Prop :=
| step_begin o o' ts notify ck txns :
    get_latest_read_ts o notify = Ok (ts, o') →
    sys_step (mkSys o txns) (mkSys o' (txns ++ [mkLive (mkOTxn ts 0 [] ck false) None]))
| step_read o txns (i : nat) l h :
    txns !! i = Some l →
    let t := lv_txn l in
    sys_step (mkSys o txns)
      (mkSys o (<[i := mkLive (mkOTxn (ot_read_ts t) (ot_commit_ts t) (ot_read_key_hash t ++ [h])
                                 (ot_conflict_keys t) (ot_done_read t)) (lv_commit l)]> txns))
| step_commit o o' txns i l t' ts :
    txns !! i = Some l → lv_commit l = None →
    get_latest_commit_ts o (lv_txn l) = Ok (ts, o', t') →
    sys_step (mkSys o txns) (mkSys o' (<[i := mkLive t' (Some ts)]> txns))
| step_done o txns i l ts :
    txns !! i = Some l → lv_commit l = Some ts →
    sys_step (mkSys o txns) (mkSys (done_commit o ts) (<[i := mkLive (lv_txn l) None]> txns))
| step_discard o o' txns i l t' :
    txns !! i = Some l → done_read o (lv_txn l) = (o', t') →
    sys_step (mkSys o txns) (mkSys o' (<[i := mkLive t' (lv_commit l)]> txns))
| step_deliver_read o o' txns :
    deliver_read o = Ok o' → sys_step (mkSys o txns) (mkSys o' txns)
| step_deliver_txn o o' txns :
    deliver_txn o = Ok o' → sys_step (mkSys o txns) (mkSys o' txns).

(** The states reachable from an oracle opened at [max_version]. *)
Inductive reachable (config : TxnConfig) (max_version : Z) : Sys → Prop :=
| reach_init o : Oracle_new config max_version = Ok o → reachable config max_version (mkSys o [])
| reach_step s s' : reachable config max_version s → sys_step s s' → reachable config max_version s'.

(* ------------------------------------------------------------------ *)
(** ** Lemmas: channels *)

(** The marks sent so far split into those the task has processed and those in
    the channel; their trace is admissible and below the next timestamp. *)
Record chan_inv (d0 next : Z) (wm : WaterMark) (chan sent : list Mark) : Prop := {
  ch_split : ∃ processed, sent = processed ++ chan ∧ process (WaterMark_new d0) processed = Ok wm;
  ch_adm : admissible d0 (trace sent);
  ch_below : Forall (λ e, e.1 < next) (trace sent)
}.

Lemma chan_new d0 next : chan_inv d0 next (WaterMark_new d0) [] [].
Proof. split; [by exists []|constructor|constructor]. Qed.

Lemma chan_wm_inv d0 next wm chan sent :
  0 <= d0 < U64_MAX → chan_inv d0 next wm chan sent →
  ∃ processed, sent = processed ++ chan ∧ process (WaterMark_new d0) processed = Ok wm ∧
    wm_inv d0 (trace processed) (registered processed) wm.
Proof.
  intros Hd [(pr & -> & Hp) Ha _]. exists pr. split_and!; [done|done|].
  destruct (process_inv d0 [] pr _ (wm_new_inv d0 Hd)) as (st & Hp' & I & _).
  { cbn [app]. rewrite trace_app in Ha. by eapply admissible_app_inv. }
  rewrite Hp in Hp'. by simplify_eq.
Qed.

Lemma chan_send d0 next next' wm chan sent m :
  chan_inv d0 next wm chan sent → next <= next' →
  admissible d0 (trace sent ++ mark_events m) → Forall (λ e, e.1 < next') (mark_events m) →
  chan_inv d0 next' wm (chan ++ [m]) (sent ++ [m]).
Proof.
  intros [(pr & -> & Hp) Ha Hb] Hn Ha' Hm. assert (trace [m] = mark_events m) as Ht
    by (unfold trace; cbn; by rewrite app_nil_r).
  split.
  - exists pr. by rewrite app_assoc.
  - by rewrite trace_app, Ht.
  - rewrite trace_app, Ht. apply Forall_app. split; [|done].
    eapply Forall_impl; [exact Hb|]. cbn. lia.
Qed.

(** A mark without events can always be sent. *)
Lemma chan_send_silent d0 next next' wm chan sent m :
  chan_inv d0 next wm chan sent → next <= next' → mark_events m = [] →
  chan_inv d0 next' wm (chan ++ [m]) (sent ++ [m]) ∧ trace (sent ++ [m]) = trace sent.
Proof.
  intros C Hn Hm. split.
  - eapply chan_send; [exact C|done| |rewrite Hm; constructor].
    rewrite Hm, app_nil_r. apply (ch_adm _ _ _ _ _ C).
  - rewrite trace_app. unfold trace at 2. cbn. by rewrite Hm, !app_nil_r.
Qed.

Lemma chan_weaken d0 next next' wm chan sent :
  chan_inv d0 next wm chan sent → next <= next' → chan_inv d0 next' wm chan sent.
Proof.
  intros [Hs Ha Hb] Hn. split; [done|done|]. eapply Forall_impl; [exact Hb|]. cbn. lia.
Qed.

Lemma chan_deliver d0 next wm m rest sent :
  0 <= d0 < U64_MAX → chan_inv d0 next wm (m :: rest) sent →
  ∃ wm', handle_mark wm m = Ok wm' ∧ chan_inv d0 next wm' rest sent ∧
    wm_done_until wm <= wm_done_until wm'.
Proof.
  intros Hd C. destruct (chan_wm_inv _ _ _ _ _ Hd C) as (pr & Hsent & Hp & I).
  destruct C as [_ Ha Hb]. assert (trace sent = (trace pr ++ mark_events m) ++ trace rest) as Ht.
  { rewrite Hsent, trace_app. unfold trace at 2. cbn. by rewrite <- app_assoc. }
  destruct (handle_mark_inv d0 _ _ wm m I) as (wm' & Hh & _ & Hle & _).
  { rewrite Ht in Ha. by eapply admissible_app_inv. }
  exists wm'. split_and!; [done| |done]. split; [|done|done].
  exists (pr ++ [m]). split; [by rewrite Hsent, <- app_assoc|].
  unfold process in *. rewrite fold_outcome_app, Hp. cbn. by rewrite Hh.
Qed.

(** A timestamp outstanding in a trace was begun in it. *)
Lemma outstanding_begun evs t :
  0 < outstanding evs t → ∃ pre post, evs = pre ++ (t, false) :: post.
Proof.
  induction evs as [|[s d] evs IH]; cbn [outstanding fst snd]; [lia|]. intros Ho.
  destruct (decide (s = t)) as [->|].
  - destruct d; cbn [mark_delta] in Ho; [|by exists [], evs].
    destruct IH as (pre & post & ->); [lia|]. by exists ((t, true) :: pre), post.
  - destruct IH as (pre & post & ->); [lia|]. by exists ((s, d) :: pre), post.
Qed.

(** [done_until] of a task is bounded by everything outstanding in what was
    sent to it, processed or not. *)
Lemma chan_outstanding d0 next wm chan sent t :
  0 <= d0 < U64_MAX → chan_inv d0 next wm chan sent → 0 < outstanding (trace sent) t →
  wm_done_until wm <= t ∧ (fresh_begins d0 (trace sent) → wm_done_until wm < t).
Proof.
  intros Hd C Ho. destruct (chan_wm_inv _ _ _ _ _ Hd C) as (pr & Hsent & Hp & I).
  destruct C as [_ Ha _]. rewrite Hsent, trace_app in *.
  destruct (decide (0 < outstanding (trace pr) t)) as [Hpr|Hpr].
  - destruct (wm_inv_bounds _ _ _ _ I) as (_ & Hout & _). split; [by apply Hout|].
    intros Hf. eapply process_strict; [exact Hd|exact Hp| | |exact Hpr].
    + by eapply admissible_app_inv.
    + by eapply fresh_begins_app.
  - rewrite outstanding_app in Ho. destruct (outstanding_begun (trace chan) t) as (pre & post & Hc); [lia|].
    rewrite Hc in *. assert (trace pr ++ pre ++ (t, false) :: post
      = ((trace pr ++ pre) ++ [(t, false)]) ++ post) as Heq by by rewrite <- !app_assoc.
    rewrite Heq in *. apply admissible_app_inv in Ha.
    inversion Ha as [E|evs s Ha' Hs Hall E|evs s Ha' Hs E]; [by destruct (trace pr ++ pre)|..];
      apply app_inj_tail in E as [-> Hst]; [|done]. injection Hst as ->.
    rewrite Forall_app, !Forall_forall in Hall. destruct Hall as [Hall _].
    destruct (wi_from _ _ _ _ I) as [->|[b Hb]].
    + split; [lia|]. intros Hf. by destruct (Hf _ _ _ (eq_sym (app_assoc _ [_] post))).
    + specialize (Hall _ Hb). cbn in Hall. split; [lia|]. intros Hf.
      destruct (Hf _ _ _ (eq_sym (app_assoc _ [_] post))) as [_ Hnin].
      destruct (decide (wm_done_until wm = t)) as [<-|]; [|lia].
      exfalso. apply (Hnin b). apply elem_of_app. by left.
Qed.

Lemma chan_done_below d0 next wm chan sent :
  0 <= d0 < U64_MAX → d0 < next → chan_inv d0 next wm chan sent → d0 <= wm_done_until wm < next.
Proof.
  intros Hd Hn C. destruct (chan_wm_inv _ _ _ _ _ Hd C) as (pr & Hsent & Hp & I).
  split; [apply (wi_start _ _ _ _ I)|]. destruct (wi_from _ _ _ _ I) as [->|[b Hin]]; [done|].
  destruct C as [_ _ Hb]. rewrite Hsent, trace_app in Hb. apply Forall_app in Hb as [Hb _].
  by eapply Forall_forall in Hb; [|exact Hin].
Qed.

(* ------------------------------------------------------------------ *)
(** ** The invariant of the system *)

Definition reads_at (t : Z) (l : Live) : Z :=
  if decide (ot_read_ts (lv_txn l) = t ∧ ot_done_read (lv_txn l) = false) then 1 else 0.

Definition commits_at (t : Z) (l : Live) : Z := if decide (lv_commit l = Some t) then 1 else 0.

Lemma reads_at_nonneg t l : 0 <= reads_at t l.
Proof. unfold reads_at. case_decide; lia. Qed.

Lemma commits_at_nonneg t l : 0 <= commits_at t l.
Proof. unfold commits_at. case_decide; lia. Qed.

Lemma reads_at_active t l :
  ot_done_read (lv_txn l) = false →
  reads_at t l = if decide (ot_read_ts (lv_txn l) = t) then 1 else 0.
Proof. intros E. unfold reads_at. repeat case_decide; naive_solver. Qed.

Lemma reads_at_ext t l l' : lv_txn l = lv_txn l' → reads_at t l = reads_at t l'.
Proof. intros E. unfold reads_at. by rewrite E. Qed.

Lemma commits_at_None t l : lv_commit l = None → commits_at t l = 0.
Proof. intros E. unfold commits_at. rewrite E. by case_decide. Qed.

Lemma commits_at_Some t l c : lv_commit l = Some c → commits_at t l = if decide (c = t) then 1 else 0.
Proof. intros E. unfold commits_at. rewrite E. repeat case_decide; naive_solver. Qed.

Lemma commits_at_ext t l l' : lv_commit l = lv_commit l' → commits_at t l = commits_at t l'.
Proof. intros E. unfold commits_at. by rewrite E. Qed.

Definition live_ok (d0 next : Z) (l : Live) : Prop :=
  d0 <= ot_read_ts (lv_txn l) < next ∧ ∀ c, lv_commit l = Some c → d0 < c < next.

Record sys_inv (d0 : Z) (s : Sys) (rsent tsent : list Mark) : Prop := {
  si_cfg : tx_managed_txns (or_config (sys_oracle s)) = false;
  si_next : d0 < oc_next_txn_ts (or_inner (sys_oracle s)) <= U64_MAX;
  si_read : chan_inv d0 (oc_next_txn_ts (or_inner (sys_oracle s))) (or_read_mark (sys_oracle s))
              (or_read_chan (sys_oracle s)) rsent;
  si_txn : chan_inv d0 (oc_next_txn_ts (or_inner (sys_oracle s))) (or_txn_mark (sys_oracle s))
             (or_txn_chan (sys_oracle s)) tsent;
  si_reads : ∀ t, 0 < t → outstanding (trace rsent) t = sum_of (reads_at t) (sys_txns s);
  si_commits : ∀ t, outstanding (trace tsent) t = sum_of (commits_at t) (sys_txns s);
  si_fresh : fresh_begins d0 (trace tsent);
  si_lives : Forall (live_ok d0 (oc_next_txn_ts (or_inner (sys_oracle s)))) (sys_txns s);
  si_cleanup : oc_last_cleanup_ts (or_inner (sys_oracle s)) <= wm_done_until (or_read_mark (sys_oracle s));
  si_no_committed : oc_committed_txns (or_inner (sys_oracle s)) = []
}.

Section Steps.
Context (d0 : Z) (Hd0 : 0 <= d0 < U64_MAX).

Lemma sys_init_inv config o :
  tx_managed_txns config = false → Oracle_new config d0 = Ok o → sys_inv d0 (mkSys o []) [] [].
Proof.
  unfold Oracle_new, TxnTs_add. intros Hm. destruct (_ <=? _) eqn:E; [|done].
  bool_to_prop. cbn [mbind outcome_bind]. intros [= <-].
  split; cbn [sys_oracle sys_txns or_config or_inner oc_next_txn_ts or_read_mark or_read_chan
    or_txn_mark or_txn_chan oc_last_cleanup_ts WaterMark_new wm_done_until oc_committed_txns]; try done.
  - lia.
  - apply chan_new.
  - apply chan_new.
  - intros pre t post Heq. by destruct pre.
  - lia.
Qed.

Lemma mark_events_new ts done : 0 < ts → mark_events (Mark_new ts done) = [(ts, done)].
Proof. intros. unfold mark_events, Mark_new. cbn. by guard_true. Qed.

Lemma mark_events_zero done : mark_events (Mark_new 0 done) = [].
Proof. done. Qed.

Lemma trace_snoc_new sent ts done :
  0 < ts → trace (sent ++ [Mark_new ts done]) = trace sent ++ [(ts, done)].
Proof.
  intros. rewrite trace_app. unfold trace at 2. cbn [fmap list_fmap concat].
  by rewrite mark_events_new, app_nil_r.
Qed.

(** Sending the beginning of work at [ts], at or above everything sent. *)
Lemma chan_begin next next' wm chan sent ts :
  chan_inv d0 next wm chan sent → next <= next' → d0 <= ts < next' → ts < U64_MAX → next - 1 <= ts →
  chan_inv d0 next' wm (chan ++ [Mark_new ts false]) (sent ++ [Mark_new ts false]) ∧
  (∀ t, 0 < t → outstanding (trace (sent ++ [Mark_new ts false])) t
                = outstanding (trace sent) t + if decide (ts = t) then 1 else 0).
Proof.
  intros C Hn Hts Hm Hle. destruct (decide (ts = 0)) as [->|].
  { destruct (chan_send_silent d0 next next' wm chan sent (Mark_new 0 false) C Hn) as [C' Ht]; [done|].
    split; [done|]. intros t Ht0. rewrite Ht. rewrite decide_False by lia. lia. }
  assert (0 < ts) as Hpos by lia. split.
  - eapply chan_send; [exact C|done| |rewrite mark_events_new by done; constructor; [cbn; lia|constructor]].
    rewrite mark_events_new by done. apply adm_begin; [apply C|lia|].
    eapply Forall_impl; [apply (ch_below _ _ _ _ _ C)|]. cbn. lia.
  - intros t _. rewrite trace_snoc_new, outstanding_snoc by done. cbn [mark_delta]. case_decide; lia.
Qed.

(** Sending the end of work that is outstanding. *)
Lemma chan_end next wm chan sent ts :
  chan_inv d0 next wm chan sent → 0 <= ts < next → (0 < ts → 0 < outstanding (trace sent) ts) →
  chan_inv d0 next wm (chan ++ [Mark_new ts true]) (sent ++ [Mark_new ts true]) ∧
  (∀ t, 0 < t → outstanding (trace (sent ++ [Mark_new ts true])) t
                = outstanding (trace sent) t - if decide (ts = t) then 1 else 0).
Proof.
  intros C Hts Hout. destruct (decide (ts = 0)) as [->|].
  { destruct (chan_send_silent d0 next next wm chan sent (Mark_new 0 true) C ltac:(lia)) as [C' Ht]; [done|].
    split; [done|]. intros t Ht0. rewrite Ht. rewrite decide_False by lia. lia. }
  assert (0 < ts) as Hpos by lia. split.
  - eapply chan_send; [exact C|lia| |rewrite mark_events_new by done; constructor; [cbn; lia|constructor]].
    rewrite mark_events_new by done. apply adm_end; [apply C|by apply Hout].
  - intros t _. rewrite trace_snoc_new, outstanding_snoc by done. cbn [mark_delta].
    case_decide; lia.
Qed.

(** Replacing a live transaction by one with the same timestamps. *)
Lemma done_read_inv o txns rsent tsent i l o' t' :
  sys_inv d0 (mkSys o txns) rsent tsent → txns !! i = Some l →
  done_read o (lv_txn l) = (o', t') →
  or_inner o' = or_inner o ∧ or_read_mark o' = or_read_mark o ∧
  ∃ rsent', sys_inv d0 (mkSys o' (<[i := mkLive t' (lv_commit l)]> txns)) rsent' tsent.
Proof.
  intros I Hl. unfold done_read. destruct (ot_done_read (lv_txn l)) eqn:E; intros [= <- <-].
  { split_and!; try done. exists rsent. by rewrite list_insert_id by (by destruct l). }
  split_and!; try done. destruct I as [Hc Hn Hr Ht Hrs Hts Hf Hlv Hcl Hnc]. cbn [sys_oracle sys_txns] in *.
  pose proof (proj1 (Forall_lookup _ _) Hlv i l Hl) as [Hrd Hcm].
  assert (∀ t, reads_at t l = if decide (ot_read_ts (lv_txn l) = t) then 1 else 0) as Hw
    by (intros t; by apply reads_at_active).
  destruct (chan_end _ _ _ _ (ot_read_ts (lv_txn l)) Hr) as [Hr' Hout'].
  { lia. }
  { intros Hpos. rewrite Hrs by done.
    pose proof (sum_of_lookup_le (reads_at (ot_read_ts (lv_txn l))) txns i l (reads_at_nonneg _) Hl) as Hle.
    rewrite Hw, decide_True in Hle by done. lia. }
  exists (rsent ++ [Mark_new (ot_read_ts (lv_txn l)) true]).
  split; cbn [sys_oracle sys_txns send_read or_config or_inner or_read_mark or_read_chan or_txn_mark
    or_txn_chan]; try done.
  - intros t Hpos. rewrite Hout', Hrs, (sum_of_insert _ _ _ _ _ Hl), Hw by done.
    assert (reads_at t (mkLive (set_done_read (lv_txn l)) (lv_commit l)) = 0) as ->.
    { unfold reads_at. cbn. rewrite decide_False by naive_solver. done. }
    lia.
  - intros t. rewrite Hts, (sum_of_insert _ _ _ _ _ Hl).
    rewrite (commits_at_ext t (mkLive (set_done_read (lv_txn l)) (lv_commit l)) l) by done. lia.
  - apply Forall_insert; [done|]. by split.
Qed.

Lemma begin_inv o txns rsent tsent o' ts notify ck :
  sys_inv d0 (mkSys o txns) rsent tsent → get_latest_read_ts o notify = Ok (ts, o') →
  ∃ rsent' tsent',
    sys_inv d0 (mkSys o' (txns ++ [mkLive (mkOTxn ts 0 [] ck false) None])) rsent' tsent'.
Proof.
  intros [Hc Hn Hr Ht Hrs Hts Hf Hlv Hcl Hnc]. cbn [sys_oracle sys_txns] in *.
  unfold get_latest_read_ts. rewrite Hc. unfold TxnTs_sub. destruct (1 <=? _) eqn:E; [|done].
  bool_to_prop. cbn [mbind outcome_bind]. intros [= <- <-].
  set (next := oc_next_txn_ts (or_inner o)) in *. set (ts := next - 1) in *.
  assert (ts = next - 1) as Hts1 by done. clearbody ts.
  destruct (chan_begin next next _ _ rsent ts Hr) as [Hr' Hro]; [lia|lia|lia|lia|].
  assert (∃ chan' tsent', or_inner (wait_for_mark (send_read o (Mark_new ts false)) ts notify) = or_inner o ∧
    or_config (wait_for_mark (send_read o (Mark_new ts false)) ts notify) = or_config o ∧
    or_read_mark (wait_for_mark (send_read o (Mark_new ts false)) ts notify) = or_read_mark o ∧
    or_read_chan (wait_for_mark (send_read o (Mark_new ts false)) ts notify)
      = or_read_chan o ++ [Mark_new ts false] ∧
    or_txn_mark (wait_for_mark (send_read o (Mark_new ts false)) ts notify) = or_txn_mark o ∧
    or_txn_chan (wait_for_mark (send_read o (Mark_new ts false)) ts notify) = chan' ∧
    chan_inv d0 next (or_txn_mark o) chan' tsent' ∧ trace tsent' = trace tsent)
    as (chan' & tsent' & E1 & E2 & E3 & E4 & E5 & E6 & Ht' & Htt).
  { unfold wait_for_mark. case_if.
    - by exists (or_txn_chan o), tsent.
    - destruct (chan_send_silent d0 next next _ _ tsent (mkMark ts (Some notify) [] false) Ht) as [Ht' Htt];
        [lia|done|]. by eexists _, _. }
  exists (rsent ++ [Mark_new ts false]), tsent'.
  split; cbn [sys_oracle sys_txns]; rewrite ?E1, ?E2, ?E3, ?E4, ?E5, ?E6, ?Htt; try done.
  - intros t Hpos. rewrite Hro, Hrs, sum_of_app by done. cbn [sum_of].
    rewrite reads_at_active by done. cbn [lv_txn ot_read_ts]. lia.
  - intros t. rewrite Hts, sum_of_app. cbn [sum_of]. rewrite commits_at_None by done. lia.
  - apply Forall_app. split; [done|]. apply Forall_singleton. split; cbn; [lia|done].
Qed.

(** Cleaning up changes only the list of committed transactions and the
    timestamp of the cleanup. *)
Lemma cleanup_inv o txns rsent tsent :
  sys_inv d0 (mkSys o txns) rsent tsent →
  ∃ o', cleanup_committed_txns o = Ok o' ∧ sys_inv d0 (mkSys o' txns) rsent tsent.
Proof.
  intros I. unfold cleanup_committed_txns. rewrite (si_cfg _ _ _ _ I : tx_managed_txns (or_config o) = false).
  destruct (negb (tx_detect_conflicts (or_config o))); [by exists o|].
  pose proof (si_cleanup _ _ _ _ I) as Hcl. cbn [sys_oracle] in Hcl.
  rewrite (proj2 (Z.leb_le _ _) Hcl). cbn [assert_or_panic mbind outcome_bind].
  case_if; [by exists o|]. eexists. split; [reflexivity|]. destruct I as [Hc Hn Hr Ht Hrs Hts Hf Hlv _ Hnc].
  split; cbn [sys_oracle sys_txns set_inner or_config or_inner or_read_mark or_read_chan or_txn_mark
    or_txn_chan oc_next_txn_ts oc_last_cleanup_ts oc_committed_txns] in *; try done.
  by rewrite Hnc.
Qed.

Lemma commit_inv o txns rsent tsent i l ts o' t' :
  sys_inv d0 (mkSys o txns) rsent tsent → txns !! i = Some l → lv_commit l = None →
  get_latest_commit_ts o (lv_txn l) = Ok (ts, o', t') →
  ts = oc_next_txn_ts (or_inner o) ∧
  ∃ rsent' tsent', sys_inv d0 (mkSys o' (<[i := mkLive t' (Some ts)]> txns)) rsent' tsent'.
Proof.
  intros I Hl Hlc. unfold get_latest_commit_ts. destruct (has_conflict o (lv_txn l)); [done|].
  rewrite (si_cfg _ _ _ _ I : tx_managed_txns (or_config o) = false). cbn [negb].
  destruct (done_read o (lv_txn l)) as [o1 t1] eqn:Edr.
  destruct (done_read_inv o txns rsent tsent i l o1 t1 I Hl Edr) as (Hin1 & _ & rsent1 & I1).
  destruct (cleanup_inv o1 _ rsent1 tsent I1) as (o2 & Hcl & I2). rewrite Hcl.
  cbn [mbind outcome_bind]. unfold TxnTs_add.
  assert (oc_next_txn_ts (or_inner o2) = oc_next_txn_ts (or_inner o)) as Hnext.
  { rewrite <- Hin1. unfold cleanup_committed_txns in Hcl.
    destruct (negb _); [by simplify_eq|]. apply bind_Ok in Hcl as (u & _ & Hcl).
    destruct (_ =? _); by simplify_eq. }
  destruct (_ <=? U64_MAX) eqn:E; [|done]. bool_to_prop. cbn [mbind outcome_bind].
  destruct I2 as [Hc Hn Hr Ht Hrs Hts Hf Hlv Hcl' Hnc]. cbn [sys_oracle sys_txns] in *.
  set (next := oc_next_txn_ts (or_inner o2)) in *.
  intros Hrest. apply bind_Ok in Hrest as (u & _ & Hrest).
  cbn [send_txn set_inner or_config] in Hrest. rewrite Hc in Hrest.
  cbn [mbind outcome_bind] in Hrest. injection Hrest as <- <- <-. split; [done|].
  assert (<[i := mkLive t1 (lv_commit l)]> txns !! i = Some (mkLive t1 (lv_commit l))) as Hl1.
  { apply list_lookup_insert_eq. by eapply lookup_lt_Some. }
  assert (<[i := mkLive t1 (Some next)]> txns
          = <[i := mkLive t1 (Some next)]> (<[i := mkLive t1 (lv_commit l)]> txns)) as ->
    by (by rewrite list_insert_insert_eq).
  destruct (chan_begin next (next + 1) _ _ tsent next Ht) as [Ht' Hto]; [lia|lia|lia|lia|].
  exists rsent1, (tsent ++ [Mark_new next false]).
  pose proof (proj1 (Forall_lookup _ _) Hlv i _ Hl1) as [Hrd _].
  split; cbn [sys_oracle sys_txns send_txn set_inner set_next_txn_ts or_config or_inner or_read_mark
    or_read_chan or_txn_mark or_txn_chan oc_next_txn_ts oc_last_cleanup_ts oc_committed_txns]; try done.
  - lia.
  - eapply chan_weaken; [exact Hr|lia].
  - intros t Hpos. rewrite Hrs, (sum_of_insert _ _ _ _ _ Hl1) by done.
    rewrite (reads_at_ext t (mkLive t1 (Some next)) (mkLive t1 (lv_commit l))) by done. lia.
  - intros t. rewrite trace_snoc_new, outstanding_snoc, Hts, (sum_of_insert _ _ _ _ _ Hl1) by lia.
    rewrite (commits_at_Some t (mkLive t1 (Some next)) next) by done. rewrite (commits_at_None t (mkLive t1 (lv_commit l))) by exact Hlc.
    cbn [mark_delta]. case_decide; lia.
  - rewrite trace_snoc_new by lia. apply fresh_begins_snoc; [done|]. intros _. cbn. split; [lia|].
    intros b Hb. pose proof (ch_below _ _ _ _ _ Ht) as Hbl. rewrite Forall_forall in Hbl.
    specialize (Hbl _ Hb). cbn in Hbl. lia.
  - apply Forall_insert.
    + eapply Forall_impl; [exact Hlv|]. intros x [Hx1 Hx2]. split; [lia|].
      intros c Hcx. specialize (Hx2 c Hcx). lia.
    + split; cbn in *; [lia|]. intros c [= <-]. lia.
Qed.

Lemma finish_inv o txns rsent tsent i l ts :
  sys_inv d0 (mkSys o txns) rsent tsent → txns !! i = Some l → lv_commit l = Some ts →
  ∃ rsent' tsent',
    sys_inv d0 (mkSys (done_commit o ts) (<[i := mkLive (lv_txn l) None]> txns)) rsent' tsent'.
Proof.
  intros [Hc Hn Hr Ht Hrs Hts Hf Hlv Hcl Hnc] Hl Hlc. cbn [sys_oracle sys_txns] in *.
  unfold done_commit. rewrite Hc. cbn [negb].
  pose proof (proj1 (Forall_lookup _ _) Hlv i l Hl) as [Hrd Hcm]. specialize (Hcm ts Hlc).
  destruct (chan_end _ _ _ _ ts Ht) as [Ht' Hto]; [lia| |].
  { intros _. rewrite Hts.
    pose proof (sum_of_lookup_le (commits_at ts) txns i l (commits_at_nonneg _) Hl) as Hle.
    unfold commits_at at 1 in Hle. rewrite decide_True in Hle by done. lia. }
  exists rsent, (tsent ++ [Mark_new ts true]).
  split; cbn [sys_oracle sys_txns send_txn or_config or_inner or_read_mark or_read_chan or_txn_mark
    or_txn_chan]; try done.
  - intros t Hpos. rewrite Hrs, (sum_of_insert _ _ _ _ _ Hl) by done.
    rewrite (reads_at_ext t (mkLive (lv_txn l) None) l) by done. lia.
  - intros t. rewrite trace_snoc_new, outstanding_snoc, Hts, (sum_of_insert _ _ _ _ _ Hl) by lia.
    rewrite (commits_at_Some t l ts) by done. rewrite commits_at_None by done.
    cbn [mark_delta]. case_decide; lia.
  - rewrite trace_snoc_new by lia. by apply fresh_begins_snoc.
  - apply Forall_insert; [done|]. by split.
Qed.

End Steps.

(** Operations leave the state of the tasks alone. *)
Lemma cleanup_marks o o' :
  cleanup_committed_txns o = Ok o' →
  or_txn_mark o' = or_txn_mark o ∧ or_read_mark o' = or_read_mark o ∧ or_config o' = or_config o.
Proof.
  unfold cleanup_committed_txns. destruct (negb _); [by intros [= <-]|].
  rewrite bind_Ok. intros (u & _ & Hr). by destruct (_ =? _); simplify_eq.
Qed.

Lemma done_read_marks o t o' t' :
  done_read o t = (o', t') →
  or_txn_mark o' = or_txn_mark o ∧ or_read_mark o' = or_read_mark o ∧ or_config o' = or_config o.
Proof. unfold done_read. by destruct (ot_done_read t); intros [= <- <-]. Qed.

Lemma commit_marks o t ts o' t' :
  get_latest_commit_ts o t = Ok (ts, o', t') → or_txn_mark o' = or_txn_mark o.
Proof.
  unfold get_latest_commit_ts. destruct (has_conflict o t); [done|]. rewrite bind_Ok.
  intros ([[ts1 o1] t1] & H1 & H2). apply bind_Ok in H2 as (u & _ & H2).
  apply bind_Ok in H2 as (o2 & H2 & [= <- <- <-]).
  assert (or_txn_mark o1 = or_txn_mark o) as Ho1.
  { destruct (negb _); [|by simplify_eq]. destruct (done_read o t) as [o3 t3] eqn:E.
    apply done_read_marks in E as (E & _ & _). apply bind_Ok in H1 as (o4 & H4 & H1).
    apply cleanup_marks in H4 as (H4 & _ & _). apply bind_Ok in H1 as (nx & _ & [= <- <- <-]).
    cbn. by rewrite H4, E. }
  rewrite <- Ho1. destruct (tx_managed_txns (or_config o1)); [|by simplify_eq].
  apply bind_Ok in H2 as (k & _ & [= <-]). done.
Qed.

Section Reach.
Context (config : TxnConfig) (d0 : Z) (Hd0 : 0 <= d0 < U64_MAX).
Context (Hcfg : tx_managed_txns config = false).

Lemma step_inv s s' rsent tsent :
  sys_inv d0 s rsent tsent → sys_step s s' →
  (∃ rsent' tsent', sys_inv d0 s' rsent' tsent') ∧
  wm_done_until (or_txn_mark (sys_oracle s)) <= wm_done_until (or_txn_mark (sys_oracle s')).
Proof.
  intros I Hs. destruct Hs as [o o' ts n ck txns Hg|o txns i l h Hl t|o o' txns i l t' ts Hl Hlc Hg
    |o txns i l ts Hl Hlc|o o' txns i l t' Hl Hdr|o o' txns Hdl|o o' txns Hdl]; cbn [sys_oracle].
  - split; [by eapply begin_inv|]. unfold get_latest_read_ts in Hg. destruct (tx_managed_txns (or_config o)); [done|].
    apply bind_Ok in Hg as (rt & _ & [= <- <-]). unfold wait_for_mark. by case_if.
  - split; [|done]. exists rsent, tsent. destruct I as [Hc Hn Hr Ht Hrs Hts Hf Hlv Hcl Hnc].
    split; cbn [sys_oracle sys_txns] in *; try done.
    + intros x Hx. rewrite Hrs, (sum_of_insert _ _ _ _ _ Hl) by done. unfold reads_at, t. cbn. lia.
    + intros x. rewrite Hts, (sum_of_insert _ _ _ _ _ Hl). unfold commits_at. cbn. lia.
    + apply Forall_insert; [done|]. exact (proj1 (Forall_lookup _ _) Hlv i l Hl).
  - split; [by eapply commit_inv|]. by rewrite (commit_marks _ _ _ _ _ Hg).
  - split; [by eapply finish_inv|]. unfold done_commit. by destruct (negb _).
  - destruct (done_read_marks _ _ _ _ Hdr) as (-> & _ & _). split; [|done].
    destruct (done_read_inv d0 Hd0 o txns rsent tsent i l o' t' I Hl Hdr) as (_ & _ & rs & I').
    by exists rs, tsent.
  - unfold deliver_read in Hdl. destruct (or_read_chan o) as [|m rest] eqn:Ec.
    { simplify_eq. split; [by exists rsent, tsent|done]. }
    destruct I as [Hc Hn Hr Ht Hrs Hts Hf Hlv Hcl Hnc]. cbn [sys_oracle sys_txns] in *. rewrite Ec in Hr.
    destruct (chan_deliver d0 _ _ _ _ _ Hd0 Hr) as (wm' & Hh & Hr' & Hle). rewrite Hh in Hdl.
    cbn [mbind outcome_bind] in Hdl. injection Hdl as <-. split; [|done].
    exists rsent, tsent. split; cbn [sys_oracle sys_txns or_config or_inner or_read_mark or_read_chan
      or_txn_mark or_txn_chan]; try done. lia.
  - unfold deliver_txn in Hdl. destruct (or_txn_chan o) as [|m rest] eqn:Ec.
    { simplify_eq. split; [by exists rsent, tsent|done]. }
    destruct I as [Hc Hn Hr Ht Hrs Hts Hf Hlv Hcl Hnc]. cbn [sys_oracle sys_txns] in *. rewrite Ec in Ht.
    destruct (chan_deliver d0 _ _ _ _ _ Hd0 Ht) as (wm' & Hh & Ht' & Hle). rewrite Hh in Hdl.
    cbn [mbind outcome_bind] in Hdl. injection Hdl as <-. split; [|done].
    exists rsent, tsent. by split.
Qed.

Lemma reachable_inv s : reachable config d0 s → ∃ rsent tsent, sys_inv d0 s rsent tsent.
Proof.
  induction 1 as [o Ho|s s' _ (rs & ts & I) Hs].
  - exists [], []. by apply (sys_init_inv d0 Hd0 config).
  - by destruct (step_inv s s' rs ts I Hs) as [? _].
Qed.

Lemma rtc_step_mono s s' :
  reachable config d0 s → rtc sys_step s s' →
  reachable config d0 s' ∧
  wm_done_until (or_txn_mark (sys_oracle s)) <= wm_done_until (or_txn_mark (sys_oracle s')).
Proof.
  intros Hr Hs. induction Hs as [s|s s1 s' H1 _ IH]; [by split|].
  destruct (reachable_inv s Hr) as (rs & ts & I). destruct (step_inv s s1 rs ts I H1) as [_ Hle].
  destruct IH as [Hr' Hle']; [by eapply reach_step|]. split; [done|lia].
Qed.

Lemma reachable_in_flight s i l c :
  reachable config d0 s → sys_txns s !! i = Some l → lv_commit l = Some c →
  wm_done_until (or_txn_mark (sys_oracle s)) < c.
Proof.
  intros Hr Hl Hc. destruct (reachable_inv s Hr) as (rs & ts & I).
  eapply (chan_outstanding d0); [exact Hd0|apply (si_txn _ _ _ _ I)| |apply (si_fresh _ _ _ _ I)].
  rewrite (si_commits _ _ _ _ I).
  pose proof (sum_of_lookup_le (commits_at c) (sys_txns s) i l (commits_at_nonneg _) Hl) as Hle.
  rewrite (commits_at_Some c l c), decide_True in Hle by done. lia.
Qed.

End Reach.

(* ------------------------------------------------------------------ *)
(** ** Theorems *)

(** C4: In every reachable state of an oracle that hands out its own
    timestamps, however transactions and tasks interleave: the tasks can take
    their next mark without panicking; read and commit timestamps lie between the
    versions found at the start and the next timestamp; the timestamp below which
    versions may be discarded does not exceed the read timestamp of any transaction
    that still reads, unless that is 0; and the committed watermark lies below every
    commit in flight. *)
Theorem oracle_safe config max_version s :
  tx_managed_txns config = false → 0 <= max_version < U64_MAX → reachable config max_version s →
  (∃ o', deliver_read (sys_oracle s) = Ok o') ∧ (∃ o', deliver_txn (sys_oracle s) = Ok o') ∧
  ∀ l, l ∈ sys_txns s →
    max_version <= ot_read_ts (lv_txn l) < oc_next_txn_ts (or_inner (sys_oracle s)) ∧
    (0 < ot_read_ts (lv_txn l) → ot_done_read (lv_txn l) = false →
     discard_at_or_below (sys_oracle s) <= ot_read_ts (lv_txn l)) ∧
    (∀ c, lv_commit l = Some c → wm_done_until (or_txn_mark (sys_oracle s)) < c ∧
       max_version < c < oc_next_txn_ts (or_inner (sys_oracle s))).
Proof.
  intros Hcfg Hd Hr. destruct (reachable_inv config max_version Hd Hcfg s Hr) as (rs & ts & I).
  split_and!.
  - unfold deliver_read. pose proof (si_read _ _ _ _ I) as C.
    destruct (or_read_chan (sys_oracle s)) as [|m rest]; [by eexists|].
    destruct (chan_deliver _ _ _ _ _ _ Hd C) as (wm' & -> & _). by eexists.
  - unfold deliver_txn. pose proof (si_txn _ _ _ _ I) as C.
    destruct (or_txn_chan (sys_oracle s)) as [|m rest]; [by eexists|].
    destruct (chan_deliver _ _ _ _ _ _ Hd C) as (wm' & -> & _). by eexists.
  - intros l [i Hl]%list_elem_of_lookup.
    pose proof (Forall_lookup_1 _ _ _ _ (si_lives _ _ _ _ I) Hl) as [Hlive Hlc]. split_and!; [lia|lia|..].
    + intros Hpos Hnd. unfold discard_at_or_below. rewrite (si_cfg _ _ _ _ I).
      eapply (chan_outstanding max_version); [exact Hd|apply (si_read _ _ _ _ I)|].
      rewrite (si_reads _ _ _ _ I) by done.
      pose proof (sum_of_lookup_le (reads_at (ot_read_ts (lv_txn l))) (sys_txns s) i l
        (reads_at_nonneg _) Hl) as Hle.
      rewrite reads_at_active, decide_True in Hle by done. lia.
    + intros c Hc. split; [by eapply (reachable_in_flight config max_version)|by apply Hlc].
Qed.

(** C19: A reader that has waited for its read timestamp sees a stable snapshot:
    now and in every later state, each commit in flight has a timestamp above it,
    so that no write at or below it can still arrive. *)
Theorem oracle_snapshot_stable config max_version s s' read_ts :
  tx_managed_txns config = false → 0 <= max_version < U64_MAX → reachable config max_version s →
  read_ts <= wm_done_until (or_txn_mark (sys_oracle s)) → rtc sys_step s s' →
  (∀ l c, l ∈ sys_txns s' → lv_commit l = Some c → read_ts < c) ∧
  read_ts < oc_next_txn_ts (or_inner (sys_oracle s')).
Proof.
  intros Hcfg Hd Hr Hread Hs.
  destruct (rtc_step_mono config max_version Hd Hcfg s s' Hr Hs) as [Hr' Hle]. split.
  - intros l c [i Hl]%list_elem_of_lookup Hc.
    pose proof (reachable_in_flight config max_version Hd Hcfg s' i l c Hr' Hl Hc). lia.
  - destruct (reachable_inv config max_version Hd Hcfg s' Hr') as (rs & ts & I).
    destruct (si_next _ _ _ _ I) as [Hn _].
    pose proof (chan_done_below _ _ _ _ _ Hd Hn (si_txn _ _ _ _ I)). lia.
Qed.

Lemma has_conflict_true o t :
  has_conflict o t = true ↔ ∃ c h, c ∈ oc_committed_txns (or_inner o) ∧
    ot_read_ts t < ct_ts c ∧ h ∈ ot_read_key_hash t ∧ h ∈ ct_conflict_keys c.
Proof.
  unfold has_conflict. case_if.
  - split; [done|]. intros (c & h & _ & _ & Hh & _).
    apply nil_length_inv in E. rewrite E in Hh. set_solver.
  - rewrite existsb_exists. unfold conflicts_with. split.
    + intros (c & Hc & [Hlt Hb]%andb_true_iff). apply existsb_exists in Hb as (h & Hh & Hb).
      bool_to_prop. exists c, h. by rewrite !list_elem_of_In.
    + intros (c & h & Hc & Hlt & Hh & Hin). exists c. rewrite <- list_elem_of_In.
      split; [done|]. apply andb_true_iff. split; [by apply Z.ltb_lt|].
      apply existsb_exists. exists h. rewrite <- list_elem_of_In. split; [done|].
      by apply bool_decide_eq_true.
Qed.

(** C24: The conflict check: with timestamps managed by the caller, a commit
    fails exactly when a transaction committed after its read timestamp wrote a
    key it read; otherwise it gets its timestamp and its own write set is
    recorded for the commits that follow. *)
Theorem conflict_detection o t keys :
  tx_managed_txns (or_config o) = true → ot_conflict_keys t = Some keys →
  oc_last_cleanup_ts (or_inner o) <= ot_commit_ts t →
  (get_latest_commit_ts o t = Err (EDB Conflict) ↔
     ∃ c h, c ∈ oc_committed_txns (or_inner o) ∧ ot_read_ts t < ct_ts c ∧
       h ∈ ot_read_key_hash t ∧ h ∈ ct_conflict_keys c) ∧
  (get_latest_commit_ts o t ≠ Err (EDB Conflict) →
     get_latest_commit_ts o t = Ok (ot_commit_ts t,
       set_inner o (push_committed (or_inner o) (mkCommittedTxn (ot_commit_ts t) keys)), t)).
Proof.
  intros Hm Hk Hcl. pose proof (has_conflict_true o t) as Hiff.
  unfold get_latest_commit_ts. rewrite Hm. cbn [negb mbind outcome_bind].
  rewrite (proj2 (Z.leb_le _ _) Hcl). cbn [assert_or_panic mbind outcome_bind].
  rewrite Hm, Hk. cbn [unwrap mbind outcome_bind].
  split; [rewrite <- Hiff|]; by destruct (has_conflict o t).
Qed.

(** With the oracle's own timestamps, the default, no commit is ever
    recorded: in every reachable state every transaction passes the conflict
    check, whatever was read and written since it began. *)
Theorem default_config_never_conflicts config max_version s t :
  tx_managed_txns config = false → 0 <= max_version < U64_MAX → reachable config max_version s →
  get_latest_commit_ts (sys_oracle s) t ≠ Err (EDB Conflict).
Proof.
  intros Hcfg Hd Hr. destruct (reachable_inv config max_version Hd Hcfg s Hr) as (rs & ts & I).
  assert (has_conflict (sys_oracle s) t = false) as Hnc.
  { unfold has_conflict. rewrite (si_no_committed _ _ _ _ I). by case_if. }
  unfold get_latest_commit_ts. rewrite Hnc, (si_cfg _ _ _ _ I). cbn [negb].
  destruct (done_read (sys_oracle s) t) as [o1 t1]. unfold cleanup_committed_txns, TxnTs_add, assert_or_panic.
  repeat (case_if || cbn [mbind outcome_bind unwrap]); try done.
  all: destruct (ot_conflict_keys t1); done.
Qed.

(** ** Witnesses *)

Module OracleExamples.

Definition get_oracle (r : outcome Oracle) : Oracle :=
  match r with
  | Ok o => o
  | _ => mkOracle (mkOracleCore 0 0 0 []) (WaterMark_new 0) [] (WaterMark_new 0) [] TxnConfig_default
  end.

Definition o0 : Oracle := get_oracle (Oracle_new TxnConfig_default 7).
Definition s0 : Sys := mkSys o0 [].

Lemma s0_reachable : reachable TxnConfig_default 7 s0.
Proof. apply reach_init. reflexivity. Defined.

(** A transaction begins and commits; its commit is in flight. *)
Definition o1 : Oracle :=
  match get_latest_read_ts o0 0 with Ok (_, o) => o | _ => o0 end.
Definition t1 : OTxn := mkOTxn 7 0 [] None false.
Definition r2 : Z * Oracle * OTxn :=
  match get_latest_commit_ts o1 t1 with Ok r => r | _ => (0, o1, t1) end.
Definition s2 : Sys := mkSys r2.1.2 [mkLive r2.2 (Some 8)].

Lemma s2_reachable : reachable TxnConfig_default 7 s2.
Proof.
  eapply reach_step; [eapply reach_step; [apply s0_reachable|]|].
  - eapply (step_begin o0 o1 7 0 None []). reflexivity.
  - eapply (step_commit o1 r2.1.2 [mkLive t1 None] 0 (mkLive t1 None) r2.2 8); reflexivity.
Defined.

Lemma oracle_safe_witness : wm_done_until (or_txn_mark (sys_oracle s2)) < 8.
Proof.
  destruct (oracle_safe TxnConfig_default 7 s2) as (_ & _ & Hl).
  - reflexivity.
  - vm_compute. split; congruence.
  - apply s2_reachable.
  - apply (Hl (mkLive r2.2 (Some 8))); [apply list_elem_of_here|reflexivity].
Defined.

Lemma oracle_snapshot_witness : lv_commit (mkLive r2.2 (Some 8)) = Some 8 ∧ 7 < 8.
Proof.
  split; [reflexivity|]. apply (oracle_snapshot_stable TxnConfig_default 7 s2 s2 7) with (l := mkLive r2.2 (Some 8)).
  - reflexivity.
  - vm_compute. split; congruence.
  - apply s2_reachable.
  - vm_compute. congruence.
  - constructor.
  - apply list_elem_of_here.
  - reflexivity.
Defined.

(** Managed timestamps: the second transaction read what the first wrote. *)
Definition managed : Oracle :=
  mkOracle (mkOracleCore 1 0 0 [mkCommittedTxn 5 {[42]}]) (WaterMark_new 0) [] (WaterMark_new 0) []
    (mkTxnConfig false true true).

Lemma conflict_detection_witness :
  get_latest_commit_ts managed (mkOTxn 3 6 [42] (Some {[1]}) false) = Err (EDB Conflict).
Proof.
  apply (conflict_detection managed (mkOTxn 3 6 [42] (Some {[1]}) false) {[1]}).
  - reflexivity.
  - reflexivity.
  - vm_compute. congruence.
  - exists (mkCommittedTxn 5 {[42]}), 42. split_and!.
    + apply list_elem_of_here.
    + reflexivity.
    + apply list_elem_of_here.
    + apply (proj2 (elem_of_singleton (C := gset Z) 42 42)). reflexivity.
Defined.

Lemma default_never_conflicts_witness :
  get_latest_commit_ts (sys_oracle s2) (mkOTxn 7 0 [42] (Some {[42]}) false) ≠ Err (EDB Conflict).
Proof.
  apply (default_config_never_conflicts TxnConfig_default 7 s2).
  - reflexivity.
  - vm_compute. split; congruence.
  - apply s2_reachable.
Defined.

End OracleExamples.
