(* ===== verification/Txn.v ===== *)
(** * Txn: transactions

    [Txn] of src/src/txn/mod.rs: buffering writes, reading one's own writes,
    the limits on a transaction, and the batch of entries a commit sends; with
    [is_banned] of src/src/db.rs, [DB::get] of src/src/read.rs and
    [send_entires_to_write_channel] of src/src/write.rs.

    The hash of a key (ahash with a random seed) is an argument; the memtables
    and the levels are read through one function each; the clock is an
    argument. *)
From stdpp Require Import base list list_numbers gmap strings pretty sets.
From Stdlib Require Import ZArith Lia Ascii.
From S2P Require Import Prelude Text VarInt Kv WaterMark Oracle.

Local Open Scope nat_scope.

(** ** Configuration of the database a transaction reads *)

Record DbOpt : Type := mkDbOpt {
  op_value_threshold : nat;
  op_max_batch_count : nat;
  op_max_batch_size : nat;
  op_vlog_file_size : nat;
  op_name_space_offset : option nat
}.

(** [b"!badger!"] and [b"!badger!txn"] *)
Definition BADGER_PREFIX : list Z := bytes_of_string "!badger!".
Definition TXN_KEY : list Z := bytes_of_string "!badger!txn".
Definition MAX_KEY_SIZE : nat := 65000.

(** [DBInner::is_banned] (src/src/db.rs) *)
Definition is_banned (opt : DbOpt) (banned : gset Z) (key : list Z) : outcome unit :=
  match op_name_space_offset opt with
  | Some offset =>
      if length key <=? offset + 8 then Ok ()
      else
        p ← slice key offset (offset + 8);
        '(name_space, _) ← get_u64 p;
        if bool_decide (name_space ∈ banned) then Err (EDB BannedKey) else Ok ()
  | None => Ok ()
  end.

(** ** DB::get (src/src/read.rs) *)

Definition found : Type := Z * ValueMeta.

Definition value_absent (vm : ValueMeta) : bool :=
  Meta_is_empty (vm_meta vm) && bool_decide (vm_value vm = []).

(** What the search has found so far: nothing at timestamp 0. *)
Definition take_newer (best : Z * option ValueMeta) (f : found) : Z * option ValueMeta :=
  if (fst best <? fst f)%Z then (fst f, Some (snd f)) else best.

(** The loop over the memtables, the mutable one first, then the immutable ones
    from the newest to the oldest; a version at the read timestamp ends it. *)
Fixpoint get_from_mems (key_ts : KeyTs) (mems : list (KeyTs → option found))
    (best : Z * option ValueMeta) : found + (Z * option ValueMeta) :=
  match mems with
  | [] => inr best
  | mem :: rest =>
      match mem key_ts with
      | Some (txn_ts, vm) =>
          if value_absent vm then get_from_mems key_ts rest best
          else if Z.eqb txn_ts (kt_ts key_ts) then inl (txn_ts, vm)
          else get_from_mems key_ts rest (take_newer best (txn_ts, vm))
      | None => get_from_mems key_ts rest best
      end
  end.

Definition DB_get (closed : bool) (mut_mem : option (KeyTs → option found))
    (immut_mem : list (KeyTs → option found)) (level_get : KeyTs → outcome (option found))
    (key_ts : KeyTs) : outcome (option found) :=
  if closed then Err (EDB DBClosed)
  else
    match get_from_mems key_ts (option_list mut_mem ++ immut_mem) (0%Z, None) with
    | inl r => Ok (Some r)
    | inr best =>
        lv ← level_get key_ts;
        match lv with
        | Some (txn_ts, vm) =>
            if Z.eqb txn_ts (kt_ts key_ts) then Ok (Some (txn_ts, vm))
            else
              let '(ts, v) := take_newer best (txn_ts, vm) in
              Ok (match v with
                  | Some v => if Z.eqb ts 0 then None else Some (ts, v)
                  | None => None
                  end)
        | None =>
            let '(ts, v) := best in
            Ok (match v with
                | Some v => if Z.eqb ts 0 then None else Some (ts, v)
                | None => None
                end)
        end
    end.

(** ** Txn *)

Inductive PrefetchStatus : Type :=
| Prefetched
| NoPrefetched.

Record Item : Type := mkItemInner {
  im_key_ts : KeyTs;
  im_value_meta : ValueMeta;
  im_status : PrefetchStatus
}.

Record Txn : Type := mkTxn {
  tn_read_ts : Z;
  tn_commit_ts : Z;
  tn_size : nat;
  tn_count : nat;
  tn_config : TxnConfig;
  tn_conflict_keys : option (gset Z);
  tn_read_key_hash : list Z;
  tn_pending_writes : option (gmap (list Z) Entry);
  tn_duplicate_writes : list Entry;
  tn_discarded : bool;
  tn_done_read : bool;
  tn_update : bool
}.

Definition Txn_new (config : TxnConfig) (update : bool) (read_ts : Z) : Txn :=
  let update := if tx_read_only config && update then false else update in
  mkTxn read_ts 0 (length TXN_KEY + 10) 1 config
    (if update && tx_detect_conflicts config then Some ∅ else None) []
    (if update then Some ∅ else None) [] false false update.

Section TxnCode.
Context (hash_one : list Z → Z) (opt : DbOpt) (banned : gset Z).

(** The closure [check_size]: the new entry, count and size. *)
Definition check_size (txn : Txn) (e : Entry) : outcome (Entry * nat * nat) :=
  let count := tn_count txn + 1 in
  let e := Entry_try_set_value_threshold e (op_value_threshold opt) in
  let size := tn_size txn + Entry_estimate_size e (op_value_threshold opt) + 10 in
  if (op_max_batch_count opt <=? count) || (op_max_batch_size opt <=? size)
  then Err (EDB TxnTooBig)
  else Ok (e, count, size).

Definition insert_conflict (c : option (gset Z)) (h : Z) : option (gset Z) :=
  match c with
  | Some s => Some ({[h]} ∪ s)
  | None => None
  end.

(** [p.insert(key, e)] and the entry it replaces. *)
Definition insert_pending (p : option (gmap (list Z) Entry)) (dups : list Entry) (e : Entry) :
    option (gmap (list Z) Entry) * list Entry :=
  match p with
  | Some m =>
      let dups := match m !! Entry_key e with
                  | Some old => if Z.eqb (Entry_version old) (Entry_version e) then dups
                                else dups ++ [old]
                  | None => dups
                  end in
      (Some (<[Entry_key e := e]> m), dups)
  | None => (None, dups)
  end.

Definition modify (txn : Txn) (e : Entry) : outcome Txn :=
  if negb (tn_update txn) then Err (EDB ReadOnlyTxn)
  else if tn_discarded txn then Err (EDB DiscardedTxn)
  else if bool_decide (Entry_key e = []) then Err (EDB EmptyKey)
  else if starts_with (Entry_key e) BADGER_PREFIX then Err (EDB InvalidKey)
  else if MAX_KEY_SIZE <? length (Entry_key e) then Err (EMsg "Key exceeded limit")
  else if op_vlog_file_size opt <? length (Entry_value e) then Err (EMsg "Value exceeded limit")
  else
    _ ← is_banned opt banned (Entry_key e);
    '(e, count, size) ← check_size txn e;
    let conflict := insert_conflict (tn_conflict_keys txn) (hash_one (Entry_key e)) in
    let '(pending, dups) := insert_pending (tn_pending_writes txn) (tn_duplicate_writes txn) e in
    Ok (mkTxn (tn_read_ts txn) (tn_commit_ts txn) size count (tn_config txn) conflict
          (tn_read_key_hash txn) pending dups (tn_discarded txn) (tn_done_read txn) (tn_update txn)).

Definition Txn_set (txn : Txn) (key value : list Z) : outcome Txn := modify txn (Entry_new key value).

Definition Txn_delete (txn : Txn) (key : list Z) : outcome Txn :=
  modify txn (Entry_set_meta (Entry_set_key Entry_default key) Meta_DELETE).

Definition push_read_hash (txn : Txn) (h : Z) : Txn :=
  mkTxn (tn_read_ts txn) (tn_commit_ts txn) (tn_size txn) (tn_count txn) (tn_config txn)
    (tn_conflict_keys txn) (tn_read_key_hash txn ++ [h]) (tn_pending_writes txn)
    (tn_duplicate_writes txn) (tn_discarded txn) (tn_done_read txn) (tn_update txn).

(** Looking the key up among the transaction's own writes. *)
Definition get_pending (txn : Txn) (key : list Z) : option Entry :=
  if tn_update txn then
    match tn_pending_writes txn with
    | Some p =>
        match p !! key with
        | Some entry => if bytes_eqb (Entry_key entry) key then Some entry else None
        | None => None
        end
    | None => None
    end
  else None.

Definition item_of_db (key : list Z) (now : Z) (r : option found) : outcome Item :=
  match r with
  | Some (txn_ts, vm) =>
      if bool_decide (vm_value vm = []) && Meta_is_empty (vm_meta vm) then Err (EDB KeyNotFound)
      else if ValueMeta_is_deleted_or_expired now vm then Err (EDB KeyNotFound)
      else Ok (mkItemInner (mkKeyTs key txn_ts) vm NoPrefetched)
  | None => Err (EDB KeyNotFound)
  end.

(** [Txn::get]: the recorded read stays when the lookup fails. *)
Definition Txn_get (db_get : KeyTs → outcome (option found)) (now : Z) (txn : Txn) (key : list Z) :
    Txn * outcome Item :=
  if length key =? 0 then (txn, Err (EDB EmptyKey))
  else if tn_discarded txn then (txn, Err (EDB DiscardedTxn))
  else
    match is_banned opt banned key with
    | Ok _ =>
        match get_pending txn key with
        | Some entry =>
            if ValueMeta_is_deleted_or_expired now (e_value_meta entry)
            then (txn, Err (EDB KeyNotFound))
            else (txn, Ok (mkItemInner (KeyTs_set_txn_ts (e_key_ts entry) (tn_read_ts txn))
                             (e_value_meta entry) Prefetched))
        | None =>
            let txn := if tn_update txn then push_read_hash txn (hash_one key) else txn in
            (txn, r ← db_get (mkKeyTs key (tn_read_ts txn)); item_of_db key now r)
        end
    | Err e => (txn, Err e)
    | Panic => (txn, Panic)
    end.

End TxnCode.

(** ** Committing *)

Definition commit_pre_check (txn : Txn) : outcome unit :=
  if tn_discarded txn then Err (EMsg "Trying to commit a discarded txn")
  else
    let keep_togther :=
      match tn_pending_writes txn with
      | Some s => forallb (λ kv : list Z * Entry, Z.eqb (Entry_version kv.2) 0) (map_to_list s)
      | None => true
      end in
    if keep_togther && tx_managed_txns (tn_config txn) && Z.eqb (tn_commit_ts txn) 0
    then Err (EMsg "CommitTs cannot be zero. Please use commitat instead")
    else Ok ().

Definition stamp_version (commit_ts : Z) (e : Entry) : Entry :=
  if Z.eqb (Entry_version e) 0 then Entry_set_version e commit_ts else e.

Definition is_unversioned (e : Entry) : bool := Z.eqb (Entry_version e) 0.

Definition mark_txn (keep_together : bool) (e : Entry) : Entry :=
  if keep_together then Entry_set_meta e (Meta_insert (Entry_meta e) Meta_TXN) else e.

(** [commit_ts.to_u64().to_string()] *)
Definition ts_string (ts : Z) : list Z := bytes_of_string (pretty ts).

Definition fin_entry (commit_ts : Z) : Entry :=
  Entry_set_meta (Entry_set_version (Entry_new TXN_KEY (ts_string commit_ts)) commit_ts) Meta_FIN_TXN.

(** The batch of [commit_and_send]: every buffered write stamped with the
    commit timestamp, and the end marker when they all belong together. *)
Definition commit_entries (txn : Txn) (commit_ts : Z) : outcome (list Entry) :=
  let pending := match tn_pending_writes txn with
                 | Some p => (map_to_list p).*2
                 | None => []
                 end in
  let all := pending ++ tn_duplicate_writes txn in
  let keep_together := forallb is_unversioned all in
  let entries := mark_txn keep_together ∘ stamp_version commit_ts <$> all in
  if keep_together then
    _ ← assert_or_panic (negb (Z.eqb commit_ts 0));
    Ok (entries ++ [fin_entry commit_ts])
  else Ok entries.

(** The buffered writes are drained. *)
Definition drain_writes (txn : Txn) (done_read : bool) : Txn :=
  mkTxn (tn_read_ts txn) (tn_commit_ts txn) (tn_size txn) (tn_count txn) (tn_config txn)
    (tn_conflict_keys txn) (tn_read_key_hash txn)
    (match tn_pending_writes txn with Some _ => Some ∅ | None => None end) []
    (tn_discarded txn) done_read (tn_update txn).

Definition oracle_view (txn : Txn) : OTxn :=
  mkOTxn (tn_read_ts txn) (tn_commit_ts txn) (tn_read_key_hash txn) (tn_conflict_keys txn)
    (tn_done_read txn).

(** The part of the database a commit touches: the oracle, whether writes are
    blocked, and the channel of write requests. *)
Record WriteDb : Type := mkWriteDb {
  wd_oracle : Oracle;
  wd_block_writes : bool;
  wd_chan : list (list Entry)
}.

(** [send_entires_to_write_channel] (src/src/write.rs) *)
Definition send_entires_to_write_channel (db : WriteDb) (entries : list Entry) : outcome WriteDb :=
  if wd_block_writes db then Err (EDB BlockedWrites)
  else Ok (mkWriteDb (wd_oracle db) (wd_block_writes db) (wd_chan db ++ [entries])).

(** [commit_and_send]: the state that is left, and the commit timestamp or the
    error. *)
Definition commit_and_send (db : WriteDb) (txn : Txn) : WriteDb * Txn * outcome Z :=
  match get_latest_commit_ts (wd_oracle db) (oracle_view txn) with
  | Ok (commit_ts, o, ot) =>
      let db := mkWriteDb o (wd_block_writes db) (wd_chan db) in
      match commit_entries txn commit_ts with
      | Ok entries =>
          let txn := drain_writes txn (ot_done_read ot) in
          match send_entires_to_write_channel db entries with
          | Ok db => (db, txn, Ok commit_ts)
          | Err e =>
              (mkWriteDb (done_commit o commit_ts) (wd_block_writes db) (wd_chan db), txn, Err e)
          | Panic => (db, txn, Panic)
          end
      | Err e => (db, txn, Err e)
      | Panic => (db, txn, Panic)
      end
  | Err e => (db, txn, Err e)
  | Panic => (db, txn, Panic)
  end.

(** [commit], up to the reply of the writer, which is [result]. *)
Definition Txn_commit (db : WriteDb) (txn : Txn) (result : outcome unit) : WriteDb * Txn * outcome unit :=
  let empty := match tn_pending_writes txn with
               | Some s => size s =? 0
               | None => true
               end in
  if empty then (db, txn, Ok ())
  else
    match commit_pre_check txn with
    | Ok _ =>
        match commit_and_send db txn with
        | (db, txn, Ok commit_ts) =>
            (mkWriteDb (done_commit (wd_oracle db) commit_ts) (wd_block_writes db) (wd_chan db),
             txn, result)
        | (db, txn, Err e) => (db, txn, Err e)
        | (db, txn, Panic) => (db, txn, Panic)
        end
    | Err e => (db, txn, Err e)
    | Panic => (db, txn, Panic)
    end.

(** [discard]; [num_iters] is the number of open iterators. *)
Definition Txn_discard (o : Oracle) (txn : Txn) (num_iters : Z) : Oracle * outcome unit :=
  if tn_discarded txn then (o, Ok ())
  else if (0 <? num_iters)%Z then (o, Panic)
  else if negb (tx_managed_txns (tn_config txn)) then (fst (done_read o (oracle_view txn)), Ok ())
  else (o, Ok ()).

(* ------------------------------------------------------------------ *)
(** ** Lemmas: the invariant of a transaction *)

(** How many entries a commit would send, the end marker included. *)
Definition batch_bound (txn : Txn) : nat :=
  match tn_pending_writes txn with
  | Some p => size p
  | None => 0
  end + length (tn_duplicate_writes txn) + 1.

Record txn_wf (txn : Txn) : Prop := {
  tw_update : tn_update txn = true ↔ is_Some (tn_pending_writes txn);
  tw_keys : ∀ p k e, tn_pending_writes txn = Some p → p !! k = Some e → Entry_key e = k;
  tw_count : batch_bound txn <= tn_count txn
}.

Lemma Txn_new_wf config update read_ts : txn_wf (Txn_new config update read_ts).
Proof.
  unfold Txn_new. destruct (tx_read_only config && update); [|destruct update];
    split; unfold batch_bound; cbn [tn_update tn_pending_writes tn_duplicate_writes tn_count].
  all: try (rewrite ?map_size_empty; cbn; lia).
  all: try (split; [done|by intros []]).
  all: try (intros p k e [= <-]; by rewrite lookup_empty).
  all: try done.
Qed.

Section ModifyLemmas.
Context (hash_one : list Z → Z) (opt : DbOpt) (banned : gset Z).

(** What an accepted write passed, and the transaction it leaves. *)
Definition accepts (txn : Txn) (e : Entry) : Prop :=
  tn_update txn = true ∧ tn_discarded txn = false ∧ Entry_key e ≠ [] ∧
  starts_with (Entry_key e) BADGER_PREFIX = false ∧ length (Entry_key e) <= MAX_KEY_SIZE ∧
  length (Entry_value e) <= op_vlog_file_size opt ∧ is_banned opt banned (Entry_key e) = Ok () ∧
  tn_count txn + 1 < op_max_batch_count opt ∧
  tn_size txn + Entry_estimate_size e (op_value_threshold opt) + 10 < op_max_batch_size opt.

Definition written (txn : Txn) (e : Entry) : Txn :=
  let e := Entry_try_set_value_threshold e (op_value_threshold opt) in
  let '(pending, dups) := insert_pending (tn_pending_writes txn) (tn_duplicate_writes txn) e in
  mkTxn (tn_read_ts txn) (tn_commit_ts txn)
    (tn_size txn + Entry_estimate_size e (op_value_threshold opt) + 10) (tn_count txn + 1)
    (tn_config txn) (insert_conflict (tn_conflict_keys txn) (hash_one (Entry_key e)))
    (tn_read_key_hash txn) pending dups (tn_discarded txn) (tn_done_read txn) (tn_update txn).

Lemma try_set_threshold_same e n :
  Entry_key (Entry_try_set_value_threshold e n) = Entry_key e ∧
  Entry_version (Entry_try_set_value_threshold e n) = Entry_version e ∧
  e_value_meta (Entry_try_set_value_threshold e n) = e_value_meta e ∧
  e_key_ts (Entry_try_set_value_threshold e n) = e_key_ts e ∧
  Entry_estimate_size (Entry_try_set_value_threshold e n) n = Entry_estimate_size e n.
Proof. unfold Entry_try_set_value_threshold. by destruct (_ =? 0). Qed.

Lemma modify_inv txn e txn' :
  modify hash_one opt banned txn e = Ok txn' → accepts txn e ∧ txn' = written txn e.
Proof.
  destruct (try_set_threshold_same e (op_value_threshold opt)) as (_ & _ & _ & _ & Hest).
  unfold modify, accepts, written. repeat (case_if; [done|]). rewrite bind_Ok.
  intros ([] & Hban & Hr). apply bind_Ok in Hr as ([[e' count] size] & Hsz & Hr).
  unfold check_size in Hsz. destruct (_ || _) eqn:Eor in Hsz; [done|]. bool_to_prop.
  injection Hsz as <- <- <-. rewrite Hest in *.
  destruct (insert_pending _ _ _) as [pending dups]. injection Hr as <-.
  bool_to_prop. split_and!; try done; lia.
Qed.

Lemma modify_accepts txn e :
  accepts txn e → modify hash_one opt banned txn e = Ok (written txn e).
Proof.
  destruct (try_set_threshold_same e (op_value_threshold opt)) as (_ & _ & _ & _ & Hest).
  intros (Hu & Hd & Hk & Hp & Hl & Hv & Hb & Hc & Hs). unfold modify, written.
  rewrite Hu, Hd, Hp, Hb. cbn [negb]. rewrite bool_decide_eq_false_2 by done.
  case_if; [lia|]. case_if; [lia|]. cbn [mbind outcome_bind].
  unfold check_size. rewrite Hest. case_if.
  { destruct E1 as [E1|E1]; bool_to_prop; lia. }
  cbn [mbind outcome_bind]. by destruct (insert_pending _ _ _).
Qed.

Lemma written_wf txn e : tn_update txn = true → txn_wf txn → txn_wf (written txn e).
Proof.
  intros Hup [Hu Hk Hc]. destruct (proj1 Hu Hup) as [p Hp].
  unfold written, insert_pending. rewrite Hp.
  set (e' := Entry_try_set_value_threshold e (op_value_threshold opt)).
  unfold batch_bound in Hc. rewrite Hp in Hc. split; cbn [tn_update tn_pending_writes].
  - split; [by intros _; eexists|by intros _].
  - intros p' k x [= <-] Hx. destruct (decide (Entry_key e' = k)) as [<-|Hne].
    + rewrite lookup_insert_eq in Hx. by simplify_eq.
    + rewrite lookup_insert_ne in Hx by done. by eapply Hk.
  - unfold batch_bound. cbn [tn_pending_writes tn_duplicate_writes tn_count].
    destruct (p !! Entry_key e') as [old|] eqn:E.
    + rewrite map_size_insert, E. unfold id. destruct (Z.eqb _ _); rewrite ?length_app; cbn [length]; lia.
    + rewrite map_size_insert, E. unfold id. lia.
Qed.

(** Several writes in a row. *)
Definition modify_all (txn : Txn) (es : list Entry) : outcome Txn :=
  fold_outcome (modify hash_one opt banned) txn es.

Definition writes_size (es : list Entry) : nat :=
  sum_list_with (λ e, Entry_estimate_size e (op_value_threshold opt) + 10) es.

Lemma modify_all_inv txn es txn' :
  modify_all txn es = Ok txn' → txn_wf txn →
  txn_wf txn' ∧ tn_count txn' = tn_count txn + length es ∧
  tn_size txn' = tn_size txn + writes_size es ∧
  (es = [] ∨ tn_count txn' < op_max_batch_count opt ∧ tn_size txn' < op_max_batch_size opt).
Proof.
  unfold modify_all, writes_size. revert txn.
  induction es as [|e es IH]; intros txn; cbn [fold_outcome length sum_list_with].
  { intros [= <-] Hwf. split_and!; [done|lia|lia|by left]. }
  rewrite bind_Ok. intros (txn1 & Hm & Hr) Hwf.
  apply modify_inv in Hm as [Hacc ->].
  destruct Hacc as (Hu & _ & _ & _ & _ & _ & _ & Hc & Hs).
  destruct (IH (written txn e) Hr (written_wf txn e Hu Hwf)) as (Hwf' & Hc' & Hs' & Hb).
  destruct (try_set_threshold_same e (op_value_threshold opt)) as (_ & _ & _ & _ & Hest).
  assert (tn_count (written txn e) = tn_count txn + 1 ∧
    tn_size (written txn e) = tn_size txn + Entry_estimate_size e (op_value_threshold opt) + 10)
    as [Ew1 Ew2].
  { unfold written. destruct (insert_pending _ _ _). cbn [tn_count tn_size]. by rewrite Hest. }
  rewrite Ew1 in Hc'. rewrite Ew2 in Hs'. split_and!; [done|lia|lia|].
  right. destruct Hb as [->|Hb]; [cbn [length sum_list_with] in *; lia|done].
Qed.

End ModifyLemmas.

(* ------------------------------------------------------------------ *)
(** ** Lemmas: searching the sources *)

(** What a list of memtables answers, without the absent values. *)
Definition mem_answers (key_ts : KeyTs) (mems : list (KeyTs → option found)) : list found :=
  base.filter (λ f : found, value_absent f.2 = false) (omap (λ mem, mem key_ts) mems).

(** The newest of some answers. *)
Definition is_newest (cands : list found) (r : option found) : Prop :=
  match r with
  | Some f => f ∈ cands ∧ ∀ c, c ∈ cands → (c.1 <= f.1)%Z
  | None => ∀ c, c ∈ cands → (c.1 <= 0)%Z
  end.

(** The running best of the loop. *)
Definition is_best (seen : list found) (best : Z * option ValueMeta) : Prop :=
  (∀ c, c ∈ seen → (c.1 <= best.1)%Z) ∧
  match best.2 with
  | Some v => (best.1, v) ∈ seen ∧ (0 < best.1)%Z
  | None => best.1 = 0%Z
  end.

Lemma take_newer_best seen best f : is_best seen best → is_best (seen ++ [f]) (take_newer best f).
Proof.
  intros [Hle Hb]. unfold take_newer. destruct best as [ts v], f as [ts' v']. cbn [fst snd] in *.
  case_if; split; cbn [fst snd].
  - intros c [Hc|Hc]%elem_of_app; [specialize (Hle c Hc); lia|].
    apply list_elem_of_singleton in Hc as ->. done.
  - split; [apply elem_of_app; right; apply list_elem_of_here|].
    destruct v as [v|]; [destruct Hb; lia|lia].
  - intros c [Hc|Hc]%elem_of_app; [by apply Hle|]. apply list_elem_of_singleton in Hc as ->. done.
  - destruct v; [|done]. destruct Hb. split; [apply elem_of_app; by left|done].
Qed.

Lemma get_from_mems_spec key_ts mems seen best :
  is_best seen best → Forall (λ f : found, (f.1 <= kt_ts key_ts)%Z) (seen ++ mem_answers key_ts mems) →
  match get_from_mems key_ts mems best with
  | inl f => f ∈ seen ++ mem_answers key_ts mems ∧ f.1 = kt_ts key_ts
  | inr best' => is_best (seen ++ mem_answers key_ts mems) best'
  end.
Proof.
  revert seen best. induction mems as [|mem mems IH]; intros seen best Hb Hall; cbn [get_from_mems].
  { unfold mem_answers in *. cbn in *. by rewrite app_nil_r in *. }
  unfold mem_answers in *. cbn [omap list_omap] in *.
  destruct (mem key_ts) as [[ts v]|] eqn:Em; [|by apply IH].
  rewrite filter_cons in *. cbn [snd] in *. destruct (value_absent v) eqn:Ev.
  { rewrite decide_False in * by done. by apply IH. }
  rewrite decide_True in * by done. case_if.
  { split; [|done]. apply elem_of_app. right. left. }
  rewrite cons_middle, app_assoc in *. apply IH; [by apply take_newer_best|done].
Qed.

Lemma best_is_newest cands best :
  is_best cands best →
  is_newest cands (match best.2 with
                   | Some v => if Z.eqb best.1 0 then None else Some (best.1, v)
                   | None => None
                   end).
Proof.
  intros [Hle Hb]. destruct best as [ts [v|]]; cbn [fst snd] in *.
  - destruct Hb as [Hin Hpos]. case_if; [lia|]. split; [done|]. intros c Hc. by apply Hle.
  - intros c Hc. specialize (Hle c Hc). lia.
Qed.

(* ------------------------------------------------------------------ *)
(** ** Lemmas: the buffered writes and the batch of a commit *)

(** The last of the writes [es] to the key [k]. *)
Definition last_write (es : list Entry) (k : list Z) : option Entry :=
  last (base.filter (λ e, Entry_key e = k) es).

Lemma last_write_snoc es e k :
  last_write (es ++ [e]) k = if decide (Entry_key e = k) then Some e else last_write es k.
Proof.
  unfold last_write. rewrite filter_app, filter_cons, filter_nil. case_decide.
  - apply last_snoc.
  - by rewrite app_nil_r.
Qed.

Lemma last_write_key es k e : last_write es k = Some e → Entry_key e = k ∧ e ∈ es.
Proof. unfold last_write. intros E%last_Some_elem_of%list_elem_of_filter. tauto. Qed.

Section CommitLemmas.
Context (hash_one : list Z → Z) (opt : DbOpt) (banned : gset Z).

(** Unversioned writes: the map holds the last write of each key, and no
    overwritten entry is kept. *)
Lemma modify_all_pending config read_ts es txn :
  Forall (λ e, Entry_version e = 0%Z) es →
  modify_all hash_one opt banned (Txn_new config true read_ts) es = Ok txn → es ≠ [] →
  ∃ p, tn_pending_writes txn = Some p ∧ tn_duplicate_writes txn = [] ∧
    ∀ k, p !! k = (λ e, Entry_try_set_value_threshold e (op_value_threshold opt)) <$> last_write es k.
Proof.
  intros Hall. unfold modify_all. revert txn. induction es as [|e es IH] using rev_ind; [done|].
  intros txn. rewrite fold_outcome_app, bind_Ok. intros (txn1 & H1 & Hm) _.
  apply Forall_app in Hall as [Hall He]. apply (proj1 (Forall_singleton _ _)) in He.
  cbn [fold_outcome] in Hm. rewrite bind_Ok in Hm. destruct Hm as (txn2 & Hm & [= <-]).
  apply modify_inv in Hm as [Hacc ->].
  assert (∃ p, tn_pending_writes txn1 = Some p ∧ tn_duplicate_writes txn1 = [] ∧
    ∀ k, p !! k = (λ e, Entry_try_set_value_threshold e (op_value_threshold opt)) <$> last_write es k)
    as (p & Hp & Hd & Hl).
  { destruct (decide (es = [])) as [->|Hne]; [|by apply IH].
    cbn [fold_outcome] in H1. injection H1 as <-. exists ∅.
    destruct Hacc as [Hu _]. revert Hu. unfold Txn_new.
    destruct (tx_read_only config); cbn [andb tn_update]; [done|]. intros _.
    split_and!; [done|done|]. intros k. by rewrite lookup_empty. }
  destruct (try_set_threshold_same e (op_value_threshold opt)) as (Ek & Ev & _).
  unfold written, insert_pending. rewrite Hp, Hd, Ek, Ev.
  assert (match p !! Entry_key e with
          | Some old => if Z.eqb (Entry_version old) (Entry_version e) then [] else [] ++ [old]
          | None => []
          end = []) as ->.
  { rewrite Hl. destruct (last_write es (Entry_key e)) as [old|] eqn:E; [|done]. cbn [fmap option_fmap option_map].
    apply last_write_key in E as [_ Hin].
    rewrite Forall_forall in Hall.
    destruct (try_set_threshold_same old (op_value_threshold opt)) as (_ & -> & _).
    by rewrite (Hall old Hin), He. }
  eexists. split_and!; [done|done|]. intros k. rewrite last_write_snoc. case_decide as Hk.
  - rewrite <- Hk. by rewrite lookup_insert_eq.
  - by rewrite lookup_insert_ne by done.
Qed.

End CommitLemmas.

(** The entry a commit sends for a buffered write. *)
Definition as_committed (opt : DbOpt) (commit_ts : Z) (e : Entry) : Entry :=
  let e := Entry_try_set_value_threshold e (op_value_threshold opt) in
  Entry_set_meta (Entry_set_version e commit_ts) (Meta_insert (Entry_meta e) Meta_TXN).

Lemma commit_entries_unversioned txn p ts :
  tn_pending_writes txn = Some p → tn_duplicate_writes txn = [] →
  (∀ k e, p !! k = Some e → Entry_version e = 0%Z) →
  commit_entries txn ts =
    (_ ← assert_or_panic (negb (Z.eqb ts 0));
     Ok (((λ e, Entry_set_meta (Entry_set_version e ts) (Meta_insert (Entry_meta e) Meta_TXN)) <$>
            (map_to_list p).*2) ++ [fin_entry ts])).
Proof.
  intros Hp Hd Hv. unfold commit_entries. rewrite Hp, Hd, app_nil_r.
  assert (Forall (λ e, Entry_version e = 0%Z) (map_to_list p).*2) as Hall.
  { apply Forall_fmap, Forall_forall. intros [k e] Hin%elem_of_map_to_list. by eapply Hv. }
  replace (forallb is_unversioned (map_to_list p).*2) with true.
  - destruct (Z.eqb ts 0); cbn [negb assert_or_panic mbind outcome_bind]; [done|]. f_equal. f_equal.
    apply list_fmap_ext. intros i e Hi. eapply Forall_lookup_1 in Hi as Hz; [|exact Hall].
    unfold compose, mark_txn, stamp_version. by rewrite Hz.
  - symmetry. apply forallb_forall. intros e Hin. rewrite Forall_forall in Hall.
    unfold is_unversioned. rewrite Hall; [done|]. by apply list_elem_of_In.
Qed.

(** The map of the last writes of each key, as a batch. *)
Section SentBatch.
Context (opt : DbOpt) (ts : Z) (es : list Entry) (p : gmap (list Z) Entry).
Hypothesis Hl : ∀ k, p !! k =
  (λ e, Entry_try_set_value_threshold e (op_value_threshold opt)) <$> last_write es k.

Let sent : Entry → Entry :=
  λ e, Entry_set_meta (Entry_set_version e ts) (Meta_insert (Entry_meta e) Meta_TXN).

Lemma pending_key k e : p !! k = Some e → Entry_key e = k.
Proof.
  rewrite Hl. intros (e0 & He0 & ->)%fmap_Some.
  destruct (try_set_threshold_same e0 (op_value_threshold opt)) as (-> & _).
  by apply last_write_key in He0 as [? _].
Qed.

Lemma sent_keys_NoDup : NoDup (Entry_key <$> (sent <$> (map_to_list p).*2)).
Proof.
  replace (Entry_key <$> (sent <$> (map_to_list p).*2)) with (map_to_list p).*1;
    [apply NoDup_fst_map_to_list|].
  rewrite <- !list_fmap_compose. apply list_fmap_ext. intros i [k e] Hi. cbn.
  symmetry. apply pending_key, elem_of_map_to_list. by eapply list_elem_of_lookup_2.
Qed.

Lemma sent_elements c :
  c ∈ sent <$> (map_to_list p).*2 ↔
  ∃ e, last_write es (Entry_key c) = Some e ∧ c = as_committed opt ts e.
Proof.
  rewrite list_elem_of_fmap. split.
  - intros (e & -> & Hin). apply list_elem_of_fmap in Hin as ([k e1] & -> & Hin%elem_of_map_to_list).
    cbn [snd]. pose proof (pending_key _ _ Hin) as Hk. rewrite Hl in Hin.
    apply fmap_Some in Hin as (e0 & He0 & ->). exists e0. split; [|done].
    change (Entry_key (sent ?x)) with (Entry_key x). by rewrite Hk.
  - intros (e & He & ->). set (k := Entry_key (as_committed opt ts e)) in *.
    exists (Entry_try_set_value_threshold e (op_value_threshold opt)). split; [done|].
    apply list_elem_of_fmap. exists (k, Entry_try_set_value_threshold e (op_value_threshold opt)).
    split; [done|]. apply elem_of_map_to_list. by rewrite Hl, He.
Qed.

End SentBatch.

(* ------------------------------------------------------------------ *)
(** ** Theorems *)

(** A point read over any sources. *)
Lemma DB_get_spec mut_mem immut_mem level_get key_ts lv :
  level_get key_ts = Ok lv →
  Forall (λ f : found, (f.1 <= kt_ts key_ts)%Z)
    (mem_answers key_ts (option_list mut_mem ++ immut_mem) ++ option_list lv) →
  ∃ r, DB_get false mut_mem immut_mem level_get key_ts = Ok r ∧
    is_newest (mem_answers key_ts (option_list mut_mem ++ immut_mem) ++ option_list lv) r.
Proof.
  intros Hlv Hall. unfold DB_get. pose proof Hall as Hmem. apply Forall_app in Hmem as [Hmem Hl].
  pose proof (get_from_mems_spec key_ts (option_list mut_mem ++ immut_mem) [] (0%Z, None)) as Hs.
  set (answers := mem_answers _ _) in *. cbn [app] in Hs.
  rewrite Forall_forall in Hall.
  destruct (get_from_mems _ _ _) as [f|best].
  - destruct Hs as [Hin Heq]; [split; [set_solver|done]|done|]. exists (Some f). split; [done|].
    split; [apply elem_of_app; by left|]. intros c Hc. rewrite Heq. by apply Hall.
  - assert (is_best answers best) as Hb by (apply Hs; [split; [set_solver|done]|done]).
    rewrite Hlv. cbn [mbind outcome_bind]. destruct lv as [[ts v]|]; cbn [option_list] in *.
    + case_if.
      * exists (Some (ts, v)). split; [done|]. split; [apply elem_of_app; right; left|].
        intros c Hc. cbn [fst]. rewrite E. by apply Hall.
      * pose proof (best_is_newest _ _ (take_newer_best _ _ (ts, v) Hb)) as Hn.
        destruct (take_newer best (ts, v)) as [bts bv]. by eexists.
    + pose proof (best_is_newest _ _ Hb) as Hn. rewrite app_nil_r. destruct best as [bts bv].
      by eexists.
Qed.

(** A point read returns the newest version among the answers of the memtables and
    of the levels, when none of them is above the read timestamp: the value of no source is
    newer than the one returned, the early exit included, and nothing is returned
    only when no source has a version. *)
Theorem DB_get_newest mut_mem immut_mem level_get key_ts lv :
  level_get key_ts = Ok lv →
  Forall (λ f : found, (f.1 <= kt_ts key_ts)%Z)
    (mem_answers key_ts (option_list mut_mem ++ immut_mem) ++ option_list lv) →
  ∃ r, DB_get false mut_mem immut_mem level_get key_ts = Ok r ∧
    is_newest (mem_answers key_ts (option_list mut_mem ++ immut_mem) ++ option_list lv) r.
Proof.
  intros Hlv Hall. by apply DB_get_spec.
Qed.

(** C21: A transaction reads its own writes: after a write is accepted, reading
    its key returns exactly the written value at the read timestamp, or nothing
    when the write is a deletion or has expired, without consulting the database
    and without recording a read; the buffered writes of other keys are as
    before. *)
Theorem read_your_writes hash_one opt banned txn e txn' db_get now :
  txn_wf txn → modify hash_one opt banned txn e = Ok txn' →
  txn_wf txn' ∧
  Txn_get hash_one opt banned db_get now txn' (Entry_key e) =
    (txn', if ValueMeta_is_deleted_or_expired now (e_value_meta e) then Err (EDB KeyNotFound)
           else Ok (mkItemInner (mkKeyTs (Entry_key e) (tn_read_ts txn)) (e_value_meta e) Prefetched)) ∧
  ∀ k, k ≠ Entry_key e → get_pending txn' k = get_pending txn k.
Proof.
  intros Hwf Hm. apply modify_inv in Hm as [Hacc ->].
  destruct Hacc as (Hu & Hd & Hk & _ & _ & _ & Hban & _). split; [by apply written_wf|].
  destruct (proj1 (tw_update txn Hwf) Hu) as [p Hp].
  destruct (try_set_threshold_same e (op_value_threshold opt)) as (Ek & _ & Evm & Ekt & _).
  set (e' := Entry_try_set_value_threshold e (op_value_threshold opt)) in *.
  assert (∃ dups cf sz ct, written hash_one opt txn e =
    mkTxn (tn_read_ts txn) (tn_commit_ts txn) sz ct (tn_config txn) cf (tn_read_key_hash txn)
      (Some (<[Entry_key e := e']> p)) dups false (tn_done_read txn) true)
    as (dups & cf & sz & ct & ->).
  { unfold written, insert_pending. rewrite Hp, Hd, Hu. fold e'. rewrite Ek. by repeat eexists. }
  split.
  - unfold Txn_get. case_if; [by destruct (Entry_key e)|]. cbn [tn_discarded]. rewrite Hban.
    unfold get_pending. cbn [tn_update tn_pending_writes]. rewrite lookup_insert_eq, Ek.
    unfold bytes_eqb. rewrite bool_decide_eq_true_2 by done. rewrite Evm, Ekt. cbn [tn_read_ts].
    by destruct (ValueMeta_is_deleted_or_expired _ _).
  - intros k Hne. unfold get_pending. cbn [tn_update tn_pending_writes]. rewrite Hu, Hp.
    by rewrite lookup_insert_ne by congruence.
Qed.

(** C29: Limits: a write is accepted exactly under the documented conditions, and
    after any run of accepted writes the number of entries the commit will send,
    its end marker included, and the estimated size are below the batch limits. *)
Theorem txn_limits hash_one opt banned config read_ts es txn' e :
  modify_all hash_one opt banned (Txn_new config true read_ts) es = Ok txn' →
  ((∃ txn'', modify hash_one opt banned txn' e = Ok txn'') ↔ accepts opt banned txn' e) ∧
  batch_bound txn' <= tn_count txn' ∧ tn_count txn' = 1 + length es ∧
  tn_size txn' = length TXN_KEY + 10 + writes_size opt es ∧
  (es ≠ [] → batch_bound txn' < op_max_batch_count opt ∧ tn_size txn' < op_max_batch_size opt).
Proof.
  intros Hm. destruct (modify_all_inv hash_one opt banned _ _ _ Hm (Txn_new_wf _ _ _))
    as (Hwf & Hc & Hs & Hb).
  assert (tn_count (Txn_new config true read_ts) = 1 ∧
    tn_size (Txn_new config true read_ts) = length TXN_KEY + 10) as [E1 E2].
  { unfold Txn_new. by destruct (tx_read_only config && true). }
  rewrite E1 in Hc. rewrite E2 in Hs. pose proof (tw_count txn' Hwf). split_and!; try done.
  - split.
    + intros (txn'' & Hm'). by apply modify_inv in Hm' as [? _].
    + intros Hacc. eexists. by apply modify_accepts.
  - destruct Hb as [->|[? ?]]; [done|lia].
Qed.

(** What a commit puts in the channel. *)
Lemma commit_sends hash_one opt banned config read_ts es txn db db' txn' r :
  modify_all hash_one opt banned (Txn_new config true read_ts) es = Ok txn → es ≠ [] →
  Forall (λ e, Entry_version e = 0%Z) es → commit_and_send db txn = (db', txn', r) →
  match r with
  | Ok ts =>
      ∃ batch, wd_chan db' = wd_chan db ++ [batch ++ [fin_entry ts]] ∧
        NoDup (Entry_key <$> batch) ∧
        (∀ c, c ∈ batch ↔ ∃ e, last_write es (Entry_key c) = Some e ∧ c = as_committed opt ts e) ∧
        tn_pending_writes txn' = Some ∅ ∧ tn_duplicate_writes txn' = []
  | _ => wd_chan db' = wd_chan db
  end.
Proof.
  intros Hm Hne Hall Hc. destruct (modify_all_pending _ _ _ _ _ _ _ Hall Hm Hne) as (p & Hp & Hd & Hl).
  unfold commit_and_send in Hc.
  destruct (get_latest_commit_ts (wd_oracle db) (oracle_view txn)) as [[[ts o] ot]| |];
    [|by injection Hc as <- <- <-..].
  rewrite (commit_entries_unversioned txn p ts Hp Hd) in Hc.
  2:{ intros k e He. rewrite Hl in He. apply fmap_Some in He as (e0 & He0 & ->).
      destruct (try_set_threshold_same e0 (op_value_threshold opt)) as (_ & -> & _).
      rewrite Forall_forall in Hall. apply Hall.
      by apply last_write_key in He0 as [_ ?]. }
  unfold assert_or_panic in Hc. destruct (negb (Z.eqb ts 0)); cbn [mbind outcome_bind] in Hc;
    [|by injection Hc as <- <- <-].
  unfold send_entires_to_write_channel in Hc. cbn [wd_block_writes wd_chan wd_oracle] in Hc.
  destruct (wd_block_writes db); injection Hc as <- <- <-; cbn [wd_chan]; [done|].
  eexists. split; [done|]. cbn [drain_writes tn_pending_writes tn_duplicate_writes]. rewrite Hp.
  split_and!; [| |done|done].
  - by apply (sent_keys_NoDup opt ts es p Hl).
  - by apply (sent_elements opt ts es p Hl).
Qed.

(** C7: A commit is one batch: the transaction's writes, without versions of
    their own, are sent as a single request that holds, for each written key,
    exactly its last write, with the commit timestamp as its version and the
    transaction flag, followed by one end marker with the same timestamp; the
    transaction is left with no buffered writes. A commit that fails sends
    nothing. *)
Theorem commit_batch hash_one opt banned config read_ts es txn db db' txn' r :
  modify_all hash_one opt banned (Txn_new config true read_ts) es = Ok txn → es ≠ [] →
  Forall (λ e, Entry_version e = 0%Z) es → commit_and_send db txn = (db', txn', r) →
  match r with
  | Ok ts =>
      ∃ batch, wd_chan db' = wd_chan db ++ [batch ++ [fin_entry ts]] ∧
        NoDup (Entry_key <$> batch) ∧
        (∀ c, c ∈ batch ↔ ∃ e, last_write es (Entry_key c) = Some e ∧ c = as_committed opt ts e) ∧
        tn_pending_writes txn' = Some ∅ ∧ tn_duplicate_writes txn' = []
  | _ => wd_chan db' = wd_chan db
  end.
Proof.
  intros Hm Hne Hall Hc. by apply (commit_sends hash_one opt banned config read_ts es txn db db' txn' r).
Qed.

(** ** Witnesses *)

Module TxnExamples.

Definition opt : DbOpt := mkDbOpt 100 10 1000 4096 None.
Definition hash (k : list Z) : Z := fold_right Z.add 0%Z k.

(** A memtable with one version, and a level with an older one. *)
Definition mem (k : KeyTs) : option found :=
  if bool_decide (kt_key k = [97]%Z) then Some (5%Z, mkValueMeta [1]%Z 0 0 0) else None.
Definition level (k : KeyTs) : outcome (option found) := Ok (Some (3%Z, mkValueMeta [2]%Z 0 0 0)).

Lemma DB_get_newest_witness :
  ∃ r, DB_get false (Some mem) [] level (mkKeyTs [97]%Z 9) = Ok r ∧
    is_newest [(5, mkValueMeta [1]%Z 0 0 0); (3, mkValueMeta [2]%Z 0 0 0)]%Z r.
Proof.
  apply (DB_get_newest (Some mem) [] level (mkKeyTs [97]%Z 9)
           (Some (3%Z, mkValueMeta [2]%Z 0 0 0))); [reflexivity|].
  apply Forall_cons. split; [vm_compute; congruence|].
  apply Forall_cons. split; [vm_compute; congruence|apply Forall_nil; exact I].
Defined.

Definition ok_or {A} (r : outcome A) (d : A) : A := match r with Ok x => x | _ => d end.

Definition txn0 : Txn := Txn_new TxnConfig_default true 7.
Definition write1 : Entry := Entry_new [97]%Z [1; 2]%Z.
Definition write2 : Entry := Entry_new [97]%Z [3]%Z.
Definition txn1 : Txn := ok_or (modify hash opt ∅ txn0 write1) txn0.
Definition txn2 : Txn := ok_or (modify_all hash opt ∅ txn0 [write1; write2]) txn0.

Lemma read_your_writes_witness :
  (Txn_get hash opt ∅ (λ _, Panic) 0 txn1 [97]%Z).2 =
    Ok (mkItemInner (mkKeyTs [97]%Z 7) (mkValueMeta [1; 2]%Z 0 0 0) Prefetched).
Proof.
  destruct (read_your_writes hash opt ∅ txn0 write1 txn1 (λ _, Panic) 0) as (_ & Hget & _).
  - apply Txn_new_wf.
  - vm_compute. reflexivity.
  - change [97]%Z with (Entry_key write1) at 1. rewrite Hget. reflexivity.
Defined.

Lemma txn_limits_witness : tn_count txn2 = 3 ∧ batch_bound txn2 < 10.
Proof.
  destruct (txn_limits hash opt ∅ TxnConfig_default 7 [write1; write2] txn2 write1)
    as (_ & _ & Hc & _ & Hb); [vm_compute; reflexivity|].
  split; [exact Hc|]. apply Hb. congruence.
Defined.

Definition db : WriteDb := mkWriteDb OracleExamples.o1 false [].

Lemma commit_batch_witness :
  ∃ batch, wd_chan (commit_and_send db txn2).1.1 = [batch ++ [fin_entry 8]] ∧
    NoDup (Entry_key <$> batch).
Proof.
  pose proof (commit_batch hash opt ∅ TxnConfig_default 7 [write1; write2] txn2 db
    (commit_and_send db txn2).1.1 (commit_and_send db txn2).1.2 (Ok 8%Z)) as Hc.
  destruct Hc as (batch & Hch & Hnd & _).
  - vm_compute. reflexivity.
  - congruence.
  - apply Forall_cons. split; [reflexivity|]. apply Forall_cons. split; [reflexivity|].
    apply Forall_nil. exact I.
  - vm_compute. reflexivity.
  - exists batch. split; [exact Hch|exact Hnd].
Defined.

End TxnExamples.
