(* ===== verification/Manifest.v ===== *)
(** * Manifest: the log of table creations and deletions

    [ManifestInfo], [ManifestConfig::open], [help_rewrite],
    [replay_manifest_file] and [push_changes] of src/src/manifest.rs.  A file is
    its bytes; its handle stands at the end, as the code leaves it.  The
    protobuf coding of a change set (generated code over crate prost) and the
    order in which a [HashMap] is enumerated are the classes [ManifestCodec] and
    [TableOrder]. *)
From stdpp Require Import base list list_numbers gmap strings sets.
From Stdlib Require Import ZArith Lia.
From S2P Require Import Prelude Pb Storage.

Local Open Scope nat_scope.

(** ** Data *)

Definition Level_from_u32 (v : Z) : Z := u8 v.

Record TableManifest : Type := mkTableManifest {
  tm_level : Z;
  tm_keyid : Z;
  tm_compression : CompressionType
}.

Record ManifestInfo : Type := mkManifestInfo {
  mi_levels : list (gset Z);
  mi_tables : gmap Z TableManifest;
  mi_creations : nat;
  mi_deletions : nat
}.

Definition ManifestInfo_default : ManifestInfo := mkManifestInfo [] ∅ 0 0.

Record ManifestConfig : Type := mkManifestConfig {
  mf_read_only : bool;
  mf_external_magic_version : Z
}.

Record ManifestInner : Type := mkManifestInner {
  mn_file : list Z;
  mn_config : ManifestConfig;
  mn_deletions_rewrite_threshold : nat;
  mn_info : ManifestInfo
}.

#[export] Instance Operation_eq_dec : EqDecision Operation.
Proof. solve_decision. Defined.

(** ** Interfaces *)

Class ManifestCodec : Type := {
  change_set_encode : list ManifestChange → list Z;
  change_set_decode : list Z → option (list ManifestChange)
}.

Definition change_wf (c : ManifestChange) : Prop :=
  in_width 32 (mc_id c) ∧ in_width 32 (mc_level c) ∧ in_width 64 (mc_key_id c) ∧
  in_width 32 (mc_compression c).

Class ManifestCodecLaws `{ManifestCodec} : Prop := {
  change_set_roundtrip : ∀ cs, Forall change_wf cs →
    change_set_decode (change_set_encode cs) = Some cs;
  change_set_encode_nil : change_set_encode [] = []
}.

(** [HashMap::iter] enumerates the tables in some order. *)
Class TableOrder : Type := { iter_tables : gmap Z TableManifest → list (Z * TableManifest) }.

Class TableOrderLaws `{TableOrder} : Prop := {
  iter_tables_perm : ∀ m, iter_tables m ≡ₚ map_to_list m
}.

(** ** Constants *)

Definition DELETIONS_REWRITE_THRESHOLD : nat := 10 * 1000.
Definition DELETIONS_RATIO : nat := 10.
Definition BADGER_MAGIC_VERSION : Z := 8.
(** [b"Bdgr"] *)
Definition MAGIC_TEXT : list Z := [66; 100; 103; 114]%Z.

Section ManifestCode.
Context `{!ChecksumCodec, !ManifestCodec, !TableOrder}.

(** ** Applying changes *)

Definition apply_manifest_change (info : ManifestInfo) (change : ManifestChange) : outcome ManifestInfo :=
  let level := Z.to_nat (mc_level change) in
  match mc_op change with
  | Create =>
      match mi_tables info !! mc_id change with
      | Some _ => Err (EMsg "MANIFEST invalid, table exists")
      | None =>
          let tables := <[mc_id change := mkTableManifest (Level_from_u32 (mc_level change))
                            (mc_key_id change) (CompressionType_from (mc_compression change))]>
                          (mi_tables info) in
          let levels := if length (mi_levels info) <=? level then mi_levels info ++ [∅]
                        else mi_levels info in
          ids ← idx levels level;
          Ok (mkManifestInfo (<[level := {[mc_id change]} ∪ ids]> levels) tables
                (mi_creations info + 1) (mi_deletions info))
      end
  | Delete =>
      match mi_tables info !! mc_id change with
      | None => Err (EMsg "MANIFEST removes non-existing table")
      | Some _ =>
          ids ← idx (mi_levels info) level;
          Ok (mkManifestInfo (<[level := ids ∖ {[mc_id change]}]> (mi_levels info))
                (delete (mc_id change) (mi_tables info)) (mi_creations info) (mi_deletions info + 1))
      end
  end.

(** The changes before a failing one stay applied. *)
Fixpoint apply_change_set (info : ManifestInfo) (changes : list ManifestChange) :
    ManifestInfo * outcome unit :=
  match changes with
  | [] => (info, Ok ())
  | change :: rest =>
      match apply_manifest_change info change with
      | Ok info' => apply_change_set info' rest
      | Err e => (info, Err e)
      | Panic => (info, Panic)
      end
  end.

Definition as_changes (info : ManifestInfo) : list ManifestChange :=
  (λ x : Z * TableManifest, new_create x.1 (tm_level x.2) (tm_keyid x.2)
           (CompressionType_into (tm_compression x.2))) <$> iter_tables (mi_tables info).

(** ** Writing *)

(** Length, checksum and bytes of an encoded change set. *)
Definition change_record (buf : list Z) : list Z :=
  put_u32 (u32 (Z.of_nat (length buf))) ++ put_u32 (crc32_hash buf) ++ buf.

Definition magic (config : ManifestConfig) : list Z :=
  MAGIC_TEXT ++ put_u16 (mf_external_magic_version config) ++ put_u16 BADGER_MAGIC_VERSION.

(** [help_rewrite]: the new file, and the number of tables in it. *)
Definition help_rewrite (config : ManifestConfig) (info : ManifestInfo) : list Z * nat :=
  (magic config ++ change_record (change_set_encode (as_changes info)), size (mi_tables info)).

Definition push_changes (st : ManifestInner) (changes : list ManifestChange) :
    ManifestInner * outcome unit :=
  let with_info info := mkManifestInner (mn_file st) (mn_config st)
                          (mn_deletions_rewrite_threshold st) info in
  let serialize_buf := change_set_encode changes in
  match apply_change_set (mn_info st) changes with
  | (info, Ok _) =>
      let ratio := if mn_deletions_rewrite_threshold st <? mi_deletions info then
                     live ← usub (mi_creations info) (mi_deletions info);
                     Ok (DELETIONS_RATIO * live <? mi_deletions info)
                   else Ok false in
      match ratio with
      | Ok true =>
          let '(file, table_creations) := help_rewrite (mn_config st) info in
          (mkManifestInner file (mn_config st) (mn_deletions_rewrite_threshold st)
             (mkManifestInfo (mi_levels info) (mi_tables info) table_creations 0), Ok ())
      | Ok false =>
          if mf_read_only (mn_config st) then (with_info info, Err (EMsg "file not open for writing"))
          else (mkManifestInner (mn_file st ++ change_record serialize_buf) (mn_config st)
                  (mn_deletions_rewrite_threshold st) info, Ok ())
      | Err e => (with_info info, Err e)
      | Panic => (with_info info, Panic)
      end
  | (info, Err e) => (with_info info, Err e)
  | (info, Panic) => (with_info info, Panic)
  end.

(** ** Reading *)

(** The loop of [replay_manifest_file] on the bytes after [offset]; each record
    takes at least eight bytes, so the number of bytes is enough fuel. *)
Fixpoint replay_loop (fuel fp_size : nat) (rest : list Z) (offset : nat) (manifest : ManifestInfo) :
    outcome (ManifestInfo * nat) :=
  match fuel with
  | 0 => Panic
  | S fuel =>
      if length rest <? 8 then Ok (manifest, offset)
      else
        '(change_len, buf) ← get_u32 (take 8 rest);
        '(crc, _) ← get_u32 buf;
        let change_len := Z.to_nat change_len in
        if fp_size <? offset + change_len
        then Err (EMsg "buffer len too greater, Manifest file might be corrupted")
        else
          let body := drop 8 rest in
          if length body <? change_len then Ok (manifest, offset)
          else
            let change_set_buf := take change_len body in
            if negb (Z.eqb (crc32_hash change_set_buf) crc)
            then Err (EMsg "manifest has checksum mismatch")
            else
              let offset := offset + (8 + change_len) in
              match change_set_decode change_set_buf with
              | None => Err (EMsg "decode")
              | Some changes =>
                  match apply_change_set manifest changes with
                  | (manifest, Ok _) =>
                      replay_loop fuel fp_size (drop change_len body) offset manifest
                  | (_, Err e) => Err e
                  | (_, Panic) => Panic
                  end
              end
  end.

Definition replay_manifest_file (file : list Z) (ext_magic : Z) : outcome (ManifestInfo * nat) :=
  let read := take 8 file in
  let magic_buf := read ++ replicate (8 - length read) 0%Z in
  if negb (bytes_eqb (take 4 magic_buf) MAGIC_TEXT) then Err (EMsg "manifest has bad magic")
  else
    '(ext_version, buf) ← get_u16 (drop 4 magic_buf);
    '(version, _) ← get_u16 buf;
    if negb (Z.eqb version BADGER_MAGIC_VERSION) then Err (EMsg "manifest has unsupported version")
    else if negb (Z.eqb ext_version ext_magic) then Err (EMsg "external magic number")
    else replay_loop (S (length file)) (length file) (drop 8 file) (length read) ManifestInfo_default.

(** [ManifestConfig::open]: [file] is the content of MANIFEST, if it exists. *)
Definition Manifest_open (config : ManifestConfig) (file : option (list Z)) : outcome ManifestInner :=
  match file with
  | Some file =>
      '(info, trunc_offset) ← replay_manifest_file file (mf_external_magic_version config);
      let file := if mf_read_only config then file
                  else take trunc_offset file ++ replicate (trunc_offset - length file) 0%Z in
      Ok (mkManifestInner file config DELETIONS_REWRITE_THRESHOLD info)
  | None =>
      if mf_read_only config then Err (EMsg "no manifest found, required for read-only db")
      else
        let '(file, table_creations) := help_rewrite config ManifestInfo_default in
        _ ← assert_or_panic (table_creations =? 0);
        Ok (mkManifestInner file config DELETIONS_REWRITE_THRESHOLD ManifestInfo_default)
  end.

(** Several pushes in a row, all accepted. *)
Fixpoint push_all (st : ManifestInner) (css : list (list ManifestChange)) : outcome ManifestInner :=
  match css with
  | [] => Ok st
  | cs :: rest =>
      match push_changes st cs with
      | (st', Ok _) => push_all st' rest
      | (_, Err e) => Err e
      | (_, Panic) => Panic
      end
  end.

End ManifestCode.

(* ------------------------------------------------------------------ *)
(** ** Lemmas: applying changes *)

Record info_wf (info : ManifestInfo) : Prop := {
  iw_counts : mi_creations info = mi_deletions info + size (mi_tables info);
  iw_tables : ∀ id t, mi_tables info !! id = Some t →
    in_width 32 id ∧ in_width 8 (tm_level t) ∧ in_width 64 (tm_keyid t) ∧
    CompressionType_from (CompressionType_into (tm_compression t)) = tm_compression t;
  iw_levels : mi_tables info ≠ ∅ → mi_levels info ≠ []
}.

Definition count_deletes (cs : list ManifestChange) : nat :=
  length (base.filter (λ c, mc_op c = Delete) cs).

Lemma info_default_wf : info_wf ManifestInfo_default.
Proof.
  split; cbn [mi_creations mi_deletions mi_tables mi_levels ManifestInfo_default].
  - by rewrite map_size_empty.
  - intros id t. by rewrite lookup_empty.
  - done.
Qed.

Lemma compression_from_idem v :
  CompressionType_from (CompressionType_into (CompressionType_from v)) = CompressionType_from v.
Proof. unfold CompressionType_from. by repeat case_if. Qed.

Lemma apply_change_wf info c info' :
  change_wf c → info_wf info → apply_manifest_change info c = Ok info' →
  info_wf info' ∧ mi_deletions info' = mi_deletions info + count_deletes [c].
Proof.
  intros (Hid & Hlv & Hk & Hc) [Hcnt Htab Hlev]. unfold apply_manifest_change, count_deletes.
  rewrite filter_cons, filter_nil. destruct (mc_op c);
    [rewrite decide_False by done|rewrite decide_True by done]; cbn [length].
  - destruct (mi_tables info !! mc_id c) eqn:E; [done|]. rewrite bind_Ok. intros (ids & _ & [= <-]).
    cbn. split; [split; cbn|lia].
    + rewrite map_size_insert_None by done. lia.
    + intros id t. destruct (decide (mc_id c = id)) as [<-|Hne].
      * rewrite lookup_insert_eq. intros [= <-]. cbn. split_and!; [done| |done|apply compression_from_idem].
        by apply Z.mod_pos_bound.
      * rewrite lookup_insert_ne by done. apply Htab.
    + intros _ Hnil. apply (f_equal length) in Hnil. rewrite length_insert in Hnil.
      destruct (_ <=? _) eqn:El; rewrite ?length_app in Hnil; cbn in Hnil; bool_to_prop; lia.
  - destruct (mi_tables info !! mc_id c) eqn:E; [|done]. rewrite bind_Ok. intros (ids & _ & [= <-]).
    cbn. split; [split; cbn|lia].
    + rewrite <- (insert_delete_id (mi_tables info) (mc_id c) _ E), map_size_insert_None in Hcnt
        by apply lookup_delete_eq. lia.
    + intros id t' [_ Hl]%lookup_delete_Some. by apply Htab.
    + intros _ Hnil. apply (f_equal length) in Hnil. rewrite length_insert in Hnil. cbn in Hnil.
      assert (mi_levels info = []) as Hz by by apply nil_length_inv.
      apply Hlev; [|done]. intros Hemp. by rewrite Hemp, lookup_empty in E.
Qed.

Lemma count_deletes_app a b : count_deletes (a ++ b) = count_deletes a + count_deletes b.
Proof. unfold count_deletes. by rewrite filter_app, length_app. Qed.

Lemma apply_change_set_wf info cs info' r :
  Forall change_wf cs → info_wf info → apply_change_set info cs = (info', r) →
  info_wf info' ∧ (r = Ok () → mi_deletions info' = mi_deletions info + count_deletes cs).
Proof.
  revert info. induction cs as [|c cs IH]; intros info Hall Hwf; cbn [apply_change_set].
  { intros [= <- <-]. split; [done|]. intros _. cbn. lia. }
  apply Forall_cons in Hall as [Hc Hall].
  destruct (apply_manifest_change info c) as [info1| |] eqn:E; [|by intros [= <- <-]..].
  destruct (apply_change_wf _ _ _ Hc Hwf E) as [Hwf1 Hd]. intros Hr.
  destruct (IH info1 Hall Hwf1 Hr) as [Hwf' Hd']. split; [done|]. intros Hok.
  change (c :: cs) with ([c] ++ cs). rewrite count_deletes_app, (Hd' Hok). lia.
Qed.

(** Several change sets. *)
Definition apply_one_set (info : ManifestInfo) (cs : list ManifestChange) : outcome ManifestInfo :=
  match apply_change_set info cs with
  | (info', Ok _) => Ok info'
  | (_, Err e) => Err e
  | (_, Panic) => Panic
  end.

Definition apply_sets (info : ManifestInfo) (css : list (list ManifestChange)) : outcome ManifestInfo :=
  fold_outcome apply_one_set info css.

(* ------------------------------------------------------------------ *)
(** ** Lemmas: replaying a file *)

Section Replay.
Context `{!ChecksumCodec, !ChecksumLaws, !ManifestCodec, !ManifestCodecLaws, !TableOrder,
  !TableOrderLaws}.

Definition set_fits (cs : list ManifestChange) : Prop :=
  Forall change_wf cs ∧ (Z.of_nat (length (change_set_encode cs)) < 2 ^ 32)%Z.

Definition set_record (cs : list ManifestChange) : list Z := change_record (change_set_encode cs).

Lemma length_change_record buf : length (change_record buf) = 8 + length buf.
Proof. unfold change_record. rewrite !length_app, !length_put_u32. lia. Qed.

Lemma length_set_record cs : length (set_record cs) = 8 + length (change_set_encode cs).
Proof. apply length_change_record. Qed.

Lemma length_magic config : length (magic config) = 8.
Proof. unfold magic. by rewrite !length_app, !length_put_u16. Qed.

Lemma take_drop_magic config rest :
  take 8 (magic config ++ rest) = magic config ∧ drop 8 (magic config ++ rest) = rest.
Proof. split; [apply take_app_length'|apply drop_app_length']; by rewrite length_magic. Qed.

(** A complete record at the front is applied; the size check looks only at the
    bytes that are there. *)
Lemma replay_record fuel fp_size cs tail offset info :
  set_fits cs → offset + length (change_set_encode cs) <= fp_size →
  replay_loop (S fuel) fp_size (set_record cs ++ tail) offset info =
    info' ← apply_one_set info cs;
    replay_loop fuel fp_size tail (offset + length (set_record cs)) info'.
Proof.
  intros [Hwf Hlen] Hsz. unfold set_record. set (buf := change_set_encode cs) in *.
  cbn [replay_loop]. rewrite length_app, length_change_record. guard_false.
  assert (take 8 (change_record buf ++ tail) =
    put_u32 (Z.of_nat (length buf)) ++ put_u32 (crc32_hash buf) ++ [] ∧
    drop 8 (change_record buf ++ tail) = buf ++ tail) as [-> ->].
  { unfold change_record. rewrite u32_small by (unfold in_width; lia).
    rewrite app_nil_r, !app_assoc, <- (app_assoc _ buf tail).
    by rewrite take_app_length', drop_app_length' by reflexivity. }
  rewrite get_put_u32 by (unfold in_width; lia). cbn [mbind outcome_bind].
  rewrite get_put_u32 by apply crc32_hash_range. cbn [mbind outcome_bind]. rewrite Nat2Z.id.
  guard_false. rewrite length_app. guard_false.
  rewrite take_app_length, drop_app_length, Z.eqb_refl. cbn [negb].
  unfold buf at 1. rewrite change_set_roundtrip by done. unfold apply_one_set.
  by destruct (apply_change_set info cs) as [info' [[]| |]].
Qed.

(** Whole records, then anything. *)
Lemma replay_records css : ∀ fuel fp_size tail offset info,
  Forall set_fits css → fp_size = offset + length (concat (set_record <$> css)) + length tail →
  replay_loop (length css + fuel) fp_size (concat (set_record <$> css) ++ tail) offset info =
    info' ← apply_sets info css;
    replay_loop fuel fp_size tail (offset + length (concat (set_record <$> css))) info'.
Proof.
  induction css as [|cs css IH]; intros fuel fp_size tail offset info Hfit Hfp.
  { cbn. by rewrite Nat.add_0_r. }
  apply Forall_cons in Hfit as [Hcs Hfit].
  cbn [fmap list_fmap concat length apply_sets fold_outcome Nat.add] in *.
  rewrite length_app in Hfp. pose proof (length_set_record cs) as Hl.
  rewrite <- app_assoc, replay_record by (try done; lia).
  destruct (apply_one_set info cs) as [info1| |]; cbn [mbind outcome_bind]; [|done|done].
  rewrite IH by (try done; lia). fold (apply_sets info1 css). rewrite length_app.
  destruct (apply_sets info1 css); cbn [mbind outcome_bind]; [|done|done]. f_equal. lia.
Qed.

(** A file of whole records and a tail. *)
Definition manifest_bytes (config : ManifestConfig) (css : list (list ManifestChange)) : list Z :=
  magic config ++ concat (set_record <$> css).

Lemma length_records css : length css <= length (concat (set_record <$> css)).
Proof.
  induction css as [|cs css IH]; cbn [fmap list_fmap concat length]; [lia|].
  rewrite length_app, length_set_record. lia.
Qed.

Lemma replay_file config css tail :
  in_width 16 (mf_external_magic_version config) → Forall set_fits css →
  ∃ fuel, length tail < fuel ∧
  replay_manifest_file (manifest_bytes config css ++ tail) (mf_external_magic_version config) =
    info ← apply_sets ManifestInfo_default css;
    replay_loop fuel (length (manifest_bytes config css ++ tail)) tail
      (length (manifest_bytes config css)) info.
Proof.
  intros Hext Hfit. unfold replay_manifest_file, manifest_bytes. rewrite <- app_assoc.
  destruct (take_drop_magic config (concat (set_record <$> css) ++ tail)) as [-> ->].
  rewrite length_magic, app_nil_r.
  change (take 4 (magic config)) with MAGIC_TEXT.
  change (drop 4 (magic config)) with
    (put_u16 (mf_external_magic_version config) ++ put_u16 BADGER_MAGIC_VERSION).
  unfold bytes_eqb. rewrite bool_decide_eq_true_2 by done. cbn [negb].
  rewrite get_put_u16 by done. cbn [mbind outcome_bind].
  rewrite <- (app_nil_r (put_u16 BADGER_MAGIC_VERSION)), get_put_u16 by (unfold in_width, BADGER_MAGIC_VERSION; lia).
  cbn [mbind outcome_bind]. rewrite !Z.eqb_refl. cbn [negb].
  pose proof (length_records css) as Hl.
  set (n := length (magic config ++ concat (set_record <$> css) ++ tail)).
  assert (n = 8 + length (concat (set_record <$> css)) + length tail) as Hn.
  { unfold n. rewrite !length_app, length_magic. lia. }
  exists (S n - length css). split; [lia|].
  replace (S n) with (length css + (S n - length css)) at 1 by lia.
  rewrite replay_records by (try done; lia). by rewrite length_app, length_magic.
Qed.

Lemma replay_end fuel fp_size offset info : replay_loop (S fuel) fp_size [] offset info = Ok (info, offset).
Proof. done. Qed.

(** Opening a file of whole records. *)
Lemma open_records config css :
  in_width 16 (mf_external_magic_version config) → Forall set_fits css →
  Manifest_open config (Some (manifest_bytes config css)) =
    info ← apply_sets ManifestInfo_default css;
    Ok (mkManifestInner (manifest_bytes config css) config DELETIONS_REWRITE_THRESHOLD info).
Proof.
  intros Hext Hfit. destruct (replay_file config css [] Hext Hfit) as (fuel & Hf & Hr).
  rewrite app_nil_r in Hr. unfold Manifest_open. rewrite Hr.
  destruct (apply_sets ManifestInfo_default css); cbn [mbind outcome_bind]; [|done|done].
  destruct fuel as [|fuel]; [cbn in Hf; lia|]. rewrite replay_end. cbn [mbind outcome_bind].
  case_if; [done|]. by rewrite take_ge, Nat.sub_diag, app_nil_r by lia.
Qed.

(* ------------------------------------------------------------------ *)
(** ** Lemmas: the file follows the state *)

(** The file holds the change sets [css], and they lead to the state. *)
Record file_inv (st : ManifestInner) (css : list (list ManifestChange)) : Prop := {
  fi_file : mn_file st = manifest_bytes (mn_config st) css;
  fi_fits : Forall set_fits css;
  fi_info : apply_sets ManifestInfo_default css = Ok (mn_info st);
  fi_wf : info_wf (mn_info st);
  fi_deletions : mi_deletions (mn_info st) = count_deletes (concat css)
}.

Lemma as_changes_default : as_changes ManifestInfo_default = [].
Proof.
  unfold as_changes. pose proof (iter_tables_perm (mi_tables ManifestInfo_default)) as Hp.
  cbn [mi_tables ManifestInfo_default] in *. rewrite map_to_list_empty in Hp.
  by rewrite (proj1 (Permutation_nil_r _) Hp).
Qed.

Lemma open_fresh config st :
  Manifest_open config None = Ok st →
  file_inv st [[]] ∧ mn_config st = config ∧ mf_read_only config = false ∧
  mn_deletions_rewrite_threshold st = DELETIONS_REWRITE_THRESHOLD.
Proof.
  unfold Manifest_open, help_rewrite. rewrite as_changes_default.
  destruct (mf_read_only config) eqn:Ero; [done|].
  cbn [mi_tables ManifestInfo_default]. rewrite map_size_empty. cbn [Nat.eqb assert_or_panic mbind outcome_bind].
  intros [= <-]. split_and!; [|done..].
  split; cbn [mn_file mn_config mn_info].
  - unfold manifest_bytes. cbn [fmap list_fmap concat]. rewrite app_nil_r.
    done.
  - apply Forall_singleton. split; [constructor|]. by rewrite change_set_encode_nil.
  - done.
  - apply info_default_wf.
  - done.
Qed.

Lemma push_inv st cs st' css :
  file_inv st css → set_fits cs → mf_read_only (mn_config st) = false →
  count_deletes (concat css) + count_deletes cs <= mn_deletions_rewrite_threshold st →
  push_changes st cs = (st', Ok ()) →
  file_inv st' (css ++ [cs]) ∧ mn_config st' = mn_config st ∧
  mn_deletions_rewrite_threshold st' = mn_deletions_rewrite_threshold st.
Proof.
  intros [Hfile Hfits Hinfo Hwf Hdel] Hcs Hro Hth. unfold push_changes.
  destruct (apply_change_set (mn_info st) cs) as [info [[]| |]] eqn:E; [|done|done].
  destruct (apply_change_set_wf _ _ _ _ (proj1 Hcs) Hwf E) as [Hwf' Hd']. specialize (Hd' eq_refl).
  guard_false. rewrite Hro. intros [= <-]. split_and!; [|done..].
  split; cbn [mn_file mn_config mn_info].
  - rewrite Hfile. unfold manifest_bytes. rewrite fmap_app, concat_app, <- app_assoc.
    cbn [fmap list_fmap concat]. by rewrite app_nil_r.
  - apply Forall_app. split; [done|by apply Forall_singleton].
  - unfold apply_sets in *. rewrite fold_outcome_app, Hinfo. cbn [mbind outcome_bind fold_outcome].
    unfold apply_one_set. by rewrite E.
  - done.
  - rewrite concat_app. cbn [concat]. rewrite app_nil_r, count_deletes_app. lia.
Qed.

Lemma push_all_inv css' : ∀ st st' css,
  file_inv st css → Forall set_fits css' → mf_read_only (mn_config st) = false →
  count_deletes (concat css) + count_deletes (concat css') <= mn_deletions_rewrite_threshold st →
  push_all st css' = Ok st' →
  file_inv st' (css ++ css') ∧ mn_config st' = mn_config st ∧
  mn_deletions_rewrite_threshold st' = mn_deletions_rewrite_threshold st.
Proof.
  induction css' as [|cs css' IH]; intros st st' css Hinv Hfits Hro Hth; cbn [push_all].
  { intros [= <-]. by rewrite app_nil_r. }
  apply Forall_cons in Hfits as [Hcs Hfits]. cbn [concat] in Hth. rewrite count_deletes_app in Hth.
  destruct (push_changes st cs) as [st1 [[]| |]] eqn:E; [|done|done]. intros Hr.
  destruct (push_inv st cs st1 css) as (Hinv1 & Hc1 & Ht1); [done|done|done|lia|done|].
  destruct (IH st1 st' (css ++ [cs])) as (Hinv' & Hc' & Ht'); [done|done|by rewrite Hc1| |done|].
  { rewrite concat_app, count_deletes_app. cbn [concat]. rewrite app_nil_r. lia. }
  rewrite <- app_assoc in Hinv'. split_and!; [done|congruence|congruence].
Qed.

(* ------------------------------------------------------------------ *)
(** ** Lemmas: a list of creations *)

(** The levels of a list of creations, in order, never skip a new level. *)
Fixpoint dense (n : nat) (levels : list nat) : bool :=
  match levels with
  | [] => true
  | l :: rest => if l <? n then dense n rest else if l =? n then dense (S n) rest else false
  end.

Definition create_of (x : Z * TableManifest) : ManifestChange :=
  new_create x.1 (tm_level x.2) (tm_keyid x.2) (CompressionType_into (tm_compression x.2)).

Definition table_ok (t : TableManifest) : Prop :=
  in_width 8 (tm_level t) ∧
  CompressionType_from (CompressionType_into (tm_compression t)) = tm_compression t.

Lemma apply_create info x :
  table_ok x.2 → mi_tables info !! x.1 = None →
  let level := Z.to_nat (tm_level x.2) in
  match apply_manifest_change info (create_of x) with
  | Ok info' =>
      level <= length (mi_levels info) ∧
      length (mi_levels info') = Nat.max (length (mi_levels info)) (S level) ∧
      mi_tables info' = <[x.1 := x.2]> (mi_tables info) ∧
      mi_creations info' = mi_creations info + 1 ∧ mi_deletions info' = mi_deletions info
  | Err _ => False
  | Panic => length (mi_levels info) < level
  end.
Proof.
  destruct x as [id [lv kid comp]]. intros [Hlv Hcomp] Hnone level.
  cbn [fst snd tm_level tm_compression] in *. unfold apply_manifest_change, create_of, new_create.
  cbn [mc_op mc_id mc_level mc_key_id mc_compression fst snd tm_level tm_keyid tm_compression].
  rewrite Hnone, Hcomp. fold level. unfold idx.
  replace (Level_from_u32 lv) with lv by (symmetry; by apply Z.mod_small).
  set (levels := if length (mi_levels info) <=? level then mi_levels info ++ [∅] else mi_levels info).
  assert (length levels = length (mi_levels info) + if length (mi_levels info) <=? level then 1 else 0) as Hl.
  { unfold levels. case_if; [by rewrite length_app|lia]. }
  destruct (levels !! level) as [ids|] eqn:E; cbn [unwrap mbind outcome_bind].
  - apply lookup_lt_Some in E. cbn [mi_levels mi_tables mi_creations mi_deletions].
    rewrite length_insert. revert Hl. case_if; intros Hl; split_and!; try done; lia.
  - apply lookup_ge_None in E. revert Hl. case_if; lia.
Qed.

Lemma apply_creates l : ∀ info,
  Forall (λ x, table_ok x.2) l → NoDup l.*1 → (∀ id, id ∈ l.*1 → mi_tables info !! id = None) →
  if dense (length (mi_levels info)) ((λ x : Z * TableManifest, Z.to_nat (tm_level x.2)) <$> l) then
    ∃ info', apply_one_set info (create_of <$> l) = Ok info' ∧
      mi_tables info' = list_to_map l ∪ mi_tables info ∧
      mi_creations info' = mi_creations info + length l ∧ mi_deletions info' = mi_deletions info
  else apply_one_set info (create_of <$> l) = Panic.
Proof.
  induction l as [|x l IH]; intros info Hok Hnd Hfresh; cbn [fmap list_fmap dense].
  { exists info. cbn. rewrite map_empty_union. split_and!; [done..|lia|done]. }
  apply Forall_cons in Hok as [Hx Hok]. apply NoDup_cons in Hnd as [Hnx Hnd].
  pose proof (apply_create info x Hx (Hfresh x.1 (list_elem_of_here _ _))) as Hc. cbn zeta in Hc.
  unfold apply_one_set. cbn [apply_change_set].
  destruct (apply_manifest_change info (create_of x)) as [info1| |]; [|done|].
  - destruct Hc as (Hle & Hlen & Htab & Hcr & Hde). fold (apply_one_set info1 (create_of <$> l)).
    assert (∀ id, id ∈ l.*1 → mi_tables info1 !! id = None) as Hfresh1.
    { intros id Hid. destruct (decide (x.1 = id)) as [<-|Hne]; [done|].
      rewrite Htab, lookup_insert_ne by done.
      apply Hfresh. by apply list_elem_of_further. }
    specialize (IH info1 Hok Hnd Hfresh1). rewrite Hlen in IH.
    set (lv := Z.to_nat (tm_level x.2)) in *.
    assert (dense (Nat.max (length (mi_levels info)) (S lv)) ((λ y : Z * TableManifest, Z.to_nat (tm_level y.2)) <$> l) =
      if lv <? length (mi_levels info)
      then dense (length (mi_levels info)) ((λ y : Z * TableManifest, Z.to_nat (tm_level y.2)) <$> l)
      else if lv =? length (mi_levels info)
      then dense (S (length (mi_levels info))) ((λ y : Z * TableManifest, Z.to_nat (tm_level y.2)) <$> l)
      else false) as Hdense.
    { case_if; [f_equal; lia|]. case_if; [f_equal; lia|lia]. }
    rewrite <- Hdense. revert IH. destruct (dense _ _); [|done].
    intros (info' & Ha & Ht & Hc' & Hd'). exists info'. split_and!; [done| |cbn; lia|lia].
    rewrite Ht, Htab. destruct x as [id t]. cbn [list_to_map foldr fst snd uncurry].
    rewrite <- insert_union_r by (apply not_elem_of_list_to_map_1; done).
    by rewrite <- insert_union_l.
  - rewrite (proj2 (Nat.ltb_ge (Z.to_nat (tm_level x.2)) (length (mi_levels info)))) by lia.
    by rewrite (proj2 (Nat.eqb_neq (Z.to_nat (tm_level x.2)) (length (mi_levels info)))) by lia.
Qed.

End Replay.

Section Torn.
Context `{!ChecksumCodec, !ChecksumLaws, !ManifestCodec, !ManifestCodecLaws}.

(** The loop on the first [n] bytes of a record that was not written out. *)
Lemma replay_torn fuel fp_size cs n offset info :
  set_fits cs → n < length (set_record cs) → fp_size = offset + n →
  replay_loop (S fuel) fp_size (take n (set_record cs)) offset info =
    if (8 <=? n) && (n <? length (change_set_encode cs))
    then Err (EMsg "buffer len too greater, Manifest file might be corrupted")
    else Ok (info, offset).
Proof.
  intros [Hwf Hlen] Hn Hfp. rewrite length_set_record in Hn.
  cbn [replay_loop]. rewrite length_take, length_set_record, Nat.min_l by lia.
  destruct (Nat.leb_spec 8 n) as [Hge|Hlt]; cbn [andb]; [guard_false|by guard_true].
  unfold set_record, change_record. set (buf := change_set_encode cs) in *.
  rewrite u32_small by (unfold in_width; lia). rewrite app_assoc.
  set (hdr := put_u32 (Z.of_nat (length buf)) ++ put_u32 (crc32_hash buf)).
  assert (length hdr = 8) as Hh by done.
  rewrite take_app_ge, Hh by lia.
  rewrite (take_app_length' hdr), (drop_app_length' hdr) by done.
  unfold hdr. rewrite get_put_u32 by (unfold in_width; lia). cbn [mbind outcome_bind].
  rewrite <- (app_nil_r (put_u32 (crc32_hash buf))), get_put_u32 by apply crc32_hash_range.
  cbn [mbind outcome_bind]. rewrite Nat2Z.id.
  destruct (Nat.ltb_spec n (length buf)); [by guard_true|]. guard_false.
  rewrite length_take. by guard_true.
Qed.

End Torn.

(* ------------------------------------------------------------------ *)
(** ** Theorems *)

Section ManifestTheorems.
Context `{!ChecksumCodec, !ChecksumLaws, !ManifestCodec, !ManifestCodecLaws, !TableOrder,
  !TableOrderLaws}.

(** C6: Durability of the manifest: after any accepted pushes on a fresh
    manifest, as long as the file is not rewritten, opening the file again gives
    back exactly the state in memory, and the creations outnumber the deletions
    by the live tables, so the count of live tables never underflows. *)
Theorem manifest_reopen config st0 css st :
  in_width 16 (mf_external_magic_version config) → Manifest_open config None = Ok st0 →
  Forall set_fits css → count_deletes (concat css) <= DELETIONS_REWRITE_THRESHOLD →
  push_all st0 css = Ok st →
  Manifest_open config (Some (mn_file st)) = Ok st ∧
  mi_creations (mn_info st) = mi_deletions (mn_info st) + size (mi_tables (mn_info st)).
Proof.
  intros Hext Hopen Hfits Hth Hp. destruct (open_fresh config st0 Hopen) as (Hinv0 & Hc0 & Hro & Ht0).
  destruct (push_all_inv css st0 st [[]]) as ([Hf Hfit Hinfo Hwf _] & Hc & Ht);
    [done|done|by rewrite Hc0|rewrite Ht0; exact Hth|done|].
  split; [|apply Hwf]. rewrite Hf, Hc, Hc0, open_records by done. rewrite Hinfo. cbn [mbind outcome_bind].
  rewrite <- Ht0, <- Ht, <- Hc0, <- Hc, <- Hf. by destruct st.
Qed.

(** C27: A rewritten manifest opens with the same tables, as many creations as
    tables and no deletions, exactly when the enumeration of the tables reaches
    every new level right after the one below it; any other enumeration order
    makes the database panic when it is opened. *)
Theorem manifest_rewrite_reopen config info :
  in_width 16 (mf_external_magic_version config) → info_wf info → set_fits (as_changes info) →
  if dense 0 ((λ x : Z * TableManifest, Z.to_nat (tm_level x.2)) <$> iter_tables (mi_tables info)) then
    ∃ st, Manifest_open config (Some (fst (help_rewrite config info))) = Ok st ∧
      mi_tables (mn_info st) = mi_tables info ∧
      mi_creations (mn_info st) = snd (help_rewrite config info) ∧ mi_deletions (mn_info st) = 0
  else Manifest_open config (Some (fst (help_rewrite config info))) = Panic.
Proof.
  intros Hext Hwf Hfit. pose proof (iter_tables_perm (mi_tables info)) as Hperm.
  assert (NoDup (iter_tables (mi_tables info)).*1) as Hnd.
  { rewrite Hperm. apply NoDup_fst_map_to_list. }
  pose proof (apply_creates (iter_tables (mi_tables info)) ManifestInfo_default) as Ha.
  cbn [ManifestInfo_default mi_levels length mi_tables mi_creations mi_deletions] in Ha.
  assert (fst (help_rewrite config info) = manifest_bytes config [as_changes info]) as ->.
  { unfold help_rewrite, manifest_bytes. cbn [fst fmap list_fmap concat]. by rewrite app_nil_r. }
  rewrite open_records by (try done; by apply Forall_singleton).
  unfold apply_sets. cbn [fold_outcome].
  change (as_changes info) with (create_of <$> iter_tables (mi_tables info)).
  revert Ha. destruct (dense _ _); intros Ha.
  - destruct Ha as (info' & -> & Ht & Hc & Hd); [|done|set_solver|].
    { rewrite Hperm. apply Forall_forall. intros [id t] Hin%elem_of_map_to_list.
      destruct (iw_tables _ Hwf id t Hin) as (_ & ? & _ & ?). by split. }
    cbn [mbind outcome_bind]. eexists. split_and!; [done| | |done]; cbn [mn_info].
    + rewrite Ht, map_union_empty, (list_to_map_proper _ _ Hnd Hperm). apply list_to_map_to_list.
    + rewrite Hc, Hperm. cbn [snd help_rewrite]. by rewrite length_map_to_list.
  - rewrite Ha; [done| |done|set_solver].
    rewrite Hperm. apply Forall_forall. intros [id t] Hin%elem_of_map_to_list.
    destruct (iw_tables _ Hwf id t Hin) as (_ & ? & _ & ?). by split.
Qed.

(** C28: A push cut short by a crash: the state before it is recovered and the
    torn bytes are cut off exactly when less than the eight header bytes were
    written, or no more than the last eight bytes of the record are missing; in
    between the manifest is refused as corrupted. *)
Theorem manifest_torn_tail config st0 css st cs n :
  in_width 16 (mf_external_magic_version config) → Manifest_open config None = Ok st0 →
  Forall set_fits css → count_deletes (concat css) <= DELETIONS_REWRITE_THRESHOLD →
  push_all st0 css = Ok st → set_fits cs → n < length (set_record cs) →
  Manifest_open config (Some (mn_file st ++ take n (set_record cs))) =
    if (8 <=? n) && (n <? length (change_set_encode cs))
    then Err (EMsg "buffer len too greater, Manifest file might be corrupted")
    else Ok st.
Proof.
  intros Hext Hopen Hfits Hth Hp Hcs Hn.
  destruct (open_fresh config st0 Hopen) as (Hinv0 & Hc0 & Hro & Ht0).
  destruct (push_all_inv css st0 st [[]]) as ([Hf Hfit Hinfo Hwf _] & Hc & Ht);
    [done|done|by rewrite Hc0|rewrite Ht0; exact Hth|done|].
  unfold Manifest_open. rewrite Hf, Hc, Hc0, Hro.
  destruct (replay_file config ([[]] ++ css) (take n (set_record cs)) Hext Hfit) as (fuel & Hfu & ->).
  rewrite Hinfo. cbn [mbind outcome_bind]. destruct fuel as [|fuel]; [lia|].
  rewrite replay_torn; [|done|done|rewrite length_app, length_take; lia].
  case_if; [done|]. cbn [mbind outcome_bind].
  rewrite take_app_length, length_app. replace (_ - (_ + _)) with 0 by lia.
  rewrite app_nil_r. rewrite Hc, Hc0 in Hf. rewrite <- Hf, <- Ht0, <- Ht.
  rewrite <- Hc0, <- Hc. by destruct st.
Qed.

End ManifestTheorems.

(** ** An instance of the interfaces, and witnesses *)

Module ManifestExamples.

Definition toy_op (o : Operation) : Z := match o with Create => 0 | Delete => 1 end.

Definition toy_change (c : ManifestChange) : list Z :=
  toy_op (mc_op c) :: put_u32 (mc_id c) ++ put_u32 (mc_level c) ++ put_u64 (mc_key_id c) ++
    put_u32 (mc_compression c).

(** Twenty-one bytes per change. *)
Fixpoint toy_decode (fuel : nat) (l : list Z) : option (list ManifestChange) :=
  match fuel, l with
  | _, [] => Some []
  | 0, _ => None
  | S fuel, op :: l =>
      let c := mkManifestChange (be_decode (take 4 l)) (if Z.eqb op 1 then Delete else Create)
                 (be_decode (take 4 (drop 4 l))) (be_decode (take 8 (drop 8 l)))
                 (be_decode (take 4 (drop 16 l))) in
      cs ← toy_decode fuel (drop 20 l);
      Some (c :: cs)
  end.

#[export] Instance toy_manifest : ManifestCodec | 100 := {|
  change_set_encode cs := concat (toy_change <$> cs);
  change_set_decode l := toy_decode (length l) l
|}.

Lemma toy_decode_encode cs fuel :
  Forall change_wf cs → length (concat (toy_change <$> cs)) <= fuel →
  toy_decode fuel (concat (toy_change <$> cs)) = Some cs.
Proof.
  revert fuel. induction cs as [|c cs IH]; intros fuel Hwf Hf; [by destruct fuel|].
  apply Forall_cons in Hwf as [(Hid & Hlv & Hk & Hc) Hwf].
  cbn [fmap list_fmap concat] in *. rewrite length_app in Hf.
  assert (length (toy_change c) = 21) as Hl by done.
  destruct fuel as [|fuel]; [lia|].
  assert (toy_decode (S fuel) (toy_change c ++ concat (toy_change <$> cs)) =
    l ← toy_decode fuel (concat (toy_change <$> cs));
    Some (mkManifestChange (be_decode (put_u32 (mc_id c)))
            (if Z.eqb (toy_op (mc_op c)) 1 then Delete else Create)
            (be_decode (put_u32 (mc_level c))) (be_decode (put_u64 (mc_key_id c)))
            (be_decode (put_u32 (mc_compression c))) :: l)) as -> by done.
  rewrite IH; [|done|lia]. cbn [mbind option_bind].
  unfold put_u32, put_u64.
  rewrite !(be_decode_encode_id 4), (be_decode_encode_id 8) by done.
  by destruct c as [? [] ? ? ?].
Qed.

#[export] Instance toy_manifest_laws : ManifestCodecLaws (H := toy_manifest) | 100.
Proof. split; [|done]. intros cs Hwf. by apply toy_decode_encode. Qed.

#[export] Instance list_order : TableOrder | 100 := {| iter_tables := map_to_list |}.

#[export] Instance list_order_laws : TableOrderLaws (H := list_order) | 100.
Proof. split. done. Qed.

Definition config : ManifestConfig := mkManifestConfig false 7.
Definition opened : ManifestInner :=
  match Manifest_open config None with
  | Ok st => st
  | _ => mkManifestInner [] config 0 ManifestInfo_default
  end.

(** Two tables are created, on levels 0 and 1, and the first is deleted. *)
Definition pushes : list (list ManifestChange) :=
  [[new_create 1 0 0 0; new_create 2 1 0 1]; [new_delete 1]].
Definition pushed : ManifestInner :=
  match push_all opened pushes with Ok st => st | _ => opened end.

Lemma pushes_fit : Forall set_fits pushes.
Proof.
  apply Forall_cons. split; [split|apply Forall_cons; split; [split|apply Forall_nil; exact I]].
  - repeat (apply Forall_cons; split; [vm_compute; intuition congruence|]). apply Forall_nil. exact I.
  - vm_compute. reflexivity.
  - repeat (apply Forall_cons; split; [vm_compute; intuition congruence|]). apply Forall_nil. exact I.
  - vm_compute. reflexivity.
Defined.

Lemma manifest_reopen_witness :
  Manifest_open config (Some (mn_file pushed)) = Ok pushed ∧ size (mi_tables (mn_info pushed)) = 1.
Proof.
  split; [|reflexivity]. apply (manifest_reopen config opened pushes pushed).
  - vm_compute. split; congruence.
  - vm_compute. reflexivity.
  - apply pushes_fit.
  - vm_compute. lia.
  - vm_compute. reflexivity.
Defined.

Lemma manifest_torn_witness :
  Manifest_open config (Some (mn_file pushed ++ take 5 (set_record [new_create 3 0 0 0]))) = Ok pushed.
Proof.
  apply (manifest_torn_tail config opened pushes pushed [new_create 3 0 0 0] 5).
  - vm_compute. split; congruence.
  - vm_compute. reflexivity.
  - apply pushes_fit.
  - vm_compute. lia.
  - vm_compute. reflexivity.
  - split; [|vm_compute; reflexivity].
    apply Forall_cons. split; [vm_compute; intuition congruence|apply Forall_nil; exact I].
  - vm_compute. lia.
Defined.

(** One table left, on level 1: the rewritten file cannot be opened. *)
Lemma pushed_wf : info_wf (mn_info pushed).
Proof.
  split.
  - vm_compute. reflexivity.
  - intros id t. replace (mi_tables (mn_info pushed)) with ({[2%Z := mkTableManifest 1 0 Snappy]} : gmap Z TableManifest)
      by (vm_compute; reflexivity).
    intros [<- <-]%lookup_singleton_Some. vm_compute. intuition congruence.
  - vm_compute. congruence.
Qed.

Lemma manifest_rewrite_witness :
  Manifest_open config (Some (fst (help_rewrite config (mn_info pushed)))) = Panic.
Proof.
  pose proof (manifest_rewrite_reopen config (mn_info pushed)) as Hr.
  assert (dense 0 ((λ x : Z * TableManifest, Z.to_nat (tm_level x.2)) <$>
    iter_tables (mi_tables (mn_info pushed))) = false) as Hd by (vm_compute; reflexivity).
  rewrite Hd in Hr. apply Hr.
  - vm_compute. split; congruence.
  - apply pushed_wf.
  - split; [|vm_compute; reflexivity].
    apply Forall_cons. split; [vm_compute; intuition congruence|apply Forall_nil; exact I].
Defined.

End ManifestExamples.
