(* ===== verification/Level.v ===== *)
(** * Level: the tables of a level and reads through the levels

    [LevelHandlerTables] and [LevelHandler] of src/src/level/level_handler.rs,
    [push_level0] of src/src/level/flush.rs, [LevelHandler::get] and
    [LevelsControllerInner::get] of src/src/level/read.rs, [validate] and
    [revert_to_manifest] of src/src/level/levels.rs.

    A level uses a table through its identifier, size, stale size, bounds and
    lookups: the classes [LevelTable] and [TableLookup].  The tables of the
    library [Table] are an instance; the theorems hold for any. *)
From stdpp Require Import base list list_numbers gmap strings sets.
From Stdlib Require Import ZArith Lia Sorted.
From S2P Require Import Prelude Util VarInt Kv Pb Storage Iter Block Table WaterMark Oracle Txn.

Local Open Scope nat_scope.

(** ** The interface of a table *)

Class LevelTable (T : Type) : Type := {
  table_id : T → Z;
  table_size : T → nat;
  stale_data_size : T → Z;
  smallest : T → KeyTs;
  biggest : T → KeyTs;
  max_version : T → Z
}.

(** The Bloom filter, and the newest version the table has for a key at or
    below a timestamp. *)
Class TableLookup (T : Type) : Type := {
  may_contain : T → KeyTs → outcome bool;
  table_lookup : T → KeyTs → outcome (option found)
}.

#[export] Hint Mode LevelTable ! : typeclass_instances.
#[export] Hint Mode TableLookup ! : typeclass_instances.

(** [sort_by] is a stable sort. *)
Fixpoint insert_by {A} (cmp : A → A → comparison) (x : A) (l : list A) : list A :=
  match l with
  | [] => [x]
  | y :: l' => match cmp x y with
               | Gt => y :: insert_by cmp x l'
               | _ => x :: l
               end
  end.

Definition sort_by {A} (cmp : A → A → comparison) (l : list A) : list A :=
  foldr (insert_by cmp) [] l.

Definition LEVEL0 : Z := 0.

Record LevelHandlerTables (T : Type) : Type := mkTables {
  ht_tables : list T;
  ht_total_size : nat;
  ht_total_stale_size : Z
}.

Arguments mkTables {T}.
Arguments ht_tables {T}.
Arguments ht_total_size {T}.
Arguments ht_total_stale_size {T}.

Record LevelHandler (T : Type) : Type := mkLevelHandler {
  hd_level : Z;
  hd_inner : LevelHandlerTables T
}.

Arguments mkLevelHandler {T}.
Arguments hd_level {T}.
Arguments hd_inner {T}.

Section LevelCode.
Context {T : Type} `{!LevelTable T}.

Definition sizes (l : list T) : nat := sum_list_with table_size l.

(** The running sum of the stale sizes, a [u32], in the loop of [delete]. *)
Definition stale_sizes (l : list T) : outcome Z :=
  foldl (λ sum t, sum ← sum; u32_add sum (stale_data_size t)) (Ok 0%Z) l.

(** [LevelHandlerTables::init]: the stale size of the last table is kept. *)
Definition tables_init (level : Z) (tables : list T) : LevelHandlerTables T :=
  let total_size := sizes tables in
  let total_stale_size := foldl (λ _ t, stale_data_size t) 0%Z tables in
  let tables :=
    if Z.eqb level LEVEL0 then sort_by (λ a b, Z.compare (table_id a) (table_id b)) tables
    else sort_by (λ a b, KeyTs_cmp (smallest a) (smallest b)) tables in
  mkTables tables total_size total_stale_size.

Definition LevelHandler_new (level : Z) : LevelHandler T := mkLevelHandler level (mkTables [] 0 0%Z).

Definition init_tables (h : LevelHandler T) (tables : list T) : LevelHandler T :=
  mkLevelHandler (hd_level h) (tables_init (hd_level h) tables).

Definition ids (l : list T) : gset Z := list_to_set (table_id <$> l).

(** The capacity of the new vector is computed with a checked subtraction. *)
Definition replace_tables (h : LevelHandler T) (old new : list T) : outcome (LevelHandler T) :=
  let to_del := ids old in
  _ ← usub (length (ht_tables (hd_inner h))) (size to_del);
  let kept := base.filter (λ t, table_id t ∉ to_del) (ht_tables (hd_inner h)) in
  Ok (mkLevelHandler (hd_level h) (tables_init (hd_level h) (kept ++ new))).

Definition u32_sub (a b : Z) : outcome Z := if (b <=? a)%Z then Ok (a - b)%Z else Panic.

Definition delete_tables (h : LevelHandler T) (del : list T) : outcome (LevelHandler T) :=
  let to_del := ids del in
  _ ← usub (length (ht_tables (hd_inner h))) (size to_del);
  let gone := base.filter (λ t, table_id t ∈ to_del) (ht_tables (hd_inner h)) in
  let kept := base.filter (λ t, table_id t ∉ to_del) (ht_tables (hd_inner h)) in
  total_size ← usub (ht_total_size (hd_inner h)) (sizes gone);
  sub_total_stale_size ← stale_sizes gone;
  total_stale_size ← u32_sub (ht_total_stale_size (hd_inner h)) sub_total_stale_size;
  Ok (mkLevelHandler (hd_level h) (mkTables kept total_size total_stale_size)).

(** One turn of the loop of [validate]. *)
Definition validate_pair (pre now : T) : outcome unit :=
  match KeyTs_cmp (biggest pre) (smallest now) with
  | Lt =>
      match KeyTs_cmp (smallest now) (biggest now) with
      | Gt => Err (EMsg "Intra")
      | _ => Ok ()
      end
  | _ => Err (EMsg "Inter")
  end.

Fixpoint validate_loop (tables : list T) : outcome unit :=
  match tables with
  | pre :: (now :: _) as rest => _ ← validate_pair pre now; validate_loop rest
  | _ => Ok ()
  end.

Definition LevelHandler_validate (h : LevelHandler T) : outcome unit :=
  if Z.eqb (hd_level h) LEVEL0 then Ok () else validate_loop (ht_tables (hd_inner h)).

(** [LevelsControllerInner::validate] *)
Definition levels_validate (levels : list (LevelHandler T)) : outcome unit :=
  fold_outcome (λ _ h, LevelHandler_validate h) () levels.

(** [push_level0] of the flush: whether the table was taken. *)
Definition push_level0 (h : LevelHandler T) (table : T) (level0_tables_stall : nat) :
    outcome (bool * LevelHandler T) :=
  _ ← assert_or_panic (Z.eqb (hd_level h) LEVEL0);
  let inner := hd_inner h in
  if level0_tables_stall <=? length (ht_tables inner) then Ok (false, h)
  else Ok (true, mkLevelHandler (hd_level h)
                   (mkTables (ht_tables inner ++ [table]) (ht_total_size inner + table_size table)
                      (stale_data_size table))).

(** ** Reading *)

(** [get_table_for_key]: below level 0 the search must hit a table whose
    biggest key is the key itself, or [unwrap] panics. *)
Definition get_table_for_key (h : LevelHandler T) (key_ts : KeyTs) : outcome (option (list T)) :=
  let tables := ht_tables (hd_inner h) in
  if Z.eqb (hd_level h) LEVEL0 then Ok (Some (rev tables))
  else
    r ← binary_search_by tables (λ t, Ok (KeyTs_cmp (biggest t) key_ts));
    table_index ← match r with Found i => Ok i | NotFound _ => Panic end;
    if length tables <=? table_index then Ok None
    else t ← idx tables table_index; Ok (Some [t]).

Context `{!TableLookup T}.

(** The tables whose filter may have the key. *)
Fixpoint candidates (key_ts : KeyTs) (tables : list T) : outcome (list T) :=
  match tables with
  | [] => Ok []
  | t :: rest =>
      b ← may_contain t key_ts;
      r ← candidates key_ts rest;
      Ok (if (b : bool) then t :: r else r)
  end.

Definition newest_step (key_ts : KeyTs) (best : Z * option ValueMeta) (t : T) :
    outcome (Z * option ValueMeta) :=
  r ← table_lookup t key_ts;
  Ok (match r with Some f => take_newer best f | None => best end).

Definition LevelHandler_get (h : LevelHandler T) (key_ts : KeyTs) : outcome (option found) :=
  tables ← get_table_for_key h key_ts;
  match tables with
  | None => Ok None
  | Some tables =>
      handles ← candidates key_ts tables;
      '(max_txn, max_value) ← fold_outcome (newest_step key_ts) (0%Z, None) handles;
      Ok (match max_value with
          | Some value =>
              if Z.eqb max_txn 0 then None
              else if Meta_is_empty (vm_meta value) then None
              else Some (max_txn, value)
          | None => None
          end)
  end.

(** The loop over the levels; a version at the read timestamp ends it. *)
Fixpoint levels_get_loop (levels : list (LevelHandler T)) (key_ts : KeyTs)
    (best : Z * option ValueMeta) : outcome (option found) :=
  match levels with
  | [] => let '(ts, v) := best in
          Ok (match v with
              | Some v => if Z.eqb ts 0 then None else Some (ts, v)
              | None => None
              end)
  | h :: rest =>
      r ← LevelHandler_get h key_ts;
      match r with
      | Some (txn, value) =>
          if Z.eqb txn (kt_ts key_ts) then Ok (Some (txn, value))
          else levels_get_loop rest key_ts (take_newer best (txn, value))
      | None => levels_get_loop rest key_ts best
      end
  end.

(** [LevelsControllerInner::get] *)
Definition levels_get (levels : list (LevelHandler T)) (key_ts : KeyTs) (start_level : nat) :
    outcome (option found) :=
  levels ← slice_from levels start_level;
  levels_get_loop levels key_ts (0%Z, None).

End LevelCode.

(** ** Tables of the library [Table] *)

#[export] Instance Table_level : LevelTable Table := {|
  table_id := t_table_id;
  table_size := t_table_size;
  stale_data_size t := ci_stale_data_size (t_cheap_index t);
  smallest := t_smallest;
  biggest := t_biggest;
  max_version t := ci_max_version (t_cheap_index t)
|}.

Section TableSeekCode.
Context `{!VarInt, !ChecksumCodec, !Compressor, !Aead, !TableIndexFb}.

(** [table_seek] of [LevelHandler::get] *)
Definition table_seek (table : Table) (key_ts : KeyTs) : outcome (option found) :=
  let k := KeyTs_serialize key_ts in
  '(b, iter) ← SinkTableIter_seek (Table_iter table) k;
  if (b : bool) then
    match iter_key iter with
    | Some key =>
        if kb_equal_key k key then
          v ← iter_value iter;
          Ok (match v with Some v => Some (kb_txn_ts key, v) | None => None end)
        else Ok None
    | None => Ok None
    end
  else Ok None.

#[export] Instance Table_lookup : TableLookup Table := {|
  may_contain := Table_may_contain_key;
  table_lookup := table_seek
|}.

End TableSeekCode.

(** [revert_to_manifest]: the table files left in the directory, or an error
    when the manifest names a missing one. *)
Definition revert_to_manifest (tables files : gset Z) : outcome (gset Z) :=
  if bool_decide (tables ⊆ files) then Ok (files ∩ tables)
  else Err (EMsg "file does not exist for table").

(* ------------------------------------------------------------------ *)
(** ** Lemmas: sorting by a key *)

Section SortBy.
Context {A K : Type} (key : A → K) (cmp : K → K → comparison) `{!CmpOrder cmp}.

Let cmpA (a b : A) : comparison := cmp (key a) (key b).
Let leA (a b : A) : Prop := cmp_le cmp (key a) (key b).

Lemma insert_by_perm x l : insert_by cmpA x l ≡ₚ x :: l.
Proof.
  induction l as [|y l IH]; cbn [insert_by]; [done|]. destruct (cmpA x y); [done|done|].
  rewrite IH. constructor.
Qed.

Lemma sort_by_perm l : sort_by cmpA l ≡ₚ l.
Proof. induction l as [|x l IH]; cbn; [done|]. by rewrite insert_by_perm, IH. Qed.

Lemma insert_by_sorted x l : StronglySorted leA l → StronglySorted leA (insert_by cmpA x l).
Proof.
  induction l as [|y l IH]; cbn [insert_by]; intros Hs; [repeat constructor|].
  apply StronglySorted_inv in Hs as [Hs Hy].
  assert (cmpA x y ≠ Gt → StronglySorted leA (x :: y :: l)) as Hfront.
  { intros Hne. constructor; [by constructor|]. constructor; [done|].
    eapply Forall_impl; [exact Hy|]. intros z Hz. by eapply (cmp_le_trans cmp). }
  destruct (cmpA x y) eqn:E; [by apply Hfront|by apply Hfront|].
  constructor; [by apply IH|]. rewrite insert_by_perm. constructor; [|done].
  unfold leA, cmp_le. rewrite (cmp_antisym (cmp := cmp) (key x) (key y)). fold (cmpA x y). by rewrite E.
Qed.

Lemma sort_by_sorted l : StronglySorted leA (sort_by cmpA l).
Proof. induction l as [|x l IH]; cbn; [constructor|by apply insert_by_sorted]. Qed.

End SortBy.

Lemma ForallOrdPairs_perm {A} (R : A → A → Prop) l l' :
  (∀ x y, R x y → R y x) → l ≡ₚ l' → ForallOrdPairs R l → ForallOrdPairs R l'.
Proof.
  intros Hsym. induction 1 as [|x l l' Hp IH|x y l|l1 l2 l3 _ IH1 _ IH2]; intros Hf; [done| | |auto].
  - inversion Hf as [|? ? Hx Hl]; subst. constructor; [by rewrite <- Hp|auto].
  - inversion Hf as [|? ? Hx Hl]; subst. inversion Hl as [|? ? Hy Hl']; subst.
    inversion Hx as [|? ? Hxy Hx']; subst. constructor; [constructor; auto|by constructor].
Qed.

(* ------------------------------------------------------------------ *)
(** ** Lemmas: ordered tables *)

Section LevelLemmas.
Context {T : Type} `{!LevelTable T}.

Definition table_wf (t : T) : Prop := cmp_le KeyTs_cmp (smallest t) (biggest t).

(** Every key of [a] is below every key of [b]. *)
Definition before (a b : T) : Prop := cmp_lt KeyTs_cmp (biggest a) (smallest b).

Definition disjoint_tables (a b : T) : Prop := before a b ∨ before b a.

(** The order a level below 0 keeps. *)
Definition ordered (l : list T) : Prop := StronglySorted before l ∧ Forall table_wf l.

Lemma sorted_disjoint_ordered l :
  StronglySorted (λ a b, cmp_le KeyTs_cmp (smallest a) (smallest b)) l →
  ForallOrdPairs disjoint_tables l → Forall table_wf l → StronglySorted before l.
Proof.
  induction l as [|x l IH]; intros Hs Hd Hw; [constructor|].
  apply StronglySorted_inv in Hs as [Hs Hx]. inversion Hd as [|? ? Hdx Hdl]; subst.
  apply Forall_cons in Hw as [Hwx Hw]. constructor; [by apply IH|].
  rewrite Forall_forall in *. intros y Hy. destruct (Hdx y Hy) as [|Hb]; [done|]. exfalso.
  apply (cmp_lt_irrefl KeyTs_cmp (smallest x)).
  eapply (cmp_le_lt_trans KeyTs_cmp); [apply (Hx y Hy)|].
  eapply (cmp_le_lt_trans KeyTs_cmp); [apply (Hw y Hy)|exact Hb].
Qed.

Lemma validate_pair_ok pre now : validate_pair pre now = Ok () ↔ before pre now ∧ table_wf now.
Proof.
  unfold validate_pair, before, table_wf, cmp_lt, cmp_le.
  destruct (KeyTs_cmp (biggest pre) (smallest now)), (KeyTs_cmp (smallest now) (biggest now));
    (split; [intros ?; split|intros [? ?]]); congruence.
Qed.

Lemma validate_loop_ok x l :
  table_wf x → validate_loop (x :: l) = Ok () ↔ ordered (x :: l).
Proof.
  revert x. induction l as [|y l IH]; intros x Hx.
  { split; [|done]. intros _. split; repeat constructor; done. }
  change (validate_loop (x :: y :: l)) with (_ ← validate_pair x y; validate_loop (y :: l)).
  rewrite bind_Ok. split.
  - intros ([] & [Hb Hy]%validate_pair_ok & Hl). apply IH in Hl as [Hs Hw]; [|done].
    split; [|by constructor]. constructor; [done|]. constructor; [done|].
    apply StronglySorted_inv in Hs as [_ Hs]. eapply Forall_impl; [exact Hs|].
    intros z Hz. eapply (cmp_lt_trans KeyTs_cmp); [exact Hb|].
    eapply (cmp_le_lt_trans KeyTs_cmp); [exact Hy|exact Hz].
  - intros [Hs Hw]. apply StronglySorted_inv in Hs as [Hs Hb]. apply Forall_cons in Hb as [Hb _].
    apply Forall_cons in Hw as [_ Hw]. assert (table_wf y) as Hy by by apply Forall_cons in Hw as [? _].
    exists (). split; [by apply validate_pair_ok|]. apply IH; [done|]. by split.
Qed.

Lemma ordered_validate l : ordered l → validate_loop l = Ok ().
Proof.
  destruct l as [|x l]; [done|]. intros Ho. apply validate_loop_ok; [|done].
  destruct Ho as [_ Hw]. by apply Forall_cons in Hw as [? _].
Qed.

Lemma sizes_perm (l l' : list T) : l ≡ₚ l' → sizes l = sizes l'.
Proof. unfold sizes. induction 1; cbn; lia. Qed.

Lemma sizes_app (l l' : list T) : sizes (l ++ l') = sizes l + sizes l'.
Proof. unfold sizes. induction l as [|x l IH]; cbn; [done|lia]. Qed.

Lemma tables_init_perm level (l : list T) : ht_tables (tables_init level l) ≡ₚ l.
Proof.
  unfold tables_init. cbn [ht_tables]. case_if.
  - apply (sort_by_perm table_id Z.compare).
  - apply (sort_by_perm smallest KeyTs_cmp).
Qed.

Lemma tables_init_ordered level l :
  level ≠ LEVEL0 → Forall table_wf l → ForallOrdPairs disjoint_tables l →
  ordered (ht_tables (tables_init level l)).
Proof.
  intros Hlv Hw Hd. pose proof (tables_init_perm level l) as Hp. split.
  - apply sorted_disjoint_ordered.
    + unfold tables_init. cbn [ht_tables]. case_if; [done|]. apply (sort_by_sorted smallest KeyTs_cmp).
    + eapply ForallOrdPairs_perm; [|symmetry; exact Hp|done].
      intros a b [?|?]; [by right|by left].
    + by rewrite Hp.
  - by rewrite Hp.
Qed.

(** The size of a handler is the size of its tables. *)
Definition size_inv (h : LevelHandler T) : Prop :=
  ht_total_size (hd_inner h) = sizes (ht_tables (hd_inner h)).

Lemma init_size_inv level (l : list T) : size_inv (mkLevelHandler level (tables_init level l)).
Proof. unfold size_inv. cbn [hd_inner]. rewrite (sizes_perm _ _ (tables_init_perm level l)). done. Qed.

Lemma sizes_filter (P : T → Prop) `{!∀ x, Decision (P x)} l :
  sizes l = sizes (base.filter P l) + sizes (base.filter (λ x, ¬ P x) l).
Proof.
  unfold sizes. induction l as [|x l IH]; [done|]. rewrite !filter_cons. cbn [sum_list_with].
  destruct (decide (P x)); [rewrite decide_False by tauto|rewrite decide_True by done];
    cbn [sum_list_with]; lia.
Qed.

End LevelLemmas.

(* ------------------------------------------------------------------ *)
(** ** Lemmas: searching a level *)

(** On any comparator the search ends, and finds only equal elements. *)
Lemma search_loop_total n (f : nat → comparison) g fuel left right :
  (∀ i, i < n → g i = Ok (f i)) → right <= n →
  ∃ r, search_loop fuel g left right = Ok r ∧
    match r with Found i => i < n ∧ f i = Eq | NotFound _ => True end.
Proof.
  intros Hg. revert left right. induction fuel as [|fuel IH]; intros left right Hr; cbn [search_loop].
  { by exists (NotFound left). }
  case_if; [|by exists (NotFound left)].
  assert ((left + right) / 2 < right) as Hm by (apply Nat.Div0.div_lt_upper_bound; lia).
  rewrite Hg by lia. cbn [mbind outcome_bind]. destruct (f ((left + right) / 2)) eqn:Ef.
  - exists (Found ((left + right) / 2)). split; [done|]. split; [lia|done].
  - apply IH. lia.
  - apply IH. lia.
Qed.

Lemma binary_search_total {A} (l : list A) (f : A → comparison) :
  ∃ r, binary_search_by l (λ x, Ok (f x)) = Ok r ∧
    match r with Found i => ∃ x, l !! i = Some x ∧ f x = Eq | NotFound _ => True end.
Proof.
  unfold binary_search_by, search.
  destruct (search_loop_total (length l) (λ i, match l !! i with Some x => f x | None => Eq end)
    (λ i, x ← idx l i; Ok (f x)) (length l) 0 (length l)) as (r & Hr & Hp); [|lia|].
  { intros i Hi. destruct (lookup_lt_is_Some_2 l i Hi) as [x Hx].
    unfold idx. by rewrite Hx. }
  exists r. split; [done|]. destruct r as [i|]; [|done]. destruct Hp as [Hi Hf].
  destruct (lookup_lt_is_Some_2 l i Hi) as [x Hx]. rewrite Hx in Hf. eauto.
Qed.

Section LevelGet.
Context {T : Type} `{!LevelTable T, !TableLookup T}.

Lemma get_table_missing (h : LevelHandler T) key_ts :
  hd_level h ≠ LEVEL0 → (∀ t, t ∈ ht_tables (hd_inner h) → biggest t ≠ key_ts) →
  get_table_for_key h key_ts = Panic.
Proof.
  intros Hlv Hno. unfold get_table_for_key. guard_false.
  destruct (binary_search_total (ht_tables (hd_inner h)) (λ t, KeyTs_cmp (biggest t) key_ts))
    as (r & -> & Hr). cbn [mbind outcome_bind]. destruct r as [i|i]; [|done].
  destruct Hr as (x & Hx & Hc). exfalso. apply (Hno x); [by eapply list_elem_of_lookup_2|].
  by apply (cmp_eq (cmp := KeyTs_cmp)).
Qed.

(** The answers of the tables that pass the filter. *)
Lemma newest_fold key_ts (look : T → option found) l seen best :
  (∀ t, t ∈ l → table_lookup t key_ts = Ok (look t)) → is_best seen best →
  ∃ best', fold_outcome (newest_step key_ts) best l = Ok best' ∧ is_best (seen ++ omap look l) best'.
Proof.
  revert seen best. induction l as [|t l IH]; intros seen best Hl Hb; cbn [fold_outcome].
  { exists best. cbn. by rewrite app_nil_r. }
  assert (newest_step key_ts best t =
    Ok (match look t with Some f => take_newer best f | None => best end)) as ->.
  { unfold newest_step. by rewrite Hl by apply list_elem_of_here. }
  cbn [mbind outcome_bind omap list_omap].
  assert (∀ t', t' ∈ l → table_lookup t' key_ts = Ok (look t')) as Hl'.
  { intros t' Ht'. apply Hl. by apply list_elem_of_further. }
  destruct (look t) as [f|]; [|by apply IH].
  destruct (IH (seen ++ [f]) (take_newer best f) Hl' (take_newer_best _ _ _ Hb)) as (b & Hr & Hbest).
  exists b. split; [done|]. by rewrite <- app_assoc in Hbest.
Qed.

Lemma candidates_filter key_ts (pass : T → bool) l :
  (∀ t, t ∈ l → may_contain t key_ts = Ok (pass t)) →
  candidates key_ts l = Ok (base.filter (λ t, pass t = true) l).
Proof.
  induction l as [|t l IH]; intros Hl; cbn [candidates]; [done|].
  rewrite Hl by apply list_elem_of_here. cbn [mbind outcome_bind].
  rewrite IH; [|intros t' Ht'; apply Hl; by apply list_elem_of_further]. cbn [mbind outcome_bind].
  rewrite filter_cons. destruct (pass t); [by rewrite decide_True|by rewrite decide_False].
Qed.

Lemma levels_get_loop_app (pre rest : list (LevelHandler T)) key_ts best :
  (∀ h, h ∈ pre → ∃ r, LevelHandler_get h key_ts = Ok r ∧
     ∀ f, r = Some f → f.1 ≠ kt_ts key_ts) →
  ∃ best', levels_get_loop (pre ++ rest) key_ts best = levels_get_loop rest key_ts best'.
Proof.
  revert best. induction pre as [|h pre IH]; intros best Hpre; [by exists best|].
  cbn [app levels_get_loop]. destruct (Hpre h (list_elem_of_here _ _)) as (r & -> & Hr).
  cbn [mbind outcome_bind].
  assert (∀ h', h' ∈ pre → ∃ r, LevelHandler_get h' key_ts = Ok r ∧
     ∀ f, r = Some f → f.1 ≠ kt_ts key_ts) as Hpre'.
  { intros h' Hh'. apply Hpre. by apply list_elem_of_further. }
  destruct r as [[txn v]|]; [|by apply IH].
  specialize (Hr _ eq_refl). cbn [fst] in Hr. guard_false. by apply IH.
Qed.

End LevelGet.

(* ------------------------------------------------------------------ *)
(** ** The operations on a level as steps *)

Inductive level_step {T} `{!LevelTable T} : LevelHandler T → LevelHandler T → Prop :=
| step_init h tables : level_step h (init_tables h tables)
| step_replace h old new h' : replace_tables h old new = Ok h' → level_step h h'
| step_delete h del h' : delete_tables h del = Ok h' → level_step h h'
| step_push h table stall b h' : push_level0 h table stall = Ok (b, h') → level_step h h'.

Lemma level_step_size {T} `{!LevelTable T} (h h' : LevelHandler T) :
  level_step h h' → size_inv h → size_inv h'.
Proof.
  destruct 1 as [h tables|h old new h' Hr|h del h' Hr|h table stall b h' Hr]; intros Hinv.
  - apply init_size_inv.
  - unfold replace_tables in Hr. apply bind_Ok in Hr as (n & _ & [= <-]). apply init_size_inv.
  - unfold delete_tables in Hr. apply bind_Ok in Hr as (n & _ & Hr).
    apply bind_Ok in Hr as (ts & Hts & Hr). apply bind_Ok in Hr as (sub & _ & Hr). apply bind_Ok in Hr as (st & _ & [= <-]).
    unfold size_inv in *. cbn [hd_inner ht_total_size ht_tables].
    unfold usub in Hts. destruct (_ <=? _) eqn:E; [|done]. injection Hts as <-. bool_to_prop.
    rewrite Hinv, (sizes_filter (λ t, table_id t ∈ ids del)). lia.
  - unfold push_level0 in Hr. apply bind_Ok in Hr as (n & _ & Hr). revert Hr. case_if.
    + by intros [= _ <-].
    + intros [= _ <-]. unfold size_inv in *. cbn [hd_inner ht_total_size ht_tables].
      rewrite Hinv, sizes_app. unfold sizes. cbn. lia.
Qed.

Lemma level_steps_size {T} `{!LevelTable T} (h h' : LevelHandler T) :
  rtc level_step h h' → size_inv h → size_inv h'.
Proof. induction 1; eauto using level_step_size. Qed.

(** The running sum overflows exactly when the whole sum does. *)
Lemma stale_sizes_sum {T} `{!LevelTable T} (l : list T) :
  (∀ t, t ∈ l → 0 <= stale_data_size t)%Z →
  stale_sizes l = if (sum_of stale_data_size l <=? U32_MAX)%Z then Ok (sum_of stale_data_size l) else Panic.
Proof.
  unfold stale_sizes. induction l as [|t l IH] using rev_ind; intros Hnn; [done|].
  rewrite foldl_app. cbn [foldl]. rewrite sum_of_app. cbn [sum_of].
  assert (0 <= stale_data_size t)%Z by (apply Hnn; set_solver). rewrite IH by set_solver.
  destruct (Z.leb_spec (sum_of stale_data_size l) U32_MAX) as [Hl|Hl]; cbn [mbind outcome_bind].
  - unfold u32_add. by rewrite Z.add_0_r.
  - by rewrite (proj2 (Z.leb_gt _ _)) by lia.
Qed.

(* ------------------------------------------------------------------ *)
(** ** Theorems *)

Section LevelTheorems.
Context {T : Type} `{!LevelTable T}.

(** C18: Replacing tables below level 0: when the tables that stay and the new
    ones have disjoint key ranges, the level holds exactly these tables, ordered
    so that each ends before the next begins, its size is theirs, and it passes
    its own validation; and validation accepts only such an order. *)
Theorem level_replace_ordered (h : LevelHandler T) old new :
  hd_level h ≠ LEVEL0 → size (ids old) <= length (ht_tables (hd_inner h)) →
  let live := base.filter (λ t, table_id t ∉ ids old) (ht_tables (hd_inner h)) ++ new in
  Forall table_wf live → ForallOrdPairs disjoint_tables live →
  ∃ h', replace_tables h old new = Ok h' ∧ ht_tables (hd_inner h') ≡ₚ live ∧
    ordered (ht_tables (hd_inner h')) ∧ ht_total_size (hd_inner h') = sizes live ∧
    LevelHandler_validate h' = Ok () ∧
    ∀ (t : T) l, table_wf t → LevelHandler_validate (mkLevelHandler (hd_level h) (mkTables (t :: l) 0 0%Z)) = Ok () →
      ordered (t :: l).
Proof.
  intros Hlv Hsz live Hw Hd. unfold replace_tables. rewrite usub_Ok by done. cbn [mbind outcome_bind].
  fold live. pose proof (tables_init_ordered (hd_level h) live Hlv Hw Hd) as Ho.
  eexists. split_and!; [done|apply tables_init_perm|done|done| |].
  - unfold LevelHandler_validate. cbn [hd_level hd_inner]. case_if; [done|]. by apply ordered_validate.
  - intros t l Ht. unfold LevelHandler_validate. cbn [hd_level hd_inner ht_tables]. case_if; [done|].
    by apply validate_loop_ok.
Qed.

(** Accounting: after any sequence of operations on a level its recorded
    size is the size of its tables, so deleting tables never underflows it; the
    recorded stale size has no such relation, and deleting tables panics exactly
    when they hold more stale bytes than are recorded (a sum beyond 32 bits
    included). *)
Theorem level_accounting level (h : LevelHandler T) del :
  rtc level_step (LevelHandler_new level) h →
  size (ids del) <= length (ht_tables (hd_inner h)) →
  (∀ t, t ∈ ht_tables (hd_inner h) → 0 <= stale_data_size t)%Z → (ht_total_stale_size (hd_inner h) <= U32_MAX)%Z →
  size_inv h ∧
  let gone := base.filter (λ t, table_id t ∈ ids del) (ht_tables (hd_inner h)) in
  (delete_tables h del = Panic ↔ (ht_total_stale_size (hd_inner h) < sum_of stale_data_size gone)%Z) ∧
  (∀ e, delete_tables h del ≠ Err e).
Proof.
  intros Hr Hsz Hnn Hst. assert (size_inv h) as Hinv.
  { by eapply level_steps_size. }
  split; [done|]. intros gone. unfold delete_tables. rewrite (usub_Ok _ _ Hsz).
  cbn [mbind outcome_bind]. fold gone. rewrite usub_Ok.
  2:{ rewrite Hinv, (sizes_filter (λ t, table_id t ∈ ids del) (ht_tables _)). unfold gone. lia. }
  cbn [mbind outcome_bind]. rewrite stale_sizes_sum by (intros t [_ Ht]%list_elem_of_filter; by apply Hnn).
  destruct (Z.leb_spec (sum_of stale_data_size gone) U32_MAX); cbn [mbind outcome_bind]; [|split; [split; [lia|done]|done]].
  unfold u32_sub. case_if; cbn [mbind outcome_bind]; split_and!; try done; split; try done; lia.
Qed.

Context `{!TableLookup T}.

(** Reading level 0: the newest of the versions found in the tables whose
    filter passes is returned, except that it is dropped when its meta flags are
    all clear. *)
Theorem level0_get_newest (h : LevelHandler T) key_ts pass look :
  hd_level h = LEVEL0 →
  (∀ t, t ∈ ht_tables (hd_inner h) → may_contain t key_ts = Ok (pass t)) →
  (∀ t, t ∈ ht_tables (hd_inner h) → table_lookup t key_ts = Ok (look t)) →
  ∃ n, is_newest (omap look (base.filter (λ t, pass t = true) (rev (ht_tables (hd_inner h))))) n ∧
    LevelHandler_get h key_ts =
      Ok (match n with
          | Some (ts, v) => if Meta_is_empty (vm_meta v) then None else Some (ts, v)
          | None => None
          end).
Proof.
  intros Hlv Hpass Hlook. unfold LevelHandler_get, get_table_for_key. rewrite Hlv, Z.eqb_refl.
  cbn [mbind outcome_bind]. rewrite (candidates_filter key_ts pass).
  2:{ intros t Ht. apply Hpass, list_elem_of_In, in_rev. by apply list_elem_of_In. }
  cbn [mbind outcome_bind].
  set (cands := base.filter (λ t, pass t = true) (rev (ht_tables (hd_inner h)))).
  destruct (newest_fold key_ts look cands [] (0%Z, None)) as ([ts v] & -> & Hb).
  - intros t [_ Ht]%list_elem_of_filter. apply Hlook, list_elem_of_In, in_rev. by apply list_elem_of_In.
  - split; [set_solver|done].
  - cbn [mbind outcome_bind]. pose proof (best_is_newest _ _ Hb) as Hn. cbn [fst snd app] in Hn.
    eexists. split; [exact Hn|]. destruct v as [v|]; [|done]. by case_if.
Qed.

(** Reading below level 0: as soon as the read reaches such a level in which
    no table's biggest key is exactly the sought key and timestamp (an empty one,
    for instance), it panics, whatever the levels above found. *)
Theorem levels_get_panics (pre post : list (LevelHandler T)) h key_ts :
  hd_level h ≠ LEVEL0 → (∀ t, t ∈ ht_tables (hd_inner h) → biggest t ≠ key_ts) →
  (∀ h', h' ∈ pre → ∃ r, LevelHandler_get h' key_ts = Ok r ∧ ∀ f, r = Some f → f.1 ≠ kt_ts key_ts) →
  levels_get (pre ++ h :: post) key_ts 0 = Panic.
Proof.
  intros Hlv Hno Hpre. unfold levels_get. rewrite slice_from_Ok by lia. cbn [mbind outcome_bind]. rewrite drop_0.
  destruct (levels_get_loop_app pre (h :: post) key_ts (0%Z, None) Hpre) as (best & ->).
  cbn [levels_get_loop]. unfold LevelHandler_get. by rewrite get_table_missing.
Qed.

End LevelTheorems.

(** ** Witnesses *)

Module LevelExamples.

(** A table as its metadata and its entries, newest version first. *)
Record MetaTable : Type := mkMetaTable {
  mt_id : Z;
  mt_size : nat;
  mt_stale : Z;
  mt_smallest : KeyTs;
  mt_biggest : KeyTs;
  mt_entries : list (KeyTs * ValueMeta)
}.

#[export] Instance MetaTable_level : LevelTable MetaTable := {|
  table_id := mt_id;
  table_size := mt_size;
  stale_data_size := mt_stale;
  smallest := mt_smallest;
  biggest := mt_biggest;
  max_version t := foldr Z.max 0%Z ((λ e : KeyTs * ValueMeta, kt_ts e.1) <$> mt_entries t)
|}.

#[export] Instance MetaTable_lookup : TableLookup MetaTable := {|
  may_contain _ _ := Ok true;
  table_lookup t k :=
    Ok (match base.filter (λ e : KeyTs * ValueMeta, kt_key e.1 = kt_key k ∧ (kt_ts e.1 <= kt_ts k)%Z)
              (mt_entries t) with
        | e :: _ => Some (kt_ts e.1, e.2)
        | [] => None
        end)
|}.

Definition k (b ts : Z) : KeyTs := mkKeyTs [b] ts.
Definition ta : MetaTable := mkMetaTable 1 10 5 (k 97 3) (k 99 1) [(k 97 3, mkValueMeta [7]%Z 0 0 64)].
Definition tb : MetaTable := mkMetaTable 2 20 0 (k 100 3) (k 101 1) [].
Definition tc : MetaTable := mkMetaTable 3 30 0 (k 95 3) (k 96 1) [].

Definition level1 : LevelHandler MetaTable := init_tables (LevelHandler_new 1) [ta; tb].
Definition replaced : LevelHandler MetaTable :=
  match replace_tables level1 [tb] [tc] with Ok h => h | _ => level1 end.

Lemma level_replace_witness : ht_tables (hd_inner replaced) = [tc; ta] ∧ ordered (ht_tables (hd_inner replaced)).
Proof.
  destruct (level_replace_ordered level1 [tb] [tc]) as (h' & Hr & _ & Ho & _).
  - vm_compute. congruence.
  - vm_compute. lia.
  - repeat (apply Forall_cons; split; [vm_compute; congruence|]). apply Forall_nil. exact I.
  - constructor; [|constructor; [constructor|constructor]].
    apply Forall_cons. split; [right; vm_compute; reflexivity|apply Forall_nil; exact I].
  - split; [vm_compute; reflexivity|]. unfold replaced. rewrite Hr. exact Ho.
Defined.

(** The stale size of the first table is forgotten, and deleting it panics. *)
Lemma level_accounting_witness : delete_tables level1 [ta] = Panic.
Proof.
  destruct (level_accounting 1 level1 [ta]) as (_ & [_ Hp] & _).
  - eapply rtc_l; [apply (step_init (LevelHandler_new 1) [ta; tb])|apply rtc_refl].
  - vm_compute. lia.
  - intros t Ht. apply list_elem_of_In in Ht. vm_compute in Ht. destruct Ht as [<-|[<-|[]]]; vm_compute; congruence.
  - vm_compute. congruence.
  - apply Hp. vm_compute. reflexivity.
Defined.

Definition level0 : LevelHandler MetaTable := init_tables (LevelHandler_new 0) [ta; tb].

Lemma level0_get_witness :
  ∃ n, is_newest [(3%Z, mkValueMeta [7]%Z 0 0 64)] n ∧
    LevelHandler_get level0 (k 97 9) =
      Ok (match n with
          | Some (ts, v) => if Meta_is_empty (vm_meta v) then None else Some (ts, v)
          | None => None
          end).
Proof.
  destruct (level0_get_newest level0 (k 97 9) (λ _, true)
    (λ t, match base.filter (λ e : KeyTs * ValueMeta, kt_key e.1 = kt_key (k 97 9) ∧ (kt_ts e.1 <= kt_ts (k 97 9))%Z)
              (mt_entries t) with
        | e :: _ => Some (kt_ts e.1, e.2)
        | [] => None
        end)) as (n & Hn & Hg).
  - reflexivity.
  - intros t _. reflexivity.
  - intros t _. reflexivity.
  - exists n. split; [|exact Hg]. vm_compute in Hn |- *. exact Hn.
Defined.

(** A database with an empty level 1. *)
Lemma levels_get_panics_witness :
  levels_get [level0; (LevelHandler_new 1 : LevelHandler MetaTable)] (k 97 9) 0 = Panic.
Proof.
  apply (levels_get_panics [level0] []).
  - vm_compute. congruence.
  - intros t Ht. apply not_elem_of_nil in Ht as [].
  - intros h' Hh'. apply list_elem_of_singleton in Hh' as ->. eexists. split; [vm_compute; reflexivity|].
    intros f [= <-]. vm_compute. congruence.
Defined.

End LevelExamples.
