(* ===== verification/KeySearch.v ===== *)
(** * KeySearch: keys as bytes, and the search of a level written out

    [compare_key], [parse_key] and [key_with_ts] (src/src/util/mod.rs), which keep
    the version of a key inverted, as [u64::MAX - ts], where [KeyTs::serialize]
    keeps it as it is; [binary_search_biggest] and [LevelHandler::sync_mmap]
    (src/src/level/level_handler.rs). *)
From stdpp Require Import base list.
From Stdlib Require Import ZArith Lia.
From S2P Require Import Prelude Util Kv Level.

Local Open Scope nat_scope.

(** ** Keys as bytes *)

(** [a.len() - 8] underflows on short keys. *)
Definition compare_key (a b : list Z) : outcome comparison :=
  a_split ← usub (length a) 8;
  b_split ← usub (length b) 8;
  match bytes_cmp (take a_split a) (take b_split b) with
  | Lt => Ok Lt
  | Gt => Ok Gt
  | Eq => Ok (bytes_cmp (drop a_split a) (drop b_split b))
  end.

Definition parse_key (key : KeyTs) : option (list Z) := Some (kt_key key).

(** The subtraction [u64::MAX - ts] of two [u64] does not underflow. *)
Definition key_with_ts (key : option (list Z)) (ts : Z) : list Z :=
  match key with
  | Some s => s ++ put_u64 (U64_MAX - ts)
  | None => put_u64 (U64_MAX - ts)
  end.

(** ** A level's tables *)

Section SearchCode.
Context {T : Type} `{!LevelTable T}.

(** The loop, with its three variables; [get_unchecked] outside the tables is
    undefined, here a panic. *)
Fixpoint binary_search_biggest_loop (fuel : nat) (tables : list T) (value : KeyTs)
    (size left right : nat) : outcome search_result :=
  match fuel with
  | O => Ok (NotFound left)
  | S fuel' =>
      if left <? right then
        let mid := left + size / 2 in
        t ← idx tables mid;
        match KeyTs_cmp (biggest t) value with
        | Lt => let left := mid + 1 in
                size ← usub right left;
                binary_search_biggest_loop fuel' tables value size left right
        | Gt => let right := mid in
                size ← usub right left;
                binary_search_biggest_loop fuel' tables value size left right
        | Eq => Ok (Found mid)
        end
      else Ok (NotFound left)
  end.

(** The interval shrinks at each turn, so as many turns as tables are enough. *)
Definition binary_search_biggest (tables : list T) (value : list Z) : outcome search_result :=
  let value := KeyTs_from value in
  let size := length tables in
  binary_search_biggest_loop size tables value size 0 size.

(** [sync_mmap] of a table, and of a level: every table is synchronised, the first
    error is kept. *)
Context {D : Type} (table_sync : T → D → outcome unit * D).

Definition sync_step (acc : option error * D) (table : T) : outcome (option error * D) :=
  let '(err, disk) := acc in
  match table_sync table disk with
  | (Ok _, disk) => Ok (err, disk)
  | (Err e, disk) => Ok (match err with None => Some e | Some _ => err end, disk)
  | (Panic, _) => Panic
  end.

Definition sync_mmap (h : LevelHandler T) (disk : D) : outcome (outcome unit * D) :=
  '(err, disk) ← fold_outcome sync_step (None, disk) (ht_tables (hd_inner h));
  Ok (match err with Some e => Err e | None => Ok () end, disk).

End SearchCode.

(* ------------------------------------------------------------------ *)
(** ** Theorems *)

Lemma key_with_ts_split s ts :
  usub (length (key_with_ts (Some s) ts)) 8 = Ok (length s) ∧
  take (length s) (key_with_ts (Some s) ts) = s ∧
  drop (length s) (key_with_ts (Some s) ts) = put_u64 (U64_MAX - ts).
Proof.
  cbn [key_with_ts]. rewrite length_app, length_put_u64, take_app_length, drop_app_length.
  rewrite usub_Ok by lia. split_and!; [f_equal; lia|done..].
Qed.

(** Keys made by [key_with_ts] compare, with [compare_key], as keys with versions
    do: by the user key, then the newest version first. *)
Theorem compare_key_refines a b :
  in_width 64 (kt_ts a) → in_width 64 (kt_ts b) →
  compare_key (key_with_ts (parse_key a) (kt_ts a)) (key_with_ts (parse_key b) (kt_ts b)) = Ok (KeyTs_cmp a b).
Proof.
  intros Ha Hb. unfold compare_key, parse_key.
  destruct (key_with_ts_split (kt_key a) (kt_ts a)) as (-> & E1 & E2).
  destruct (key_with_ts_split (kt_key b) (kt_ts b)) as (-> & E3 & E4).
  cbn [mbind outcome_bind]. rewrite E1, E2, E3, E4. unfold KeyTs_cmp.
  destruct (bytes_cmp (kt_key a) (kt_key b)); cbn [then_cmp]; [|done..].
  f_equal. unfold put_u64, in_width, U64_MAX in *.
  rewrite (bytes_cmp_be_encode 8) by (unfold in_width; lia).
  destruct (Z.compare_spec (kt_ts b) (kt_ts a));
    [apply Z.compare_eq_iff|apply Z.compare_lt_iff|apply Z.compare_gt_iff]; lia.
Qed.

(** On keys serialised by [KeyTs::serialize] the same comparison puts the oldest
    version first, the reverse of the order of keys. *)
Lemma compare_key_serialized k ts ts' :
  in_width 64 ts → in_width 64 ts' →
  compare_key (KeyTs_serialize (mkKeyTs k ts)) (KeyTs_serialize (mkKeyTs k ts')) =
  Ok (KeyTs_cmp (mkKeyTs k ts') (mkKeyTs k ts)).
Proof.
  intros H1 H2. unfold compare_key.
  rewrite !usub_Ok by (rewrite length_KeyTs_serialize; unfold KeyTs_len; lia). cbn [mbind outcome_bind].
  destruct (KeyTs_serialize_split (mkKeyTs k ts)) as [-> ->], (KeyTs_serialize_split (mkKeyTs k ts')) as [-> ->].
  unfold KeyTs_cmp. cbn [kt_key kt_ts]. rewrite bytes_cmp_refl. cbn [then_cmp].
  unfold put_u64. by rewrite (bytes_cmp_be_encode 8).
Qed.

Section SearchProofs.
Context {T : Type} `{!LevelTable T}.

Lemma midpoint left right : left < right → left + (right - left) / 2 = (left + right) / 2.
Proof.
  intros H. replace (left + right) with (left * 2 + (right - left)) by lia.
  by rewrite Nat.div_add_l by lia.
Qed.

Lemma biggest_loop_eq (tables : list T) value fuel left right :
  left ≤ right → right ≤ length tables →
  binary_search_biggest_loop fuel tables value (right - left) left right =
  search_loop fuel (λ i, t ← idx tables i; Ok (KeyTs_cmp (biggest t) value)) left right.
Proof.
  revert left right. induction fuel as [|fuel IH]; intros left right Hlr Hr; [done|].
  cbn [binary_search_biggest_loop search_loop]. destruct (left <? right) eqn:E; [|done]. bool_to_prop.
  rewrite midpoint by done.
  assert (left ≤ (left + right) / 2 < right) as [Hm1 Hm2].
  { split; [apply Nat.div_le_lower_bound|apply Nat.Div0.div_lt_upper_bound]; lia. }
  destruct (idx tables ((left + right) / 2)) as [t|e|]; cbn [mbind outcome_bind]; [|done..].
  destruct (KeyTs_cmp (biggest t) value); [done|..]; rewrite usub_Ok by lia; cbn [mbind outcome_bind]; apply IH; lia.
Qed.

(** The search written out is the standard library's, on any list of tables. *)
Theorem binary_search_biggest_eq (tables : list T) value :
  binary_search_biggest tables value =
  binary_search_by tables (λ t, Ok (KeyTs_cmp (biggest t) (KeyTs_from value))).
Proof.
  unfold binary_search_biggest, binary_search_by, search.
  rewrite <- (Nat.sub_0_r (length tables)) at 2. by apply biggest_loop_eq; [lia|].
Qed.

Context {D : Type} (table_sync : T → D → outcome unit * D).
Context (no_panic : ∀ t d, (table_sync t d).1 ≠ Panic).

(** The disk after synchronising tables in order, and the results. *)
Fixpoint sync_all (tables : list T) (disk : D) : list (outcome unit) * D :=
  match tables with
  | [] => ([], disk)
  | t :: tables' =>
      let '(r, disk') := table_sync t disk in
      let '(rs, disk'') := sync_all tables' disk' in (r :: rs, disk'')
  end.

Fixpoint first_error (rs : list (outcome unit)) : outcome unit :=
  match rs with
  | [] => Ok ()
  | Ok _ :: rs' => first_error rs'
  | r :: _ => r
  end.

Lemma sync_fold tables err disk :
  ∃ err', fold_outcome (sync_step table_sync) (err, disk) tables = Ok (err', (sync_all tables disk).2) ∧
    match err with
    | Some _ => err' = err
    | None => match err' with Some e => first_error (sync_all tables disk).1 = Err e
                            | None => first_error (sync_all tables disk).1 = Ok () end
    end.
Proof.
  revert err disk. induction tables as [|t tables IH]; intros err disk.
  { exists err. by destruct err. }
  cbn [fold_outcome sync_all]. unfold sync_step at 2. pose proof (no_panic t disk) as Hn.
  destruct (table_sync t disk) as [[[]|e|] disk']; [..|done];
    destruct (sync_all tables disk') as [rs disk''] eqn:Ea.
  - destruct (IH err disk') as (err' & E & H). rewrite Ea in E, H. by exists err'.
  - destruct (IH (match err with None => Some e | Some _ => err end) disk') as (err' & E & H). rewrite Ea in E, H.
    exists err'. split; [done|]. destruct err; [done|]. by subst err'.
Qed.

(** Synchronising a level synchronises every table, also after one failed, and
    answers with the first error. *)
Theorem sync_mmap_all (h : LevelHandler T) disk :
  sync_mmap table_sync h disk =
  Ok (first_error (sync_all (ht_tables (hd_inner h)) disk).1, (sync_all (ht_tables (hd_inner h)) disk).2).
Proof.
  unfold sync_mmap. destruct (sync_fold (ht_tables (hd_inner h)) None disk) as (err' & -> & H).
  cbn [mbind outcome_bind]. by destruct err' as [e|]; rewrite H.
Qed.

End SearchProofs.
