(* ===== verification/Compact.v ===== *)
(** * Compact: key ranges, the compaction status and compaction plans

    [KeyTsRange], [CompactStatus], [overlap_tables] and [level_targets] of
    src/src/level/compaction.rs, [check_overlap] of src/src/level/compact.rs
    and [CompactPlan] of src/src/level/plan.rs, over the levels of [Level].

    Tables with equal sort keys come in their old order, one of the orders
    [sort_unstable_by] may give.  Sizes in bytes are not bounded. *)
From stdpp Require Import base list list_numbers gmap strings sets.
From Stdlib Require Import ZArith Lia Sorted.
From S2P Require Import Prelude Float64 Util VarInt Kv Pb Storage Iter Block Table WaterMark Oracle Txn Level.

Local Open Scope nat_scope.

(** ** KeyTsRange *)

Record KeyTsRange : Type := mkRange {
  kr_left : KeyTs;
  kr_right : KeyTs;
  kr_inf : bool
}.

Definition KeyTsRange_default : KeyTsRange := mkRange KeyTs_default KeyTs_default false.
Definition inf_default : KeyTsRange := mkRange KeyTs_default KeyTs_default true.

Definition range_is_empty (r : KeyTsRange) : bool :=
  KeyTs_is_empty (kr_left r) && KeyTs_is_empty (kr_right r) && negb (kr_inf r).

(** [a < b] of the [Ord] of [KeyTs] *)
Definition key_lt (a b : KeyTs) : bool := match KeyTs_cmp a b with Lt => true | _ => false end.

Definition is_overlaps_with (self target : KeyTsRange) : bool :=
  if range_is_empty self then true
  else if range_is_empty target then false
  else if kr_inf self || kr_inf target then true
  else if key_lt (kr_right target) (kr_left self) || key_lt (kr_right self) (kr_left target) then false
  else true.

Definition range_extend (self other : KeyTsRange) : KeyTsRange :=
  if range_is_empty other then self
  else if range_is_empty self then other
  else
    mkRange
      (if KeyTs_is_empty (kr_left self) || key_lt (kr_left other) (kr_left self)
       then kr_left other else kr_left self)
      (if KeyTs_is_empty (kr_right self) || key_lt (kr_right self) (kr_right other)
       then kr_right other else kr_right self)
      (if kr_inf other then true else kr_inf self).

(** [Ord::min] and [Ord::max] *)
Definition key_min (a b : KeyTs) : KeyTs := match KeyTs_cmp a b with Gt => b | _ => a end.
Definition key_max (a b : KeyTs) : KeyTs := match KeyTs_cmp a b with Gt => a | _ => b end.

Section Ranges.
Context {T : Type} `{!LevelTable T}.

Definition range_of_table (t : T) : KeyTsRange :=
  mkRange (mkKeyTs (kt_key (smallest t)) U64_MAX) (mkKeyTs (kt_key (biggest t)) 0) false.

Definition range_of_tables (l : list T) : KeyTsRange :=
  match l with
  | [] => KeyTsRange_default
  | t :: rest =>
      let lo := foldl (λ acc x, key_min acc (smallest x)) (smallest t) rest in
      let hi := foldl (λ acc x, key_max acc (biggest x)) (biggest t) rest in
      mkRange (mkKeyTs (kt_key lo) U64_MAX) (mkKeyTs (kt_key hi) 0) false
  end.

(** The half-open interval of indices of the tables that meet a range. *)
Definition overlap_tables (tables : list T) (range : KeyTsRange) : outcome (nat * nat) :=
  if KeyTs_is_empty (kr_left range) || KeyTs_is_empty (kr_right range) then Ok (0, 0)
  else
    l ← binary_search_by tables (λ t, Ok (KeyTs_cmp (biggest t) (kr_left range)));
    let left_index := match l with Found i => i | NotFound i => i end in
    r ← binary_search_by tables (λ t, Ok (KeyTs_cmp (smallest t) (kr_right range)));
    let right_index := match r with Found i => i + 1 | NotFound i => i end in
    Ok (left_index, right_index).

End Ranges.

(** ** CompactStatus *)

Record LevelCompactStatus : Type := mkLevelStatus {
  ls_ranges : list KeyTsRange;
  ls_del_size : Z
}.

Record CompactStatus : Type := mkStatus {
  st_levels : list LevelCompactStatus;
  st_tables : gset Z
}.

(** The status [LevelsControllerConfig::build] starts with. *)
Definition CompactStatus_new (max_levels : nat) : CompactStatus :=
  mkStatus (replicate max_levels (mkLevelStatus [] 0)) ∅.

Definition level_overlaps (s : LevelCompactStatus) (target : KeyTsRange) : bool :=
  existsb (λ r, is_overlaps_with r target) (ls_ranges s).

Definition status_overlaps (st : CompactStatus) (level : Z) (target : KeyTsRange) : outcome bool :=
  s ← idx (st_levels st) (Z.to_nat level);
  Ok (level_overlaps s target).

Definition push_range (s : LevelCompactStatus) (r : KeyTsRange) : LevelCompactStatus :=
  mkLevelStatus (ls_ranges s ++ [r]) (ls_del_size s).

(** [CompactStatusInner::push] *)
Definition status_push (st : CompactStatus) (level : Z) (r : KeyTsRange) : outcome CompactStatus :=
  s ← idx (st_levels st) (Z.to_nat level);
  Ok (mkStatus (<[Z.to_nat level := push_range s r]> (st_levels st)) (st_tables st)).

(** ** CompactTargets and level_targets *)

Record CompactTargets : Type := mkTargets {
  tg_base_level : nat;
  tg_target_size : list nat;
  tg_file_size : list Z
}.

Record LevelsConfig : Type := mkLevelsConfig {
  lc_max_level : Z;
  lc_base_level_size : nat;
  lc_level_size_multiplier : nat;
  lc_table_size_multiplier : Z;
  lc_memtable_size : Z;
  lc_table_size : Z
}.

Definition udiv (a b : nat) : outcome nat := if b =? 0 then Panic else Ok (a / b).

(** The loop [for i in (1..levels_len).rev()]: from [i] down to 1. *)
Fixpoint target_loop (cfg : LevelsConfig) (i : nat) (level_size : nat) (base : nat) (target : list nat) :
    outcome (nat * list nat) :=
  match i with
  | 0 => Ok (base, target)
  | S j =>
      let target := <[i := Nat.max level_size (lc_base_level_size cfg)]> target in
      let base := if (base =? 0) && (level_size <=? lc_base_level_size cfg) then i else base in
      level_size ← udiv level_size (lc_level_size_multiplier cfg);
      target_loop cfg j level_size base target
  end.

(** The loop over the file sizes, with [i] the next index and [n] turns left. *)
Fixpoint file_loop (cfg : LevelsConfig) (n i base : nat) (table_size : Z) : list Z :=
  match n with
  | 0 => []
  | S n' =>
      if i =? 0 then lc_memtable_size cfg :: file_loop cfg n' (S i) base table_size
      else if i <=? base then table_size :: file_loop cfg n' (S i) base table_size
      else
        let table_size := (table_size * lc_table_size_multiplier cfg)%Z in
        table_size :: file_loop cfg n' (S i) base table_size
  end.

(** The loop [for level in base_level..levels_bound]. *)
Fixpoint skip_empty (sizes : list nat) (level base : nat) : nat :=
  match sizes with
  | [] => base
  | s :: rest => if 0 <? s then base else skip_empty rest (S level) level
  end.

(** [level_targets], from the total sizes of the levels. *)
Definition level_targets (cfg : LevelsConfig) (sizes : list nat) : outcome CompactTargets :=
  let levels_len := length sizes in
  _ ← assert_or_panic (levels_len <? 255);
  last_size ← unwrap (last sizes);
  '(base, target) ← target_loop cfg (levels_len - 1) last_size 0 (replicate levels_len 0);
  let file := file_loop cfg levels_len 0 base (lc_table_size cfg) in
  let base := skip_empty (drop base sizes) base base in
  base ← (if base <? levels_len - 1 then
            s ← idx sizes base;
            if s =? 0 then
              s' ← idx sizes (base + 1);
              t' ← idx target (base + 1);
              Ok (if s' <? t' then base + 1 else base)
            else Ok base
          else Ok base);
  Ok (mkTargets base target file).

(** ** CompactPlan *)

Record CompactPriority : Type := mkPriority {
  cp_level : Z;
  cp_score : f64;
  cp_adjusted : f64;
  cp_drop_prefixes : list (list Z);
  cp_targets : CompactTargets
}.

(** When a table file was created, in nanoseconds. *)
Class TableAge (T : Type) : Type := created_at : T → Z.
#[export] Hint Mode TableAge ! : typeclass_instances.

Record CompactPlan (T : Type) : Type := mkPlan {
  pl_compact_task_id : nat;
  pl_priority : CompactPriority;
  pl_this_level : LevelHandler T;
  pl_next_level : LevelHandler T;
  pl_top : list T;
  pl_this_range : KeyTsRange;
  pl_bottom : list T;
  pl_next_range : KeyTsRange;
  pl_this_size : nat;
  pl_splits : list KeyTsRange
}.

Arguments mkPlan {T}.
Arguments pl_compact_task_id {T}.
Arguments pl_priority {T}.
Arguments pl_this_level {T}.
Arguments pl_next_level {T}.
Arguments pl_top {T}.
Arguments pl_this_range {T}.
Arguments pl_bottom {T}.
Arguments pl_next_range {T}.
Arguments pl_this_size {T}.
Arguments pl_splits {T}.

Section PlanCode.
Context {T : Type} `{!LevelTable T, !TableAge T}.

Definition CompactPlan_new (task : nat) (priority : CompactPriority) (this next : LevelHandler T) :
    CompactPlan T :=
  mkPlan task priority this next [] KeyTsRange_default [] KeyTsRange_default 0 [].

(** The plan with new tables and ranges. *)
Definition with_tables (p : CompactPlan T) (top : list T) (this_range : KeyTsRange) (bottom : list T)
    (next_range : KeyTsRange) (this_size : nat) : CompactPlan T :=
  mkPlan (pl_compact_task_id p) (pl_priority p) (pl_this_level p) (pl_next_level p) top this_range
    bottom next_range this_size (pl_splits p).

Definition with_next_level (p : CompactPlan T) (next : LevelHandler T) : CompactPlan T :=
  mkPlan (pl_compact_task_id p) (pl_priority p) (pl_this_level p) next (pl_top p) (pl_this_range p)
    (pl_bottom p) (pl_next_range p) (pl_this_size p) (pl_splits p).

Definition plan_tables (p : CompactPlan T) : list T := ht_tables (hd_inner (pl_this_level p)).
Definition plan_next_tables (p : CompactPlan T) : list T := ht_tables (hd_inner (pl_next_level p)).

(** [CompactStatusInner::try_update] *)
Definition try_update (st : CompactStatus) (p : CompactPlan T) : outcome (bool * CompactStatus) :=
  let this_level := Z.to_nat (hd_level (pl_this_level p)) in
  let next_level := Z.to_nat (hd_level (pl_next_level p)) in
  _ ← assert_or_panic (this_level <? length (st_levels st));
  s ← idx (st_levels st) this_level;
  if level_overlaps s (pl_this_range p) then Ok (false, st)
  else
    n ← idx (st_levels st) next_level;
    if level_overlaps n (pl_next_range p) then Ok (false, st)
    else
      let levels := <[this_level := push_range s (pl_this_range p)]> (st_levels st) in
      n ← idx levels next_level;
      let levels := <[next_level := push_range n (pl_next_range p)]> levels in
      Ok (true, mkStatus levels (ids (pl_bottom p) ∪ (ids (pl_top p) ∪ st_tables st))).

(** [tables[range]] *)
Definition tables_in (tables : list T) (range : nat * nat) : outcome (list T) :=
  slice tables (fst range) (snd range).

Definition plan_result : Type := bool * CompactPlan T * CompactStatus.

Definition updated (r : bool * CompactStatus) (p : CompactPlan T) : plan_result := (fst r, p, snd r).

(** The loop of [fill_tables] over the tables of a level, oldest version first. *)
Fixpoint fill_loop (tables : list T) (p : CompactPlan T) (st : CompactStatus) : outcome plan_result :=
  match tables with
  | [] => Ok (false, p, st)
  | table :: rest =>
      let this_range := range_of_table table in
      let p := with_tables p (pl_top p) this_range (pl_bottom p) (pl_next_range p) (table_size table) in
      o ← status_overlaps st (hd_level (pl_this_level p)) this_range;
      if (o : bool) then fill_loop rest p st
      else
        r ← overlap_tables (plan_next_tables p) this_range;
        bottom ← tables_in (plan_next_tables p) r;
        if length bottom =? 0 then
          let p := with_tables p [table] this_range bottom this_range (table_size table) in
          '(b, st) ← try_update st p;
          if (b : bool) then Ok (true, p, st) else fill_loop rest p st
        else
          let p := with_tables p [table] this_range bottom (range_of_tables bottom) (table_size table) in
          o ← status_overlaps st (hd_level (pl_next_level p)) (pl_next_range p);
          if (o : bool) then fill_loop rest p st
          else
            '(b, st) ← try_update st p;
            if (b : bool) then Ok (true, p, st) else fill_loop rest p st
  end.

Definition SECOND : Z := 1000000000.

(** Whether a table has reached an age; a creation time in the future panics. *)
Definition older_than (now age : Z) (strict : bool) (t : T) : outcome bool :=
  if (now <? created_at t)%Z then Panic
  else Ok (if strict then (age <? now - created_at t)%Z else (age <=? now - created_at t)%Z).

(** The tables after the chosen one that fit the file size. *)
Fixpoint collect_bottom (tables : list T) (total_size : nat) (need_file_size : Z) (bottom : list T)
    (next_range : KeyTsRange) : list T * KeyTsRange :=
  match tables with
  | [] => (bottom, next_range)
  | new_table :: rest =>
      let total_size := total_size + table_size new_table in
      if (need_file_size <=? Z.of_nat total_size)%Z then (bottom, next_range)
      else collect_bottom rest total_size need_file_size (bottom ++ [new_table])
             (range_extend next_range (range_of_table new_table))
  end.

(** The loop of [fill_max_level_tables]; [None] when it ends without a decision. *)
Fixpoint fill_max_loop (now discard_ts : Z) (tables : list T) (p : CompactPlan T) (st : CompactStatus) :
    outcome (bool * CompactPlan T * CompactStatus) :=
  match tables with
  | [] => Ok (false, p, st)
  | table :: rest =>
      if negb (max_version table <=? discard_ts)%Z then fill_max_loop now discard_ts rest p st
      else
        old ← older_than now (3600 * SECOND) false table;
        if negb (old && (Z.shiftl 10 20 <=? stale_data_size table)%Z) then
          fill_max_loop now discard_ts rest p st
        else
          let range := range_of_table table in
          let p := with_tables p (pl_top p) range (pl_bottom p) range (table_size table) in
          o ← status_overlaps st (hd_level (pl_this_level p)) range;
          if (o : bool) then fill_max_loop now discard_ts rest p st
          else
            let p := with_tables p [table] range (pl_bottom p) range (table_size table) in
            need_file_size ← idx (tg_file_size (cp_targets (pl_priority p)))
                               (Z.to_nat (hd_level (pl_this_level p)));
            if (need_file_size <=? Z.of_nat (table_size table))%Z then Ok (false, p, st)
            else
              r ← binary_search_by (plan_tables p) (λ a, Ok (KeyTs_cmp (smallest a) (smallest table)));
              let j := match r with Found i => i | NotFound i => i end in
              tj ← idx (plan_tables p) j;
              _ ← assert_or_panic (Z.eqb (table_id tj) (table_id table));
              let '(bottom, next_range) :=
                collect_bottom (drop (j + 1) (plan_tables p)) (table_size table) need_file_size
                  (pl_bottom p) (pl_next_range p) in
              let p := with_tables p [table] range bottom next_range (table_size table) in
              '(b, st) ← try_update st p;
              if (b : bool) then Ok (true, p, st)
              else fill_max_loop now discard_ts rest
                     (with_tables p [table] range [] KeyTsRange_default (table_size table)) st
  end.

Definition fill_max_level_tables (now discard_ts : Z) (p : CompactPlan T) (st : CompactStatus) :
    outcome plan_result :=
  let sorted := sort_by (λ a b, Z.compare (stale_data_size b) (stale_data_size a)) (plan_tables p) in
  match sorted with
  | t :: _ =>
      if Z.eqb (stale_data_size t) 0 then Ok (false, p, st)
      else
        let p := with_tables p (pl_top p) (pl_this_range p) [] (pl_next_range p) (pl_this_size p) in
        '(b, p, st) ← fill_max_loop now discard_ts sorted p st;
        if (b : bool) then Ok (true, p, st)
        else if length (pl_top p) =? 0 then Ok (false, p, st)
        else r ← try_update st p; Ok (updated r p)
  | [] =>
      if length (pl_top p) =? 0 then
        Ok (false, with_tables p (pl_top p) (pl_this_range p) [] (pl_next_range p) (pl_this_size p), st)
      else
        let p := with_tables p (pl_top p) (pl_this_range p) [] (pl_next_range p) (pl_this_size p) in
        r ← try_update st p; Ok (updated r p)
  end.

Definition fill_tables (cfg : LevelsConfig) (now discard_ts : Z) (p : CompactPlan T) (st : CompactStatus) :
    outcome plan_result :=
  if length (plan_tables p) =? 0 then Ok (false, p, st)
  else
    last_level ← u32_sub (lc_max_level cfg) 1;
    if Z.eqb (hd_level (pl_this_level p)) last_level then fill_max_level_tables now discard_ts p st
    else fill_loop (sort_by (λ a b, Z.compare (max_version a) (max_version b)) (plan_tables p)) p st.

(** The leading tables of level 0 whose ranges overlap. *)
Fixpoint overlapping_prefix (tables : list T) (result : KeyTsRange) : list T * KeyTsRange :=
  match tables with
  | [] => ([], result)
  | table :: rest =>
      let target := range_of_table table in
      if is_overlaps_with result target then
        let '(top, r) := overlapping_prefix rest (range_extend result target) in (table :: top, r)
      else ([], result)
  end.

Definition fill_tables_level0_to_levelbase (p : CompactPlan T) (st : CompactStatus) : outcome plan_result :=
  if Z.eqb (hd_level (pl_next_level p)) LEVEL0 then Panic
  else if f64_ltb f64_zero (cp_adjusted (pl_priority p)) && f64_ltb (cp_adjusted (pl_priority p)) f64_one then Ok (false, p, st)
  else if length (plan_tables p) =? 0 then Ok (false, p, st)
  else
    let '(top, this_range) :=
      if 0 <? length (cp_drop_prefixes (pl_priority p))
      then (plan_tables p, range_of_tables (plan_tables p))
      else overlapping_prefix (plan_tables p) KeyTsRange_default in
    r ← overlap_tables (plan_next_tables p) this_range;
    bottom ← tables_in (plan_next_tables p) r;
    let next_range := if length bottom =? 0 then this_range else range_of_tables bottom in
    let p := with_tables p top this_range bottom next_range (pl_this_size p) in
    u ← try_update st p;
    Ok (updated u p).

(** A filter whose test may panic. *)
Fixpoint filter_outcome (f : T → outcome bool) (l : list T) : outcome (list T) :=
  match l with
  | [] => Ok []
  | x :: rest => b ← f x; r ← filter_outcome f rest; Ok (if (b : bool) then x :: r else r)
  end.

Definition small_and_old (now : Z) (file_size : list Z) (st : CompactStatus) (t : T) : outcome bool :=
  limit ← idx file_size 0;
  limit ← (if (2 * limit <=? U64_MAX)%Z then Ok (2 * limit)%Z else Panic);
  if negb (Z.of_nat (table_size t) <? limit)%Z then Ok false
  else
    old ← older_than now (10 * SECOND) true t;
    Ok (old && negb (bool_decide (table_id t ∈ st_tables st))).

Definition fill_tables_level0_to_level0 (now : Z) (level0 : LevelHandler T) (p : CompactPlan T)
    (st : CompactStatus) : outcome plan_result :=
  if negb (pl_compact_task_id p =? 0) then Ok (false, p, st)
  else
    let p := with_next_level p level0 in
    let p := with_tables p (pl_top p) (pl_this_range p) [] KeyTsRange_default (pl_this_size p) in
    _ ← assert_or_panic (Z.eqb (hd_level (pl_this_level p)) LEVEL0);
    _ ← assert_or_panic (Z.eqb (hd_level (pl_next_level p)) LEVEL0);
    out ← filter_outcome (small_and_old now (tg_file_size (cp_targets (pl_priority p))) st) (plan_tables p);
    if length out <? 4 then Ok (false, p, st)
    else
      st ← status_push st (hd_level (pl_this_level p)) inf_default;
      let st := mkStatus (st_levels st) (ids out ∪ st_tables st) in
      let pr := pl_priority p in
      let tg := cp_targets pr in
      let pr := mkPriority (cp_level pr) (cp_score pr) (cp_adjusted pr) (cp_drop_prefixes pr)
                  (mkTargets (tg_base_level tg) (tg_target_size tg) (<[0 := U64_MAX]> (tg_file_size tg))) in
      Ok (true,
          mkPlan (pl_compact_task_id p) pr (pl_this_level p) (pl_next_level p) out inf_default []
            KeyTsRange_default (pl_this_size p) (pl_splits p), st).

Definition fill_tables_level0 (now : Z) (level0 : LevelHandler T) (p : CompactPlan T) (st : CompactStatus) :
    outcome plan_result :=
  '(b, p, st) ← fill_tables_level0_to_levelbase p st;
  if (b : bool) then Ok (true, p, st) else fill_tables_level0_to_level0 now level0 p st.

(** [CompactPlan::fix] *)
Definition plan_fix (cfg : LevelsConfig) (levels : list (LevelHandler T)) (now discard_ts : Z)
    (p : CompactPlan T) (st : CompactStatus) : outcome (CompactPlan T * CompactStatus) :=
  if Z.eqb (cp_level (pl_priority p)) LEVEL0 then
    level0 ← idx levels 0;
    '(b, p, st) ← fill_tables_level0 now level0 p st;
    if (b : bool) then Ok (p, st) else Err (EMsg "Unable to fill tables for Level0")
  else
    last_level ← u32_sub (lc_max_level cfg) 1;
    p ← (if Z.eqb (cp_level (pl_priority p)) last_level then Ok p
         else h ← idx levels (Z.to_nat (cp_level (pl_priority p) + 1)); Ok (with_next_level p h));
    '(b, p, st) ← fill_tables cfg now discard_ts p st;
    if (b : bool) then Ok (p, st) else Err (EMsg "Unable to fill tables except Level0").

(** The loop of [add_splits] from index [i] of [len] bottom tables. *)
Fixpoint split_loop (bottom : list T) (i len width : nat) (skr : KeyTsRange) : list KeyTsRange :=
  match bottom with
  | [] => []
  | t :: rest =>
      if i =? len - 1 then [mkRange (kr_left skr) KeyTs_default (kr_inf skr)]
      else if i mod width =? width - 1 then
        let right := mkKeyTs (kt_key (biggest t)) 0 in
        mkRange (kr_left skr) right (kr_inf skr) ::
          split_loop rest (S i) len width (mkRange right right (kr_inf skr))
      else split_loop rest (S i) len width skr
  end.

(** [(len as f64 / 5.0).ceil()], then at least 3. *)
Definition split_width (len : nat) : nat := Nat.max ((len + 4) / 5) 3.

Definition add_splits (p : CompactPlan T) : CompactPlan T :=
  let width := split_width (length (pl_bottom p)) in
  let skr := range_extend (pl_this_range p) (pl_next_range p) in
  mkPlan (pl_compact_task_id p) (pl_priority p) (pl_this_level p) (pl_next_level p) (pl_top p)
    (pl_this_range p) (pl_bottom p) (pl_next_range p) (pl_this_size p)
    (split_loop (pl_bottom p) 0 (length (pl_bottom p)) width skr).

(** [check_overlap]: whether a level from [target_level] on meets the tables. *)
Fixpoint check_overlap_loop (levels : list (LevelHandler T)) (range : KeyTsRange) : outcome bool :=
  match levels with
  | [] => Ok false
  | h :: rest =>
      '(l, r) ← overlap_tables (ht_tables (hd_inner h)) range;
      if 0 <? r - l then Ok true else check_overlap_loop rest range
  end.

Definition check_overlap (levels : list (LevelHandler T)) (tables : list T) (target_level : nat) :
    outcome bool :=
  rest ← slice_from levels target_level;
  check_overlap_loop rest (range_of_tables tables).

End PlanCode.

(* ------------------------------------------------------------------ *)
(** ** Lemmas: ranges *)

Lemma key_lt_true a b : key_lt a b = true ↔ cmp_lt KeyTs_cmp a b.
Proof. unfold key_lt, cmp_lt. by destruct (KeyTs_cmp a b). Qed.

Lemma key_lt_false a b : key_lt a b = false ↔ cmp_le KeyTs_cmp b a.
Proof.
  unfold key_lt, cmp_le. rewrite (cmp_antisym (cmp := KeyTs_cmp) a b).
  by destruct (KeyTs_cmp a b).
Qed.

Lemma cmp_le_not_lt a b : cmp_le KeyTs_cmp a b ↔ ¬ cmp_lt KeyTs_cmp b a.
Proof. rewrite <- key_lt_false, <- key_lt_true. by destruct (key_lt b a). Qed.

Lemma key_le_refl k : cmp_le KeyTs_cmp k k.
Proof. unfold cmp_le. by rewrite (cmp_refl KeyTs_cmp). Qed.

Lemma key_lt_le a b : cmp_lt KeyTs_cmp a b → cmp_le KeyTs_cmp a b.
Proof. unfold cmp_lt, cmp_le. by intros ->. Qed.

(** The keys of a range. *)
Definition in_range (k : KeyTs) (r : KeyTsRange) : Prop :=
  kr_inf r = true ∨ cmp_le KeyTs_cmp (kr_left r) k ∧ cmp_le KeyTs_cmp k (kr_right r).

(** Not empty, and the left end is not past the right one. *)
Definition range_ok (r : KeyTsRange) : Prop :=
  range_is_empty r = false ∧ (kr_inf r = true ∨ cmp_le KeyTs_cmp (kr_left r) (kr_right r)).

Lemma overlaps_shared a b :
  range_ok a → range_ok b → is_overlaps_with a b = true ↔ ∃ k, in_range k a ∧ in_range k b.
Proof.
  intros [Ea Ha] [Eb Hb]. unfold is_overlaps_with, in_range. rewrite Ea, Eb.
  destruct (kr_inf a) eqn:Ia; cbn [orb].
  { split; [|done]. intros _. destruct Hb as [Hb|Hb]; [exists (kr_left b); auto|].
    exists (kr_left b). split; [by left|right]. split; [apply key_le_refl|done]. }
  destruct Ha as [?|Ha]; [done|].
  destruct (kr_inf b) eqn:Ib.
  { split; [|done]. intros _. exists (kr_left a). split; [right|by left].
    split; [apply key_le_refl|done]. }
  destruct Hb as [?|Hb]; [done|].
  destruct (key_lt (kr_right b) (kr_left a)) eqn:E1; cbn [orb].
  { apply key_lt_true in E1. split; [done|]. intros (k & [?|[H1 _]] & [?|[_ H2]]); [done..|].
    exfalso. apply (cmp_lt_irrefl KeyTs_cmp k).
    eapply (cmp_le_lt_trans KeyTs_cmp); [exact H2|]. by eapply (cmp_lt_le_trans KeyTs_cmp). }
  destruct (key_lt (kr_right a) (kr_left b)) eqn:E2.
  { apply key_lt_true in E2. split; [done|]. intros (k & [?|[_ H2]] & [?|[H1 _]]); [done..|].
    exfalso. apply (cmp_lt_irrefl KeyTs_cmp k).
    eapply (cmp_le_lt_trans KeyTs_cmp); [exact H2|]. by eapply (cmp_lt_le_trans KeyTs_cmp). }
  apply key_lt_false in E1, E2. split; [|done]. intros _.
  destruct (cmp_le_total KeyTs_cmp (kr_left a) (kr_left b)) as [Hl|Hl].
  - exists (kr_left b). split; right; split; auto using key_le_refl.
  - exists (kr_left a). split; right; split; auto using key_le_refl.
Qed.

(* ------------------------------------------------------------------ *)
(** ** Lemmas: the tables that meet a range *)

Section Overlap.
Context {T : Type} `{!LevelTable T}.

Lemma StronglySorted_lookup {A} (R : A → A → Prop) l i j x y :
  StronglySorted R l → i < j → l !! i = Some x → l !! j = Some y → R x y.
Proof.
  intros Hs. revert i j. induction Hs as [|a l Hs IH Ha]; intros i j Hij Hx Hy; [done|].
  destruct i as [|i], j as [|j]; cbn in *; try lia.
  - injection Hx as ->. rewrite Forall_forall in Ha. apply Ha. by eapply list_elem_of_lookup_2.
  - apply (IH i j); [lia|done|done].
Qed.

Lemma ordered_bounds (l : list T) i j x y :
  ordered l → i < j → l !! i = Some x → l !! j = Some y →
  cmp_lt KeyTs_cmp (biggest x) (biggest y) ∧ cmp_lt KeyTs_cmp (smallest x) (smallest y).
Proof.
  intros [Hs Hw] Hij Hx Hy. pose proof (StronglySorted_lookup _ _ _ _ _ _ Hs Hij Hx Hy) as Hb.
  pose proof (Forall_lookup_1 _ _ _ _ Hw Hx) as Hwx. pose proof (Forall_lookup_1 _ _ _ _ Hw Hy) as Hwy.
  split; [by eapply (cmp_lt_le_trans KeyTs_cmp)|by eapply (cmp_le_lt_trans KeyTs_cmp)].
Qed.

(** The first table that does not end before [k]. *)
Lemma search_biggest (l : list T) k :
  ordered l →
  ∃ r, binary_search_by l (λ t, Ok (KeyTs_cmp (biggest t) k)) = Ok r ∧
    let li := match r with Found i => i | NotFound i => i end in
    li <= length l ∧
    ∀ j x, l !! j = Some x → (j < li ↔ cmp_lt KeyTs_cmp (biggest x) k).
Proof.
  intros Ho. destruct (binary_search_by_ok l (λ t, KeyTs_cmp (biggest t) k)
    (λ t, Ok (KeyTs_cmp (biggest t) k))) as (r & Hr & Hp); [done| |].
  { intros i j x y Hij Hx Hy. apply (cmp_lt_search KeyTs_cmp). by apply (ordered_bounds l i j x y). }
  exists r. split; [done|]. destruct r as [i|i].
  - destruct Hp as (xi & Hxi & Heq). apply (cmp_eq (cmp := KeyTs_cmp)) in Heq. subst k.
    split; [by apply Nat.lt_le_incl, lookup_lt_is_Some_1|]. intros j x Hx. split.
    + intros Hj. by apply (ordered_bounds l j i x xi).
    + intros Hlt. destruct (decide (j < i)) as [|Hge]; [done|]. exfalso.
      destruct (decide (j = i)) as [->|].
      * simplify_eq. exact (cmp_lt_irrefl KeyTs_cmp _ Hlt).
      * destruct (ordered_bounds l i j xi x) as [Hb _]; [done|lia|done|done|].
        apply (cmp_lt_irrefl KeyTs_cmp (biggest x)). by eapply (cmp_lt_trans KeyTs_cmp).
  - destruct Hp as (Hi & Hlo & Hhi). split; [done|]. intros j x Hx. split.
    + intros Hj. by eapply Hlo.
    + intros Hlt. destruct (decide (j < i)) as [|Hge]; [done|]. exfalso.
      unfold cmp_lt in Hlt. rewrite (Hhi j x) in Hlt; [done|lia|done].
Qed.

(** The tables up to the last that begins at or before [k]. *)
Lemma search_smallest (l : list T) k :
  ordered l →
  ∃ r, binary_search_by l (λ t, Ok (KeyTs_cmp (smallest t) k)) = Ok r ∧
    let ri := match r with Found i => i + 1 | NotFound i => i end in
    ri <= length l ∧
    ∀ j x, l !! j = Some x → (j < ri ↔ cmp_le KeyTs_cmp (smallest x) k).
Proof.
  intros Ho. destruct (binary_search_by_ok l (λ t, KeyTs_cmp (smallest t) k)
    (λ t, Ok (KeyTs_cmp (smallest t) k))) as (r & Hr & Hp); [done| |].
  { intros i j x y Hij Hx Hy. apply (cmp_lt_search KeyTs_cmp). by apply (ordered_bounds l i j x y). }
  exists r. split; [done|]. destruct r as [i|i].
  - destruct Hp as (xi & Hxi & Heq). apply (cmp_eq (cmp := KeyTs_cmp)) in Heq. subst k.
    split; [by apply lookup_lt_Some in Hxi; lia|]. intros j x Hx. split.
    + intros Hj. destruct (decide (j = i)) as [->|].
      * simplify_eq. apply key_le_refl.
      * apply key_lt_le. eapply (ordered_bounds l j i); [done|lia|done|done].
    + intros Hle. destruct (decide (j < i + 1)) as [|Hge]; [done|]. exfalso.
      destruct (ordered_bounds l i j xi x) as [_ Hb]; [done|lia|done|done|].
      by apply cmp_le_not_lt in Hle.
  - destruct Hp as (Hi & Hlo & Hhi). split; [done|]. intros j x Hx. unfold cmp_le. split.
    + intros Hj. by rewrite (Hlo j x).
    + intros Hle. destruct (decide (j < i)) as [|Hge]; [done|]. exfalso.
      apply Hle. apply (Hhi j x); [lia|done].
Qed.

(** A table meets a range when it neither ends before it nor begins after it. *)
Definition meets (r : KeyTsRange) (t : T) : Prop :=
  cmp_le KeyTs_cmp (kr_left r) (biggest t) ∧ cmp_le KeyTs_cmp (smallest t) (kr_right r).

Lemma overlap_tables_spec (l : list T) r :
  ordered l → KeyTs_is_empty (kr_left r) = false → KeyTs_is_empty (kr_right r) = false →
  cmp_le KeyTs_cmp (kr_left r) (kr_right r) →
  ∃ a b, overlap_tables l r = Ok (a, b) ∧ a <= b ∧ b <= length l ∧
    ∀ j x, l !! j = Some x → (a <= j ∧ j < b ↔ meets r x).
Proof.
  intros Ho El Er Hlr. unfold overlap_tables. rewrite El, Er. cbn [orb].
  destruct (search_biggest l (kr_left r) Ho) as (rl & -> & Hla & Hl). cbn [mbind outcome_bind].
  destruct (search_smallest l (kr_right r) Ho) as (rr & -> & Hra & Hr). cbn [mbind outcome_bind].
  set (a := match rl with Found i => i | NotFound i => i end) in *.
  set (b := match rr with Found i => i + 1 | NotFound i => i end) in *.
  assert (a <= b) as Hab.
  { destruct (decide (a <= b)) as [|Hgt]; [done|]. exfalso.
    destruct (lookup_lt_is_Some_2 l b) as [x Hx]; [lia|].
    assert (cmp_lt KeyTs_cmp (biggest x) (kr_left r)) as H1 by (apply (Hl b x Hx); lia).
    assert (¬ cmp_le KeyTs_cmp (smallest x) (kr_right r)) as H2 by (rewrite <- (Hr b x Hx); lia).
    apply H2. destruct Ho as [_ Hw]. pose proof (Forall_lookup_1 _ _ _ _ Hw Hx) as Hwx.
    eapply (cmp_le_trans KeyTs_cmp); [exact Hwx|]. eapply (cmp_le_trans KeyTs_cmp); [|exact Hlr].
    by apply key_lt_le. }
  exists a, b. split_and!; [done|done|done|]. intros j x Hx. unfold meets.
  rewrite <- (Hr j x Hx), cmp_le_not_lt, <- (Hl j x Hx). lia.
Qed.

End Overlap.

(* ------------------------------------------------------------------ *)
(** ** Lemmas: the plan takes every table it must *)

Section PlanLemmas.
Context {T : Type} `{!LevelTable T, !TableAge T}.

Lemma range_of_table_ok (t : T) :
  table_wf t → kt_key (biggest t) ≠ [] →
  KeyTs_is_empty (kr_left (range_of_table t)) = false ∧
  KeyTs_is_empty (kr_right (range_of_table t)) = false ∧
  cmp_le KeyTs_cmp (kr_left (range_of_table t)) (kr_right (range_of_table t)).
Proof.
  intros Hw Hk. unfold range_of_table, KeyTs_is_empty. cbn [kr_left kr_right]. split_and!.
  - apply bool_decide_eq_false_2. intros [=].
  - apply bool_decide_eq_false_2. intros [=]. done.
  - unfold table_wf, cmp_le, KeyTs_cmp in *. cbn [kt_key kt_ts].
    destruct (bytes_cmp (kt_key (smallest t)) (kt_key (biggest t))); cbn in *; done.
Qed.

Lemma elem_of_slice (l s : list T) a b x :
  slice l a b = Ok s → x ∈ s ↔ ∃ j, a <= j ∧ j < b ∧ l !! j = Some x.
Proof.
  unfold slice. destruct ((a <=? b) && (b <=? length l)) eqn:E; [|done]. bool_to_prop.
  intros [= <-]. rewrite list_elem_of_lookup. split.
  - intros (i & Hi). pose proof (lookup_lt_Some _ _ _ Hi) as Hlt. rewrite length_take, length_drop in Hlt.
    rewrite lookup_take_lt, lookup_drop in Hi by lia. exists (a + i). split_and!; [lia|lia|done].
  - intros (j & Ha & Hb & Hj). exists (j - a). rewrite lookup_take_lt, lookup_drop by lia.
    replace (a + (j - a)) with j by lia. done.
Qed.

(** What a successful plan for a level has. *)
Definition plan_complete (tables next : list T) (p' : CompactPlan T) : Prop :=
  ∃ t, t ∈ tables ∧ pl_top p' = [t] ∧ pl_this_range p' = range_of_table t ∧
    (∀ x, x ∈ pl_bottom p' ↔ x ∈ next ∧ meets (range_of_table t) x).

Lemma fill_loop_complete tables p st p' st' :
  ordered (plan_next_tables p) → Forall table_wf tables →
  Forall (λ t, kt_key (biggest t) ≠ []) tables →
  fill_loop tables p st = Ok (true, p', st') → plan_complete tables (plan_next_tables p) p'.
Proof.
  intros Ho. revert p st Ho. induction tables as [|t tables IH]; intros p st Ho Hw Hk; [done|].
  apply Forall_cons in Hw as [Hwt Hw]. apply Forall_cons in Hk as [Hkt Hk].
  assert (∀ q st0, plan_next_tables q = plan_next_tables p →
    fill_loop tables q st0 = Ok (true, p', st') → plan_complete (t :: tables) (plan_next_tables p) p') as Hrec.
  { intros q st0 Hq Hr. destruct (IH q st0) as (t0 & Ht0 & Htop & Hrg & Hb); [by rewrite Hq|done|done|done|].
    exists t0. split_and!; [by apply list_elem_of_further|done|done|by rewrite <- Hq]. }
  cbn [fill_loop]. rewrite bind_Ok. intros ([] & _ & Hr); [by (eapply Hrec; [|exact Hr])|].
  apply bind_Ok in Hr as ([a b] & Hov & Hr). apply bind_Ok in Hr as (bottom & Hsl & Hr).
  destruct (range_of_table_ok t Hwt Hkt) as (E1 & E2 & Hle).
  assert (∀ x, x ∈ bottom ↔ x ∈ plan_next_tables p ∧ meets (range_of_table t) x) as Hbot.
  { intros x. change (plan_next_tables (with_tables p _ _ _ _ _)) with (plan_next_tables p) in *.
    destruct (overlap_tables_spec _ _ Ho E1 E2 Hle) as (a' & b' & Hov' & Hab & Hbl & Hm).
    rewrite Hov' in Hov. injection Hov as -> ->. unfold tables_in in Hsl. cbn [fst snd] in Hsl.
    rewrite (elem_of_slice _ _ _ _ _ Hsl). split.
    - intros (j & ? & ? & Hj). split; [by eapply list_elem_of_lookup_2|]. by apply (Hm j x Hj).
    - intros [(j & Hj)%list_elem_of_lookup Hx]. exists j. destruct (proj2 (Hm j x Hj) Hx). auto. }
  assert (∀ nr st0 b, Ok (b, with_tables p [t] (range_of_table t) bottom nr (table_size t), st0)
    = Ok (true, p', st') → plan_complete (t :: tables) (plan_next_tables p) p') as Hdone.
  { intros nr st0 b0 [= _ <- _]. exists t. split_and!; [apply list_elem_of_here|done|done|done]. }
  destruct (length bottom =? 0).
  - apply bind_Ok in Hr as ([[] st1] & _ & Hr); [exact (Hdone _ _ _ Hr)|by (eapply Hrec; [|exact Hr])].
  - apply bind_Ok in Hr as ([] & _ & Hr); [by (eapply Hrec; [|exact Hr])|].
    apply bind_Ok in Hr as ([[] st1] & _ & Hr); [exact (Hdone _ _ _ Hr)|by (eapply Hrec; [|exact Hr])].
Qed.

(* ------------------------------------------------------------------ *)
(** ** Lemmas: the status *)

Lemma ForallOrdPairs_snoc {A} (R : A → A → Prop) l y :
  ForallOrdPairs R l → Forall (λ x, R x y) l → ForallOrdPairs R (l ++ [y]).
Proof.
  induction 1 as [|x l Hx Hl IH]; intros Hy; cbn [app]; [repeat constructor|].
  apply Forall_cons in Hy as [Hxy Hy]. constructor; [|by apply IH].
  apply Forall_app. split; [done|by apply Forall_singleton].
Qed.

Lemma ForallOrdPairs_lookup {A} (R : A → A → Prop) l j m x y :
  ForallOrdPairs R l → j < m → l !! j = Some x → l !! m = Some y → R x y.
Proof.
  intros Hf. revert j m. induction Hf as [|z l Hz Hl IH]; intros j m Hjm Hx Hy; [done|].
  destruct j as [|j], m as [|m]; cbn in *; try lia.
  - injection Hx as ->. rewrite Forall_forall in Hz. apply Hz. by eapply list_elem_of_lookup_2.
  - apply (IH j m); [lia|done|done].
Qed.

(** No registered range meets one registered before it on the same level. *)
Definition status_disjoint (st : CompactStatus) : Prop :=
  ∀ i s, st_levels st !! i = Some s →
    ForallOrdPairs (λ a b, is_overlaps_with a b = false) (ls_ranges s).

Lemma level_overlaps_false s r :
  level_overlaps s r = false ↔ Forall (λ x, is_overlaps_with x r = false) (ls_ranges s).
Proof.
  unfold level_overlaps. rewrite Forall_forall. split.
  - intros Hex x Hx. apply not_true_iff_false. intros Ht. apply not_true_iff_false in Hex.
    apply Hex, existsb_exists. exists x. split; [by apply list_elem_of_In|done].
  - intros Hall. apply not_true_iff_false. intros (x & Hx & Ht)%existsb_exists.
    rewrite Hall in Ht; [done|by apply list_elem_of_In].
Qed.

Definition this_index (p : CompactPlan T) : nat := Z.to_nat (hd_level (pl_this_level p)).
Definition next_index (p : CompactPlan T) : nat := Z.to_nat (hd_level (pl_next_level p)).

(** The cases of [try_update]. *)
Lemma try_update_cases st p b st' :
  try_update st p = Ok (b, st') →
  (b = false ∧ st' = st) ∨
  (b = true ∧ ∃ s n n', st_levels st !! this_index p = Some s ∧ st_levels st !! next_index p = Some n ∧
     level_overlaps s (pl_this_range p) = false ∧ level_overlaps n (pl_next_range p) = false ∧
     <[this_index p := push_range s (pl_this_range p)]> (st_levels st) !! next_index p = Some n' ∧
     st_levels st' = <[next_index p := push_range n' (pl_next_range p)]>
       (<[this_index p := push_range s (pl_this_range p)]> (st_levels st))).
Proof.
  unfold try_update. fold (this_index p) (next_index p). rewrite bind_Ok. intros ([] & _ & Hr).
  apply bind_Ok in Hr as (s & Hs & Hr). destruct (level_overlaps s _) eqn:E1; [left; by simplify_eq|].
  apply bind_Ok in Hr as (n & Hn & Hr). destruct (level_overlaps n _) eqn:E2; [left; by simplify_eq|].
  apply bind_Ok in Hr as (n' & Hn' & [= <- <-]). right. split; [done|]. exists s, n, n'.
  unfold idx in *.
  destruct (st_levels st !! this_index p); [|done]. destruct (st_levels st !! next_index p); [|done].
  destruct (<[this_index p := _]> _ !! next_index p); [|done]. by simplify_eq/=.
Qed.

Lemma try_update_disjoint st p b st' :
  status_disjoint st → this_index p ≠ next_index p → try_update st p = Ok (b, st') → status_disjoint st'.
Proof.
  intros Hd Hne [[_ ->]|(_ & s & n & n' & Hs & Hn & E1 & E2 & Hn' & Hl)]%try_update_cases; [done|].
  rewrite list_lookup_insert_ne in Hn' by done. simplify_eq. intros i x. rewrite Hl.
  destruct (decide (next_index p = i)) as [<-|Hi].
  - rewrite list_lookup_insert_eq by (rewrite length_insert; by eapply lookup_lt_Some).
    intros [= <-]. apply ForallOrdPairs_snoc; [by eapply Hd|by apply level_overlaps_false].
  - rewrite list_lookup_insert_ne by done. destruct (decide (this_index p = i)) as [<-|Hi'].
    + rewrite list_lookup_insert_eq by by eapply lookup_lt_Some.
      intros [= <-]. apply ForallOrdPairs_snoc; [by eapply Hd|by apply level_overlaps_false].
    + rewrite list_lookup_insert_ne by done. by apply Hd.
Qed.

(** [a] has at least the ranges of [b], on every level. *)
Definition registered (st : CompactStatus) (i : nat) (r : KeyTsRange) : Prop :=
  ∃ s, st_levels st !! i = Some s ∧ r ∈ ls_ranges s.

Lemma registered_insert (levels : list LevelCompactStatus) tables tables' i j s r r' :
  levels !! j = Some s → registered (mkStatus levels tables) i r →
  registered (mkStatus (<[j := push_range s r']> levels) tables') i r.
Proof.
  intros Hj (x & Hx & Hr). unfold registered. cbn [st_levels] in *.
  destruct (decide (j = i)) as [->|Hne].
  - simplify_eq. exists (push_range s r'). rewrite list_lookup_insert_eq by by eapply lookup_lt_Some.
    split; [done|]. cbn. apply elem_of_app. by left.
  - exists x. by rewrite list_lookup_insert_ne.
Qed.

(* ------------------------------------------------------------------ *)
(** ** Lemmas: the splits of a compaction *)

(** Ranges that follow each other from [left] and leave the last one open. *)
Fixpoint chained (left : KeyTs) (l : list KeyTsRange) : Prop :=
  match l with
  | [] => False
  | [r] => kr_left r = left ∧ kr_right r = KeyTs_default
  | r :: rest => kr_left r = left ∧ chained (kr_right r) rest
  end.

Lemma chained_cons r rest left :
  kr_left r = left → chained (kr_right r) rest → chained left (r :: rest).
Proof. destruct rest; [done|]. by split. Qed.

Lemma div_succ i w : 0 < w → S i / w = i / w + if i mod w =? w - 1 then 1 else 0.
Proof.
  intros Hw. pose proof (Nat.div_mod i w) as Hi. pose proof (Nat.mod_upper_bound i w) as Hb.
  symmetry. case_if.
  - apply (Nat.div_unique _ _ _ 0); lia.
  - apply (Nat.div_unique _ _ _ (S (i mod w))); lia.
Qed.

Lemma split_loop_chain (bottom : list T) : ∀ i len width skr,
  bottom ≠ [] → i + length bottom = len → 0 < width →
  chained (kr_left skr) (split_loop bottom i len width skr) ∧
  length (split_loop bottom i len width skr) + i / width = 1 + (len - 1) / width.
Proof.
  induction bottom as [|t rest IH]; intros i len width skr Hne Hlen Hw; [done|].
  cbn [split_loop length] in *. case_if.
  { cbn [length]. split; [done|]. subst i. lia. }
  assert (rest ≠ []) as Hrest by (intros ->; cbn in *; lia).
  pose proof (div_succ i width Hw) as Hd. case_if.
  - set (right := mkKeyTs (kt_key (biggest t)) 0).
    destruct (IH (S i) len width (mkRange right right (kr_inf skr))) as [Hc Hl]; [done|lia|done|].
    split; [by apply chained_cons|]. cbn [length]. lia.
  - destruct (IH (S i) len width skr) as [Hc Hl]; [done|lia|done|]. split; [done|lia].
Qed.

Lemma split_count len : 0 < len → (len - 1) / split_width len <= 4.
Proof.
  intros Hlen. unfold split_width. apply Nat.lt_succ_r. apply Nat.Div0.div_lt_upper_bound.
  pose proof (Nat.div_mod (len + 4) 5). pose proof (Nat.mod_upper_bound (len + 4) 5). lia.
Qed.

End PlanLemmas.

(* ------------------------------------------------------------------ *)
(** ** Theorems *)

(** The updates of the status: plans, and the lock of a level 0 compaction. *)
Inductive status_step {T} `{!LevelTable T} : CompactStatus → CompactStatus → Prop :=
| step_try st (p : CompactPlan T) b st' : try_update st p = Ok (b, st') → status_step st st'
| step_lock st st1 tables :
    status_push st LEVEL0 inf_default = Ok st1 →
    status_step st (mkStatus (st_levels st1) (tables ∪ st_tables st1)).

(** The plans between two different levels. *)
Inductive move_step {T} `{!LevelTable T} : CompactStatus → CompactStatus → Prop :=
| step_move st (p : CompactPlan T) b st' :
    this_index p ≠ next_index p → try_update st p = Ok (b, st') → move_step st st'.

Lemma status_step_registered {T} `{!LevelTable T} st st' i r :
  status_step (T := T) st st' → registered st i r → registered st' i r.
Proof.
  destruct 1 as [st p b st' Hu|st st1 tables Hp]; intros Hreg.
  - apply try_update_cases in Hu as [[_ ->]|(_ & s & n & n' & Hs & _ & _ & _ & Hn' & Hl)]; [done|].
    destruct st as [levels tb], st' as [levels' tb']. cbn [st_levels] in *. subst levels'.
    eapply (registered_insert _ tb tb'); [done|]. by eapply (registered_insert _ tb tb).
  - unfold status_push in Hp. apply bind_Ok in Hp as (s & Hs & [= <-]). cbn [st_levels st_tables].
    destruct st as [levels tb]. cbn [st_levels] in *. eapply (registered_insert _ tb); [|done].
    unfold idx in Hs. destruct (levels !! Z.to_nat LEVEL0); [|done]. by simplify_eq/=.
Qed.

Section CompactTheorems.
Context {T : Type} `{!LevelTable T, !TableAge T}.

(** C17: A plan between two levels takes every table it must: when [fill_tables]
    succeeds on an ordered next level, it compacts one table of its level with
    exactly the tables of the next level that have a key between the table's
    first and last user key, in any version. *)
Theorem fill_tables_complete cfg now discard_ts (p : CompactPlan T) st p' st' :
  hd_level (pl_this_level p) ≠ (lc_max_level cfg - 1)%Z → ordered (plan_next_tables p) →
  Forall table_wf (plan_tables p) → Forall (λ t, kt_key (biggest t) ≠ []) (plan_tables p) →
  fill_tables cfg now discard_ts p st = Ok (true, p', st') →
  ∃ t, t ∈ plan_tables p ∧ pl_top p' = [t] ∧ pl_this_range p' = range_of_table t ∧
    ∀ x, x ∈ pl_bottom p' ↔ x ∈ plan_next_tables p ∧ meets (range_of_table t) x.
Proof.
  intros Hlv Ho Hw Hk. unfold fill_tables. case_if; [done|]. rewrite bind_Ok.
  intros (last_level & Hl & Hr). unfold u32_sub in Hl. destruct (_ <=? _)%Z eqn:El in Hl; [|done].
  injection Hl as <-. destruct (Z.eqb_spec (hd_level (pl_this_level p)) (lc_max_level cfg - 1)); [done|].
  pose proof (sort_by_perm max_version Z.compare (plan_tables p)) as Hp.
  apply fill_loop_complete in Hr as (t & Ht & Hrest); [|done|by rewrite Hp|by rewrite Hp].
  exists t. split; [by rewrite <- Hp|done].
Qed.

(** C23: Compactions between different levels never share keys: from the empty
    status, whatever plans were accepted, two ranges registered on the same level
    have no key in common. *)
Theorem compactions_disjoint n st i s a b ra rb :
  rtc (move_step (T := T)) (CompactStatus_new n) st → st_levels st !! i = Some s →
  a < b → ls_ranges s !! a = Some ra → ls_ranges s !! b = Some rb → range_ok ra → range_ok rb →
  ¬ ∃ k, in_range k ra ∧ in_range k rb.
Proof.
  intros Hr Hs Hab Ha Hb Hoka Hokb. assert (status_disjoint st) as Hd.
  { assert (status_disjoint (CompactStatus_new n)) as H0.
    { intros j x Hx. cbn in Hx. apply lookup_replicate_1 in Hx as [-> _]. constructor. }
    revert H0. clear -Hr. induction Hr as [st|st1 st2 st3 Hs Hr IH]; [done|].
    intros H1. apply IH. destruct Hs as [st1 p b st2 Hne Hu]. by eapply try_update_disjoint. }
  rewrite <- overlaps_shared by done. rewrite not_true_iff_false. specialize (Hd i s Hs).
  by apply (ForallOrdPairs_lookup _ (ls_ranges s) a b ra rb Hd).
Qed.

(** A registered range is never released: once a range is registered on a
    level, every later plan of that level that meets it is refused, whatever
    happened in between. *)
Theorem registered_range_locks st st' i r (p : CompactPlan T) :
  registered st i r → rtc (status_step (T := T)) st st' →
  this_index p = i → is_overlaps_with r (pl_this_range p) = true →
  try_update st' p = Ok (false, st').
Proof.
  intros Hreg Hr Hi Hov. assert (registered st' i r) as (s & Hs & Hin).
  { clear Hi Hov. induction Hr as [st|st1 st2 st3 Hs Hr IH]; [done|].
    apply IH. by eapply status_step_registered. }
  unfold try_update. fold (this_index p). rewrite Hi.
  assert (i < length (st_levels st')) as Hlt by by eapply lookup_lt_Some.
  unfold assert_or_panic. rewrite (proj2 (Nat.ltb_lt _ _) Hlt). cbn [mbind outcome_bind].
  unfold idx. rewrite Hs. cbn [unwrap mbind outcome_bind].
  replace (level_overlaps s (pl_this_range p)) with true; [done|]. symmetry.
  apply existsb_exists. exists r. split; [by apply list_elem_of_In|done].
Qed.

(** The splits of a compaction cover it: they are at least one and at most
    five ranges, the first begins where the plan's ranges begin, each begins
    where the one before it ends, and the last is open to the right. *)
Theorem splits_cover (p : CompactPlan T) :
  pl_bottom p ≠ [] →
  chained (kr_left (range_extend (pl_this_range p) (pl_next_range p))) (pl_splits (add_splits p)) ∧
  1 <= length (pl_splits (add_splits p)) <= 5.
Proof.
  intros Hne. unfold add_splits. cbn [pl_splits].
  assert (0 < length (pl_bottom p)) as Hlen by (destruct (pl_bottom p); [done|cbn; lia]).
  destruct (split_loop_chain (pl_bottom p) 0 (length (pl_bottom p)) (split_width (length (pl_bottom p)))
    (range_extend (pl_this_range p) (pl_next_range p))) as [Hc Hl]; [done|lia|unfold split_width; lia|].
  split; [done|]. pose proof (split_count (length (pl_bottom p)) Hlen).
  rewrite Nat.Div0.div_0_l in Hl. lia.
Qed.

End CompactTheorems.

(** ** Witnesses *)

Module CompactExamples.
Import LevelExamples.

#[export] Instance MetaTable_age : TableAge MetaTable := λ _, 0%Z.

Definition cfg : LevelsConfig := mkLevelsConfig 6 10 10 2 64 64.
Definition targets : CompactTargets := mkTargets 1 [0; 10; 10] [64; 64; 64]%Z.

(** Level 1 holds [ta]; level 2 holds [tb] and [tc], and a table within [ta]. *)
Definition td : MetaTable := mkMetaTable 4 40 0 (k 98 9) (k 98 2) [].
Definition one : LevelHandler MetaTable := init_tables (LevelHandler_new 1) [ta].
Definition two : LevelHandler MetaTable := init_tables (LevelHandler_new 2) [tb; td; tc].
Definition plan : CompactPlan MetaTable := CompactPlan_new 0 (mkPriority 1 f64_one f64_one [] targets) one two.
Definition status : CompactStatus := CompactStatus_new 3.

Definition filled : CompactPlan MetaTable * CompactStatus :=
  match fill_tables cfg 0 0 plan status with Ok (_, p, st) => (p, st) | _ => (plan, status) end.

Lemma two_ordered : ordered (plan_next_tables plan).
Proof.
  split; repeat constructor; vm_compute; congruence.
Defined.

Lemma fill_tables_witness :
  ∃ t, t ∈ [ta] ∧ pl_top filled.1 = [t] ∧ ∀ x, x ∈ pl_bottom filled.1 ↔ x ∈ [tc; td; tb] ∧ meets (range_of_table t) x.
Proof.
  destruct (fill_tables_complete cfg 0 0 plan status filled.1 filled.2) as (t & Ht & Htop & _ & Hb).
  - vm_compute. congruence.
  - apply two_ordered.
  - apply Forall_cons. split; [vm_compute; congruence|apply Forall_nil; exact I].
  - apply Forall_cons. split; [vm_compute; congruence|apply Forall_nil; exact I].
  - vm_compute. reflexivity.
  - exists t. split; [exact Ht|]. split; [exact Htop|exact Hb].
Defined.

(** A second plan, for another table of level 1. *)
Definition te : MetaTable := mkMetaTable 5 10 0 (k 103 3) (k 104 1) [].
Definition plan2 : CompactPlan MetaTable :=
  CompactPlan_new 0 (mkPriority 1 f64_one f64_one [] targets) (init_tables (LevelHandler_new 1) [te]) two.
Definition filled2 : CompactPlan MetaTable * CompactStatus :=
  match fill_tables cfg 0 0 plan2 filled.2 with Ok (_, p, st) => (p, st) | _ => (plan2, filled.2) end.

Lemma moves : rtc (move_step (T := MetaTable)) status filled2.2.
Proof.
  eapply rtc_l; [apply (step_move status filled.1 true filled.2)|].
  - vm_compute. congruence.
  - vm_compute. reflexivity.
  - eapply rtc_l; [apply (step_move filled.2 filled2.1 true filled2.2)|apply rtc_refl].
    + vm_compute. congruence.
    + vm_compute. reflexivity.
Defined.

Lemma compactions_disjoint_witness :
  ¬ ∃ x, in_range x (range_of_table ta) ∧ in_range x (range_of_table te).
Proof.
  apply (compactions_disjoint (T := MetaTable) 3 filled2.2 1
    (mkLevelStatus [range_of_table ta; range_of_table te] 0) 0 1).
  - apply moves.
  - vm_compute. reflexivity.
  - lia.
  - reflexivity.
  - reflexivity.
  - split; [vm_compute; reflexivity|right; vm_compute; congruence].
  - split; [vm_compute; reflexivity|right; vm_compute; congruence].
Defined.

(** The same table cannot be compacted again, even later. *)
Lemma registered_range_witness : try_update filled2.2 filled.1 = Ok (false, filled2.2).
Proof.
  apply (registered_range_locks filled.2 filled2.2 1 (range_of_table ta) filled.1).
  - exists (mkLevelStatus [range_of_table ta] 0). split; [vm_compute; reflexivity|apply list_elem_of_here].
  - eapply rtc_l; [apply (step_try filled.2 filled2.1 true filled2.2)|apply rtc_refl].
    vm_compute. reflexivity.
  - vm_compute. reflexivity.
  - vm_compute. reflexivity.
Defined.

Lemma splits_cover_witness : pl_bottom filled.1 = [td] ∧ 1 <= length (pl_splits (add_splits filled.1)) <= 5.
Proof.
  split; [vm_compute; reflexivity|]. apply (splits_cover filled.1). vm_compute. congruence.
Defined.

End CompactExamples.
