(* ===== verification/Vlog.v ===== *)
(** * Vlog: the value log and the write-ahead log

    [VlogEntryHeader] (src/src/vlog/header.rs), [encode_entry] and
    [ValueLog::write] (src/src/vlog/write.rs), [create_vlog_file]
    (src/src/vlog/mod.rs), [LogFileIter] (src/src/vlog/read.rs), [LogFile]
    (src/src/util/log_file.rs) and the reload of a memtable
    (src/src/memtable/write.rs).

    A log file is its bytes, as the mapped file shows them, with its cipher and
    base nonce; the latest cipher of the key registry is an argument. *)
From stdpp Require Import base list list_numbers gmap strings sets.
From Stdlib Require Import ZArith Lia.
From S2P Require Import Prelude Util VarInt Kv Pb Storage.

Local Open Scope nat_scope.

(** ** I/O results *)

Inductive io_result (A : Type) : Type :=
| IoOk (a : A)
| UnexpectedEof
| IoError.

Arguments IoOk {A} a.
Arguments UnexpectedEof {A}.
Arguments IoError {A}.

#[global] Instance io_bind : MBind io_result := λ A B f m,
  match m with
  | IoOk a => f a
  | UnexpectedEof => UnexpectedEof
  | IoError => IoError
  end.

(** [VarIntReader::read_varint] of crate [integer_encoding]: the value and the
    number of bytes taken from the reader. *)
Class VarIntRead : Type := { read_varint : Z → list Z → io_result (Z * nat) }.

Class VarIntReadLaws `{VarInt, VarIntRead} : Prop := {
  read_encode_var : ∀ w v rest, (w = 32 ∨ w = 64)%Z → in_width w v →
    read_varint w (encode_var v ++ rest) = IoOk (v, required_space v);
  read_varint_nil : ∀ w, read_varint w [] = UnexpectedEof;
  read_varint_zero : ∀ w rest, read_varint w (0%Z :: rest) = IoOk (0%Z, 1)
}.

(** ** The header of an entry *)

Record VlogEntryHeader : Type := mkHeader {
  vh_key_len : Z;
  vh_value_len : Z;
  vh_expires_at : Z;
  vh_meta : Z;
  vh_user_meta : Z
}.

Definition MAX_HEADER_SIZE : nat := 22.
Definition VLOG_HEADER_SIZE : nat := 20.

Definition VlogEntryHeader_new (e : Entry) : VlogEntryHeader :=
  mkHeader (u32 (Z.of_nat (KeyTs_len (e_key_ts e)))) (u32 (Z.of_nat (length (Entry_value e))))
    (Entry_expires_at e) (Entry_meta e) (vm_user_meta (e_value_meta e)).

(** [get_u8] *)
Definition get_u8 (l : list Z) : outcome (Z * list Z) :=
  match l with
  | b :: l' => Ok (b, l')
  | [] => Panic
  end.

Section VlogCode.
Context `{!VarInt, !VarIntRead, !ChecksumCodec, !Aead}.

Definition header_encode (h : VlogEntryHeader) : list Z :=
  [vh_meta h; vh_user_meta h] ++ encode_var (vh_key_len h) ++ encode_var (vh_value_len h) ++
    encode_var (vh_expires_at h).

(** [VlogEntryHeader::decode]: from a slice. *)
Definition header_decode (buf : list Z) : outcome (VlogEntryHeader * nat) :=
  '(meta, buf) ← get_u8 buf;
  '(user_meta, buf) ← get_u8 buf;
  '(key_len, n1) ← unwrap (decode_var 32 buf);
  let buf := drop n1 buf in
  '(value_len, n2) ← unwrap (decode_var 32 buf);
  let buf := drop n2 buf in
  '(expires_at, n3) ← unwrap (decode_var 64 buf);
  Ok (mkHeader key_len value_len expires_at meta user_meta, 2 + n1 + n2 + n3).

(** [VlogEntryHeader::decode_from]: from a reader.  The first two bytes are read
    into temporary arrays; the flags keep their initial zeros. *)
Definition header_decode_from (r : list Z) : io_result (VlogEntryHeader * nat) :=
  match r with
  | _ :: _ :: r =>
      '(key_len, n1) ← read_varint 32 r;
      let r := drop n1 r in
      '(value_len, n2) ← read_varint 32 r;
      let r := drop n2 r in
      '(expires_at, n3) ← read_varint 64 r;
      IoOk (mkHeader key_len value_len expires_at 0 0, 2 + n1 + n2 + n3)
  | _ => UnexpectedEof
  end.

(** ** Log files *)

Record LogFile : Type := mkLogFile {
  lf_fid : Z;
  lf_cipher : option AesCipher;
  lf_base_nonce : list Z;
  lf_bytes : list Z
}.

(** [offset.to_ne_bytes()] on a little-endian machine *)
Definition to_ne_bytes (offset : nat) : list Z := rev (be_encode 8 (Z.of_nat offset)).

Definition generate_nonce (lf : LogFile) (offset : nat) : outcome (list Z) :=
  let p := to_ne_bytes offset in
  b ← slice_to (lf_base_nonce lf) (12 - length p);
  Ok (b ++ p).

Definition log_try_encrypt (lf : LogFile) (plaintext : list Z) (offset : nat) : outcome (option (list Z)) :=
  match lf_cipher lf with
  | Some c => nonce ← generate_nonce lf offset; Ok (AesCipher_encrypt c nonce plaintext)
  | None => Ok None
  end.

Definition log_try_decrypt (lf : LogFile) (ciphertext : list Z) (offset : nat) : outcome (option (list Z)) :=
  match lf_cipher lf with
  | Some c => nonce ← generate_nonce lf offset; decrypt_with_slice c nonce ciphertext
  | None => Ok None
  end.

(** [bootstrap]: the header of a new file of [fsize] bytes. *)
Definition LogFile_new (fid : Z) (cipher : option AesCipher) (nonce : list Z) (fsize : nat) : LogFile :=
  let key_id := match cipher with Some c => cipher_key_id c | None => 0%Z end in
  let header := put_u64 key_id ++ nonce in
  mkLogFile fid cipher nonce (header ++ replicate (fsize - length header) 0%Z).

(** [encode_entry]: the bytes and their number. *)
Definition encode_entry (lf : LogFile) (entry : Entry) (offset : nat) : outcome (list Z * nat) :=
  let header := header_encode (VlogEntryHeader_new entry) in
  let kv_buf := KeyTs_serialize (e_key_ts entry) ++ Entry_value entry in
  e ← log_try_encrypt lf kv_buf offset;
  let kv_buf := match e with Some c => c | None => kv_buf end in
  Ok (header ++ kv_buf ++ put_u32 (crc32_hash (header ++ kv_buf)),
      length header + length kv_buf + 4).

(** ** Iterating a log file *)

Record LogFileIter : Type := mkLogFileIter {
  li_log_file : LogFile;
  li_record_offset : nat;
  li_reader : list Z;
  li_valid_end_offset : nat
}.

Definition LogFileIter_new (lf : LogFile) (offset : nat) : outcome LogFileIter :=
  r ← slice_from (lf_bytes lf) offset;
  Ok (mkLogFileIter lf offset r offset).

(** [read_entry]; after an error the iterator is not used again. *)
Definition read_entry (it : LogFileIter) : outcome (io_result (Entry * ValuePointer * LogFileIter)) :=
  match header_decode_from (li_reader it) with
  | IoOk (entry_header, header_len) =>
      if (65536 <? vh_key_len entry_header)%Z then Ok UnexpectedEof
      else
        let key_len := Z.to_nat (vh_key_len entry_header) in
        let value_len := Z.to_nat (vh_value_len entry_header) in
        let rest := drop header_len (li_reader it) in
        if length rest <? key_len + value_len then Ok UnexpectedEof
        else
          let raw := take (key_len + value_len) rest in
          if length raw =? 0 then Ok UnexpectedEof
          else
            d ← log_try_decrypt (li_log_file it) raw (li_record_offset it);
            let kv_buf := match d with Some s => s | None => raw end in
            key ← slice_to kv_buf key_len;
            value ← slice_from kv_buf key_len;
            let entry := Entry_new_ts key value (li_record_offset it) header_len in
            let hash := crc32_hash (take (header_len + (key_len + value_len)) (li_reader it)) in
            let rest := drop (key_len + value_len) rest in
            if length rest <? 4 then Ok UnexpectedEof
            else
              if negb (Z.eqb hash (be_decode (take 4 rest))) then Ok UnexpectedEof
              else
                let size := header_len + key_len + value_len + 4 in
                Ok (IoOk (entry, ValuePointer_new (lf_fid (li_log_file it)) size (li_record_offset it),
                      mkLogFileIter (li_log_file it) (li_record_offset it + size) (drop 4 rest)
                        (li_valid_end_offset it)))
  | UnexpectedEof => Ok UnexpectedEof
  | IoError => Ok IoError
  end.

Definition set_valid (it : LogFileIter) : LogFileIter :=
  mkLogFileIter (li_log_file it) (li_record_offset it) (li_reader it) (li_record_offset it).

(** The loop of [next]: the entries of the next transaction, or [None]. *)
Fixpoint next_loop (fuel : nat) (it : LogFileIter) (last_commit : Z) (acc : list (Entry * ValuePointer)) :
    outcome (option (list (Entry * ValuePointer)) * LogFileIter) :=
  match fuel with
  | 0 => Panic
  | S fuel =>
      r ← read_entry it;
      match r with
      | IoOk (entry, v_ptr, it') =>
          let txn_ts := Entry_version entry in
          if Meta_contains (Entry_meta entry) Meta_TXN then
            let last_commit := if Z.eqb last_commit 0 then txn_ts else last_commit in
            if negb (Z.eqb last_commit txn_ts) then Ok (None, it')
            else next_loop fuel it' last_commit (acc ++ [(entry, v_ptr)])
          else if Meta_contains (Entry_meta entry) Meta_FIN_TXN then
            if negb (Z.eqb last_commit txn_ts) then Ok (None, it') else Ok (Some acc, set_valid it')
          else
            if negb (Z.eqb last_commit 0) then Ok (None, it') else Ok (Some acc, set_valid it')
      | UnexpectedEof => Ok (None, it)
      | IoError => Err (EMsg "io")
      end
  end.

(** Each entry takes bytes, so one turn per byte and one more are enough. *)
Definition LogFileIter_next (it : LogFileIter) :
    outcome (option (list (Entry * ValuePointer)) * LogFileIter) :=
  next_loop (S (length (li_reader it))) it 0 [].

(** [while let Some(next) = iter.next()?]: everything it yields, and the end of
    the valid part. *)
Fixpoint drain_log (fuel : nat) (it : LogFileIter) (acc : list (Entry * ValuePointer)) :
    outcome (list (Entry * ValuePointer) * nat) :=
  match fuel with
  | 0 => Panic
  | S fuel =>
      '(r, it) ← LogFileIter_next it;
      match r with
      | Some es => drain_log fuel it (acc ++ es)
      | None => Ok (acc, li_valid_end_offset it)
      end
  end.

(** [truncate]: the file is cut or extended with zeros. *)
Definition log_truncate (lf : LogFile) (end_offset : nat) : LogFile :=
  mkLogFile (lf_fid lf) (lf_cipher lf) (lf_base_nonce lf)
    (take end_offset (lf_bytes lf) ++ replicate (end_offset - length (lf_bytes lf)) 0%Z).

(** [write_slice] inside the file *)
Definition write_slice (lf : LogFile) (offset : nat) (data : list Z) : outcome LogFile :=
  _ ← assert_or_panic (offset + length data <=? length (lf_bytes lf));
  Ok (mkLogFile (lf_fid lf) (lf_cipher lf) (lf_base_nonce lf)
        (take offset (lf_bytes lf) ++ data ++ drop (offset + length data) (lf_bytes lf))).

(** [DEFAULT_PAGE_SIZE] is the page size of the system. *)
Context (page : nat).

(** [write_entry] of a memtable's log at the write offset; a full file is
    extended as [check_len_satisfied] does.  The buffer of the mapped file is
    transparent. *)
Definition log_write_entry (st : LogFile * nat) (entry : Entry) : outcome (LogFile * nat) :=
  let '(lf, offset) := st in
  '(buf, size) ← encode_entry lf entry offset;
  data ← slice_to buf size;
  let new_write_at := offset + length data in
  let lf := if length (lf_bytes lf) <=? new_write_at
            then log_truncate lf (new_write_at - new_write_at mod page + 2 * page) else lf in
  lf ← write_slice lf offset data;
  Ok (lf, new_write_at).

(** [MemTable::reload]: the entries that are pushed into the skip list, the
    highest version, and the log cut at its valid end. *)
Definition MemTable_reload (wal : LogFile) (read_only : bool) : outcome (list Entry * Z * LogFile) :=
  it ← LogFileIter_new wal VLOG_HEADER_SIZE;
  '(es, end_offset) ← drain_log (S (length (lf_bytes wal))) it [];
  let entries := es.*1 in
  let max_version := foldl (λ acc e, Z.max acc (Entry_version e)) 0%Z entries in
  if (end_offset <? length (lf_bytes wal)) && read_only
  then Err (EDB (TruncateNeeded end_offset (length (lf_bytes wal))))
  else Ok (entries, max_version, log_truncate wal end_offset).

(** ** Writing to the value log *)

Record ValueLogConfig : Type := mkValueLogConfig {
  vc_vlog_file_size : nat;
  vc_vlog_max_entries : nat
}.

Record ValueLog : Type := mkValueLog {
  vl_fid_logfile : gmap Z LogFile;
  vl_max_fid : Z;
  vl_writable_log_offset : nat;
  vl_num_entries_written : nat;
  vl_config : ValueLogConfig
}.

(** [create_vlog_file]; [latest] is the latest cipher of the key registry, and
    the file's nonce is the one drawn for its identifier. *)
Definition create_vlog_file (latest : option AesCipher) (vl : ValueLog) : outcome ValueLog :=
  fid ← u32_add (vl_max_fid vl) 1;
  let lf := LogFile_new fid latest (nonce_at (Z.to_nat fid)) (2 * vc_vlog_file_size (vl_config vl)) in
  Ok (mkValueLog (<[fid := lf]> (vl_fid_logfile vl)) fid VLOG_HEADER_SIZE 0 (vl_config vl)).

Definition get_latest_logfile (vl : ValueLog) : outcome LogFile :=
  match vl_fid_logfile vl !! vl_max_fid vl with
  | Some lf => Ok lf
  | None => Err (EMsg "Failed to get latest_logfile")
  end.

Definition req : Type := list (Entry * ValuePointer).

Definition entry_log_size (x : Entry * ValuePointer) : nat :=
  MAX_HEADER_SIZE + length (Entry_key x.1) + 8 + length (Entry_value x.1) + 4.

Definition validate_step (cfg : ValueLogConfig) (vlog_offset : nat) (r : req) : outcome nat :=
  let estimate := vlog_offset + sum_list_with entry_log_size r in
  if (U32_MAX <? Z.of_nat estimate)%Z then Err (EMsg "Request size offset is bigger than maximum offset")
  else if vc_vlog_file_size cfg <=? estimate then Ok 0
  else Ok estimate.

Definition validate_write (vl : ValueLog) (reqs : list req) : outcome unit :=
  _ ← fold_outcome (validate_step (vl_config vl)) (vl_writable_log_offset vl) reqs;
  Ok ().

(** The entry as it is written: without the transaction flags. *)
Definition without_txn (e : Entry) : Entry :=
  Entry_set_meta e (Meta_remove (Meta_remove (Entry_meta e) Meta_TXN) Meta_FIN_TXN).

(** One entry: the log file, the offset, the number written and the entry with
    its pointer. *)
Definition write_one (threshold : nat) (st : LogFile * nat * nat) (x : Entry * ValuePointer) :
    outcome (LogFile * nat * nat * (Entry * ValuePointer)) :=
  let '(lf, offset, written) := st in
  let '(e, vptr) := x in
  let e := Entry_try_set_value_threshold e threshold in
  if length (Entry_value e) <? e_value_threshold e then
    Ok (lf, offset, written,
        (e, if negb (ValuePointer_is_empty vptr) then ValuePointer_default else vptr))
  else
    '(buf, len) ← encode_entry lf (without_txn e) offset;
    let vptr := ValuePointer_new (lf_fid lf) len offset in
    let end_offset := offset + length buf in
    let lf := if length (lf_bytes lf) <=? end_offset then log_truncate lf end_offset else lf in
    lf ← write_slice lf offset buf;
    Ok (lf, end_offset, written + 1, (e, vptr)).

Fixpoint write_entries (threshold : nat) (st : LogFile * nat * nat) (r : req) :
    outcome (LogFile * nat * nat * req) :=
  match r with
  | [] => Ok (st, [])
  | x :: rest =>
      '(st, y) ← write_one threshold st x;
      '(st, ys) ← write_entries threshold st rest;
      Ok (st, y :: ys)
  end.

(** The check at the end of a request: a full file is cut and a new one begun. *)
Definition rotate (latest : option AesCipher) (vl : ValueLog) : outcome ValueLog :=
  let w_offset := vl_writable_log_offset vl in
  if (vc_vlog_file_size (vl_config vl) <? w_offset) ||
     (vc_vlog_max_entries (vl_config vl) <? vl_num_entries_written vl) then
    lf ← get_latest_logfile vl;
    create_vlog_file latest
      (mkValueLog (<[vl_max_fid vl := log_truncate lf w_offset]> (vl_fid_logfile vl)) (vl_max_fid vl)
         w_offset (vl_num_entries_written vl) (vl_config vl))
  else Ok vl.

Definition write_req (threshold : nat) (latest : option AesCipher) (vl : ValueLog) (r : req) :
    outcome (ValueLog * req) :=
  lf ← get_latest_logfile vl;
  '(lf, offset, written, r) ← write_entries threshold (lf, vl_writable_log_offset vl, 0) r;
  let vl := mkValueLog (<[vl_max_fid vl := lf]> (vl_fid_logfile vl)) (vl_max_fid vl) offset
              (vl_num_entries_written vl + written) (vl_config vl) in
  vl ← rotate latest vl;
  Ok (vl, r).

Fixpoint write_reqs (threshold : nat) (latest : option AesCipher) (vl : ValueLog) (reqs : list req) :
    outcome (ValueLog * list req) :=
  match reqs with
  | [] => vl ← rotate latest vl; Ok (vl, [])
  | r :: rest =>
      '(vl, r) ← write_req threshold latest vl r;
      '(vl, rs) ← write_reqs threshold latest vl rest;
      Ok (vl, r :: rs)
  end.

(** [ValueLog::write] *)
Definition ValueLog_write (threshold : nat) (latest : option AesCipher) (vl : ValueLog) (reqs : list req) :
    outcome (ValueLog * list req) :=
  _ ← validate_write vl reqs;
  _ ← get_latest_logfile vl;
  write_reqs threshold latest vl reqs.

End VlogCode.

(* ------------------------------------------------------------------ *)
(** ** Lemmas: the header *)

Definition header_wf (h : VlogEntryHeader) : Prop :=
  in_width 32 (vh_key_len h) ∧ in_width 32 (vh_value_len h) ∧ in_width 64 (vh_expires_at h).

(** The header as a reader sees it. *)
Definition without_flags (h : VlogEntryHeader) : VlogEntryHeader :=
  mkHeader (vh_key_len h) (vh_value_len h) (vh_expires_at h) 0 0.

Section HeaderLemmas.
Context `{!VarInt, !VarIntLaws, !VarIntRead, !VarIntReadLaws}.

Lemma length_header_encode h :
  header_wf h →
  length (header_encode h) =
    2 + required_space (vh_key_len h) + required_space (vh_value_len h) + required_space (vh_expires_at h).
Proof.
  intros (Hk & Hv & He). unfold header_encode. rewrite !length_app.
  rewrite !length_encode_var by (unfold in_width in *; lia). cbn [length]. lia.
Qed.

Lemma header_encode_short h : header_wf h → length (header_encode h) <= MAX_HEADER_SIZE.
Proof.
  intros Hw. rewrite length_header_encode by done. destruct Hw as (Hk & Hv & He).
  pose proof (required_space_u32 _ Hk). pose proof (required_space_u32 _ Hv).
  pose proof (required_space_pos _ He). unfold MAX_HEADER_SIZE. lia.
Qed.

Lemma drop_encode_var w v rest :
  (w = 32 ∨ w = 64)%Z → in_width w v → drop (required_space v) (encode_var v ++ rest) = rest.
Proof.
  intros Hw Hv. apply drop_app_length'. symmetry. apply length_encode_var.
  unfold in_width in *. destruct Hw as [-> | ->]; lia.
Qed.

Lemma header_decode_encode h rest :
  header_wf h → header_decode (header_encode h ++ rest) = Ok (h, length (header_encode h)).
Proof.
  intros Hw. rewrite length_header_encode by done. destruct Hw as (Hk & Hv & He).
  unfold header_encode, header_decode. rewrite <- !app_assoc. cbn [app get_u8 mbind outcome_bind].
  rewrite decode_encode_var by auto. cbn [unwrap mbind outcome_bind].
  rewrite (drop_encode_var 32) by auto. rewrite decode_encode_var by auto. cbn [unwrap mbind outcome_bind].
  rewrite (drop_encode_var 32) by auto. rewrite decode_encode_var by auto. cbn [unwrap mbind outcome_bind].
  by destruct h.
Qed.

Lemma header_decode_from_encode h rest :
  header_wf h →
  header_decode_from (header_encode h ++ rest) = IoOk (without_flags h, length (header_encode h)).
Proof.
  intros Hw. rewrite length_header_encode by done. destruct Hw as (Hk & Hv & He).
  unfold header_encode, header_decode_from. rewrite <- !app_assoc. cbn [app].
  rewrite read_encode_var by auto. cbn [mbind io_bind].
  rewrite (drop_encode_var 32) by auto. rewrite read_encode_var by auto. cbn [mbind io_bind].
  rewrite (drop_encode_var 32) by auto. by rewrite read_encode_var by auto.
Qed.

(** Reading zeros ends a log. *)
Lemma header_decode_from_zeros n :
  match header_decode_from (replicate n 0%Z) with
  | IoOk (h, _) => vh_key_len h = 0%Z ∧ vh_value_len h = 0%Z
  | UnexpectedEof => True
  | IoError => False
  end.
Proof.
  destruct n as [|[|n]]; [done|done|]. cbn [replicate header_decode_from].
  destruct n as [|n]; [by rewrite read_varint_nil|]. cbn [replicate]. rewrite read_varint_zero.
  cbn [mbind io_bind drop]. rewrite drop_0.
  destruct n as [|n]; [by rewrite read_varint_nil|]. cbn [replicate]. rewrite read_varint_zero.
  cbn [mbind io_bind drop]. rewrite drop_0.
  destruct n as [|n]; [by rewrite read_varint_nil|]. cbn [replicate]. by rewrite read_varint_zero.
Qed.

End HeaderLemmas.

(* ------------------------------------------------------------------ *)
(** ** Lemmas: entries of a log without a cipher *)

Definition entry_fits (e : Entry) : Prop :=
  kt_key (e_key_ts e) ≠ [] ∧ in_width 64 (kt_ts (e_key_ts e)) ∧
  (Z.of_nat (KeyTs_len (e_key_ts e)) <= 65536)%Z ∧ (Z.of_nat (length (Entry_value e)) < 2 ^ 32)%Z ∧
  in_width 64 (Entry_expires_at e).

(** What reading an entry gives: its key and value, and nothing else. *)
Definition as_read (e : Entry) (offset header_len : nat) : Entry :=
  mkEntry (e_key_ts e) (mkValueMeta (Entry_value e) 0 0 0) offset header_len 0.

Section EntryLemmas.
Context `{!VarInt, !VarIntLaws, !VarIntRead, !VarIntReadLaws, !ChecksumCodec, !ChecksumLaws, !Aead}.

Definition entry_header (e : Entry) : list Z := header_encode (VlogEntryHeader_new e).
Definition entry_kv (e : Entry) : list Z := KeyTs_serialize (e_key_ts e) ++ Entry_value e.
Definition entry_bytes (e : Entry) : list Z :=
  entry_header e ++ entry_kv e ++ put_u32 (crc32_hash (entry_header e ++ entry_kv e)).

Lemma header_new_wf e : entry_fits e → header_wf (VlogEntryHeader_new e).
Proof.
  intros (_ & _ & _ & _ & He). split_and!; [| |done]; apply Z.mod_pos_bound; lia.
Qed.

Lemma header_new_lens e :
  entry_fits e →
  Z.to_nat (vh_key_len (VlogEntryHeader_new e)) = KeyTs_len (e_key_ts e) ∧
  Z.to_nat (vh_value_len (VlogEntryHeader_new e)) = length (Entry_value e) ∧
  (vh_key_len (VlogEntryHeader_new e) <= 65536)%Z.
Proof.
  intros (_ & _ & Hk & Hv & _). cbn [VlogEntryHeader_new vh_key_len vh_value_len].
  rewrite !u32_small by (unfold in_width; lia). lia.
Qed.

Lemma length_entry_kv e : length (entry_kv e) = KeyTs_len (e_key_ts e) + length (Entry_value e).
Proof. unfold entry_kv. by rewrite length_app, length_KeyTs_serialize. Qed.

Lemma length_entry_bytes e : length (entry_bytes e) = length (entry_header e) + length (entry_kv e) + 4.
Proof. unfold entry_bytes. rewrite !length_app, length_put_u32. lia. Qed.

Lemma encode_entry_plain lf e offset :
  lf_cipher lf = None → encode_entry lf e offset = Ok (entry_bytes e, length (entry_bytes e)).
Proof.
  intros Hc. unfold encode_entry, log_try_encrypt. rewrite Hc. cbn [mbind outcome_bind].
  by rewrite length_entry_bytes.
Qed.

Lemma read_entry_bytes it e rest :
  lf_cipher (li_log_file it) = None → entry_fits e → li_reader it = entry_bytes e ++ rest →
  read_entry it =
    Ok (IoOk (as_read e (li_record_offset it) (length (entry_header e)),
          ValuePointer_new (lf_fid (li_log_file it)) (length (entry_bytes e)) (li_record_offset it),
          mkLogFileIter (li_log_file it) (li_record_offset it + length (entry_bytes e)) rest
            (li_valid_end_offset it))).
Proof.
  intros Hc Hfit Hr.
  set (hdr := entry_header e). set (kv := entry_kv e). set (crc := put_u32 (crc32_hash (hdr ++ kv))).
  assert (li_reader it = hdr ++ kv ++ crc ++ rest) as Hr'.
  { rewrite Hr. unfold entry_bytes. by rewrite <- !app_assoc. }
  clear Hr. unfold read_entry. rewrite Hr'.
  assert (header_decode_from (hdr ++ kv ++ crc ++ rest) =
    IoOk (without_flags (VlogEntryHeader_new e), length hdr)) as ->.
  { apply header_decode_from_encode. by apply header_new_wf. }
  cbn [without_flags vh_key_len vh_value_len].
  destruct (header_new_lens e Hfit) as (-> & -> & Hle). guard_false.
  rewrite drop_app_length. rewrite <- length_entry_kv. fold kv.
  rewrite length_app. guard_false. rewrite take_app_length.
  assert (length kv = KeyTs_len (e_key_ts e) + length (Entry_value e)) as Hkv by apply length_entry_kv.
  unfold KeyTs_len in Hkv. guard_false. unfold log_try_decrypt. rewrite Hc. cbn [mbind outcome_bind].
  assert (slice_to kv (KeyTs_len (e_key_ts e)) = Ok (KeyTs_serialize (e_key_ts e)) ∧
    slice_from kv (KeyTs_len (e_key_ts e)) = Ok (Entry_value e)) as [-> ->].
  { split; [apply slice_to_app|apply slice_from_app]; by rewrite length_KeyTs_serialize. }
  cbn [mbind outcome_bind]. rewrite (app_assoc hdr kv), take_app_length' by by rewrite length_app.
  rewrite drop_app_length, length_app. assert (length crc = 4) as Hcrc by apply length_put_u32.
  guard_false. rewrite take_app_length', drop_app_length' by done.
  unfold crc at 1, put_u32. rewrite be_decode_encode_id by apply crc32_hash_range.
  rewrite Z.eqb_refl. cbn [negb]. unfold Entry_new_ts.
  destruct Hfit as (Hk & Hts & _). rewrite KeyTs_from_serialize by done.
  assert (length (entry_bytes e) = length hdr + KeyTs_len (e_key_ts e) + length (Entry_value e) + 4) as ->.
  { rewrite length_entry_bytes. fold kv hdr. unfold KeyTs_len. lia. }
  done.
Qed.

(** The end of the log: zeros. *)
Lemma read_entry_zeros it n :
  li_reader it = replicate n 0%Z → read_entry it = Ok UnexpectedEof.
Proof.
  intros Hr. unfold read_entry. rewrite Hr. pose proof (header_decode_from_zeros n) as Hz.
  destruct (header_decode_from (replicate n 0%Z)) as [[h m]| |]; [|done|done].
  destruct Hz as [-> ->]. cbn [Z.ltb Z.compare]. cbn [Z.to_nat Nat.add]. guard_false.
  by rewrite take_0.
Qed.

End EntryLemmas.

(* ------------------------------------------------------------------ *)
(** ** Lemmas: writing and replaying a memtable's log *)

Section WalLemmas.
Context `{!VarInt, !VarIntLaws, !VarIntRead, !VarIntReadLaws, !ChecksumCodec, !ChecksumLaws, !Aead}.

Definition log_content (es : list Entry) : list Z := concat (entry_bytes <$> es).

(** A log that holds [es] after its header [pre], and then zeros. *)
Definition log_holds (pre : list Z) (lf : LogFile) (es : list Entry) : Prop :=
  length pre = VLOG_HEADER_SIZE ∧ ∃ n, lf_bytes lf = pre ++ log_content es ++ replicate n 0%Z.

(** Two logs of the same file. *)
Definition same_file (lf lf' : LogFile) : Prop :=
  lf_fid lf' = lf_fid lf ∧ lf_cipher lf' = lf_cipher lf ∧ lf_base_nonce lf' = lf_base_nonce lf.

Lemma same_file_trans lf1 lf2 lf3 : same_file lf1 lf2 → same_file lf2 lf3 → same_file lf1 lf3.
Proof. unfold same_file. naive_solver congruence. Qed.

Lemma log_content_snoc es e : log_content (es ++ [e]) = log_content es ++ entry_bytes e.
Proof. unfold log_content. rewrite fmap_app, concat_app. cbn. by rewrite app_nil_r. Qed.

Lemma log_truncate_zeros lf a m n :
  lf_bytes lf = a ++ replicate m 0%Z → length (lf_bytes lf) <= n →
  lf_bytes (log_truncate lf n) = a ++ replicate (n - length a) 0%Z.
Proof.
  intros Hb Hn. cbn [log_truncate lf_bytes]. rewrite take_ge by done. rewrite Hb in *.
  rewrite length_app, length_replicate in *. rewrite <- app_assoc, <- replicate_add. do 2 f_equal. lia.
Qed.

(** Writing an entry into the zeros behind the entries of a log. *)
Lemma write_slice_appends pre lf es e m :
  length pre = VLOG_HEADER_SIZE → lf_bytes lf = (pre ++ log_content es) ++ replicate m 0%Z →
  length (entry_bytes e) <= m →
  ∃ lf', write_slice lf (VLOG_HEADER_SIZE + length (log_content es)) (entry_bytes e) = Ok lf' ∧
    same_file lf lf' ∧ log_holds pre lf' (es ++ [e]) ∧ length (lf_bytes lf') = length (lf_bytes lf).
Proof.
  intros Hpre Hb Hm. set (off := VLOG_HEADER_SIZE + length (log_content es)). set (buf := entry_bytes e) in *.
  assert (length (pre ++ log_content es) = off) as Hoff by (rewrite length_app; unfold off; lia).
  unfold write_slice. rewrite Hb, length_app, length_replicate, Hoff. unfold assert_or_panic. guard_true.
  cbn [mbind outcome_bind]. eexists. split_and!; [done|done| |].
  - split; [done|]. exists (m - length buf). cbn [lf_bytes]. rewrite take_app_length' by done.
    rewrite drop_app_ge by lia. rewrite Hoff. replace (off + length buf - off) with (length buf) by lia.
    rewrite drop_replicate. by rewrite log_content_snoc, <- !app_assoc.
  - cbn [lf_bytes]. rewrite !length_app, length_take, length_drop, length_app, length_replicate, Hoff. lia.
Qed.

Lemma log_write_holds page pre lf es e :
  0 < page → lf_cipher lf = None → log_holds pre lf es →
  ∃ lf', log_write_entry page (lf, VLOG_HEADER_SIZE + length (log_content es)) e =
      Ok (lf', VLOG_HEADER_SIZE + length (log_content (es ++ [e]))) ∧
    same_file lf lf' ∧ log_holds pre lf' (es ++ [e]).
Proof.
  intros Hp Hc (Hpre & n & Hb). unfold log_write_entry. rewrite encode_entry_plain by done.
  cbn [mbind outcome_bind]. rewrite slice_to_Ok by lia. cbn [mbind outcome_bind]. rewrite firstn_all.
  rewrite app_assoc in Hb. set (off := VLOG_HEADER_SIZE + length (log_content es)).
  set (buf := entry_bytes e). assert (length (pre ++ log_content es) = off) as Hoff.
  { rewrite length_app. unfold off. lia. }
  set (lf1 := if length (lf_bytes lf) <=? off + length buf then _ else lf).
  assert (∃ m, lf_bytes lf1 = (pre ++ log_content es) ++ replicate m 0%Z ∧ length buf <= m ∧
    same_file lf lf1) as (m & Hb1 & Hm & Hsf).
  { unfold lf1. pose proof (Nat.mod_upper_bound (off + length buf) page). case_if.
    - eexists. split_and!; [eapply log_truncate_zeros; [exact Hb|lia]|lia|done].
    - exists n. rewrite Hb, length_app, length_replicate in E. split_and!; [done|lia|done]. }
  destruct (write_slice_appends pre lf1 es e m Hpre Hb1 Hm) as (lf' & Hw & Hs' & Hh' & _).
  fold off buf in Hw. rewrite Hw. cbn [mbind outcome_bind]. exists lf'. split_and!; [|by eapply same_file_trans|done].
  rewrite log_content_snoc, length_app. fold buf. unfold off. by rewrite Nat.add_assoc.
Qed.

Lemma log_writes_hold page pre lf es' : ∀ es,
  0 < page → lf_cipher lf = None → log_holds pre lf es →
  ∃ lf', fold_outcome (log_write_entry page) (lf, VLOG_HEADER_SIZE + length (log_content es)) es' =
      Ok (lf', VLOG_HEADER_SIZE + length (log_content (es ++ es'))) ∧
    same_file lf lf' ∧ log_holds pre lf' (es ++ es').
Proof.
  revert lf. induction es' as [|e es' IH]; intros lf es Hp Hc Hh; cbn [fold_outcome].
  { exists lf. by rewrite app_nil_r. }
  destruct (log_write_holds page pre lf es e Hp Hc Hh) as (lf1 & -> & Hs1 & Hh1).
  cbn [mbind outcome_bind]. destruct (IH lf1 (es ++ [e]) Hp) as (lf' & Hr & Hs' & Hh'); [|done|].
  { destruct Hs1 as (_ & -> & _). done. }
  rewrite <- app_assoc in Hr, Hh'. exists lf'. split_and!; [done| |done].
  by eapply same_file_trans.
Qed.

Lemma next_plain it e rest :
  lf_cipher (li_log_file it) = None → entry_fits e → li_reader it = entry_bytes e ++ rest →
  LogFileIter_next it =
    Ok (Some [], mkLogFileIter (li_log_file it) (li_record_offset it + length (entry_bytes e)) rest
                   (li_record_offset it + length (entry_bytes e))).
Proof.
  intros Hc Hfit Hr. unfold LogFileIter_next. cbn [next_loop].
  by rewrite (read_entry_bytes it e rest Hc Hfit Hr).
Qed.

Lemma drain_plain es n : ∀ fuel it acc,
  lf_cipher (li_log_file it) = None → Forall entry_fits es →
  li_reader it = log_content es ++ replicate n 0%Z → length es < fuel →
  li_valid_end_offset it = li_record_offset it →
  drain_log fuel it acc = Ok (acc, li_record_offset it + length (log_content es)).
Proof.
  induction es as [|e es IH]; intros fuel it acc Hc Hfit Hr Hf Hv.
  - destruct fuel as [|fuel]; [cbn in Hf; lia|]. cbn [drain_log log_content fmap list_fmap concat] in *.
    unfold LogFileIter_next. cbn [next_loop]. rewrite (read_entry_zeros it n Hr). cbn [mbind outcome_bind].
    rewrite Hv. cbn [length]. by rewrite Nat.add_0_r.
  - destruct fuel as [|fuel]; [cbn in Hf; lia|]. apply Forall_cons in Hfit as [He Hfit].
    change (log_content (e :: es)) with (entry_bytes e ++ log_content es) in *.
    rewrite <- app_assoc in Hr. cbn [drain_log]. rewrite (next_plain it e _ Hc He Hr).
    cbn [mbind outcome_bind]. rewrite app_nil_r. rewrite IH; [|done|done|done|cbn in Hf; lia|done].
    cbn [li_record_offset]. rewrite length_app. do 2 f_equal. lia.
Qed.

Lemma length_log_content es : Forall entry_fits es → length es <= length (log_content es).
Proof.
  induction 1 as [|e es He Hes IH]; [done|].
  change (log_content (e :: es)) with (entry_bytes e ++ log_content es).
  rewrite length_app, length_entry_bytes. cbn [length]. lia.
Qed.

(** Replaying a log of written entries pushes none of them. *)
Lemma reload_restores_nothing pre lf es :
  lf_cipher lf = None → Forall entry_fits es → log_holds pre lf es →
  MemTable_reload lf false = Ok ([], 0%Z, log_truncate lf (VLOG_HEADER_SIZE + length (log_content es))).
Proof.
  intros Hc Hfit (Hpre & n & Hb). unfold MemTable_reload, LogFileIter_new.
  rewrite Hb, slice_from_app by done. cbn [mbind outcome_bind]. rewrite <- Hb.
  pose proof (length_log_content es Hfit) as Hl.
  rewrite (drain_plain es n); [|done|done|done| |done].
  2:{ rewrite Hb, !length_app. lia. }
  cbn [mbind outcome_bind]. by rewrite andb_false_r.
Qed.

Lemma new_log_holds fid nonce fsize :
  length nonce = 12 → log_holds (put_u64 0 ++ nonce) (LogFile_new fid None nonce fsize) [].
Proof. intros Hn. split; [by rewrite length_app, length_put_u64, Hn|]. by eexists. Qed.

End WalLemmas.

(* ------------------------------------------------------------------ *)
(** ** Lemmas: writing to the value log *)

(** The bytes [buf] stand at [off]. *)
Definition region (bytes : list Z) (off : nat) (buf : list Z) : Prop :=
  ∃ pre post, bytes = pre ++ buf ++ post ∧ length pre = off.

Lemma region_take bytes off buf n z :
  region bytes off buf → off + length buf <= n → region (take n bytes ++ z) off buf.
Proof.
  intros (pre & post & -> & Hp) Hn. exists pre, (take (n - (off + length buf)) post ++ z).
  split; [|done]. rewrite app_assoc, take_app_ge by (rewrite length_app; lia).
  rewrite length_app, Hp, <- !app_assoc. done.
Qed.

(** [lf'] is [lf] with changes past [n] only. *)
Definition keeps (n : nat) (lf lf' : LogFile) : Prop :=
  same_file lf lf' ∧
  ∀ off buf, off + length buf <= n → region (lf_bytes lf) off buf → region (lf_bytes lf') off buf.

Lemma keeps_refl n lf : keeps n lf lf.
Proof. by split. Qed.

Lemma keeps_trans n m lf1 lf2 lf3 : n <= m → keeps n lf1 lf2 → keeps m lf2 lf3 → keeps n lf1 lf3.
Proof.
  intros Hnm [(H1 & H2 & H3) Hk1] [(H1' & H2' & H3') Hk2]. split; [split_and!; congruence|].
  intros off buf Hle Hr. apply Hk2; [lia|]. by apply Hk1.
Qed.

Lemma keeps_le n m lf lf' : n <= m → keeps m lf lf' → keeps n lf lf'.
Proof. intros Hnm [Hs Hk]. split; [done|]. intros off buf Hle. apply Hk. lia. Qed.

Lemma truncate_keeps n lf : keeps n lf (log_truncate lf n).
Proof. split; [done|]. intros off buf Hle Hr. by apply region_take. Qed.

Lemma truncate_above n m lf : n <= m → keeps n lf (log_truncate lf m).
Proof. intros. eapply keeps_le; [|apply truncate_keeps]. done. Qed.

Lemma write_slice_spec lf o d :
  o + length d <= length (lf_bytes lf) →
  ∃ lf', write_slice lf o d = Ok lf' ∧ keeps o lf lf' ∧ region (lf_bytes lf') o d.
Proof.
  intros Hle. unfold write_slice, assert_or_panic. guard_true. cbn [mbind outcome_bind].
  eexists. split_and!; [done|split; [done|]|]; cbn [lf_bytes].
  - intros off buf Hn Hr. by apply region_take.
  - eexists _, _. split; [done|]. rewrite length_take. lia.
Qed.

Section WriteLemmas.
Context `{!VarInt, !ChecksumCodec, !Aead, !AeadLaws}.

Lemma encode_entry_same lf lf' e off : same_file lf lf' → encode_entry lf' e off = encode_entry lf e off.
Proof. intros (_ & Hc & Hn). unfold encode_entry, log_try_encrypt, generate_nonce. by rewrite Hc, Hn. Qed.

Lemma encode_entry_total lf e off :
  4 <= length (lf_base_nonce lf) → ∃ buf, encode_entry lf e off = Ok (buf, length buf).
Proof.
  intros Hn. unfold encode_entry, log_try_encrypt, generate_nonce.
  assert (length (to_ne_bytes off) = 8) as Hl by done.
  assert (slice_to (lf_base_nonce lf) (12 - length (to_ne_bytes off)) = Ok (take 4 (lf_base_nonce lf))) as ->.
  { rewrite Hl. by apply slice_to_Ok. }
  destruct (lf_cipher lf) as [c|]; cbn [mbind outcome_bind]; eexists; f_equal; f_equal;
    rewrite !length_app, length_put_u32; lia.
Qed.

Definition below_threshold (e : Entry) : bool := length (Entry_value e) <? e_value_threshold e.

(** A written entry: inline, or at its pointer in the file, before [n]. *)
Definition stored_in (lf : LogFile) (n : nat) (y : Entry * ValuePointer) : Prop :=
  if below_threshold y.1 then y.2 = ValuePointer_default
  else ∃ o buf, y.2 = ValuePointer_new (lf_fid lf) (length buf) o ∧
    encode_entry lf (without_txn y.1) o = Ok (buf, length buf) ∧
    region (lf_bytes lf) o buf ∧ o + length buf <= n ∧ VLOG_HEADER_SIZE <= o.

Lemma stored_keeps lf lf' n m y : keeps n lf lf' → n <= m → stored_in lf n y → stored_in lf' m y.
Proof.
  intros [Hs Hk] Hnm. unfold stored_in. destruct (below_threshold _); [done|].
  intros (o & buf & Hp & He & Hr & Hle & Ho). exists o, buf. split_and!.
  - destruct Hs as (-> & _). done.
  - by rewrite (encode_entry_same lf).
  - by apply Hk.
  - lia.
  - done.
Qed.

Lemma write_one_spec th lf off w x :
  4 <= length (lf_base_nonce lf) → VLOG_HEADER_SIZE <= off →
  ∃ lf' off' w' y, write_one th (lf, off, w) x = Ok (lf', off', w', y) ∧
    keeps off lf lf' ∧ off <= off' ∧ stored_in lf' off' y ∧
    y.1 = Entry_try_set_value_threshold x.1 th.
Proof.
  intros Hn Hh. destruct x as [e vptr]. unfold write_one. cbn [fst].
  set (e' := Entry_try_set_value_threshold e th). unfold stored_in, below_threshold.
  destruct (length (Entry_value e') <? e_value_threshold e') eqn:Eb.
  { do 4 eexists. split_and!; [done|apply keeps_refl|done| |done]. cbn [fst snd]. rewrite Eb.
    destruct (ValuePointer_is_empty vptr) eqn:Ev; [|done]. cbn [negb].
    by apply bool_decide_eq_true in Ev. }
  destruct (encode_entry_total lf (without_txn e') off Hn) as (buf & Henc). rewrite Henc.
  cbn [mbind outcome_bind]. set (lf1 := if length (lf_bytes lf) <=? off + length buf then _ else lf).
  assert (keeps off lf lf1 ∧ off + length buf <= length (lf_bytes lf1)) as [Hk1 Hl1].
  { unfold lf1. case_if.
    - split; [apply truncate_above; lia|]. cbn [log_truncate lf_bytes].
      rewrite length_app, length_take, length_replicate. lia.
    - split; [apply keeps_refl|lia]. }
  destruct (write_slice_spec lf1 off buf Hl1) as (lf2 & -> & Hk2 & Hr2). cbn [mbind outcome_bind].
  assert (keeps off lf lf2) as Hk by by eapply keeps_trans.
  do 4 eexists. split_and!; [done|done|lia| |done]. cbn [fst snd]. rewrite Eb.
  exists off, buf. split_and!; [|by rewrite (encode_entry_same lf) by apply Hk|done|done|done].
  destruct Hk as [(-> & _) _]. done.
Qed.

Lemma write_entries_spec th r : ∀ lf off w,
  4 <= length (lf_base_nonce lf) → VLOG_HEADER_SIZE <= off →
  ∃ lf' off' w' r', write_entries th (lf, off, w) r = Ok (lf', off', w', r') ∧
    keeps off lf lf' ∧ off <= off' ∧ Forall (stored_in lf' off') r' ∧
    r'.*1 = (λ e, Entry_try_set_value_threshold e th) <$> r.*1.
Proof.
  induction r as [|x r IH]; intros lf off w Hn Hh; cbn [write_entries].
  { do 4 eexists. split_and!; [done|apply keeps_refl|done|constructor|done]. }
  destruct (write_one_spec th lf off w x Hn Hh) as (lf1 & off1 & w1 & y & -> & Hk1 & Ho1 & Hy & Hy1).
  cbn [mbind outcome_bind]. destruct (IH lf1 off1 w1) as (lf2 & off2 & w2 & r' & -> & Hk2 & Ho2 & Hr & Hr1).
  { destruct Hk1 as [(_ & _ & ->) _]. done. }
  { lia. }
  cbn [mbind outcome_bind]. do 4 eexists. split_and!; [done|by eapply keeps_trans|lia| |].
  - constructor; [|done]. by eapply stored_keeps.
  - cbn. by rewrite Hy1, Hr1.
Qed.

(** The latest file is there, and is written after its header. *)
Definition vl_ok (vl : ValueLog) : Prop :=
  (0 <= vl_max_fid vl)%Z ∧ VLOG_HEADER_SIZE <= vl_writable_log_offset vl ∧
  ∃ lf, vl_fid_logfile vl !! vl_max_fid vl = Some lf ∧ lf_fid lf = vl_max_fid vl ∧
    4 <= length (lf_base_nonce lf).

(** A written entry of the value log: inline, or at its pointer. *)
Definition saved (vl : ValueLog) (y : Entry * ValuePointer) : Prop :=
  below_threshold y.1 = true ∧ y.2 = ValuePointer_default ∨
  below_threshold y.1 = false ∧
  ∃ fid lf o buf, vl_fid_logfile vl !! fid = Some lf ∧ y.2 = ValuePointer_new fid (length buf) o ∧
    encode_entry lf (without_txn y.1) o = Ok (buf, length buf) ∧ region (lf_bytes lf) o buf ∧
    (fid <= vl_max_fid vl)%Z ∧ (fid = vl_max_fid vl → o + length buf <= vl_writable_log_offset vl) ∧
    VLOG_HEADER_SIZE <= o.

(** Changing the latest file past the write offset. *)
Lemma saved_update vl lf lf' off' cnt y :
  vl_fid_logfile vl !! vl_max_fid vl = Some lf → keeps (vl_writable_log_offset vl) lf lf' →
  vl_writable_log_offset vl <= off' → saved vl y →
  saved (mkValueLog (<[vl_max_fid vl := lf']> (vl_fid_logfile vl)) (vl_max_fid vl) off' cnt (vl_config vl)) y.
Proof.
  intros Hlf [Hs Hk] Ho [?|(Hb & fid & lf0 & o & buf & Hf & Hp & He & Hr & Hle & Hmax & Hho)]; [by left|].
  right. split; [done|]. cbn [vl_fid_logfile vl_max_fid vl_writable_log_offset].
  destruct (decide (fid = vl_max_fid vl)) as [->|Hne].
  - simplify_eq. specialize (Hmax eq_refl). exists (vl_max_fid vl), lf', o, buf.
    rewrite lookup_insert_eq. split_and!; [done|done| | |done|lia|done].
    + by rewrite (encode_entry_same lf).
    + by apply Hk.
  - exists fid, lf0, o, buf. rewrite lookup_insert_ne by done. split_and!; try done.
Qed.

Lemma rotate_spec latest vl :
  vl_ok vl → (vl_max_fid vl + 1 < 2 ^ 32)%Z →
  ∃ vl', rotate latest vl = Ok vl' ∧ vl_ok vl' ∧ (∀ y, saved vl y → saved vl' y) ∧
    (vl_max_fid vl' <= vl_max_fid vl + 1)%Z.
Proof.
  intros [Hpos [Hwo (lf & Hlf & Hfid & Hn)]] Hmax. unfold rotate. case_if.
  2:{ exists vl. split_and!; [done|split_and!; [done|done|by exists lf]|done|lia]. }
  unfold get_latest_logfile. rewrite Hlf. cbn [mbind outcome_bind]. unfold create_vlog_file.
  cbn [vl_max_fid vl_config vl_fid_logfile]. rewrite u32_add_Ok by lia. cbn [mbind outcome_bind].
  eexists. split_and!; [done| | |cbn; lia].
  - split_and!; [cbn; lia|done|]. cbn [vl_fid_logfile vl_max_fid]. rewrite lookup_insert_eq.
    eexists. split_and!; [done|done|]. cbn. rewrite length_nonce_at. unfold NONCE_SIZE. lia.
  - intros y Hy.
    pose proof (saved_update vl lf (log_truncate lf (vl_writable_log_offset vl))
      (vl_writable_log_offset vl) (vl_num_entries_written vl) y Hlf (truncate_keeps _ _) (le_n _) Hy) as Hs.
    destruct Hs as [?|(Hb & fid & lf0 & o & buf & Hf & Hp & He & Hr & Hle & _ & Hho)]; [by left|].
    right. split; [done|]. cbn [vl_fid_logfile vl_max_fid vl_writable_log_offset] in *.
    exists fid, lf0, o, buf. rewrite lookup_insert_ne by lia. split_and!; [done..|lia|lia|done].
Qed.

Lemma write_req_spec th latest vl r :
  vl_ok vl → (vl_max_fid vl + 1 < 2 ^ 32)%Z →
  ∃ vl' r', write_req th latest vl r = Ok (vl', r') ∧ vl_ok vl' ∧ (∀ y, saved vl y → saved vl' y) ∧
    Forall (saved vl') r' ∧ (vl_max_fid vl' <= vl_max_fid vl + 1)%Z ∧
    r'.*1 = (λ e, Entry_try_set_value_threshold e th) <$> r.*1.
Proof.
  intros [Hpos [Hwo (lf & Hlf & Hfid & Hn)]] Hmax. unfold write_req, get_latest_logfile. rewrite Hlf.
  cbn [mbind outcome_bind].
  destruct (write_entries_spec th r lf (vl_writable_log_offset vl) 0 Hn Hwo)
    as (lf' & off' & w' & r' & -> & Hk & Ho & Hst & Hr1). cbn [mbind outcome_bind].
  set (vl1 := mkValueLog _ _ _ _ _).
  destruct (rotate_spec latest vl1) as (vl' & -> & Hok' & Hsv & Hm); [|done|].
  { split_and!; [done|cbn; lia|]. exists lf'. unfold vl1. cbn [vl_fid_logfile vl_max_fid]. rewrite lookup_insert_eq.
    destruct Hk as [(Hf & _ & Hno) _]. split_and!; [done|congruence|by rewrite Hno]. }
  cbn [mbind outcome_bind]. do 2 eexists. split_and!; [done|done| | |done|done].
  - intros y Hy. apply Hsv. by eapply saved_update.
  - eapply Forall_impl; [exact Hst|]. intros y Hy. apply Hsv. unfold stored_in in Hy.
    unfold saved. destruct (below_threshold y.1); [by left|right]. split; [done|].
    destruct Hy as (o & buf & Hp & He & Hr & Hle & Hho). destruct Hk as [(Hf & _) _].
    exists (vl_max_fid vl), lf', o, buf. unfold vl1. cbn [vl_fid_logfile vl_max_fid vl_writable_log_offset].
    rewrite lookup_insert_eq. split_and!; [done|congruence|done|done|lia|done|done].
Qed.

Lemma write_reqs_spec th latest reqs : ∀ vl,
  vl_ok vl → (vl_max_fid vl + Z.of_nat (length reqs) + 1 < 2 ^ 32)%Z →
  ∃ vl' reqs', write_reqs th latest vl reqs = Ok (vl', reqs') ∧ vl_ok vl' ∧
    (∀ y, saved vl y → saved vl' y) ∧ Forall (Forall (saved vl')) reqs' ∧
    (λ r : req, r.*1) <$> reqs' =
      (λ r : req, (λ e, Entry_try_set_value_threshold e th) <$> r.*1) <$> reqs.
Proof.
  induction reqs as [|r reqs IH]; intros vl Hok Hmax; cbn [write_reqs].
  { destruct (rotate_spec latest vl Hok) as (vl' & -> & Hok' & Hsv & _); [cbn in Hmax; lia|].
    do 2 eexists. split_and!; [done|done|done|constructor|done]. }
  cbn [length] in Hmax.
  destruct (write_req_spec th latest vl r Hok) as (vl1 & r' & -> & Hok1 & Hsv1 & Hr1 & Hm1 & He1); [lia|].
  cbn [mbind outcome_bind]. destruct (IH vl1 Hok1) as (vl2 & rs & -> & Hok2 & Hsv2 & Hrs & Hes); [lia|].
  cbn [mbind outcome_bind]. do 2 eexists. split_and!; [done|done|auto| |].
  - constructor; [|done]. eapply Forall_impl; [exact Hr1|auto].
  - cbn. by rewrite He1, Hes.
Qed.

End WriteLemmas.

(* ------------------------------------------------------------------ *)
(** ** Theorems *)

Section VlogTheorems.
Context `{!VarInt, !VarIntLaws, !VarIntRead, !VarIntReadLaws, !ChecksumCodec, !ChecksumLaws,
  !Aead, !AeadLaws}.

(** The header of an entry: decoding an encoded header from a slice gives it
    back with the number of bytes it takes, at most 22; decoding it from a reader
    gives the same lengths and expiry but clears both flag bytes. *)
Theorem vlog_header_roundtrip h rest :
  header_wf h →
  header_decode (header_encode h ++ rest) = Ok (h, length (header_encode h)) ∧
  length (header_encode h) <= MAX_HEADER_SIZE ∧
  header_decode_from (header_encode h ++ rest) = IoOk (without_flags h, length (header_encode h)).
Proof.
  intros Hw. split_and!.
  - by apply header_decode_encode.
  - by apply header_encode_short.
  - by apply header_decode_from_encode.
Qed.

(** An entry written to a log without a cipher is read back from where it was
    written with its key, version and value, the checksum passes, the pointer
    names the file, offset and length of the record, and the reader stands after
    it; the flags and the expiry of the entry are lost. *)
Theorem log_entry_read lf e offset buf size rest end_ :
  lf_cipher lf = None → entry_fits e → encode_entry lf e offset = Ok (buf, size) →
  ∃ header_len,
    read_entry (mkLogFileIter lf offset (buf ++ rest) end_) =
      Ok (IoOk (mkEntry (e_key_ts e) (mkValueMeta (Entry_value e) 0 0 0) offset header_len 0,
            ValuePointer_new (lf_fid lf) size offset,
            mkLogFileIter lf (offset + size) rest end_)) ∧ size = length buf.
Proof.
  intros Hc Hfit Henc. rewrite encode_entry_plain in Henc by done. injection Henc as <- <-.
  eexists. split; [|done].
  by rewrite (read_entry_bytes (mkLogFileIter lf offset (entry_bytes e ++ rest) end_) e rest).
Qed.

(** Writing to the value log: for requests that pass the size check, the
    write returns, and afterwards every entry either is below its threshold and
    has no pointer, or has a pointer to a region of a file of the log that holds
    exactly its encoding without the transaction flags, across file rotations and
    with or without a cipher; what was stored before stays stored. *)
Theorem vlog_write_stores threshold latest vl reqs :
  vl_ok vl → validate_write vl reqs = Ok () →
  (vl_max_fid vl + Z.of_nat (length reqs) + 1 < 2 ^ 32)%Z →
  ∃ vl' reqs', ValueLog_write threshold latest vl reqs = Ok (vl', reqs') ∧
    (λ r : req, r.*1) <$> reqs' =
      (λ r : req, (λ e, Entry_try_set_value_threshold e threshold) <$> r.*1) <$> reqs ∧
    Forall (Forall (saved vl')) reqs' ∧ (∀ y, saved vl y → saved vl' y) ∧ vl_ok vl'.
Proof.
  intros Hok Hval Hmax. unfold ValueLog_write. rewrite Hval. cbn [mbind outcome_bind].
  assert (∃ lf, get_latest_logfile vl = Ok lf) as [lf ->].
  { destruct Hok as [_ [_ (lf & Hlf & _)]]. exists lf. unfold get_latest_logfile. by rewrite Hlf. }
  cbn [mbind outcome_bind].
  destruct (write_reqs_spec threshold latest reqs vl Hok Hmax) as (vl' & reqs' & -> & Hok' & Hsv & Hall & He).
  by exists vl', reqs'.
Qed.

End VlogTheorems.

(** ** Witnesses *)

Module VlogExamples.

(** The reader of the base-128 format. *)
#[export] Instance leb_read : VarIntRead | 100 := {|
  read_varint _ l := match leb_decode l with Some r => IoOk r | None => UnexpectedEof end
|}.

#[export] Instance leb_read_laws : VarIntReadLaws (H := leb128) (H0 := leb_read) | 100.
Proof.
  split; cbn [read_varint leb_read encode_var required_space leb128].
  - intros w v rest Hw Hv. rewrite leb_decode_encode; [done|done|].
    unfold in_width in Hv. destruct Hw as [-> | ->]; cbn in *; lia.
  - done.
  - done.
Qed.

Definition header : VlogEntryHeader := mkHeader 300 5 7 64 1.

Lemma vlog_header_witness : header_decode (header_encode header ++ [1]%Z) = Ok (header, 6).
Proof.
  destruct (vlog_header_roundtrip header [1]%Z) as [Hd _].
  - split; [|split]; vm_compute; split; congruence.
  - exact Hd.
Defined.

(** A deletion, flagged as part of a transaction. *)
Definition e1 : Entry := mkEntry (mkKeyTs [97]%Z 5) (mkValueMeta [1; 2]%Z 9 3 65) 0 0 0.
Definition e2 : Entry := mkEntry (mkKeyTs [98]%Z 5) (mkValueMeta [] 0 0 64) 0 0 0.
Definition nonce : list Z := replicate 12 7%Z.
Definition log : LogFile := LogFile_new 1 None nonce 64.
Definition enc1 : list Z * nat := match encode_entry log e1 20 with Ok r => r | _ => ([], 0) end.

Lemma entries_fit : Forall entry_fits [e1; e2].
Proof.
  repeat (apply Forall_cons; split; [split_and!; vm_compute; intuition congruence|]). apply Forall_nil. exact I.
Defined.

Lemma log_entry_read_witness :
  ∃ header_len, read_entry (mkLogFileIter log 20 (enc1.1 ++ [0; 0]%Z) 20) =
    Ok (IoOk (mkEntry (mkKeyTs [97]%Z 5) (mkValueMeta [1; 2]%Z 0 0 0) 20 header_len 0,
          ValuePointer_new 1 enc1.2 20, mkLogFileIter log (20 + enc1.2) [0; 0]%Z 20)) ∧
    enc1.2 = length enc1.1.
Proof.
  apply (log_entry_read log e1 20 enc1.1 enc1.2 [0; 0]%Z 20).
  - reflexivity.
  - apply (Forall_inv entries_fit).
  - vm_compute. reflexivity.
Defined.

(** A value log whose file is full after the first request. *)
Definition vlog : ValueLog := mkValueLog {[1%Z := log]} 1 20 0 (mkValueLogConfig 32 10).

Lemma vlog_write_witness :
  ∃ vl' reqs', ValueLog_write 2 None vlog [[(e1, ValuePointer_default)]; [(e2, ValuePointer_default)]] =
    Ok (vl', reqs') ∧ Forall (Forall (saved vl')) reqs'.
Proof.
  destruct (vlog_write_stores 2 None vlog [[(e1, ValuePointer_default)]; [(e2, ValuePointer_default)]])
    as (vl' & reqs' & Hw & _ & Hs & _).
  - split; [vm_compute; congruence|]. split; [vm_compute; lia|]. exists log. split; [reflexivity|]. split; [reflexivity|].
    vm_compute. lia.
  - vm_compute. reflexivity.
  - vm_compute. reflexivity.
  - exists vl', reqs'. split; [exact Hw|exact Hs].
Defined.

End VlogExamples.
