(* ===== verification/Arena.v ===== *)
(** * Arena: the bump allocator of the memtables (src/src/util/arena.rs)

    An arena hands out addresses of one chunk of memory; a pointer is its
    distance from the start of the chunk.  Memory is typed: the nodes and the
    byte slices that were written live in two maps by address, and reading where
    nothing of that type was written, undefined in the code, is [Panic].  The
    first eight bytes are taken by a word, so that an offset below 8 is the null
    pointer.  [page] is the page size of the system. *)
From stdpp Require Import base list gmap.
From Stdlib Require Import ZArith Lia.
From S2P Require Import Prelude.

Local Open Scope Z_scope.

Definition CHUNK_ALIGN : Z := 16.
Definition DEFAULT_ALIGN : Z := 8.
Definition ISIZE_MAX : Z := 2 ^ 63 - 1.

Definition is_power_of_two (z : Z) : bool := (0 <? z) && (Z.land z (z - 1) =? 0).

(** [round_up_to(n, divisor).unwrap()] *)
Definition round_up_to (n divisor : Z) : outcome Z :=
  _ ← assert_or_panic (0 <? divisor);
  _ ← assert_or_panic (is_power_of_two divisor);
  if n + (divisor - 1) <=? U64_MAX
  then Ok (Z.land (n + (divisor - 1)) (Z.lnot (divisor - 1)))
  else Panic.

(** The state of an arena whose nodes have type [N]. *)
Record Arena (N : Type) : Type := mkArena {
  ar_ptr_offset : Z;
  ar_size : Z;
  ar_nodes : gmap Z N;
  ar_slices : gmap Z (list Z)
}.

Arguments mkArena {N} _ _ _ _.
Arguments ar_ptr_offset {N} _.
Arguments ar_size {N} _.
Arguments ar_nodes {N} _.
Arguments ar_slices {N} _.

Section ArenaCode.
Context {N : Type}.
Implicit Types ar : Arena N.

(** [alloc_layout]: the old offset, and the arena after the addition. *)
Definition alloc_layout ar (size align : Z) : outcome (Z * Arena N) :=
  let align := Z.max align DEFAULT_ALIGN in
  alloc_size ← round_up_to size align;
  let old := ar_ptr_offset ar in
  _ ← assert_or_panic (old `mod` 8 =? 0);
  if ar_size ar <? old + alloc_size then Panic
  else Ok (old, mkArena (u64 (old + alloc_size)) (ar_size ar) (ar_nodes ar) (ar_slices ar)).

(** [Arena::new]: the word that keeps offset 0 free is allocated at once. *)
Definition Arena_new (page size : Z) : outcome (Arena N) :=
  _ ← assert_or_panic (size + 8 <=? U64_MAX);
  request_size ← round_up_to (size + 8) CHUNK_ALIGN;
  request_size ← (if page <=? request_size then round_up_to request_size page else Ok request_size);
  _ ← assert_or_panic (request_size `mod` CHUNK_ALIGN =? 0);
  _ ← assert_or_panic (request_size <=? ISIZE_MAX - (CHUNK_ALIGN - 1));
  '(_, ar) ← alloc_layout (mkArena 0 request_size ∅ ∅) 8 8;
  Ok ar.

(** [alloc_with] for a node of [size] bytes, and [alloc_slice_copy] of bytes. *)
Definition alloc_with ar (size : Z) (n : N) : outcome (Z * Arena N) :=
  '(p, ar) ← alloc_layout ar size 8;
  Ok (p, mkArena (ar_ptr_offset ar) (ar_size ar) (<[p := n]> (ar_nodes ar)) (ar_slices ar)).

Definition alloc_slice_copy ar (src : list Z) : outcome (Z * Arena N) :=
  '(p, ar) ← alloc_layout ar (Z.of_nat (length src)) 1;
  Ok (p, mkArena (ar_ptr_offset ar) (ar_size ar) (ar_nodes ar) (<[p := src]> (ar_slices ar))).

(** [get]: the pointer of an offset; [deref] reads the node there. *)
Definition arena_get (offset : Z) : option Z := if offset <? 8 then None else Some offset.

Definition deref ar (p : Z) : outcome N := unwrap (ar_nodes ar !! p).

(** Writing to the node at a pointer. *)
Definition store_node ar (p : Z) (n : N) : Arena N :=
  mkArena (ar_ptr_offset ar) (ar_size ar) (<[p := n]> (ar_nodes ar)) (ar_slices ar).

Definition get_slice ar (offset len : Z) : outcome (option (list Z)) :=
  if offset <? 8 then Ok None
  else if len =? 0 then Ok (Some [])
  else bs ← unwrap (ar_slices ar !! offset); r ← slice_to bs (Z.to_nat len); Ok (Some r).

(** [offset] of a pointer that may be null, and [offset_slice]. *)
Definition arena_offset (p : option Z) : outcome (option Z) :=
  match p with
  | None => Ok None
  | Some p => _ ← assert_or_panic (0 <? p); Ok (Some (u32 p))
  end.

Definition offset_slice (p : Z) : outcome Z := _ ← assert_or_panic (0 <? p); Ok (u32 p).

(** [len] *)
Definition arena_len ar : Z := ar_ptr_offset ar.

End ArenaCode.

(* ------------------------------------------------------------------ *)
(** ** Lemmas *)

(** The bytes an allocation of [n] takes. *)
Definition round8 (n : Z) : Z := Z.land (n + 7) (Z.lnot 7).

Lemma land_lnot_ones a n : 0 <= n → Z.land a (Z.lnot (2 ^ n - 1)) = a - a `mod` 2 ^ n.
Proof.
  intros Hn. rewrite <- Z.ldiff_land. replace (2 ^ n - 1) with (Z.ones n) by (rewrite Z.ones_equiv; lia).
  rewrite Z.ldiff_ones_r, Z.shiftl_mul_pow2, Z.shiftr_div_pow2 by done.
  pose proof (Z.div_mod a (2 ^ n)). lia.
Qed.

Lemma round8_spec n : round8 n = n + 7 - (n + 7) `mod` 8.
Proof. unfold round8. by apply (land_lnot_ones _ 3). Qed.

Lemma round8_bounds n : n <= round8 n < n + 8 ∧ round8 n `mod` 8 = 0.
Proof. rewrite round8_spec. split; [|]; Z.div_mod_to_equations; lia. Qed.

Lemma round_up_8 n : 0 <= n <= U64_MAX - 7 → round_up_to n 8 = Ok (round8 n).
Proof.
  intros. unfold round_up_to. change (is_power_of_two 8) with true. cbn [assert_or_panic mbind outcome_bind].
  change (8 - 1) with 7. rewrite (proj2 (Z.leb_le (n + 7) U64_MAX)) by lia. done.
Qed.

Section ArenaLemmas.
Context {N : Type}.
Implicit Types ar : Arena N.

(** An arena in use: 8-aligned, inside its chunk, the chunk addressable by [u32]. *)
Definition arena_wf ar : Prop :=
  8 <= ar_ptr_offset ar <= ar_size ar ∧ ar_ptr_offset ar `mod` 8 = 0 ∧ ar_size ar < 2 ^ 32.

(** An allocation succeeds exactly when it fits. *)
Lemma alloc_layout_spec ar size align :
  arena_wf ar → 0 <= size < 2 ^ 62 → align <= 8 →
  alloc_layout ar size align =
    if decide (ar_ptr_offset ar + round8 size <= ar_size ar)
    then Ok (ar_ptr_offset ar,
             mkArena (ar_ptr_offset ar + round8 size) (ar_size ar) (ar_nodes ar) (ar_slices ar))
    else Panic.
Proof.
  intros (Hp & Hm & Hs) Hsz Hal. unfold alloc_layout. rewrite Z.max_r by (unfold DEFAULT_ALIGN; lia).
  unfold DEFAULT_ALIGN. rewrite round_up_8 by (unfold U64_MAX; lia). cbn [mbind outcome_bind].
  rewrite Hm. cbn [Z.eqb assert_or_panic mbind outcome_bind].
  pose proof (round8_bounds size). case_decide.
  - rewrite (proj2 (Z.ltb_ge _ _)) by lia. unfold u64. by rewrite Z.mod_small by lia.
  - by rewrite (proj2 (Z.ltb_lt _ _)) by lia.
Qed.

Lemma arena_wf_grow ar n ns ss :
  arena_wf ar → 0 <= n → ar_ptr_offset ar + round8 n <= ar_size ar →
  arena_wf (mkArena (ar_ptr_offset ar + round8 n) (ar_size ar) ns ss).
Proof.
  intros (Hp & Hm & Hs) Hn Hfit. pose proof (round8_bounds n) as [? Hr].
  repeat split; cbn; [lia|lia| |lia]. rewrite Z.add_mod, Hm, Hr by lia. done.
Qed.

(** Bytes [bs] are stored at [off]; empty slices take no room. *)
Definition has_slice ar (off : Z) (bs : list Z) : Prop :=
  8 <= off ∧ (bs = [] ∨ ar_slices ar !! off = Some bs ∧ off < ar_ptr_offset ar).

Lemma get_slice_has ar off bs n :
  has_slice ar off bs → Z.to_nat n = length bs → 0 <= n → get_slice ar off n = Ok (Some bs).
Proof.
  intros [Hoff Hbs] Hn Hn0. unfold get_slice. rewrite (proj2 (Z.ltb_ge _ _)) by lia.
  destruct Hbs as [->|[Hl _]].
  - cbn in Hn. by rewrite (proj2 (Z.eqb_eq _ _)) by lia.
  - destruct (Z.eqb_spec n 0) as [->|Hne].
    { destruct bs; [done|]. cbn in Hn. lia. }
    rewrite Hl. cbn [unwrap mbind outcome_bind]. rewrite Hn, slice_to_Ok by lia.
    cbn [mbind outcome_bind]. by rewrite firstn_all.
Qed.

Lemma alloc_slice_copy_spec ar src :
  arena_wf ar → Z.of_nat (length src) < 2 ^ 62 →
  alloc_slice_copy ar src =
    let n := round8 (Z.of_nat (length src)) in
    if decide (ar_ptr_offset ar + n <= ar_size ar)
    then Ok (ar_ptr_offset ar,
             mkArena (ar_ptr_offset ar + n) (ar_size ar) (ar_nodes ar) (<[ar_ptr_offset ar := src]> (ar_slices ar)))
    else Panic.
Proof.
  intros Hwf Hsz. unfold alloc_slice_copy. rewrite alloc_layout_spec by (done || lia). by case_decide.
Qed.

Lemma has_slice_alloc ar src off bs :
  has_slice ar off bs →
  has_slice (mkArena (ar_ptr_offset ar + round8 (Z.of_nat (length src))) (ar_size ar) (ar_nodes ar)
               (<[ar_ptr_offset ar := src]> (ar_slices ar))) off bs.
Proof.
  intros [Hoff Hbs]. split; [done|]. destruct Hbs as [->|[Hl Hlt]]; [by left|right]. cbn.
  pose proof (round8_bounds (Z.of_nat (length src))). rewrite lookup_insert_ne by lia. split; [done|lia].
Qed.

Lemma has_slice_new ar src :
  8 <= ar_ptr_offset ar →
  has_slice (mkArena (ar_ptr_offset ar + round8 (Z.of_nat (length src))) (ar_size ar) (ar_nodes ar)
               (<[ar_ptr_offset ar := src]> (ar_slices ar))) (ar_ptr_offset ar) src.
Proof.
  intros Hp. split; [done|]. destruct src as [|x src]; [by left|right]. cbn [ar_slices ar_ptr_offset].
  rewrite lookup_insert_eq. split; [done|]. pose proof (round8_bounds (Z.of_nat (length (x :: src)))).
  cbn [length] in *. lia.
Qed.

End ArenaLemmas.
