(* ===== verification/SkipList.v ===== *)
(** * SkipList: the ordered map of a memtable (src/src/util/skip_list.rs)

    A node has a tower of offsets, one per level, and the offset of its
    predecessor; level 0 links all nodes in the order of [cmp], level [h] those
    whose height is above [h].  The list lives in an arena (Arena.v) and starts
    at a head without key.

    [push] is written with compare-and-exchange and retry loops, for writers that
    share the list.  The model runs one operation at a time, as the memtable does
    (its [push] takes the table exclusively): an exchange compares with the
    current state, the retries are there with a bound, and the theorems hold for
    any bound from one.  The coin flips of [random_height] are an argument. *)
From stdpp Require Import base list gmap.
From Stdlib Require Import ZArith Lia.
From S2P Require Import Prelude VarInt Kv Iter Arena.

Local Open Scope nat_scope.

Definition SKL_MAX_HEIGHT : nat := 20.

(** [size_of::<Node>()]: 8 + 4 + 2 + 2 + 4 + 20 * 4 bytes, aligned to 8. *)
Definition SKL_MAX_NODE_SIZE : Z := 104.

(** ** Nodes *)

Record Node : Type := mkNode {
  nd_value_slice : Z;
  nd_key_offset : Z;
  nd_key_len : Z;
  nd_height : Z;
  nd_prev : Z;
  nd_tower : list Z
}.

Definition Node_default : Node := mkNode 0 0 0 0 0 (replicate SKL_MAX_HEIGHT 0%Z).

Definition with_value_slice (n : Node) (v : Z) : Node :=
  mkNode v (nd_key_offset n) (nd_key_len n) (nd_height n) (nd_prev n) (nd_tower n).

Definition with_prev (n : Node) (prev : Z) : Node :=
  mkNode (nd_value_slice n) (nd_key_offset n) (nd_key_len n) (nd_height n) prev (nd_tower n).

Definition with_tower (n : Node) (tower : list Z) : Node :=
  mkNode (nd_value_slice n) (nd_key_offset n) (nd_key_len n) (nd_height n) (nd_prev n) tower.

(** [a[i] = x] *)
Definition set_idx {A} (l : list A) (i : nat) (x : A) : outcome (list A) :=
  if i <? length l then Ok (<[i := x]> l) else Panic.

Abbreviation arena := (Arena Node).

(** [Node::set_value] *)
Definition Node_set_value (ar : arena) (node : Z) (value : list Z) : outcome arena :=
  '(value_p, ar) ← alloc_slice_copy ar value;
  offset ← offset_slice value_p;
  let v := Z.lor (Z.shiftl offset 32) (u64 (Z.of_nat (length value))) in
  n ← deref ar node;
  Ok (store_node ar node (with_value_slice n v)).

(** [Node::new] *)
Definition Node_new (ar : arena) (key value : list Z) (height : nat) : outcome (Z * arena) :=
  '(node, ar) ← alloc_with ar SKL_MAX_NODE_SIZE Node_default;
  '(key_p, ar) ← alloc_slice_copy ar key;
  key_offset ← offset_slice key_p;
  n ← deref ar node;
  let ar := store_node ar node
              (mkNode (nd_value_slice n) key_offset (u16 (Z.of_nat (length key)))
                 (u16 (Z.of_nat height)) 8 (nd_tower n)) in
  ar ← Node_set_value ar node value;
  Ok (node, ar).

Definition Node_value_slice (n : Node) : Z * Z :=
  (u32 (Z.shiftr (nd_value_slice n) 32), u32 (nd_value_slice n)).

Definition Node_get_key (ar : arena) (node : Z) : outcome (option (list Z)) :=
  n ← deref ar node; get_slice ar (nd_key_offset n) (nd_key_len n).

Definition Node_get_value (ar : arena) (node : Z) : outcome (option (list Z)) :=
  n ← deref ar node;
  let '(offset, len) := Node_value_slice n in
  get_slice ar offset len.

Definition Node_next (ar : arena) (node : Z) (level : nat) : outcome (option Z) :=
  n ← deref ar node; off ← idx (nd_tower n) level; Ok (arena_get off).

Definition Node_prev (ar : arena) (node : Z) : outcome (option Z) :=
  n ← deref ar node; Ok (arena_get (nd_prev n)).

(** ** The list *)

Record SkipListInner : Type := mkSkipList {
  sk_height : nat;
  sk_head : Z;
  sk_arena : arena
}.

Definition with_arena (sk : SkipListInner) (ar : arena) : SkipListInner :=
  mkSkipList (sk_height sk) (sk_head sk) ar.

Definition SkipListInner_new (page arena_size : Z) : outcome SkipListInner :=
  ar ← Arena_new page arena_size;
  '(head, ar) ← alloc_with ar SKL_MAX_NODE_SIZE
                  (mkNode 0 0 0 (u16 (Z.of_nat SKL_MAX_HEIGHT)) 0 (replicate SKL_MAX_HEIGHT 0%Z));
  Ok (mkSkipList 1 head ar).

Definition head_offset (sk : SkipListInner) : outcome Z :=
  o ← arena_offset (Some (sk_head sk)); unwrap o.

(** [random_height]: heads of the flips, at most [SKL_MAX_HEIGHT]. *)
Fixpoint random_height_from (h : nat) (flips : list bool) : nat :=
  match flips with
  | flip :: rest => if (h <? SKL_MAX_HEIGHT) && flip then random_height_from (S h) rest else h
  | [] => h
  end.

Definition random_height (flips : list bool) : nat := random_height_from 1 flips.

(** A null pointer is [None]. *)
Definition try_set_value (sk : SkipListInner) (ptr : option Z) (value : list Z) : outcome SkipListInner :=
  match ptr with
  | Some node =>
      v ← Node_get_value (sk_arena sk) node;
      if bool_decide (v = Some value) then Ok sk
      else ar ← Node_set_value (sk_arena sk) node value; Ok (with_arena sk ar)
  | None => Panic
  end.

(** [node.tower[h].store(..)] and [node.prev.store(..)] *)
Definition store_tower (sk : SkipListInner) (node : Z) (h : nat) (offset : Z) : outcome SkipListInner :=
  n ← deref (sk_arena sk) node;
  tower ← set_idx (nd_tower n) h offset;
  Ok (with_arena sk (store_node (sk_arena sk) node (with_tower n tower))).

Definition store_prev (sk : SkipListInner) (node offset : Z) : outcome SkipListInner :=
  n ← deref (sk_arena sk) node;
  Ok (with_arena sk (store_node (sk_arena sk) node (with_prev n offset))).

(** [compare_exchange]: whether it took place. *)
Definition exchange_tower (sk : SkipListInner) (node : Z) (h : nat) (old new : Z) :
    outcome (bool * SkipListInner) :=
  n ← deref (sk_arena sk) node;
  cur ← idx (nd_tower n) h;
  if (cur =? old)%Z then sk ← store_tower sk node h new; Ok (true, sk) else Ok (false, sk).

Definition exchange_prev (sk : SkipListInner) (node old new : Z) : outcome (bool * SkipListInner) :=
  n ← deref (sk_arena sk) node;
  if (nd_prev n =? old)%Z then sk ← store_prev sk node new; Ok (true, sk) else Ok (false, sk).

Section SkipListCode.
Context (cmp : list Z → list Z → comparison).

(** ** Searching *)

(** A search meets each node at most once on its way. *)
Definition list_fuel (sk : SkipListInner) : nat := S (size (ar_nodes (sk_arena sk))).

Fixpoint find_splice_loop (fuel : nat) (ar : arena) (key : list Z) (before_ptr : option Z) (height : nat) :
    outcome (option Z * option Z) :=
  match fuel with
  | 0 => Panic
  | S fuel =>
      match before_ptr with
      | Some before =>
          o ← Node_next ar before height;
          match o with
          | Some next =>
              k ← Node_get_key ar next;
              match k with
              | Some next_key =>
                  match cmp key next_key with
                  | Lt => Ok (before_ptr, Some next)
                  | Eq => Ok (Some next, Some next)
                  | Gt => find_splice_loop fuel ar key (Some next) height
                  end
              | None => Ok (before_ptr, None)
              end
          | None => Ok (before_ptr, None)
          end
      | None => Ok (before_ptr, None)
      end
  end.

Definition find_splice_for_level (sk : SkipListInner) (key : list Z) (before_ptr : option Z) (height : nat) :
    outcome (option Z * option Z) :=
  find_splice_loop (list_fuel sk) (sk_arena sk) key before_ptr height.

(** The loops of [find_or_near], [find_next], [find_prev] and [find_last] go
    right or down on each turn. *)
Definition descent_fuel (sk : SkipListInner) : nat := list_fuel sk + SKL_MAX_HEIGHT.

Fixpoint find_or_near_loop (fuel : nat) (ar : arena) (key : list Z) (allow_near : bool) (node : Z)
    (level : nat) : outcome (option Z) :=
  match fuel with
  | 0 => Panic
  | S fuel =>
      o ← Node_next ar node level;
      match o with
      | Some next =>
          k ← Node_get_key ar next;
          next_key ← unwrap k;
          match cmp key next_key with
          | Lt =>
              match level with
              | S level => find_or_near_loop fuel ar key allow_near node level
              | 0 => if allow_near then Ok (Some next) else Ok None
              end
          | Eq => Ok (Some next)
          | Gt => find_or_near_loop fuel ar key allow_near next level
          end
      | None =>
          match level with
          | S level => find_or_near_loop fuel ar key allow_near node level
          | 0 => Ok None
          end
      end
  end.

Definition find_or_near (sk : SkipListInner) (key : list Z) (allow_near : bool) : outcome (option Z) :=
  level ← usub (sk_height sk) 1;
  find_or_near_loop (descent_fuel sk) (sk_arena sk) key allow_near (sk_head sk) level.

Fixpoint find_next_loop (fuel : nat) (ar : arena) (key : list Z) (node : Z) (level : nat) :
    outcome (option Z) :=
  match fuel with
  | 0 => Panic
  | S fuel =>
      o ← Node_next ar node level;
      match o with
      | Some next =>
          k ← Node_get_key ar next;
          next_key ← unwrap k;
          match cmp key next_key with
          | Lt =>
              match level with
              | S level => find_next_loop fuel ar key node level
              | 0 => Ok (Some next)
              end
          | Eq => Node_next ar next 0
          | Gt => find_next_loop fuel ar key next level
          end
      | None =>
          match level with
          | S level => find_next_loop fuel ar key node level
          | 0 => Ok None
          end
      end
  end.

Definition find_next (sk : SkipListInner) (key : list Z) : outcome (option Z) :=
  level ← usub (sk_height sk) 1;
  find_next_loop (descent_fuel sk) (sk_arena sk) key (sk_head sk) level.

Fixpoint find_prev_loop (fuel : nat) (ar : arena) (head : Z) (key : list Z) (node : Z) (level : nat) :
    outcome (option Z) :=
  match fuel with
  | 0 => Panic
  | S fuel =>
      o ← Node_next ar node level;
      right ← match o with
              | Some next =>
                  k ← Node_get_key ar next;
                  next_key ← unwrap k;
                  Ok (match cmp key next_key with Gt => Some next | _ => None end)
              | None => Ok None
              end;
      match right with
      | Some next => find_prev_loop fuel ar head key next level
      | None =>
          match level with
          | S level => find_prev_loop fuel ar head key node level
          | 0 => if (head =? node)%Z then Ok None else Ok (Some node)
          end
      end
  end.

Definition find_prev (sk : SkipListInner) (key : list Z) : outcome (option Z) :=
  level ← usub (sk_height sk) 1;
  find_prev_loop (descent_fuel sk) (sk_arena sk) (sk_head sk) key (sk_head sk) level.

Fixpoint find_last_loop (fuel : nat) (ar : arena) (node : Z) (level : nat) : outcome (option Z) :=
  match fuel with
  | 0 => Panic
  | S fuel =>
      o ← Node_next ar node level;
      match o with
      | Some next => find_last_loop fuel ar next level
      | None =>
          match level with
          | S level => find_last_loop fuel ar node level
          | 0 => Ok (Some node)
          end
      end
  end.

Definition find_last (sk : SkipListInner) : outcome (option Z) :=
  level ← usub (sk_height sk) 1;
  find_last_loop (descent_fuel sk) (sk_arena sk) (sk_head sk) level.

(** ** Pushing *)

(** [for h in (0..height).rev()]: the node of an equal key, or the neighbours of
    the key on each level. *)
Fixpoint find_splices (h : nat) (sk : SkipListInner) (key : list Z) (prev next : list (option Z)) :
    outcome (option Z + list (option Z) * list (option Z)) :=
  match h with
  | 0 => Ok (inr (prev, next))
  | S h =>
      before ← idx prev (S h);
      '(p, n) ← find_splice_for_level sk key before h;
      prev ← set_idx prev h p;
      next ← set_idx next h n;
      if bool_decide (p = n) then Ok (inl p) else find_splices h sk key prev next
  end.

(** [while random_height > height { compare_exchange .. }] *)
Fixpoint raise_height (retries : nat) (sk : SkipListInner) (height random_height : nat) :
    outcome SkipListInner :=
  if height <? random_height then
    match retries with
    | 0 => Panic
    | S retries =>
        if sk_height sk =? height then Ok (mkSkipList random_height (sk_head sk) (sk_arena sk))
        else raise_height retries sk (sk_height sk) random_height
    end
  else Ok sk.

(** The inner loop of level 0: it sets the backward links; [None] is the
    [return] after an equal key was met. *)
Fixpoint link_prev (retries : nat) (sk : SkipListInner) (key value : list Z) (node node_offset : Z)
    (prev0 next0 : option Z) (next_offset : Z) :
    outcome (SkipListInner * option (option Z * option Z * Z)) :=
  match retries with
  | 0 => Panic
  | S retries =>
      o ← arena_offset prev0;
      prev_offset ← match o with Some p => Ok p | None => head_offset sk end;
      sk ← store_prev sk node prev_offset;
      match next0 with
      | Some next_node =>
          '(done, sk) ← exchange_prev sk next_node prev_offset node_offset;
          if (done : bool) then Ok (sk, Some (prev0, next0, next_offset))
          else
            '(p, n) ← find_splice_for_level sk key prev0 0;
            if bool_decide (p = n) then sk ← try_set_value sk prev0 value; Ok (sk, None)
            else
              o ← arena_offset n;
              link_prev retries sk key value node node_offset p n (default 0%Z o)
      | None => Ok (sk, Some (prev0, next0, next_offset))
      end
  end.

(** The loop of one level; [None] is the [return] of [push]. *)
Fixpoint link_level (retries : nat) (sk : SkipListInner) (key value : list Z) (node node_offset : Z)
    (h : nat) (prev next : list (option Z)) :
    outcome (SkipListInner * option (list (option Z) * list (option Z))) :=
  match retries with
  | 0 => Panic
  | S retries' =>
      before ← idx prev h;
      '(prev_node, prev, next) ←
        match before with
        | Some prev_node => Ok (prev_node, prev, next)
        | None =>
            _ ← assert_or_panic (1 <? h);
            '(p, n) ← find_splice_for_level sk key (Some (sk_head sk)) h;
            prev ← set_idx prev h p;
            next ← set_idx next h n;
            _ ← assert_or_panic (bool_decide (p ≠ n));
            prev_node ← unwrap p;
            Ok (prev_node, prev, next)
        end;
      nh ← idx next h;
      o ← arena_offset nh;
      let next_offset := default 0%Z o in
      sk ← store_tower sk node h next_offset;
      '(sk, r) ←
        (if h =? 0 then
           p0 ← idx prev 0;
           n0 ← idx next 0;
           '(sk, r) ← link_prev retries sk key value node node_offset p0 n0 next_offset;
           match r with
           | Some (p0, n0, next_offset) =>
               prev ← set_idx prev 0 p0;
               next ← set_idx next 0 n0;
               Ok (sk, Some (prev, next, next_offset))
           | None => Ok (sk, None)
           end
         else Ok (sk, Some (prev, next, next_offset)));
      match r with
      | None => Ok (sk, None)
      | Some (prev, next, next_offset) =>
          '(done, sk) ← exchange_tower sk prev_node h next_offset node_offset;
          if (done : bool) then Ok (sk, Some (prev, next))
          else
            '(p, n) ← find_splice_for_level sk key (Some prev_node) h;
            prev ← set_idx prev h p;
            next ← set_idx next h n;
            if bool_decide (p = n) then
              _ ← assert_or_panic (h =? 0);
              sk ← try_set_value sk p value;
              Ok (sk, None)
            else link_level retries' sk key value node node_offset h prev next
      end
  end.

(** [for h in 0..height] *)
Fixpoint link_levels (retries : nat) (sk : SkipListInner) (key value : list Z) (node node_offset : Z)
    (hs : list nat) (prev next : list (option Z)) : outcome SkipListInner :=
  match hs with
  | [] => Ok sk
  | h :: hs =>
      '(sk, r) ← link_level retries sk key value node node_offset h prev next;
      match r with
      | Some (prev, next) => link_levels retries sk key value node node_offset hs prev next
      | None => Ok sk
      end
  end.

Definition push (retries : nat) (flips : list bool) (sk : SkipListInner) (key value : list Z) :
    outcome SkipListInner :=
  let height := sk_height sk in
  prev ← set_idx (replicate (SKL_MAX_HEIGHT + 1) None) height (Some (sk_head sk));
  let next := replicate (SKL_MAX_HEIGHT + 1) None in
  r ← find_splices height sk key prev next;
  match r with
  | inl p => try_set_value sk p value
  | inr (prev, next) =>
      let rh := random_height flips in
      '(node, ar) ← Node_new (sk_arena sk) key value rh;
      let sk := with_arena sk ar in
      sk ← raise_height retries sk height rh;
      o ← arena_offset (Some node);
      node_offset ← unwrap o;
      link_levels retries sk key value node node_offset (seq 0 rh) prev next
  end.

(** ** Reading *)

Definition SkipList_get (sk : SkipListInner) (key : list Z) (allow_near : bool) : outcome (option (list Z)) :=
  o ← find_or_near sk key allow_near;
  match o with
  | Some node => Node_get_value (sk_arena sk) node
  | None => Ok None
  end.

Definition SkipList_get_key_value (sk : SkipListInner) (key : list Z) (allow_near : bool) :
    outcome (option (list Z * list Z)) :=
  o ← find_or_near sk key allow_near;
  match o with
  | Some node =>
      ok ← Node_get_key (sk_arena sk) node;
      k ← unwrap ok;
      ov ← Node_get_value (sk_arena sk) node;
      v ← unwrap ov;
      Ok (Some (k, v))
  | None => Ok None
  end.

Definition SkipList_is_empty (sk : SkipListInner) : outcome bool :=
  o ← find_last sk; Ok (bool_decide (o = None)).

Definition SkipList_mem_size (sk : SkipListInner) : Z := arena_len (sk_arena sk).

End SkipListCode.

(** ** The iterator *)

Record SkipListIter : Type := mkSkipListIter {
  si_inner : SkipListInner;
  si_node : option Z;
  si_node_back : option Z
}.

Definition SkipList_iter (sk : SkipListInner) : SkipListIter :=
  mkSkipListIter sk (Some (sk_head sk)) None.

Definition si_item (it : SkipListIter) : option Z :=
  match si_node it with
  | Some node => if (node =? sk_head (si_inner it))%Z then None else Some node
  | None => None
  end.

#[export] Instance SkipListIter_next : SinkIterator SkipListIter := λ it,
  match si_node it with
  | Some now =>
      o ← Node_next (sk_arena (si_inner it)) now 0;
      match o with
      | Some new =>
          if bool_decide (si_node_back it = Some new) then Ok (false, it)
          else Ok (true, mkSkipListIter (si_inner it) (Some new) (si_node_back it))
      | None => Ok (false, it)
      end
  | None => Ok (false, it)
  end.

#[export] Instance SkipListIter_next_back : DoubleEndedSinkIterator SkipListIter := λ it,
  match si_node_back it with
  | Some now =>
      o ← Node_prev (sk_arena (si_inner it)) now;
      match o with
      | Some new =>
          if bool_decide (si_node it = Some new) then Ok (false, it)
          else Ok (true, mkSkipListIter (si_inner it) (si_node it) (Some new))
      | None => Ok (false, it)
      end
  | None =>
      o ← find_last (si_inner it);
      match o with
      | Some last =>
          if negb (last =? sk_head (si_inner it))%Z
          then Ok (true, mkSkipListIter (si_inner it) (si_node it) (Some last))
          else Ok (false, it)
      | None => Ok (false, it)
      end
  end.

Section SkipListIterKv.
Context `{!VarInt}.

(** The key of a node the iterator stands on; reading a node cannot fail. *)
Definition node_key (it : SkipListIter) (o : option Z) : option (list Z) :=
  match o with
  | Some node => match Node_get_key (sk_arena (si_inner it)) node with Ok k => k | _ => None end
  | None => None
  end.

Definition node_value (it : SkipListIter) (o : option Z) : outcome (option ValueMeta) :=
  match o with
  | Some node =>
      v ← Node_get_value (sk_arena (si_inner it)) node;
      Ok (match v with Some data => ValueMeta_deserialize data | None => None end)
  | None => Ok None
  end.

#[export] Instance SkipListIter_kv : KvSinkIter SkipListIter := {|
  iter_key it := node_key it (si_item it);
  iter_value it := node_value it (si_item it)
|}.

#[export] Instance SkipListIter_kv_back : KvDoubleEndedSinkIter SkipListIter := {|
  iter_key_back it := node_key it (si_node_back it);
  iter_value_back it := node_value it (si_node_back it)
|}.

(** [KvSeekIter::seek] *)
Definition SkipListIter_seek (cmp : list Z → list Z → comparison) (it : SkipListIter) (k : list Z) :
    outcome (bool * SkipListIter) :=
  node ← find_or_near cmp (si_inner it) k true;
  match node with
  | Some _ => Ok (true, mkSkipListIter (si_inner it) node (si_node_back it))
  | None => Ok (false, it)
  end.

End SkipListIterKv.
