(* ===== verification/SkipListInv.v ===== *)
(** * SkipListInv: the skip list is a sorted map

    The invariant of [SkipListInner] (SkipList.v, src/src/util/skip_list.rs): a
    list of cells in key order, of which level [h] links those higher than [h],
    with backward links on level 0.  A push inserts into the sorted list of keys
    and values, or replaces the value of an equal key, and panics exactly when the
    arena is too small; the searches find what the sorted list has. *)
From stdpp Require Import base list gmap sorting.
From Stdlib Require Import ZArith Lia.
From S2P Require Import Prelude VarInt Kv Iter Arena SkipList.

Local Open Scope nat_scope.

(** ** Keys *)

(** The bytes of a key are compared as the keys are: what the list asks of its
    comparator, on the keys that satisfy [ok]. *)
Class KeyCoding {K : Type} (cmp : list Z → list Z → comparison) (kcmp : K → K → comparison)
    (enc : K → list Z) (ok : K → Prop) : Prop := {
  coding_order :: CmpOrder kcmp;
  coding_cmp : ∀ a b, ok a → ok b → cmp (enc a) (enc b) = kcmp a b;
  coding_length : ∀ a, ok a → (Z.of_nat (length (enc a)) < 2 ^ 16)%Z
}.

(** ** The sorted list a skip list stands for *)

Section SortedMap.
Context {K V : Type} (kcmp : K → K → comparison).

Fixpoint kv_insert (k : K) (v : V) (m : list (K * V)) : list (K * V) :=
  match m with
  | [] => [(k, v)]
  | (k', v') :: m' =>
      match kcmp k k' with
      | Lt => (k, v) :: m
      | Eq => (k', v) :: m'
      | Gt => (k', v') :: kv_insert k v m'
      end
  end.

Fixpoint kv_lookup (k : K) (m : list (K * V)) : option V :=
  match m with
  | [] => None
  | (k', v') :: m' => match kcmp k k' with Eq => Some v' | _ => kv_lookup k m' end
  end.

(** The first entry whose key is not below [k]. *)
Fixpoint kv_ceil (k : K) (m : list (K * V)) : option (K * V) :=
  match m with
  | [] => None
  | (k', v') :: m' => match kcmp k k' with Gt => kv_ceil k m' | _ => Some (k', v') end
  end.

Definition kv_sorted (m : list (K * V)) : Prop :=
  StronglySorted (λ a b, kcmp a.1 b.1 = Lt) m.

End SortedMap.

(** ** Chains of links *)

Definition tower_at (ns : gmap Z Node) (p : Z) (h : nat) : option Z :=
  n ← ns !! p; nd_tower n !! h.

Definition prev_at (ns : gmap Z Node) (p : Z) : option Z := nd_prev <$> ns !! p.

Definition last_or (p : Z) (a : list Z) : Z := default p (last a).

Definition head_or_null (b : list Z) : Z := default 0%Z (head b).

(** From [p] on level [h] the links visit [qs] and end. *)
Fixpoint links (ns : gmap Z Node) (h : nat) (p : Z) (qs : list Z) : Prop :=
  match qs with
  | [] => tower_at ns p h = Some 0%Z
  | q :: qs' => tower_at ns p h = Some q ∧ (8 <= q)%Z ∧ links ns h q qs'
  end.

(** The backward links of [qs] lead to [p]. *)
Fixpoint back_links (ns : gmap Z Node) (p : Z) (qs : list Z) : Prop :=
  match qs with
  | [] => True
  | q :: qs' => prev_at ns q = Some p ∧ back_links ns q qs'
  end.

Lemma last_or_cons p q a : last_or p (q :: a) = last_or q a.
Proof. unfold last_or. rewrite last_cons. by destruct (last a). Qed.

Lemma last_or_snoc p a q : last_or p (a ++ [q]) = q.
Proof. unfold last_or. by rewrite last_snoc. Qed.

Lemma last_or_elem p a : last_or p a ∈ p :: a.
Proof.
  revert p. induction a as [|q a IH]; intros p; [left|]. rewrite last_or_cons. right. apply IH.
Qed.

Lemma links_split ns h p a b : links ns h p (a ++ b) → links ns h (last_or p a) b.
Proof.
  revert p. induction a as [|q a IH]; intros p; [done|]. rewrite last_or_cons.
  intros (_ & _ & Hl). by apply IH.
Qed.

Lemma links_next ns h p qs : links ns h p qs → tower_at ns p h = Some (head_or_null qs).
Proof. destruct qs; [done|]. by intros []. Qed.

Lemma links_ge ns h p qs q : links ns h p qs → q ∈ qs → (8 <= q)%Z.
Proof.
  revert p. induction qs as [|x qs IH]; intros p; [set_solver|].
  intros (_ & Hx & Hl) [->|Hq]%elem_of_cons; [done|]. by eapply IH.
Qed.

Lemma links_ext ns ns' h p qs :
  (∀ x, x ∈ p :: qs → tower_at ns' x h = tower_at ns x h) → links ns h p qs → links ns' h p qs.
Proof.
  revert p. induction qs as [|q qs IH]; intros p Hext; cbn [links].
  - by rewrite Hext by set_solver.
  - intros (Hp & Hq & Hl). rewrite Hext by set_solver. split_and!; [done|done|].
    apply IH; [|done]. intros x Hx. apply Hext. set_solver.
Qed.

Lemma back_links_ext ns ns' p qs :
  (∀ x, x ∈ qs → prev_at ns' x = prev_at ns x) → back_links ns p qs → back_links ns' p qs.
Proof.
  revert p. induction qs as [|q qs IH]; intros p Hext; cbn [back_links]; [done|].
  intros [Hq Hl]. rewrite Hext by set_solver. split; [done|].
  apply IH; [|done]. intros x Hx. apply Hext. set_solver.
Qed.

(** Linking a new node [q] between [a] and [b]. *)
Lemma links_insert ns ns' h p a q b :
  links ns h p (a ++ b) → NoDup (p :: a ++ b) → q ∉ p :: a ++ b → (8 <= q)%Z →
  tower_at ns' (last_or p a) h = Some q → tower_at ns' q h = Some (head_or_null b) →
  (∀ x, x ≠ last_or p a → x ≠ q → tower_at ns' x h = tower_at ns x h) →
  links ns' h p (a ++ q :: b).
Proof.
  revert p. induction a as [|x a IH]; intros p Hl Hnd Hq Hq8 Hp Hqh Hrest.
  - cbn in *. split_and!; [done|done|].
    assert (∀ x, x ∈ b → tower_at ns' x h = tower_at ns x h) as Hb.
    { intros x Hx. apply NoDup_cons in Hnd as [Hnp _]. apply Hrest; unfold last_or; cbn; set_solver. }
    destruct b as [|y b]; [done|]. cbn in Hl |- *. destruct Hl as (_ & Hy & Hl).
    split_and!; [done|done|]. eapply links_ext; [|done]. intros z Hz. apply Hb. set_solver.
  - rewrite last_or_cons in Hp, Hrest. cbn [app] in *. destruct Hl as (Hpx & Hx & Hl).
    apply NoDup_cons in Hnd as [Hnp Hnd].
    assert (p ≠ last_or x a) as Hpl.
    { intros ->. apply Hnp. pose proof (last_or_elem x a). set_solver. }
    split_and!; [|done|].
    + rewrite Hrest; [done|done|set_solver].
    + apply IH; try done. set_solver.
Qed.

Lemma back_links_insert ns ns' p a q b :
  back_links ns p (a ++ b) → NoDup (p :: a ++ b) → q ∉ p :: a ++ b →
  prev_at ns' q = Some (last_or p a) → (∀ y, head b = Some y → prev_at ns' y = Some q) →
  (∀ x, x ≠ q → head b ≠ Some x → prev_at ns' x = prev_at ns x) →
  back_links ns' p (a ++ q :: b).
Proof.
  revert p. induction a as [|x a IH]; intros p Hl Hnd Hq Hp Hh Hrest.
  - cbn in *. split; [done|]. destruct b as [|y b]; [done|]. cbn in *. destruct Hl as [_ Hl].
    split; [by apply Hh|]. eapply back_links_ext; [|done]. intros z Hz.
    apply NoDup_cons in Hnd as [_ Hnd]. apply NoDup_cons in Hnd as [Hny _].
    apply Hrest; [set_solver|]. intros [= ->]. done.
  - cbn [app] in *. rewrite last_or_cons in Hp. destruct Hl as [Hx Hl].
    apply NoDup_cons in Hnd as [Hnp Hnd]. split.
    + rewrite Hrest; [done|set_solver|]. apply NoDup_cons in Hnd as [Hnx _].
      destruct b as [|y b]; [done|]. cbn. intros [= ->]. set_solver.
    + apply IH; try done. set_solver.
Qed.

Lemma back_links_lookup ns p a q b : back_links ns p (a ++ q :: b) → prev_at ns q = Some (last_or p a).
Proof.
  revert p. induction a as [|x a IH]; intros p; cbn.
  - by intros [].
  - intros [_ Hl]. rewrite last_or_cons. by apply IH.
Qed.

(* ------------------------------------------------------------------ *)
(** ** Cells and the invariant *)

Section Rep.
Context {K : Type}.

Record cell : Type := mkCell {
  c_ptr : Z;
  c_key : K;
  c_val : list Z;
  c_ht : nat
}.

Definition cell_kv (c : cell) : K * list Z := (c_key c, c_val c).

(** The cells that level [h] links, and their pointers. *)
Definition at_level (h : nat) (l : list cell) : list cell := base.filter (λ c, h < c_ht c) l.

Definition ptrs (h : nat) (l : list cell) : list Z := c_ptr <$> at_level h l.

Context (cmp : list Z → list Z → comparison) (kcmp : K → K → comparison) (enc : K → list Z)
  (ok : K → Prop) `{!KeyCoding cmp kcmp enc ok}.

(** The node stores the bytes of a key and a value. *)
Definition node_holds (ar : Arena Node) (n : Node) (k v : list Z) : Prop :=
  has_slice ar (nd_key_offset n) k ∧ nd_key_len n = Z.of_nat (length k) ∧
  ∃ off, Node_value_slice n = (off, Z.of_nat (length v)) ∧ has_slice ar off v.

Definition cell_stored (ar : Arena Node) (c : cell) : Prop :=
  ∃ n, ar_nodes ar !! c_ptr c = Some n ∧ length (nd_tower n) = SKL_MAX_HEIGHT ∧
    node_holds ar n (enc (c_key c)) (c_val c).

Record skl_inv (sk : SkipListInner) (l : list cell) : Prop := {
  inv_head : sk_head sk = 8%Z;
  inv_height : 1 <= sk_height sk <= SKL_MAX_HEIGHT;
  inv_arena : arena_wf (sk_arena sk);
  inv_links : ∀ h, h < SKL_MAX_HEIGHT → links (ar_nodes (sk_arena sk)) h 8 (ptrs h l);
  inv_back : back_links (ar_nodes (sk_arena sk)) 8 (c_ptr <$> l);
  inv_cells : Forall (cell_stored (sk_arena sk)) l;
  inv_sorted : StronglySorted (λ a b, kcmp (c_key a) (c_key b) = Lt) l;
  inv_ok : Forall (λ c, ok (c_key c)) l;
  inv_heights : Forall (λ c, 1 <= c_ht c <= sk_height sk) l;
  inv_nodup : NoDup (8%Z :: (c_ptr <$> l));
  inv_dom : ∀ p, is_Some (ar_nodes (sk_arena sk) !! p) ↔ p ∈ 8%Z :: (c_ptr <$> l);
  inv_below : ∀ p, p ∈ 8%Z :: (c_ptr <$> l) → (8 <= p < ar_ptr_offset (sk_arena sk))%Z;
  inv_head_tower : ∃ n, ar_nodes (sk_arena sk) !! 8%Z = Some n ∧ length (nd_tower n) = SKL_MAX_HEIGHT
}.

(** *** Levels *)

Lemma at_level_app h l1 l2 : at_level h (l1 ++ l2) = at_level h l1 ++ at_level h l2.
Proof. apply filter_app. Qed.

Lemma ptrs_app h l1 l2 : ptrs h (l1 ++ l2) = ptrs h l1 ++ ptrs h l2.
Proof. unfold ptrs. by rewrite at_level_app, fmap_app. Qed.

Lemma ptrs_cons_in h c l : h < c_ht c → ptrs h (c :: l) = c_ptr c :: ptrs h l.
Proof. intros. unfold ptrs, at_level. rewrite filter_cons, decide_True by done. done. Qed.

Lemma ptrs_cons_out h c l : c_ht c <= h → ptrs h (c :: l) = ptrs h l.
Proof. intros. unfold ptrs, at_level. rewrite filter_cons, decide_False by lia. done. Qed.

Lemma at_level_0 l : Forall (λ c, 1 <= c_ht c) l → at_level 0 l = l.
Proof.
  unfold at_level. induction 1 as [|c l Hc Hl IH]; [done|]. rewrite filter_cons, decide_True by lia.
  by rewrite IH.
Qed.

Lemma ptrs_subset h l p : p ∈ ptrs h l → p ∈ c_ptr <$> l.
Proof.
  unfold ptrs, at_level. intros (c & -> & [_ Hc]%list_elem_of_filter)%list_elem_of_fmap.
  apply list_elem_of_fmap. by exists c.
Qed.

Lemma ptrs_sublist h l : ptrs h l `sublist_of` c_ptr <$> l.
Proof.
  unfold ptrs, at_level. induction l as [|c l IH]; [done|]. rewrite filter_cons. case_decide; cbn.
  - by constructor.
  - by constructor.
Qed.

Lemma ptrs_nodup h l : NoDup (8%Z :: (c_ptr <$> l)) → NoDup (8%Z :: ptrs h l).
Proof. intros. eapply sublist_NoDup; [done|]. constructor. apply ptrs_sublist. Qed.

(** The first cell of a level splits the list. *)
Lemma at_level_head h l c rest :
  at_level h l = c :: rest → ∃ m l', l = m ++ c :: l' ∧ at_level h m = [] ∧ h < c_ht c ∧ at_level h l' = rest.
Proof.
  unfold at_level. induction l as [|d l IH]; [done|]. rewrite filter_cons. case_decide as Hd.
  - intros [= -> <-]. by exists [], l.
  - intros (m & l' & -> & Hm & Hc & Hl')%IH. exists (d :: m), l'. split_and!; [done| |done|done].
    rewrite filter_cons, decide_False by done. done.
Qed.

Lemma at_level_nil_0 h l : Forall (λ c, 1 <= c_ht c) l → at_level h l = [] → h = 0 → l = [].
Proof. intros Hf Hl ->. by rewrite at_level_0 in Hl. Qed.

(** A search stands on the last cell of [l1], which level [h] links. *)
Definition stands (p : Z) (l1 : list cell) (h : nat) : Prop :=
  (l1 = [] ∧ p = 8%Z) ∨ ∃ l0 c, l1 = l0 ++ [c] ∧ p = c_ptr c ∧ h < c_ht c.

Lemma stands_down p l1 h : stands p l1 (S h) → stands p l1 h.
Proof. intros [?|(l0 & c & ? & ? & ?)]; [by left|right]. exists l0, c. split_and!; [done|done|lia]. Qed.

Lemma stands_last p l1 h : stands p l1 h → last_or 8 (ptrs h l1) = p.
Proof.
  intros [[-> ->]|(l0 & c & -> & -> & Hc)]; [done|].
  rewrite ptrs_app, ptrs_cons_in by done. apply last_or_snoc.
Qed.

End Rep.

Arguments cell K : clear implicits.

(* ------------------------------------------------------------------ *)
(** ** Searching *)

Section Search.
Context {K : Type} (cmp : list Z → list Z → comparison) (kcmp : K → K → comparison)
  (enc : K → list Z) (ok : K → Prop) `{!KeyCoding cmp kcmp enc ok}.
Implicit Types (sk : SkipListInner) (l : list (cell K)).

Abbreviation inv := (skl_inv kcmp enc ok).

Lemma links_Node_next ar p h qs : links (ar_nodes ar) h p qs → Node_next ar p h = Ok (head qs).
Proof.
  intros Hl. pose proof (links_next _ _ _ _ Hl) as Ht. unfold tower_at in Ht.
  apply bind_Some in Ht as (n & Hn & Ht). unfold Node_next, deref. rewrite Hn.
  cbn [unwrap mbind outcome_bind]. rewrite (idx_Ok _ _ _ Ht). cbn [mbind outcome_bind].
  destruct qs as [|q qs]; [done|]. destruct Hl as (_ & Hq & _). cbn. unfold arena_get.
  by rewrite (proj2 (Z.ltb_ge _ _)).
Qed.

Lemma next_at sk l1 l2 p h :
  inv sk (l1 ++ l2) → stands p l1 h → h < SKL_MAX_HEIGHT →
  Node_next (sk_arena sk) p h = Ok (c_ptr <$> head (at_level h l2)).
Proof.
  intros I Hp Hh. pose proof (inv_links _ _ _ _ _ I h Hh) as Hl. rewrite ptrs_app in Hl.
  apply links_split in Hl. rewrite (stands_last _ _ _ Hp) in Hl. rewrite (links_Node_next _ _ _ _ Hl).
  unfold ptrs. by destruct (at_level h l2).
Qed.

Lemma stored_key ar (c : cell K) :
  cell_stored enc ar c → ok (c_key c) → Node_get_key ar (c_ptr c) = Ok (Some (enc (c_key c))).
Proof.
  intros (n & Hn & _ & Hk & Hlen & _) Hok. unfold Node_get_key, deref. rewrite Hn.
  cbn [unwrap mbind outcome_bind]. rewrite Hlen. apply get_slice_has; [done|lia|lia].
Qed.

Lemma stored_value ar (c : cell K) :
  cell_stored enc ar c → Node_get_value ar (c_ptr c) = Ok (Some (c_val c)).
Proof.
  intros (n & Hn & _ & _ & _ & off & Hv & Hs). unfold Node_get_value, deref. rewrite Hn.
  cbn [unwrap mbind outcome_bind]. rewrite Hv. apply get_slice_has; [done|lia|lia].
Qed.

Lemma key_at sk l c : inv sk l → c ∈ l → Node_get_key (sk_arena sk) (c_ptr c) = Ok (Some (enc (c_key c))).
Proof.
  intros I Hc. apply stored_key.
  - by apply (proj1 (Forall_forall _ _) (inv_cells _ _ _ _ _ I)).
  - by apply (proj1 (Forall_forall _ _) (inv_ok _ _ _ _ _ I)).
Qed.

Lemma value_at sk l c : inv sk l → c ∈ l → Node_get_value (sk_arena sk) (c_ptr c) = Ok (Some (c_val c)).
Proof. intros I Hc. apply stored_value. by apply (proj1 (Forall_forall _ _) (inv_cells _ _ _ _ _ I)). Qed.

(** The keys of [l] are below [k]. *)
Definition below (k : K) l : Prop := Forall (λ c, kcmp k (c_key c) = Gt) l.

(** The comparison a search makes with the cell it looks at. *)
Lemma cmp_at sk l c k : inv sk l → c ∈ l → ok k → cmp (enc k) (enc (c_key c)) = kcmp k (c_key c).
Proof.
  intros I Hc Hk. apply coding_cmp; [done|]. by apply (proj1 (Forall_forall _ _) (inv_ok _ _ _ _ _ I)).
Qed.

Lemma below_prefix sk l1 m c l2 k :
  inv sk (l1 ++ m ++ c :: l2) → kcmp k (c_key c) = Gt → below k m.
Proof.
  intros I Hc. pose proof (inv_sorted _ _ _ _ _ I) as Hs.
  apply StronglySorted_app in Hs as (_ & _ & Hs). apply StronglySorted_app in Hs as (Hlt & _ & _).
  apply Forall_forall. intros d Hd. specialize (Hlt d c Hd ltac:(left)).
  apply (cmp_gt_lt kcmp). eapply (cmp_lt_trans kcmp); [done|]. by apply (cmp_gt_lt kcmp).
Qed.

(** Moving right from [p] to the cell [c]. *)
Lemma stands_right h l1 (m : list (cell K)) c : h < c_ht c → stands (c_ptr c) (l1 ++ m ++ [c]) h.
Proof. intros. right. exists (l1 ++ m), c. by rewrite <- app_assoc. Qed.

Lemma below_right sk l1 m c l2 k :
  inv sk (l1 ++ m ++ c :: l2) → below k l1 → kcmp k (c_key c) = Gt → below k (l1 ++ m ++ [c]).
Proof.
  intros I H1 Hc. unfold below. rewrite !Forall_app. split_and!; [done| |by repeat constructor].
  by eapply below_prefix.
Qed.

Lemma below_eq sk l1 m c l2 k :
  inv sk (l1 ++ m ++ c :: l2) → below k l1 → kcmp k (c_key c) = Eq → below k (l1 ++ m).
Proof.
  intros I Hb Ec. apply Forall_app. split; [done|]. apply (@cmp_eq _ kcmp _) in Ec as ->.
  pose proof (inv_sorted _ _ _ _ _ I) as Hs.
  apply StronglySorted_app in Hs as (_ & _ & Hs). apply StronglySorted_app in Hs as (Hlt & _ & _).
  apply Forall_forall. intros d Hd. apply (cmp_gt_lt kcmp). apply Hlt; [done|left].
Qed.

(** Where a search on one level ends: the neighbours of the key, or its cell. *)
Definition splice_post l (k : K) (h : nat) (r : option Z * option Z) : Prop :=
  ∃ l1 l2, l = l1 ++ l2 ∧ below k l1 ∧
    match at_level h l2 with
    | c :: _ => (kcmp k (c_key c) = Eq ∧ r = (Some (c_ptr c), Some (c_ptr c))) ∨
                (kcmp k (c_key c) = Lt ∧ ∃ p, stands p l1 h ∧ r = (Some p, Some (c_ptr c)))
    | [] => ∃ p, stands p l1 h ∧ r = (Some p, None)
    end.

Lemma find_splice_loop_spec sk l1 l2 k p h fuel :
  inv sk (l1 ++ l2) → ok k → stands p l1 h → h < SKL_MAX_HEIGHT → below k l1 → length l2 < fuel →
  ∃ r, find_splice_loop cmp fuel (sk_arena sk) (enc k) (Some p) h = Ok r ∧ splice_post (l1 ++ l2) k h r.
Proof.
  intros I Hk. revert l1 l2 p I. induction fuel as [|fuel IH]; intros l1 l2 p I Hp Hh Hb Hf; [lia|].
  cbn [find_splice_loop]. rewrite (next_at _ _ _ _ _ I Hp Hh). cbn [mbind outcome_bind].
  destruct (at_level h l2) as [|c rest] eqn:El; cbn [head fmap option_fmap option_map].
  { eexists. split; [done|]. exists l1, l2. split_and!; [done|done|]. rewrite El. by exists p. }
  pose proof El as (m & l2' & -> & Hm & Hc & Hrest)%at_level_head.
  rewrite (key_at _ _ c I) by set_solver. cbn [mbind outcome_bind].
  rewrite (cmp_at _ _ c k I) by (done || set_solver). destruct (kcmp k (c_key c)) eqn:Ec.
  - eexists. split; [done|]. exists l1, (m ++ c :: l2'). split_and!; [done|done|]. rewrite El. by left.
  - eexists. split; [done|]. exists l1, (m ++ c :: l2'). split_and!; [done|done|]. rewrite El.
    right. split; [done|]. by exists p.
  - replace (l1 ++ m ++ c :: l2') with ((l1 ++ m ++ [c]) ++ l2') in * by by rewrite <- !app_assoc.
    apply IH; [done|by apply stands_right|done| |].
    + eapply below_right; [|done|done]. by rewrite <- !app_assoc in I; cbn in I; exact I.
    + rewrite length_app in Hf. cbn in Hf. lia.
Qed.

Lemma inv_fuel sk l : inv sk l → list_fuel sk = S (S (length l)).
Proof.
  intros I. unfold list_fuel. f_equal. rewrite <- size_dom.
  assert (dom (ar_nodes (sk_arena sk)) = list_to_set (8%Z :: (c_ptr <$> l)) :> gset Z) as ->.
  { apply set_eq. intros p. rewrite elem_of_dom, elem_of_list_to_set. apply (inv_dom _ _ _ _ _ I). }
  rewrite size_list_to_set by apply (inv_nodup _ _ _ _ _ I). cbn. by rewrite length_fmap.
Qed.

Lemma find_splice_for_level_spec sk l1 l2 k p h :
  inv sk (l1 ++ l2) → ok k → stands p l1 h → h < SKL_MAX_HEIGHT → below k l1 →
  ∃ r, find_splice_for_level cmp sk (enc k) (Some p) h = Ok r ∧ splice_post (l1 ++ l2) k h r.
Proof.
  intros I ????. unfold find_splice_for_level. apply find_splice_loop_spec; try done.
  rewrite (inv_fuel _ _ I), length_app. lia.
Qed.

(** The cells below [k], and the others. *)
Lemma split_at sk l k :
  inv sk l → ∃ l1 l2, l = l1 ++ l2 ∧ below k l1 ∧ Forall (λ c, kcmp k (c_key c) ≠ Gt) l2.
Proof.
  intros I. pose proof (inv_sorted _ _ _ _ _ I) as Hs. clear I.
  induction Hs as [|c l Hs IH Hall]; [exists [], []; by repeat constructor|].
  destruct (kcmp k (c_key c)) eqn:Ec; [exists [], (c :: l)|exists [], (c :: l)|].
  - split_and!; [done|constructor|]. constructor; [by rewrite Ec|]. eapply Forall_impl; [done|].
    intros d Hd. apply (@cmp_eq _ kcmp _) in Ec as ->. by rewrite Hd.
  - split_and!; [done|constructor|]. constructor; [by rewrite Ec|]. eapply Forall_impl; [done|].
    intros d Hd. rewrite (cmp_trans _ _ _ _ Ec Hd). done.
  - destruct IH as (l1 & l2 & -> & H1 & H2). exists (c :: l1), l2. split_and!; [done|by constructor|done].
Qed.

(** *** The descents of the readers *)

Lemma inv_heights_pos sk l1 l2 : inv sk (l1 ++ l2) → Forall (λ c, 1 <= c_ht c) l2.
Proof.
  intros I. pose proof (inv_heights _ _ _ _ _ I) as Hh. apply Forall_app in Hh as [_ Hh].
  eapply Forall_impl; [done|]. cbn. lia.
Qed.

Lemma inv_regroup sk l1 m c l2 : inv sk (l1 ++ m ++ c :: l2) → inv sk ((l1 ++ m ++ [c]) ++ l2).
Proof. by rewrite <- !app_assoc. Qed.

(** On level 0 the next cell is the next of the list. *)
Lemma level_0_head sk l1 m c l2 : inv sk (l1 ++ m ++ c :: l2) → at_level 0 m = [] → m = [].
Proof.
  intros I Hm. apply inv_heights_pos, Forall_app in I as [Hf _]. by eapply at_level_nil_0.
Qed.

(** Searching the first cell not below [k]: [on_eq] and [on_lt] are the answers. *)
Definition seek_post l (k : K) (on_eq on_lt : cell K → list (cell K) → option Z) (r : option Z) : Prop :=
  ∃ l1 l2, l = l1 ++ l2 ∧ below k l1 ∧
    match l2 with
    | c :: l3 => (kcmp k (c_key c) = Eq ∧ r = on_eq c l3) ∨ (kcmp k (c_key c) = Lt ∧ r = on_lt c l3)
    | [] => r = None
    end.

(** What a turn of a descent sees from [p] on level [h]. *)
Lemma turn_cases sk l1 l2 k p h :
  inv sk (l1 ++ l2) → ok k → stands p l1 h → h < SKL_MAX_HEIGHT →
  (at_level h l2 = [] ∧ Node_next (sk_arena sk) p h = Ok None) ∨
  ∃ m c l2', l2 = m ++ c :: l2' ∧ at_level h m = [] ∧ h < c_ht c ∧
    Node_next (sk_arena sk) p h = Ok (Some (c_ptr c)) ∧
    Node_get_key (sk_arena sk) (c_ptr c) = Ok (Some (enc (c_key c))) ∧
    cmp (enc k) (enc (c_key c)) = kcmp k (c_key c).
Proof.
  intros I Hk Hp Hh. rewrite (next_at _ _ _ _ _ I Hp Hh).
  destruct (at_level h l2) as [|c rest] eqn:El; [by left|right].
  pose proof El as (m & l2' & -> & Hm & Hc & _)%at_level_head. exists m, c, l2'.
  split_and!; [done|done|done|done| |].
  - apply (key_at _ _ c I). set_solver.
  - apply (cmp_at _ _ c k I); [set_solver|done].
Qed.

Ltac turn I Hk Hp Hh :=
  let m := fresh "m" in let c := fresh "c" in let l2' := fresh "l2'" in
  destruct (turn_cases _ _ _ _ _ _ I Hk Hp Hh) as
    [[Hm Hn]|(m & c & l2' & -> & Hm & Hc & Hn & Hkey & Hcmp)];
  rewrite Hn; cbn [mbind outcome_bind unwrap]; rewrite ?Hkey; cbn [mbind outcome_bind unwrap];
  rewrite ?Hcmp.

Lemma find_or_near_loop_spec sk l1 l2 k near p h fuel :
  inv sk (l1 ++ l2) → ok k → stands p l1 h → h < SKL_MAX_HEIGHT → below k l1 → length l2 + h < fuel →
  ∃ r, find_or_near_loop cmp fuel (sk_arena sk) (enc k) near p h = Ok r ∧
    seek_post (l1 ++ l2) k (λ c _, Some (c_ptr c)) (λ c _, if near then Some (c_ptr c) else None) r.
Proof.
  intros I Hk. revert l1 l2 p h I.
  induction fuel as [|fuel IH]; intros l1 l2 p h I Hp Hh Hb Hf; [lia|]. cbn [find_or_near_loop].
  turn I Hk Hp Hh.
  - destruct h as [|h].
    + eexists. split; [done|]. exists l1, l2. split_and!; [done|done|].
      rewrite (at_level_nil_0 0 l2) by (done || by eapply inv_heights_pos). done.
    + apply IH; [done|by apply stands_down|lia|done|lia].
  - rewrite length_app in Hf. cbn [length] in Hf. destruct (kcmp k (c_key c)) eqn:Ec.
    + eexists. split; [done|]. exists (l1 ++ m), (c :: l2'). rewrite <- app_assoc.
      split_and!; [done|by eapply below_eq|by left].
    + destruct h as [|h].
      * pose proof (level_0_head _ _ _ _ _ I Hm) as ->. exists (if near then Some (c_ptr c) else None).
        split; [by destruct near|]. exists l1, (c :: l2'). split_and!; [done|done|by right].
      * apply IH; [done|by apply stands_down|lia|done|]. rewrite length_app. cbn. lia.
    + replace (l1 ++ m ++ c :: l2') with ((l1 ++ m ++ [c]) ++ l2') by by rewrite <- !app_assoc.
      apply IH; [by apply inv_regroup|by apply stands_right|done|by eapply below_right|lia].
Qed.

Lemma find_next_loop_spec sk l1 l2 k p h fuel :
  inv sk (l1 ++ l2) → ok k → stands p l1 h → h < SKL_MAX_HEIGHT → below k l1 → length l2 + h < fuel →
  ∃ r, find_next_loop cmp fuel (sk_arena sk) (enc k) p h = Ok r ∧
    seek_post (l1 ++ l2) k (λ _ l3, c_ptr <$> head l3) (λ c _, Some (c_ptr c)) r.
Proof.
  intros I Hk. revert l1 l2 p h I.
  induction fuel as [|fuel IH]; intros l1 l2 p h I Hp Hh Hb Hf; [lia|]. cbn [find_next_loop].
  turn I Hk Hp Hh.
  - destruct h as [|h].
    + eexists. split; [done|]. exists l1, l2. split_and!; [done|done|].
      rewrite (at_level_nil_0 0 l2) by (done || by eapply inv_heights_pos). done.
    + apply IH; [done|by apply stands_down|lia|done|lia].
  - rewrite length_app in Hf. cbn [length] in Hf. destruct (kcmp k (c_key c)) eqn:Ec.
    + pose proof (inv_regroup _ _ _ _ _ I) as I'. rewrite (next_at _ _ _ _ 0 I').
      * eexists. split; [done|]. exists (l1 ++ m), (c :: l2'). rewrite <- app_assoc.
        split_and!; [done|by eapply below_eq|left; split; [done|]].
        by rewrite at_level_0 by by eapply inv_heights_pos.
      * apply stands_right. lia.
      * unfold SKL_MAX_HEIGHT. lia.
    + destruct h as [|h].
      * pose proof (level_0_head _ _ _ _ _ I Hm) as ->. eexists. split; [done|].
        exists l1, (c :: l2'). split_and!; [done|done|by right].
      * apply IH; [done|by apply stands_down|lia|done|]. rewrite length_app. cbn. lia.
    + replace (l1 ++ m ++ c :: l2') with ((l1 ++ m ++ [c]) ++ l2') by by rewrite <- !app_assoc.
      apply IH; [by apply inv_regroup|by apply stands_right|done|by eapply below_right|lia].
Qed.

Lemma find_prev_loop_spec sk l1 l2 k p h fuel :
  inv sk (l1 ++ l2) → ok k → stands p l1 h → h < SKL_MAX_HEIGHT → below k l1 → length l2 + h < fuel →
  ∃ l1' l2', find_prev_loop cmp fuel (sk_arena sk) 8 (enc k) p h = Ok (c_ptr <$> last l1') ∧
    l1 ++ l2 = l1' ++ l2' ∧ below k l1' ∧ Forall (λ c, kcmp k (c_key c) ≠ Gt) (option_list (head l2')).
Proof.
  intros I Hk. revert l1 l2 p h I.
  induction fuel as [|fuel IH]; intros l1 l2 p h I Hp Hh Hb Hf; [lia|]. cbn [find_prev_loop].
  assert (∀ l2', Forall (λ c, kcmp k (c_key c) ≠ Gt) (option_list (head l2')) → l2' = l2 → h = 0 →
    ∃ l1' l2', (if (8 =? p)%Z then Ok None else Ok (Some p)) = Ok (c_ptr <$> last l1') ∧
      l1 ++ l2 = l1' ++ l2' ∧ below k l1' ∧ Forall (λ c, kcmp k (c_key c) ≠ Gt) (option_list (head l2')))
    as Hend.
  { intros l2' Hl2 -> _. exists l1, l2. split_and!; [|done|done|done].
    destruct Hp as [[-> ->]|(l0 & c & -> & -> & _)]; [done|]. rewrite last_snoc.
    pose proof (inv_nodup _ _ _ _ _ I) as Hnd. apply NoDup_cons in Hnd as [H8 _].
    rewrite (proj2 (Z.eqb_neq _ _)); [done|]. intros Heq. apply H8. rewrite Heq.
    apply list_elem_of_fmap. exists c. split; [done|]. set_solver. }
  turn I Hk Hp Hh.
  - destruct h as [|h]; [|apply IH; [done|by apply stands_down|lia|done|lia]].
    eapply Hend; [|done|done]. rewrite (at_level_nil_0 0 l2) by (done || by eapply inv_heights_pos).
    constructor.
  - rewrite length_app in Hf. cbn [length] in Hf.
    assert (kcmp k (c_key c) ≠ Gt → h = 0 → Forall (λ c, kcmp k (c_key c) ≠ Gt) (option_list (head (m ++ c :: l2'))))
      as Hhead.
    { intros Hne ->. pose proof (level_0_head _ _ _ _ _ I Hm) as ->. by repeat constructor. }
    destruct (kcmp k (c_key c)) eqn:Ec; cbn [mbind outcome_bind].
    1,2: destruct h as [|h]; [by eapply Hend; [apply Hhead|..]|];
      apply IH; [done|by apply stands_down|lia|done|rewrite length_app; cbn; lia].
    replace (l1 ++ m ++ c :: l2') with ((l1 ++ m ++ [c]) ++ l2') by by rewrite <- !app_assoc.
    apply IH; [by apply inv_regroup|by apply stands_right|done|by eapply below_right|lia].
Qed.

Lemma find_last_loop_spec sk l1 l2 p h fuel :
  inv sk (l1 ++ l2) → stands p l1 h → h < SKL_MAX_HEIGHT → length l2 + h < fuel →
  find_last_loop fuel (sk_arena sk) p h = Ok (Some (last_or 8 (c_ptr <$> l1 ++ l2))).
Proof.
  revert l1 l2 p h.
  induction fuel as [|fuel IH]; intros l1 l2 p h I Hp Hh Hf; [lia|]. cbn [find_last_loop].
  rewrite (next_at _ _ _ _ _ I Hp Hh). cbn [mbind outcome_bind].
  destruct (at_level h l2) as [|c rest] eqn:El; cbn [head fmap option_fmap option_map].
  - destruct h as [|h]; [|apply IH; [done|by apply stands_down|lia|lia]].
    rewrite (at_level_nil_0 0 l2) by (done || by eapply inv_heights_pos). rewrite app_nil_r.
    destruct Hp as [[-> ->]|(l0 & c & -> & -> & _)]; [done|]. rewrite fmap_app. change (c_ptr <$> [c]) with [c_ptr c]. by rewrite last_or_snoc.
  - apply at_level_head in El as (m & l2' & -> & Hm & Hc & _). rewrite length_app in Hf. cbn in Hf.
    rewrite (IH (l1 ++ m ++ [c]) l2'); [|by apply inv_regroup|by apply stands_right|done|lia].
    by rewrite <- !app_assoc.
Qed.

(** *** The searches from the head *)

Lemma stands_head h : @stands K 8 [] h.
Proof. by left. Qed.

Lemma start_level sk l : inv sk l → usub (sk_height sk) 1 = Ok (sk_height sk - 1) ∧
  sk_height sk - 1 < SKL_MAX_HEIGHT ∧ length l + (sk_height sk - 1) < descent_fuel sk ∧ sk_head sk = 8%Z.
Proof.
  intros I. pose proof (inv_height _ _ _ _ _ I). rewrite usub_Ok by lia. unfold descent_fuel.
  rewrite (inv_fuel _ _ I). split_and!; [done|lia|lia|apply (inv_head _ _ _ _ _ I)].
Qed.

Lemma find_or_near_spec sk l k near :
  inv sk l → ok k →
  ∃ r, find_or_near cmp sk (enc k) near = Ok r ∧
    seek_post l k (λ c _, Some (c_ptr c)) (λ c _, if near then Some (c_ptr c) else None) r.
Proof.
  intros I Hk. destruct (start_level _ _ I) as (Hu & Hh & Hf & Hd). unfold find_or_near.
  rewrite Hu, Hd. cbn [mbind outcome_bind].
  apply (find_or_near_loop_spec sk [] l); [done|done|apply stands_head|done|constructor|done].
Qed.

Lemma find_next_spec sk l k :
  inv sk l → ok k →
  ∃ r, find_next cmp sk (enc k) = Ok r ∧ seek_post l k (λ _ l3, c_ptr <$> head l3) (λ c _, Some (c_ptr c)) r.
Proof.
  intros I Hk. destruct (start_level _ _ I) as (Hu & Hh & Hf & Hd). unfold find_next.
  rewrite Hu, Hd. cbn [mbind outcome_bind].
  apply (find_next_loop_spec sk [] l); [done|done|apply stands_head|done|constructor|done].
Qed.

Lemma find_prev_spec sk l k :
  inv sk l → ok k →
  ∃ l1 l2, find_prev cmp sk (enc k) = Ok (c_ptr <$> last l1) ∧ l = l1 ++ l2 ∧ below k l1 ∧
    Forall (λ c, kcmp k (c_key c) ≠ Gt) (option_list (head l2)).
Proof.
  intros I Hk. destruct (start_level _ _ I) as (Hu & Hh & Hf & Hd). unfold find_prev.
  rewrite Hu, Hd. cbn [mbind outcome_bind].
  apply (find_prev_loop_spec sk [] l); [done|done|apply stands_head|done|constructor|done].
Qed.

Lemma find_last_spec sk l : inv sk l → find_last sk = Ok (Some (last_or 8 (c_ptr <$> l))).
Proof.
  intros I. destruct (start_level _ _ I) as (Hu & Hh & Hf & Hd). unfold find_last.
  rewrite Hu, Hd. cbn [mbind outcome_bind].
  apply (find_last_loop_spec sk [] l); [done|apply stands_head|done|done].
Qed.

End Search.
