(* ===== verification/SkipListPush.v ===== *)
(** * SkipListPush: pushing into the skip list keeps it a sorted map

    The proof that [push] (SkipList.v, src/src/util/skip_list.rs) keeps the
    invariant of SkipListInv.v and inserts into the sorted list it stands for. *)
From stdpp Require Import base list gmap sorting.
From Stdlib Require Import ZArith Lia.
From S2P Require Import Prelude VarInt Kv Iter Arena SkipList SkipListInv.

Local Open Scope nat_scope.

(* ------------------------------------------------------------------ *)
(** ** Allocation *)

(** The word [set_value] stores. *)
Lemma value_slice_word n off len :
  in_width 32 off → in_width 32 len →
  Node_value_slice (with_value_slice n (Z.lor (Z.shiftl off 32) (u64 len))) = (off, len).
Proof.
  unfold in_width. intros Ho Hl. unfold Node_value_slice, u64. cbn [nd_value_slice with_value_slice].
  rewrite (Z.mod_small len) by lia. f_equal.
  - rewrite Z.shiftr_lor, Z.shiftr_shiftl_l, Z.sub_diag, Z.shiftl_0_r by lia.
    rewrite (Z.shiftr_div_pow2 len), (Z.div_small len), Z.lor_0_r by lia.
    unfold u32. by rewrite Z.mod_small by lia.
  - unfold u32. rewrite <- Z.land_ones, Z.land_lor_distr_l, !Z.land_ones by lia.
    rewrite Z.shiftl_mul_pow2, Z.mod_mul by lia. cbn. by rewrite Z.mod_small by lia.
Qed.

(** [ar'] has what [ar] has: slices, and nodes up to their links. *)
Definition same_payload (n n' : Node) : Prop :=
  nd_value_slice n' = nd_value_slice n ∧ nd_key_offset n' = nd_key_offset n ∧
  nd_key_len n' = nd_key_len n ∧ length (nd_tower n') = length (nd_tower n).

Definition extends (ar ar' : Arena Node) : Prop :=
  (∀ off bs, has_slice ar off bs → has_slice ar' off bs) ∧
  ∀ p n, ar_nodes ar !! p = Some n → ∃ n', ar_nodes ar' !! p = Some n' ∧ same_payload n n'.

#[export] Instance extends_preorder : PreOrder extends.
Proof.
  split.
  - intros ar. split; [done|]. intros p n Hn. by exists n.
  - intros a b c [H1 H2] [H3 H4]. split; [by eauto|]. intros p n (n' & Hn' & Hs)%H2.
    destruct (H4 _ _ Hn') as (n'' & Hn'' & Hs'). exists n''. split; [done|].
    unfold same_payload in *. naive_solver congruence.
Qed.

Lemma same_payload_holds ar ar' n n' k v :
  (∀ off bs, has_slice ar off bs → has_slice ar' off bs) → same_payload n n' →
  node_holds ar n k v → node_holds ar' n' k v.
Proof.
  intros Hs (Hv & Ho & Hl & _) (Hk & Hkl & off & Hvs & Hval). unfold node_holds.
  rewrite Ho, Hl. split_and!; [by apply Hs|done|]. exists off. split; [|by apply Hs].
  unfold Node_value_slice in *. by rewrite Hv.
Qed.

Lemma extends_stored {K} (enc : K → list Z) ar ar' (c : cell K) :
  extends ar ar' → cell_stored enc ar c → cell_stored enc ar' c.
Proof.
  intros [Hs Hn] (n & Hc & Ht & Hh). destruct (Hn _ _ Hc) as (n' & Hc' & Hp).
  exists n'. split_and!; [done|destruct Hp as (_ & _ & _ & ->); done|]. by eapply same_payload_holds.
Qed.

(** The bytes a new node, and a new value, take. *)
Definition node_cost (key value : list Z) : Z :=
  (SKL_MAX_NODE_SIZE + round8 (Z.of_nat (length key)) + round8 (Z.of_nat (length value)))%Z.

Definition value_cost (value : list Z) : Z := round8 (Z.of_nat (length value)).

Definition fits (ar : Arena Node) (cost : Z) : Prop := (ar_ptr_offset ar + cost <= ar_size ar)%Z.

#[export] Instance fits_dec ar cost : Decision (fits ar cost).
Proof. unfold fits. apply _. Defined.

Lemma round8_nonneg n : (0 <= n → 0 <= round8 n)%Z.
Proof. pose proof (round8_bounds n). lia. Qed.

Lemma round8_len_pos (l : list Z) : (0 <= round8 (Z.of_nat (length l)))%Z.
Proof. apply round8_nonneg. lia. Qed.

Lemma Node_set_value_spec ar p n value :
  arena_wf ar → ar_nodes ar !! p = Some n → (Z.of_nat (length value) < 2 ^ 32)%Z →
  if decide (fits ar (value_cost value)) then
    ∃ n' ss, Node_set_value ar p value =
      Ok (mkArena (ar_ptr_offset ar + value_cost value) (ar_size ar) (<[p := n']> (ar_nodes ar)) ss) ∧
      (∃ off, Node_value_slice n' = (off, Z.of_nat (length value)) ∧
        ∀ ns : gmap Z Node, has_slice (mkArena (ar_ptr_offset ar + value_cost value) (ar_size ar) ns ss) off value) ∧
      nd_key_offset n' = nd_key_offset n ∧ nd_key_len n' = nd_key_len n ∧
      nd_prev n' = nd_prev n ∧ nd_tower n' = nd_tower n ∧
      (∀ (ns : gmap Z Node) off bs, has_slice ar off bs →
        has_slice (mkArena (ar_ptr_offset ar + value_cost value) (ar_size ar) ns ss) off bs)
  else Node_set_value ar p value = Panic.
Proof.
  intros Hwf Hn Hlen. unfold Node_set_value. rewrite alloc_slice_copy_spec by (done || lia).
  unfold value_cost. cbv zeta. destruct (decide (fits _ _)) as [Hfit|Hfit]; unfold fits in Hfit; cycle 1.
  { rewrite decide_False by done. done. }
  rewrite decide_True by done.
  destruct Hwf as (Hp & _ & Hsz). pose proof (round8_len_pos value).
  cbn [mbind outcome_bind]. unfold offset_slice. rewrite (proj2 (Z.ltb_lt _ _)) by lia.
  cbn [assert_or_panic mbind outcome_bind]. unfold deref. cbn [ar_nodes]. rewrite Hn.
  cbn [unwrap mbind outcome_bind]. rewrite u32_small by (unfold in_width; lia).
  eexists _, _. split; [reflexivity|]. split_and!; try done.
  - exists (ar_ptr_offset ar). split.
    + apply value_slice_word; unfold in_width; lia.
    + intros ns. apply (has_slice_new ar value). lia.
  - intros ns off bs Hb. apply (has_slice_alloc ar value) in Hb. exact Hb.
Qed.

(** A new node at the end of the arena. *)
Definition fresh_node (ar : Arena Node) (key value : list Z) (n : Node) (ar' : Arena Node) : Prop :=
  ar_ptr_offset ar' = (ar_ptr_offset ar + node_cost key value)%Z ∧ ar_size ar' = ar_size ar ∧
  ar_nodes ar' = <[ar_ptr_offset ar := n]> (ar_nodes ar) ∧ nd_prev n = 8%Z ∧
  nd_tower n = replicate SKL_MAX_HEIGHT 0%Z ∧ node_holds ar' n key value ∧
  (∀ off bs, has_slice ar off bs → has_slice ar' off bs) ∧ arena_wf ar'.

(** The arena after the node and its key are there, before its value is. *)
Definition keyed_arena (ar : Arena Node) (key : list Z) (height : nat) : Arena Node :=
  let p := ar_ptr_offset ar in
  let k := (p + SKL_MAX_NODE_SIZE)%Z in
  mkArena (k + round8 (Z.of_nat (length key))) (ar_size ar)
    (<[p := mkNode 0 k (Z.of_nat (length key)) (u16 (Z.of_nat height)) 8 (replicate SKL_MAX_HEIGHT 0%Z)]>
       (ar_nodes ar))
    (<[k := key]> (ar_slices ar)).

Lemma keyed_arena_wf ar key height :
  arena_wf ar → fits ar (SKL_MAX_NODE_SIZE + round8 (Z.of_nat (length key))) →
  arena_wf (keyed_arena ar key height).
Proof.
  intros Hwf Hf. unfold fits in Hf. pose proof (round8_len_pos key).
  eapply (arena_wf_grow (mkArena (ar_ptr_offset ar + round8 SKL_MAX_NODE_SIZE) (ar_size ar) ∅ ∅));
    [|lia|cbn [ar_ptr_offset ar_size]; change (round8 SKL_MAX_NODE_SIZE) with SKL_MAX_NODE_SIZE; lia].
  apply arena_wf_grow; [done|done|]. change (round8 SKL_MAX_NODE_SIZE) with SKL_MAX_NODE_SIZE. lia.
Qed.

Lemma Node_new_keyed ar key value height :
  arena_wf ar → (Z.of_nat (length key) < 2 ^ 16)%Z →
  Node_new ar key value height =
    if decide (fits ar (SKL_MAX_NODE_SIZE + round8 (Z.of_nat (length key))))
    then ar' ← Node_set_value (keyed_arena ar key height) (ar_ptr_offset ar) value; Ok (ar_ptr_offset ar, ar')
    else Panic.
Proof.
  intros Hwf Hk. unfold Node_new, alloc_with. pose proof (round8_len_pos key).
  destruct Hwf as (Hp & Hm & Hsz) eqn:E. clear E.
  rewrite alloc_layout_spec by (done || (unfold SKL_MAX_NODE_SIZE; lia)).
  change (round8 SKL_MAX_NODE_SIZE) with SKL_MAX_NODE_SIZE.
  destruct (decide (fits ar _)) as [Hf|Hf]; unfold fits in Hf; cycle 1.
  { case_decide as Hf1; [|done]. cbn [mbind outcome_bind]. rewrite alloc_slice_copy_spec; [| |lia].
    - rewrite decide_False; [done|]. cbn. lia.
    - eapply (arena_wf_grow ar SKL_MAX_NODE_SIZE); [done|done|exact Hf1]. }
  rewrite decide_True by lia. cbn [mbind outcome_bind ar_ptr_offset ar_size ar_nodes ar_slices].
  rewrite alloc_slice_copy_spec; [| |lia]; cycle 1.
  { eapply (arena_wf_grow ar SKL_MAX_NODE_SIZE); [done|done|].
    change (round8 SKL_MAX_NODE_SIZE) with SKL_MAX_NODE_SIZE. lia. }
  cbv zeta. cbn [ar_ptr_offset ar_size ar_nodes ar_slices]. rewrite decide_True by lia.
  cbn [mbind outcome_bind]. unfold offset_slice.
  rewrite (proj2 (Z.ltb_lt _ _)) by (unfold SKL_MAX_NODE_SIZE; lia).
  cbn [assert_or_panic mbind outcome_bind]. unfold deref. cbn [ar_nodes]. rewrite lookup_insert_eq.
  cbn [unwrap mbind outcome_bind Node_default nd_value_slice nd_tower].
  rewrite u32_small by (unfold in_width, SKL_MAX_NODE_SIZE in *; lia).
  unfold u16 at 1. rewrite (Z.mod_small (Z.of_nat (length key))) by lia.
  unfold store_node. cbn [ar_ptr_offset ar_size ar_nodes ar_slices]. rewrite insert_insert_eq. done.
Qed.

Lemma keyed_arena_slices ar key height off bs :
  has_slice ar off bs → has_slice (keyed_arena ar key height) off bs.
Proof.
  intros [Ho Hb]. split; [done|]. destruct Hb as [->|[Hl Hlt]]; [by left|right].
  pose proof (round8_len_pos key). unfold keyed_arena, SKL_MAX_NODE_SIZE. cbn.
  rewrite lookup_insert_ne by lia. split; [done|lia].
Qed.

Lemma Node_new_spec ar key value height :
  arena_wf ar → (Z.of_nat (length key) < 2 ^ 16)%Z → (Z.of_nat (length value) < 2 ^ 32)%Z →
  if decide (fits ar (node_cost key value)) then
    ∃ n ar', Node_new ar key value height = Ok (ar_ptr_offset ar, ar') ∧ fresh_node ar key value n ar'
  else Node_new ar key value height = Panic.
Proof.
  intros Hwf Hk Hv. rewrite Node_new_keyed by done. pose proof (round8_len_pos value).
  destruct (decide (fits ar (SKL_MAX_NODE_SIZE + _))) as [Hf|Hf]; cycle 1.
  { rewrite decide_False; [done|]. unfold fits, node_cost in *. lia. }
  pose proof (keyed_arena_wf ar key height Hwf Hf) as Hwf'.
  pose proof (Node_set_value_spec _ (ar_ptr_offset ar) _ value Hwf' (lookup_insert_eq _ _ _) Hv) as Hset.
  assert (fits (keyed_arena ar key height) (value_cost value) ↔ fits ar (node_cost key value)) as Hiff.
  { unfold fits, node_cost, value_cost, keyed_arena. cbn. lia. }
  destruct (decide (fits (keyed_arena _ _ _) _)) as [Hf2|Hf2]; cycle 1.
  { rewrite decide_False by tauto. by rewrite Hset. }
  rewrite decide_True by tauto. destruct Hwf as (Hp & Hm & Hsz).
  destruct Hset as (n & ss & -> & (off & Hvs & Hval) & Hko & Hkl & Hpr & Htw & Hold).
  cbn [mbind outcome_bind]. exists n. eexists. split; [reflexivity|].
  unfold fresh_node. cbn [ar_ptr_offset ar_size ar_nodes ar_slices].
  split_and!; [unfold keyed_arena, node_cost, value_cost; cbn; lia|done| |done|done| | |].
  - unfold keyed_arena. cbn. by rewrite insert_insert_eq.
  - split_and!; [|done|by exists off]. rewrite Hko. apply Hold. cbn [nd_key_offset].
    split; [unfold SKL_MAX_NODE_SIZE; lia|]. destruct key as [|x key]; [by left|right].
    unfold keyed_arena. cbn [ar_slices ar_ptr_offset]. rewrite lookup_insert_eq. split; [done|].
    pose proof (round8_bounds (Z.of_nat (length (x :: key)))). cbn [length] in *. lia.
  - intros o bs Ho. by apply Hold, keyed_arena_slices.
  - apply arena_wf_grow; [done|lia|exact Hf2].
Qed.

(* ------------------------------------------------------------------ *)
(** ** The neighbours of a key on each level *)

Section Splices.
Context {K : Type} (cmp : list Z → list Z → comparison) (kcmp : K → K → comparison)
  (enc : K → list Z) (ok : K → Prop) `{!KeyCoding cmp kcmp enc ok}.
Implicit Types (sk : SkipListInner) (l : list (cell K)).

Abbreviation inv := (skl_inv kcmp enc ok).
Abbreviation below := (below kcmp).

Definition not_below (k : K) l : Prop := Forall (λ c, kcmp k (c_key c) ≠ Gt) l.

Lemma below_elem k l c : below k l → c ∈ l → kcmp k (c_key c) = Gt.
Proof. intros H. by apply (proj1 (Forall_forall _ _) H). Qed.

Lemma not_below_elem k l c : not_below k l → c ∈ l → kcmp k (c_key c) ≠ Gt.
Proof. intros H. by apply (proj1 (Forall_forall _ _) H). Qed.

(** A list splits in one way. *)
Lemma split_below k l1 l2 L1 L2 :
  l1 ++ l2 = L1 ++ L2 → below k l1 → below k L1 → not_below k L2 →
  ∃ m, L1 = l1 ++ m ∧ l2 = m ++ L2.
Proof.
  intros Heq H1 HL1 HL2. apply app_eq_app in Heq as (x & [[-> ->]|[-> ->]]); [|by exists x].
  destruct x as [|c x]; [exists []; by rewrite !app_nil_r|exfalso].
  apply (not_below_elem k _ c HL2); [set_solver|]. apply (below_elem k _ c H1). set_solver.
Qed.

(** What [find_splice_for_level] finds, by the split of the list. *)
Lemma splice_cases sk L1 L2 k h r :
  inv sk (L1 ++ L2) → below k L1 → not_below k L2 → splice_post kcmp (L1 ++ L2) k h r →
  (∃ c L3, L2 = c :: L3 ∧ kcmp k (c_key c) = Eq ∧ r = (Some (c_ptr c), Some (c_ptr c))) ∨
  (r = (Some (last_or 8 (ptrs h L1)), head (ptrs h L2)) ∧ r.1 ≠ r.2 ∧
   (∀ c, h = 0 → head L2 = Some c → kcmp k (c_key c) = Lt) ∧
   ∃ p l1 l2, r.1 = Some p ∧ stands p l1 h ∧ L1 ++ L2 = l1 ++ l2 ∧ below k l1).
Proof.
  intros I HL1 HL2 (l1 & l2 & Heq & Hb & Hcase). pose proof I as I'. rewrite Heq in I.
  destruct (split_below _ _ _ _ _ (eq_sym Heq) Hb HL1 HL2) as (m & -> & ->).
  assert (Hnd : ∀ q, q ∈ ptrs h L2 → last_or 8 (ptrs h (l1 ++ m)) ≠ q).
  { intros q Hq. pose proof (ptrs_nodup h _ (inv_nodup _ _ _ _ _ I')) as Hnd. rewrite ptrs_app in Hnd.
    change (8%Z :: ptrs h (l1 ++ m) ++ ptrs h L2) with ((8%Z :: ptrs h (l1 ++ m)) ++ ptrs h L2) in Hnd.
    apply NoDup_app in Hnd as (_ & Hnd & _). intros <-. eapply Hnd; [apply last_or_elem|done]. }
  destruct (at_level h (m ++ L2)) as [|c rest] eqn:El.
  - destruct Hcase as (p & Hp & ->). right. rewrite at_level_app in El. apply app_nil in El as [Hm HL].
    assert (ptrs h L2 = []) as HpL by (unfold ptrs; by rewrite HL).
    rewrite ptrs_app, HpL. unfold ptrs at 2. rewrite Hm, app_nil_r, (stands_last _ _ _ Hp).
    split_and!; [done|done| |by exists p, l1, (m ++ L2)]. intros c -> Hc.
    pose proof (at_level_nil_0 0 L2) as Hnil. rewrite Hnil in Hc; [done| |done|done].
    by eapply (inv_heights_pos _ _ _ sk (l1 ++ m)).
  - pose proof El as (m' & l2' & Heq' & Hm' & Hc & Hrest)%at_level_head. destruct Hcase as [[Ec ->]|[Ec (p & Hp & ->)]].
    + left. rewrite Heq' in I. pose proof (below_eq _ _ _ _ _ _ _ _ _ _ I Hb Ec) as Hb'.
      assert ((l1 ++ m') ++ c :: l2' = (l1 ++ m) ++ L2) as Heq2 by (rewrite <- !app_assoc; by f_equal).
      destruct (split_below _ _ _ _ _ Heq2 Hb' HL1 HL2) as (x & Hx & Hl). destruct x as [|d x].
      { exists c, l2'. by split_and!. }
      cbn in Hl. injection Hl as <- Hl. exfalso.
      assert (kcmp k (c_key c) = Gt) by (apply (below_elem k (l1 ++ m)); [done|rewrite Hx; set_solver]). congruence.
    + right. assert (∃ x, m' = m ++ x ∧ L2 = x ++ c :: l2') as (x & -> & ->).
      { apply app_eq_app in Heq' as (x & [[-> Hx]|[-> ->]]); [|by exists x].
        destruct x as [|d x]; [exists []; by rewrite !app_nil_r in *|]. cbn in Hx. injection Hx as <- Hx.
        exfalso. assert (kcmp k (c_key c) = Gt) by (apply (below_elem k (l1 ++ m' ++ c :: x)); [done|set_solver]).
        congruence. }
      rewrite at_level_app in Hm'. apply app_nil in Hm' as [Hm Hx].
      assert (ptrs h (x ++ c :: l2') = c_ptr c :: ptrs h l2') as HpL.
      { rewrite ptrs_app. unfold ptrs at 1. rewrite Hx. by rewrite ptrs_cons_in. }
      rewrite HpL in Hnd |- *. rewrite ptrs_app. unfold ptrs at 2. rewrite Hm, app_nil_r, (stands_last _ _ _ Hp).
      cbn [head fst snd]. split_and!; [done| | |by eexists p, l1, _].
      * intros [= Heqp]. apply (Hnd (c_ptr c)); [left|]. rewrite ptrs_app. unfold ptrs at 2.
        rewrite Hm, app_nil_r, (stands_last _ _ _ Hp). done.
      * intros d -> Hd. assert (x = []) as ->; [|by injection Hd as ->].
        eapply at_level_nil_0; [|exact Hx|done]. pose proof (inv_heights_pos _ _ _ sk (l1 ++ m) _ I') as Hf.
        by apply Forall_app in Hf as [Hf _].
Qed.

(** The entries of the two arrays at level [h]. *)
Definition splice_at (L1 L2 : list (cell K)) (prev next : list (option Z)) (h : nat) : Prop :=
  prev !! h = Some (Some (last_or 8 (ptrs h L1))) ∧ next !! h = Some (head (ptrs h L2)).

Lemma set_idx_Ok {A} (l : list A) i x : i < length l → set_idx l i x = Ok (<[i := x]> l).
Proof. intros. unfold set_idx. by rewrite (proj2 (Nat.ltb_lt _ _)). Qed.

Lemma find_splices_spec sk L1 L2 k H prev next p l1 l2 :
  inv sk (L1 ++ L2) → ok k → below k L1 → not_below k L2 → H <= SKL_MAX_HEIGHT →
  length prev = S SKL_MAX_HEIGHT → length next = S SKL_MAX_HEIGHT →
  prev !! H = Some (Some p) → stands p l1 H → L1 ++ L2 = l1 ++ l2 → below k l1 →
  ∃ r, find_splices cmp H sk (enc k) prev next = Ok r ∧
    match r with
    | inl o => ∃ c L3, L2 = c :: L3 ∧ kcmp k (c_key c) = Eq ∧ o = Some (c_ptr c)
    | inr (prev', next') =>
        length prev' = S SKL_MAX_HEIGHT ∧ length next' = S SKL_MAX_HEIGHT ∧
        (∀ c, 0 < H → head L2 = Some c → kcmp k (c_key c) = Lt) ∧
        (∀ h, h < H → splice_at L1 L2 prev' next' h) ∧
        (∀ h, H <= h → prev' !! h = prev !! h ∧ next' !! h = next !! h)
    end.
Proof.
  intros I Hk HL1 HL2. revert prev next p l1 l2.
  induction H as [|H IH]; intros prev next p l1 l2 HH Hlp Hln Hp Hst Hl Hb; cbn [find_splices].
  { eexists. split; [done|]. split_and!; [done|done|lia|lia|done]. }
  rewrite (idx_Ok _ _ _ Hp). cbn [mbind outcome_bind].
  destruct (find_splice_for_level_spec cmp kcmp enc ok sk l1 l2 k p H) as (r & Hr & Hpost);
    [by rewrite <- Hl|done|by apply stands_down|lia|done|].
  rewrite Hr. cbn [mbind outcome_bind]. destruct r as [q n].
  rewrite set_idx_Ok by lia. cbn [mbind outcome_bind]. rewrite set_idx_Ok by lia. cbn [mbind outcome_bind].
  rewrite <- Hl in Hpost.
  destruct (splice_cases _ _ _ _ _ _ I HL1 HL2 Hpost) as
    [(c & L3 & -> & Ec & [= -> ->])|([= -> ->] & Hne & Hz & p' & l1' & l2' & Hp' & Hst' & Hl' & Hb')].
  { rewrite bool_decide_true by done. eexists. split; [done|]. by exists c, L3. }
  cbn [fst snd] in Hne, Hp'. rewrite bool_decide_false by done. injection Hp' as Hp'.
  destruct (IH (<[H := Some (last_or 8 (ptrs H L1))]> prev) (<[H := head (ptrs H L2)]> next) p' l1' l2')
    as (r & Hr' & Hpost'); [lia|by rewrite length_insert|by rewrite length_insert| |done|done|done|].
  { rewrite list_lookup_insert_eq by lia. by rewrite Hp'. }
  exists r. split; [done|]. destruct r as [o|[prev' next']]; [done|].
  destruct Hpost' as (Hlp' & Hln' & Hlt & Hlow & Hhigh). split_and!; [done|done| | |].
  - intros c _ Hc. destruct H as [|H]; [by apply Hz|apply Hlt; [lia|done]].
  - intros h Hh. destruct (decide (h = H)) as [->|]; [|apply Hlow; lia].
    destruct (Hhigh H) as [Hh1 Hh2]; [lia|]. unfold splice_at. rewrite Hh1, Hh2.
    by rewrite !list_lookup_insert_eq by lia.
  - intros h Hh. destruct (Hhigh h) as [-> ->]; [lia|]. by rewrite !list_lookup_insert_ne by lia.
Qed.

End Splices.

(* ------------------------------------------------------------------ *)
(** ** Writing links *)

(** [sk'] is [sk] with other links. *)
Record relinked (sk sk' : SkipListInner) : Prop := {
  rl_height : sk_height sk' = sk_height sk;
  rl_head : sk_head sk' = sk_head sk;
  rl_ptr : ar_ptr_offset (sk_arena sk') = ar_ptr_offset (sk_arena sk);
  rl_size : ar_size (sk_arena sk') = ar_size (sk_arena sk);
  rl_slices : ar_slices (sk_arena sk') = ar_slices (sk_arena sk);
  rl_nodes : ∀ p, option_relation same_payload (λ _, False) (λ _, False)
               (ar_nodes (sk_arena sk) !! p) (ar_nodes (sk_arena sk') !! p)
}.

Lemma same_payload_refl n : same_payload n n.
Proof. done. Qed.

Lemma relinked_refl sk : relinked sk sk.
Proof. split; try done. intros p. by destruct (_ !! p). Qed.

Lemma relinked_trans a b c : relinked a b → relinked b c → relinked a c.
Proof.
  intros H1 H2. destruct H1 as [? ? ? ? ? Hn1], H2 as [? ? ? ? ? Hn2]. split; try congruence.
  intros p. specialize (Hn1 p). specialize (Hn2 p).
  destruct (_ !! p), (ar_nodes (sk_arena b) !! p), (ar_nodes (sk_arena c) !! p); cbn in *; try done.
  unfold same_payload in *. naive_solver congruence.
Qed.

Lemma relinked_store sk p n n' :
  ar_nodes (sk_arena sk) !! p = Some n → same_payload n n' →
  relinked sk (with_arena sk (store_node (sk_arena sk) p n')).
Proof.
  intros Hn Hs. split; try done. intros x. cbn. destruct (decide (x = p)) as [->|].
  - by rewrite lookup_insert_eq, Hn.
  - rewrite lookup_insert_ne by done. by destruct (_ !! x).
Qed.

Lemma relinked_extends sk sk' : relinked sk sk' → extends (sk_arena sk) (sk_arena sk').
Proof.
  intros R. split.
  - unfold has_slice. by rewrite (rl_slices _ _ R), (rl_ptr _ _ R).
  - intros p n Hn. pose proof (rl_nodes _ _ R p) as Hp. rewrite Hn in Hp.
    destruct (ar_nodes (sk_arena sk') !! p) as [n'|]; [|done]. by exists n'.
Qed.

Lemma relinked_wf sk sk' : relinked sk sk' → arena_wf (sk_arena sk) → arena_wf (sk_arena sk').
Proof. intros R. unfold arena_wf. by rewrite (rl_ptr _ _ R), (rl_size _ _ R). Qed.

Lemma relinked_dom sk sk' p :
  relinked sk sk' → is_Some (ar_nodes (sk_arena sk') !! p) ↔ is_Some (ar_nodes (sk_arena sk) !! p).
Proof.
  intros R. pose proof (rl_nodes _ _ R p) as Hp.
  destruct (_ !! p), (ar_nodes (sk_arena sk') !! p); cbn in Hp; try done.
Qed.

(** There is a node with a whole tower at [p]. *)
Definition towered (sk : SkipListInner) (p : Z) : Prop :=
  ∃ n, ar_nodes (sk_arena sk) !! p = Some n ∧ length (nd_tower n) = SKL_MAX_HEIGHT.

Lemma relinked_towered sk sk' p : relinked sk sk' → towered sk p → towered sk' p.
Proof.
  intros R (n & Hn & Ht). destruct (proj2 (relinked_extends _ _ R) _ _ Hn) as (n' & Hn' & Hs).
  exists n'. split; [done|]. destruct Hs as (_ & _ & _ & ->). done.
Qed.

Abbreviation towers sk := (tower_at (ar_nodes (sk_arena sk))).
Abbreviation prevs sk := (prev_at (ar_nodes (sk_arena sk))).

Lemma store_tower_spec sk p h x :
  towered sk p → h < SKL_MAX_HEIGHT →
  ∃ sk', store_tower sk p h x = Ok sk' ∧ relinked sk sk' ∧
    (∀ p' h', towers sk' p' h' = if decide (p' = p ∧ h' = h) then Some x else towers sk p' h') ∧
    (∀ p', prevs sk' p' = prevs sk p').
Proof.
  intros (n & Hn & Ht) Hh. unfold store_tower, deref. rewrite Hn. cbn [unwrap mbind outcome_bind].
  rewrite set_idx_Ok by lia. cbn [mbind outcome_bind]. eexists. split; [done|]. split_and!.
  - eapply relinked_store; [done|]. unfold same_payload. cbn. by rewrite length_insert.
  - intros p' h'. unfold tower_at. cbn. destruct (decide (p' = p)) as [->|Hp].
    + rewrite lookup_insert_eq, Hn. cbn. destruct (decide (h' = h)) as [->|].
      * rewrite list_lookup_insert_eq by lia. by rewrite decide_True.
      * rewrite list_lookup_insert_ne by done. rewrite decide_False by tauto. done.
    + rewrite lookup_insert_ne by done. by rewrite decide_False by tauto.
  - intros p'. unfold prev_at. cbn. destruct (decide (p' = p)) as [->|Hp].
    + by rewrite lookup_insert_eq, Hn.
    + by rewrite lookup_insert_ne by done.
Qed.

Lemma store_prev_spec sk p x :
  towered sk p →
  ∃ sk', store_prev sk p x = Ok sk' ∧ relinked sk sk' ∧
    (∀ p' h', towers sk' p' h' = towers sk p' h') ∧
    (∀ p', prevs sk' p' = if decide (p' = p) then Some x else prevs sk p').
Proof.
  intros (n & Hn & Ht). unfold store_prev, deref. rewrite Hn. cbn [unwrap mbind outcome_bind].
  eexists. split; [done|]. split_and!.
  - by eapply relinked_store.
  - intros p' h'. unfold tower_at. cbn. destruct (decide (p' = p)) as [->|Hp].
    + by rewrite lookup_insert_eq, Hn.
    + by rewrite lookup_insert_ne by done.
  - intros p'. unfold prev_at. cbn. case_decide as Hp.
    + subst. by rewrite lookup_insert_eq.
    + by rewrite lookup_insert_ne by done.
Qed.

Lemma exchange_tower_spec sk p h old new :
  towered sk p → h < SKL_MAX_HEIGHT → towers sk p h = Some old →
  ∃ sk', exchange_tower sk p h old new = Ok (true, sk') ∧ relinked sk sk' ∧
    (∀ p' h', towers sk' p' h' = if decide (p' = p ∧ h' = h) then Some new else towers sk p' h') ∧
    (∀ p', prevs sk' p' = prevs sk p').
Proof.
  intros Ht Hh Hold. destruct (store_tower_spec sk p h new Ht Hh) as (sk' & Hs & Hrest).
  exists sk'. split; [|done]. unfold tower_at in Hold. apply bind_Some in Hold as (n & Hn & Hold).
  unfold exchange_tower, deref. rewrite Hn. cbn [unwrap mbind outcome_bind].
  rewrite (idx_Ok _ _ _ Hold). cbn [mbind outcome_bind]. by rewrite Z.eqb_refl, Hs.
Qed.

Lemma exchange_prev_spec sk p old new :
  towered sk p → prevs sk p = Some old →
  ∃ sk', exchange_prev sk p old new = Ok (true, sk') ∧ relinked sk sk' ∧
    (∀ p' h', towers sk' p' h' = towers sk p' h') ∧
    (∀ p', prevs sk' p' = if decide (p' = p) then Some new else prevs sk p').
Proof.
  intros Ht Hold. destruct (store_prev_spec sk p new Ht) as (sk' & Hs & Hrest).
  exists sk'. split; [|done]. unfold prev_at in Hold. apply fmap_Some in Hold as (n & Hn & Hold).
  unfold exchange_prev, deref. rewrite Hn. cbn [unwrap mbind outcome_bind].
  by rewrite <- Hold, Z.eqb_refl, Hs.
Qed.

(** The pointers of an arena below 4 GiB are their offsets. *)
Lemma arena_offset_ptr p : (0 < p < 2 ^ 32)%Z → arena_offset (Some p) = Ok (Some p).
Proof.
  intros. unfold arena_offset. rewrite (proj2 (Z.ltb_lt _ _)) by lia. cbn [assert_or_panic mbind outcome_bind].
  by rewrite u32_small by (unfold in_width; lia).
Qed.

(* ------------------------------------------------------------------ *)
(** ** Linking a new cell level by level *)

Section Linking.
Context {K : Type} (cmp : list Z → list Z → comparison) (enc : K → list Z).
Context (L1 : list (cell K)) (c : cell K) (L2 : list (cell K)).

(** The cells level [h] links when the new cell is on the levels below [i]. *)
Definition partly (i h : nat) : list (cell K) := if h <? i then L1 ++ c :: L2 else L1 ++ L2.

Record linking (i : nat) (sk : SkipListInner) : Prop := {
  lk_head : sk_head sk = 8%Z;
  lk_wf : arena_wf (sk_arena sk);
  lk_links : ∀ h, h < SKL_MAX_HEIGHT → links (ar_nodes (sk_arena sk)) h 8 (ptrs h (partly i h));
  lk_back : back_links (ar_nodes (sk_arena sk)) 8 (c_ptr <$> partly i 0);
  lk_cells : Forall (cell_stored enc (sk_arena sk)) (L1 ++ c :: L2);
  lk_dom : ∀ p, is_Some (ar_nodes (sk_arena sk) !! p) ↔ p ∈ 8%Z :: (c_ptr <$> L1 ++ c :: L2);
  lk_below : ∀ p, p ∈ 8%Z :: (c_ptr <$> L1 ++ c :: L2) → (8 <= p < ar_ptr_offset (sk_arena sk))%Z;
  lk_head_tower : towered sk 8
}.

Context (Hnd : NoDup (8%Z :: (c_ptr <$> L1 ++ c :: L2))).
Context (Hheights : Forall (λ d : cell K, 1 <= c_ht d) (L1 ++ L2)) (Hht : 1 <= c_ht c <= SKL_MAX_HEIGHT).

(** The predecessor and the successor of the new cell on level [h]. *)
Definition pred_of (h : nat) : Z := last_or 8 (ptrs h L1).
Definition succ_of (h : nat) : option Z := head (ptrs h L2).

Lemma linking_nodup h : NoDup (8%Z :: ptrs h (L1 ++ L2)).
Proof.
  apply ptrs_nodup. eapply sublist_NoDup; [exact Hnd|]. constructor. rewrite !fmap_app.
  apply sublist_app; [done|]. cbn. by constructor.
Qed.

Lemma linking_fresh h : c_ptr c ∉ 8%Z :: ptrs h (L1 ++ L2).
Proof.
  apply NoDup_cons in Hnd as [H8 Hn]. rewrite fmap_app in Hn, H8. cbn in Hn, H8.
  apply NoDup_app in Hn as (_ & Hdis & Hn). apply NoDup_cons in Hn as [Hc _].
  intros [Heq|Hin]%elem_of_cons; [apply H8; rewrite <- Heq; set_solver|].
  apply ptrs_subset in Hin. rewrite fmap_app in Hin. apply elem_of_app in Hin as [Hin|Hin]; [|done].
  apply (Hdis _ Hin). left.
Qed.

Lemma pred_ne h : pred_of h ≠ c_ptr c.
Proof.
  intros Heq. apply (linking_fresh h). rewrite <- Heq. unfold pred_of.
  pose proof (last_or_elem 8 (ptrs h L1)) as Hin. rewrite ptrs_app. set_solver.
Qed.

Lemma pred_mem h : pred_of h ∈ 8%Z :: (c_ptr <$> L1 ++ c :: L2).
Proof using Type. clear Hnd Hheights Hht.
  unfold pred_of. pose proof (last_or_elem 8 (ptrs h L1)) as [->|Hin]%elem_of_cons; [left|right].
  apply ptrs_subset in Hin. rewrite fmap_app. set_solver.
Qed.

Lemma succ_mem h y : succ_of h = Some y → y ∈ c_ptr <$> L1 ++ c :: L2.
Proof using Type. clear Hnd Hheights Hht.
  unfold succ_of. intros Hy%head_Some_elem_of%ptrs_subset. rewrite fmap_app, fmap_cons. set_solver.
Qed.

Lemma linking_towered i sk p : linking i sk → p ∈ 8%Z :: (c_ptr <$> L1 ++ c :: L2) → towered sk p.
Proof using Type. clear Hnd Hheights Hht.
  intros I [->|Hp]%elem_of_cons; [apply (lk_head_tower _ _ I)|].
  apply list_elem_of_fmap in Hp as (d & -> & Hd).
  destruct (proj1 (Forall_forall _ _) (lk_cells _ _ I) d Hd) as (n & Hn & Ht & _). by exists n.
Qed.

Lemma ptrs_0 : ptrs 0 L1 = c_ptr <$> L1 ∧ ptrs 0 L2 = c_ptr <$> L2.
Proof.
  unfold ptrs. apply Forall_app in Hheights as [H1 H2]. by rewrite !at_level_0.
Qed.

(** One level done: what the writes of the loop must have changed. *)
Lemma linking_step h sk sk' :
  linking h sk → h < c_ht c → relinked sk sk' →
  towers sk' (pred_of h) h = Some (c_ptr c) →
  towers sk' (c_ptr c) h = Some (default 0%Z (succ_of h)) →
  (∀ x j, j ≠ h ∨ (x ≠ pred_of h ∧ x ≠ c_ptr c) → towers sk' x j = towers sk x j) →
  (if decide (h = 0) then
     prevs sk' (c_ptr c) = Some (pred_of 0) ∧ (∀ y, succ_of 0 = Some y → prevs sk' y = Some (c_ptr c)) ∧
     (∀ x, x ≠ c_ptr c → succ_of 0 ≠ Some x → prevs sk' x = prevs sk x)
   else ∀ x, prevs sk' x = prevs sk x) →
  linking (S h) sk'.
Proof.
  intros I Hh R Hp Hc Hrest Hprev. split.
  - rewrite (rl_head _ _ R). apply (lk_head _ _ I).
  - by apply (relinked_wf _ _ R), (lk_wf _ _ I).
  - intros j Hj. pose proof (lk_links _ _ I j Hj) as Hl. unfold partly in *. destruct (decide (j = h)) as [->|Hne].
    + rewrite (proj2 (Nat.ltb_ge h h)) in Hl by lia. rewrite (proj2 (Nat.ltb_lt h (S h))) by lia.
      rewrite ptrs_app, ptrs_cons_in by done.
      pose proof (linking_nodup h) as Hn. pose proof (linking_fresh h) as Hf.
      rewrite ptrs_app in Hl, Hn, Hf. eapply links_insert; try done.
      * apply (lk_below _ _ I). right. rewrite fmap_app. set_solver.
      * intros x Hx Hxc. apply Hrest. by right.
    + replace (j <? S h) with (j <? h) by (destruct (Nat.ltb_spec j h), (Nat.ltb_spec j (S h)); lia).
      eapply links_ext; [|done]. intros x _. apply Hrest. by left.
  - pose proof (lk_back _ _ I) as Hb. unfold partly in *. cbn [Nat.ltb Nat.leb]. case_decide as Hz.
    + subst h. cbn [Nat.ltb Nat.leb] in Hb. destruct Hprev as (Hq & Hy & Hx).
      destruct ptrs_0 as [E1 E2]. unfold pred_of, succ_of in *. rewrite E1, E2 in *.
      pose proof (linking_nodup 0) as Hn. pose proof (linking_fresh 0) as Hf.
      rewrite ptrs_app, E1, E2 in Hn, Hf. rewrite fmap_app in Hb. rewrite fmap_app, fmap_cons.
      by eapply back_links_insert.
    + rewrite (proj2 (Nat.ltb_lt 0 h)) in Hb by lia. eapply back_links_ext; [|exact Hb]. intros x _. apply Hprev.
  - eapply Forall_impl; [apply (lk_cells _ _ I)|]. intros d. by apply extends_stored, relinked_extends.
  - intros p. rewrite (relinked_dom _ _ _ R). apply (lk_dom _ _ I).
  - rewrite (rl_ptr _ _ R). apply (lk_below _ _ I).
  - by eapply relinked_towered, (lk_head_tower _ _ I).
Qed.

Lemma linking_ptr i sk p :
  linking i sk → p ∈ 8%Z :: (c_ptr <$> L1 ++ c :: L2) → arena_offset (Some p) = Ok (Some p).
Proof using Type. clear Hnd Hheights Hht.
  intros I Hp. apply arena_offset_ptr. pose proof (lk_below _ _ I p Hp).
  destruct (lk_wf _ _ I) as (? & _ & ?). lia.
Qed.

Lemma linking_succ i sk h : linking i sk → arena_offset (succ_of h) = Ok (succ_of h).
Proof using Type. clear Hnd Hheights Hht.
  intros I. destruct (succ_of h) as [y|] eqn:Hy; [|done]. eapply linking_ptr; [done|].
  right. by eapply succ_mem.
Qed.

Lemma new_mem : c_ptr c ∈ 8%Z :: (c_ptr <$> L1 ++ c :: L2).
Proof using Type. clear Hnd Hheights Hht. right. rewrite fmap_app. set_solver. Qed.

(** The backward links: one turn of the inner loop is enough. *)
Lemma link_prev_spec r sk0 sk key value no :
  linking 0 sk0 → relinked sk0 sk → (∀ p, prevs sk p = prevs sk0 p) →
  ∃ sk', link_prev cmp (S r) sk key value (c_ptr c) (c_ptr c) (Some (pred_of 0)) (succ_of 0) no =
      Ok (sk', Some (Some (pred_of 0), succ_of 0, no)) ∧
    relinked sk sk' ∧ (∀ p h, towers sk' p h = towers sk p h) ∧
    prevs sk' (c_ptr c) = Some (pred_of 0) ∧ (∀ y, succ_of 0 = Some y → prevs sk' y = Some (c_ptr c)) ∧
    (∀ x, x ≠ c_ptr c → succ_of 0 ≠ Some x → prevs sk' x = prevs sk x).
Proof.
  intros I R Hprev. cbn [link_prev]. rewrite (linking_ptr _ _ _ I (pred_mem 0)). cbn [mbind outcome_bind].
  destruct (store_prev_spec sk (c_ptr c) (pred_of 0)) as (sk1 & -> & R1 & Ht1 & Hp1).
  { eapply relinked_towered; [done|]. eapply linking_towered; [done|apply new_mem]. }
  cbn [mbind outcome_bind]. destruct (succ_of 0) as [y|] eqn:Hy; cycle 1.
  { exists sk1. split_and!; try done. - by rewrite Hp1, decide_True. - intros x Hx _. by rewrite Hp1, decide_False. }
  assert (y ≠ c_ptr c) as Hyc.
  { intros ->. apply (linking_fresh 0). rewrite ptrs_app. unfold succ_of in Hy.
    apply head_Some_elem_of in Hy. set_solver. }
  assert (prevs sk1 y = Some (pred_of 0)) as Hold.
  { rewrite Hp1, decide_False, Hprev by done. pose proof (lk_back _ _ I) as Hb. unfold partly in Hb.
    cbn [Nat.ltb Nat.leb] in Hb. destruct ptrs_0 as [E1 E2]. unfold pred_of, succ_of in *. rewrite E1, E2 in *.
    rewrite fmap_app in Hb. destruct (c_ptr <$> L2) as [|z rest]; [done|]. injection Hy as ->.
    by eapply back_links_lookup. }
  destruct (exchange_prev_spec sk1 y (pred_of 0) (c_ptr c)) as (sk2 & -> & R2 & Ht2 & Hp2); [|done|].
  { eapply relinked_towered; [exact R1|]. eapply relinked_towered; [exact R|].
    eapply linking_towered; [done|]. right. by eapply succ_mem. }
  cbn [mbind outcome_bind]. exists sk2. split_and!.
  - done.
  - by eapply relinked_trans.
  - intros p h. by rewrite Ht2, Ht1.
  - by rewrite Hp2, decide_False, Hp1, decide_True by done.
  - intros z [= <-]. by rewrite Hp2, decide_True.
  - intros x Hx Hxy. rewrite Hp2, decide_False by congruence. by rewrite Hp1, decide_False.
Qed.

(** The entries of the arrays the loop starts from: the neighbours, or nothing on
    a level above the old height. *)
Definition entry_ok (prev next : list (option Z)) (h : nat) : Prop :=
  splice_at L1 L2 prev next h ∨
  (1 < h ∧ prev !! h = Some None ∧ next !! h = Some None ∧ ptrs h (L1 ++ L2) = []).

(** The first part of a turn: the predecessor. *)
Lemma before_level r sk key value h prev next :
  linking h sk → h < c_ht c → length prev = S SKL_MAX_HEIGHT → length next = S SKL_MAX_HEIGHT →
  entry_ok prev next h →
  ∃ prev' next', link_level cmp (S r) sk key value (c_ptr c) (c_ptr c) h prev next =
      link_level cmp (S r) sk key value (c_ptr c) (c_ptr c) h prev' next' ∧
    length prev' = S SKL_MAX_HEIGHT ∧ length next' = S SKL_MAX_HEIGHT ∧ splice_at L1 L2 prev' next' h ∧
    (∀ j, j ≠ h → prev' !! j = prev !! j ∧ next' !! j = next !! j).
Proof.
  intros I Hh Hlp Hln [Hs|(H1 & Hp & Hn & Hnil)]; [by exists prev, next|].
  exists (<[h := Some 8%Z]> prev), (<[h := None]> next). rewrite ptrs_app in Hnil.
  apply app_nil in Hnil as [E1 E2]. split_and!.
  - cbn [link_level]. rewrite (idx_Ok _ _ _ Hp), (idx_Ok (<[h := Some 8%Z]> prev) h (Some 8%Z))
      by (apply list_lookup_insert_eq; lia). cbn [mbind outcome_bind].
    rewrite (proj2 (Nat.ltb_lt _ _)) by lia. cbn [assert_or_panic mbind outcome_bind].
    assert (find_splice_for_level cmp sk key (Some (sk_head sk)) h = Ok (Some 8%Z, None)) as ->.
    { rewrite (lk_head _ _ I). unfold find_splice_for_level, list_fuel. cbn [find_splice_loop].
      rewrite (links_Node_next _ _ _ []); [done|]. pose proof (lk_links _ _ I h ltac:(lia)) as Hl.
      unfold partly in Hl. rewrite (proj2 (Nat.ltb_ge h h)) in Hl by lia. by rewrite ptrs_app, E1, E2 in Hl. }
    cbn [mbind outcome_bind]. rewrite !set_idx_Ok by lia. cbn [mbind outcome_bind].
    rewrite bool_decide_true by done.
    cbn [assert_or_panic unwrap mbind outcome_bind]. done.
  - by rewrite length_insert.
  - by rewrite length_insert.
  - split; rewrite list_lookup_insert_eq by lia; [by rewrite E1|by rewrite E2].
  - intros j Hj. by rewrite !list_lookup_insert_ne by done.
Qed.

(** The part of a turn that level 0 alone does. *)
Lemma link_back_spec r sk0 sk key value h prev next no :
  linking h sk0 → relinked sk0 sk → (∀ p, prevs sk p = prevs sk0 p) →
  length prev = S SKL_MAX_HEIGHT → length next = S SKL_MAX_HEIGHT → splice_at L1 L2 prev next h →
  ∃ sk' prev' next',
    (if h =? 0 then
       p0 ← idx prev 0;
       n0 ← idx next 0;
       '(sk, r) ← link_prev cmp (S r) sk key value (c_ptr c) (c_ptr c) p0 n0 no;
       match r with
       | Some (p0, n0, next_offset) =>
           prev ← set_idx prev 0 p0;
           next ← set_idx next 0 n0;
           Ok (sk, Some (prev, next, next_offset))
       | None => Ok (sk, None)
       end
     else Ok (sk, Some (prev, next, no))) = Ok (sk', Some (prev', next', no)) ∧
    relinked sk sk' ∧ (∀ p j, towers sk' p j = towers sk p j) ∧
    (if decide (h = 0) then
       prevs sk' (c_ptr c) = Some (pred_of 0) ∧ (∀ y, succ_of 0 = Some y → prevs sk' y = Some (c_ptr c)) ∧
       (∀ x, x ≠ c_ptr c → succ_of 0 ≠ Some x → prevs sk' x = prevs sk0 x)
     else ∀ x, prevs sk' x = prevs sk0 x) ∧
    length prev' = S SKL_MAX_HEIGHT ∧ length next' = S SKL_MAX_HEIGHT ∧
    (∀ j, j ≠ h → prev' !! j = prev !! j ∧ next' !! j = next !! j).
Proof.
  intros I R Hprev Hlp Hln [Hp Hn]. fold (pred_of h) in Hp. fold (succ_of h) in Hn.
  destruct (decide (h = 0)) as [->|Hh]; cycle 1.
  { rewrite (proj2 (Nat.eqb_neq _ _)) by done. exists sk, prev, next. split_and!; try done. apply relinked_refl. }
  cbn [Nat.eqb]. rewrite (idx_Ok _ _ _ Hp). cbn [mbind outcome_bind]. rewrite (idx_Ok _ _ _ Hn).
  cbn [mbind outcome_bind]. destruct (link_prev_spec r sk0 sk key value no I R Hprev)
    as (sk' & -> & R' & Ht & Hq & Hy & Hx). cbn [mbind outcome_bind].
  rewrite !set_idx_Ok by lia. cbn [mbind outcome_bind].
  eexists sk', _, _. split; [done|]. split_and!; try done.
  - intros x Hx1 Hx2. by rewrite Hx.
  - by rewrite length_insert.
  - by rewrite length_insert.
  - intros j Hj. by rewrite !list_lookup_insert_ne by done.
Qed.

Lemma link_level_splice r sk key value h prev next :
  linking h sk → h < c_ht c → length prev = S SKL_MAX_HEIGHT → length next = S SKL_MAX_HEIGHT →
  splice_at L1 L2 prev next h →
  ∃ sk' prev' next', link_level cmp (S r) sk key value (c_ptr c) (c_ptr c) h prev next =
      Ok (sk', Some (prev', next')) ∧ linking (S h) sk' ∧ relinked sk sk' ∧
    length prev' = S SKL_MAX_HEIGHT ∧ length next' = S SKL_MAX_HEIGHT ∧
    (∀ j, j ≠ h → prev' !! j = prev !! j ∧ next' !! j = next !! j).
Proof.
  intros I Hh Hlp Hln Hs. pose proof Hs as [Hp Hn]. fold (pred_of h) in Hp. fold (succ_of h) in Hn.
  cbn [link_level].
  rewrite (idx_Ok _ _ _ Hp). cbn [mbind outcome_bind]. rewrite (idx_Ok _ _ _ Hn). cbn [mbind outcome_bind].
  rewrite (linking_succ _ _ _ I). cbn [mbind outcome_bind].
  destruct (store_tower_spec sk (c_ptr c) h (default 0%Z (succ_of h))) as (sk1 & -> & R1 & Ht1 & Hp1);
    [eapply linking_towered; [done|apply new_mem]|lia|]. cbn [mbind outcome_bind].
  destruct (link_back_spec r sk sk1 key value h prev next (default 0%Z (succ_of h)) I R1 Hp1 Hlp Hln Hs)
    as (sk2 & prev' & next' & -> & R2 & Ht2 & Hp2 & Hlp' & Hln' & Hsame). cbn [mbind outcome_bind].
  pose proof (pred_ne h) as Hne.
  assert (towers sk (pred_of h) h = Some (default 0%Z (succ_of h))) as Hcur.
  { pose proof (lk_links _ _ I h ltac:(lia)) as Hl. unfold partly in Hl.
    rewrite (proj2 (Nat.ltb_ge h h)) in Hl by lia. rewrite ptrs_app in Hl.
    by apply links_split, links_next in Hl. }
  destruct (exchange_tower_spec sk2 (pred_of h) h (default 0%Z (succ_of h)) (c_ptr c))
    as (sk3 & -> & R3 & Ht3 & Hp3).
  { eapply relinked_towered; [exact R2|]. eapply relinked_towered; [exact R1|].
    eapply linking_towered; [done|apply pred_mem]. }
  { lia. }
  { rewrite Ht2, Ht1, decide_False by naive_solver. done. }
  cbn [mbind outcome_bind]. exists sk3, prev', next'.
  assert (relinked sk sk3) as R by (eapply relinked_trans; [done|by eapply relinked_trans]).
  split_and!; [done| |done|done|done|done]. eapply linking_step; try done.
  - by rewrite Ht3, decide_True.
  - rewrite Ht3, decide_False by naive_solver. by rewrite Ht2, Ht1, decide_True.
  - intros x j Hx. rewrite Ht3, decide_False by naive_solver. rewrite Ht2, Ht1, decide_False by naive_solver. done.
  - case_decide; [destruct Hp2 as (H1 & H2 & H3); split_and!|]; intros; rewrite Hp3; auto.
Qed.

(** All levels of the new cell. *)
Lemma link_levels_spec r key value n h sk prev next :
  linking h sk → h + n = c_ht c → length prev = S SKL_MAX_HEIGHT → length next = S SKL_MAX_HEIGHT →
  (∀ j, h <= j < c_ht c → entry_ok prev next j) →
  ∃ sk', link_levels cmp (S r) sk key value (c_ptr c) (c_ptr c) (seq h n) prev next = Ok sk' ∧
    linking (c_ht c) sk' ∧ relinked sk sk'.
Proof.
  revert h sk prev next. induction n as [|n IH]; intros h sk prev next I Hn Hlp Hln He; cbn [seq link_levels].
  { exists sk. replace (c_ht c) with h by lia. split_and!; [done|done|apply relinked_refl]. }
  destruct (before_level r sk key value h prev next I) as (prev1 & next1 & -> & Hlp1 & Hln1 & Hs1 & Hsame1);
    [lia|done|done|apply He; lia|].
  destruct (link_level_splice r sk key value h prev1 next1 I) as
    (sk' & prev2 & next2 & -> & I' & Hht' & Hlp2 & Hln2 & Hsame2); [lia|done|done|done|].
  cbn [mbind outcome_bind]. destruct (IH (S h) sk' prev2 next2) as (sk'' & -> & I'' & Hht''); try done; [lia| |].
  - intros j Hj. destruct (Hsame1 j ltac:(lia)) as [E1 E2], (Hsame2 j ltac:(lia)) as [E3 E4].
    unfold entry_ok, splice_at. rewrite E3, E4, E1, E2. apply He. lia.
  - exists sk''. split_and!; [done|done|by eapply relinked_trans].
Qed.

End Linking.

(* ------------------------------------------------------------------ *)
(** ** Push *)

Lemma random_height_bounds flips : 1 <= random_height flips <= SKL_MAX_HEIGHT.
Proof.
  unfold random_height. assert (∀ h, 1 <= h <= SKL_MAX_HEIGHT →
    1 <= random_height_from h flips <= SKL_MAX_HEIGHT) as H; [|apply H; unfold SKL_MAX_HEIGHT; lia].
  induction flips as [|f flips IH]; intros h Hh; cbn [random_height_from]; [done|].
  destruct (Nat.ltb_spec h SKL_MAX_HEIGHT), f; cbn [andb]; try done. apply IH. lia.
Qed.

Lemma raise_height_spec r sk rh :
  raise_height (S r) sk (sk_height sk) rh =
    Ok (mkSkipList (Nat.max (sk_height sk) rh) (sk_head sk) (sk_arena sk)).
Proof.
  cbn [raise_height]. destruct (Nat.ltb_spec (sk_height sk) rh).
  - rewrite Nat.eqb_refl, Nat.max_r by lia. done.
  - rewrite Nat.max_l by lia. by destruct sk.
Qed.

Section Push.
Context {K : Type} (cmp : list Z → list Z → comparison) (kcmp : K → K → comparison)
  (enc : K → list Z) (ok : K → Prop) `{!KeyCoding cmp kcmp enc ok}.
Implicit Types (sk : SkipListInner) (l : list (cell K)).

Abbreviation inv := (skl_inv kcmp enc ok).
Abbreviation below := (below kcmp).
Abbreviation not_below := (not_below kcmp).

(** The arrays [push] starts with, and the result of its first loop. *)
Lemma push_splices sk L1 L2 k :
  inv sk (L1 ++ L2) → ok k → below k L1 → not_below k L2 →
  ∃ prev r, set_idx (replicate (SKL_MAX_HEIGHT + 1) None) (sk_height sk) (Some (sk_head sk)) = Ok prev ∧
    find_splices cmp (sk_height sk) sk (enc k) prev (replicate (SKL_MAX_HEIGHT + 1) None) = Ok r ∧
    match r with
    | inl o => ∃ c L3, L2 = c :: L3 ∧ kcmp k (c_key c) = Eq ∧ o = Some (c_ptr c)
    | inr (prev', next') =>
        length prev' = S SKL_MAX_HEIGHT ∧ length next' = S SKL_MAX_HEIGHT ∧
        (∀ c, head L2 = Some c → kcmp k (c_key c) = Lt) ∧
        (∀ h, h < SKL_MAX_HEIGHT → entry_ok L1 L2 prev' next' h)
    end.
Proof.
  intros I Hk HL1 HL2. pose proof (inv_height _ _ _ _ _ I) as Hh. rewrite (inv_head _ _ _ _ _ I).
  rewrite set_idx_Ok by (rewrite length_replicate; lia). eexists _.
  destruct (find_splices_spec cmp kcmp enc ok sk L1 L2 k (sk_height sk)
    (<[sk_height sk := Some 8%Z]> (replicate (SKL_MAX_HEIGHT + 1) None))
    (replicate (SKL_MAX_HEIGHT + 1) None) 8 [] (L1 ++ L2)) as (r & Hr & Hpost); try done; [lia|..].
  { by rewrite length_insert. }
  { apply list_lookup_insert_eq. rewrite length_replicate. lia. }
  { by left. }
  { constructor. }
  exists r. split_and!; [done|done|]. destruct r as [o|[prev next]]; [done|].
  destruct Hpost as (Hlp & Hln & Hlt & Hlow & Hhigh). split_and!; [done|done|intros; apply Hlt; [lia|done]|].
  intros h Hmax. destruct (decide (h < sk_height sk)) as [Hl|Hge]; [left; by apply Hlow|].
  assert (ptrs h (L1 ++ L2) = []) as Hnil.
  { unfold ptrs, at_level. destruct (base.filter _ (L1 ++ L2)) as [|c l] eqn:E; [done|].
    assert (c ∈ base.filter (λ c, h < c_ht c) (L1 ++ L2)) as Hc by (rewrite E; left).
    apply list_elem_of_filter in Hc as [Hc Hin].
    pose proof (proj1 (Forall_forall _ _) (inv_heights _ _ _ _ _ I) c Hin) as Hb. cbn in Hb. lia. }
  destruct (Hhigh h) as [E1 E2]; [lia|]. rewrite lookup_replicate_2 in E2 by lia.
  destruct (decide (h = sk_height sk)) as [->|Hne].
  - left. rewrite ptrs_app in Hnil. apply app_nil in Hnil as [N1 N2]. split; rewrite ?N1, ?N2; [|done].
    rewrite E1. apply list_lookup_insert_eq. rewrite length_replicate. lia.
  - right. split_and!; [lia| |done|done]. rewrite E1, list_lookup_insert_ne by done.
    apply lookup_replicate_2. lia.
Qed.

(** Right after [Node::new] the new cell is on no level. *)
Lemma linking_start sk L1 L2 k v n ar' rh :
  inv sk (L1 ++ L2) → ok k → fresh_node (sk_arena sk) (enc k) v n ar' →
  linking enc L1 (mkCell (ar_ptr_offset (sk_arena sk)) k v rh) L2 0 (mkSkipList (Nat.max (sk_height sk) rh) 8 ar') ∧
  NoDup (8%Z :: (c_ptr <$> L1 ++ mkCell (ar_ptr_offset (sk_arena sk)) k v rh :: L2)).
Proof.
  intros I Hk (Hptr & Hsize & Hnodes & Hprev & Htower & Hholds & Hslices & Hwf).
  set (c := mkCell _ k v rh).
  assert (ar_nodes (sk_arena sk) !! ar_ptr_offset (sk_arena sk) = None) as Hfresh.
  { apply eq_None_not_Some. intros Hs%(inv_dom _ _ _ _ _ I)%(inv_below _ _ _ _ _ I). lia. }
  assert (∀ x, x ∈ 8%Z :: (c_ptr <$> L1 ++ L2) → x ≠ c_ptr c) as Hne.
  { intros x Hx ->. apply (inv_below _ _ _ _ _ I) in Hx. cbn in Hx. lia. }
  assert (0 <= node_cost (enc k) v)%Z as Hcost.
  { unfold node_cost, SKL_MAX_NODE_SIZE. pose proof (round8_len_pos (enc k)). pose proof (round8_len_pos v). lia. }
  assert (extends (sk_arena sk) ar') as Hext.
  { split; [done|]. intros p m Hm. exists m. rewrite Hnodes, lookup_insert_ne by congruence. done. }
  assert (∀ x, x ∈ 8%Z :: (c_ptr <$> L1 ++ c :: L2) ↔ x = c_ptr c ∨ x ∈ 8%Z :: (c_ptr <$> L1 ++ L2)) as Hmem.
  { intros x. rewrite !fmap_app, fmap_cons. set_solver. }
  split; [split; cbn [sk_head sk_arena]; unfold partly; cbn [Nat.ltb Nat.leb]|].
  - done.
  - done.
  - intros h Hh. eapply links_ext; [|apply (inv_links _ _ _ _ _ I h Hh)]. intros x Hx.
    assert (x ≠ c_ptr c) by (apply Hne; apply elem_of_cons in Hx as [->|Hx]; [left|right; by eapply ptrs_subset]).
    unfold tower_at. by rewrite Hnodes, lookup_insert_ne.
  - eapply back_links_ext; [|apply (inv_back _ _ _ _ _ I)]. intros x Hx.
    unfold prev_at. rewrite Hnodes, lookup_insert_ne; [done|]. apply not_eq_sym, Hne. by right.
  - rewrite Forall_app, Forall_cons. pose proof (inv_cells _ _ _ _ _ I) as Hc. apply Forall_app in Hc as [H1 H2].
    split_and!; [by eapply Forall_impl; [done|intros d; by apply extends_stored]| |
      by eapply Forall_impl; [done|intros d; by apply extends_stored]].
    exists n. rewrite Hnodes. cbn [c_ptr c c_key c_val]. rewrite lookup_insert_eq.
    split_and!; [done|by rewrite Htower|done].
  - intros p. rewrite Hmem, Hnodes, lookup_insert_is_Some'. cbn [c_ptr c].
    rewrite (inv_dom _ _ _ _ _ I). naive_solver.
  - intros p [->|Hp]%Hmem; rewrite Hptr.
    + pose proof (inv_below _ _ _ _ _ I 8 ltac:(left)). cbn. unfold node_cost, SKL_MAX_NODE_SIZE in *.
      pose proof (round8_len_pos (enc k)). pose proof (round8_len_pos v). lia.
    + apply (inv_below _ _ _ _ _ I) in Hp. lia.
  - destruct (inv_head_tower _ _ _ _ _ I) as (m & Hm & Ht). exists m. cbn. rewrite Hnodes.
    rewrite lookup_insert_ne; [done|]. apply not_eq_sym, Hne. left.
  - eapply (NoDup_Permutation_proper _ (c_ptr c :: 8%Z :: (c_ptr <$> L1 ++ L2))).
    + rewrite !fmap_app, fmap_cons, <- Permutation_middle. apply Permutation_swap.
    + apply NoDup_cons. split; [|apply (inv_nodup _ _ _ _ _ I)]. intros Hx. by apply (Hne (c_ptr c)).
Qed.

(** On all its levels the new cell is part of the list. *)
Lemma linking_done sk sk' L1 L2 c :
  inv sk (L1 ++ L2) → ok (c_key c) → below (c_key c) L1 →
  (∀ d, head L2 = Some d → kcmp (c_key c) (c_key d) = Lt) →
  NoDup (8%Z :: (c_ptr <$> L1 ++ c :: L2)) → 1 <= c_ht c <= SKL_MAX_HEIGHT →
  linking enc L1 c L2 (c_ht c) sk' → sk_height sk' = Nat.max (sk_height sk) (c_ht c) →
  inv sk' (L1 ++ c :: L2).
Proof.
  intros I Hk HL1 Hlt Hnd Hht Lk Hheight. pose proof (inv_height _ _ _ _ _ I) as Hh.
  pose proof (inv_heights _ _ _ _ _ I) as Hhs. apply Forall_app in Hhs as [Hh1 Hh2].
  pose proof (inv_ok _ _ _ _ _ I) as Hok. apply Forall_app in Hok as [Hok1 Hok2].
  pose proof (inv_sorted _ _ _ _ _ I) as Hs. apply StronglySorted_app in Hs as (Hcross & Hs1 & Hs2).
  assert (Forall (λ d, kcmp (c_key c) (c_key d) = Lt) L2) as Hafter.
  { destruct L2 as [|d L2]; [constructor|]. specialize (Hlt d eq_refl). constructor; [done|].
    apply StronglySorted_cons in Hs2 as [Hd _]. eapply Forall_impl; [exact Hd|].
    intros e He. by eapply (cmp_lt_trans kcmp). }
  split.
  - apply (lk_head _ _ _ _ _ _ Lk).
  - rewrite Hheight. lia.
  - apply (lk_wf _ _ _ _ _ _ Lk).
  - intros h Hmax. pose proof (lk_links _ _ _ _ _ _ Lk h Hmax) as Hl. unfold partly in Hl.
    destruct (Nat.ltb_spec h (c_ht c)); [done|]. rewrite ptrs_app in *. by rewrite ptrs_cons_out.
  - pose proof (lk_back _ _ _ _ _ _ Lk) as Hb. unfold partly in Hb.
    by rewrite (proj2 (Nat.ltb_lt 0 _)) in Hb by lia.
  - apply (lk_cells _ _ _ _ _ _ Lk).
  - apply StronglySorted_app. split_and!; [|done|by apply StronglySorted_cons].
    intros a b Ha [->|Hb]%elem_of_cons; [|by apply Hcross].
    apply (cmp_gt_lt kcmp). by apply (below_elem kcmp _ L1).
  - rewrite Forall_app, Forall_cons. done.
  - rewrite Forall_app, Forall_cons, Hheight. split_and!; try lia.
    + eapply Forall_impl; [exact Hh1|]. cbn. lia.
    + eapply Forall_impl; [exact Hh2|]. cbn. lia.
  - done.
  - apply (lk_dom _ _ _ _ _ _ Lk).
  - apply (lk_below _ _ _ _ _ _ Lk).
  - apply (lk_head_tower _ _ _ _ _ _ Lk).
Qed.

Lemma push_new r flips sk L1 L2 k v :
  inv sk (L1 ++ L2) → ok k → (Z.of_nat (length v) < 2 ^ 32)%Z → below k L1 → not_below k L2 →
  (∀ c, head L2 = Some c → kcmp k (c_key c) ≠ Eq) →
  if decide (fits (sk_arena sk) (node_cost (enc k) v)) then
    ∃ sk' c, push cmp (S r) flips sk (enc k) v = Ok sk' ∧ inv sk' (L1 ++ c :: L2) ∧ cell_kv c = (k, v) ∧
      ar_ptr_offset (sk_arena sk') = (ar_ptr_offset (sk_arena sk) + node_cost (enc k) v)%Z ∧
      ar_size (sk_arena sk') = ar_size (sk_arena sk)
  else push cmp (S r) flips sk (enc k) v = Panic.
Proof.
  intros I Hk Hv HL1 HL2 Hneq. destruct (push_splices sk L1 L2 k I Hk HL1 HL2) as (prev & r0 & Hset & Hfind & Hpost).
  unfold push. rewrite Hset. cbn [mbind outcome_bind]. rewrite Hfind. cbn [mbind outcome_bind].
  destruct r0 as [o|[prev' next']].
  { destruct Hpost as (c & L3 & -> & Ec & _). by destruct (Hneq c eq_refl). }
  destruct Hpost as (Hlp & Hln & Hlt & Hent).
  pose proof (Node_new_spec (sk_arena sk) (enc k) v (random_height flips) (inv_arena _ _ _ _ _ I)
    (coding_length _ Hk) Hv) as Hnew.
  destruct (decide (fits _ _)) as [Hfit|Hfit]; [|by rewrite Hnew].
  destruct Hnew as (n & ar' & -> & Hfresh). cbn [mbind outcome_bind].
  destruct (linking_start sk L1 L2 k v n ar' (random_height flips) I Hk Hfresh) as [Lk Hnd].
  set (c := mkCell _ k v _) in Lk, Hnd. pose proof (random_height_bounds flips) as Hrh.
  pose proof (raise_height_spec r (with_arena sk ar') (random_height flips)) as Hraise.
  cbn [sk_height with_arena] in Hraise. rewrite Hraise. cbn [mbind outcome_bind].
  cbn [sk_height sk_head sk_arena with_arena]. rewrite (inv_head _ _ _ _ _ I).
  change (ar_ptr_offset (sk_arena sk)) with (c_ptr c).
  assert (arena_offset (Some (c_ptr c)) = Ok (Some (c_ptr c))) as -> by (eapply linking_ptr; [exact Lk|apply new_mem]).
  cbn [mbind outcome_bind unwrap].
  destruct (link_levels_spec cmp enc L1 c L2 Hnd) with (r := r) (key := enc k) (value := v)
    (n := random_height flips) (h := 0) (sk := mkSkipList (sk_height sk `max` random_height flips) 8 ar')
    (prev := prev') (next := next') as (sk' & -> & Lk' & Hht'); try done.
  { eapply Forall_impl; [apply (inv_heights _ _ _ _ _ I)|]. cbn. lia. }
  { intros j Hj. apply Hent. cbn in Hj. lia. }
  destruct Hfresh as (Hptr & Hsize & _). exists sk', c. split_and!; [done| |done| |].
  - eapply linking_done; try done. apply (rl_height _ _ Hht').
  - by rewrite (rl_ptr _ _ Hht').
  - by rewrite (rl_size _ _ Hht').
Qed.

End Push.
