(* ===== verification/SkipListSpec.v ===== *)
(** * SkipListSpec: what the operations of the skip list do

    The skip list (SkipList.v) refines a sorted association list: the relation
    [skl_rep] is kept by every push, and reads and iterators show the list. *)
From stdpp Require Import base list gmap sorting.
From Stdlib Require Import ZArith Lia.
From S2P Require Import Prelude VarInt Kv Iter Arena SkipList SkipListInv SkipListPush.

Local Open Scope nat_scope.

Section Replace.
Context {K : Type} (cmp : list Z → list Z → comparison) (kcmp : K → K → comparison)
  (enc : K → list Z) (ok : K → Prop) `{!KeyCoding cmp kcmp enc ok}.

Abbreviation inv := (skl_inv kcmp enc ok).

Definition with_val (c : cell K) (v : list Z) : cell K := mkCell (c_ptr c) (c_key c) v (c_ht c).

Lemma ptrs_with_val h L1 c L2 v : ptrs h (L1 ++ with_val c v :: L2) = ptrs h (L1 ++ c :: L2).
Proof.
  rewrite !ptrs_app. f_equal. destruct (decide (h < c_ht c)).
  - by rewrite !ptrs_cons_in by done.
  - by rewrite !ptrs_cons_out by (cbn; lia).
Qed.

Lemma fmap_with_val L1 c L2 v : c_ptr <$> L1 ++ with_val c v :: L2 = c_ptr <$> L1 ++ c :: L2.
Proof. by rewrite !fmap_app, !fmap_cons. Qed.

(** Only the value word of one node changes. *)
Lemma inv_set_value sk ar' n n' L1 c L2 v :
  inv sk (L1 ++ c :: L2) → ar_nodes (sk_arena sk) !! c_ptr c = Some n →
  ar_nodes ar' = <[c_ptr c := n']> (ar_nodes (sk_arena sk)) →
  nd_prev n' = nd_prev n → nd_tower n' = nd_tower n → node_holds ar' n' (enc (c_key c)) v →
  (∀ off bs, has_slice (sk_arena sk) off bs → has_slice ar' off bs) → arena_wf ar' →
  (ar_ptr_offset (sk_arena sk) <= ar_ptr_offset ar')%Z →
  inv (with_arena sk ar') (L1 ++ with_val c v :: L2).
Proof.
  intros I Hn Hnodes Hprev Htower Hholds Hslices Hwf Hptr.
  assert (∀ p, is_Some (ar_nodes ar' !! p) ↔ is_Some (ar_nodes (sk_arena sk) !! p)) as Hdom.
  { intros p. rewrite Hnodes, lookup_insert_is_Some'. split; [intros [<-|?]; [by rewrite Hn|done]|by right]. }
  assert (∀ p h, tower_at (ar_nodes ar') p h = tower_at (ar_nodes (sk_arena sk)) p h) as Htw.
  { intros p h. unfold tower_at. rewrite Hnodes. destruct (decide (p = c_ptr c)) as [->|].
    - rewrite lookup_insert_eq, Hn. cbn. by rewrite Htower.
    - by rewrite lookup_insert_ne. }
  assert (∀ p, prev_at (ar_nodes ar') p = prev_at (ar_nodes (sk_arena sk)) p) as Hpv.
  { intros p. unfold prev_at. rewrite Hnodes. destruct (decide (p = c_ptr c)) as [->|].
    - rewrite lookup_insert_eq, Hn. cbn. by rewrite Hprev.
    - by rewrite lookup_insert_ne. }
  assert (∀ d, d ∈ L1 ++ L2 → c_ptr d ≠ c_ptr c) as Hne.
  { intros d Hd Heq. pose proof (inv_nodup _ _ _ _ _ I) as [_ Hnd]%NoDup_cons.
    rewrite fmap_app, fmap_cons, <- Permutation_middle in Hnd. apply NoDup_cons in Hnd as [Hnd _].
    apply Hnd. rewrite <- fmap_app, <- Heq. apply list_elem_of_fmap. by exists d. }
  assert (∀ d, d ∈ L1 ++ L2 → cell_stored enc (sk_arena sk) d → cell_stored enc ar' d) as Hst.
  { intros d Hd (m & Hm & Ht & Hh). exists m. rewrite Hnodes, lookup_insert_ne by (by apply not_eq_sym, Hne).
    split_and!; [done|done|]. by eapply same_payload_holds. }
  split; cbn [sk_head sk_height sk_arena with_arena]; try apply I; try done.
  - intros h Hh. rewrite ptrs_with_val. eapply links_ext; [|apply I, Hh]. intros x _. apply Htw.
  - rewrite fmap_with_val. eapply back_links_ext; [|apply I]. intros x _. apply Hpv.
  - pose proof (inv_cells _ _ _ _ _ I) as Hc. rewrite Forall_app, Forall_cons in *.
    destruct Hc as (H1 & Hc & H2). split_and!.
    + apply Forall_forall. intros d Hd. apply Hst; [set_solver|]. by apply (proj1 (Forall_forall _ _) H1).
    + exists n'. cbn [c_ptr c_key c_val with_val]. rewrite Hnodes, lookup_insert_eq, Htower.
      split_and!; [done| |done]. destruct Hc as (m & Hm & Ht & _). congruence.
    + apply Forall_forall. intros d Hd. apply Hst; [set_solver|]. by apply (proj1 (Forall_forall _ _) H2).
  - pose proof (inv_sorted _ _ _ _ _ I) as Hs. rewrite StronglySorted_app, StronglySorted_cons in *.
    destruct Hs as (Hx & H1 & H2 & H3). split_and!; try done.
    intros a b Ha [->|Hb]%elem_of_cons; [apply (Hx a c Ha); left|apply Hx; set_solver].
  - pose proof (inv_ok _ _ _ _ _ I) as Hok. by rewrite Forall_app, Forall_cons in *.
  - pose proof (inv_heights _ _ _ _ _ I) as Hok. by rewrite Forall_app, Forall_cons in *.
  - rewrite fmap_with_val. apply I.
  - intros p. rewrite fmap_with_val, Hdom. apply I.
  - intros p. rewrite fmap_with_val. intros Hp%(inv_below _ _ _ _ _ I). lia.
  - destruct (inv_head_tower _ _ _ _ _ I) as (m & Hm & Ht). destruct (decide (c_ptr c = 8%Z)) as [E|E].
    + exists n'. rewrite Hnodes, E, lookup_insert_eq, Htower. split; [done|]. congruence.
    + exists m. by rewrite Hnodes, lookup_insert_ne.
Qed.

Lemma push_replace r flips sk L1 c L3 k v :
  inv sk (L1 ++ c :: L3) → ok k → (Z.of_nat (length v) < 2 ^ 32)%Z → below kcmp k L1 → kcmp k (c_key c) = Eq →
  not_below kcmp k (c :: L3) →
  push cmp (S r) flips sk (enc k) v = try_set_value sk (Some (c_ptr c)) v ∧
  if decide (c_val c = v) then try_set_value sk (Some (c_ptr c)) v = Ok sk
  else if decide (fits (sk_arena sk) (value_cost v)) then
    ∃ sk', try_set_value sk (Some (c_ptr c)) v = Ok sk' ∧ inv sk' (L1 ++ with_val c v :: L3) ∧
      ar_ptr_offset (sk_arena sk') = (ar_ptr_offset (sk_arena sk) + value_cost v)%Z ∧
      ar_size (sk_arena sk') = ar_size (sk_arena sk)
  else try_set_value sk (Some (c_ptr c)) v = Panic.
Proof.
  intros I Hk Hv HL1 Ec HL2. split.
  { destruct (push_splices cmp kcmp enc ok sk L1 (c :: L3) k I Hk HL1 HL2) as (prev & r0 & Hset & Hfind & Hpost).
    unfold push. rewrite Hset. cbn [mbind outcome_bind]. rewrite Hfind. cbn [mbind outcome_bind].
    destruct r0 as [o|[prev' next']]; [by destruct Hpost as (d & L4 & [= -> ->] & _ & ->)|].
    destruct Hpost as (_ & _ & Hlt & _). specialize (Hlt c eq_refl). congruence. }
  cbn [try_set_value]. rewrite (value_at _ _ _ _ _ c I) by set_solver. cbn [mbind outcome_bind].
  destruct (decide (c_val c = v)) as [->|Hne]; [by rewrite bool_decide_true|].
  rewrite bool_decide_false by congruence.
  pose proof (inv_cells _ _ _ _ _ I) as Hcs. rewrite Forall_app, Forall_cons in Hcs.
  destruct Hcs as (_ & (n & Hn & _ & Hkey & Hklen & _) & _).
  pose proof (Node_set_value_spec _ _ n v (inv_arena _ _ _ _ _ I) Hn Hv) as Hset.
  destruct (decide (fits _ _)) as [Hf|Hf]; [|by rewrite Hset].
  destruct Hset as (n' & ss & -> & (off & Hvs & Hval) & Hko & Hkl & Hpr & Htw & Hold).
  cbn [mbind outcome_bind]. eexists. split; [done|]. split_and!; [|done|done].
  pose proof (round8_len_pos v) as Hpos. eapply inv_set_value; try done.
  - unfold node_holds. rewrite Hko, Hkl. split_and!; [by apply Hold|done|]. by exists off.
  - intros o bs. apply Hold.
  - apply arena_wf_grow; [apply I|lia|exact Hf].
  - cbn. unfold value_cost. lia.
Qed.

End Replace.

(* ------------------------------------------------------------------ *)
(** ** The sorted list and its splits *)

Section SortedSplit.
Context {K V : Type} (kcmp : K → K → comparison) `{!CmpOrder kcmp}.
Implicit Types m : list (K * V).

Abbreviation all_below k m := (Forall (λ e : K * V, kcmp k e.1 = Gt) m).

Lemma kv_insert_app k v m1 m2 : all_below k m1 → kv_insert kcmp k v (m1 ++ m2) = m1 ++ kv_insert kcmp k v m2.
Proof. induction 1 as [|[k' v'] m1 Hk Hm IH]; [done|]. cbn in *. by rewrite Hk, IH. Qed.

Lemma kv_lookup_app k m1 m2 : all_below k m1 → kv_lookup kcmp k (m1 ++ m2) = kv_lookup kcmp k m2.
Proof. induction 1 as [|[k' v'] m1 Hk Hm IH]; [done|]. cbn in *. by rewrite Hk. Qed.

Lemma kv_ceil_app k m1 m2 : all_below k m1 → kv_ceil kcmp k (m1 ++ m2) = kv_ceil kcmp k m2.
Proof. induction 1 as [|[k' v'] m1 Hk Hm IH]; [done|]. cbn in *. by rewrite Hk. Qed.

Lemma kv_lookup_above k m : Forall (λ e : K * V, kcmp k e.1 = Lt) m → kv_lookup kcmp k m = None.
Proof. induction 1 as [|[k' v'] m Hk Hm IH]; [done|]. cbn in *. by rewrite Hk. Qed.

(** Inserting and looking up. *)
Lemma kv_lookup_insert k k' v m :
  kv_sorted kcmp m →
  kv_lookup kcmp k' (kv_insert kcmp k v m) = match kcmp k' k with Eq => Some v | _ => kv_lookup kcmp k' m end.
Proof.
  induction 1 as [|[k0 v0] m Hs IH Hall]; cbn [kv_insert kv_lookup]; [done|].
  destruct (kcmp k k0) eqn:E0; cbn [kv_lookup].
  - apply (@cmp_eq _ kcmp _) in E0 as ->. by destruct (kcmp k' k0).
  - done.
  - rewrite IH. destruct (kcmp k' k0) eqn:E1, (kcmp k' k) eqn:E2; try done. exfalso.
    apply (@cmp_eq _ kcmp _) in E1 as ->. apply (@cmp_eq _ kcmp _) in E2 as ->.
    by rewrite (cmp_refl kcmp) in E0.
Qed.

End SortedSplit.

(* ------------------------------------------------------------------ *)
(** ** Refinement *)

Section Refine.
Context {K : Type} (cmp : list Z → list Z → comparison) (kcmp : K → K → comparison)
  (enc : K → list Z) (ok : K → Prop) `{!KeyCoding cmp kcmp enc ok}.
Implicit Types (sk : SkipListInner) (m : list (K * list Z)).

(** The skip list stands for the sorted list [m]. *)
Definition skl_rep sk m : Prop := ∃ l, skl_inv kcmp enc ok sk l ∧ cell_kv <$> l = m.

(** The bytes a push takes from the arena. *)
Definition push_cost m (k : K) (v : list Z) : Z :=
  match kv_lookup kcmp k m with
  | Some v' => if decide (v' = v) then 0%Z else value_cost v
  | None => node_cost (enc k) v
  end.

Lemma below_kv k (l : list (cell K)) :
  below kcmp k l → Forall (λ e : K * list Z, kcmp k e.1 = Gt) (cell_kv <$> l).
Proof. intros H. apply Forall_fmap. eapply Forall_impl; [exact H|]. done. Qed.

Lemma rep_sorted sk m : skl_rep sk m → kv_sorted kcmp m.
Proof.
  intros (l & I & <-). pose proof (inv_sorted _ _ _ _ _ I) as Hs. unfold kv_sorted. clear I.
  induction Hs as [|c l Hs IH Hall]; [constructor|]. rewrite fmap_cons.
  apply StronglySorted_cons. split; [|done]. apply Forall_fmap. exact Hall.
Qed.

(** The split of the cells at a key, and what the sorted list has there. *)
Lemma rep_split sk l k :
  skl_inv kcmp enc ok sk l →
  ∃ L1 L2, l = L1 ++ L2 ∧ below kcmp k L1 ∧ not_below kcmp k L2 ∧
    (∀ v, kv_insert kcmp k v (cell_kv <$> l) = (cell_kv <$> L1) ++ kv_insert kcmp k v (cell_kv <$> L2)) ∧
    kv_lookup kcmp k (cell_kv <$> l) = kv_lookup kcmp k (cell_kv <$> L2) ∧
    kv_ceil kcmp k (cell_kv <$> l) = kv_ceil kcmp k (cell_kv <$> L2).
Proof.
  intros I. destruct (split_at cmp kcmp enc ok sk l k I) as (L1 & L2 & -> & H1 & H2).
  exists L1, L2. split_and!; [done|done|done|intros v| |]; rewrite fmap_app.
  - apply kv_insert_app. by apply below_kv.
  - apply kv_lookup_app. by apply below_kv.
  - apply kv_ceil_app. by apply below_kv.
Qed.

Lemma sorted_after_lt sk L1 c L3 k :
  skl_inv kcmp enc ok sk (L1 ++ c :: L3) → kcmp k (c_key c) = Lt →
  kv_lookup kcmp k (cell_kv <$> c :: L3) = None.
Proof.
  intros I Hc. apply kv_lookup_above. apply Forall_fmap. constructor; [done|].
  pose proof (inv_sorted _ _ _ _ _ I) as (_ & _ & [Hs _]%StronglySorted_cons)%StronglySorted_app.
  eapply Forall_impl; [exact Hs|]. intros d Hd. by eapply (cmp_lt_trans kcmp).
Qed.

Lemma push_rep r flips sk m k v :
  skl_rep sk m → ok k → (Z.of_nat (length v) < 2 ^ 32)%Z →
  if decide (fits (sk_arena sk) (push_cost m k v)) then
    ∃ sk', push cmp (S r) flips sk (enc k) v = Ok sk' ∧ skl_rep sk' (kv_insert kcmp k v m) ∧
      ar_ptr_offset (sk_arena sk') = (ar_ptr_offset (sk_arena sk) + push_cost m k v)%Z ∧
      ar_size (sk_arena sk') = ar_size (sk_arena sk)
  else push cmp (S r) flips sk (enc k) v = Panic.
Proof.
  intros (l & I & <-) Hk Hv.
  destruct (rep_split sk l k I) as (L1 & L2 & -> & H1 & H2 & Hins & Hlook & _).
  rewrite Hins. unfold push_cost. rewrite Hlook.
  assert ((∃ c L3, L2 = c :: L3 ∧ kcmp k (c_key c) = Eq) ∨
          (kv_lookup kcmp k (cell_kv <$> L2) = None ∧ (∀ c, head L2 = Some c → kcmp k (c_key c) ≠ Eq) ∧
           ∀ v', kv_insert kcmp k v' (cell_kv <$> L2) = (k, v') :: (cell_kv <$> L2)))
    as [(c & L3 & -> & Ec)|(Hnone & Hneq & Hcons)].
  { destruct L2 as [|c L3]; [by right|]. destruct (kcmp k (c_key c)) eqn:Ec.
    - left. by exists c, L3.
    - right. split_and!; [by eapply sorted_after_lt| |].
      + intros d [= <-]. congruence.
      + intros v'. rewrite fmap_cons. cbn. by rewrite Ec.
    - exfalso. by apply (not_below_elem kcmp k (c :: L3) c); [|left|]. }
  - rewrite fmap_cons. cbn [kv_lookup kv_insert cell_kv]. rewrite Ec.
    destruct (push_replace cmp kcmp enc ok r flips sk L1 c L3 k v I Hk Hv H1 Ec H2) as [-> Hset].
    destruct (decide (c_val c = v)) as [<-|Hne].
    + rewrite decide_True by (pose proof (inv_arena _ _ _ _ _ I) as (? & _); unfold fits; lia).
      exists sk. split_and!; [done| |lia|done]. eexists. split; [exact I|]. by rewrite fmap_app.
    + destruct (decide (fits _ _)) as [Hf|Hf]; [|done]. destruct Hset as (sk' & Hs & I' & Hp & Hz).
      exists sk'. split_and!; [done| |done|done]. eexists. split; [exact I'|]. by rewrite fmap_app, fmap_cons.
  - rewrite Hnone. pose proof (push_new cmp kcmp enc ok r flips sk L1 L2 k v I Hk Hv H1 H2 Hneq) as Hpush.
    destruct (decide (fits _ _)) as [Hf|Hf]; [|done]. destruct Hpush as (sk' & c & Hs & I' & Hc & Hp & Hz).
    exists sk'. split_and!; [done| |done|done]. eexists. split; [exact I'|]. by rewrite fmap_app, fmap_cons, Hc, Hcons.
Qed.

(** Reads. *)
Definition is_eq (c : comparison) : bool := match c with Eq => true | _ => false end.

Lemma get_key_value_rep sk m k near :
  skl_rep sk m → ok k →
  SkipList_get_key_value cmp sk (enc k) near =
    Ok (match kv_ceil kcmp k m with
        | Some (k', v') => if near || is_eq (kcmp k k') then Some (enc k', v') else None
        | None => None
        end).
Proof.
  intros (l & I & <-) Hk. unfold SkipList_get_key_value.
  destruct (find_or_near_spec cmp kcmp enc ok sk l k near I Hk) as (r & -> & l1 & l2 & -> & Hb & Hcase).
  cbn [mbind outcome_bind]. rewrite fmap_app, kv_ceil_app by by apply below_kv.
  destruct l2 as [|c l3]; [by subst r|]. rewrite fmap_cons. cbn [kv_ceil cell_kv].
  destruct Hcase as [[Ec ->]|[Ec ->]]; rewrite Ec.
  - cbv beta iota. rewrite Ec. cbn [is_eq]. rewrite orb_true_r.
    rewrite (key_at _ _ _ _ _ c I) by set_solver. cbn [mbind outcome_bind unwrap].
    rewrite (value_at _ _ _ _ _ c I) by set_solver. done.
  - cbv beta iota. rewrite Ec. cbn [is_eq]. rewrite orb_false_r. destruct near; [|done].
    rewrite (key_at _ _ _ _ _ c I) by set_solver. cbn [mbind outcome_bind unwrap].
    rewrite (value_at _ _ _ _ _ c I) by set_solver. done.
Qed.

(** [find_last] is never [None]: of an empty list it is the head. *)
Lemma is_empty_rep sk m : skl_rep sk m → SkipList_is_empty sk = Ok false.
Proof.
  intros (l & I & _). unfold SkipList_is_empty. by rewrite (find_last_spec _ _ _ _ _ I).
Qed.

(** A pushed list of values, serialised. *)
Context `{!VarInt, !VarIntLaws}.

Definition stored_kvs (kvs : list (K * ValueMeta)) : list (K * list Z) :=
  (λ e, (e.1, ValueMeta_serialize e.2)) <$> kvs.

Definition shown_kvs (kvs : list (K * ValueMeta)) : list (list Z * ValueMeta) :=
  (λ e, (enc e.1, e.2)) <$> kvs.

Lemma iter_item sk l c kv o :
  skl_inv kcmp enc ok sk l → c ∈ l → cell_kv c = (kv.1, ValueMeta_serialize kv.2) → ValueMeta_wf kv.2 →
  node_key (mkSkipListIter sk (Some (c_ptr c)) o) (Some (c_ptr c)) = Some (enc kv.1) ∧
  node_value (mkSkipListIter sk (Some (c_ptr c)) o) (Some (c_ptr c)) = Ok (Some kv.2) ∧
  si_item (mkSkipListIter sk (Some (c_ptr c)) o) = Some (c_ptr c).
Proof.
  intros I Hc [= Hk Hv] Hwf. unfold node_key, node_value, si_item. cbn [si_inner si_node].
  rewrite (key_at _ _ _ _ _ c I) by done. rewrite (value_at _ _ _ _ _ c I) by done. cbn [mbind outcome_bind].
  rewrite Hk, Hv, ValueMeta_deserialize_serialize by apply Hwf. split_and!; [done|done|].
  rewrite (inv_head _ _ _ _ _ I), (proj2 (Z.eqb_neq _ _)); [done|]. intros Heq.
  pose proof (inv_nodup _ _ _ _ _ I) as [H8 _]%NoDup_cons. apply H8. rewrite <- Heq.
  apply list_elem_of_fmap. by exists c.
Qed.

Lemma iter_yields_from sk l1 l2 p kvs :
  skl_inv kcmp enc ok sk (l1 ++ l2) → stands p l1 0 → cell_kv <$> l2 = stored_kvs kvs →
  Forall (λ e, ValueMeta_wf e.2) kvs → yields (mkSkipListIter sk (Some p) None) (shown_kvs kvs).
Proof.
  intros I. revert l1 l2 p I. induction kvs as [|kv kvs IH]; intros l1 l2 p I Hp Hl Hwf.
  - destruct l2; [|done]. eapply yields_nil. unfold next, SkipListIter_next. cbn [si_node si_inner].
    rewrite (next_at _ _ _ _ _ _ _ _ I Hp) by (unfold SKL_MAX_HEIGHT; lia). done.
  - destruct l2 as [|c l2]; [done|]. unfold stored_kvs in Hl. rewrite !fmap_cons in Hl.
    injection Hl as Hk Hv Hl. apply Forall_cons in Hwf as [Hw Hwf].
    pose proof (inv_heights_pos _ _ _ _ _ _ I) as Hpos.
    destruct (iter_item sk _ c kv None I) as (Hkey & Hval & Hit); [set_solver|by unfold cell_kv; rewrite Hk, Hv|done|].
    eapply yields_cons with (it' := mkSkipListIter sk (Some (c_ptr c)) None).
    + unfold next, SkipListIter_next. cbn [si_node si_inner si_node_back].
      rewrite (next_at _ _ _ _ _ _ _ _ I Hp) by (unfold SKL_MAX_HEIGHT; lia). rewrite at_level_0 by done. done.
    + cbn [iter_key SkipListIter_kv]. by rewrite Hit.
    + cbn [iter_value SkipListIter_kv]. by rewrite Hit.
    + apply (IH (l1 ++ [c]) l2); [by rewrite <- app_assoc| |done|done].
      right. exists l1, c. split_and!; [done|done|]. apply Forall_cons in Hpos as [? _]. lia.
Qed.

(** Backwards from the cell [c], of which [l1] remains. *)
Lemma iter_back_from sk l1 c l2 kvs :
  skl_inv kcmp enc ok sk (l1 ++ c :: l2) → cell_kv <$> l1 = stored_kvs kvs →
  Forall (λ e, ValueMeta_wf e.2) kvs →
  yields (mkRev (mkSkipListIter sk (Some 8%Z) (Some (c_ptr c)))) (rev (shown_kvs kvs)).
Proof.
  intros I. revert c l2 kvs I. induction l1 as [|d l1 IH] using rev_ind; intros c l2 kvs I Hl Hwf.
  all: pose proof (inv_back _ _ _ _ _ I) as Hb; rewrite fmap_app, fmap_cons in Hb; apply back_links_lookup in Hb;
    unfold prev_at in Hb; apply fmap_Some in Hb as (n & Hn & Hpv).
  - destruct kvs; [|done]. eapply yields_nil. unfold next, SinkIterRev_next, next_back, SkipListIter_next_back.
    cbn [rev_iter si_node_back si_inner si_node]. unfold Node_prev, deref. rewrite Hn. cbn [unwrap mbind outcome_bind]. rewrite <- Hpv. done.
  - destruct kvs as [|kv kvs _] using rev_ind.
    { unfold stored_kvs in Hl. rewrite fmap_app in Hl. by destruct (cell_kv <$> l1). }
    unfold stored_kvs in Hl. rewrite !fmap_app in Hl. apply app_inj_tail in Hl as [Hl Hd].
    apply Forall_app in Hwf as [Hwf [Hw _]%Forall_cons].
    rewrite fmap_app in Hpv. cbn [fmap list_fmap] in Hpv. rewrite last_or_snoc in Hpv.
    destruct (iter_item sk _ d kv None I) as (Hkey & Hval & Hit); [set_solver|done|done|].
    assert (c_ptr d ≠ 8%Z) as Hd8.
    { intros E. unfold si_item in Hit. cbn [si_node si_inner] in Hit. rewrite (inv_head _ _ _ _ _ I), E in Hit. done. }
    assert ((8 <= c_ptr d)%Z) as H8d.
    { apply (inv_below _ _ _ _ _ I). right. apply list_elem_of_fmap. exists d. split; [done|set_solver]. }
    unfold shown_kvs. rewrite fmap_app, rev_app_distr. cbn [fmap list_fmap rev app].
    eapply yields_cons with (it' := mkRev (mkSkipListIter sk (Some 8%Z) (Some (c_ptr d)))).
    + unfold next, SinkIterRev_next, next_back, SkipListIter_next_back.
      cbn [rev_iter si_node_back si_inner si_node]. unfold Node_prev, deref. rewrite Hn. cbn [unwrap mbind outcome_bind].
      rewrite <- Hpv. unfold arena_get. rewrite (proj2 (Z.ltb_ge _ _)) by done.
      rewrite bool_decide_false by congruence. done.
    + exact Hkey.
    + exact Hval.
    + rewrite <- app_assoc in I. by apply (IH d (c :: l2)).
Qed.

Lemma iter_rep_yields sk kvs :
  skl_rep sk (stored_kvs kvs) → Forall (λ e, ValueMeta_wf e.2) kvs →
  yields (SkipList_iter sk) (shown_kvs kvs) ∧ yields (mkRev (SkipList_iter sk)) (rev (shown_kvs kvs)).
Proof.
  intros (l & I & Hl) Hwf. unfold SkipList_iter. rewrite (inv_head _ _ _ _ _ I). split.
  { apply (iter_yields_from sk [] l 8 kvs I); [by left|done|done]. }
  destruct l as [|c l _] using rev_ind.
  - destruct kvs; [|done]. eapply yields_nil. unfold next, SinkIterRev_next, next_back, SkipListIter_next_back.
    cbn [rev_iter si_node_back si_inner si_node]. rewrite (find_last_spec _ _ _ _ _ I). cbn [mbind outcome_bind].
    by rewrite (inv_head _ _ _ _ _ I).
  - destruct kvs as [|kv kvs _] using rev_ind.
    { rewrite fmap_app in Hl. by destruct (cell_kv <$> l). }
    unfold stored_kvs in Hl. rewrite !fmap_app in Hl. apply app_inj_tail in Hl as [Hl Hc].
    apply Forall_app in Hwf as [Hwf [Hw _]%Forall_cons].
    destruct (iter_item sk _ c kv None I) as (Hkey & Hval & Hit); [set_solver|done|done|].
    unfold shown_kvs. rewrite fmap_app, rev_app_distr. cbn [fmap list_fmap rev app].
    eapply yields_cons with (it' := mkRev (mkSkipListIter sk (Some 8%Z) (Some (c_ptr c)))).
    + unfold next, SinkIterRev_next, next_back, SkipListIter_next_back.
      cbn [rev_iter si_node_back si_inner si_node]. rewrite (find_last_spec _ _ _ _ _ I). cbn [mbind outcome_bind].
      rewrite fmap_app. change (c_ptr <$> [c]) with [c_ptr c]. rewrite last_or_snoc.
      unfold si_item in Hit. cbn [si_node si_inner] in Hit. destruct (_ =? _)%Z; [done|]. done.
    + exact Hkey.
    + exact Hval.
    + by apply (iter_back_from sk l c []).
Qed.

End Refine.

(* ------------------------------------------------------------------ *)
(** ** A new skip list *)

Lemma power_of_two n : (0 <= n)%Z → is_power_of_two (2 ^ n) = true.
Proof.
  intros Hn. unfold is_power_of_two. rewrite (proj2 (Z.ltb_lt _ _)) by (apply Z.pow_pos_nonneg; lia).
  replace (2 ^ n - 1)%Z with (Z.ones n) by (rewrite Z.ones_equiv; lia).
  rewrite Z.land_ones, Z.mod_same by (done || apply Z.pow_nonzero; lia). done.
Qed.

Lemma round_up_to_pow x n :
  (0 <= n <= 16)%Z → (0 <= x <= 2 ^ 62)%Z →
  ∃ y, round_up_to x (2 ^ n) = Ok y ∧ (x <= y < x + 2 ^ n)%Z ∧ (y `mod` 2 ^ n = 0)%Z.
Proof.
  intros Hn Hx. assert (0 < 2 ^ n <= 2 ^ 16)%Z as Hp.
  { split; [apply Z.pow_pos_nonneg; lia|apply Z.pow_le_mono_r; lia]. }
  unfold round_up_to. rewrite power_of_two by lia. rewrite (proj2 (Z.ltb_lt _ _)) by lia.
  cbn [assert_or_panic mbind outcome_bind]. rewrite (proj2 (Z.leb_le _ _)) by (unfold U64_MAX; lia).
  eexists. split; [done|]. rewrite land_lnot_ones by lia.
  pose proof (Z.mod_pos_bound (x + (2 ^ n - 1)) (2 ^ n) ltac:(lia)). split; [lia|].
  rewrite Zminus_mod, Z.mod_mod, <- Zminus_mod, Z.sub_diag by lia. by apply Z.mod_0_l; lia.
Qed.

(** The chunk has room for [size] bytes after its first word. *)
Lemma Arena_new_spec {N} n size :
  (4 <= n <= 16)%Z → (0 <= size <= 2 ^ 31)%Z →
  ∃ rs, Arena_new (N := N) (2 ^ n) size = Ok (mkArena 8 rs ∅ ∅) ∧ (size + 8 <= rs < 2 ^ 32)%Z.
Proof.
  intros Hn Hs. unfold Arena_new. rewrite (proj2 (Z.leb_le (size + 8) _)) by (unfold U64_MAX; lia).
  cbn [assert_or_panic mbind outcome_bind].
  destruct (round_up_to_pow (size + 8) 4) as (y & Hy & Hyb & Hym); [lia|lia|].
  change (2 ^ 4)%Z with CHUNK_ALIGN in Hy, Hym. rewrite Hy. cbn [mbind outcome_bind].
  assert (0 < 2 ^ n <= 2 ^ 16)%Z as Hp by (split; [apply Z.pow_pos_nonneg; lia|apply Z.pow_le_mono_r; lia]).
  assert (∃ rs, (if (2 ^ n <=? y)%Z then round_up_to y (2 ^ n) else Ok y) = Ok rs ∧
    (y <= rs < y + 2 ^ 16)%Z ∧ (rs `mod` CHUNK_ALIGN = 0)%Z) as (rs & -> & Hrs & Hm).
  { destruct (2 ^ n <=? y)%Z; [|exists y; split_and!; [done|lia|lia|done]].
    destruct (round_up_to_pow y n) as (z & Hz & Hzb & Hzm); [lia|lia|]. exists z. split_and!; [done|lia|lia|].
    apply Z.mod_divide in Hzm; [|lia]. apply Z.mod_divide; [done|]. etrans; [|exact Hzm].
    exists (2 ^ (n - 4))%Z. change CHUNK_ALIGN with (2 ^ 4)%Z. rewrite <- Z.pow_add_r by lia. f_equal. lia. }
  cbn [mbind outcome_bind]. rewrite Hm. cbn [Z.eqb assert_or_panic mbind outcome_bind].
  rewrite (proj2 (Z.leb_le rs _)) by (unfold ISIZE_MAX, CHUNK_ALIGN in *; lia). cbn [assert_or_panic mbind outcome_bind].
  unfold alloc_layout. change (Z.max 8 DEFAULT_ALIGN) with 8%Z. rewrite round_up_8 by (unfold U64_MAX; lia).
  cbn [mbind outcome_bind ar_ptr_offset ar_size ar_nodes ar_slices]. change (round8 8) with 8%Z.
  change (0 `mod` 8 =? 0)%Z with true. cbn [assert_or_panic mbind outcome_bind].
  rewrite (proj2 (Z.ltb_ge rs _)) by lia. cbn [mbind outcome_bind]. exists rs. split; [done|]. lia.
Qed.

(** A new list is empty and its arena has the requested room less the head. *)
Lemma SkipListInner_new_rep {K} (kcmp : K → K → comparison) enc ok n size :
  (4 <= n <= 16)%Z → (SKL_MAX_NODE_SIZE <= size <= 2 ^ 31)%Z →
  ∃ sk, SkipListInner_new (2 ^ n) size = Ok sk ∧ skl_rep kcmp enc ok sk [] ∧
    ar_ptr_offset (sk_arena sk) = 112%Z ∧ (size + 8 <= ar_size (sk_arena sk))%Z.
Proof.
  intros Hn Hs. unfold SKL_MAX_NODE_SIZE in Hs. destruct (@Arena_new_spec Node n size) as (rs & Ha & Hrs); [lia|lia|].
  unfold SkipListInner_new. rewrite Ha. cbn [mbind outcome_bind]. unfold alloc_with.
  rewrite alloc_layout_spec by (done || (unfold arena_wf; cbn; split_and!; (lia || done))).
  cbn [ar_ptr_offset ar_size]. rewrite decide_True by (change (round8 SKL_MAX_NODE_SIZE) with 104%Z; lia).
  cbn [mbind outcome_bind ar_ptr_offset ar_size ar_nodes ar_slices].
  change (8 + round8 SKL_MAX_NODE_SIZE)%Z with 112%Z. eexists. split; [done|].
  split_and!; [|done|cbn; lia]. exists []. split; [|done].
  split; cbn [sk_head sk_height sk_arena ar_nodes ar_ptr_offset ar_size]; try done.
  - unfold SKL_MAX_HEIGHT. lia.
  - unfold arena_wf. cbn. split_and!; [lia|lia|done|lia].
  - intros h Hh. change (tower_at (<[8%Z := mkNode 0 0 0 (u16 (Z.of_nat SKL_MAX_HEIGHT)) 0 (replicate SKL_MAX_HEIGHT 0%Z)]> ∅) 8 h = Some 0%Z).
    unfold tower_at. rewrite lookup_insert_eq.
    change (replicate SKL_MAX_HEIGHT 0%Z !! h = Some 0%Z). by rewrite lookup_replicate_2.
  - constructor.
  - by apply NoDup_singleton.
  - intros p. rewrite lookup_insert_is_Some'. rewrite lookup_empty. cbn. split.
    + intros [->|[? ?]]; [left|done].
    + intros ->%list_elem_of_singleton. by left.
  - intros p ->%list_elem_of_singleton. lia.
  - eexists. rewrite lookup_insert_eq. split; [done|]. done.
Qed.

(** ** The keys of the store *)

(** The keys a memtable can hold: not empty, and short enough for [u16]. *)
Definition KeyTs_storable (k : KeyTs) : Prop :=
  kt_key k ≠ [] ∧ in_width 64 (kt_ts k) ∧ (Z.of_nat (KeyTs_len k) < 2 ^ 16)%Z.

#[export] Instance KeyTs_coding : KeyCoding kb_cmp KeyTs_cmp KeyTs_serialize KeyTs_storable.
Proof.
  split.
  - apply _.
  - intros a b (Ha & Hta & _) (Hb & Htb & _). by apply kb_cmp_serialize.
  - intros a (_ & _ & Ha). by rewrite length_KeyTs_serialize.
Qed.

(* ------------------------------------------------------------------ *)
(** ** A list that was filled by pushes *)

Section Filled.
Context {K : Type} (cmp : list Z → list Z → comparison) (kcmp : K → K → comparison)
  (enc : K → list Z) (ok : K → Prop) `{!KeyCoding cmp kcmp enc ok, !VarInt, !VarIntLaws}.

(** A push of a key and a value, with the coin flips of its height. *)
Definition pushing : Type := K * ValueMeta * list bool.

Definition push_one (r : nat) (sk : SkipListInner) (p : pushing) : outcome SkipListInner :=
  push cmp r p.2 sk (enc p.1.1) (ValueMeta_serialize p.1.2).

Definition push_all (r : nat) (sk : SkipListInner) (ps : list pushing) : outcome SkipListInner :=
  fold_outcome (push_one r) sk ps.

(** The sorted list the pushes make, and the last value pushed for a key. *)
Definition pushed (ps : list pushing) : list (K * ValueMeta) :=
  foldl (λ m p, kv_insert kcmp p.1.1 p.1.2 m) [] ps.

Definition last_pushed (ps : list pushing) (k : K) : option ValueMeta :=
  foldl (λ o p, match kcmp k p.1.1 with Eq => Some p.1.2 | _ => o end) None ps.

Definition pushing_ok (p : pushing) : Prop :=
  ok p.1.1 ∧ ValueMeta_wf p.1.2 ∧ (Z.of_nat (length (ValueMeta_serialize p.1.2)) < 2 ^ 32)%Z.

Definition pushing_cost (p : pushing) : Z := node_cost (enc p.1.1) (ValueMeta_serialize p.1.2).

Lemma kv_insert_sorted {V} k (v : V) m : kv_sorted kcmp m → kv_sorted kcmp (kv_insert kcmp k v m).
Proof.
  induction 1 as [|[k0 v0] m Hs IH Hall]; cbn [kv_insert]; [by repeat constructor|].
  destruct (kcmp k k0) eqn:E0.
  - by constructor.
  - constructor; [by constructor|]. constructor; [done|]. eapply Forall_impl; [exact Hall|].
    intros e He. by eapply (cmp_lt_trans kcmp).
  - constructor; [done|]. assert (Forall (λ e : K * V, kcmp k0 e.1 = Lt) (kv_insert kcmp k v m)); [|done].
    apply (cmp_gt_lt kcmp) in E0. clear IH Hs. induction m as [|[k1 v1] m IH]; cbn [kv_insert]; [by repeat constructor|].
    apply Forall_cons in Hall as [H1 Hall]. destruct (kcmp k k1) eqn:E1; repeat constructor; try done. by apply IH.
Qed.

Lemma stored_insert k v m : stored_kvs (kv_insert kcmp k v m) = kv_insert kcmp k (ValueMeta_serialize v) (stored_kvs m).
Proof.
  induction m as [|[k0 v0] m IH]; [done|]. cbn. destruct (kcmp k k0); [done|done|]. cbn. f_equal. apply IH.
Qed.

Lemma wf_insert k (v : ValueMeta) m :
  ValueMeta_wf v → Forall (λ e : K * ValueMeta, ValueMeta_wf e.2) m →
  Forall (λ e : K * ValueMeta, ValueMeta_wf e.2) (kv_insert kcmp k v m).
Proof.
  intros Hv. induction 1 as [|[k0 v0] m Hv0 Hm IH]; cbn; [by apply Forall_singleton|].
  destruct (kcmp k k0); rewrite ?Forall_cons; done.
Qed.

Lemma lookup_stored k m : kv_lookup kcmp k (stored_kvs m) = ValueMeta_serialize <$> kv_lookup kcmp k m.
Proof. induction m as [|[k0 v0] m IH]; [done|]. cbn. by destruct (kcmp k k0). Qed.

Lemma push_cost_le m k v : (0 <= push_cost kcmp enc m k v <= node_cost (enc k) v)%Z.
Proof.
  unfold push_cost, node_cost, value_cost, SKL_MAX_NODE_SIZE.
  pose proof (round8_len_pos (enc k)). pose proof (round8_len_pos v).
  destruct (kv_lookup kcmp k m); [case_decide|]; lia.
Qed.

Lemma push_all_rep r ps : ∀ sk m,
  skl_rep kcmp enc ok sk (stored_kvs m) → Forall (λ e, ValueMeta_wf e.2) m → Forall pushing_ok ps →
  fits (sk_arena sk) (sum_of pushing_cost ps) →
  ∃ sk', push_all (S r) sk ps = Ok sk' ∧
    skl_rep kcmp enc ok sk' (stored_kvs (foldl (λ m p, kv_insert kcmp p.1.1 p.1.2 m) m ps)) ∧
    Forall (λ e, ValueMeta_wf e.2) (foldl (λ m p, kv_insert kcmp p.1.1 p.1.2 m) m ps).
Proof.
  induction ps as [|p ps IH]; intros sk m Hrep Hwf Hps Hfit; [by exists sk|].
  apply Forall_cons in Hps as [(Hk & Hv & Hlen) Hps]. cbn [sum_of] in Hfit.
  assert (0 <= sum_of pushing_cost ps)%Z as Hpos.
  { apply sum_of_nonneg. intros q. unfold pushing_cost. pose proof (push_cost_le [] (q.1.1) (ValueMeta_serialize q.1.2)). lia. }
  pose proof (push_rep cmp kcmp enc ok r p.2 sk _ p.1.1 _ Hrep Hk Hlen) as Hpush.
  pose proof (push_cost_le (stored_kvs m) p.1.1 (ValueMeta_serialize p.1.2)) as Hcost.
  assert (pushing_cost p = node_cost (enc p.1.1) (ValueMeta_serialize p.1.2)) as Hpc by done.
  unfold fits in Hfit. rewrite decide_True in Hpush by (unfold fits; lia).
  destruct Hpush as (sk' & Hs & Hrep' & Hptr & Hsize). unfold push_all. cbn [fold_outcome].
  change (push_one (S r) sk p) with (push cmp (S r) p.2 sk (enc p.1.1) (ValueMeta_serialize p.1.2)).
  rewrite Hs. cbn [mbind outcome_bind]. rewrite <- stored_insert in Hrep'.
  apply (IH sk' _ Hrep'); [by apply wf_insert|done|]. unfold fits. rewrite Hptr, Hsize. lia.
Qed.

Lemma pushed_snoc ps p : pushed (ps ++ [p]) = kv_insert kcmp p.1.1 p.1.2 (pushed ps).
Proof. unfold pushed. by rewrite foldl_app. Qed.

Lemma pushed_sorted ps : kv_sorted kcmp (pushed ps).
Proof.
  induction ps as [|p ps IH] using rev_ind; [constructor|]. rewrite pushed_snoc. by apply kv_insert_sorted.
Qed.

Lemma pushed_lookup ps k : kv_lookup kcmp k (pushed ps) = last_pushed ps k.
Proof.
  induction ps as [|p ps IH] using rev_ind; [done|]. rewrite pushed_snoc, (kv_lookup_insert kcmp) by apply pushed_sorted.
  unfold last_pushed. rewrite foldl_app. cbn. rewrite IH. done.
Qed.

Lemma SkipList_get_rep sk m k :
  skl_rep kcmp enc ok sk m → ok k → SkipList_get cmp sk (enc k) false = Ok (kv_lookup kcmp k m).
Proof.
  intros (l & I & <-) Hk. unfold SkipList_get.
  destruct (find_or_near_spec cmp kcmp enc ok sk l k false I Hk) as (r & -> & l1 & l2 & -> & Hb & Hcase).
  cbn [mbind outcome_bind]. rewrite fmap_app, kv_lookup_app by by apply below_kv.
  destruct l2 as [|c l3]; [by subst r|]. destruct Hcase as [[Ec ->]|[Ec ->]].
  - rewrite (value_at _ _ _ _ _ c I) by set_solver. rewrite fmap_cons. cbn [kv_lookup cell_kv]. by rewrite Ec.
  - by rewrite (sorted_after_lt cmp kcmp enc ok _ _ _ _ _ I Ec).
Qed.

End Filled.

(* ------------------------------------------------------------------ *)
(** ** Theorems *)

(** C8: A push keeps the skip list a sorted map: whatever the height drawn for
    the node, it inserts the key with its value in order or replaces the value of
    an equal key, takes exactly the bytes it needs from the arena, and panics
    exactly when they do not fit. *)
Theorem skiplist_push_refines {K} (cmp : list Z → list Z → comparison) (kcmp : K → K → comparison) enc ok
    `{!KeyCoding cmp kcmp enc ok} retries flips sk m k v :
  skl_rep kcmp enc ok sk m → ok k → (Z.of_nat (length v) < 2 ^ 32)%Z →
  (fits (sk_arena sk) (push_cost kcmp enc m k v) →
   ∃ sk', push cmp (S retries) flips sk (enc k) v = Ok sk' ∧ skl_rep kcmp enc ok sk' (kv_insert kcmp k v m) ∧
     ar_ptr_offset (sk_arena sk') = (ar_ptr_offset (sk_arena sk) + push_cost kcmp enc m k v)%Z ∧
     ar_size (sk_arena sk') = ar_size (sk_arena sk)) ∧
  (¬ fits (sk_arena sk) (push_cost kcmp enc m k v) → push cmp (S retries) flips sk (enc k) v = Panic).
Proof.
  intros Hrep Hk Hv. pose proof (push_rep cmp kcmp enc ok retries flips sk m k v Hrep Hk Hv) as H.
  split; intros Hf; [rewrite decide_True in H by done|rewrite decide_False in H by done]; exact H.
Qed.

(** C9: A skip list filled by pushes is the sorted map of what was pushed: when
    the nodes fit into the arena the pushes succeed, a read returns the last value
    pushed for its key, a near read the first entry at or above the key, and the
    iterator shows the entries in key order forwards and backwards.  It is never
    reported empty, not even when nothing was pushed. *)
Theorem skiplist_is_sorted_map {K} (cmp : list Z → list Z → comparison) (kcmp : K → K → comparison) enc ok
    `{!KeyCoding cmp kcmp enc ok, !VarInt, !VarIntLaws} n size retries ps :
  (4 <= n <= 16)%Z → (SKL_MAX_NODE_SIZE <= size <= 2 ^ 31)%Z → Forall (pushing_ok ok) ps →
  (SKL_MAX_NODE_SIZE + sum_of (pushing_cost enc) ps <= size)%Z →
  ∃ sk0 sk, SkipListInner_new (2 ^ n) size = Ok sk0 ∧ push_all cmp enc (S retries) sk0 ps = Ok sk ∧
    (∀ k, ok k → SkipList_get cmp sk (enc k) false = Ok (ValueMeta_serialize <$> last_pushed kcmp ps k)) ∧
    (∀ k, ok k → SkipList_get_key_value cmp sk (enc k) true =
       Ok (prod_map enc id <$> kv_ceil kcmp k (stored_kvs (pushed kcmp ps)))) ∧
    kv_sorted kcmp (pushed kcmp ps) ∧
    yields (SkipList_iter sk) (shown_kvs enc (pushed kcmp ps)) ∧
    yields (mkRev (SkipList_iter sk)) (rev (shown_kvs enc (pushed kcmp ps))) ∧
    SkipList_is_empty sk = Ok false.
Proof.
  intros Hn Hs Hps Hsum. destruct (SkipListInner_new_rep kcmp enc ok n size Hn Hs) as (sk0 & Hnew & Hrep0 & Hptr & Hsize).
  destruct (push_all_rep cmp kcmp enc ok retries ps sk0 [] Hrep0) as (sk & Hall & Hrep & Hwf); [constructor|done| |].
  { unfold fits, SKL_MAX_NODE_SIZE in *. lia. }
  fold (pushed kcmp ps) in Hrep, Hwf. exists sk0, sk. split_and!; [done|done| | | | | |].
  - intros k Hk. rewrite (SkipList_get_rep cmp kcmp enc ok _ _ _ Hrep Hk). by rewrite lookup_stored, (pushed_lookup cmp kcmp enc ok).
  - intros k Hk. rewrite (get_key_value_rep cmp kcmp enc ok _ _ _ true Hrep Hk).
    by destruct (kv_ceil _ _ _) as [[]|].
  - by apply (pushed_sorted cmp kcmp enc ok).
  - by apply (iter_rep_yields cmp kcmp enc ok _ _ Hrep).
  - by apply (iter_rep_yields cmp kcmp enc ok _ _ Hrep).
  - by eapply is_empty_rep.
Qed.

Module SkipListExamples.

Definition key7 : KeyTs := mkKeyTs [7%Z] 3.
Definition key9 : KeyTs := mkKeyTs [9%Z] 4.

Lemma key_storable b ts : in_width 64 ts → KeyTs_storable (mkKeyTs [b] ts).
Proof. done. Qed.

Lemma skiplist_push_refines_witness :
  ∃ sk sk', SkipListInner_new (2 ^ 12) 4000 = Ok sk ∧
    push kb_cmp 1 [true; false] sk (KeyTs_serialize key7) [5%Z] = Ok sk' ∧
    skl_rep KeyTs_cmp KeyTs_serialize KeyTs_storable sk' [(key7, [5%Z])].
Proof.
  destruct (SkipListInner_new_rep KeyTs_cmp KeyTs_serialize KeyTs_storable 12 4000)
    as (sk & Hnew & Hrep & Hptr & Hsize); [lia|unfold SKL_MAX_NODE_SIZE; lia|].
  destruct (skiplist_push_refines kb_cmp KeyTs_cmp KeyTs_serialize KeyTs_storable 0 [true; false] sk [] key7 [5%Z])
    as [Hpush _]; [done|by apply key_storable|done|].
  destruct Hpush as (sk' & Hs & Hrep' & _); [|by exists sk, sk'].
  unfold fits. rewrite Hptr. change (push_cost _ _ _ _ _) with 128%Z. lia.
Defined.

Definition value_a : ValueMeta := mkValueMeta [97%Z] 0 0 0.
Definition value_b : ValueMeta := mkValueMeta [98%Z] 0 0 0.

Definition three_pushes : list (pushing (K := KeyTs)) :=
  [(key9, value_a, [true; true]); (key7, value_a, []); (key9, value_b, [false])].

Lemma value_wf b : in_width 8 b → ValueMeta_wf (mkValueMeta [b] 0 0 0).
Proof. intros. split_and!; [by apply Forall_singleton|done|done|done]. Qed.

Lemma three_pushes_ok : Forall (pushing_ok KeyTs_storable) three_pushes.
Proof. unfold three_pushes, pushing_ok. rewrite !Forall_cons. split_and!; try done; by apply value_wf. Qed.

Lemma skiplist_is_sorted_map_witness :
  ∃ sk0 sk, SkipListInner_new (2 ^ 12) 4000 = Ok sk0 ∧
    push_all kb_cmp KeyTs_serialize 1 sk0 three_pushes = Ok sk ∧
    SkipList_get kb_cmp sk (KeyTs_serialize key9) false = Ok (Some (ValueMeta_serialize value_b)) ∧
    yields (SkipList_iter sk) [(KeyTs_serialize key7, value_a); (KeyTs_serialize key9, value_b)].
Proof.
  destruct (skiplist_is_sorted_map kb_cmp KeyTs_cmp KeyTs_serialize KeyTs_storable 12 4000 0 three_pushes)
    as (sk0 & sk & Hnew & Hall & Hget & _ & _ & Hy & _);
    [lia|unfold SKL_MAX_NODE_SIZE; lia|apply three_pushes_ok|vm_compute; discriminate|].
  exists sk0, sk. split_and!; [done|done| |exact Hy]. apply (Hget key9). by apply key_storable.
Defined.

(** The third push replaces the value of its key: three levels, 376 bytes. *)
Example push_twice_replaces :
  (sk ← SkipListInner_new 4096 4000;
   sk ← push_all kb_cmp KeyTs_serialize 1 sk three_pushes;
   Ok (sk_height sk, SkipList_mem_size sk)) = Ok (3, 376%Z).
Proof. vm_compute. reflexivity. Qed.

End SkipListExamples.
