(* ===== verification/MemTable.v ===== *)
(** * MemTable: the memtables and their write-ahead logs

    [MemTable] and [MemTableConfig] of src/src/memtable/ over the skip list
    (SkipList.v) and the log file (Vlog.v), with [LogFile::open] of
    src/src/util/log_file.rs.

    A directory is the map of its memtable files by identifier, each its bytes; the
    names of the files are turned into identifiers by [MemTableId::parse].  The
    registry gives the cipher of a key identifier and the latest cipher; the nonce
    drawn for a new file is an argument.  A log that was opened starts writing at
    offset 0 when it existed, and after its header when it is new. *)
From stdpp Require Import base list gmap strings sorting.
From Stdlib Require Import ZArith Lia.
From S2P Require Import Prelude Util VarInt Kv Iter Pb Storage Vlog Arena SkipList.
From S2P Require Import SkipListInv SkipListPush SkipListSpec.

Local Open Scope nat_scope.

Record MemTable : Type := mkMemTable {
  mt_skip_list : SkipListInner;
  mt_wal : LogFile;
  mt_write_offset : nat;
  mt_max_version : Z;
  mt_memtable_size : nat;
  mt_read_only : bool
}.

Record MemTableConfig : Type := mkMemTableConfig {
  mc_read_only : bool;
  mc_memtable_size : nat;
  mc_arena_size : nat;
  mc_num_memtables : nat;
  mc_next_fid : Z
}.

Definition MemTableConfig_default : MemTableConfig :=
  mkMemTableConfig false (Z.to_nat (Z.shiftl 64 20)) (Z.to_nat (Z.shiftl 64 20)) 5 0.

(** What a memtable uses of the key registry. *)
Record Registry : Type := mkRegistry {
  kr_get_cipher : Z → outcome (option AesCipher);
  kr_latest_cipher : outcome (option AesCipher)
}.

Section MemTableCode.
Context `{!VarInt, !VarIntRead, !ChecksumCodec, !Aead}.
Context (page : nat) (retries : nat).

Definition with_skip_list (mt : MemTable) (sk : SkipListInner) : MemTable :=
  mkMemTable sk (mt_wal mt) (mt_write_offset mt) (mt_max_version mt) (mt_memtable_size mt) (mt_read_only mt).

Definition with_max_version (mt : MemTable) (v : Z) : MemTable :=
  mkMemTable (mt_skip_list mt) (mt_wal mt) (mt_write_offset mt) v (mt_memtable_size mt) (mt_read_only mt).

(** [MemTable::push] *)
Definition MemTable_push (flips : list bool) (mt : MemTable) (entry : Entry) : outcome MemTable :=
  '(wal, offset) ← log_write_entry page (mt_wal mt, mt_write_offset mt) entry;
  let mt := mkMemTable (mt_skip_list mt) wal offset (mt_max_version mt) (mt_memtable_size mt) (mt_read_only mt) in
  if Meta_contains (Entry_meta entry) Meta_FIN_TXN then Ok mt
  else
    sk ← push kb_cmp retries flips (mt_skip_list mt) (KeyTs_serialize (e_key_ts entry))
           (ValueMeta_serialize (e_value_meta entry));
    Ok (with_max_version (with_skip_list mt sk) (Z.max (mt_max_version mt) (Entry_version entry))).

(** [MemTable::get] *)
Definition MemTable_get (mt : MemTable) (key_ts : KeyTs) (allow_near : bool) : outcome (option (Z * ValueMeta)) :=
  o ← SkipList_get_key_value kb_cmp (mt_skip_list mt) (KeyTs_serialize key_ts) allow_near;
  Ok (match o with
      | Some (k, v) =>
          if bool_decide (kb_key k = kt_key key_ts) then
            match ValueMeta_deserialize v with
            | Some value_meta => Some (kb_txn_ts k, value_meta)
            | None => None
            end
          else None
      | None => None
      end).

(** [MemTable::is_full] *)
Definition MemTable_is_full (mt : MemTable) : bool :=
  if (Z.of_nat (mt_memtable_size mt) <=? SkipList_mem_size (mt_skip_list mt))%Z then true
  else mt_memtable_size mt <=? mt_write_offset mt.

(** [MemTable::reload]: the entries of the log go into the skip list, one by one,
    each with its own flips. *)
Definition reload_entry (st : SkipListInner * list (list bool)) (e : Entry) :
    outcome (SkipListInner * list (list bool)) :=
  let '(sk, flips) := st in
  sk ← push kb_cmp retries (default [] (head flips)) sk (KeyTs_serialize (e_key_ts e))
         (ValueMeta_serialize (e_value_meta e));
  Ok (sk, tail flips).

Definition MemTable_reload_log (flips : list (list bool)) (mt : MemTable) : outcome MemTable :=
  '(entries, max_version, wal) ← MemTable_reload (mt_wal mt) (mt_read_only mt);
  '(sk, _) ← fold_outcome reload_entry (mt_skip_list mt, flips) entries;
  Ok (mkMemTable sk wal (mt_write_offset mt) (Z.max (mt_max_version mt) max_version) (mt_memtable_size mt)
        (mt_read_only mt)).

(** [LogFile::open] on the bytes of a file: a file of length 0 is new, gets its
    size and a header; the write offset is 0 for a file that existed. *)
Definition LogFile_open (kr : Registry) (nonce : list Z) (fid : Z) (bytes : list Z) (fsize : nat) :
    outcome (LogFile * nat * bool) :=
  let is_new := (0 <? fsize) && (length bytes =? 0) in
  '(bytes, offset) ←
    (if is_new then
       cipher ← kr_latest_cipher kr;
       Ok (lf_bytes (LogFile_new fid cipher nonce fsize), VLOG_HEADER_SIZE)
     else Ok (bytes, 0));
  if length bytes <? VLOG_HEADER_SIZE then Ok (mkLogFile fid None [] bytes, offset, is_new)
  else
    buf ← slice_to bytes VLOG_HEADER_SIZE;
    '(key_id, buf) ← get_u64 buf;
    cipher ← kr_get_cipher kr key_id;
    Ok (mkLogFile fid cipher (take 12 buf) bytes, offset, is_new).

(** [MemTableConfig::open] on the bytes of the file. *)
Definition MemTable_open (cfg : MemTableConfig) (kr : Registry) (nonce : list Z) (flips : list (list bool))
    (fid : Z) (bytes : list Z) : outcome (MemTable * bool) :=
  skip_list ← SkipListInner_new (Z.of_nat page) (Z.of_nat (mc_arena_size cfg));
  '(log_file, offset, is_new) ← LogFile_open kr nonce fid bytes (2 * mc_memtable_size cfg);
  let mem_table := mkMemTable skip_list log_file offset 0 (mc_memtable_size cfg) (mc_read_only cfg) in
  if (is_new : bool) then Ok (mem_table, true)
  else mem_table ← MemTable_reload_log flips mem_table; Ok (mem_table, false).

(** [MemTableConfig::new]: the identifier is taken from the counter. *)
Definition MemTable_new (cfg : MemTableConfig) (kr : Registry) (nonce : list Z) (dir : gmap Z (list Z)) :
    outcome (MemTable * MemTableConfig) :=
  let fid := mc_next_fid cfg in
  let cfg := mkMemTableConfig (mc_read_only cfg) (mc_memtable_size cfg) (mc_arena_size cfg)
               (mc_num_memtables cfg) (u32 (mc_next_fid cfg + 1)) in
  '(memtable, is_new) ← MemTable_open cfg kr nonce [] fid (default [] (dir !! fid));
  if (is_new : bool) then Ok (memtable, cfg) else Err (EMsg "File already exists").

(** [MemTableConfig::open_many]: the files in the order of their identifiers;
    empty memtables are dropped. *)
Fixpoint open_fids (cfg : MemTableConfig) (kr : Registry) (nonce : list Z) (flips : list (list bool))
    (dir : gmap Z (list Z)) (fids : list Z) : outcome (list MemTable) :=
  match fids with
  | [] => Ok []
  | fid :: fids =>
      '(memtable, _) ← MemTable_open cfg kr nonce flips fid (default [] (dir !! fid));
      empty ← SkipList_is_empty (mt_skip_list memtable);
      rest ← open_fids cfg kr nonce flips dir fids;
      Ok (if (empty : bool) then rest else memtable :: rest)
  end.

Definition MemTable_open_many (cfg : MemTableConfig) (kr : Registry) (nonce : list Z) (flips : list (list bool))
    (dir : gmap Z (list Z)) (fids : list Z) : outcome (list MemTable * MemTableConfig) :=
  let fids := merge_sort Z.le fids in
  immut_memtable ← open_fids cfg kr nonce flips dir fids;
  let next := default (mc_next_fid cfg) (last fids) in
  Ok (immut_memtable,
      mkMemTableConfig (mc_read_only cfg) (mc_memtable_size cfg) (mc_arena_size cfg) (mc_num_memtables cfg)
        (u32 (next + 1))).

End MemTableCode.

(* ------------------------------------------------------------------ *)
(** ** Lemmas: the newest version in a sorted list *)

Section Ceil.
Context {K V : Type} (kcmp : K → K → comparison) `{!CmpOrder kcmp}.

Lemma kv_ceil_spec (m : list (K * V)) k :
  kv_sorted kcmp m →
  match kv_ceil kcmp k m with
  | Some e => e ∈ m ∧ kcmp k e.1 ≠ Gt ∧ ∀ d, d ∈ m → kcmp k d.1 ≠ Gt → kcmp e.1 d.1 ≠ Gt
  | None => ∀ d, d ∈ m → kcmp k d.1 = Gt
  end.
Proof.
  induction 1 as [|[k0 v0] m Hs IH Hall]; cbn [kv_ceil]; [set_solver|]. rewrite Forall_forall in Hall.
  destruct (kcmp k k0) eqn:E0; cycle 2.
  { destruct (kv_ceil kcmp k m) as [e|].
    - destruct IH as (He & Hk & Hmin). split_and!; [by right|done|].
      intros d [->|Hd]%elem_of_cons; [done|by apply Hmin].
    - intros d [->|Hd]%elem_of_cons; [done|by apply IH]. }
  all: split_and!; [left|cbn [fst]; by rewrite E0|]; intros d [->|Hd]%elem_of_cons _; cbn [fst];
    [by rewrite (cmp_refl kcmp)|specialize (Hall d Hd); cbn [fst] in Hall; by rewrite Hall].
Qed.

Lemma kv_lookup_elem (m : list (K * V)) k v :
  kv_sorted kcmp m → kv_lookup kcmp k m = Some v ↔ (k, v) ∈ m.
Proof.
  induction 1 as [|[k0 v0] m Hs IH Hall]; cbn [kv_lookup]; [set_solver|]. rewrite Forall_forall in Hall.
  rewrite elem_of_cons, <- IH. destruct (kcmp k k0) eqn:E0.
  - apply (@cmp_eq _ kcmp _) in E0 as ->. split; [intros [= ->]; by left|].
    intros [[= ->]|Hin%IH]; [done|]. specialize (Hall _ Hin). cbn in Hall. by rewrite (cmp_refl kcmp) in Hall.
  - split; [by right|]. intros [[= -> ->]|?]; [|done]. by rewrite (cmp_refl kcmp) in E0.
  - split; [by right|]. intros [[= -> ->]|?]; [|done]. by rewrite (cmp_refl kcmp) in E0.
Qed.

(** An exact lookup is a ceiling that is equal. *)
Lemma kv_lookup_ceil (m : list (K * V)) k :
  kv_sorted kcmp m →
  kv_lookup kcmp k m =
    match kv_ceil kcmp k m with Some (k', v) => if is_eq (kcmp k k') then Some v else None | None => None end.
Proof.
  intros Hs. induction Hs as [|[k0 v0] m Hs IH Hall]; [done|]. cbn [kv_lookup kv_ceil].
  destruct (kcmp k k0) eqn:E0; cbn [is_eq]; rewrite ?E0; [done| |done]. cbn [is_eq].
  destruct (kv_lookup kcmp k m) as [v|] eqn:El; [|done]. exfalso.
  apply (kv_lookup_elem m k v Hs) in El. rewrite Forall_forall in Hall. specialize (Hall _ El). cbn in Hall.
  apply (cmp_lt_irrefl kcmp k). by eapply (cmp_lt_trans kcmp k k0 k).
Qed.

End Ceil.

(** Versions of one user key: newer ones come first. *)
Lemma KeyTs_cmp_same k a b : KeyTs_cmp (mkKeyTs k a) (mkKeyTs k b) ≠ Gt ↔ (b <= a)%Z.
Proof.
  unfold KeyTs_cmp. cbn [kt_key kt_ts]. rewrite bytes_cmp_refl. cbn [then_cmp].
  rewrite Z.compare_gt_iff. lia.
Qed.

(** Between a key and a version of it there are only versions of it. *)
Lemma KeyTs_between k a b d :
  KeyTs_cmp (mkKeyTs k a) d ≠ Gt → KeyTs_cmp d (mkKeyTs k b) ≠ Gt → kt_key d = k.
Proof.
  unfold KeyTs_cmp. cbn [kt_key kt_ts]. rewrite (bytes_cmp_antisym k (kt_key d)).
  destruct (bytes_cmp k (kt_key d)) eqn:E; cbn; [|done|done]. intros _ _. by apply bytes_cmp_eq in E.
Qed.

(* ------------------------------------------------------------------ *)
(** ** Lemmas: a memtable and the entries pushed into it *)

Section MemTableLemmas.
Context `{!VarInt, !VarIntLaws, !VarIntRead, !ChecksumCodec, !Aead, !AeadLaws}.

Abbreviation rep := (skl_rep KeyTs_cmp KeyTs_serialize KeyTs_storable).

(** The memtable holds [m]; its log can be written. *)
Definition mt_holds (mt : MemTable) (m : list (KeyTs * ValueMeta)) : Prop :=
  rep (mt_skip_list mt) (stored_kvs m) ∧ Forall (λ e, KeyTs_storable e.1 ∧ ValueMeta_wf e.2) m ∧
  kv_sorted KeyTs_cmp m ∧ 4 <= length (lf_base_nonce (mt_wal mt)).

Definition is_fin (e : Entry) : bool := Meta_contains (Entry_meta e) Meta_FIN_TXN.

(** An entry of a transaction that fits the formats. *)
Definition entry_storable (e : Entry) : Prop :=
  KeyTs_storable (e_key_ts e) ∧ ValueMeta_wf (e_value_meta e) ∧
  (Z.of_nat (length (ValueMeta_serialize (e_value_meta e))) < 2 ^ 32)%Z.

Definition entry_cost (e : Entry) : Z :=
  node_cost (KeyTs_serialize (e_key_ts e)) (ValueMeta_serialize (e_value_meta e)).

(** Writing to the log succeeds: the file grows when it must. *)
Lemma log_write_entry_total page lf off e :
  0 < page → 4 <= length (lf_base_nonce lf) →
  ∃ lf' off', log_write_entry page (lf, off) e = Ok (lf', off') ∧ lf_base_nonce lf' = lf_base_nonce lf ∧
    off < off'.
Proof.
  intros Hp Hn. unfold log_write_entry. destruct (encode_entry_total lf e off Hn) as (buf & Hbuf). rewrite Hbuf.
  assert (0 < length buf) as Hpos.
  { unfold encode_entry in Hbuf. destruct (log_try_encrypt _ _ _) as [o| |]; [|done|done].
    cbn [mbind outcome_bind] in Hbuf. injection Hbuf as _ Hl. lia. }
  cbn [mbind outcome_bind]. rewrite slice_to_Ok, firstn_all by lia. cbn [mbind outcome_bind].
  set (lf1 := if _ <=? _ then _ else lf).
  assert (off + length buf <= length (lf_bytes lf1) ∧ lf_base_nonce lf1 = lf_base_nonce lf) as [Hl1 Hn1].
  { unfold lf1. pose proof (Nat.mod_upper_bound (off + length buf) page). case_if; [|split; [lia|done]].
    cbn [log_truncate lf_bytes lf_base_nonce]. rewrite length_app, length_take, length_replicate. split; [lia|done]. }
  destruct (write_slice_spec lf1 off buf Hl1) as (lf' & -> & [(_ & _ & Hn') _] & _). cbn [mbind outcome_bind].
  exists lf', (off + length buf). split_and!; [done|congruence|lia].
Qed.

Definition insert_entry (m : list (KeyTs * ValueMeta)) (e : Entry) : list (KeyTs * ValueMeta) :=
  if is_fin e then m else kv_insert KeyTs_cmp (e_key_ts e) (e_value_meta e) m.

Definition bump_version (v : Z) (e : Entry) : Z := if is_fin e then v else Z.max v (Entry_version e).

Lemma storable_insert k v m :
  KeyTs_storable k → ValueMeta_wf v → Forall (λ e : KeyTs * ValueMeta, KeyTs_storable e.1 ∧ ValueMeta_wf e.2) m →
  Forall (λ e : KeyTs * ValueMeta, KeyTs_storable e.1 ∧ ValueMeta_wf e.2) (kv_insert KeyTs_cmp k v m).
Proof.
  intros Hk Hv. induction 1 as [|[k0 v0] m [Hk0 Hv0] Hm IH]; cbn [kv_insert]; [by apply Forall_singleton|].
  destruct (KeyTs_cmp k k0); rewrite ?Forall_cons; done.
Qed.

Lemma MemTable_push_holds page r flips mt m e :
  0 < page → mt_holds mt m → entry_storable e → fits (sk_arena (mt_skip_list mt)) (entry_cost e) →
  ∃ mt', MemTable_push page (S r) flips mt e = Ok mt' ∧ mt_holds mt' (insert_entry m e) ∧
    mt_max_version mt' = bump_version (mt_max_version mt) e ∧
    (ar_ptr_offset (sk_arena (mt_skip_list mt')) <= ar_ptr_offset (sk_arena (mt_skip_list mt)) + entry_cost e)%Z ∧
    ar_size (sk_arena (mt_skip_list mt')) = ar_size (sk_arena (mt_skip_list mt)).
Proof.
  intros Hp (Hrep & Hwf & Hs & Hn) (Hk & Hv & Hlen) Hfit. unfold MemTable_push, insert_entry, bump_version.
  destruct (log_write_entry_total page (mt_wal mt) (mt_write_offset mt) e Hp Hn) as (wal & off & -> & Hn' & _).
  cbn [mbind outcome_bind]. fold (is_fin e). pose proof (push_cost_le KeyTs_cmp KeyTs_serialize
    (stored_kvs m) (e_key_ts e) (ValueMeta_serialize (e_value_meta e))) as Hcost. destruct (is_fin e).
  { eexists. split; [done|]. split_and!; [| |cbn; unfold entry_cost; lia|done].
    - split_and!; [done|done|done|cbn; by rewrite Hn'].
    - done. }
  pose proof (push_rep kb_cmp KeyTs_cmp KeyTs_serialize KeyTs_storable r flips _ _ _ _ Hrep Hk Hlen) as Hpush.
  rewrite decide_True in Hpush by (unfold fits, entry_cost in *; lia).
  destruct Hpush as (sk' & Hpush & Hrep' & Hptr & Hsize). cbn [mt_skip_list]. rewrite Hpush.
  cbn [mbind outcome_bind]. eexists. split; [done|]. rewrite <- stored_insert in Hrep'.
  split_and!; [| |cbn; unfold entry_cost; lia|done].
  - split_and!; [done|by apply storable_insert|by apply (kv_insert_sorted kb_cmp KeyTs_cmp KeyTs_serialize KeyTs_storable)|].
    cbn. by rewrite Hn'.
  - done.
Qed.

(** The pushes of a writer: entries with the flips of their nodes. *)
Definition push_entries (page r : nat) (mt : MemTable) (es : list (Entry * list bool)) : outcome MemTable :=
  fold_outcome (λ mt e, MemTable_push page r e.2 mt e.1) mt es.

Lemma push_entries_holds page r es : ∀ mt m,
  0 < page → mt_holds mt m → Forall (λ e, entry_storable e.1) es →
  fits (sk_arena (mt_skip_list mt)) (sum_of (λ e, entry_cost e.1) es) →
  ∃ mt', push_entries page (S r) mt es = Ok mt' ∧ mt_holds mt' (foldl insert_entry m es.*1) ∧
    mt_max_version mt' = foldl bump_version (mt_max_version mt) es.*1 ∧
    ar_size (sk_arena (mt_skip_list mt')) = ar_size (sk_arena (mt_skip_list mt)).
Proof.
  induction es as [|e es IH]; intros mt m Hp Hh Hes Hfit; [by exists mt|].
  apply Forall_cons in Hes as [He Hes]. cbn [sum_of] in Hfit.
  assert (∀ x, 0 <= entry_cost x)%Z as Hnn.
  { intros x. unfold entry_cost. pose proof (push_cost_le KeyTs_cmp KeyTs_serialize [] (e_key_ts x)
      (ValueMeta_serialize (e_value_meta x))). lia. }
  pose proof (sum_of_nonneg (λ e, entry_cost e.1) es (λ y, Hnn y.1)) as Hs.
  pose proof (Hnn e.1) as He0. unfold fits in Hfit.
  destruct (MemTable_push_holds page r e.2 mt m e.1 Hp Hh He) as (mt1 & Hpush & Hh1 & Hv1 & Hptr & Hsize);
    [unfold fits; lia|].
  destruct (IH mt1 _ Hp Hh1 Hes) as (mt' & Hr & Hh' & Hv' & Hs'); [unfold fits; lia|].
  exists mt'. unfold push_entries in *. cbn [fold_outcome]. rewrite Hpush. cbn [mbind outcome_bind].
  split_and!; [done|done| |congruence]. by rewrite Hv', Hv1.
Qed.

(** What a point read of a held list answers. *)
Lemma MemTable_get_holds mt m key_ts :
  mt_holds mt m → KeyTs_storable key_ts →
  MemTable_get mt key_ts true =
    Ok (e ← kv_ceil KeyTs_cmp key_ts m; if decide (kt_key e.1 = kt_key key_ts) then Some (kt_ts e.1, e.2) else None).
Proof.
  intros (Hrep & Hwf & Hs & _) Hk. unfold MemTable_get.
  rewrite (get_key_value_rep kb_cmp KeyTs_cmp KeyTs_serialize KeyTs_storable _ _ _ true Hrep Hk).
  cbn [mbind outcome_bind orb].
  assert (kv_ceil KeyTs_cmp key_ts (stored_kvs m) =
          (λ e, (e.1, ValueMeta_serialize e.2)) <$> kv_ceil KeyTs_cmp key_ts m) as ->.
  { clear. induction m as [|[k0 v0] m IH]; [done|]. cbn. by destruct (KeyTs_cmp key_ts k0). }
  pose proof (kv_ceil_spec KeyTs_cmp m key_ts Hs) as Hc. destruct (kv_ceil KeyTs_cmp key_ts m) as [[k v]|]; [|done].
  destruct Hc as (Hin & _). pose proof (proj1 (Forall_forall _ _) Hwf _ Hin) as [(_ & Hw & _) (_ & Hexp & _)].
  cbn [fmap option_fmap option_map fst snd mbind option_bind]. rewrite kb_key_serialize.
  case_decide as Hkey; [rewrite bool_decide_true by done|by rewrite bool_decide_false].
  by rewrite ValueMeta_deserialize_serialize, kb_txn_ts_serialize.
Qed.

Lemma MemTable_get_exact mt m key_ts :
  mt_holds mt m → KeyTs_storable key_ts →
  MemTable_get mt key_ts false = Ok ((λ v, (kt_ts key_ts, v)) <$> kv_lookup KeyTs_cmp key_ts m).
Proof.
  intros (Hrep & Hwf & Hs & _) Hk. unfold MemTable_get.
  rewrite (get_key_value_rep kb_cmp KeyTs_cmp KeyTs_serialize KeyTs_storable _ _ _ false Hrep Hk).
  cbn [mbind outcome_bind orb]. rewrite (kv_lookup_ceil KeyTs_cmp m key_ts Hs).
  assert (kv_ceil KeyTs_cmp key_ts (stored_kvs m) =
          (λ e, (e.1, ValueMeta_serialize e.2)) <$> kv_ceil KeyTs_cmp key_ts m) as ->.
  { clear. induction m as [|[k0 v0] m IH]; [done|]. cbn. by destruct (KeyTs_cmp key_ts k0). }
  pose proof (kv_ceil_spec KeyTs_cmp m key_ts Hs) as Hc. destruct (kv_ceil KeyTs_cmp key_ts m) as [[k v]|]; [|done].
  destruct Hc as (Hin & _). pose proof (proj1 (Forall_forall _ _) Hwf _ Hin) as [(_ & Hw & _) (_ & Hexp & _)].
  cbn [fmap option_fmap option_map fst snd]. destruct (KeyTs_cmp key_ts k) eqn:E; cbn [is_eq]; [|done..].
  apply (cmp_eq (cmp := KeyTs_cmp)) in E as <-. rewrite kb_key_serialize, bool_decide_true by done.
  by rewrite ValueMeta_deserialize_serialize, kb_txn_ts_serialize.
Qed.

(** The last entry written for a key and version, without end markers. *)
Definition last_version (es : list Entry) (k : KeyTs) : option Entry :=
  last (base.filter (λ e, is_fin e = false ∧ e_key_ts e = k) es).

Lemma held_sorted es : kv_sorted KeyTs_cmp (foldl insert_entry [] es).
Proof.
  induction es as [|e es IH] using rev_ind; [constructor|]. rewrite foldl_app. cbn. unfold insert_entry at 1.
  destruct (is_fin e); [done|]. by apply (kv_insert_sorted kb_cmp KeyTs_cmp KeyTs_serialize KeyTs_storable).
Qed.

Lemma held_lookup es k : kv_lookup KeyTs_cmp k (foldl insert_entry [] es) = e_value_meta <$> last_version es k.
Proof.
  induction es as [|e es IH] using rev_ind; [done|]. rewrite foldl_app. cbn [foldl]. unfold insert_entry at 1, last_version.
  rewrite filter_app, filter_cons, filter_nil. destruct (is_fin e) eqn:Ef.
  - rewrite decide_False by naive_solver. rewrite app_nil_r. exact IH.
  - rewrite (kv_lookup_insert KeyTs_cmp) by apply held_sorted. destruct (KeyTs_cmp k (e_key_ts e)) eqn:Ec.
    + apply (@cmp_eq _ KeyTs_cmp _) in Ec as ->. rewrite decide_True by done. by rewrite last_snoc.
    + rewrite decide_False, app_nil_r; [exact IH|]. intros [_ Hk]. by rewrite Hk, (cmp_refl KeyTs_cmp) in Ec.
    + rewrite decide_False, app_nil_r; [exact IH|]. intros [_ Hk]. by rewrite Hk, (cmp_refl KeyTs_cmp) in Ec.
Qed.

(** The newest version of a key at or below a timestamp. *)
Definition newest_version (es : list Entry) (key_ts : KeyTs) (r : option (Z * ValueMeta)) : Prop :=
  let candidate e := is_fin e = false ∧ Entry_key e = kt_key key_ts ∧ (Entry_version e <= kt_ts key_ts)%Z in
  match r with
  | Some (v, vm) =>
      ∃ e, last_version es (mkKeyTs (kt_key key_ts) v) = Some e ∧ e_value_meta e = vm ∧ (v <= kt_ts key_ts)%Z ∧
        ∀ d, d ∈ es → candidate d → (Entry_version d <= v)%Z
  | None => ∀ d, d ∈ es → ¬ candidate d
  end.

Lemma candidate_held es d :
  d ∈ es → is_fin d = false → ∃ v, (e_key_ts d, v) ∈ foldl insert_entry [] es.
Proof.
  intros Hd Hf. assert (is_Some (last_version es (e_key_ts d))) as [e He].
  { unfold last_version. apply last_is_Some. intros Hnil.
    assert (d ∈ base.filter (λ e, is_fin e = false ∧ e_key_ts e = e_key_ts d) es) as Hin
      by (by apply list_elem_of_filter). rewrite Hnil in Hin. by apply not_elem_of_nil in Hin. }
  exists (e_value_meta e). apply (kv_lookup_elem KeyTs_cmp); [apply held_sorted|]. by rewrite held_lookup, He.
Qed.

Lemma ceil_newest es key_ts :
  newest_version es key_ts
    (e ← kv_ceil KeyTs_cmp key_ts (foldl insert_entry [] es);
     if decide (kt_key e.1 = kt_key key_ts) then Some (kt_ts e.1, e.2) else None).
Proof.
  pose proof (kv_ceil_spec KeyTs_cmp _ key_ts (held_sorted es)) as Hc. unfold newest_version. cbv zeta.
  destruct key_ts as [key ts]. cbn [kt_key kt_ts].
  assert (∀ d, is_fin d = false ∧ Entry_key d = key ∧ (Entry_version d <= ts)%Z → d ∈ es →
    ∃ v, (mkKeyTs key (Entry_version d), v) ∈ foldl insert_entry [] es ∧
      KeyTs_cmp (mkKeyTs key ts) (mkKeyTs key (Entry_version d)) ≠ Gt) as Hcand.
  { intros d (Hf & Hk & Hv) Hd. destruct (candidate_held es d Hd Hf) as [v Hin]. exists v.
    unfold Entry_key, Entry_version in *. destruct (e_key_ts d) as [k t]. cbn [kt_key kt_ts] in *. subst k.
    split; [done|]. by apply KeyTs_cmp_same. }
  destruct (kv_ceil KeyTs_cmp _ _) as [[[k v] vm]|]; cbn [mbind option_bind fst snd kt_key kt_ts].
  - destruct Hc as (Hin & Hge & Hmin). cbn [fst] in Hge, Hmin. case_decide as Hk.
    + subst k. apply (kv_lookup_elem KeyTs_cmp) in Hin; [|apply held_sorted]. rewrite held_lookup in Hin.
      apply fmap_Some in Hin as (e & He & ->). exists e. split_and!; [done|done|by apply KeyTs_cmp_same in Hge|].
      intros d Hd Hcd. destruct (Hcand d Hcd Hd) as (w & Hw & Hle). apply KeyTs_cmp_same with (k := key).
      exact (Hmin _ Hw Hle).
    + intros d Hd Hcd. destruct (Hcand d Hcd Hd) as (w & Hw & Hle). apply Hk.
      exact (KeyTs_between _ _ _ _ Hge (Hmin _ Hw Hle)).
  - intros d Hd Hcd. destruct (Hcand d Hcd Hd) as (w & Hw & Hle). by apply Hle, (Hc _ Hw).
Qed.

End MemTableLemmas.

(* ------------------------------------------------------------------ *)
(** ** Lemmas: creating and reopening *)

Section MemTableOpen.
Context `{!VarInt, !VarIntLaws, !VarIntRead, !VarIntReadLaws, !ChecksumCodec, !ChecksumLaws, !Aead, !AeadLaws}.

Definition cipher_id (c : option AesCipher) : Z := match c with Some c => cipher_key_id c | None => 0%Z end.

(** The registry knows its latest cipher by its identifier. *)
Definition registry_gives (kr : Registry) (c : option AesCipher) : Prop :=
  kr_latest_cipher kr = Ok c ∧ kr_get_cipher kr (cipher_id c) = Ok c ∧ in_width 64 (cipher_id c).

Lemma LogFile_open_bytes kr c nonce0 nonce fid rest fsize :
  kr_get_cipher kr (cipher_id c) = Ok c → in_width 64 (cipher_id c) → length nonce = 12 →
  LogFile_open kr nonce0 fid ((put_u64 (cipher_id c) ++ nonce) ++ rest) fsize =
    Ok (mkLogFile fid c nonce ((put_u64 (cipher_id c) ++ nonce) ++ rest), 0, false).
Proof.
  intros Hget Hw Hn. unfold LogFile_open.
  assert (length (put_u64 (cipher_id c) ++ nonce) = VLOG_HEADER_SIZE) as Hl by (by rewrite length_app, length_put_u64, Hn).
  rewrite (proj2 (Nat.eqb_neq _ 0)), andb_false_r by (rewrite length_app, Hl; unfold VLOG_HEADER_SIZE; lia).
  cbn [mbind outcome_bind]. rewrite (proj2 (Nat.ltb_ge _ _)) by (rewrite length_app, Hl; lia).
  rewrite slice_to_app by done. cbn [mbind outcome_bind]. rewrite get_put_u64 by done. cbn [mbind outcome_bind].
  rewrite Hget. cbn [mbind outcome_bind]. rewrite take_ge by lia. done.
Qed.

Lemma LogFile_open_new kr c nonce fid fsize :
  registry_gives kr c → length nonce = 12 → 0 < fsize →
  LogFile_open kr nonce fid [] fsize = Ok (LogFile_new fid c nonce fsize, VLOG_HEADER_SIZE, true).
Proof.
  intros (Hlat & Hget & Hw) Hn Hf.
  pose proof (LogFile_open_bytes kr c nonce nonce fid (replicate (fsize - length (put_u64 (cipher_id c) ++ nonce)) 0%Z)
    fsize Hget Hw Hn) as Hopen.
  unfold LogFile_open in *. rewrite (proj2 (Nat.ltb_lt 0 fsize)) by done. cbn [length Nat.eqb andb]. rewrite Hlat.
  cbn [mbind outcome_bind].
  assert (lf_bytes (LogFile_new fid c nonce fsize) =
    (put_u64 (cipher_id c) ++ nonce) ++ replicate (fsize - length (put_u64 (cipher_id c) ++ nonce)) 0%Z) as Hb by done.
  rewrite Hb. set (bytes := (put_u64 _ ++ nonce) ++ _) in *.
  assert ((length bytes =? 0) = false) as Hne.
  { apply Nat.eqb_neq. unfold bytes. rewrite !length_app, length_put_u64. lia. }
  rewrite Hne, andb_false_r in Hopen. cbn [mbind outcome_bind] in Hopen.
  rewrite (proj2 (Nat.ltb_ge _ _)) in * by (unfold bytes, VLOG_HEADER_SIZE; rewrite !length_app, length_put_u64; lia).
  destruct (slice_to bytes VLOG_HEADER_SIZE) as [b| |]; [|done|done].
  cbn [mbind outcome_bind] in *. destruct (get_u64 b) as [[id b']| |]; [|done|done]. cbn [mbind outcome_bind] in *.
  destruct (kr_get_cipher kr id) as [c'| |]; [|done|done]. cbn [mbind outcome_bind] in *.
  injection Hopen as -> ->. done.
Qed.

Definition config_ok (page : nat) (cfg : MemTableConfig) : Prop :=
  (∃ n, 4 <= n <= 16 ∧ Z.of_nat page = 2 ^ n)%Z ∧ 0 < mc_memtable_size cfg ∧
  (SKL_MAX_NODE_SIZE <= Z.of_nat (mc_arena_size cfg) <= 2 ^ 31)%Z.

Lemma fresh_skip_list page cfg :
  config_ok page cfg →
  ∃ sk, SkipListInner_new (Z.of_nat page) (Z.of_nat (mc_arena_size cfg)) = Ok sk ∧
    skl_rep KeyTs_cmp KeyTs_serialize KeyTs_storable sk [] ∧ ar_ptr_offset (sk_arena sk) = 112%Z ∧
    (Z.of_nat (mc_arena_size cfg) + 8 <= ar_size (sk_arena sk))%Z.
Proof.
  intros ((n & Hn & ->) & _ & Ha). by apply SkipListInner_new_rep.
Qed.

Lemma page_pos page cfg : config_ok page cfg → 0 < page.
Proof. intros ((n & Hn & Hp) & _). assert (0 < 2 ^ n)%Z by (apply Z.pow_pos_nonneg; lia). lia. Qed.

Lemma MemTable_new_holds page r cfg kr c nonce dir :
  config_ok page cfg → registry_gives kr c → length nonce = 12 → dir !! mc_next_fid cfg = None →
  ∃ sk cfg', MemTable_new page r cfg kr nonce dir =
      Ok (mkMemTable sk (LogFile_new (mc_next_fid cfg) c nonce (2 * mc_memtable_size cfg)) VLOG_HEADER_SIZE 0
            (mc_memtable_size cfg) (mc_read_only cfg), cfg') ∧
    mt_holds (mkMemTable sk (LogFile_new (mc_next_fid cfg) c nonce (2 * mc_memtable_size cfg)) VLOG_HEADER_SIZE 0
                (mc_memtable_size cfg) (mc_read_only cfg)) [] ∧
    ar_ptr_offset (sk_arena sk) = 112%Z ∧ (Z.of_nat (mc_arena_size cfg) + 8 <= ar_size (sk_arena sk))%Z.
Proof.
  intros Hcfg Hkr Hn Hdir. destruct (fresh_skip_list page cfg Hcfg) as (sk & Hsk & Hrep & Hptr & Hsize).
  exists sk. eexists. unfold MemTable_new, MemTable_open. cbn [mc_arena_size mc_memtable_size mc_read_only].
  rewrite Hsk. cbn [mbind outcome_bind]. rewrite Hdir. cbn [default from_option id].
  rewrite (LogFile_open_new kr c) by (done || (destruct Hcfg as (_ & ? & _); lia)). cbn [mbind outcome_bind].
  split_and!; [done| |done|done]. split_and!; [done|constructor|constructor|]. cbn. lia.
Qed.

(** The log of a memtable is written entry by entry. *)
Lemma push_entries_wal page r es : ∀ mt mt',
  push_entries page r mt es = Ok mt' →
  fold_outcome (log_write_entry page) (mt_wal mt, mt_write_offset mt) es.*1 = Ok (mt_wal mt', mt_write_offset mt').
Proof.
  induction es as [|e es IH]; intros mt mt'; unfold push_entries; cbn [fold_outcome fmap list_fmap].
  { by intros [= ->]. }
  unfold MemTable_push. destruct (log_write_entry page _ e.1) as [[wal off]| |]; [|done|done].
  cbn [mbind outcome_bind]. destruct (Meta_contains _ _).
  - cbn [mbind outcome_bind]. intros Hr. by apply (IH _ _ Hr).
  - destruct (push _ _ _ _ _ _) as [sk| |]; [|done|done]. cbn [mbind outcome_bind]. intros Hr. by apply (IH _ _ Hr).
Qed.

End MemTableOpen.

(* ------------------------------------------------------------------ *)
(** ** Theorems *)

Section MemTableTheorems.
Context `{!VarInt, !VarIntLaws, !VarIntRead, !VarIntReadLaws, !ChecksumCodec, !ChecksumLaws, !Aead, !AeadLaws}.

(** C10: A memtable answers with the newest version: after any entries were pushed
    into a new memtable with room for them, with or without a cipher for its log, a
    point read at a timestamp returns the newest version of the key at or below it
    with the value written last for that version, or nothing when there is none; a
    read that does not allow a near version returns the value written last for
    exactly the version asked for, or nothing;
    the end markers of transactions are not in the table, and the highest version
    is recorded. *)
Theorem memtable_reads_newest page retries cfg kr c nonce dir es :
  config_ok page cfg → registry_gives kr c → length nonce = 12 → dir !! mc_next_fid cfg = None →
  Forall (λ e, entry_storable e.1) es →
  (SKL_MAX_NODE_SIZE + sum_of (λ e, entry_cost e.1) es <= Z.of_nat (mc_arena_size cfg))%Z →
  ∃ mt0 cfg' mt, MemTable_new page (S retries) cfg kr nonce dir = Ok (mt0, cfg') ∧
    push_entries page (S retries) mt0 es = Ok mt ∧
    (∀ key_ts, KeyTs_storable key_ts →
       (∃ r, MemTable_get mt key_ts true = Ok r ∧ newest_version es.*1 key_ts r) ∧
       MemTable_get mt key_ts false =
         Ok ((λ e, (kt_ts key_ts, e_value_meta e)) <$> last_version es.*1 key_ts)) ∧
    mt_max_version mt = foldl bump_version 0%Z es.*1.
Proof.
  intros Hcfg Hkr Hn Hdir Hes Hsum.
  destruct (MemTable_new_holds page (S retries) cfg kr c nonce dir Hcfg Hkr Hn Hdir)
    as (sk & cfg' & Hnew & Hh & Hptr & Hsize).
  destruct (push_entries_holds page retries es _ [] (page_pos _ _ Hcfg) Hh Hes) as (mt & Hpush & Hh' & Hv & _).
  { unfold fits, SKL_MAX_NODE_SIZE in *. cbn [mt_skip_list]. lia. }
  eexists _, cfg', mt. split_and!; [exact Hnew|exact Hpush| |exact Hv].
  intros key_ts Hk. rewrite (MemTable_get_holds mt _ key_ts Hh' Hk), (MemTable_get_exact mt _ key_ts Hh' Hk). split.
  - eexists. split; [done|]. apply ceil_newest.
  - rewrite held_lookup. by destruct (last_version es.*1 key_ts).
Qed.

(** A memtable does not come back: after any entries were pushed into a new
    memtable without a cipher, opening its file again succeeds, but the memtable
    is empty, whatever was written, and opening all memtables keeps it although it
    is meant to drop empty ones. *)
Theorem memtable_reopens_empty page retries cfg kr nonce nonce' flips es :
  config_ok page cfg → mc_read_only cfg = false → registry_gives kr None → length nonce = 12 →
  Forall (λ e, entry_storable e.1 ∧ entry_fits e.1) es →
  (SKL_MAX_NODE_SIZE + sum_of (λ e, entry_cost e.1) es <= Z.of_nat (mc_arena_size cfg))%Z →
  ∃ mt0 cfg' mt mt', MemTable_new page (S retries) cfg kr nonce ∅ = Ok (mt0, cfg') ∧
    push_entries page (S retries) mt0 es = Ok mt ∧
    MemTable_open page (S retries) cfg kr nonce' flips (mc_next_fid cfg) (lf_bytes (mt_wal mt)) = Ok (mt', false) ∧
    (∀ key_ts, KeyTs_storable key_ts → MemTable_get mt' key_ts true = Ok None) ∧ mt_max_version mt' = 0%Z ∧
    ∃ cfg'', MemTable_open_many page (S retries) cfg kr nonce' flips
               {[mc_next_fid cfg := lf_bytes (mt_wal mt)]} [mc_next_fid cfg] = Ok ([mt'], cfg'').
Proof.
  intros Hcfg Hro Hkr Hn Hes Hsum. pose proof (page_pos _ _ Hcfg) as Hpage.
  apply Forall_and in Hes as [Hst Hfit].
  destruct (MemTable_new_holds page (S retries) cfg kr None nonce ∅ Hcfg Hkr Hn (lookup_empty _))
    as (sk & cfg' & Hnew & Hh & Hptr & Hsize).
  destruct (push_entries_holds page retries es _ [] Hpage Hh Hst) as (mt & Hpush & _ & _).
  { unfold fits, SKL_MAX_NODE_SIZE in *. cbn [mt_skip_list]. lia. }
  pose proof (push_entries_wal _ _ _ _ _ Hpush) as Hwal. cbn [mt_wal mt_write_offset] in Hwal.
  destruct (log_writes_hold page _ (LogFile_new (mc_next_fid cfg) None nonce (2 * mc_memtable_size cfg)) es.*1 [] Hpage
    eq_refl (new_log_holds _ _ _ Hn)) as (lf & Hw & (Hfid & Hci & Hno) & Hholds).
  change (VLOG_HEADER_SIZE + length (log_content [])) with VLOG_HEADER_SIZE in Hw. rewrite Hwal in Hw.
  injection Hw as Hlf _. rewrite <- Hlf in *. cbn [app] in Hholds.
  destruct (fresh_skip_list page cfg Hcfg) as (sk' & Hsk' & Hrep' & _).
  assert (MemTable_open page (S retries) cfg kr nonce' flips (mc_next_fid cfg) (lf_bytes (mt_wal mt)) =
    Ok (mkMemTable sk' (log_truncate (mt_wal mt) (VLOG_HEADER_SIZE + length (log_content es.*1))) 0 0
          (mc_memtable_size cfg) (mc_read_only cfg), false)) as Hopen.
  { destruct Hholds as (Hpre & m & Hb). unfold MemTable_open. rewrite Hsk'. cbn [mbind outcome_bind].
    pose proof (LogFile_open_bytes kr None nonce' nonce (mc_next_fid cfg) (log_content es.*1 ++ replicate m 0%Z)
      (2 * mc_memtable_size cfg) (proj1 (proj2 Hkr)) (proj2 (proj2 Hkr)) Hn) as Ho.
    cbn [cipher_id] in Ho. rewrite <- Hb in Ho. rewrite Ho. cbn [mbind outcome_bind].
    assert (mkLogFile (mc_next_fid cfg) None nonce (lf_bytes (mt_wal mt)) = mt_wal mt) as ->.
    { cbn in Hfid, Hci, Hno. destruct (mt_wal mt). cbn in *. congruence. }
    unfold MemTable_reload_log. cbn [mt_wal mt_read_only]. rewrite Hro.
    rewrite (reload_restores_nothing (put_u64 0 ++ nonce) (mt_wal mt) es.*1); [done|by rewrite Hci|by apply Forall_fmap|].
    split; [done|]. by exists m. }
  eexists _, cfg', mt, _. split_and!; [exact Hnew|exact Hpush|exact Hopen| |done|].
  - intros key_ts Hk. rewrite (MemTable_get_holds _ [] key_ts); [done| |done].
    split_and!; [exact Hrep'|constructor|constructor|]. cbn. rewrite Hno. cbn. lia.
  - eexists. unfold MemTable_open_many.
    assert (merge_sort Z.le [mc_next_fid cfg] = [mc_next_fid cfg]) as -> by done.
    cbn [open_fids]. rewrite lookup_singleton_eq. cbn [default from_option id]. rewrite Hopen.
    cbn [mbind outcome_bind mt_skip_list]. rewrite (is_empty_rep _ _ _ _ _ Hrep'). done.
Qed.

End MemTableTheorems.

(** ** Witnesses *)

Module MemTableExamples.

#[local] Existing Instances VlogExamples.leb_read VlogExamples.leb_read_laws.

Definition no_keys : Registry := mkRegistry (λ _, Ok None) (Ok None).
Definition config : MemTableConfig := mkMemTableConfig false 64 2000 5 1.

(** Two versions of one key, the older one written last, and an end marker. *)
Definition v5 : Entry := mkEntry (mkKeyTs [97]%Z 5) (mkValueMeta [1; 2]%Z 0 0 64) 0 0 0.
Definition v3 : Entry := mkEntry (mkKeyTs [97]%Z 3) (mkValueMeta [9]%Z 0 0 64) 0 0 0.
Definition fin : Entry := mkEntry (mkKeyTs [98]%Z 5) (mkValueMeta [7]%Z 0 0 128) 0 0 0.
Definition written : list (Entry * list bool) := [(v5, [true]); (v3, []); (fin, [])].

Lemma config_is_ok : config_ok 16 config.
Proof. split_and!; [by exists 4%Z|cbn; lia|done|done]. Qed.

Lemma written_ok : Forall (λ e, entry_storable e.1 ∧ entry_fits e.1) written.
Proof.
  unfold written. rewrite !Forall_cons. split_and!; try done.
  all: repeat split; try done. all: unfold is_bytes; cbn; rewrite ?Forall_cons, ?Forall_nil; by split_and!.
Qed.

Lemma memtable_reads_newest_witness :
  ∃ mt0 cfg' mt, MemTable_new 16 1 config no_keys (replicate 12 7%Z) ∅ = Ok (mt0, cfg') ∧
    push_entries 16 1 mt0 written = Ok mt ∧
    (∀ key_ts, KeyTs_storable key_ts →
       (∃ r, MemTable_get mt key_ts true = Ok r ∧ newest_version [v5; v3; fin] key_ts r) ∧
       MemTable_get mt key_ts false =
         Ok ((λ e, (kt_ts key_ts, e_value_meta e)) <$> last_version [v5; v3; fin] key_ts)) ∧
    mt_max_version mt = 5%Z.
Proof.
  apply (memtable_reads_newest 16 0 config no_keys None (replicate 12 7%Z) ∅ written).
  - apply config_is_ok.
  - done.
  - done.
  - done.
  - eapply Forall_impl; [apply written_ok|]. by intros e [].
  - vm_compute. discriminate.
Defined.

Lemma memtable_reopens_empty_witness :
  ∃ mt0 cfg' mt mt', MemTable_new 16 1 config no_keys (replicate 12 7%Z) ∅ = Ok (mt0, cfg') ∧
    push_entries 16 1 mt0 written = Ok mt ∧
    MemTable_open 16 1 config no_keys [] [] 1 (lf_bytes (mt_wal mt)) = Ok (mt', false) ∧
    (∀ key_ts, KeyTs_storable key_ts → MemTable_get mt' key_ts true = Ok None) ∧ mt_max_version mt' = 0%Z ∧
    ∃ cfg'', MemTable_open_many 16 1 config no_keys [] [] {[1%Z := lf_bytes (mt_wal mt)]} [1%Z] = Ok ([mt'], cfg'').
Proof.
  apply (memtable_reopens_empty 16 0 config no_keys (replicate 12 7%Z) [] [] written).
  - apply config_is_ok.
  - done.
  - done.
  - done.
  - apply written_ok.
  - vm_compute. discriminate.
Defined.

End MemTableExamples.
