(* ===== verification/Mmap.v ===== *)
(** * Mmap: mapped files with a write and a read buffer

    [MmapFile] of src/src/util/mmap.rs.  The map is its bytes; the operating system's part
    (flushing pages, the descriptor, errors) is left out, and copying past the end
    of the map, undefined in the code, is [Panic].  Changing the length cuts the
    bytes or adds zeros.  [page] is the page size and the capacity of both
    buffers. *)
From stdpp Require Import base list strings.
From Stdlib Require Import ZArith Lia.
From S2P Require Import Prelude Util.

Local Open Scope nat_scope.

Record MmapFile : Type := mkMmapFile {
  mm_w_buf : list Z;
  mm_w_pos : nat;
  mm_r_buf : list Z;
  mm_r_pos : nat;
  mm_r_buf_pos : nat;
  mm_last_flush_pos : nat;
  mm_raw : list Z
}.

(** [MmapFile::open] on the bytes of the file: an empty one gets [max_file_size]. *)
Definition MmapFile_open (bytes : list Z) (max_file_size : nat) : MmapFile * bool :=
  if (0 <? max_file_size) && (length bytes =? 0)
  then (mkMmapFile [] 0 [] 0 0 0 (replicate max_file_size 0%Z), true)
  else (mkMmapFile [] 0 [] 0 0 0 bytes, false).

Definition write_offset (m : MmapFile) : nat := mm_w_pos m + length (mm_w_buf m).

Definition read_offset (m : MmapFile) : outcome nat :=
  d ← usub (length (mm_r_buf m)) (mm_r_buf_pos m);
  usub (mm_r_pos m) d.

Definition with_raw (m : MmapFile) (raw : list Z) : MmapFile :=
  mkMmapFile (mm_w_buf m) (mm_w_pos m) (mm_r_buf m) (mm_r_pos m) (mm_r_buf_pos m) (mm_last_flush_pos m) raw.

Definition with_w (m : MmapFile) (buf : list Z) (pos : nat) : MmapFile :=
  mkMmapFile buf pos (mm_r_buf m) (mm_r_pos m) (mm_r_buf_pos m) (mm_last_flush_pos m) (mm_raw m).

Definition with_r (m : MmapFile) (buf : list Z) (pos buf_pos : nat) : MmapFile :=
  mkMmapFile (mm_w_buf m) (mm_w_pos m) buf pos buf_pos (mm_last_flush_pos m) (mm_raw m).

(** [set_len] *)
Definition set_len (m : MmapFile) (size : nat) : MmapFile :=
  with_raw m (take size (mm_raw m) ++ replicate (size - length (mm_raw m)) 0%Z).

(** [raw_write] *)
Definition raw_write (m : MmapFile) (offset : nat) (data : list Z) : outcome MmapFile :=
  if offset + length data <=? length (mm_raw m)
  then Ok (with_raw m (take offset (mm_raw m) ++ data ++ drop (offset + length data) (mm_raw m)))
  else Panic.

(** [data.split_at(s)] *)
Definition split_at (data : list Z) (s : nat) : outcome (list Z * list Z) :=
  if s <=? length data then Ok (take s data, drop s data) else Panic.

Section MmapCode.
Context (page : nat).

Definition check_len_satisfied (m : MmapFile) (buf_len : nat) : MmapFile :=
  let new_write_at := mm_w_pos m + buf_len in
  if length (mm_raw m) <=? new_write_at
  then set_len m (new_write_at - new_write_at mod page + 2 * page)
  else m.

Definition flush_buf (m : MmapFile) : outcome MmapFile :=
  let m := check_len_satisfied m (length (mm_w_buf m)) in
  m ← raw_write m (mm_w_pos m) (mm_w_buf m);
  Ok (with_w m [] (mm_w_pos m + length (mm_w_buf m))).

(** [write_to_buffer_unchecked] *)
Definition write_to_buffer (m : MmapFile) (buf : list Z) : outcome MmapFile :=
  _ ← assert_or_panic (length (mm_w_buf m) + length buf <=? page);
  Ok (with_w m (mm_w_buf m ++ buf) (mm_w_pos m)).

Definition write_cold (m : MmapFile) (buf : list Z) : outcome MmapFile :=
  m ← (if page <? length buf + length (mm_w_buf m) then flush_buf m else Ok m);
  if page <=? length buf then
    let m := check_len_satisfied m (length buf) in
    m ← raw_write m (mm_w_pos m) buf;
    Ok (with_w m (mm_w_buf m) (mm_w_pos m + length buf))
  else write_to_buffer m buf.

(** [Write::write] *)
Definition mmap_write (m : MmapFile) (buf : list Z) : outcome MmapFile :=
  if length (mm_w_buf m) + length buf <? page then write_to_buffer m buf else write_cold m buf.

(** [Write::flush] *)
Definition mmap_flush (m : MmapFile) : outcome MmapFile :=
  m ← flush_buf m;
  if mm_w_pos m =? mm_last_flush_pos m then Ok m
  else Ok (mkMmapFile (mm_w_buf m) (mm_w_pos m) (mm_r_buf m) (mm_r_pos m) (mm_r_buf_pos m) (mm_w_pos m) (mm_raw m)).

(** [ready_to_close] and [drop]: the bytes they leave in the file. *)
Definition ready_to_close (m : MmapFile) (max_sz : nat) : outcome (list Z) :=
  m ← mmap_flush m;
  Ok (mm_raw (set_len m max_sz)).

Definition mmap_drop (m : MmapFile) : outcome (list Z) :=
  m ← flush_buf m;
  Ok (mm_raw m).

Definition set_w_pos (m : MmapFile) (w_pos : nat) : MmapFile := with_w m (mm_w_buf m) w_pos.

(** [self.w_buf[start..end].copy_from_slice(data)] *)
Definition copy_into (buf : list Z) (start : nat) (data : list Z) : outcome (list Z) :=
  if start + length data <=? length buf then Ok (take start buf ++ data ++ drop (start + length data) buf) else Panic.

Definition mmap_write_slice (m : MmapFile) (offset : nat) (data : list Z) : outcome MmapFile :=
  let buf_offset := mm_w_pos m + length (mm_w_buf m) in
  if offset =? buf_offset then mmap_write m data
  else if (buf_offset <? offset) || (page <=? length data) then
    let m := check_len_satisfied m (length data) in
    raw_write m offset data
  else
    '(m, data, offset) ←
      (if offset <? mm_w_pos m then
         let s := mm_w_pos m - offset in
         '(l_data, r_data) ← split_at data s;
         m ← raw_write m offset l_data;
         Ok (m, r_data, offset + s)
       else Ok (m, data, offset));
    let end_offset := offset + length data in
    '(m, data) ←
      (if buf_offset <? end_offset then
         let s := end_offset - buf_offset in
         '(l_data, r_data) ← split_at data s;
         let m := check_len_satisfied m end_offset in
         m ← raw_write m offset r_data;
         Ok (m, l_data)
       else Ok (m, data));
    start_offset ← usub offset (mm_w_pos m);
    buf ← copy_into (mm_w_buf m) start_offset data;
    Ok (with_w m buf (mm_w_pos m)).

(** ** Reading *)

(** [raw_read] of [n] bytes: what was read, at most up to the end. *)
Definition raw_read (m : MmapFile) (offset n : nat) : outcome (list Z) :=
  avail ← usub (length (mm_raw m)) offset;
  Ok (take (Nat.min n avail) (drop offset (mm_raw m))).

(** [Read::read] into a buffer of [n] bytes: the bytes read. *)
Definition mmap_read (m : MmapFile) (n : nat) : outcome (list Z * MmapFile) :=
  if mm_r_buf_pos m =? length (mm_r_buf m) then
    if page <=? n then
      bs ← raw_read m (mm_r_pos m) n;
      Ok (bs, with_r m [] (mm_r_pos m + length bs) 0)
    else
      avail ← usub (length (mm_raw m)) (mm_r_pos m);
      let remain := Nat.min avail page in
      let m := with_r m (take remain (drop (mm_r_pos m) (mm_raw m))) (mm_r_pos m + remain) 0 in
      let bs := take n (mm_r_buf m) in
      Ok (bs, with_r m (mm_r_buf m) (mm_r_pos m) (length bs))
  else
    rest ← slice_from (mm_r_buf m) (mm_r_buf_pos m);
    let bs := take n rest in
    Ok (bs, with_r m (mm_r_buf m) (mm_r_pos m) (mm_r_buf_pos m + length bs)).

(** [read_exact]: reads until [n] bytes are there; each turn reads one at least,
    or it is an error. *)
Fixpoint mmap_read_exact (fuel : nat) (m : MmapFile) (n : nat) (acc : list Z) : outcome (list Z * MmapFile) :=
  match n, fuel with
  | 0, _ => Ok (acc, m)
  | _, 0 => Panic
  | S _, S fuel =>
      '(bs, m) ← mmap_read m n;
      if length bs =? 0 then Err (EMsg "failed to fill whole buffer")
      else mmap_read_exact fuel m (n - length bs) (acc ++ bs)
  end.

Definition read_error : error := EMsg "failed to read whole data".

Definition mmap_read_slice (m : MmapFile) (offset n : nat) : outcome (list Z * MmapFile) :=
  buf_end_offset ← read_offset m;
  if buf_end_offset =? offset then mmap_read_exact n m n []
  else if (mm_r_pos m <? offset) || (page <=? n) then
    bs ← raw_read m offset n;
    if length bs <? n then Err read_error else Ok (bs, m)
  else
    buf_start_offset ← usub (mm_r_pos m) (length (mm_r_buf m));
    '(head, offset, rest) ←
      (if offset <? buf_start_offset then
         _ ← assert_or_panic (buf_start_offset - offset <=? n);
         bs ← raw_read m offset (buf_start_offset - offset);
         if length bs <? buf_start_offset - offset then Err read_error
         else Ok (bs, offset + length bs, n - (buf_start_offset - offset))
       else Ok ([], offset, n));
    let end_offset := offset + rest in
    data ←
      (if end_offset <=? mm_r_pos m then
         slice (mm_r_buf m) (offset - buf_start_offset) (end_offset - buf_start_offset)
       else
         l_len ← usub (mm_r_pos m) offset;
         l_data ← slice_from (mm_r_buf m) (offset - buf_start_offset);
         _ ← assert_or_panic (length l_data =? l_len);
         r_data ← raw_read m (mm_r_pos m) (rest - l_len);
         Ok (l_data ++ r_data));
    if length (head ++ data) <? n then Err read_error else Ok (head ++ data, m).

End MmapCode.

(* ------------------------------------------------------------------ *)
(** ** What the file holds *)

(** The byte at [i]: the write buffer lies over the map, and there are zeros past
    its end. *)
Definition byte_at (m : MmapFile) (i : nat) : Z :=
  if (mm_w_pos m <=? i) && (i <? write_offset m)
  then default 0%Z (mm_w_buf m !! (i - mm_w_pos m))
  else default 0%Z (mm_raw m !! i).

(** [f] with [data] written at [offset]. *)
Definition written_at (f : nat → Z) (offset : nat) (data : list Z) (i : nat) : Z :=
  if (offset <=? i) && (i <? offset + length data) then default 0%Z (data !! (i - offset)) else f i.

(** The write buffer starts inside the map and has not outgrown its capacity. *)
Definition mmap_wf (page : nat) (m : MmapFile) : Prop :=
  mm_w_pos m <= length (mm_raw m) ∧ length (mm_w_buf m) <= page.

(** Decide the comparisons of a goal over [nat]. *)
Ltac nat_cases :=
  repeat match goal with
  | |- context [?a <=? ?b] => destruct (Nat.leb_spec a b)
  | |- context [?a <? ?b] => destruct (Nat.ltb_spec a b)
  end; cbn [andb]; try lia.

Lemma lookup_overwrite (l : list Z) off data i :
  off + length data <= length l →
  (take off l ++ data ++ drop (off + length data) l) !! i =
    if (off <=? i) && (i <? off + length data) then data !! (i - off) else l !! i.
Proof.
  intros Hle. nat_cases.
  - rewrite lookup_app_r, length_take_le by (rewrite ?length_take_le; lia). rewrite lookup_app_l by lia. done.
  - rewrite app_assoc, lookup_app_r by (rewrite length_app, length_take_le; lia).
    rewrite lookup_drop, length_app, length_take_le by lia. f_equal. lia.
  - rewrite lookup_app_l by (rewrite length_take_le; lia). by rewrite lookup_take_lt by lia.
Qed.

Lemma default_lookup_pad (l : list Z) n i :
  default 0%Z ((l ++ replicate n 0%Z) !! i) = default 0%Z (l !! i).
Proof.
  destruct (decide (i < length l)).
  - by rewrite lookup_app_l.
  - rewrite lookup_app_r by lia. rewrite (lookup_ge_None_2 l) by lia.
    destruct (replicate n 0%Z !! (i - length l)) as [z|] eqn:E; [|done]. by apply lookup_replicate in E as [-> _].
Qed.

Section MmapLemmas.
Context (page : nat) (Hpage : 0 < page).

(** Growing the map: there is room for [n] bytes at the write position. *)
Lemma check_len_spec m n :
  mm_w_pos m <= length (mm_raw m) →
  let m' := check_len_satisfied page m n in
  mm_w_buf m' = mm_w_buf m ∧ mm_w_pos m' = mm_w_pos m ∧ mm_w_pos m + n <= length (mm_raw m') ∧
  length (mm_raw m) <= length (mm_raw m') ∧
  (∀ i, default 0%Z (mm_raw m' !! i) = default 0%Z (mm_raw m !! i)).
Proof.
  intros Hw m'. unfold m', check_len_satisfied. pose proof (Nat.mod_upper_bound (mm_w_pos m + n) page).
  destruct (Nat.leb_spec (length (mm_raw m)) (mm_w_pos m + n)) as [Hle|Hgt]; cycle 1.
  { split_and!; [done|done|lia|lia|done]. }
  unfold set_len. cbn [with_raw mm_w_buf mm_w_pos mm_raw]. rewrite take_ge by lia.
  split_and!; [done|done|rewrite length_app, length_replicate; lia|rewrite length_app; lia|].
  intros i. apply default_lookup_pad.
Qed.

Lemma raw_write_spec m off data :
  off + length data <= length (mm_raw m) →
  ∃ m', raw_write m off data = Ok m' ∧ mm_w_buf m' = mm_w_buf m ∧ mm_w_pos m' = mm_w_pos m ∧
    length (mm_raw m') = length (mm_raw m) ∧
    (∀ i, default 0%Z (mm_raw m' !! i) = written_at (λ i, default 0%Z (mm_raw m !! i)) off data i).
Proof.
  intros Hle. unfold raw_write. rewrite (proj2 (Nat.leb_le _ _)) by done. eexists. split; [done|].
  cbn [with_raw mm_w_buf mm_w_pos mm_raw]. split_and!; [done|done| |].
  - rewrite !length_app, length_take_le, length_drop by lia. lia.
  - intros i. rewrite lookup_overwrite by done. unfold written_at. by destruct (_ && _).
Qed.

Lemma flush_buf_spec m :
  mmap_wf page m →
  ∃ m', flush_buf page m = Ok m' ∧ mm_w_buf m' = [] ∧ mm_w_pos m' = write_offset m ∧ mmap_wf page m' ∧
    (∀ i, default 0%Z (mm_raw m' !! i) = byte_at m i).
Proof.
  intros [Hw Hb]. unfold flush_buf.
  destruct (check_len_spec m (length (mm_w_buf m)) Hw) as (E1 & E2 & Hroom & Hgrow & Hsame).
  set (m1 := check_len_satisfied _ _ _) in *.
  destruct (raw_write_spec m1 (mm_w_pos m1) (mm_w_buf m1)) as (m2 & -> & E3 & E4 & Hlen & Hraw); [rewrite E1, E2; lia|].
  cbn [mbind outcome_bind]. eexists. split; [done|]. unfold mmap_wf, write_offset.
  cbn [with_w mm_w_buf mm_w_pos mm_raw length]. rewrite E3, E4, E1, E2. split_and!; [done|done|lia|lia|].
  intros i. rewrite Hraw. unfold written_at, byte_at, write_offset. rewrite E1, E2, Hsame. done.
Qed.

Lemma byte_at_flushed m i : mm_w_buf m = [] → byte_at m i = default 0%Z (mm_raw m !! i).
Proof. intros E. unfold byte_at, write_offset. rewrite E. cbn [length]. nat_cases; done. Qed.

Lemma write_to_buffer_spec m data :
  length (mm_w_buf m) + length data <= page → mm_w_pos m <= length (mm_raw m) →
  ∃ m', write_to_buffer page m data = Ok m' ∧ mmap_wf page m' ∧ write_offset m' = write_offset m + length data ∧
    (∀ i, byte_at m' i = written_at (byte_at m) (write_offset m) data i).
Proof.
  intros Hb Hw. unfold write_to_buffer. rewrite (proj2 (Nat.leb_le _ _)) by done. cbn [assert_or_panic mbind outcome_bind].
  eexists. split; [done|]. unfold mmap_wf, write_offset. cbn [with_w mm_w_buf mm_w_pos mm_raw].
  rewrite length_app. split_and!; [lia|lia|lia|]. intros i. unfold written_at, byte_at, write_offset.
  cbn [with_w mm_w_buf mm_w_pos mm_raw]. rewrite length_app. nat_cases; try done.
  - rewrite lookup_app_r by lia. f_equal. f_equal. lia.
  - by rewrite lookup_app_l by lia.
Qed.

(** A sequential write. *)
Lemma mmap_write_spec m data :
  mmap_wf page m →
  ∃ m', mmap_write page m data = Ok m' ∧ mmap_wf page m' ∧ write_offset m' = write_offset m + length data ∧
    (∀ i, byte_at m' i = written_at (byte_at m) (write_offset m) data i).
Proof.
  intros [Hw Hb]. unfold mmap_write. destruct (Nat.ltb_spec (length (mm_w_buf m) + length data) page) as [Hlt|Hge].
  { apply write_to_buffer_spec; [lia|done]. }
  unfold write_cold.
  assert (∃ m1, (if page <? length data + length (mm_w_buf m) then flush_buf page m else Ok m) = Ok m1 ∧
    mmap_wf page m1 ∧ write_offset m1 = write_offset m ∧ (∀ i, byte_at m1 i = byte_at m i) ∧
    (page < length data + length (mm_w_buf m) → mm_w_buf m1 = []) ∧ length (mm_w_buf m1) <= length (mm_w_buf m))
    as (m1 & -> & [Hw1 Hb1] & Ho1 & Hsame & Hemp & Hle).
  { destruct (Nat.ltb_spec page (length data + length (mm_w_buf m))) as [Hlt|Hle].
    - destruct (flush_buf_spec m (conj Hw Hb)) as (m1 & -> & E1 & E2 & Hwf1 & Hraw). exists m1.
      split_and!; [done|done|unfold write_offset at 1; rewrite E1, E2; cbn; lia| |done|rewrite E1; cbn; lia].
      intros i. by rewrite byte_at_flushed.
    - exists m. split_and!; try done. lia. }
  cbn [mbind outcome_bind]. destruct (Nat.leb_spec page (length data)) as [Hbig|Hsmall]; cycle 1.
  { destruct (write_to_buffer_spec m1 data) as (m2 & -> & Hwf2 & Ho2 & Hb2); [|done|].
    - destruct (decide (page < length data + length (mm_w_buf m))) as [Hp|Hp]; [rewrite (Hemp Hp); cbn; lia|lia].
    - exists m2. split_and!; [done|done|lia|]. intros i. rewrite Hb2. unfold written_at. by rewrite Ho1, Hsame. }
  assert (mm_w_buf m1 = []) as Ebuf.
  { destruct (decide (page < length data + length (mm_w_buf m))) as [Hp|Hp]; [by apply Hemp|].
    apply nil_length_inv. lia. }
  destruct (check_len_spec m1 (length data) Hw1) as (E1 & E2 & Hroom & Hgrow & Hs).
  set (m2 := check_len_satisfied _ _ _) in *.
  destruct (raw_write_spec m2 (mm_w_pos m2) data) as (m3 & -> & E3 & E4 & Hlen & Hraw); [rewrite E2; lia|].
  cbn [mbind outcome_bind]. eexists. split; [done|].
  assert (write_offset m = mm_w_pos m1) as Ewo by (rewrite <- Ho1; unfold write_offset; rewrite Ebuf; cbn; lia).
  unfold mmap_wf. cbn [with_w mm_w_buf mm_w_pos mm_raw]. rewrite E3, E4, E1, E2, Ebuf. split_and!.
  - lia.
  - cbn. lia.
  - unfold write_offset at 1. cbn. rewrite Ewo. lia.
  - intros i. rewrite byte_at_flushed by (cbn; by rewrite ?E3, ?E1). cbn [with_w mm_raw]. rewrite Hraw.
    unfold written_at. rewrite E2, <- Ewo, Hs, <- byte_at_flushed by done. by rewrite Hsame.
Qed.

(** A write past the buffer, inside the map. *)
Lemma write_past_spec m off data :
  mmap_wf page m → write_offset m < off → off + length data <= length (mm_raw m) →
  ∃ m', mmap_write_slice page m off data = Ok m' ∧ mmap_wf page m' ∧
    ∀ i, byte_at m' i = written_at (byte_at m) off data i.
Proof.
  intros [Hw Hb] Hoff Hfit. unfold mmap_write_slice. fold (write_offset m).
  rewrite (proj2 (Nat.eqb_neq _ _)), (proj2 (Nat.ltb_lt _ _)) by lia. cbn [orb].
  destruct (check_len_spec m (length data) Hw) as (E1 & E2 & _ & Hgrow & Hs). set (m1 := check_len_satisfied _ _ _) in *.
  destruct (raw_write_spec m1 off data) as (m' & -> & E3 & E4 & Hlen & Hraw); [lia|].
  exists m'. split; [done|]. unfold mmap_wf. rewrite E3, E4, E1, E2. split; [split; lia|].
  intros i. unfold byte_at, written_at, write_offset in *. rewrite E3, E4, E1, E2, Hraw. unfold written_at.
  rewrite Hs. nat_cases; done.
Qed.

(** A write of a page or more that ends before the buffer. *)
Lemma write_before_spec m off data :
  mmap_wf page m → page <= length data → 0 < length data → off + length data <= mm_w_pos m →
  ∃ m', mmap_write_slice page m off data = Ok m' ∧ mmap_wf page m' ∧
    ∀ i, byte_at m' i = written_at (byte_at m) off data i.
Proof.
  intros [Hw Hb] Hlong Hne Hfit. unfold mmap_write_slice.
  rewrite (proj2 (Nat.eqb_neq _ _)), (proj2 (Nat.leb_le page _)) by lia. rewrite orb_true_r.
  destruct (check_len_spec m (length data) Hw) as (E1 & E2 & _ & Hgrow & Hs). set (m1 := check_len_satisfied _ _ _) in *.
  destruct (raw_write_spec m1 off data) as (m' & -> & E3 & E4 & Hlen & Hraw); [lia|].
  exists m'. split; [done|]. unfold mmap_wf. rewrite E3, E4, E1, E2. split; [split; lia|].
  intros i. unfold byte_at, written_at, write_offset in *. rewrite E3, E4, E1, E2, Hraw. unfold written_at.
  rewrite Hs. nat_cases; done.
Qed.

(** A write inside the buffer, or over its start. *)
Lemma write_inside_spec m off data :
  mmap_wf page m → off < write_offset m → off + length data <= write_offset m → length data < page →
  mm_w_pos m <= off + length data →
  ∃ m', mmap_write_slice page m off data = Ok m' ∧ mmap_wf page m' ∧ write_offset m' = write_offset m ∧
    ∀ i, byte_at m' i = written_at (byte_at m) off data i.
Proof.
  intros [Hw Hb] Hoff Hend Hlen Hpos. unfold mmap_write_slice. fold (write_offset m).
  rewrite (proj2 (Nat.eqb_neq _ _)), (proj2 (Nat.ltb_ge _ off)), (proj2 (Nat.leb_gt page _)) by lia. cbn [orb].
  assert (∃ m1 data1, (if off <? mm_w_pos m then
      '(l_data, r_data) ← split_at data (mm_w_pos m - off); m0 ← raw_write m off l_data;
      Ok (m0, r_data, off + (mm_w_pos m - off)) else Ok (m, data, off)) = Ok (m1, data1, Nat.max off (mm_w_pos m)) ∧
    mm_w_buf m1 = mm_w_buf m ∧ mm_w_pos m1 = mm_w_pos m ∧ length (mm_raw m1) = length (mm_raw m) ∧
    data1 = drop (mm_w_pos m - off) data ∧
    (∀ i, default 0%Z (mm_raw m1 !! i) =
       written_at (λ i, default 0%Z (mm_raw m !! i)) off (take (mm_w_pos m - off) data) i))
    as (m1 & data1 & -> & E1 & E2 & El & -> & Hraw).
  { destruct (Nat.ltb_spec off (mm_w_pos m)).
    - unfold split_at. rewrite (proj2 (Nat.leb_le _ _)) by lia. cbn [mbind outcome_bind].
      destruct (raw_write_spec m off (take (mm_w_pos m - off) data)) as (m1 & -> & E1 & E2 & El & Hraw);
        [rewrite length_take_le; lia|]. cbn [mbind outcome_bind]. eexists m1, _. split_and!; try done.
      do 2 f_equal. lia.
    - exists m, data. replace (mm_w_pos m - off) with 0 by lia. split_and!; try done; [do 2 f_equal; lia|].
      intros i. unfold written_at. rewrite take_0. cbn [length]. nat_cases; done. }
  cbn [mbind outcome_bind]. rewrite (proj2 (Nat.ltb_ge _ _)) by (rewrite length_drop; lia). cbn [mbind outcome_bind].
  rewrite E1, E2. rewrite usub_Ok by lia. cbn [mbind outcome_bind]. unfold copy_into, write_offset in *.
  rewrite (proj2 (Nat.leb_le _ _)) by (rewrite length_drop; lia). cbn [mbind outcome_bind].
  eexists. split; [done|]. unfold mmap_wf, byte_at, write_offset. cbn [with_w mm_w_buf mm_w_pos mm_raw].
  assert (length (take (off `max` mm_w_pos m - mm_w_pos m) (mm_w_buf m) ++ drop (mm_w_pos m - off) data ++
    drop (off `max` mm_w_pos m - mm_w_pos m + length (drop (mm_w_pos m - off) data)) (mm_w_buf m)) = length (mm_w_buf m)) as Hl.
  { rewrite !length_app, length_take_le, !length_drop by lia. lia. }
  rewrite Hl, El. split_and!; [lia|lia|done|]. intros i.
  rewrite lookup_overwrite by (rewrite length_drop; lia). rewrite length_drop. rewrite Hraw.
  unfold written_at. rewrite length_take, lookup_drop. nat_cases; try done.
  all: try (rewrite lookup_take_lt by lia; done). all: f_equal; f_equal; lia.
Qed.

(** The buffer after a write inside it, and after one that fits behind it. *)
Lemma write_inside_buffer m off data :
  mm_w_pos m <= off → off < write_offset m → off + length data <= write_offset m → length data < page →
  mmap_write_slice page m off data =
    Ok (with_w m (take (off - mm_w_pos m) (mm_w_buf m) ++ data ++
                  drop (off - mm_w_pos m + length data) (mm_w_buf m)) (mm_w_pos m)).
Proof.
  intros Hpos Hoff Hend Hlen. unfold mmap_write_slice. fold (write_offset m).
  rewrite (proj2 (Nat.eqb_neq _ _)), (proj2 (Nat.ltb_ge _ off)), (proj2 (Nat.leb_gt page _)) by lia. cbn [orb].
  rewrite (proj2 (Nat.ltb_ge off _)) by lia. cbn [mbind outcome_bind].
  rewrite (proj2 (Nat.ltb_ge _ _)) by lia. cbn [mbind outcome_bind]. rewrite usub_Ok by lia. cbn [mbind outcome_bind].
  unfold copy_into, write_offset in *. by rewrite (proj2 (Nat.leb_le _ _)) by lia.
Qed.

Lemma write_behind_buffer m off data :
  off = write_offset m → length (mm_w_buf m) + length data < page →
  mmap_write_slice page m off data = Ok (with_w m (mm_w_buf m ++ data) (mm_w_pos m)).
Proof.
  intros -> Hfit. unfold mmap_write_slice. fold (write_offset m). rewrite Nat.eqb_refl. unfold mmap_write.
  rewrite (proj2 (Nat.ltb_lt _ _)) by done. unfold write_to_buffer. by rewrite (proj2 (Nat.leb_le _ _)) by lia.
Qed.

(** A write that ends before the buffer. *)
Lemma write_before_panics m off data :
  off + length data < mm_w_pos m → length data < page → mmap_write_slice page m off data = Panic.
Proof.
  intros Hend Hlen. unfold mmap_write_slice.
  rewrite (proj2 (Nat.eqb_neq _ _)), (proj2 (Nat.ltb_ge _ off)), (proj2 (Nat.leb_gt page _)) by lia. cbn [orb].
  rewrite (proj2 (Nat.ltb_lt _ _)) by lia. unfold split_at. by rewrite (proj2 (Nat.leb_gt _ _)) by lia.
Qed.

(** ** Reading *)

(** The read buffer shows the bytes of the map before the read position. *)
Definition read_coherent (m : MmapFile) : Prop :=
  mm_r_buf_pos m <= length (mm_r_buf m) <= mm_r_pos m ∧ mm_r_pos m <= length (mm_raw m) ∧
  mm_r_buf m = take (length (mm_r_buf m)) (drop (mm_r_pos m - length (mm_r_buf m)) (mm_raw m)).

Definition map_bytes (m : MmapFile) (off n : nat) : list Z := take n (drop off (mm_raw m)).

Lemma map_bytes_app m off n1 n2 : map_bytes m off n1 ++ map_bytes m (off + n1) n2 = map_bytes m off (n1 + n2).
Proof. unfold map_bytes. rewrite <- (drop_drop (mm_raw m) n1 off). apply take_take_drop. Qed.

Lemma length_map_bytes m off n : off + n <= length (mm_raw m) → length (map_bytes m off n) = n.
Proof. intros. unfold map_bytes. rewrite length_take_le; [done|]. rewrite length_drop. lia. Qed.

Lemma raw_read_spec m off n : off + n <= length (mm_raw m) → raw_read m off n = Ok (map_bytes m off n).
Proof.
  intros H. unfold raw_read, map_bytes. rewrite usub_Ok by lia. cbn [mbind outcome_bind]. by rewrite Nat.min_l by lia.
Qed.

(** A part of the read buffer. *)
Lemma read_buf_bytes m a n :
  read_coherent m → a + n <= length (mm_r_buf m) →
  take n (drop a (mm_r_buf m)) = map_bytes m (mm_r_pos m - length (mm_r_buf m) + a) n.
Proof.
  intros (_ & _ & E) Hn. rewrite E at 1. unfold map_bytes.
  rewrite skipn_firstn_comm, take_take, drop_drop. by rewrite Nat.min_l by lia.
Qed.

(** Where the next sequential read begins. *)
Definition rd (m : MmapFile) : nat := mm_r_pos m - (length (mm_r_buf m) - mm_r_buf_pos m).

Lemma read_offset_rd m : read_coherent m → read_offset m = Ok (rd m).
Proof. intros (? & ? & _). unfold read_offset. rewrite usub_Ok by lia. cbn [mbind outcome_bind]. by rewrite usub_Ok by lia. Qed.

(** Taking up to [n] bytes from the read buffer. *)
Lemma read_from_buffer m n :
  read_coherent m →
  let bs := take n (drop (mm_r_buf_pos m) (mm_r_buf m)) in
  let m' := with_r m (mm_r_buf m) (mm_r_pos m) (mm_r_buf_pos m + length bs) in
  bs = map_bytes m (rd m) (length bs) ∧ read_coherent m' ∧ rd m' = rd m + length bs ∧ length bs <= n ∧
  (0 < n → mm_r_buf_pos m < length (mm_r_buf m) → 0 < length bs).
Proof.
  intros Hc bs m'. pose proof Hc as (Hp & Hr & E).
  assert (length bs = Nat.min n (length (mm_r_buf m) - mm_r_buf_pos m)) as Hl
    by (unfold bs; by rewrite length_take, length_drop).
  split_and!.
  - pose proof (read_buf_bytes m (mm_r_buf_pos m) (length bs) Hc ltac:(lia)) as R. unfold rd.
    replace (mm_r_pos m - (length (mm_r_buf m) - mm_r_buf_pos m))
      with (mm_r_pos m - length (mm_r_buf m) + mm_r_buf_pos m) by lia.
    rewrite <- R, Hl. unfold bs. destruct (Nat.min_spec n (length (mm_r_buf m) - mm_r_buf_pos m)) as [[? ->]|[? ->]]; [done|].
    rewrite !take_ge; [done|rewrite length_drop; lia..].
  - split_and!; cbn [m' with_r mm_r_buf mm_r_pos mm_r_buf_pos mm_raw]; [lia|lia|lia|done].
  - unfold rd. cbn [m' with_r mm_r_buf mm_r_pos mm_r_buf_pos]. lia.
  - lia.
  - lia.
Qed.

Lemma mmap_read_spec m n :
  read_coherent m →
  ∃ k m', mmap_read page m n = Ok (map_bytes m (rd m) k, m') ∧ read_coherent m' ∧ mm_raw m' = mm_raw m ∧
    k <= n ∧ rd m' = rd m + k ∧ rd m + k <= length (mm_raw m) ∧ (0 < n → rd m < length (mm_raw m) → 0 < k).
Proof.
  intros Hc. pose proof Hc as (Hp & Hr & E). unfold mmap_read.
  destruct (Nat.eqb_spec (mm_r_buf_pos m) (length (mm_r_buf m))) as [He|Hne]; cycle 1.
  { rewrite slice_from_Ok by lia. cbn [mbind outcome_bind].
    destruct (read_from_buffer m n Hc) as (Hb & Hc' & Hrd & Hle & Hpos). 
    eexists _, _. split; [by rewrite <- Hb|]. split_and!; [done|done|done|done| |lia].
    destruct Hc' as (H1 & H2 & _). unfold rd in Hrd at 1. cbn [with_r mm_r_buf mm_r_pos mm_r_buf_pos mm_raw] in *. lia. }
  assert (rd m = mm_r_pos m) as Er by (unfold rd; lia).
  destruct (Nat.leb_spec page n) as [Hbig|Hsmall].
  - unfold raw_read. rewrite usub_Ok by lia. cbn [mbind outcome_bind].
    set (k := Nat.min n (length (mm_raw m) - mm_r_pos m)). fold (map_bytes m (mm_r_pos m) k).
    rewrite length_map_bytes by lia. exists k, (with_r m [] (mm_r_pos m + k) 0). rewrite Er. split; [done|].
    unfold read_coherent, rd. cbn [with_r mm_r_buf mm_r_pos mm_r_buf_pos mm_raw length]. split_and!; try lia; done.
  - rewrite usub_Ok by lia. cbn [mbind outcome_bind]. set (r := Nat.min (length (mm_raw m) - mm_r_pos m) page).
    set (m1 := with_r m _ _ 0). assert (length (mm_r_buf m1) = r) as Hl1 by (apply length_map_bytes; lia).
    assert (mm_r_pos m1 = mm_r_pos m + r) as Hp1 by done.
    assert (read_coherent m1) as Hc1.
    { split_and!; [cbn [m1 with_r mm_r_buf_pos]; lia|lia|cbn [m1 with_r mm_raw]; lia|]. rewrite Hl1, Hp1.
      by replace (mm_r_pos m + r - r) with (mm_r_pos m) by lia. }
    destruct (read_from_buffer m1 n Hc1) as (Hb & Hc' & Hrd & Hle & Hpos).
    assert (rd m1 = mm_r_pos m) as Erd by (unfold rd; rewrite Hl1, Hp1; cbn [m1 with_r mm_r_buf_pos]; lia).
    rewrite Er. rewrite Erd in Hrd, Hb. change (mm_r_buf_pos m1) with 0 in Hb, Hrd, Hpos, Hle, Hc'.
    rewrite drop_0 in Hb, Hrd, Hpos, Hle, Hc'. cbn [Nat.add] in Hrd, Hc'.
    change (with_r m (mm_r_buf m1) (mm_r_pos m1)) with (with_r m1 (mm_r_buf m1) (mm_r_pos m1)) in *.
    set (bs := take n (mm_r_buf m1)) in *. change (map_bytes m1) with (map_bytes m) in Hb.
    exists (length bs), (with_r m1 (mm_r_buf m1) (mm_r_pos m1) (length bs)).
    split; [by rewrite <- Hb|]. split_and!; [done|done|done|done| |].
    + assert (length bs <= r); [|lia]. rewrite <- Hl1. unfold bs. rewrite length_take. lia.
    + intros Hn Hlt. apply Hpos; [done|]. lia.
Qed.

Lemma mmap_read_exact_spec n : ∀ fuel m acc,
  n <= fuel → read_coherent m → rd m + n <= length (mm_raw m) →
  ∃ m', mmap_read_exact page fuel m n acc = Ok (acc ++ map_bytes m (rd m) n, m') ∧ read_coherent m' ∧
    mm_raw m' = mm_raw m ∧ rd m' = rd m + n.
Proof.
  induction (lt_wf n) as [n _ IH]. intros fuel m acc Hf Hc Hn. destruct n as [|n].
  { exists m. destruct fuel; cbn [mmap_read_exact map_bytes take]; rewrite app_nil_r; split_and!; done || lia. }
  destruct fuel as [|fuel]; [lia|]. cbn [mmap_read_exact].
  destruct (mmap_read_spec m (S n) Hc) as (k & m1 & -> & Hc1 & Hraw & Hk & Hrd & Hle & Hpos). cbn [mbind outcome_bind].
  specialize (Hpos ltac:(lia) ltac:(lia)). rewrite length_map_bytes by lia. rewrite (proj2 (Nat.eqb_neq k 0)) by lia.
  destruct (IH (S n - k) ltac:(lia) fuel m1 (acc ++ map_bytes m (rd m) k)) as (m2 & -> & Hc2 & Hraw2 & Hrd2);
    [lia|done|rewrite Hraw; lia|].
  exists m2. split_and!; [|done|by rewrite Hraw2|lia]. rewrite <- app_assoc. do 3 f_equal.
  replace (map_bytes m1) with (map_bytes m) by (unfold map_bytes; by rewrite Hraw).
  rewrite Hrd, map_bytes_app. f_equal. lia.
Qed.

(** A read at random: past the read position, larger than the buffer, or reaching
    into the buffer. *)
Lemma mmap_read_slice_spec m off n :
  read_coherent m → off + n <= length (mm_raw m) →
  off = rd m ∨ mm_r_pos m < off ∨ page <= n ∨ mm_r_pos m - length (mm_r_buf m) <= off + n →
  ∃ m', mmap_read_slice page m off n = Ok (map_bytes m off n, m') ∧ read_coherent m' ∧ mm_raw m' = mm_raw m.
Proof.
  intros Hc Hn Hcase. pose proof Hc as (Hp & Hr & E). unfold mmap_read_slice. rewrite read_offset_rd by done.
  cbn [mbind outcome_bind]. destruct (Nat.eqb_spec (rd m) off) as [<-|Hne].
  { destruct (mmap_read_exact_spec n n m [] (le_n n) Hc Hn) as (m' & -> & Hc' & Hraw & _). by exists m'. }
  destruct ((mm_r_pos m <? off) || (page <=? n)) eqn:Hbig.
  { rewrite raw_read_spec by done. cbn [mbind outcome_bind]. rewrite length_map_bytes, Nat.ltb_irrefl by done. by exists m. }
  apply orb_false_elim in Hbig as [H1%Nat.ltb_ge H2%Nat.leb_gt]. rewrite usub_Ok by lia. cbn [mbind outcome_bind].
  set (st := mm_r_pos m - length (mm_r_buf m)) in *.
  assert (∃ k, (if off <? st then _ ← assert_or_panic (st - off <=? n); bs ← raw_read m off (st - off);
      if length bs <? st - off then Err read_error else Ok (bs, off + length bs, n - (st - off))
      else Ok ([], off, n)) = Ok (map_bytes m off k, off + k, n - k) ∧ k <= n ∧ st <= off + k ∧ off + k <= mm_r_pos m)
    as (k & -> & Hk & Hst & Hk2).
  { destruct (Nat.ltb_spec off st).
    - rewrite (proj2 (Nat.leb_le _ _)) by lia. cbn [assert_or_panic mbind outcome_bind]. rewrite raw_read_spec by lia.
      cbn [mbind outcome_bind]. rewrite length_map_bytes, Nat.ltb_irrefl by lia. exists (st - off). split_and!; [done|lia..].
    - exists 0. unfold map_bytes. rewrite take_0, Nat.add_0_r, Nat.sub_0_r. split_and!; [done|lia..]. }
  cbn [mbind outcome_bind].
  assert ((if off + k + (n - k) <=? mm_r_pos m then slice (mm_r_buf m) (off + k - st) (off + k + (n - k) - st)
     else l_len ← usub (mm_r_pos m) (off + k); l_data ← slice_from (mm_r_buf m) (off + k - st);
       _ ← assert_or_panic (length l_data =? l_len); r_data ← raw_read m (mm_r_pos m) (n - k - l_len);
       Ok (l_data ++ r_data)) = Ok (map_bytes m (off + k) (n - k))) as ->.
  { destruct (Nat.leb_spec (off + k + (n - k)) (mm_r_pos m)).
    - rewrite slice_Ok by lia. replace (off + k + (n - k) - st - (off + k - st)) with (n - k) by lia.
      rewrite read_buf_bytes by (done || lia). fold st. by replace (st + (off + k - st)) with (off + k) by lia.
    - rewrite usub_Ok by lia. cbn [mbind outcome_bind]. rewrite slice_from_Ok by lia. cbn [mbind outcome_bind].
      rewrite (proj2 (Nat.eqb_eq _ _)) by (rewrite length_drop; lia). cbn [assert_or_panic mbind outcome_bind].
      rewrite raw_read_spec by lia. cbn [mbind outcome_bind].
      rewrite <- (take_ge (drop _ (mm_r_buf m)) (mm_r_pos m - (off + k))) by (rewrite length_drop; lia).
      rewrite read_buf_bytes by (done || lia). fold st. replace (st + (off + k - st)) with (off + k) by lia.
      pose proof (map_bytes_app m (off + k) (mm_r_pos m - (off + k)) (n - k - (mm_r_pos m - (off + k)))) as R.
      replace (off + k + (mm_r_pos m - (off + k))) with (mm_r_pos m) in R by lia. rewrite R. do 2 f_equal. lia. }
  cbn [mbind outcome_bind]. rewrite map_bytes_app. replace (k + (n - k)) with n by lia.
  rewrite length_map_bytes, Nat.ltb_irrefl by done. by exists m.
Qed.

(** The writes that end up where they belong: at the end of the buffer; past it and
    inside the map; a short one that begins before the end of the buffer and ends in
    it; or one of a page or more that ends before the buffer.  The others: past the
    map, and short ones that end before the buffer, which panic; those over the end
    of the buffer, and those of a page or more over its start, which return with the
    wrong bytes. *)
Definition well_placed (m : MmapFile) (off : nat) (data : list Z) : Prop :=
  off = write_offset m ∨
  (write_offset m < off ∧ off + length data <= length (mm_raw m)) ∨
  (off < write_offset m ∧ mm_w_pos m <= off + length data <= write_offset m ∧ length data < page) ∨
  (page <= length data ∧ off + length data <= mm_w_pos m).

Lemma well_placed_spec m off data :
  mmap_wf page m → well_placed m off data →
  ∃ m', mmap_write_slice page m off data = Ok m' ∧ mmap_wf page m' ∧
    ∀ i, byte_at m' i = written_at (byte_at m) off data i.
Proof.
  intros Hwf [->|[[H1 H2]|[(H1 & H2 & H3)|[H1 H2]]]].
  - unfold mmap_write_slice. fold (write_offset m). rewrite Nat.eqb_refl.
    destruct (mmap_write_spec m data Hwf) as (m' & -> & Hwf' & _ & Hb). by exists m'.
  - by apply write_past_spec.
  - destruct (write_inside_spec m off data) as (m' & -> & Hwf' & _ & Hb); [done|lia..|]. by exists m'.
  - apply write_before_spec; [done|done|lia|done].
Qed.

Lemma mmap_flush_spec m :
  mmap_wf page m →
  ∃ m', mmap_flush page m = Ok m' ∧ mm_w_buf m' = [] ∧ ∀ i, default 0%Z (mm_raw m' !! i) = byte_at m i.
Proof.
  intros Hwf. unfold mmap_flush. destruct (flush_buf_spec m Hwf) as (m1 & -> & E1 & _ & _ & Hraw).
  cbn [mbind outcome_bind]. destruct (_ =? _); eexists; split; [done| |done|]; done.
Qed.

End MmapLemmas.

(** A sequence of writes, as the code runs it and on an abstract file. *)
Fixpoint write_slices (page : nat) (m : MmapFile) (ws : list (nat * list Z)) : outcome MmapFile :=
  match ws with
  | [] => Ok m
  | (off, data) :: ws => m ← mmap_write_slice page m off data; write_slices page m ws
  end.

Fixpoint all_well_placed (page : nat) (m : MmapFile) (ws : list (nat * list Z)) : Prop :=
  match ws with
  | [] => True
  | (off, data) :: ws => well_placed page m off data ∧
      ∀ m', mmap_write_slice page m off data = Ok m' → all_well_placed page m' ws
  end.

(** The abstract file: [f] after the writes [ws]. *)
Definition file_after (f : nat → Z) (ws : list (nat * list Z)) : nat → Z :=
  foldl (λ f w, written_at f w.1 w.2) f ws.

Lemma file_after_ext ws f g i : (∀ i, f i = g i) → file_after f ws i = file_after g ws i.
Proof.
  unfold file_after. revert f g i. induction ws as [|w ws IH]; intros f g i H; [apply H|]. cbn [foldl]. apply IH.
  intros j. unfold written_at. by rewrite H.
Qed.

Lemma write_slices_spec page ws : 0 < page → ∀ m,
  mmap_wf page m → all_well_placed page m ws →
  ∃ m', write_slices page m ws = Ok m' ∧ mmap_wf page m' ∧ ∀ i, byte_at m' i = file_after (byte_at m) ws i.
Proof.
  intros Hpage. induction ws as [|[off data] ws IH]; intros m Hwf Hacc; [by exists m|]. destruct Hacc as [Ha Hrest].
  destruct (well_placed_spec page Hpage m off data Hwf Ha) as (m1 & E1 & Hwf1 & Hb1).
  destruct (IH m1 Hwf1 (Hrest m1 E1)) as (m2 & E2 & Hwf2 & Hb2). exists m2. cbn [write_slices]. rewrite E1.
  cbn [mbind outcome_bind]. split_and!; [done|done|]. intros i. rewrite Hb2. change (file_after (byte_at m) ((off, data) :: ws)) with (file_after (written_at (byte_at m) off data) ws). by apply file_after_ext.
Qed.

Lemma open_spec page bytes size :
  let m := fst (MmapFile_open bytes size) in
  mmap_wf page m ∧ read_coherent m ∧ mm_r_pos m = 0 ∧ ∀ i, byte_at m i = default 0%Z (bytes !! i).
Proof.
  unfold MmapFile_open, mmap_wf, read_coherent, byte_at, write_offset.
  destruct ((0 <? size) && (length bytes =? 0)) eqn:E; cbn [fst mm_w_pos mm_w_buf mm_r_pos mm_r_buf mm_r_buf_pos mm_raw length].
  - apply andb_prop in E as [_ E%Nat.eqb_eq%nil_length_inv]. subst bytes. split_and!; try done; try lia.
    intros i. nat_cases. rewrite <- (app_nil_l (replicate _ _)). apply default_lookup_pad.
  - split_and!; try done; try lia.
Qed.

Lemma map_bytes_seq m f off n :
  (∀ i, default 0%Z (mm_raw m !! i) = f i) → off + n <= length (mm_raw m) → map_bytes m off n = map f (seq off n).
Proof.
  intros Hf. revert off. induction n as [|n IH]; intros off Hn; [done|]. unfold map_bytes in *. cbn [seq map].
  destruct (lookup_lt_is_Some_2 (mm_raw m) off ltac:(lia)) as [z Hz]. rewrite (drop_S _ z) by done. cbn [take].
  rewrite IH by lia. f_equal. rewrite <- Hf. by rewrite Hz.
Qed.


Module MmapExamples.


(** A write that ends before the buffer is refused by a panic. *)
Example write_before_buffer_panics :
  mmap_write_slice 4 (mkMmapFile [7]%Z 4 [] 0 0 0 [1; 2; 3; 4; 0]%Z) 1 [9]%Z = Panic.
Proof. reflexivity. Qed.

(** A write over the end of the buffer returns and lands at the wrong place: bytes 4 and 5 of
    the file should be 8 and 9. *)
Example write_over_buffer_end :
  mmap_write_slice 8 (mkMmapFile [1; 2; 3; 4; 5]%Z 0 [] 0 0 0 (replicate 16 0%Z)) 4 [8; 9]%Z =
    Ok (mkMmapFile [1; 2; 3; 4; 8]%Z 0 [] 0 0 0 ([0; 0; 0; 0; 9]%Z ++ replicate 11 0%Z)).
Proof. reflexivity. Qed.

End MmapExamples.
