(* ===== verification/Discard.v ===== *)
(** * Discard: the statistics of discarded values

    [DiscardStats] of src/src/vlog/discard.rs over the mapped file of Mmap.v: a
    table of slots of 16 bytes, the identifier of a value-log file and the bytes
    of it that can be discarded, sorted by identifier.  Writes go through the
    buffer of the mapped file, reads see the map only.  Slots with equal
    identifiers keep their order, one of the orders an unstable sort may give. *)
From stdpp Require Import base list sorting.
From Stdlib Require Import ZArith Lia.
From S2P Require Import Prelude Util Mmap.

Local Open Scope nat_scope.

Definition DISCARD_FILE_SIZE : nat := Z.to_nat (Z.shiftl 1 20).
Definition DISCARD_MAX_SLOT : nat := Z.to_nat (Z.shiftl 1 16).

Record DiscardStats : Type := mkDiscardStats {
  ds_mmap : MmapFile;
  ds_next_empty_slot : nat
}.

Section DiscardCode.
Context (page : nat).

Definition discard_get (ds : DiscardStats) (offset : nat) : outcome Z :=
  p ← slice (mm_raw (ds_mmap ds)) offset (offset + 8);
  '(v, _) ← get_u64 p;
  Ok v.

Definition discard_set (ds : DiscardStats) (offset : nat) (val : Z) : outcome DiscardStats :=
  m ← mmap_write_slice page (ds_mmap ds) offset (put_u64 val);
  Ok (mkDiscardStats m (ds_next_empty_slot ds)).

(** The slots as chunks of 16 bytes. *)
Fixpoint chunks (n : nat) (l : list Z) : list (list Z) :=
  match n with
  | 0 => []
  | S n => take 16 l :: chunks n (drop 16 l)
  end.

Definition slot_fid (c : list Z) : Z := be_decode (take 8 c).

Definition slot_le (a b : list Z) : Prop := (slot_fid a <= slot_fid b)%Z.

#[local] Instance slot_le_dec a b : Decision (slot_le a b).
Proof. unfold slot_le. apply _. Defined.

Definition discard_sort (ds : DiscardStats) : outcome DiscardStats :=
  let raw := mm_raw (ds_mmap ds) in
  let n := ds_next_empty_slot ds in
  s ← slice_to raw (n * 8 * 2);
  let sorted := concat (merge_sort slot_le (chunks n s)) in
  Ok (mkDiscardStats (with_raw (ds_mmap ds) (sorted ++ drop (n * 8 * 2) raw)) n).

(** [while next_empty_slot >= len / 16 { set_len(2 * len) }]; each turn doubles
    the length, so one turn per slot is enough when there is a byte at least. *)
Fixpoint discard_grow (fuel : nat) (ds : DiscardStats) : outcome DiscardStats :=
  if length (mm_raw (ds_mmap ds)) / 16 <=? ds_next_empty_slot ds then
    match fuel with
    | 0 => Panic
    | S fuel =>
        discard_grow fuel (mkDiscardStats (set_len (ds_mmap ds) (2 * length (mm_raw (ds_mmap ds))))
                             (ds_next_empty_slot ds))
    end
  else Ok ds.

(** The loop of [new] over the slots. *)
Fixpoint first_empty (ds : DiscardStats) (slots : list nat) : outcome nat :=
  match slots with
  | [] => Ok 0
  | slot :: slots =>
      fid ← discard_get ds (slot * 16);
      if (fid =? 0)%Z then Ok slot else first_empty ds slots
  end.

(** [DiscardStats::new] on the bytes of the file. *)
Definition DiscardStats_new (bytes : list Z) : outcome DiscardStats :=
  let '(mmap_f, _) := MmapFile_open bytes DISCARD_FILE_SIZE in
  let ds := mkDiscardStats mmap_f 0 in
  slot ← first_empty ds (seq 0 DISCARD_MAX_SLOT);
  discard_sort (mkDiscardStats mmap_f slot).

(** [DiscardStats::update]: the discardable bytes it answers. *)
Definition discard_update (ds : DiscardStats) (fid discard : Z) : outcome (Z * DiscardStats) :=
  r ← search (ds_next_empty_slot ds) (λ slot, v ← discard_get ds (slot * 16); Ok (Z.compare v fid));
  match r with
  | Found index =>
      let offset := index * 16 + 8 in
      cur_disc ← discard_get ds offset;
      if (discard =? 0)%Z then Ok (cur_disc, ds)
      else if (discard <? 0)%Z then ds ← discard_set ds offset 0; Ok (0%Z, ds)
      else
        cur_disc ← u64_add cur_disc discard;
        ds ← discard_set ds offset cur_disc;
        Ok (cur_disc, ds)
  | NotFound _ =>
      if (discard <=? 0)%Z then Ok (0%Z, ds)
      else
        let index := ds_next_empty_slot ds in
        ds ← discard_set ds (index * 16) fid;
        ds ← discard_set ds (index * 16 + 8) discard;
        ds ← discard_grow (S index) ds;
        ds ← discard_sort ds;
        Ok (discard, ds)
  end.

Fixpoint discard_updates (ds : DiscardStats) (us : list (Z * Z)) : outcome (list Z * DiscardStats) :=
  match us with
  | [] => Ok ([], ds)
  | (fid, discard) :: us =>
      '(r, ds) ← discard_update ds fid discard;
      '(rs, ds) ← discard_updates ds us;
      Ok (r :: rs, ds)
  end.

End DiscardCode.

(* ------------------------------------------------------------------ *)
(** ** Lemmas *)

(** Nothing was recorded, or one slot is in the write buffer. *)
Definition discard_inv (slot : option (Z * Z)) (ds : DiscardStats) : Prop :=
  ds_next_empty_slot ds = 0 ∧ mm_w_pos (ds_mmap ds) = 0 ∧ 16 <= length (mm_raw (ds_mmap ds)) ∧
  mm_w_buf (ds_mmap ds) = match slot with Some (fid, d) => put_u64 fid ++ put_u64 d | None => [] end.

Lemma discard_sort_empty ds : ds_next_empty_slot ds = 0 → discard_sort ds = Ok ds.
Proof.
  intros Hn. unfold discard_sort. rewrite Hn, slice_to_Ok by lia. cbn [mbind outcome_bind].
  destruct ds as [m n]. cbn in *. subst n. by destruct m.
Qed.

Lemma discard_grow_room fuel ds :
  ds_next_empty_slot ds = 0 → 16 <= length (mm_raw (ds_mmap ds)) → discard_grow (S fuel) ds = Ok ds.
Proof.
  intros Hn Hl. cbn [discard_grow]. rewrite Hn, (proj2 (Nat.leb_gt _ _)); [done|].
  apply Nat.div_str_pos. lia.
Qed.

Section DiscardLemmas.
Context (page : nat) (Hpage : 16 < page).

(** Writing the first slot, into an empty buffer or over the one there. *)
Lemma write_slot slot ds fid d :
  discard_inv slot ds →
  ∃ ds1 ds2, discard_set page ds 0 fid = Ok ds1 ∧ discard_set page ds1 8 d = Ok ds2 ∧
    discard_inv (Some (fid, d)) ds2.
Proof.
  intros (Hn & Hp & Hl & Hb). unfold discard_set. rewrite Hn.
  pose proof (length_put_u64 fid) as L1. pose proof (length_put_u64 d) as L2. destruct slot as [[f0 d0]|].
  - assert (length (mm_w_buf (ds_mmap ds)) = 16) as L by (by rewrite Hb, length_app, !length_put_u64).
    rewrite write_inside_buffer by (unfold write_offset; lia).
    cbn [mbind outcome_bind]. eexists _, _. split; [reflexivity|]. cbn [ds_mmap ds_next_empty_slot].
    rewrite Hp, Hb, L1. cbn [Nat.sub Nat.add take app]. rewrite drop_app_length' by done.
    rewrite write_inside_buffer by (unfold write_offset; cbn [with_w mm_w_pos mm_w_buf]; rewrite ?length_app, ?length_put_u64; lia).
    cbn [mbind outcome_bind]. split; [reflexivity|]. unfold discard_inv.
    cbn [ds_mmap ds_next_empty_slot with_w mm_w_pos mm_w_buf mm_raw Nat.sub]. rewrite L2, take_0, app_nil_l, take_app_length' by (by rewrite L1).
    rewrite drop_ge by (by rewrite length_app, !length_put_u64). by rewrite app_nil_r.
  - rewrite write_behind_buffer by (unfold write_offset; rewrite ?Hp, ?Hb; cbn [length]; lia). rewrite Hb, Hp.
    cbn [mbind outcome_bind app]. eexists _, _. split; [reflexivity|]. cbn [ds_mmap ds_next_empty_slot].
    rewrite write_behind_buffer by (unfold write_offset; cbn [with_w mm_w_pos mm_w_buf]; lia).
    cbn [mbind outcome_bind]. split; [reflexivity|]. by split_and!.
Qed.

Lemma discard_update_step slot ds fid d :
  (0 < d)%Z → discard_inv slot ds →
  ∃ ds', discard_update page ds fid d = Ok (d, ds') ∧ discard_inv (Some (fid, d)) ds'.
Proof.
  intros Hd I. destruct (write_slot slot ds fid d I) as (ds1 & ds2 & H1 & H2 & I2).
  destruct I as (Hn & _). unfold discard_update. rewrite Hn. cbn [search mbind outcome_bind].
  change (search 0 _) with (Ok (NotFound 0)). cbn [mbind outcome_bind]. rewrite (proj2 (Z.leb_gt _ _)) by lia.
  cbn [Nat.mul Nat.add]. rewrite H1. cbn [mbind outcome_bind]. rewrite H2. cbn [mbind outcome_bind].
  pose proof I2 as (Hn2 & _ & Hl2 & _). rewrite discard_grow_room by done. cbn [mbind outcome_bind].
  rewrite discard_sort_empty by done. cbn [mbind outcome_bind]. by exists ds2.
Qed.

End DiscardLemmas.

(** Every update finds no slot: it answers its own bytes and leaves only them. *)
Lemma discard_updates_run page us :
  16 < page → Forall (λ u, (0 < u.2)%Z) us →
  ∀ slot ds, discard_inv slot ds →
  ∃ ds', discard_updates page ds us = Ok (map snd us, ds') ∧
    discard_inv (match last us with Some u => Some u | None => slot end) ds'.
Proof.
  intros Hpage Hus. induction Hus as [|[fid d] us Hd Hus IH]; intros slot ds I; [by exists ds|].
  destruct (discard_update_step page Hpage slot ds fid d Hd I) as (ds1 & E & I1).
  destruct (IH _ _ I1) as (ds2 & E2 & I2). exists ds2. split.
  - cbn [discard_updates map snd]. rewrite E. cbn [mbind outcome_bind]. rewrite E2. done.
  - rewrite last_cons. by destruct (last us).
Qed.

Lemma DiscardStats_new_empty : ∃ ds, DiscardStats_new [] = Ok ds ∧ discard_inv None ds ∧
  mm_raw (ds_mmap ds) = replicate DISCARD_FILE_SIZE 0%Z.
Proof.
  assert (16 <= DISCARD_FILE_SIZE) as Hsz
    by (apply Nat2Z.inj_le; unfold DISCARD_FILE_SIZE; rewrite Z2Nat.id by done; by vm_compute).
  unfold DiscardStats_new, MmapFile_open. cbn [length Nat.eqb].
  rewrite (proj2 (Nat.ltb_lt _ _)) by lia. cbn [andb].
  assert (∃ n, DISCARD_MAX_SLOT = S n) as [n En] by (exists (pred DISCARD_MAX_SLOT); symmetry; apply Nat.succ_pred;
    unfold DISCARD_MAX_SLOT; intros E; apply (f_equal Z.of_nat) in E; by rewrite Z2Nat.id in E by done).
  rewrite En. cbn [seq first_empty Nat.mul]. unfold discard_get. cbn [ds_mmap mm_raw Nat.add].
  rewrite slice_Ok by (rewrite ?length_replicate; lia). cbn [mbind outcome_bind].
  rewrite drop_0, take_replicate, Nat.min_l by lia. change (get_u64 _) with (Ok (0%Z, @nil Z)).
  cbn [mbind outcome_bind Z.eqb].
  rewrite discard_sort_empty by done. eexists. split; [reflexivity|].
  split; [|done]. unfold discard_inv. cbn [ds_mmap ds_next_empty_slot mm_w_pos mm_w_buf mm_raw].
  rewrite length_replicate. split_and!; [done|done|lia|done].
Qed.

(** On a new statistics file, whatever positive amounts are reported, for
    whichever files, each update answers its own amount only, the count of slots
    stays zero, and the write buffer holds just the last report: the amounts of a
    file are never added up. *)
Theorem discard_never_accumulates page us :
  16 < page → Forall (λ u, (0 < u.2)%Z) us →
  ∃ ds ds', DiscardStats_new [] = Ok ds ∧ discard_updates page ds us = Ok (map snd us, ds') ∧
    ds_next_empty_slot ds' = 0 ∧ write_offset (ds_mmap ds') <= 16 ∧
    mm_w_buf (ds_mmap ds') =
      match last us with Some (fid, d) => put_u64 fid ++ put_u64 d | None => [] end.
Proof.
  intros Hpage Hus. destruct DiscardStats_new_empty as (ds & E & I & _).
  destruct (discard_updates_run page us Hpage Hus None ds I) as (ds' & E' & Hn & Hp & _ & Hb).
  exists ds, ds'. split_and!; [done|done|done| |].
  - unfold write_offset. rewrite Hp, Hb. destruct (last us) as [[f d]|]; [|cbn; lia].
    rewrite length_app, !length_put_u64. lia.
  - rewrite Hb. by destruct (last us) as [[f d]|].
Qed.

Module DiscardExamples.

(** Two reports of 10 bytes for file 3 are answered 10 and 10, not 10 and 20. *)
Lemma discard_never_accumulates_witness :
  ∃ ds ds', DiscardStats_new [] = Ok ds ∧ discard_updates 4096 ds [(3, 10); (3, 10)]%Z = Ok ([10; 10]%Z, ds') ∧
    ds_next_empty_slot ds' = 0 ∧ write_offset (ds_mmap ds') <= 16 ∧
    mm_w_buf (ds_mmap ds') = put_u64 3 ++ put_u64 10.
Proof.
  refine (discard_never_accumulates 4096 [(3, 10); (3, 10)]%Z _ _).
  - apply Nat.ltb_lt. reflexivity.
  - repeat constructor.
Defined.

End DiscardExamples.
