(* ===== verification/CompactRun.v ===== *)
(** * CompactRun: running a compaction plan

    [run_compact], [compact_build_tables], [sub_compact] and [TableBuilder::add_keys]
    of src/src/level/compact.rs, over the plans of Compact.v, the merging iterators
    of TableIter.v, the table builder of Table.v, the manifest and the discard
    statistics.  The tasks the code spawns run one after the other, in the order
    their results are awaited; [now] is the clock and [cipher] what the key registry
    answers.  Loops that may not end run for [fuel] turns and answer
    [out_of_turns] past them; [turns] and [d] bound the merging iterator. *)
From stdpp Require Import base list gmap strings sorting.
From Stdlib Require Import ZArith Lia.
From S2P Require Import Prelude Util VarInt Kv Iter Pb Storage Block Table Manifest Level Compact TableIter Mmap Discard.

Local Open Scope nat_scope.

Record AddKeyContext : Type := mkAddContext {
  ac_last_key_ts : KeyTs;
  ac_skip_key : KeyTs;
  ac_num_versions : nat;
  ac_discard_stats : gmap Z Z;
  ac_first_key_has_discard_set : bool
}.

Definition AddKeyContext_default : AddKeyContext := mkAddContext KeyTs_default KeyTs_default 0 ∅ false.

Definition update_discard (context : AddKeyContext) (value : ValueMeta) : outcome AddKeyContext :=
  if Meta_contains (vm_meta value) Meta_VALUE_POINTER then
    vp ← ValuePointer_deserialize (vm_value value);
    v ← match ac_discard_stats context !! vp_fid vp with
        | Some v => u64_add v (vp_len vp)
        | None => Ok (vp_len vp)
        end;
    Ok (mkAddContext (ac_last_key_ts context) (ac_skip_key context) (ac_num_versions context)
          (<[vp_fid vp := v]> (ac_discard_stats context)) (ac_first_key_has_discard_set context))
  else Ok context.

Definition with_skip_key (context : AddKeyContext) (k : KeyTs) : AddKeyContext :=
  mkAddContext (ac_last_key_ts context) k (ac_num_versions context) (ac_discard_stats context)
    (ac_first_key_has_discard_set context).

Definition with_num_versions (context : AddKeyContext) (n : nat) : AddKeyContext :=
  mkAddContext (ac_last_key_ts context) (ac_skip_key context) n (ac_discard_stats context)
    (ac_first_key_has_discard_set context).

(** The context at the first version of a key. *)
Definition new_key (context : AddKeyContext) (k : KeyTs) (discard : bool) : AddKeyContext :=
  mkAddContext k (ac_skip_key context) 0 (ac_discard_stats context) discard.

(** [plan.drop_prefixes()]: the field is set to an empty list and never changed. *)
Definition plan_drop_prefixes {T} (plan : CompactPlan T) : list (list Z) := [].

(** [TableConfig::set_table_size]; 0.95 of a size below 2^50 in floating point, cut
    to an integer, is the quotient of the exact product. *)
Definition set_table_size (config : TableConfig) (table_size : nat) : TableConfig :=
  mkTableConfig table_size (table_size * 95 / 100) (tc_checksum_verify_mode config) (tc_checksum_algo config)
    (tc_bloom config) (tc_block_size config) (tc_compression config) (tc_zstd_compression_level config).

(** What the compaction needs of the controller: its levels and a setting. *)
Record Controller : Type := mkController {
  ct_levels : list (LevelHandler Table);
  ct_num_versions_to_keep : nat
}.

Section CompactRunCode.
Context `{!VarInt, !ChecksumCodec, !Compressor, !Aead, !TableIndexFb, !ManifestCodec, !TableOrder}.
Context (turns d : nat).

Definition exceeds_allowed_overlap (key_range : KeyTsRange) (levels : list (LevelHandler Table))
    (plan : CompactPlan Table) : outcome bool :=
  let n2n := Z.to_nat (hd_level (pl_next_level plan)) + 1 in
  if (n2n <=? 1) || (length levels <=? n2n) then Ok false
  else
    handler ← idx levels n2n;
    '(l, r) ← overlap_tables (ht_tables (hd_inner handler)) key_range;
    Ok (10 <=? r - l).

(** The key of an item is at or above the right end of a range. *)
Definition at_right (key_range : KeyTsRange) (key : list Z) : bool :=
  negb (KeyTs_is_empty (kr_right key_range)) &&
  match kb_cmp_KeyTs key (kr_right key_range) with Lt => false | _ => true end.

(** What one turn of [add_keys] does with the item it looks at. *)
Inductive turn : Type :=
| Stop (context : AddKeyContext)
| Skip (context : AddKeyContext)
| Push (stale : bool) (context : AddKeyContext).

Definition with_first_discard (context : AddKeyContext) (discard : bool) : AddKeyContext :=
  mkAddContext (ac_last_key_ts context) (ac_skip_key context) (ac_num_versions context)
    (ac_discard_stats context) discard.

(** The first version of a key: whether the loop goes on. *)
Definition enter_key (ctl : Controller) (plan : CompactPlan Table) (key_range : KeyTsRange) (tb : TableBuilder)
    (context : AddKeyContext) (range_check : nat) (key_ts : list Z) (value : ValueMeta) :
    outcome (bool * AddKeyContext * nat) :=
  let context := with_first_discard context false in
  if at_right key_range key_ts then Ok (false, context, range_check)
  else
    full ← reacded_capacity tb;
    if (full : bool) then Ok (false, context, range_check)
    else
      let context := new_key context (KeyTs_from_borrow key_ts)
                       (Meta_contains (vm_meta value) Meta_DISCARD_EARLIER_VERSIONS) in
      let range_check := range_check + 1 in
      exceeds ← (if range_check mod 5000 =? 0 then exceeds_allowed_overlap key_range (ct_levels ctl) plan
                 else Ok false);
      Ok (negb exceeds, context, range_check).

(** The body of the loop after the first-version block. *)
Definition decide_version (ctl : Controller) (now discard_ts : Z) (has_overlap : bool) (context : AddKeyContext)
    (key_ts : list Z) (value : ValueMeta) : turn :=
  let is_expired := ValueMeta_is_deleted_or_expired now value in
  let stale context := ac_first_key_has_discard_set context || is_expired in
  if (kb_txn_ts key_ts <=? discard_ts)%Z && negb (Meta_contains (vm_meta value) Meta_MERGE_ENTRY) then
    let context := with_num_versions context (ac_num_versions context + 1) in
    let last_valid_version := Meta_contains (vm_meta value) Meta_DISCARD_EARLIER_VERSIONS
                              || (ac_num_versions context =? ct_num_versions_to_keep ctl) in
    if is_expired || last_valid_version then
      let context := with_skip_key context (KeyTs_from_borrow key_ts) in
      if (is_expired || negb last_valid_version) && negb has_overlap then Skip context
      else Push (stale context) context
    else Push (stale context) context
  else Push (stale context) context.

(** One turn for the item with this key and value, and the count of keys. *)
Definition add_turn (ctl : Controller) (plan : CompactPlan Table) (key_range : KeyTsRange) (now discard_ts : Z)
    (has_overlap : bool) (tb : TableBuilder) (context : AddKeyContext) (range_check : nat) (key_ts : list Z)
    (value : ValueMeta) : outcome (turn * nat) :=
  if existsb (starts_with key_ts) (plan_drop_prefixes plan) then Ok (Skip context, range_check)
  else if negb (KeyTs_is_empty (ac_skip_key context)) && bytes_eqb (kb_key key_ts) (kt_key (ac_skip_key context))
  then Ok (Skip context, range_check)
  else
    let context := if KeyTs_is_empty (ac_skip_key context) then context else with_skip_key context KeyTs_default in
    if bytes_eqb (kb_key key_ts) (kt_key (ac_last_key_ts context)) then
      Ok (decide_version ctl now discard_ts has_overlap context key_ts value, range_check)
    else
      '(go, context, range_check) ← enter_key ctl plan key_range tb context range_check key_ts value;
      Ok (if (go : bool) then decide_version ctl now discard_ts has_overlap context key_ts value else Stop context,
          range_check).

(** [add_keys]: a skipped item is added to the discard statistics and left behind;
    after a pushed one the iterator stays where it is. *)
Fixpoint add_keys_loop (fuel : nat) (ctl : Controller) (plan : CompactPlan Table) (key_range : KeyTsRange)
    (now discard_ts : Z) (has_overlap : bool) (tb : TableBuilder) (iter : SinkMergeIter) (context : AddKeyContext)
    (range_check : nat) : outcome (TableBuilder * SinkMergeIter * AddKeyContext) :=
  match fuel with
  | 0 => Err out_of_turns
  | S fuel =>
      valid ← merge_valid iter;
      if (valid : bool) then
        k ← merge_key iter;
        v ← merge_value iter;
        let key_ts := default [] k in
        let value := default ValueMeta_default v in
        '(t, range_check) ← add_turn ctl plan key_range now discard_ts has_overlap tb context range_check key_ts value;
        match t with
        | Stop context => Ok (tb, iter, context)
        | Skip context =>
            context ← update_discard context value;
            '(_, iter) ← Merge_next turns d iter;
            add_keys_loop fuel ctl plan key_range now discard_ts has_overlap tb iter context range_check
        | Push stale context =>
            vptr_len ← vptr_len_of value;
            tb ← (if (stale : bool) then push_stale tb key_ts value vptr_len else push tb key_ts value vptr_len);
            add_keys_loop fuel ctl plan key_range now discard_ts has_overlap tb iter context range_check
        end
      else Ok (tb, iter, context)
  end.

Definition add_keys (fuel : nat) (ctl : Controller) (plan : CompactPlan Table) (key_range : KeyTsRange)
    (now discard_ts : Z) (has_overlap : bool) (tb : TableBuilder) (iter : SinkMergeIter) (context : AddKeyContext) :
    outcome (TableBuilder * SinkMergeIter * AddKeyContext) :=
  add_keys_loop fuel ctl plan key_range now discard_ts has_overlap tb iter context 0.

(** The loop of [sub_compact]: the builders of the new tables. *)
Fixpoint sub_compact_loop (fuel : nat) (ctl : Controller) (plan : CompactPlan Table) (key_range : KeyTsRange)
    (config : TableConfig) (cipher : option AesCipher) (now discard_ts : Z) (has_overlap : bool)
    (iter : SinkMergeIter) (context : AddKeyContext) : outcome (list TableBuilder * AddKeyContext) :=
  match fuel with
  | 0 => Err out_of_turns
  | S fuel' =>
      valid ← merge_valid iter;
      if (valid : bool) then
        past ← (if KeyTs_is_empty (kr_right key_range) then Ok false
                else k ← merge_key iter; key ← unwrap k; Ok (at_right key_range key));
        if (past : bool) then Ok ([], context)
        else
          size ← idx (tg_file_size (cp_targets (pl_priority plan))) (Z.to_nat (hd_level (pl_next_level plan)));
          let builder := TableBuilder_new (set_table_size config (Z.to_nat size)) cipher in
          '(builder, iter, context) ←
            add_keys fuel ctl plan key_range now discard_ts has_overlap builder iter context;
          if TableBuilder_is_empty builder then
            _ ← TableBuilder_finish builder;
            sub_compact_loop fuel' ctl plan key_range config cipher now discard_ts has_overlap iter context
          else
            '(builders, context) ←
              sub_compact_loop fuel' ctl plan key_range config cipher now discard_ts has_overlap iter context;
            Ok (builder :: builders, context)
      else Ok ([], context)
  end.

(** The discard statistics of the context, in some order of its keys. *)
Definition record_discards (page : nat) (stats : DiscardStats) (discards : list (Z * Z)) : outcome DiscardStats :=
  '(_, stats) ← discard_updates page stats discards;
  Ok stats.

Definition sub_compact (fuel page : nat) (ctl : Controller) (plan : CompactPlan Table) (key_range : KeyTsRange)
    (config : TableConfig) (cipher : option AesCipher) (now discard_ts : Z) (stats : DiscardStats)
    (merge_iter : SinkMergeIter) : outcome (list TableBuilder * DiscardStats) :=
  has_overlap ← check_overlap (ct_levels ctl) (pl_top plan ++ pl_bottom plan)
                  (Z.to_nat (hd_level (pl_next_level plan)) + 1);
  '(_, merge_iter) ←
    (if KeyTs_is_empty (kr_left key_range) then Merge_next turns d merge_iter
     else Merge_seek turns d merge_iter (KeyTs_serialize (kr_left key_range)));
  '(builders, context) ←
    sub_compact_loop fuel ctl plan key_range config cipher now discard_ts has_overlap merge_iter AddKeyContext_default;
  stats ← record_discards page stats (map_to_list (ac_discard_stats context));
  Ok (builders, stats).

(** The bottom tables that no prefix to drop covers. *)
Definition covered_by (t : Table) (prefix : list Z) : bool :=
  starts_with (kt_key (t_smallest t)) prefix && starts_with (kt_key (t_biggest t)) prefix.

Definition valid_bottom (plan : CompactPlan Table) : list Table :=
  base.filter (λ t, existsb (covered_by t) (cp_drop_prefixes (pl_priority plan)) = false) (pl_bottom plan).

(** [new_iter] *)
Definition new_iters (level : Z) (plan : CompactPlan Table) : outcome (list SinkMergeNodeIter) :=
  top ← (if (level =? LEVEL0)%Z then Ok ((λ t, NodeTable (Table_iter t)) <$> reverse (pl_top plan))
         else match pl_top plan with
              | [] => Ok []
              | [t] => Ok [NodeTable (Table_iter t)]
              | _ => Panic
              end);
  Ok (top ++ [NodeTableConcat (SinkTableConcatIter_new (valid_bottom plan))]).

(** [TableBuilder::build]: the file is written and opened; the caches start empty. *)
Definition TableBuilder_build (tb : TableBuilder) (table_id : Z) : outcome Table :=
  file ← TableBuilder_finish tb;
  Table_open (tb_config tb) table_id file (tb_cipher tb) (λ _, None) None.

(** The builders of one split, each with the next reserved identifier. *)
Fixpoint build_all (next_id : Z) (tbs : list TableBuilder) : outcome (list Table * Z) :=
  match tbs with
  | [] => Ok ([], next_id)
  | tb :: tbs =>
      t ← TableBuilder_build tb next_id;
      '(ts, next_id) ← build_all (next_id + 1)%Z tbs;
      Ok (t :: ts, next_id)
  end.

Fixpoint compact_splits (fuel page : nat) (ctl : Controller) (plan : CompactPlan Table) (level : Z)
    (splits : list KeyTsRange) (config : TableConfig) (cipher : option AesCipher) (now discard_ts next_id : Z)
    (stats : DiscardStats) : outcome (list Table * Z * DiscardStats) :=
  match splits with
  | [] => Ok ([], next_id, stats)
  | kr :: splits =>
      iters ← new_iters level plan;
      '(tables, next_id, stats) ←
        match SinkMergeIter_new iters with
        | Some merge_iter =>
            '(builders, stats) ← sub_compact fuel page ctl plan kr config cipher now discard_ts stats merge_iter;
            '(tables, next_id) ← build_all next_id builders;
            Ok (tables, next_id, stats)
        | None => Ok ([], next_id, stats)
        end;
      '(rest, next_id, stats) ← compact_splits fuel page ctl plan level splits config cipher now discard_ts next_id stats;
      Ok (tables ++ rest, next_id, stats)
  end.

Definition compact_build_tables (fuel page : nat) (ctl : Controller) (plan : CompactPlan Table) (level : Z)
    (config : TableConfig) (cipher : option AesCipher) (now discard_ts next_id : Z) (stats : DiscardStats) :
    outcome (list Table * Z * DiscardStats) :=
  '(tables, next_id, stats) ←
    compact_splits fuel page ctl plan level (pl_splits plan) config cipher now discard_ts next_id stats;
  Ok (sort_by (λ a b, KeyTs_cmp (t_biggest a) (t_biggest b)) tables, next_id, stats).

(** The plan with its splits: those of [add_splits] between two levels, and a
    single default one when there is none. *)
Definition with_splits (plan : CompactPlan Table) (splits : list KeyTsRange) : CompactPlan Table :=
  mkPlan (pl_compact_task_id plan) (pl_priority plan) (pl_this_level plan) (pl_next_level plan) (pl_top plan)
    (pl_this_range plan) (pl_bottom plan) (pl_next_range plan) (pl_this_size plan) splits.

Definition plan_splits (plan : CompactPlan Table) : CompactPlan Table :=
  let plan := if (hd_level (pl_this_level plan) =? hd_level (pl_next_level plan))%Z then plan else add_splits plan in
  if length (pl_splits plan) =? 0 then with_splits plan [KeyTsRange_default] else plan.

Definition create_change (level : Z) (t : Table) : ManifestChange :=
  new_create (t_table_id t) level (match t_cipher t with Some c => cipher_key_id c | None => 0%Z end)
    (CompressionType_into (tc_compression (t_config t))).

(** The changes of the manifest: the new tables, then the replaced ones. *)
Definition compact_changes (plan : CompactPlan Table) (new_tables : list Table) : list ManifestChange :=
  (create_change (hd_level (pl_next_level plan)) <$> new_tables) ++
  ((λ t, new_delete (t_table_id t)) <$> pl_top plan) ++ ((λ t, new_delete (t_table_id t)) <$> pl_bottom plan).

(** Changing the handler of a level of the controller. *)
Definition on_level (levels : list (LevelHandler Table)) (level : Z)
    (f : LevelHandler Table → outcome (LevelHandler Table)) : outcome (list (LevelHandler Table)) :=
  h ← idx levels (Z.to_nat level);
  h ← f h;
  Ok (<[Z.to_nat level := h]> levels).

Record CompactWorld : Type := mkWorld {
  cw_levels : list (LevelHandler Table);
  cw_manifest : ManifestInner;
  cw_next_id : Z;
  cw_stats : DiscardStats
}.

Definition run_compact (fuel page keep : nat) (w : CompactWorld) (level : Z) (plan : CompactPlan Table)
    (config : TableConfig) (cipher : option AesCipher) (now discard_ts : Z) : outcome CompactWorld :=
  if length (tg_file_size (cp_targets (pl_priority plan))) =? 0
  then Err (EMsg "Filesizes cannot be zero. Targets are not set")
  else
    _ ← assert_or_panic (length (pl_splits plan) =? 0);
    let plan := plan_splits plan in
    '(new_tables, next_id, stats) ←
      compact_build_tables fuel page (mkController (cw_levels w) keep) plan level config cipher now discard_ts
        (cw_next_id w) (cw_stats w);
    let '(manifest, r) := push_changes (cw_manifest w) (compact_changes plan new_tables) in
    _ ← r;
    levels ← on_level (cw_levels w) (hd_level (pl_next_level plan)) (λ h, replace_tables h (pl_bottom plan) new_tables);
    levels ← on_level levels (hd_level (pl_this_level plan)) (λ h, delete_tables h (pl_top plan));
    Ok (mkWorld levels manifest next_id stats).

End CompactRunCode.
