(* ===== verification/CompactSpec.v ===== *)
(** * CompactSpec: what a compaction keeps

    The loop of [add_keys] (CompactRun.v) over a merge that shows sorted versions,
    when one version per key is kept and every version can be discarded: the
    newest version of each key goes to the builder, unless it is deleted or expired
    and nothing below overlaps.  A version that is too new to be discarded makes
    the loop push it for ever. *)
From stdpp Require Import base list gmap strings sorting sets.
From Stdlib Require Import ZArith Lia.
From S2P Require Import Prelude Float64 Util VarInt Kv Iter Pb Storage Block Table TableBuild TableSeek Manifest Level Compact.
From S2P Require Import TableIter TableMerge Mmap Discard CompactRun.

Local Open Scope nat_scope.

(** The first version of each run of versions with one key; [prev] is the key of
    the version before. *)
Fixpoint newest_versions (prev : list Z) (es : list version) : list version :=
  match es with
  | [] => []
  | e :: es =>
      if bool_decide (kt_key e.1 = prev) then newest_versions prev es
      else e :: newest_versions (kt_key e.1) es
  end.

(** The versions a compaction keeps, and how they go to the builder. *)
Definition survives (now : Z) (has_overlap : bool) (e : version) : bool :=
  has_overlap || negb (ValueMeta_is_deleted_or_expired now e.2).

Definition compacted (now : Z) (has_overlap : bool) (prev : list Z) (es : list version) : list version :=
  base.filter (λ e, survives now has_overlap e = true) (newest_versions prev es).

Definition ptr_len (v : ValueMeta) : option Z := match vptr_len_of v with Ok l => l | _ => None end.

Definition as_item (now : Z) (e : version) : TableBuild.item :=
  mkItem (KeyTs_serialize e.1, e.2) (ptr_len e.2)
    (Meta_contains (vm_meta e.2) Meta_DISCARD_EARLIER_VERSIONS || ValueMeta_is_deleted_or_expired now e.2).

(** A value with the pointer flag is a pointer. *)
Definition points (v : ValueMeta) : Prop :=
  Meta_contains (vm_meta v) Meta_VALUE_POINTER = true →
  ∃ vp, ValuePointer_deserialize (vm_value v) = Ok vp ∧ (0 <= vp_len vp < 2 ^ 32)%Z.

(** A version the compaction may discard. *)
Definition discardable (discard_ts : Z) (e : version) : Prop :=
  version_ok e ∧ (kt_ts e.1 <= discard_ts)%Z ∧ Meta_contains (vm_meta e.2) Meta_MERGE_ENTRY = false ∧
  points e.2.

Section AddKeysLemmas.
Context `{!VarInt, !ChecksumCodec, !Compressor, !Aead, !TableIndexFb, !ManifestCodec, !TableOrder}.
Context (turns d : nat).

(** The builder takes the items one by one and is not full before any of them. *)
Fixpoint has_room (tb : TableBuilder) (its : list TableBuild.item) : Prop :=
  reacded_capacity tb = Ok false ∧
  match its with
  | [] => True
  | i :: its => ∃ tb', push_item tb i = Ok tb' ∧ has_room tb' its
  end.

Lemma has_room_capacity tb its : has_room tb its → reacded_capacity tb = Ok false.
Proof. by destruct its as [|i its]; intros [H' _]. Qed.

(** A merge that shows a version and has more to come; an exhausted one. *)
Definition shows (m : SinkMergeIter) (cur : version) (rest : list version) : Prop :=
  runs merge_key merge_value (Merge_next turns d) m (Some cur) rest ∧ mg_back_temp_key m = [].

Definition after (m : SinkMergeIter) (es : list version) : Prop :=
  match es with
  | [] => merge_valid m = Ok false
  | e :: es => shows m e es
  end.

Lemma shows_key m cur rest : shows m cur rest → merge_key m = Ok (Some (KeyTs_serialize cur.1)).
Proof. intros [H' _]. by destruct rest, H'. Qed.

Lemma shows_value m cur rest : shows m cur rest → merge_value m = Ok (Some cur.2).
Proof. intros [H' _]. by destruct rest, H' as (_ & ? & _). Qed.

Lemma shows_step m cur rest : shows m cur rest → ∃ b m', Merge_next turns d m = Ok (b, m') ∧ after m' rest.
Proof.
  intros [Hr Hb]. destruct rest as [|e rest]; destruct Hr as (_ & _ & m' & Hn).
  - destruct (loop_back_temp _ _ _ _ _ Hb Hn) as [_ Hv]. exists false, m'. split; [done|]. by apply Hv.
  - destruct Hn as [Hn Hr]. destruct (loop_back_temp _ _ _ _ _ Hb Hn) as [Hb' _]. by exists true, m'.
Qed.

(** The statistics have at most 2^32 bytes for each of [n] versions. *)
Definition stats_below (n : nat) (context : AddKeyContext) : Prop :=
  ∀ fid z, ac_discard_stats context !! fid = Some z → (0 <= z <= Z.of_nat n * 2 ^ 32)%Z.

(** Counting a value changes the statistics only. *)
Lemma update_discard_ok n context v :
  (Z.of_nat (S n) * 2 ^ 32 < 2 ^ 64)%Z → stats_below n context → points v →
  ∃ context', update_discard context v = Ok context' ∧ stats_below (S n) context' ∧
    ac_last_key_ts context' = ac_last_key_ts context ∧ ac_skip_key context' = ac_skip_key context.
Proof.
  intros Hn Hs Hp. unfold update_discard. destruct (Meta_contains (vm_meta v) Meta_VALUE_POINTER) eqn:Em.
  - destruct (Hp Em) as (vp & -> & Hl). cbn [mbind outcome_bind].
    assert (∃ z, match ac_discard_stats context !! vp_fid vp with Some z => u64_add z (vp_len vp) | None => Ok (vp_len vp) end = Ok z
      ∧ (0 <= z <= Z.of_nat (S n) * 2 ^ 32)%Z) as (z & -> & Hz).
    { destruct (ac_discard_stats context !! vp_fid vp) as [z|] eqn:E.
      - apply Hs in E. unfold u64_add, U64_MAX. rewrite (proj2 (Z.leb_le _ _)) by lia. eexists. split; [done|]. lia.
      - eexists. split; [done|]. lia. }
    cbn [mbind outcome_bind]. eexists. split; [done|]. split; [|done]. intros fid w. cbn [ac_discard_stats].
    rewrite lookup_insert_Some. intros [[_ <-]|[_ E]]; [done|]. apply Hs in E. lia.
  - exists context. split_and!; try done. intros fid z E. apply Hs in E. lia.
Qed.

(** The key range ends at infinity: no item is past it and no overlap stops it. *)
Context (ctl : Controller) (plan : CompactPlan Table) (key_range : KeyTsRange) (now discard_ts : Z) (has_overlap : bool).
Context (Hright : KeyTs_is_empty (kr_right key_range) = true).

Lemma never_exceeds : exceeds_allowed_overlap key_range (ct_levels ctl) plan = Ok false.
Proof.
  unfold exceeds_allowed_overlap. destruct (_ || _) eqn:E; [done|]. apply orb_false_elim in E as [_ E%Nat.leb_gt].
  destruct (lookup_lt_is_Some_2 (ct_levels ctl) (Z.to_nat (hd_level (pl_next_level plan)) + 1)) as [h Hh]; [lia|].
  rewrite (idx_Ok _ _ _ Hh). cbn [mbind outcome_bind]. unfold overlap_tables. rewrite Hright, orb_true_r. done.
Qed.

Lemma enter_key_ok tb context rc key v :
  reacded_capacity tb = Ok false →
  enter_key ctl plan key_range tb context rc key v =
    Ok (true, new_key context (KeyTs_from_borrow key) (Meta_contains (vm_meta v) Meta_DISCARD_EARLIER_VERSIONS), rc + 1).
Proof.
  intros Hc. unfold enter_key, at_right. rewrite Hright, Hc. cbn [negb andb mbind outcome_bind].
  destruct (_ =? 0); [rewrite never_exceeds|]; done.
Qed.

Abbreviation loop fuel tb m context rc :=
  (add_keys_loop turns d fuel ctl plan key_range now discard_ts has_overlap tb m context rc).

(** A version that is too new to be discarded: the loop pushes it again and again. *)
Lemma add_keys_loop_stuck m e rest : ∀ fuel tb context rc r,
  shows m e rest → version_ok e → (discard_ts < kt_ts e.1)%Z →
  kt_key (ac_last_key_ts context) = kt_key e.1 → KeyTs_is_empty (ac_skip_key context) = true →
  loop fuel tb m context rc ≠ Ok r.
Proof.
  intros fuel. induction fuel as [|fuel IH]; intros tb context rc r Hm [Hk Hts] Hd Hl Hs E; [done|].
  cbn [add_keys_loop] in E. rewrite (merge_key_valid m _ (shows_key _ _ _ Hm)) in E. cbn [mbind outcome_bind] in E.
  rewrite (shows_key _ _ _ Hm), (shows_value _ _ _ Hm) in E. cbn [mbind outcome_bind from_option id] in E.
  unfold add_turn in E. cbn [plan_drop_prefixes existsb] in E. rewrite Hs in E. cbn [negb andb] in E.
  rewrite kb_key_serialize, Hl in E. unfold bytes_eqb in E. rewrite bool_decide_eq_true_2 in E by done.
  unfold decide_version in E. rewrite kb_txn_ts_serialize in E by done.
  rewrite (proj2 (Z.leb_gt _ _)) in E by done. cbn [andb mbind outcome_bind] in E.
  apply bind_Ok in E as (l & _ & E). apply bind_Ok in E as (tb' & _ & E). by apply (IH tb' context rc r).
Qed.

Context (Hkeep : ct_num_versions_to_keep ctl = 1).

(** The context between two keys: both remembered keys are the last one seen. *)
Definition between (prev : list Z) (context : AddKeyContext) : Prop :=
  kt_key (ac_last_key_ts context) = prev ∧ kt_key (ac_skip_key context) = prev ∧
  (prev = [] → ac_skip_key context = KeyTs_default).

Lemma skip_not_empty prev context : between prev context → prev ≠ [] → KeyTs_is_empty (ac_skip_key context) = false.
Proof.
  intros (_ & Hs & _) Hne. unfold KeyTs_is_empty. apply bool_decide_eq_false_2. intros E. rewrite E in Hs. by subst prev.
Qed.

(** A turn at a version of the key seen last. *)
Lemma turn_same prev context tb rc e :
  between prev context → kt_key e.1 = prev → version_ok e →
  add_turn ctl plan key_range now discard_ts has_overlap tb context rc (KeyTs_serialize e.1) e.2 = Ok (Skip context, rc).
Proof.
  intros Hb He [Hk _]. unfold add_turn. cbn [plan_drop_prefixes existsb].
  rewrite (skip_not_empty prev context Hb) by (by rewrite <- He). destruct Hb as (_ & Hs & _).
  rewrite kb_key_serialize, Hs, He. unfold bytes_eqb. by rewrite bool_decide_eq_true_2.
Qed.

(** A turn at the first version of another key. *)
Lemma turn_new prev context tb rc e :
  between prev context → kt_key e.1 ≠ prev → discardable discard_ts e → reacded_capacity tb = Ok false →
  ∃ context', add_turn ctl plan key_range now discard_ts has_overlap tb context rc (KeyTs_serialize e.1) e.2 =
    Ok (if survives now has_overlap e
        then Push (Meta_contains (vm_meta e.2) Meta_DISCARD_EARLIER_VERSIONS ||
                   ValueMeta_is_deleted_or_expired now e.2) context' else Skip context', rc + 1) ∧
    between (kt_key e.1) context' ∧ ac_discard_stats context' = ac_discard_stats context.
Proof.
  intros (Hl & Hs & _) He ([Hk Hts] & Hd & Hm & _) Hc. unfold add_turn. cbn [plan_drop_prefixes existsb].
  rewrite kb_key_serialize, Hs. unfold bytes_eqb. rewrite bool_decide_eq_false_2, andb_false_r by done.
  set (c := if KeyTs_is_empty _ then _ else _).
  assert (kt_key (ac_last_key_ts c) = prev ∧ ac_discard_stats c = ac_discard_stats context) as [Hlc Hsc]
    by (unfold c; by destruct (KeyTs_is_empty (ac_skip_key context))).
  rewrite Hlc, bool_decide_eq_false_2 by done. rewrite enter_key_ok by done. cbn [mbind outcome_bind].
  unfold decide_version. rewrite kb_txn_ts_serialize, KeyTs_from_borrow_serialize by done.
  rewrite (proj2 (Z.leb_le _ _)), Hm by done. cbn [negb andb new_key with_num_versions ac_num_versions Nat.add].
  rewrite Hkeep. cbn [Nat.eqb]. rewrite orb_true_r, orb_true_r. cbn [negb]. rewrite orb_false_r.
  eexists. split; [unfold survives; by destruct (ValueMeta_is_deleted_or_expired now e.2), has_overlap|].
  split; [|done]. by split_and!.
Qed.

(** From a merge that shows [es], the loop pushes what is compacted and ends. *)
Lemma add_keys_loop_keeps es : ∀ prev context tb m rc fuel n,
  after m es → between prev context → stats_below n context → (Z.of_nat (n + length es) * 2 ^ 32 < 2 ^ 64)%Z →
  Forall (discardable discard_ts) es → 2 * length es < fuel →
  has_room tb (as_item now <$> compacted now has_overlap prev es) →
  ∃ tb' m' context', loop fuel tb m context rc = Ok (tb', m', context') ∧
    push_items tb (as_item now <$> compacted now has_overlap prev es) = Ok tb' ∧ merge_valid m' = Ok false.
Proof.
  induction es as [|e es IH]; intros prev context tb m rc fuel n Ha Hb Hs Hbound Hall Hf Hroom.
  { destruct fuel as [|fuel]; [lia|]. cbn [add_keys_loop]. cbn in Ha. rewrite Ha. cbn. by eexists _, _, _. }
  apply Forall_cons in Hall as [He Hall]. cbn [length] in Hbound, Hf.
  destruct fuel as [|[|fuel]]; [lia|lia|]. cbn [after] in Ha.
  assert (∀ f tb context rc, loop (S f) tb m context rc =
    '(t, rc) ← add_turn ctl plan key_range now discard_ts has_overlap tb context rc (KeyTs_serialize e.1) e.2;
    match t with
    | Stop c => Ok (tb, m, c)
    | Skip c => c ← update_discard c e.2; '(_, m) ← Merge_next turns d m; loop f tb m c rc
    | Push stale c => l ← vptr_len_of e.2;
        tb ← (if (stale : bool) then push_stale tb (KeyTs_serialize e.1) e.2 l else push tb (KeyTs_serialize e.1) e.2 l);
        loop f tb m c rc
    end) as Hturn.
  { intros f tb0 context0 rc0. cbn [add_keys_loop]. rewrite (merge_key_valid m _ (shows_key _ _ _ Ha)).
    cbn [mbind outcome_bind]. rewrite (shows_key _ _ _ Ha), (shows_value _ _ _ Ha). done. }
  pose proof He as (Hok & _ & _ & Hp). destruct (shows_step _ _ _ Ha) as (b & m1 & Hn & Hm1).
  (* Leaving the item behind, in the context of its key. *)
  assert (∀ f c tb rc, 2 * length es < f → between (kt_key e.1) c → stats_below n c →
    has_room tb (as_item now <$> compacted now has_overlap (kt_key e.1) es) →
    ∃ tb' m' context', (c ← update_discard c e.2; '(_, m) ← Merge_next turns d m; loop f tb m c rc) = Ok (tb', m', context') ∧
      push_items tb (as_item now <$> compacted now has_overlap (kt_key e.1) es) = Ok tb' ∧ merge_valid m' = Ok false) as Hleave.
  { intros f c tb0 rc0 Hf' Hbc Hsc Hr. destruct (update_discard_ok n c e.2) as (c' & -> & Hs' & E1 & E2); [lia|done|done|].
    cbn [mbind outcome_bind]. rewrite Hn. cbn [mbind outcome_bind].
    apply (IH (kt_key e.1) c' tb0 m1 rc0 f (S n)); try done; [|lia].
    destruct Hbc as (B1 & B2 & B3). split_and!; [by rewrite E1|by rewrite E2|by rewrite E2]. }
  rewrite Hturn. destruct (decide (kt_key e.1 = prev)) as [Hsame|Hnew].
  - rewrite (turn_same prev) by done. cbn [mbind outcome_bind].
    assert (compacted now has_overlap prev (e :: es) = compacted now has_overlap (kt_key e.1) es) as Ec.
    { unfold compacted. cbn [newest_versions]. by rewrite bool_decide_eq_true_2, Hsame by done. }
    rewrite Ec in *. apply Hleave; [lia|by rewrite Hsame|done|done].
  - destruct (turn_new prev context tb rc e) as (c & -> & Hbc & Esc); [done|done|done|by eapply has_room_capacity|].
    cbn [mbind outcome_bind].
    assert (stats_below n c) as Hsc by (unfold stats_below; by rewrite Esc).
    assert (compacted now has_overlap prev (e :: es) =
      if survives now has_overlap e then e :: compacted now has_overlap (kt_key e.1) es
      else compacted now has_overlap (kt_key e.1) es) as Ec.
    { unfold compacted. cbn [newest_versions]. rewrite bool_decide_eq_false_2 by done.
      rewrite filter_cons. by destruct (survives now has_overlap e). }
    rewrite Ec in *. destruct (survives now has_overlap e); [|by apply Hleave; [lia|..]].
    rewrite fmap_cons in Hroom |- *. destruct Hroom as [_ (tb1 & Hpush & Hroom)].
    assert (vptr_len_of e.2 = Ok (ptr_len e.2)) as Evp.
    { unfold ptr_len, vptr_len_of. destruct (Meta_contains _ _) eqn:Em; [|done].
      destruct (Hp Em) as (vp & -> & _). done. }
    rewrite Evp. cbn [mbind outcome_bind]. unfold push_item in Hpush. cbn [as_item it_stale it_kv it_vptr_len fst snd] in Hpush.
    rewrite Hpush. cbn [mbind outcome_bind]. rewrite Hturn, (turn_same (kt_key e.1)) by done. cbn [mbind outcome_bind].
    destruct (Hleave fuel c tb1 (rc + 1)) as (tb' & m' & c' & E1 & E2 & E3); [lia|done|done|done|].
    exists tb', m', c'. split_and!; [done| |done]. unfold push_items. cbn [fold_outcome].
    unfold push_item at 2. cbn [as_item it_stale it_kv it_vptr_len fst snd]. rewrite Hpush. done.
Qed.

End AddKeysLemmas.

(** ** The newest versions *)

Lemma KeyTs_lt_inv a b :
  KeyTs_cmp a b = Lt → bytes_cmp (kt_key a) (kt_key b) = Lt ∨ (kt_key a = kt_key b ∧ (kt_ts b < kt_ts a)%Z).
Proof.
  unfold KeyTs_cmp, then_cmp. destruct (bytes_cmp (kt_key a) (kt_key b)) eqn:E; [|by left|done].
  intros C%Z.compare_lt_iff. right. split; [by apply bytes_cmp_eq|done].
Qed.

(** [e] is the newest version of its key in [es]. *)
Definition newest (es : list version) (e : version) : Prop :=
  e ∈ es ∧ ∀ e', e' ∈ es → kt_key e'.1 = kt_key e.1 → (kt_ts e'.1 <= kt_ts e.1)%Z.

Lemma newest_versions_spec es : ∀ prev e,
  StronglySorted version_lt es → Forall (λ e, bytes_cmp prev (kt_key e.1) ≠ Gt) es →
  (e ∈ newest_versions prev es ↔ newest es e ∧ kt_key e.1 ≠ prev).
Proof.
  induction es as [|x es IH]; intros prev e Hs Hp; [unfold newest; cbn; set_solver|].
  apply StronglySorted_inv in Hs as [Hs Hx]. apply Forall_cons in Hp as [Hpx Hp]. rewrite Forall_forall in Hx.
  assert (∀ y, y ∈ es → bytes_cmp (kt_key x.1) (kt_key y.1) ≠ Gt ∧ (kt_key y.1 = kt_key x.1 → (kt_ts y.1 < kt_ts x.1)%Z)) as Hord.
  { intros y Hy. destruct (KeyTs_lt_inv x.1 y.1 (Hx y Hy)) as [E|[E1 E2]].
    - split; [by rewrite E|]. intros E'. rewrite E', bytes_cmp_refl in E. done.
    - rewrite E1, bytes_cmp_refl. done. }
  cbn [newest_versions]. destruct (decide (kt_key x.1 = prev)) as [Heq|Hne].
  - rewrite bool_decide_eq_true_2, IH by done. unfold newest. split.
    + intros [[He Hnew] Hk]. split; [split; [set_solver|]|done]. intros e' [->|He']%elem_of_cons Hk'; [congruence|auto].
    + intros [[[->|He]%elem_of_cons Hnew] Hk]; [done|]. split; [split; [done|]|done]. intros e' He'. apply Hnew. set_solver.
  - rewrite bool_decide_eq_false_2, elem_of_cons, (IH (kt_key x.1)) by (done || (apply Forall_forall; intros y Hy; by apply Hord)).
    unfold newest. split.
    + intros [->|[[He Hnew] Hk]].
      * split; [split; [set_solver|]|done]. intros e' [->|He']%elem_of_cons Hk'; [done|]. destruct (Hord e' He'). lia || (assert (kt_ts e'.1 < kt_ts x.1)%Z by auto; lia).
      * split; [split; [set_solver|]|].
        -- intros e' [->|He']%elem_of_cons Hk'; [congruence|auto].
        -- intros Ek. destruct (bytes_cmp prev (kt_key x.1)) eqn:C; [apply bytes_cmp_eq in C; congruence| |done].
           destruct (Hord e He) as [Hle _]. apply Hle. rewrite Ek, bytes_cmp_antisym, C. done.
    + intros [[[->|He]%elem_of_cons Hnew] Hk]; [by left|]. right. split; [split; [done|]|].
      * intros e' He'. apply Hnew. set_solver.
      * intros Ek. destruct (Hord e He) as [_ Hlt]. specialize (Hlt Ek). specialize (Hnew x ltac:(set_solver) (eq_sym Ek)). lia.
Qed.

Lemma compacted_spec now has_overlap es e :
  sorted_versions es → (e ∈ compacted now has_overlap [] es ↔ newest es e ∧ survives now has_overlap e = true).
Proof.
  intros [Hs Hok]. unfold compacted. rewrite list_elem_of_filter, newest_versions_spec.
  - split; [intros (? & ? & ?); done|]. intros [Hn Hsv]. split_and!; [done|done|].
    rewrite Forall_forall in Hok. by destruct (Hok e (proj1 Hn)).
  - done.
  - apply Forall_forall. intros x _. by destruct (kt_key x.1).
Qed.

(** ** The builder *)

Section BuilderLemmas.
Context `{!VarInt, !ChecksumCodec, !Compressor, !Aead, !TableIndexFb}.

Lemma finish_cur_block_hashes tb tb' : finish_cur_block tb = Ok tb' → tb_key_hashes tb' = tb_key_hashes tb.
Proof. unfold finish_cur_block. intros E. returned. Qed.

Lemma push_internal_hashes tb k v l st tb' :
  push_internal tb k v l st = Ok tb' → length (tb_key_hashes tb') = S (length (tb_key_hashes tb)).
Proof.
  unfold push_internal. intros E. apply bind_Ok in E as (full & _ & E). apply bind_Ok in E as (tb1 & E1 & E).
  apply bind_Ok in E as (cur & _ & E). apply bind_Ok in E as (od & _ & E). injection E as <-. cbn [tb_key_hashes].
  rewrite length_app, Nat.add_1_r. do 2 f_equal. destruct full; [|by injection E1 as ->].
  apply bind_Ok in E1 as (tb2 & E2 & E1). apply finish_cur_block_hashes in E1. rewrite E1.
  destruct st; [|by injection E2 as ->]. by returned.
Qed.

Lemma push_items_hashes its : ∀ tb tb',
  push_items tb its = Ok tb' → length (tb_key_hashes tb') = length (tb_key_hashes tb) + length its.
Proof.
  unfold push_items. induction its as [|i its IH]; intros tb tb' E; cbn [fold_outcome length] in *.
  - injection E as ->. lia.
  - apply bind_Ok in E as (tb1 & E1 & E). rewrite (IH _ _ E).
    assert (length (tb_key_hashes tb1) = S (length (tb_key_hashes tb))); [|lia].
    unfold push_item, push, push_stale in E1. destruct (it_stale i); [|by eapply push_internal_hashes].
    apply bind_Ok in E1 as (a & _ & E1). apply bind_Ok in E1 as (n & _ & E1). apply bind_Ok in E1 as (s & _ & E1).
    apply push_internal_hashes in E1. done.
Qed.

End BuilderLemmas.

(** ** One split of a compaction *)

Lemma merge_new_back_temp fuel iters m : merge_new_loop fuel iters = Some m → mg_back_temp_key m = [].
Proof.
  destruct (decide (3 <= length iters)) as [Hl|Hl]; cycle 1.
  { destruct iters as [|a [|b [|c iters]]], fuel; cbn [length] in Hl; try lia; try done; by intros [= <-]. }
  destruct fuel as [|fuel]; [by destruct iters as [|a [|b [|c iters]]]; cbn [length] in Hl; try lia|].
  rewrite merge_new_split by done. destruct (merge_new_loop fuel (take _ _)) as [l|]; [|done].
  destruct (merge_new_loop fuel (drop _ _)) as [r|]; [|done]. by intros [= <-].
Qed.

Section SubCompact.
Context `{!VarInt, !ChecksumCodec, !Compressor, !Aead, !TableIndexFb, !ManifestCodec, !TableOrder}.
Context (turns d : nat) (m : SinkMergeIter).
Context (ctl : Controller) (plan : CompactPlan Table) (key_range : KeyTsRange).
Context (config : TableConfig) (cipher : option AesCipher) (now discard_ts : Z).
Context (has_overlap : bool) (size : Z).
Context (Hleft : KeyTs_is_empty (kr_left key_range) = true) (Hright : KeyTs_is_empty (kr_right key_range) = true).
Context (Hoverlap : check_overlap (ct_levels ctl) (pl_top plan ++ pl_bottom plan)
                      (Z.to_nat (hd_level (pl_next_level plan)) + 1) = Ok has_overlap).
Context (Hsize : tg_file_size (cp_targets (pl_priority plan)) !! Z.to_nat (hd_level (pl_next_level plan)) = Some size).

Abbreviation tb0 := (TableBuilder_new (set_table_size config (Z.to_nat size)) cipher).
Abbreviation run fuel page stats :=
  (sub_compact turns d fuel page ctl plan key_range config cipher now discard_ts stats m).

Lemma first_next ms e rest :
  runs merge_key merge_value (Merge_next turns d) m None ms → mg_back_temp_key m = [] → ms = e :: rest →
  ∃ m1, Merge_next turns d m = Ok (true, m1) ∧ shows turns d m1 e rest.
Proof.
  intros Hr Hb ->. destruct Hr as (_ & _ & m1 & Hn & Hr). exists m1. split; [done|]. split; [done|].
  by destruct (loop_back_temp _ _ _ _ _ Hb Hn).
Qed.

(** The start of the loop, at a merge that shows a version. *)
Lemma sub_compact_start fuel page stats m1 e rest :
  Merge_next turns d m = Ok (true, m1) → shows turns d m1 e rest →
  run (S fuel) page stats =
    '(builders, context) ←
      ('(builder, iter, context) ←
         add_keys turns d (S fuel) ctl plan key_range now discard_ts has_overlap tb0 m1 AddKeyContext_default;
       if TableBuilder_is_empty builder then
         _ ← TableBuilder_finish builder;
         sub_compact_loop turns d fuel ctl plan key_range config cipher now discard_ts has_overlap iter context
       else
         '(builders, context) ←
           sub_compact_loop turns d fuel ctl plan key_range config cipher now discard_ts has_overlap iter context;
         Ok (builder :: builders, context));
    stats ← record_discards page stats (map_to_list (ac_discard_stats context));
    Ok (builders, stats).
Proof.
  intros Hn Hs. unfold sub_compact. rewrite Hoverlap, Hleft, Hn. cbn [mbind outcome_bind sub_compact_loop].
  rewrite (merge_key_valid m1 _ (shows_key _ _ _ _ _ Hs)), Hright. cbn [mbind outcome_bind].
  rewrite (idx_Ok _ _ _ Hsize). done.
Qed.

Lemma sub_compact_keeps ms fuel page stats :
  runs merge_key merge_value (Merge_next turns d) m None ms → mg_back_temp_key m = [] →
  ct_num_versions_to_keep ctl = 1 → Forall (discardable discard_ts) ms →
  2 * length ms + 1 < fuel → (Z.of_nat (length ms) * 2 ^ 32 < 2 ^ 64)%Z →
  has_room tb0 (as_item now <$> compacted now has_overlap [] ms) → compacted now has_overlap [] ms ≠ [] →
  ∃ tb discards, push_items tb0 (as_item now <$> compacted now has_overlap [] ms) = Ok tb ∧
    run fuel page stats = (stats ← record_discards page stats discards; Ok ([tb], stats)).
Proof.
  intros Hr Hb Hkeep Hall Hf Hbound Hroom Hne. destruct ms as [|e rest] eqn:Ems; [done|]. rewrite <- Ems in *.
  destruct (first_next ms e rest Hr Hb Ems) as (m1 & Hn & Hs). destruct fuel as [|[|fuel]]; [lia|lia|].
  rewrite (sub_compact_start _ page stats m1 e rest Hn Hs).
  destruct (add_keys_loop_keeps turns d ctl plan key_range now discard_ts has_overlap Hright Hkeep ms []
    AddKeyContext_default tb0 m1 0 (S (S fuel)) 0) as (tb & m2 & c & E & Ep & Hv).
  - by rewrite Ems.
  - done.
  - intros fid z. cbn. by rewrite lookup_empty.
  - done.
  - done.
  - lia.
  - done.
  - exists tb, (map_to_list (ac_discard_stats c)). split; [done|]. unfold add_keys. rewrite E. cbn [mbind outcome_bind].
    assert (TableBuilder_is_empty tb = false) as ->.
    { unfold TableBuilder_is_empty. apply Nat.eqb_neq. rewrite (push_items_hashes _ _ _ Ep), length_fmap.
      destruct (compacted _ _ _ _); [done|cbn; lia]. }
    cbn [sub_compact_loop]. rewrite Hv. done.
Qed.

Lemma sub_compact_stuck ms e rest fuel page stats r :
  runs merge_key merge_value (Merge_next turns d) m None ms → mg_back_temp_key m = [] → ms = e :: rest →
  version_ok e → (discard_ts < kt_ts e.1)%Z → reacded_capacity tb0 = Ok false →
  run fuel page stats ≠ Ok r.
Proof.
  intros Hr Hb Ems [Hk Hts] Hd Hcap E. destruct (first_next ms e rest Hr Hb Ems) as (m1 & Hn & Hs).
  destruct fuel as [|fuel]; [unfold sub_compact in E; rewrite Hoverlap, Hleft, Hn in E; done|].
  rewrite (sub_compact_start _ page stats m1 e rest Hn Hs) in E.
  apply bind_Ok in E as (x & E & _). apply bind_Ok in E as (y & E & _). revert E. unfold add_keys.
  cbn [add_keys_loop]. rewrite (merge_key_valid m1 _ (shows_key _ _ _ _ _ Hs)). cbn [mbind outcome_bind].
  rewrite (shows_key _ _ _ _ _ Hs), (shows_value _ _ _ _ _ Hs). cbn [mbind outcome_bind from_option id].
  unfold add_turn. cbn [plan_drop_prefixes existsb AddKeyContext_default ac_skip_key].
  change (KeyTs_is_empty KeyTs_default) with true. cbn [negb andb]. rewrite kb_key_serialize.
  unfold bytes_eqb. cbn [ac_last_key_ts]. rewrite bool_decide_eq_false_2 by done.
  rewrite (enter_key_ok ctl plan key_range Hright) by done. cbn [mbind outcome_bind].
  unfold decide_version. rewrite kb_txn_ts_serialize by done. rewrite (proj2 (Z.leb_gt _ _)) by done.
  cbn [andb]. intros E. apply bind_Ok in E as (l & _ & E). apply bind_Ok in E as (tb1 & _ & E). revert E.
  apply (add_keys_loop_stuck turns d ctl plan key_range now discard_ts has_overlap m1 e rest); try done.
  cbn. by rewrite kb_key_serialize.
Qed.

End SubCompact.

(** ** Seeking to the start of a split *)

Section SeekBelow.
Context `{!VarInt, !ChecksumCodec, !Compressor, !Aead, !TableIndexFb}.

(** A table is asked for a key below all of its own. *)
Lemma table_seek_below t gs es K :
  table_repr t gs → concat gs = ser_entries es → Forall version_ok es → gs ≠ [] → in_width 64 (kt_ts K) →
  (∀ e, e ∈ es → KeyTs_cmp K e.1 = Lt) →
  SinkTableIter_seek (Table_iter t) (KeyTs_serialize K) = Panic.
Proof.
  intros [Hgs Hlen _ (ib & Hib & Hkeys)] Hcat Hok Hne HK Hbelow.
  assert (length (tib_offsets ib) = length gs) as Hl
    by (apply (f_equal length) in Hkeys; by rewrite !length_fmap in Hkeys).
  assert (∀ i b, tib_offsets ib !! i = Some b → KeyTs_cmp (bob_key_ts b) K = Gt) as Hall.
  { intros i b Hb. assert ((bob_key_ts <$> tib_offsets ib) !! i = Some (bob_key_ts b)) as Hi by (by rewrite list_lookup_fmap, Hb).
    rewrite Hkeys, list_lookup_fmap in Hi. destruct (gs !! i) as [g|] eqn:Eg; [|done]. injection Hi as <-.
    rewrite Forall_lookup in Hgs. destruct (Hgs i g Eg) as [Hg _]. destruct g as [|[k v] g]; [done|]. cbn [base_of].
    assert ((k, v) ∈ concat gs) as Hin by (apply list_elem_of_In, in_concat; exists ((k, v) :: g); split;
      [by apply list_elem_of_In, (list_elem_of_lookup_2 _ i)|by left]).
    rewrite Hcat in Hin. unfold ser_entries in Hin. apply list_elem_of_fmap in Hin as (e & [= -> ->] & He).
    rewrite Forall_forall in Hok. destruct (Hok e He) as [Hk Hts]. rewrite KeyTs_from_serialize by done.
    rewrite KeyTs_cmp_flip, (Hbelow e He). done. }
  unfold SinkTableIter_seek. cbn [Table_iter si_inner]. rewrite Hib. cbn [mbind outcome_bind].
  destruct (binary_search_by_ok (tib_offsets ib) (λ b, KeyTs_cmp (bob_key_ts b) K)
    (λ b, Ok (KeyTs_cmp_borrow (bob_key_ts b) (KeyTs_serialize K)))) as (r & -> & Hr).
  - intros b _. by rewrite KeyTs_cmp_borrow_serialize.
  - intros i j x y _ Hx Hy. rewrite (Hall i x Hx), (Hall j y Hy). done.
  - cbn [mbind outcome_bind]. destruct r as [i|i].
    + destruct Hr as (b & Hb & E). by rewrite (Hall i b Hb) in E.
    + destruct Hr as (Hi & Hlo & _). destruct gs as [|g gs]; [done|]. cbn [length] in Hl.
      destruct (lookup_lt_is_Some_2 (tib_offsets ib) 0) as [b Hb]; [lia|].
      destruct i as [|i]; [|by specialize (Hall 0 b Hb); rewrite (Hlo 0 b ltac:(lia) Hb) in Hall].
      rewrite (proj2 (Nat.leb_gt _ _)) by lia. done.
Qed.

Lemma merge_new_some fuel : ∀ iters, iters ≠ [] → length iters <= fuel → ∃ m, merge_new_loop fuel iters = Some m.
Proof.
  induction fuel as [|fuel IH]; intros iters Hne Hl; [by destruct iters; cbn in Hl; [|lia]|].
  destruct (decide (3 <= length iters)) as [Hlong|Hlong]; cycle 1.
  { destruct iters as [|a [|b [|c iters]]]; cbn [length] in Hlong; try lia; [done|by eexists..]. }
  rewrite merge_new_split by done. pose proof (Nat.div_mod_eq (length iters) 2). pose proof (Nat.mod_upper_bound (length iters) 2).
  destruct (IH (take (length iters / 2) iters)) as [l ->];
    [intros E%(f_equal length); rewrite length_take in E; change (length (@nil SinkMergeNodeIter)) with 0 in E; lia|rewrite length_take; lia|].
  destruct (IH (drop (length iters / 2) iters)) as [r ->];
    [intros E%(f_equal length); rewrite length_drop in E; change (length (@nil SinkMergeNodeIter)) with 0 in E; lia|rewrite length_drop; lia|]. by eexists.
Qed.

(** The first iterator of a merge is asked first. *)
Lemma merge_seek_panics turns K fuel : ∀ d it iters m,
  (∀ d, node_iter_seek turns d it K = Panic) → length (it :: iters) <= fuel → length (it :: iters) <= d →
  merge_new_loop fuel (it :: iters) = Some m → Merge_seek turns d m K = Panic.
Proof.
  induction fuel as [|fuel IH]; intros d it iters m Hp Hf Hd Hm; [cbn in Hf; lia|].
  destruct (decide (3 <= length (it :: iters))) as [Hlong|Hlong]; cycle 1.
  { destruct iters as [|b [|c iters]]; cbn [length] in Hlong; try lia; injection Hm as <-;
      unfold Merge_seek, merge_seek, node_seek; cbn [mg_left MergeNode_from]; by rewrite Hp. }
  rewrite merge_new_split in Hm by done. destruct d as [|d]; [cbn in Hd; lia|].
  pose proof (Nat.div_mod_eq (length (it :: iters)) 2). pose proof (Nat.mod_upper_bound (length (it :: iters)) 2).
  destruct (length (it :: iters) / 2) as [|mid] eqn:Emid; [lia|]. cbn [take] in Hm.
  destruct (merge_new_loop fuel (it :: take mid iters)) as [l|] eqn:El; [|done].
  destruct (merge_new_loop fuel (drop (S mid) (it :: iters))) as [r|]; [|done]. cbn [mbind option_bind] in Hm. injection Hm as <-.
  assert (length (it :: take mid iters) = S mid) as Ht by (cbn [length] in *; rewrite length_take; lia).
  unfold Merge_seek, merge_seek, node_seek. cbn [mg_left MergeNode_from node_iter_seek].
  assert (Merge_seek turns d l K = Panic) as Hl by (apply (IH d it (take mid iters) l Hp); [rewrite Ht; lia|rewrite Ht; lia|done]).
  unfold Merge_seek in Hl. by rewrite Hl.
Qed.

End SeekBelow.

Lemma split_loop_head {T} `{!LevelTable T} (bottom : list T) : ∀ i len width skr,
  bottom ≠ [] → i + length bottom = len →
  ∃ r rest, split_loop bottom i len width skr = r :: rest ∧ kr_left r = kr_left skr.
Proof.
  induction bottom as [|t bottom IH]; intros i len width skr Hne Hlen; [done|]. cbn [split_loop length] in *.
  destruct (Nat.eqb_spec i (len - 1)) as [E|E]; [by eexists _, _|].
  destruct (_ =? _); [by eexists _, _|]. apply IH; [|lia]. intros ->. cbn in Hlen. lia.
Qed.

Lemma overlap_tables_total {T} `{!LevelTable T} (tables : list T) range : ∃ p, overlap_tables tables range = Ok p.
Proof.
  unfold overlap_tables. destruct (_ || _); [by eexists|].
  destruct (binary_search_total tables (λ t, KeyTs_cmp (biggest t) (kr_left range))) as (l & -> & _).
  destruct (binary_search_total tables (λ t, KeyTs_cmp (smallest t) (kr_right range))) as (r & -> & _). by eexists.
Qed.

Lemma check_overlap_total {T} `{!LevelTable T} (levels : list (LevelHandler T)) tables n :
  check_overlap levels tables n = Panic ∨ ∃ b, check_overlap levels tables n = Ok b.
Proof.
  unfold check_overlap, slice_from. destruct (_ <=? _); [|by left]. cbn [mbind outcome_bind]. right.
  induction (drop n levels) as [|h rest IH]; [by eexists|]. cbn [check_overlap_loop].
  destruct (overlap_tables_total (ht_tables (hd_inner h)) (range_of_tables tables)) as ([l r] & ->). cbn [mbind outcome_bind].
  destruct (_ <? _); [by eexists|done].
Qed.

(** A union with nothing is the list itself. *)
Lemma union_with_nothing es ms : sorted_versions es → sorted_union [es; []] ms → ms = es.
Proof.
  intros [Hs Hok] ([Hs' Hok'] & He & Hc). cbn [concat] in He, Hc. rewrite app_nil_r in He, Hc.
  assert (∀ l : list version, StronglySorted version_lt l → NoDup l) as Hnd.
  { intros l Hl. induction Hl as [|x l Hl IH Hx]; constructor; [|done]. rewrite Forall_forall in Hx. intros Hin.
    specialize (Hx x Hin). unfold version_lt in Hx. by rewrite (cmp_refl KeyTs_cmp) in Hx. }
  assert (∀ x y, x ∈ es → y ∈ es → x.1 = y.1 → x = y) as Hinj.
  { clear -Hs. induction Hs as [|z l Hl IH Hz]; intros x y Hx Hy E; [by apply not_elem_of_nil in Hx|].
    rewrite Forall_forall in Hz. unfold version_lt in Hz.
    apply elem_of_cons in Hx as [->|Hx], Hy as [->|Hy]; [done| | |by apply IH].
    - specialize (Hz y Hy). by rewrite E, (cmp_refl KeyTs_cmp) in Hz.
    - specialize (Hz x Hx). by rewrite E, (cmp_refl KeyTs_cmp) in Hz. }
  assert (ms ≡ₚ es) as Hperm.
  { apply NoDup_Permutation; [by apply Hnd|by apply Hnd|]. intros x. split; [apply He|]. intros Hx.
    destruct (Hc x Hx) as (y & Hy & E). by rewrite <- (Hinj y x (He y Hy) Hx E). }
  assert (AntiSymm (=) version_lt) as Hanti.
  { intros x y Hxy Hyx. exfalso. apply (cmp_lt_irrefl KeyTs_cmp x.1). by eapply (cmp_lt_trans KeyTs_cmp x.1 y.1). }
  by eapply (StronglySorted_unique version_lt).
Qed.

(* ------------------------------------------------------------------ *)
(** ** Properties *)

Section CompactionTheorems.
Context `{!VarInt, !VarIntLaws, !ChecksumCodec, !Compressor, !Aead, !TableIndexFb, !ManifestCodec, !TableOrder}.

(** C13: compacting one split that spans all keys, over 2, 4, 8, ... iterators, when
    one version of a key is to be kept, every version is at or below the discard
    timestamp and none is a merge entry, and the builder has room: the pass returns
    with one builder, which was given exactly the newest version of each key the
    iterators yield, in order, except deleted or expired ones when no lower level
    overlaps - as long as some entry is kept.  A concatenating iterator, through which
    the tables of the next level are read, yields nothing and so contributes nothing
    ([source_concat]); with a version above the discard timestamp the pass does not
    return ([compaction_of_new_version_stuck]). *)
Theorem compaction_keeps_newest turns d k iters ess :
  3 <= turns → k <= d → length iters = 2 ^ S k → Forall2 source iters ess →
  ∃ m ms, SinkMergeIter_new iters = Some m ∧ sorted_union ess ms ∧
    ∀ fuel page ctl plan key_range config cipher now discard_ts stats has_overlap size,
      KeyTs_is_empty (kr_left key_range) = true → KeyTs_is_empty (kr_right key_range) = true →
      ct_num_versions_to_keep ctl = 1 →
      check_overlap (ct_levels ctl) (pl_top plan ++ pl_bottom plan)
        (Z.to_nat (hd_level (pl_next_level plan)) + 1) = Ok has_overlap →
      tg_file_size (cp_targets (pl_priority plan)) !! Z.to_nat (hd_level (pl_next_level plan)) = Some size →
      Forall (discardable discard_ts) (concat ess) →
      2 * length ms + 1 < fuel → (Z.of_nat (length ms) * 2 ^ 32 < 2 ^ 64)%Z →
      let tb0 := TableBuilder_new (set_table_size config (Z.to_nat size)) cipher in
      let kept := compacted now has_overlap [] ms in
      has_room tb0 (as_item now <$> kept) → kept ≠ [] →
      (∀ e, e ∈ kept ↔ newest ms e ∧ survives now has_overlap e = true) ∧
      ∃ tb discards, push_items tb0 (as_item now <$> kept) = Ok tb ∧
        sub_compact turns d fuel page ctl plan key_range config cipher now discard_ts stats m =
          (stats ← record_discards page stats discards; Ok ([tb], stats)).
Proof.
  intros Ht Hd Hlen Hsrc. unfold SinkMergeIter_new.
  destruct (merge_tree_runs turns Ht k (length iters) d iters ess Hd) as (m & ms & Em & Hr & Hu);
    [lia|done|by apply sources_leaves|]. exists m, ms. split; [done|]. split; [done|].
  intros fuel page ctl plan key_range config cipher now discard_ts stats has_overlap size
    Hl Hri Hkeep Hov Hsz Hall Hf Hb Hroom Hne. split; [intros e; apply compacted_spec; apply Hu|].
  apply sub_compact_keeps; try done; [by eapply merge_new_back_temp|].
  rewrite Forall_forall in Hall |- *. intros e He. by apply Hall, Hu.
Qed.

(** When the first version of the tables is newer than what may be discarded,
    the pass never returns: it pushes that version until memory or the counters
    run out. *)
Theorem compaction_of_new_version_stuck turns d k iters ess :
  3 <= turns → k <= d → length iters = 2 ^ S k → Forall2 source iters ess →
  ∃ m ms, SinkMergeIter_new iters = Some m ∧ sorted_union ess ms ∧
    ∀ e rest, ms = e :: rest →
    ∀ fuel page ctl plan key_range config cipher now discard_ts stats has_overlap size r,
      KeyTs_is_empty (kr_left key_range) = true → KeyTs_is_empty (kr_right key_range) = true →
      check_overlap (ct_levels ctl) (pl_top plan ++ pl_bottom plan)
        (Z.to_nat (hd_level (pl_next_level plan)) + 1) = Ok has_overlap →
      tg_file_size (cp_targets (pl_priority plan)) !! Z.to_nat (hd_level (pl_next_level plan)) = Some size →
      reacded_capacity (TableBuilder_new (set_table_size config (Z.to_nat size)) cipher) = Ok false →
      (discard_ts < kt_ts e.1)%Z →
      sub_compact turns d fuel page ctl plan key_range config cipher now discard_ts stats m ≠ Ok r.
Proof.
  intros Ht Hd Hlen Hsrc. unfold SinkMergeIter_new.
  destruct (merge_tree_runs turns Ht k (length iters) d iters ess Hd) as (m & ms & Em & Hr & Hu);
    [lia|done|by apply sources_leaves|]. exists m, ms. split; [done|]. split; [done|].
  intros e rest Ems fuel page ctl plan key_range config cipher now discard_ts stats has_overlap size r Hl Hri Hov Hsz Hcap Hts.
  eapply sub_compact_stuck; try done; [by eapply merge_new_back_temp|].
  destruct Hu as [[_ Hok] _]. rewrite Ems in Hok. by apply Forall_cons in Hok as [? _].
Qed.

(** A compaction into another level whose tables overlap panics: the first
    split begins below every key of the table it is asked of, and seeking below
    the first key of a table panics. *)
Theorem compaction_into_overlap_panics turns d fuel page keep w level plan config cipher now discard_ts t gs es :
  length (pl_top plan) < d →
  pl_splits plan = [] → pl_bottom plan ≠ [] → hd_level (pl_this_level plan) ≠ hd_level (pl_next_level plan) →
  tg_file_size (cp_targets (pl_priority plan)) ≠ [] →
  (if (level =? LEVEL0)%Z then last (pl_top plan) = Some t else pl_top plan = [t]) →
  table_repr t gs → concat gs = ser_entries es → Forall version_ok es → gs ≠ [] →
  let left := kr_left (range_extend (pl_this_range plan) (pl_next_range plan)) in
  KeyTs_is_empty left = false → in_width 64 (kt_ts left) → (∀ e, e ∈ es → KeyTs_cmp left e.1 = Lt) →
  run_compact turns d fuel page keep w level plan config cipher now discard_ts = Panic.
Proof.
  intros Hd Hspl Hbot Hlev Hfs Htop Hrep Hcat Hok Hgs left Hle Hw Hbelow. unfold run_compact.
  destruct (length (tg_file_size _) =? 0) eqn:E; [apply Nat.eqb_eq, nil_length_inv in E; done|]. rewrite Hspl.
  cbn [length Nat.eqb assert_or_panic mbind outcome_bind]. unfold plan_splits. rewrite (proj2 (Z.eqb_neq _ _)) by done.
  destruct (split_loop_head (pl_bottom plan) 0 (length (pl_bottom plan)) (split_width (length (pl_bottom plan)))
    (range_extend (pl_this_range plan) (pl_next_range plan))) as (kr & rest & Esp & Ekr); [done|done|].
  set (p := add_splits plan). assert (pl_splits p = kr :: rest) as Ep by done. rewrite Ep. cbn [length Nat.eqb].
  unfold compact_build_tables. rewrite Ep. cbn [compact_splits].
  assert (∃ its, new_iters level p = Ok (NodeTable (Table_iter t) :: its) ∧ length its <= length (pl_top plan)) as (its & -> & Hits).
  { unfold new_iters. change (pl_top p) with (pl_top plan). destruct (level =? LEVEL0)%Z.
    - apply last_Some in Htop as [l ->]. rewrite reverse_snoc, fmap_cons. cbn [mbind outcome_bind].
      exists (((λ t, NodeTable (Table_iter t)) <$> reverse l) ++ [NodeTableConcat (SinkTableConcatIter_new (valid_bottom p))]).
      split; [done|]. rewrite !length_app, length_fmap, length_reverse. done.
    - rewrite Htop. cbn [mbind outcome_bind]. eexists. split; [reflexivity|]. done. }
  cbn [mbind outcome_bind]. unfold SinkMergeIter_new.
  destruct (merge_new_some (length (NodeTable (Table_iter t) :: its)) (NodeTable (Table_iter t) :: its)) as [m Em]; [done|done|].
  rewrite Em. unfold sub_compact.
  destruct (check_overlap_total (cw_levels w) (pl_top p ++ pl_bottom p) (Z.to_nat (hd_level (pl_next_level p)) + 1))
    as [Eo|[b Eo]]; cbn [ct_levels]; rewrite Eo; [done|]. cbn [mbind outcome_bind]. rewrite Ekr. fold left. rewrite Hle.
  rewrite (merge_seek_panics turns (KeyTs_serialize left) (length (NodeTable (Table_iter t) :: its)) d (NodeTable (Table_iter t)) its m);
    [done| |done|cbn; lia|done].
  intros d'. destruct d'; cbn [node_iter_seek]; by rewrite (table_seek_below t gs es).
Qed.

End CompactionTheorems.

(** ** Witnesses *)

Module CompactionExamples.
Import BuildExamples SeekExamples MergeExamples ManifestExamples.

Definition es : list version := concat ess.

Definition sources : list SinkMergeNodeIter :=
  [NodeTable (Table_iter the_table); NodeTableConcat (SinkTableConcatIter_new [])].

Lemma sources_ok : Forall2 source sources [es; []].
Proof. apply Forall2_cons; split; [apply the_table_source|]. apply Forall2_cons; split; [apply source_concat|]. constructor. Defined.

Definition targets : CompactTargets := mkTargets 2 [0; 0; 0] [4096; 4096; 4096]%Z.

(** One table of level 1 goes down to an empty level 2, or onto itself. *)
Definition plan_down (bottom : list Table) : CompactPlan Table :=
  mkPlan 0 (mkPriority 1 f64_one f64_one [] targets) (init_tables (LevelHandler_new 1) [the_table])
    (init_tables (LevelHandler_new 2) bottom) [the_table] (range_of_table the_table) bottom
    (range_of_tables bottom) 0 [].

Definition levels (bottom : list Table) : list (LevelHandler Table) :=
  [LevelHandler_new 0; init_tables (LevelHandler_new 1) [the_table]; init_tables (LevelHandler_new 2) bottom].

Definition no_stats : DiscardStats := mkDiscardStats (mkMmapFile [] 0 [] 0 0 0 []) 0.

Lemma es_discardable : Forall (discardable 9) es.
Proof.
  repeat (apply Forall_cons; split; [split_and!; [split; vm_compute; [|split]; congruence|vm_compute; congruence|reflexivity|intros; discriminate]|]).
  constructor.
Defined.

Lemma the_union ms : sorted_union [es; []] ms → ms = es.
Proof. apply union_with_nothing, versions_sorted. Defined.

Lemma es_room :
  has_room (TableBuilder_new (set_table_size plain_config (Z.to_nat 4096)) None)
    (as_item 0 <$> compacted 0 false [] es).
Proof.
  change (compacted 0 false [] es) with es. 
  repeat (split; [vm_compute; reflexivity|]; eexists; split; [vm_compute; reflexivity|]).
  split; [vm_compute; reflexivity|done].
Defined.

Lemma compaction_keeps_newest_witness :
  ∃ m tb ds, SinkMergeIter_new sources = Some m ∧
    push_items (TableBuilder_new (set_table_size plain_config (Z.to_nat 4096)) None) (as_item 0 <$> es) = Ok tb ∧
    sub_compact 3 0 20 64 (mkController (levels []) 1) (plan_down []) KeyTsRange_default plain_config None 0 9 no_stats m =
      (stats ← record_discards 64 no_stats ds; Ok ([tb], stats)).
Proof.
  destruct (compaction_keeps_newest 3 0 0 sources [es; []]) as (m & ms & Em & Hu & Hrun);
    [lia|lia|reflexivity|apply sources_ok|].
  apply the_union in Hu as ->.
  destruct (Hrun 20 64 (mkController (levels []) 1) (plan_down []) KeyTsRange_default plain_config None 0%Z 9%Z no_stats
    false 4096%Z) as (_ & tb & ds & Ep & Es).
  - reflexivity.
  - reflexivity.
  - reflexivity.
  - reflexivity.
  - reflexivity.
  - change (concat [es; []]) with (es ++ []). rewrite app_nil_r. apply es_discardable.
  - vm_compute. lia.
  - reflexivity.
  - apply es_room.
  - discriminate.
  - exists m, tb, ds. split; [exact Em|]. split; [exact Ep|exact Es].
Defined.

Lemma compaction_of_new_version_stuck_witness :
  ∃ m, SinkMergeIter_new sources = Some m ∧ ∀ fuel r,
    sub_compact 3 0 fuel 64 (mkController (levels []) 1) (plan_down []) KeyTsRange_default plain_config None 0 4 no_stats m ≠ Ok r.
Proof.
  destruct (compaction_of_new_version_stuck 3 0 0 sources [es; []]) as (m & ms & Em & Hu & Hrun);
    [lia|lia|reflexivity|apply sources_ok|].
  apply the_union in Hu as ->. exists m. split; [exact Em|]. intros fuel r.
  eapply (Hrun _ _ eq_refl).
  - reflexivity.
  - reflexivity.
  - reflexivity.
  - reflexivity.
  - vm_compute. reflexivity.
  - reflexivity.
Defined.

Definition world : CompactWorld := mkWorld (levels [the_table]) opened 7 no_stats.

Lemma compaction_into_overlap_panics_witness :
  run_compact 3 2 20 64 1 world 1 (plan_down [the_table]) plain_config None 0 9 = Panic.
Proof.
  apply (compaction_into_overlap_panics 3 2 20 64 1 world 1 (plan_down [the_table]) plain_config None 0 9 the_table
    (ser_entries <$> ess) es).
  - cbn. lia.
  - reflexivity.
  - discriminate.
  - discriminate.
  - discriminate.
  - reflexivity.
  - apply the_table_repr.
  - reflexivity.
  - apply versions_sorted.
  - discriminate.
  - vm_compute. reflexivity.
  - vm_compute. split; congruence.
  - apply Forall_forall. repeat (apply Forall_cons; split; [vm_compute; reflexivity|]). constructor.
Defined.

End CompactionExamples.
