(* ===== verification/Trie.v ===== *)
(** * Trie: the index of subscribed prefixes

    [Trie] of src/src/util/tire.rs.  A subscription is a prefix with a list of
    ignored positions ([Match] of the protobuf definitions); the trie maps the
    path of a match, a list of bytes and ignored positions, to the subscribers
    registered there.  A [HashMap] of children is an association list with
    unique keys, in the order of the insertions; the order is not observable,
    since a look-up answers with a set. *)
From stdpp Require Import base list gmap strings.
From Stdlib Require Import ZArith Lia.
From S2P Require Import Prelude Text.

Local Open Scope nat_scope.

(** ** Data *)

Inductive TrieNode : Type :=
| mkTrieNode (ids : list Z) (children : list (Z * TrieNode)) (ignore : option TrieNode).

Definition tn_ids (n : TrieNode) : list Z := let 'mkTrieNode ids _ _ := n in ids.
Definition tn_children (n : TrieNode) : list (Z * TrieNode) := let 'mkTrieNode _ ch _ := n in ch.
Definition tn_ignore (n : TrieNode) : option TrieNode := let 'mkTrieNode _ _ ig := n in ig.

Definition TrieNode_default : TrieNode := mkTrieNode [] [] None.

Record Trie : Type := mkTrie { tr_root : TrieNode }.

Definition Trie_default : Trie := mkTrie TrieNode_default.

Definition TrieNode_is_empty (n : TrieNode) : bool :=
  (length (tn_ids n) =? 0) && (length (tn_children n) =? 0) &&
  match tn_ignore n with None => true | Some _ => false end.

(** The fields of the protobuf message [Match] the trie reads. *)
Record Match : Type := mkMatch {
  ma_prefix : list Z;
  ma_ignore_bytes : list Z
}.

Inductive Operation : Type := OpSet | OpDel.

Definition InvalidRange : error := EMsg "Invalid range".
Definition ParseError : error := EMsg "Failed to parse to int".

(* ------------------------------------------------------------------ *)
(** ** Ignored positions: a text such as [0, 3-5, 7] *)

Definition USIZE_MAX : Z := 2 ^ 64 - 1.

(** [while out.len() <= n { out.push(false) }] *)
Definition extend_to (out : list bool) (n : nat) : list bool :=
  out ++ replicate (S n - length out) false.

(** [for i in start..=end { out[i] = true }] *)
Definition set_range (out : list bool) (start stop : nat) : list bool :=
  foldl (λ o i, <[i := true]> o) out (seq start (S stop - start)).

(** One turn of the loop over the pieces between commas. *)
Definition parse_range (out : list bool) (each : list Z) : outcome (list bool) :=
  let r := trim <$> split_on 45 (trim each) in
  match r with
  | [a] =>
      match parse_uint USIZE_MAX a with
      | Some start => Ok (<[Z.to_nat start := true]> (extend_to out (Z.to_nat start)))
      | None => Err ParseError
      end
  | [a; b] =>
      match parse_uint USIZE_MAX a with
      | Some start =>
          let out := <[Z.to_nat start := true]> (extend_to out (Z.to_nat start)) in
          match parse_uint USIZE_MAX b with
          | Some stop =>
              Ok (set_range (extend_to out (Z.to_nat stop)) (Z.to_nat start) (Z.to_nat stop))
          | None => Err ParseError
          end
      | None => Err ParseError
      end
  | _ => Err InvalidRange
  end.

Definition parse_ignore_bytes (ignore : list Z) : outcome (list bool) :=
  match ignore with
  | [] => Ok []
  | _ => fold_outcome parse_range [] (split_on 44 (trim ignore))
  end.

(* ------------------------------------------------------------------ *)
(** ** Operations *)

(** [children.get(&b)] and [children.insert(b, n)] or the update in place through
    [get_mut]. *)
Fixpoint child_get (b : Z) (l : list (Z * TrieNode)) : option TrieNode :=
  match l with
  | [] => None
  | (c, n) :: l' => if (c =? b)%Z then Some n else child_get b l'
  end.

Fixpoint child_set (b : Z) (n : TrieNode) (l : list (Z * TrieNode)) : list (Z * TrieNode) :=
  match l with
  | [] => [(b, n)]
  | (c, m) :: l' => if (c =? b)%Z then (c, n) :: l' else (c, m) :: child_set b n l'
  end.

Definition set_ignore (n : TrieNode) (g : TrieNode) : TrieNode :=
  mkTrieNode (tn_ids n) (tn_children n) (Some g).

Definition set_child (n : TrieNode) (b : Z) (c : TrieNode) : TrieNode :=
  mkTrieNode (tn_ids n) (child_set b c (tn_children n)) (tn_ignore n).

(** One step of the path of a match: an ignored position or a byte. *)
Definition step : Type := option Z.

(** [fix], from a node on: the loop over the positions of the prefix and the
    update of the identifiers where it ends. *)
Fixpoint fix_path (op : Operation) (id : Z) (p : list step) (cur : TrieNode) : TrieNode :=
  match p with
  | [] =>
      let ids := match op with
                 | OpSet => tn_ids cur ++ [id]
                 | OpDel => filter (λ x, x ≠ id) (tn_ids cur)
                 end in
      mkTrieNode ids (tn_children cur) (tn_ignore cur)
  | None :: p' =>
      match tn_ignore cur, op with
      | None, OpDel => cur
      | None, OpSet => set_ignore cur (fix_path op id p' TrieNode_default)
      | Some g, _ => set_ignore cur (fix_path op id p' g)
      end
  | Some b :: p' =>
      match child_get b (tn_children cur), op with
      | None, OpDel => cur
      | None, OpSet => set_child cur b (fix_path op id p' TrieNode_default)
      | Some c, _ => set_child cur b (fix_path op id p' c)
      end
  end.

(** The positions of the prefix, each ignored or a byte; [ignore] is padded with
    [false]. *)
Fixpoint match_path (ignore : list bool) (prefix : list Z) : list step :=
  match prefix with
  | [] => []
  | b :: prefix' =>
      (if hd false ignore then None else Some b) :: match_path (tl ignore) prefix'
  end.

Definition path_of (m : Match) : outcome (list step) :=
  ignore ← parse_ignore_bytes (ma_ignore_bytes m);
  Ok (match_path ignore (ma_prefix m)).

Definition Trie_fix (t : Trie) (m : Match) (id : Z) (op : Operation) : outcome Trie :=
  p ← path_of m;
  Ok (mkTrie (fix_path op id p (tr_root t))).

Definition push_match (t : Trie) (m : Match) (id : Z) : outcome Trie := Trie_fix t m id OpSet.

Definition Trie_push (t : Trie) (prefix : list Z) (id : Z) : outcome Trie :=
  push_match t (mkMatch prefix []) id.

(** [remove_empty]: the node without its empty descendants; the code returns
    with it whether the node itself is empty. *)
Fixpoint remove_empty (cur : TrieNode) : TrieNode :=
  match cur with
  | mkTrieNode ids ch ig =>
      let ig' := match ig with
                 | Some g => let g' := remove_empty g in
                             if TrieNode_is_empty g' then None else Some g'
                 | None => None
                 end in
      let ch' := (fix go (l : list (Z * TrieNode)) : list (Z * TrieNode) :=
                    match l with
                    | [] => []
                    | (k, n) :: l' =>
                        let n' := remove_empty n in
                        if TrieNode_is_empty n' then go l' else (k, n') :: go l'
                    end) ch in
      mkTrieNode ids ch' ig'
  end.

Definition delete_match (t : Trie) (m : Match) (id : Z) : outcome Trie :=
  t ← Trie_fix t m id OpDel;
  Ok (mkTrie (remove_empty (tr_root t))).

(** [get_iter]: the ignored branch is searched with the same key, a child with
    the rest of it. *)
Fixpoint get_iter (cur : TrieNode) (key : list Z) : gset Z :=
  match cur with
  | mkTrieNode ids ch ig =>
      match key with
      | [] => list_to_set ids
      | b :: key' =>
          list_to_set ids
          ∪ (match ig with Some g => get_iter g key | None => ∅ end)
          ∪ (fix go (l : list (Z * TrieNode)) : gset Z :=
               match l with
               | [] => ∅
               | (c, n) :: l' => if (c =? b)%Z then get_iter n key' else go l'
               end) ch
      end
  end.

Definition Trie_get (t : Trie) (key : list Z) : gset Z := get_iter (tr_root t) key.

(* ------------------------------------------------------------------ *)
(** ** What a trie holds *)

(** Induction over a node and all below it. *)
Fixpoint TrieNode_tree_ind (P : TrieNode → Prop)
  (H : ∀ ids ch ig, Forall (λ kn, P kn.2) ch → (∀ g, ig = Some g → P g) → P (mkTrieNode ids ch ig))
  (n : TrieNode) {struct n} : P n :=
  match n with
  | mkTrieNode ids ch ig =>
      H ids ch ig
        ((fix go (l : list (Z * TrieNode)) : Forall (λ kn, P kn.2) l :=
            match l with
            | [] => Forall_nil_2 _
            | kn :: l' => Forall_cons_2 (λ kn, P kn.2) kn l' (TrieNode_tree_ind P H kn.2) (go l')
            end) ch)
        (match ig with
         | Some g => λ g' (E : Some g = Some g'), eq_ind g P (TrieNode_tree_ind P H g) g' (Some_inj _ _ E)
         | None => λ g' (E : None = Some g'), match eq_ind None (λ o, if o is None then True else False) I _ E with end
         end)
  end.

(** The branch of a node that a step takes, and the node at the end of a path. *)
Definition branch (s : step) (n : TrieNode) : option TrieNode :=
  match s with
  | None => tn_ignore n
  | Some b => child_get b (tn_children n)
  end.

Fixpoint node_at (p : list step) (n : TrieNode) : option TrieNode :=
  match p with
  | [] => Some n
  | s :: p' => branch s n ≫= node_at p'
  end.

(** The subscribers registered at a path. *)
Definition registered (p : list step) (n : TrieNode) : list Z :=
  match node_at p n with Some m => tn_ids m | None => [] end.

(** The keys that a path announces: a byte of the path takes a byte of the key,
    an ignored position takes none but wants the key not to be at its end. *)
Fixpoint path_matches (p : list step) (key : list Z) : bool :=
  match p, key with
  | [], _ => true
  | _ :: _, [] => false
  | None :: p', _ :: _ => path_matches p' key
  | Some b :: p', c :: key' => (b =? c)%Z && path_matches p' key'
  end.

(** Children have unique keys, at every node. *)
Inductive node_wf : TrieNode → Prop :=
| node_wf_intro ids ch ig :
    NoDup ch.*1 →
    (∀ s m, branch s (mkTrieNode ids ch ig) = Some m → node_wf m) →
    node_wf (mkTrieNode ids ch ig).

Lemma registered_cons s p n :
  registered (s :: p) n = match branch s n with Some m => registered p m | None => [] end.
Proof. unfold registered. cbn. by destruct (branch s n). Qed.

Lemma registered_default p : registered p TrieNode_default = [].
Proof. destruct p as [|[b|] p]; done. Qed.

Lemma child_get_in b l m : child_get b l = Some m → ∃ k, (k, m) ∈ l.
Proof.
  induction l as [|[c n] l IH]; cbn; [done|]. case_if.
  - intros [= ->]. exists c. constructor.
  - intros (k & Hk)%IH. exists k. by constructor.
Qed.

(** Induction along branches. *)
Lemma branch_ind (P : TrieNode → Prop) :
  (∀ n, (∀ s m, branch s n = Some m → P m) → P n) → ∀ n, P n.
Proof.
  intros H n. induction n as [ids ch ig Hch Hig] using TrieNode_tree_ind.
  apply H. intros [b|] m Hb; cbn in Hb; [|by apply Hig].
  apply child_get_in in Hb as [k Hk]. by apply (Forall_forall _ ch) with (x := (k, m)) in Hch.
Qed.

Lemma child_get_set b c n l :
  child_get b (child_set c n l) = if (c =? b)%Z then Some n else child_get b l.
Proof.
  induction l as [|[k m] l IH]; cbn; [done|].
  destruct (k =? c)%Z eqn:Hkc; cbn.
  - apply Z.eqb_eq in Hkc as ->. by destruct (c =? b)%Z.
  - rewrite IH. destruct (k =? b)%Z eqn:Hkb, (c =? b)%Z eqn:Hcb; try done.
    apply Z.eqb_eq in Hkb, Hcb. apply Z.eqb_neq in Hkc. congruence.
Qed.

Lemma child_set_keys c n l :
  (child_set c n l).*1 = if decide (c ∈ l.*1) then l.*1 else l.*1 ++ [c].
Proof.
  induction l as [|[k m] l IH]; [done|]. cbn [child_set].
  destruct (k =? c)%Z eqn:Hkc; rewrite !fmap_cons; cbn [fst].
  - apply Z.eqb_eq in Hkc as ->. rewrite decide_True; [done|constructor].
  - apply Z.eqb_neq in Hkc. rewrite IH.
    destruct (decide (c ∈ l.*1)) as [Hin|Hin].
    + rewrite decide_True by by constructor. done.
    + rewrite decide_False; [done|]. intros [->|?]%elem_of_cons; done.
Qed.

Lemma child_set_nodup c n l : NoDup l.*1 → NoDup (child_set c n l).*1.
Proof.
  rewrite child_set_keys. case_decide as Hc; [done|]. intros Hnd.
  apply NoDup_app. split_and!; [done| |apply NoDup_singleton].
  intros x Hx ->%list_elem_of_singleton. done.
Qed.

(* ------------------------------------------------------------------ *)
(** ** Look-ups *)

Definition below (s : step) (key : list Z) (n : TrieNode) : gset Z :=
  match branch s n with Some m => get_iter m key | None => ∅ end.

Lemma get_iter_cons n b key :
  get_iter n (b :: key) = list_to_set (tn_ids n) ∪ below None (b :: key) n ∪ below (Some b) key n.
Proof.
  destruct n as [ids ch ig]. cbn [get_iter tn_ids]. unfold below. cbn [branch tn_ignore tn_children].
  f_equal. induction ch as [|[c m] ch IH]; cbn; [done|]. by destruct (c =? b)%Z.
Qed.

Lemma get_iter_spec n key id :
  id ∈ get_iter n key ↔ ∃ p, id ∈ registered p n ∧ path_matches p key = true.
Proof.
  revert key. induction n as [n IH] using branch_ind. intros [|b key].
  - destruct n as [ids ch ig]. cbn. rewrite elem_of_list_to_set. split.
    + intros Hid. by exists [].
    + intros ([|s p] & Hid & Hm); [done|]. by destruct s.
  - rewrite get_iter_cons, !elem_of_union, elem_of_list_to_set. unfold below. split.
    + intros [[Hid|Hid]|Hid]; [by exists []| |].
      * destruct (branch None n) as [m|] eqn:Hb; [|set_solver].
        apply (IH None m Hb) in Hid as (p & Hid & Hm).
        exists (None :: p). by rewrite registered_cons, Hb.
      * destruct (branch (Some b) n) as [m|] eqn:Hb; [|set_solver].
        apply (IH _ m Hb) in Hid as (p & Hid & Hm).
        exists (Some b :: p). rewrite registered_cons, Hb. cbn. by rewrite Z.eqb_refl.
    + intros ([|s p] & Hid & Hm); [by left; left|]. rewrite registered_cons in Hid.
      destruct (branch s n) as [m|] eqn:Hb; [|set_solver].
      destruct s as [c|]; cbn in Hm; bool_to_prop; subst.
      * right. rewrite Hb. apply (IH _ m Hb). by exists p.
      * left; right. rewrite Hb. apply (IH _ m Hb). by exists p.
Qed.

(* ------------------------------------------------------------------ *)
(** ** Updates *)

(** What an update does to the subscribers of its path. *)
Definition update_ids (op : Operation) (id : Z) (ids : list Z) : list Z :=
  match op with
  | OpSet => ids ++ [id]
  | OpDel => filter (λ x, x ≠ id) ids
  end.

Definition set_branch (s : step) (n m : TrieNode) : TrieNode :=
  match s with
  | None => set_ignore n m
  | Some b => set_child n b m
  end.

(** The two kinds of steps of [fix] alike. *)
Lemma fix_path_cons op id s p n :
  fix_path op id (s :: p) n =
  match branch s n, op with
  | None, OpDel => n
  | None, OpSet => set_branch s n (fix_path op id p TrieNode_default)
  | Some m, _ => set_branch s n (fix_path op id p m)
  end.
Proof. by destruct s. Qed.

Lemma branch_set_branch s s' n m :
  branch s' (set_branch s n m) = if decide (s' = s) then Some m else branch s' n.
Proof.
  destruct s as [b|], s' as [c|]; cbn; try by rewrite decide_False.
  - rewrite child_get_set. destruct (b =? c)%Z eqn:E.
    + apply Z.eqb_eq in E as ->. by rewrite decide_True.
    + apply Z.eqb_neq in E. by rewrite decide_False by congruence.
  - by rewrite decide_True.
Qed.

Lemma set_branch_ids s n m : tn_ids (set_branch s n m) = tn_ids n.
Proof. by destruct s. Qed.

(** An update changes the subscribers of its own path and of no other. *)
Lemma registered_fix_path op id p n q :
  registered q (fix_path op id p n) =
  if decide (q = p) then update_ids op id (registered p n) else registered q n.
Proof.
  revert n q. induction p as [|s p IH]; intros n q.
  - destruct q as [|s q].
    + rewrite decide_True by done. by destruct op.
    + rewrite decide_False by done. rewrite !registered_cons. destruct n. by destruct s.
  - rewrite fix_path_cons.
    assert (∀ m, registered q (set_branch s n (fix_path op id p m)) =
      match q with
      | [] => registered [] n
      | s' :: q' => if decide (s' = s)
                    then (if decide (q' = p) then update_ids op id (registered p m) else registered q' m)
                    else registered q n
      end) as Hset.
    { intros m. destruct q as [|s' q']; [apply set_branch_ids|].
      rewrite registered_cons, branch_set_branch. case_decide; [apply IH|]. by rewrite registered_cons. }
    rewrite (registered_cons s p n). destruct q as [|s' q'].
    + rewrite (decide_False (P := [] = _)) by done. destruct (branch s n), op; rewrite ?Hset; done.
    + destruct (decide (s' = s)) as [->|Hs].
      * rewrite (registered_cons s q' n). destruct (branch s n) as [m|] eqn:Hb; [|destruct op].
        -- rewrite Hset. repeat case_decide; congruence.
        -- rewrite Hset, !registered_default. repeat case_decide; try congruence.
        -- rewrite registered_cons, Hb. by destruct (decide (s :: q' = s :: p)).
      * rewrite (decide_False (P := _ :: _ = _)) by congruence.
        destruct (branch s n), op; rewrite ?Hset; done.
Qed.

Lemma node_wf_branch n s m : node_wf n → branch s n = Some m → node_wf m.
Proof. intros [ids ch ig _ H]. apply H. Qed.

Lemma node_wf_default : node_wf TrieNode_default.
Proof. constructor; [constructor|]. intros [b|] m; done. Qed.

Lemma node_wf_set_branch s n m : node_wf n → node_wf m → node_wf (set_branch s n m).
Proof.
  intros Hn Hm.
  assert (∀ s' m', branch s' (set_branch s n m) = Some m' → node_wf m') as Hb.
  { intros s' m'. rewrite branch_set_branch. case_decide; [congruence|]. by apply node_wf_branch. }
  destruct Hn as [ids ch ig Hnd _]. destruct s as [b|]; constructor; try done.
  by apply child_set_nodup.
Qed.

Lemma node_wf_fix_path op id p n : node_wf n → node_wf (fix_path op id p n).
Proof.
  revert n. induction p as [|s p IH]; intros n Hn.
  - destruct Hn as [ids ch ig Hnd Hb]. constructor; [done|]. intros s m. apply (Hb s m).
  - rewrite fix_path_cons. destruct (branch s n) as [m|] eqn:Hb; [|destruct op].
    + apply node_wf_set_branch; [done|]. apply IH. by apply (node_wf_branch n s).
    + apply node_wf_set_branch; [done|]. apply IH. apply node_wf_default.
    + done.
Qed.

(* ------------------------------------------------------------------ *)
(** ** Removing empty nodes *)

Definition keep_nonempty (n : TrieNode) : option TrieNode :=
  if TrieNode_is_empty n then None else Some n.

Definition prune_children (ch : list (Z * TrieNode)) : list (Z * TrieNode) :=
  omap (λ kn, pair kn.1 <$> keep_nonempty (remove_empty kn.2)) ch.

Lemma remove_empty_eq n :
  remove_empty n = mkTrieNode (tn_ids n) (prune_children (tn_children n))
                     (tn_ignore n ≫= λ g, keep_nonempty (remove_empty g)).
Proof.
  destruct n as [ids ch ig]. cbn [remove_empty tn_ids tn_children tn_ignore]. f_equal.
  induction ch as [|[k n] ch IH]; [done|]. cbn zeta iota beta. rewrite IH.
  unfold prune_children. cbn. unfold keep_nonempty.
  by destruct (TrieNode_is_empty (remove_empty n)).
Qed.

Lemma prune_children_keys k ch : k ∈ (prune_children ch).*1 → k ∈ ch.*1.
Proof.
  intros ([k' m] & -> & Hin)%list_elem_of_fmap. unfold prune_children in Hin.
  apply list_elem_of_omap in Hin as ([k n] & Hin & E). cbn in E.
  destruct (keep_nonempty _); simplify_eq/=. apply list_elem_of_fmap. by exists (k', n).
Qed.

Lemma prune_children_nodup ch : NoDup ch.*1 → NoDup (prune_children ch).*1.
Proof.
  induction ch as [|[k n] ch IH]; [done|]. rewrite fmap_cons. cbn [fst].
  intros [Hk Hnd]%NoDup_cons. unfold prune_children. cbn.
  destruct (keep_nonempty (remove_empty n)); cbn; [|by apply IH].
  constructor; [|by apply IH]. intros Hin. by apply Hk, prune_children_keys.
Qed.

Lemma child_get_none b l : b ∉ l.*1 → child_get b l = None.
Proof.
  induction l as [|[k n] l IH]; [done|]. rewrite fmap_cons, not_elem_of_cons. cbn.
  intros [Hk Hl]. rewrite (proj2 (Z.eqb_neq _ _)) by congruence. by apply IH.
Qed.

Lemma child_get_prune b ch :
  NoDup ch.*1 → child_get b (prune_children ch) = child_get b ch ≫= λ n, keep_nonempty (remove_empty n).
Proof.
  induction ch as [|[k n] ch IH]; [done|]. rewrite fmap_cons. cbn [fst].
  intros [Hk Hnd]%NoDup_cons. unfold prune_children. cbn.
  destruct (k =? b)%Z eqn:E; cbn.
  - apply Z.eqb_eq in E as ->. destruct (keep_nonempty (remove_empty n)) as [m|]; cbn.
    + by rewrite Z.eqb_refl.
    + apply child_get_none. intros Hin. by apply Hk, prune_children_keys.
  - destruct (keep_nonempty (remove_empty n)) as [m|]; cbn; rewrite ?E; by apply IH.
Qed.

Lemma branch_remove_empty s n :
  node_wf n → branch s (remove_empty n) = branch s n ≫= λ m, keep_nonempty (remove_empty m).
Proof.
  intros [ids ch ig Hnd _]. rewrite remove_empty_eq. destruct s as [b|]; [|done].
  by apply child_get_prune.
Qed.

Lemma keep_nonempty_some n m : keep_nonempty n = Some m ↔ m = n ∧ TrieNode_is_empty n = false.
Proof. unfold keep_nonempty. destruct (TrieNode_is_empty n); naive_solver. Qed.

Lemma node_wf_remove_empty n : node_wf n → node_wf (remove_empty n).
Proof.
  induction n as [n IH] using branch_ind. intros Hn.
  assert (∀ s m, branch s (remove_empty n) = Some m → node_wf m) as Hb.
  { intros s m. rewrite branch_remove_empty by done. destruct (branch s n) as [c|] eqn:Hb; [|done].
    cbn. intros [-> _]%keep_nonempty_some. apply (IH s c Hb). by apply (node_wf_branch n s). }
  rewrite remove_empty_eq in *. constructor; [|done].
  destruct Hn. by apply prune_children_nodup.
Qed.

Lemma registered_empty n p : TrieNode_is_empty n = true → registered p n = [].
Proof.
  destruct n as [[|i ids] [|[k c] ch] [g|]]; try done. intros _. apply registered_default.
Qed.

(** Removing empty nodes removes no subscriber. *)
Lemma registered_remove_empty n p : node_wf n → registered p (remove_empty n) = registered p n.
Proof.
  revert n. induction p as [|s p IH]; intros n Hn.
  - by rewrite remove_empty_eq.
  - rewrite !registered_cons, branch_remove_empty by done.
    destruct (branch s n) as [m|] eqn:Hb; [|done]. cbn.
    rewrite <- (IH m) by by apply (node_wf_branch n s). unfold keep_nonempty.
    destruct (TrieNode_is_empty (remove_empty m)) eqn:He; [|done]. by rewrite registered_empty.
Qed.

(** No node below the root is empty. *)
Definition lean (n : TrieNode) : Prop :=
  ∀ p m, p ≠ [] → node_at p n = Some m → TrieNode_is_empty m = false.

Lemma lean_remove_empty n : node_wf n → lean (remove_empty n).
Proof.
  induction n as [n IH] using branch_ind. intros Hn [|s p] m Hp; [done|]. cbn.
  rewrite branch_remove_empty by done. destruct (branch s n) as [c|] eqn:Hb; [|done]. cbn.
  destruct (keep_nonempty (remove_empty c)) as [c'|] eqn:Hk; [|done]. cbn.
  apply keep_nonempty_some in Hk as [-> Hne].
  destruct p as [|s' p]; [by intros [= <-]|].
  apply (IH s c Hb); [by apply (node_wf_branch n s)|done].
Qed.

(** A trie without empty nodes and without subscribers is the fresh one. *)
Lemma lean_unregistered n : lean n → (∀ p, registered p n = []) → n = TrieNode_default.
Proof.
  induction n as [n IH] using branch_ind. intros Hl Hr.
  assert (∀ s, branch s n = None) as Hb.
  { intros s. destruct (branch s n) as [m|] eqn:Hb; [|done]. exfalso.
    assert (TrieNode_is_empty m = false) as Hne by (apply (Hl [s]); [done|cbn; by rewrite Hb]).
    rewrite (IH s m Hb) in Hne; [done| |].
    - intros p m' Hp Hm. apply (Hl (s :: p)); [done|]. cbn. by rewrite Hb.
    - intros p. specialize (Hr (s :: p)). by rewrite registered_cons, Hb in Hr. }
  pose proof (Hr []) as Hids. destruct n as [ids [|[k c] ch] ig].
  - pose proof (Hb None) as Hig. cbn in Hig, Hids. by subst.
  - specialize (Hb (Some k)). cbn in Hb. by rewrite Z.eqb_refl in Hb.
Qed.

(* ------------------------------------------------------------------ *)
(** ** The trie as a list of subscriptions *)

(** A subscription is the path of a match and a subscriber. *)
Definition ids_at (p : list step) (subs : list (list step * Z)) : list Z :=
  (filter (λ s, s.1 = p) subs).*2.

(** The subscribers a key concerns. *)
Definition concerned (subs : list (list step * Z)) (key : list Z) : gset Z :=
  list_to_set (filter (λ s, path_matches s.1 key = true) subs).*2.

Inductive TrieOp : Type :=
| PushMatch (m : Match) (id : Z)
| DeleteMatch (m : Match) (id : Z).

Definition trie_step (t : Trie) (o : TrieOp) : outcome Trie :=
  match o with
  | PushMatch m id => push_match t m id
  | DeleteMatch m id => delete_match t m id
  end.

(** The specification: subscriptions are listed, and withdrawn by value. *)
Definition subs_step (subs : list (list step * Z)) (o : TrieOp) : outcome (list (list step * Z)) :=
  match o with
  | PushMatch m id => p ← path_of m; Ok (subs ++ [(p, id)])
  | DeleteMatch m id => p ← path_of m; Ok (filter (λ s, s ≠ (p, id)) subs)
  end.

Record trie_holds (t : Trie) (subs : list (list step * Z)) : Prop := {
  th_wf : node_wf (tr_root t);
  th_ids : ∀ p, registered p (tr_root t) = ids_at p subs
}.

(** What two runs of operations, one after the other, have in common. *)
Definition both {A B} (R : A → B → Prop) (x : outcome A) (y : outcome B) : Prop :=
  match x, y with
  | Ok a, Ok b => R a b
  | Err e, Err e' => e = e'
  | Panic, Panic => True
  | _, _ => False
  end.

Lemma ids_at_cons q r j subs :
  ids_at q ((r, j) :: subs) = if decide (r = q) then j :: ids_at q subs else ids_at q subs.
Proof. unfold ids_at. rewrite filter_cons. cbn [fst]. by destruct (decide (r = q)). Qed.

Lemma ids_at_push p id subs q :
  ids_at q (subs ++ [(p, id)]) = if decide (q = p) then ids_at p subs ++ [id] else ids_at q subs.
Proof.
  unfold ids_at. rewrite filter_app, fmap_app.
  destruct (decide (q = p)) as [->|Hne].
  - by rewrite filter_cons_True.
  - rewrite filter_cons_False by (cbn; congruence). by rewrite filter_nil, app_nil_r.
Qed.

Lemma ids_at_delete p id subs q :
  ids_at q (filter (λ s, s ≠ (p, id)) subs) =
  if decide (q = p) then filter (λ x, x ≠ id) (ids_at p subs) else ids_at q subs.
Proof.
  induction subs as [|[r j] subs IH]; [by case_decide|].
  rewrite filter_cons, !ids_at_cons. destruct (decide (r = p)) as [->|Hr].
  - destruct (decide (j = id)) as [->|Hj].
    + rewrite decide_False by naive_solver. rewrite IH. destruct (decide (q = p)) as [->|Hq].
      * by rewrite filter_cons_False by naive_solver.
      * by rewrite decide_False.
    + rewrite decide_True by congruence. rewrite ids_at_cons, IH.
      destruct (decide (q = p)) as [->|Hq].
      * by rewrite decide_True, filter_cons_True.
      * by rewrite decide_False.
  - rewrite decide_True by congruence. rewrite ids_at_cons, IH.
    destruct (decide (q = p)) as [->|Hq]; [|done]. by rewrite decide_False.
Qed.

Lemma trie_holds_default : trie_holds Trie_default [].
Proof. split; [apply node_wf_default|]. intros p. apply registered_default. Qed.

Lemma trie_step_holds t subs o :
  trie_holds t subs → both trie_holds (trie_step t o) (subs_step subs o).
Proof.
  intros [Hwf Hids]. destruct o as [m id|m id]; cbn; unfold push_match, delete_match, Trie_fix;
    destruct (path_of m) as [p|e|]; cbn; try done.
  - split; [by apply node_wf_fix_path|]. intros q. cbn.
    rewrite registered_fix_path, ids_at_push, !Hids. done.
  - assert (node_wf (fix_path OpDel id p (tr_root t))) by by apply node_wf_fix_path.
    split; cbn; [by apply node_wf_remove_empty|]. intros q.
    rewrite registered_remove_empty, registered_fix_path, ids_at_delete, !Hids by done. done.
Qed.

Lemma trie_get_holds t subs key : trie_holds t subs → Trie_get t key = concerned subs key.
Proof.
  intros [_ Hids]. apply set_eq. intros id. unfold Trie_get, concerned.
  rewrite get_iter_spec, elem_of_list_to_set, list_elem_of_fmap. setoid_rewrite Hids.
  unfold ids_at. setoid_rewrite list_elem_of_fmap. setoid_rewrite list_elem_of_filter. split.
  - intros (p & ([q j] & -> & <- & Hin) & Hm). by exists (q, j).
  - intros ([q j] & -> & Hm & Hin). exists q. split; [|done]. by exists (q, j).
Qed.

(** Failing operations leave the trie as it is. *)
Definition run_trie (t : Trie) (ops : list TrieOp) : Trie :=
  foldl (λ t o, match trie_step t o with Ok t' => t' | _ => t end) t ops.

Definition run_subs (subs : list (list step * Z)) (ops : list TrieOp) : list (list step * Z) :=
  foldl (λ s o, match subs_step s o with Ok s' => s' | _ => s end) subs ops.

Lemma run_trie_holds t subs ops :
  trie_holds t subs → trie_holds (run_trie t ops) (run_subs subs ops).
Proof.
  revert t subs. induction ops as [|o ops IH]; intros t subs H; [done|]. cbn. apply IH.
  pose proof (trie_step_holds t subs o H) as Hb.
  destruct (trie_step t o), (subs_step subs o); cbn in Hb; done.
Qed.

Lemma concerned_spec subs key id :
  id ∈ concerned subs key ↔ ∃ p, (p, id) ∈ subs ∧ path_matches p key = true.
Proof.
  unfold concerned. rewrite elem_of_list_to_set, list_elem_of_fmap.
  setoid_rewrite list_elem_of_filter. split.
  - intros ([p j] & -> & Hm & Hin). by exists p.
  - intros (p & Hin & Hm). by exists (p, id).
Qed.

(** After any sequence of registrations and withdrawals, a look-up answers
    with the subscribers of the matches in force whose path the key matches,
    and an operation fails exactly when the specification does. *)
Theorem trie_refines ops o key :
  let t := run_trie Trie_default ops in
  let subs := run_subs [] ops in
  Trie_get t key = concerned subs key ∧ both trie_holds (trie_step t o) (subs_step subs o).
Proof.
  cbn. pose proof (run_trie_holds _ _ ops trie_holds_default) as H.
  split; [by apply trie_get_holds|by apply trie_step_holds].
Qed.

(** A trie from which the last subscription is withdrawn is the fresh trie:
    no node stays allocated. *)
Theorem trie_reclaims ops m id t :
  delete_match (run_trie Trie_default ops) m id = Ok t →
  run_subs [] (ops ++ [DeleteMatch m id]) = [] → t = Trie_default.
Proof.
  intros Hd Hs. pose proof (run_trie_holds _ _ ops trie_holds_default) as H.
  pose proof (trie_step_holds _ _ (DeleteMatch m id) H) as Hb.
  unfold run_subs in Hs. rewrite foldl_app in Hs. cbn in Hs. change (trie_step _ _) with
    (delete_match (run_trie Trie_default ops) m id) in Hb. rewrite Hd in Hb.
  unfold delete_match, Trie_fix in Hd. cbn in Hb. unfold run_subs in Hb.
  destruct (path_of m) as [p|e|]; cbn in Hd, Hs, Hb; try done. injection Hd as <-.
  destruct Hb as [Hwf Hids]. f_equal. apply lean_unregistered.
  - apply lean_remove_empty, node_wf_fix_path, (th_wf _ _ H).
  - intros q. cbn in Hids. rewrite Hids, Hs. done.
Qed.

(* ------------------------------------------------------------------ *)
(** ** The text of ignored positions *)

(** One position, or the positions from one to another, inclusive. *)
Definition range : Type := Z * option Z.

Definition render_range (r : range) : list Z :=
  match r.2 with
  | None => decimal r.1
  | Some stop => decimal r.1 ++ 45%Z :: decimal stop
  end.

Definition render (rs : list range) : list Z := join 44 (render_range <$> rs).

Definition range_ok (r : range) : Prop :=
  (0 ≤ r.1 ≤ USIZE_MAX)%Z ∧ match r.2 with Some stop => (0 ≤ stop ≤ USIZE_MAX)%Z | None => True end.

(** A range covers its first position even when its end is before it. *)
Definition covers (r : range) (i : nat) : Prop :=
  i = Z.to_nat r.1 ∨
  match r.2 with Some stop => Z.to_nat r.1 ≤ i ≤ Z.to_nat stop | None => False end.

Definition ignored (out : list bool) (i : nat) : Prop := out !! i = Some true.

Lemma extend_to_ignored out n i : ignored (extend_to out n) i ↔ ignored out i.
Proof.
  unfold ignored, extend_to. rewrite lookup_app. destruct (out !! i) as [b|]; [done|].
  split; [|done]. intros [H _]%lookup_replicate. done.
Qed.

Lemma extend_to_length out n : n < length (extend_to out n).
Proof. unfold extend_to. rewrite length_app, length_replicate. lia. Qed.

Lemma insert_ignored out n i :
  n < length out → ignored (<[n := true]> out) i ↔ i = n ∨ ignored out i.
Proof.
  intros Hn. unfold ignored. destruct (decide (i = n)) as [->|Hne].
  - rewrite list_lookup_insert_eq by done. naive_solver.
  - rewrite list_lookup_insert_ne by done. naive_solver.
Qed.

Lemma fold_insert_length (l : list nat) (o : list bool) :
  length (foldl (λ o i, <[i := true]> o) o l) = length o.
Proof. revert o. induction l as [|x l IH]; intros o; cbn; [done|]. by rewrite IH, length_insert. Qed.

Lemma set_range_ignored out start stop i :
  stop < length out → ignored (set_range out start stop) i ↔ start ≤ i ≤ stop ∨ ignored out i.
Proof.
  unfold set_range. intros Hl. destruct (decide (S stop ≤ start)) as [Hlt|Hge].
  { replace (S stop - start) with 0 by lia. cbn. naive_solver lia. }
  assert (start + (S stop - start) ≤ length out) as Hk by lia.
  assert (∀ k, start + k ≤ length out →
    ignored (foldl (λ o i, <[i := true]> o) out (seq start k)) i ↔ start ≤ i < start + k ∨ ignored out i) as H.
  { clear. intros k. induction k as [|k IH]; intros Hk; [cbn; naive_solver lia|].
    rewrite seq_S, foldl_app. cbn. rewrite insert_ignored by (rewrite fold_insert_length; lia).
    rewrite IH by lia. naive_solver lia. }
  rewrite H by lia. split; (intros [?|?]; [left; lia|by right]).
Qed.

Lemma render_range_parts r :
  range_ok r → plain (render_range r) ∧ (44%Z ∉ render_range r) ∧
  (trim <$> split_on 45 (trim (render_range r))) =
    match r.2 with None => [decimal r.1] | Some stop => [decimal r.1; decimal stop] end.
Proof.
  destruct r as [a [b|]]; intros [Ha Hb]; unfold render_range; cbn [fst snd] in *;
    unfold USIZE_MAX in *.
  - destruct (decimal_spec a) as (Hda & _ & _); [lia|]. destruct (decimal_spec b) as (Hdb & _ & _); [lia|].
    assert (plain (decimal a ++ 45%Z :: decimal b)) as Hp.
    { apply Forall_app; split; [by apply digits_plain|]. constructor; [done|]. by apply digits_plain. }
    split_and!; [exact Hp| |].
    + rewrite not_elem_of_app, not_elem_of_cons. split_and!; [|done|]; by apply digits_no_sep.
    + rewrite trim_plain by exact Hp. rewrite split_on_app by by apply digits_no_sep.
      rewrite split_on_none by by apply digits_no_sep. cbn [fmap list_fmap]. by rewrite !trim_plain by by apply digits_plain.
  - destruct (decimal_spec a) as (Hda & _ & _); [lia|]. split_and!.
    + by apply digits_plain.
    + by apply digits_no_sep.
    + rewrite trim_plain by by apply digits_plain. rewrite split_on_none by by apply digits_no_sep.
      cbn [fmap list_fmap]. by rewrite trim_plain by by apply digits_plain.
Qed.

Lemma parse_range_render out r :
  range_ok r →
  ∃ out', parse_range out (render_range r) = Ok out' ∧ ∀ i, ignored out' i ↔ covers r i ∨ ignored out i.
Proof.
  intros Hr. destruct (render_range_parts r Hr) as (_ & _ & Hs).
  unfold parse_range. rewrite Hs. destruct r as [a [b|]], Hr as [Ha Hb]; cbn [fst snd] in *.
  - rewrite !parse_uint_decimal by (unfold USIZE_MAX in *; lia). eexists. split; [reflexivity|].
    intros i. rewrite set_range_ignored, extend_to_ignored, insert_ignored, extend_to_ignored
      by (apply extend_to_length). unfold covers. cbn. naive_solver.
  - rewrite parse_uint_decimal by (unfold USIZE_MAX in *; lia). eexists. split; [reflexivity|].
    intros i. rewrite insert_ignored, extend_to_ignored by (apply extend_to_length).
    unfold covers. cbn. naive_solver.
Qed.

Lemma parse_ranges_render rs out :
  Forall range_ok rs →
  ∃ out', fold_outcome parse_range out (render_range <$> rs) = Ok out' ∧
          ∀ i, ignored out' i ↔ (∃ r, r ∈ rs ∧ covers r i) ∨ ignored out i.
Proof.
  intros H. revert out. induction H as [|r rs Hr Hrs IH]; intros out.
  - exists out. split; [done|]. set_solver.
  - destruct (parse_range_render out r Hr) as (out1 & Hp & H1). cbn. rewrite Hp. cbn.
    destruct (IH out1) as (out' & -> & H'). exists out'. split; [done|]. intros i. rewrite H', H1.
    setoid_rewrite elem_of_cons. naive_solver.
Qed.

(** The text of a list of positions and ranges is parsed, and exactly the
    positions the list covers are ignored. *)
Theorem ignore_bytes_roundtrip rs :
  Forall range_ok rs →
  ∃ out, parse_ignore_bytes (render rs) = Ok out ∧ ∀ i, ignored out i ↔ ∃ r, r ∈ rs ∧ covers r i.
Proof.
  intros H. destruct rs as [|r0 rs0]; [exists []; split; [done|]; intros i; unfold ignored; rewrite lookup_nil; set_solver|].
  remember (r0 :: rs0) as rs eqn:Hrs.
  assert (Forall plain (render_range <$> rs)) as Hp.
  { apply Forall_fmap. eapply Forall_impl; [exact H|]. intros r Hr. by apply render_range_parts. }
  assert (Forall (λ p, 44%Z ∉ p) (render_range <$> rs)) as Hs.
  { apply Forall_fmap. eapply Forall_impl; [exact H|]. intros r Hr. by apply render_range_parts. }
  assert (plain (render rs)) as Hpl by by apply plain_join.
  assert (split_on 44 (trim (render rs)) = render_range <$> rs) as Hsplit.
  { rewrite trim_plain by done. apply split_on_join; [by subst|done]. }
  destruct (parse_ranges_render rs [] H) as (out & Hf & Ho).
  exists out. split; [|intros i; rewrite Ho; unfold ignored; rewrite lookup_nil; naive_solver].
  unfold parse_ignore_bytes. rewrite Hsplit. destruct (render rs) as [|c l] eqn:E; [|exact Hf].
  exfalso. rewrite trim_plain in Hsplit by done. subst. cbn in Hsplit, Hf, H.
  apply Forall_cons in H as [Hr _]. injection Hsplit as E1 _.
  destruct (render_range_parts r0 Hr) as (_ & _ & Hc). rewrite <- E1 in Hc. cbn in Hc.
  destruct r0 as [a [b|]]; cbn in Hc; [done|]. injection Hc as Hc. destruct Hr as [Ha _]; cbn in Ha.
  destruct (decimal_spec a) as (_ & Hne & _); [unfold USIZE_MAX in Ha; lia|]. done.
Qed.

(* ------------------------------------------------------------------ *)
(** ** On concrete tries *)

Module TrieExamples.

Definition text (s : string) : list Z := bytes_of_string s.
Definition plain_match (s : string) : Match := mkMatch (text s) [].

(** The cases of the tests of the code. *)
Example parse_texts :
  parse_ignore_bytes (text "1") = Ok [false; true] ∧
  parse_ignore_bytes (text "0") = Ok [true] ∧
  parse_ignore_bytes (text "0 , 3 - 5 ,7 ") = Ok [true; false; false; true; true; true; false; true] ∧
  parse_ignore_bytes (text "1-2-3") = Err InvalidRange ∧
  parse_ignore_bytes (text "1,,2") = Err ParseError.
Proof. vm_compute. split_and!; reflexivity. Qed.

Definition pushes : list TrieOp :=
  [PushMatch (plain_match "hello") 1; PushMatch (plain_match "hello") 3; PushMatch (plain_match "hel") 20;
   PushMatch (plain_match "he") 20; PushMatch (plain_match "badger") 30; PushMatch (plain_match "") 10].

Example get_texts :
  Trie_get (run_trie Trie_default pushes) (text "A") = {[10%Z]} ∧
  Trie_get (run_trie Trie_default pushes) (text "hel") = {[10; 20]}%Z.
Proof. split; vm_compute; reflexivity. Qed.

(** Position 0 is ignored, the position after it is not skipped: the key [xb] is
    not announced, the key [b] is. *)
Definition skip_first : list TrieOp := [PushMatch (mkMatch (text "ab") (text "0")) 5].

Example ignored_position_takes_no_byte :
  Trie_get (run_trie Trie_default skip_first) (text "xb") = ∅ ∧
  Trie_get (run_trie Trie_default skip_first) (text "b") = {[5%Z]}.
Proof. split; vm_compute; reflexivity. Qed.

Lemma ignore_bytes_roundtrip_witness :
  ∃ out, parse_ignore_bytes (render [(0, None); (3, Some 5); (7, None)])%Z = Ok out ∧
         ∀ i, ignored out i ↔ ∃ r, r ∈ [(0, None); (3, Some 5); (7, None)]%Z ∧ covers r i.
Proof.
  apply (ignore_bytes_roundtrip [(0, None); (3, Some 5); (7, None)]%Z).
  repeat constructor; vm_compute; discriminate.
Defined.

Definition hello_only : list TrieOp := [PushMatch (plain_match "hello") 1].

Lemma trie_reclaims_witness :
  delete_match (run_trie Trie_default hello_only) (plain_match "hello") 1 = Ok Trie_default.
Proof.
  destruct (delete_match (run_trie Trie_default hello_only) (plain_match "hello") 1) as [t| |] eqn:E.
  - f_equal. apply (trie_reclaims hello_only (plain_match "hello") 1 t E). vm_compute. reflexivity.
  - vm_compute in E. discriminate.
  - vm_compute in E. discriminate.
Defined.

End TrieExamples.
