(* ===== verification/Closer.v ===== *)
(** * Closer: how tasks are told to stop, and waited for

    [WaitGroup], [CloseNotify] and [Closer] of src/src/util/closer.rs.  A
    semaphore of the runtime is the number of its permits, a [Notify] whether a
    notification is stored.  A call that waits is an [option]: [None] when it does
    not return in the state it is called in.  The permits that [wait] acquires are
    given back when the guard it returns is dropped, so the state stays. *)
From stdpp Require Import base list.
From Stdlib Require Import ZArith Lia.
From S2P Require Import Prelude.

Local Open Scope nat_scope.

Record WaitGroup : Type := mkWaitGroup { wg_permits : nat; wg_count : nat }.

Definition WaitGroup_new (count : nat) : WaitGroup := mkWaitGroup 0 count.

Definition WaitGroup_done (w : WaitGroup) : WaitGroup := mkWaitGroup (S (wg_permits w)) (wg_count w).

Definition WaitGroup_wait (w : WaitGroup) : option WaitGroup :=
  if wg_count w <=? wg_permits w then Some w else None.

Record Closer : Type := mkCloser { cl_wait_group : WaitGroup; cl_notified : bool }.

Definition Closer_new (count : nat) : Closer := mkCloser (WaitGroup_new count) false.

Definition Closer_signal (c : Closer) : Closer := mkCloser (cl_wait_group c) true.

(** [captured]: a stored notification is consumed. *)
Definition Closer_captured (c : Closer) : option Closer :=
  if cl_notified c then Some (mkCloser (cl_wait_group c) false) else None.

Definition Closer_done (c : Closer) : Closer := mkCloser (WaitGroup_done (cl_wait_group c)) (cl_notified c).

Definition Closer_wait (c : Closer) : option Closer :=
  w ← WaitGroup_wait (cl_wait_group c); Some (mkCloser w (cl_notified c)).

(** Waiting returns once as many tasks are done as were announced, and not
    before; a signal is seen by one task. *)
Lemma WaitGroup_wait_after n count :
  is_Some (WaitGroup_wait (Nat.iter n WaitGroup_done (WaitGroup_new count))) ↔ count ≤ n.
Proof.
  assert (Nat.iter n WaitGroup_done (WaitGroup_new count) = mkWaitGroup n count) as ->.
  { induction n as [|n IH]; [done|]. rewrite Nat.iter_succ. by rewrite IH. }
  unfold WaitGroup_wait. cbn. destruct (count <=? n) eqn:E.
  - apply Nat.leb_le in E. split; [done|]. by eexists.
  - apply Nat.leb_gt in E. split; [by intros [? [=]]|lia].
Qed.

Lemma signal_captured_once c :
  Closer_captured (Closer_signal c) = Some (mkCloser (cl_wait_group c) false) ∧
  Closer_captured (mkCloser (cl_wait_group c) false) = None.
Proof. done. Qed.
