(* ===== verification/Publisher.v ===== *)
(** * Publisher: updates sent to subscribers

    [Publisher], [Subscriber] and [DB::subscribe_async] of
    src/src/util/publisher.rs, over the index of prefixes of Trie.v.  The lock of
    the publisher makes each operation one step.  A channel is the list of the
    messages in it and whether its receiver is alive; the bound of 1000 messages
    only delays a sender, so it is left out.  The enumeration of a drained
    [HashMap] and the callback of a subscription are arguments.  Closing runs the
    closing branch of each subscriber's task while the publisher waits for it; a
    wait that never ends is [None]. *)
From stdpp Require Import base list gmap strings.
From Stdlib Require Import ZArith Lia.
From S2P Require Import Prelude Kv Text Trie Closer.

Local Open Scope nat_scope.

(** ** Data *)

(** The protobuf message [Kv], with the fields [publish_updates] sets. *)
Record KvUpdate : Type := mkKvUpdate {
  kv_key : list Z;
  kv_value : list Z;
  kv_user_meta : list Z;
  kv_version : Z;
  kv_expires_at : Z;
  kv_meta : list Z;
  kv_stream_id : Z;
  kv_stream_done : bool
}.

Record Subscriber : Type := mkSubscriber {
  sb_id : Z;
  sb_matches : list Match;
  sb_queue : list (list KvUpdate);
  sb_receiver_alive : bool;
  sb_active : Z;
  sb_closer : Closer
}.

(** The entries of a write request. *)
Definition request : Type := list (Entry * ValuePointer).

Record Publisher : Type := mkPublisher {
  pu_queue : list (list request);
  pu_subscribers : gmap Z Subscriber;
  pu_next_id : Z;
  pu_indexer : Trie
}.

Definition Publisher_new : Publisher := mkPublisher [] ∅ 0 Trie_default.

Definition with_subscribers (p : Publisher) (s : gmap Z Subscriber) : Publisher :=
  mkPublisher (pu_queue p) s (pu_next_id p) (pu_indexer p).

Definition with_indexer (p : Publisher) (t : Trie) : Publisher :=
  mkPublisher (pu_queue p) (pu_subscribers p) (pu_next_id p) t.

Definition with_queue (p : Publisher) (q : list (list request)) : Publisher :=
  mkPublisher q (pu_subscribers p) (pu_next_id p) (pu_indexer p).

(* ------------------------------------------------------------------ *)
(** ** Subscriptions *)

(** [for m in matches { push_match(m, id)? }]: the matches before a failing one
    stay in the index. *)
Fixpoint push_matches (t : Trie) (ms : list Match) (id : Z) : Trie * outcome unit :=
  match ms with
  | [] => (t, Ok ())
  | m :: ms' =>
      match push_match t m id with
      | Ok t' => push_matches t' ms' id
      | Err e => (t, Err e)
      | Panic => (t, Panic)
      end
  end.

(** [Subscriber::new]: the subscriber is listed before its matches are parsed; on
    an error the receiver is dropped with the call. *)
Definition Subscriber_new (p : Publisher) (matches : list Match) : Publisher * outcome Z :=
  let id := pu_next_id p in
  match u64_add id 1 with
  | Ok next =>
      let '(t, r) := push_matches (pu_indexer p) matches id in
      let alive := match r with Ok _ => true | _ => false end in
      let sub := mkSubscriber id matches [] alive 1 (Closer_new 1) in
      (mkPublisher (pu_queue p) (<[id := sub]> (pu_subscribers p)) next t,
       match r with Ok _ => Ok id | Err e => Err e | Panic => Panic end)
  | _ => (p, Panic)
  end.

(** [delete_match] for all matches of a subscriber; errors are logged. *)
Definition delete_matches (t : Trie) (ms : list Match) (id : Z) : Trie :=
  foldl (λ t m, match delete_match t m id with Ok t' => t' | _ => t end) t ms.

Definition delete_subscribers (p : Publisher) (id : Z) : Publisher :=
  let t := match pu_subscribers p !! id with
           | Some s => delete_matches (pu_indexer p) (sb_matches s) id
           | None => pu_indexer p
           end in
  mkPublisher (pu_queue p) (delete id (pu_subscribers p)) (pu_next_id p) t.

(** The closing branch of [subscribe_async], which the signal of the closer
    starts when the task still runs: the messages left go to the callback, if there
    are any. *)
Definition subscriber_close (res : list KvUpdate → outcome unit) (s : Subscriber) : Subscriber * outcome unit :=
  let kvs := concat (sb_queue s) in
  let left c := mkSubscriber (sb_id s) (sb_matches s) [] false (sb_active s) c in
  if sb_receiver_alive s then
    match Closer_captured (sb_closer s) with
    | Some c =>
        if 0 <? length kvs then
          match res kvs with
          | Panic => (left c, Panic)
          | r => (left (Closer_done c), r)
          end
        else (left c, Ok ())
    | None => (s, Ok ())
    end
  else (s, Ok ()).

(** [cleanup_subscribers], for the drained pairs in the order [order] gives: each
    subscriber is withdrawn, signalled, and waited for. *)
Fixpoint cleanup_loop (res : list KvUpdate → outcome unit) (t : Trie) (l : list (Z * Subscriber)) : option Trie :=
  match l with
  | [] => Some t
  | (id, s) :: l' =>
      let t := delete_matches t (sb_matches s) id in
      let s := mkSubscriber (sb_id s) (sb_matches s) (sb_queue s) (sb_receiver_alive s) (sb_active s)
                 (Closer_signal (sb_closer s)) in
      match Closer_wait (sb_closer (subscriber_close res s).1) with
      | Some _ => cleanup_loop res t l'
      | None => None
      end
  end.

Definition cleanup_subscribers (res : list KvUpdate → outcome unit)
    (order : gmap Z Subscriber → list (Z * Subscriber)) (p : Publisher) : option Publisher :=
  t ← cleanup_loop res (pu_indexer p) (order (pu_subscribers p));
  Some (mkPublisher (pu_queue p) ∅ (pu_next_id p) t).

(* ------------------------------------------------------------------ *)
(** ** Updates *)

Definition kv_of (e : Entry) : KvUpdate :=
  mkKvUpdate (Entry_key e) (Entry_value e) [] (Entry_version e) (Entry_expires_at e)
    [vm_user_meta (e_value_meta e)] 0 false.

Definition append_kv (kv : KvUpdate) (b : gmap Z (list KvUpdate)) (id : Z) : gmap Z (list KvUpdate) :=
  match b !! id with
  | Some kv_list => <[id := kv_list ++ [kv]]> b
  | None => <[id := [kv]]> b
  end.

(** One entry of a request: its serialized key is looked up in the index. *)
Definition batch_entry (t : Trie) (b : gmap Z (list KvUpdate)) (x : Entry * ValuePointer) : gmap Z (list KvUpdate) :=
  let ids := Trie_get t (KeyTs_serialize (e_key_ts x.1)) in
  foldl (append_kv (kv_of x.1)) b (elements ids).

Definition batch_updates (t : Trie) (reqs_vec : list (list request)) : gmap Z (list KvUpdate) :=
  foldl (batch_entry t) ∅ (concat (concat reqs_vec)).

(** The loop that sends the batches; a send to a dropped receiver ends it. *)
Fixpoint send_batches (subs : gmap Z Subscriber) (l : list (Z * list KvUpdate)) :
    gmap Z Subscriber * outcome unit :=
  match l with
  | [] => (subs, Ok ())
  | (id, kvs) :: l' =>
      match subs !! id with
      | Some s =>
          if (sb_active s =? 1)%Z then
            if sb_receiver_alive s then
              let s' := mkSubscriber (sb_id s) (sb_matches s) (sb_queue s ++ [kvs]) true (sb_active s) (sb_closer s) in
              send_batches (<[id := s']> subs) l'
            else (subs, Err (EMsg "channel closed"))
          else send_batches subs l'
      | None => send_batches subs l'
      end
  end.

Definition publish_updates (order : gmap Z (list KvUpdate) → list (Z * list KvUpdate)) (p : Publisher)
    (reqs_vec : list (list request)) : Publisher * outcome unit :=
  let batch := batch_updates (pu_indexer p) reqs_vec in
  let '(subs, r) := send_batches (pu_subscribers p) (order batch) in
  (with_subscribers p subs, r).

(** [send_updates]: requests are queued when there is a subscriber. *)
Definition send_updates (p : Publisher) (reqs : list request) : Publisher :=
  if size (pu_subscribers p) =? 0 then p else with_queue p (pu_queue p ++ [reqs]).

(** One turn of [listen_for_updates]: a message and at most one more that is
    there already; a failed publication is logged. *)
Definition listen_turn (order : gmap Z (list KvUpdate) → list (Z * list KvUpdate)) (p : Publisher) : Publisher :=
  match pu_queue p with
  | [] => p
  | [s] => (publish_updates order (with_queue p []) [s]).1
  | s :: s' :: q => (publish_updates order (with_queue p q) [s; s']).1
  end.

(** One turn of [subscribe_async] that found a message: all messages of the
    channel go to the callback, whose answer is [res].  On an error the subscriber
    is made inactive and removed, and its receiver is dropped. *)
Definition subscriber_turn (p : Publisher) (id : Z) (res : list KvUpdate → outcome unit) :
    Publisher * outcome unit :=
  match pu_subscribers p !! id with
  | Some s =>
      let kvs := concat (sb_queue s) in
      let s' := mkSubscriber (sb_id s) (sb_matches s) [] (sb_receiver_alive s) (sb_active s) (sb_closer s) in
      let p' := with_subscribers p (<[id := s']> (pu_subscribers p)) in
      if length kvs =? 0 then (p', Ok ())
      else
        match res kvs with
        | Ok _ => (p', Ok ())
        | Err e =>
            let dead := mkSubscriber (sb_id s) (sb_matches s) [] false 0 (Closer_done (sb_closer s)) in
            (delete_subscribers (with_subscribers p (<[id := dead]> (pu_subscribers p))) id, Err e)
        | Panic =>
            let gone := mkSubscriber (sb_id s) (sb_matches s) [] false (sb_active s) (sb_closer s) in
            (with_subscribers p (<[id := gone]> (pu_subscribers p)), Panic)
        end
  | None => (p, Ok ())
  end.

(* ------------------------------------------------------------------ *)
(** ** What the index holds *)

(** The paths of the matches of a subscriber that are in the index: those before
    the first match whose text does not parse. *)
Fixpoint live_paths (ms : list Match) : list (list step) :=
  match ms with
  | [] => []
  | m :: ms' => match path_of m with Ok p => p :: live_paths ms' | _ => [] end
  end.

(** A path is in the index for a subscriber exactly when it is one of its paths. *)
Record pub_inv (p : Publisher) (subs : list (list step * Z)) : Prop := {
  pi_trie : trie_holds (pu_indexer p) subs;
  pi_subs : ∀ path id, (path, id) ∈ subs ↔
              ∃ s, pu_subscribers p !! id = Some s ∧ path ∈ live_paths (sb_matches s);
  pi_ids : ∀ id s, pu_subscribers p !! id = Some s → (0 ≤ id < pu_next_id p)%Z ∧ sb_id s = id
}.

Lemma push_matches_holds t subs ms id :
  trie_holds t subs →
  trie_holds (push_matches t ms id).1 (subs ++ ((λ p, (p, id)) <$> live_paths ms)).
Proof.
  revert t subs. induction ms as [|m ms IH]; intros t subs H; cbn.
  - by rewrite app_nil_r.
  - pose proof (trie_step_holds t subs (PushMatch m id) H) as Hb. cbn in Hb.
    destruct (path_of m) as [p|e|] eqn:Hp; cbn in Hb;
      destruct (push_match t m id) as [t'|e'|]; cbn in Hb |- *; try done; rewrite ?app_nil_r; try done.
    rewrite cons_middle, app_assoc. by apply IH.
Qed.

(** Withdrawing matches leaves what is not withdrawn. *)
Lemma delete_matches_holds t subs ms id :
  trie_holds t subs →
  ∃ subs', trie_holds (delete_matches t ms id) subs' ∧
    ∀ path j, (path, j) ∈ subs' ↔ (path, j) ∈ subs ∧ ¬ (j = id ∧ ∃ m, m ∈ ms ∧ path_of m = Ok path).
Proof.
  unfold delete_matches. revert t subs. induction ms as [|m ms IH]; intros t subs H; cbn.
  - exists subs. split; [done|]. set_solver.
  - pose proof (trie_step_holds t subs (DeleteMatch m id) H) as Hb. cbn in Hb.
    destruct (path_of m) as [p|e|] eqn:Hp; cbn in Hb;
      destruct (delete_match t m id) as [t'|e'|]; cbn in Hb; try done.
    + destruct (IH t' _ Hb) as (subs' & H' & Hs). exists subs'. split; [done|]. intros path j.
      rewrite Hs, list_elem_of_filter. setoid_rewrite elem_of_cons. split.
      * intros ((Hne & Hin) & Hnot). split; [done|]. intros (-> & m' & [->|Hm] & Hpath); [congruence|].
        apply Hnot. eauto.
      * intros (Hin & Hnot). split_and!; [|done|]; [|naive_solver].
        intros [= -> ->]. apply Hnot. eauto.
    + destruct (IH t subs H) as (subs' & H' & Hs). exists subs'. split; [done|]. intros path j.
      rewrite Hs. setoid_rewrite elem_of_cons. split; intros (Hin & Hnot); (split; [done|]).
      * intros (-> & m' & [->|Hm] & Hpath); [congruence|]. apply Hnot. eauto.
      * intros (-> & m' & Hm & Hpath). apply Hnot. eauto.
    + destruct (IH t subs H) as (subs' & H' & Hs). exists subs'. split; [done|]. intros path j.
      rewrite Hs. setoid_rewrite elem_of_cons. split; intros (Hin & Hnot); (split; [done|]).
      * intros (-> & m' & [->|Hm] & Hpath); [congruence|]. apply Hnot. eauto.
      * intros (-> & m' & Hm & Hpath). apply Hnot. eauto.
Qed.

Lemma live_paths_parse ms path : path ∈ live_paths ms → ∃ m, m ∈ ms ∧ path_of m = Ok path.
Proof.
  induction ms as [|m ms IH]; cbn; [by intros H%elem_of_nil|].
  destruct (path_of m) as [p|e|] eqn:Hp; [|by intros H%elem_of_nil..].
  intros [->|(m' & Hm & Hpath)%IH]%elem_of_cons; [by exists m; split; [constructor|]|].
  exists m'. split; [by constructor|done].
Qed.

Lemma pub_inv_new : pub_inv Publisher_new [].
Proof.
  split; [apply trie_holds_default| |].
  - intros path id. split; [by intros H%elem_of_nil|]. intros (s & Hs & _). done.
  - intros id s Hs. done.
Qed.

Lemma pub_inv_subscriber_new p subs ms p' r :
  pub_inv p subs → Subscriber_new p ms = (p', r) → (0 ≤ pu_next_id p)%Z → r ≠ Panic →
  pub_inv p' (subs ++ ((λ path, (path, pu_next_id p)) <$> live_paths ms)).
Proof.
  intros [Ht Hs Hi] Hn H0 Hr. unfold Subscriber_new in Hn.
  pose proof (push_matches_holds (pu_indexer p) subs ms (pu_next_id p) Ht) as Ht'.
  assert (pu_subscribers p !! pu_next_id p = None) as Hfresh.
  { destruct (pu_subscribers p !! pu_next_id p) as [s|] eqn:E; [|done]. apply Hi in E. lia. }
  destruct (u64_add (pu_next_id p) 1) as [next| |] eqn:Hnext; [|by simplify_eq..].
  destruct (push_matches _ _ _) as [t' r'] eqn:Hpm. cbn in Ht'. injection Hn as <- <-.
  unfold u64_add in Hnext. destruct (_ <=? _)%Z; [|done]. injection Hnext as <-.
  split; cbn; [done| |].
  - intros path id. rewrite elem_of_app, Hs, list_elem_of_fmap.
    destruct (decide (id = pu_next_id p)) as [->|Hne].
    + rewrite lookup_insert_eq. rewrite Hfresh. naive_solver.
    + rewrite lookup_insert_ne by done. naive_solver.
  - intros id s. destruct (decide (id = pu_next_id p)) as [->|Hne].
    + rewrite lookup_insert_eq. intros [= <-]. cbn. lia.
    + rewrite lookup_insert_ne by done. intros [? ?]%Hi. lia.
Qed.

Lemma pub_inv_delete p subs id :
  pub_inv p subs → ∃ subs', pub_inv (delete_subscribers p id) subs'.
Proof.
  intros [Ht Hs Hi]. unfold delete_subscribers.
  destruct (pu_subscribers p !! id) as [s|] eqn:E.
  - destruct (delete_matches_holds _ _ (sb_matches s) id Ht) as (subs' & Ht' & Hs').
    exists subs'. split; cbn; [done| |].
    + intros path j. rewrite Hs', Hs. destruct (decide (j = id)) as [->|Hne].
      * rewrite lookup_delete_eq, E. split; [|naive_solver].
        intros ((s' & [= <-] & Hp) & Hnot). exfalso. apply Hnot. split; [done|]. by apply live_paths_parse.
      * rewrite lookup_delete_ne by done. naive_solver.
    + intros j s' [_ Hl]%lookup_delete_Some. by apply Hi.
  - exists subs. rewrite delete_id by done. by split.
Qed.

(* ------------------------------------------------------------------ *)
(** ** What is published *)

(** The updates of a request that concern a subscriber, in their order. *)
Definition concerns (s : Subscriber) (x : Entry * ValuePointer) : bool :=
  existsb (λ p, path_matches p (KeyTs_serialize (e_key_ts x.1))) (live_paths (sb_matches s)).

Definition updates_for (s : Subscriber) (reqs_vec : list (list request)) : list KvUpdate :=
  (λ x, kv_of x.1) <$> filter (λ x, concerns s x = true) (concat (concat reqs_vec)).

(** The updates whose serialized key begins with a prefix of the subscriber, and the
    subscribers for which these are all: those without ignored positions. *)
Definition prefix_updates (s : Subscriber) (reqs_vec : list (list request)) : list KvUpdate :=
  (λ x, kv_of x.1) <$>
    filter (λ x : Entry * ValuePointer,
      Exists (λ m, ma_prefix m `prefix_of` KeyTs_serialize (e_key_ts x.1)) (sb_matches s)) (concat (concat reqs_vec)).

Definition no_ignored (s : Subscriber) : Prop := Forall (λ m, ma_ignore_bytes m = []) (sb_matches s).

Lemma plain_path_matches prefix key : path_matches (Some <$> prefix) key = true ↔ prefix `prefix_of` key.
Proof.
  revert key. induction prefix as [|b prefix IH]; intros key; rewrite ?fmap_nil, ?fmap_cons; cbn [path_matches].
  { split; [intros _; apply prefix_nil|done]. }
  destruct key as [|c key]; [split; [done|by intros ?%prefix_nil_not]|]. rewrite andb_true_iff, Z.eqb_eq, IH. split.
  - intros [-> Hp]. by apply prefix_cons.
  - intros Hp. split; [by eapply prefix_cons_inv_1|by eapply prefix_cons_inv_2].
Qed.

Lemma plain_live_paths ms :
  Forall (λ m, ma_ignore_bytes m = []) ms → live_paths ms = (λ m, Some <$> ma_prefix m) <$> ms.
Proof.
  induction 1 as [|m ms Hm _ IH]; [done|]. cbn [live_paths]. unfold path_of. rewrite Hm. cbn [parse_ignore_bytes mbind outcome_bind].
  rewrite fmap_cons, IH. f_equal. generalize (ma_prefix m). induction l as [|b l IHl]; [done|]. cbn. by f_equal.
Qed.

Lemma plain_updates s reqs_vec : no_ignored s → updates_for s reqs_vec = prefix_updates s reqs_vec.
Proof.
  intros Hp. unfold updates_for, prefix_updates. f_equal. apply list_filter_iff. intros x.
  unfold concerns. rewrite (plain_live_paths _ Hp), existsb_exists, Exists_exists. split.
  - intros (q & Hq%list_elem_of_In & Hm). apply list_elem_of_fmap in Hq as (m & -> & Hin). exists m. split; [done|].
    by apply plain_path_matches.
  - intros (m & Hin & Hm). exists (Some <$> ma_prefix m). split; [|by apply plain_path_matches].
    apply list_elem_of_In, list_elem_of_fmap. by exists m.
Qed.

Lemma append_kv_lookup kv b id j :
  append_kv kv b id !! j = if decide (j = id) then Some (default [] (b !! id) ++ [kv]) else b !! j.
Proof.
  unfold append_kv. destruct (decide (j = id)) as [->|Hne].
  - by destruct (b !! id); rewrite lookup_insert_eq.
  - by destruct (b !! id); rewrite lookup_insert_ne.
Qed.

Lemma append_all_lookup kv l b j :
  NoDup l →
  foldl (append_kv kv) b l !! j = if decide (j ∈ l) then Some (default [] (b !! j) ++ [kv]) else b !! j.
Proof.
  intros Hnd. revert b. induction Hnd as [|i l Hi Hnd IH]; intros b; cbn.
  - rewrite decide_False; [done|]. apply not_elem_of_nil.
  - rewrite IH, append_kv_lookup. destruct (decide (j = i)) as [->|Hne].
    + rewrite decide_False by done. rewrite decide_True; [done|constructor].
    + destruct (decide (j ∈ l)).
      * rewrite decide_True by by constructor. done.
      * rewrite decide_False; [done|]. intros [?|?]%elem_of_cons; done.
Qed.

(** The batch of a subscriber: nothing, or its updates. *)
Lemma batch_updates_lookup t reqs_vec id :
  batch_updates t reqs_vec !! id =
  let l := filter (λ x, id ∈ Trie_get t (KeyTs_serialize (e_key_ts x.1))) (concat (concat reqs_vec)) in
  match l with [] => None | _ => Some ((λ x, kv_of x.1) <$> l) end.
Proof.
  unfold batch_updates. generalize (concat (concat reqs_vec)) as xs. intros xs.
  induction xs as [|x xs IH] using rev_ind; [done|].
  rewrite foldl_app. cbn [foldl]. unfold batch_entry at 1.
  rewrite append_all_lookup by apply NoDup_elements. rewrite IH, filter_app, filter_cons, filter_nil.
  destruct (decide (id ∈ Trie_get t (KeyTs_serialize (e_key_ts x.1)))) as [Hin|Hin].
  - rewrite decide_True by by apply elem_of_elements. cbn zeta.
    destruct (filter _ xs) as [|y ys]; [done|]. cbn. by rewrite fmap_app.
  - rewrite decide_False by by rewrite elem_of_elements. by rewrite app_nil_r.
Qed.

Lemma pub_inv_concerns p subs id s x :
  pub_inv p subs → pu_subscribers p !! id = Some s →
  id ∈ Trie_get (pu_indexer p) (KeyTs_serialize (e_key_ts x.1)) ↔ concerns s x = true.
Proof.
  intros [Ht Hs _] Hl. rewrite (trie_get_holds _ _ _ Ht), concerned_spec. unfold concerns.
  rewrite existsb_exists. setoid_rewrite <- list_elem_of_In. setoid_rewrite Hs. naive_solver.
Qed.

Lemma batch_updates_for p subs id s reqs_vec :
  pub_inv p subs → pu_subscribers p !! id = Some s →
  batch_updates (pu_indexer p) reqs_vec !! id =
  match updates_for s reqs_vec with [] => None | l => Some l end.
Proof.
  intros Hinv Hl. rewrite batch_updates_lookup. unfold updates_for. cbn zeta.
  rewrite (list_filter_iff _ (λ x, concerns s x = true)) by (intros x; by apply (pub_inv_concerns p subs)).
  by destruct (filter _ _).
Qed.

(** [send_batches] to living receivers: each listed active subscriber gets its
    batch at the end of its channel. *)
Definition receive (s : Subscriber) (o : option (list KvUpdate)) : Subscriber :=
  match o with
  | Some kvs =>
      if (sb_active s =? 1)%Z
      then mkSubscriber (sb_id s) (sb_matches s) (sb_queue s ++ [kvs]) (sb_receiver_alive s) (sb_active s) (sb_closer s)
      else s
  | None => s
  end.

Definition alive (s : Subscriber) : Prop := sb_active s = 1%Z → sb_receiver_alive s = true.

Lemma send_batches_ok subs l :
  NoDup l.*1 → (∀ id s, id ∈ l.*1 → subs !! id = Some s → alive s) →
  ∃ subs', send_batches subs l = (subs', Ok ()) ∧
    ∀ id, subs' !! id = (λ s, receive s (list_to_map (M := gmap Z _) l !! id)) <$> subs !! id.
Proof.
  revert subs. induction l as [|[id kvs] l IH]; intros subs Hnd Ha; cbn.
  - exists subs. split; [done|]. intros i. by destruct (subs !! i).
  - cbn in Hnd. apply NoDup_cons in Hnd as [Hid Hnd].
    assert (Hskip : (∀ s, subs !! id = Some s → receive s (Some kvs) = s) →
      ∃ subs', send_batches subs l = (subs', Ok ()) ∧
        ∀ i, subs' !! i = (λ s, receive s (<[id := kvs]> (list_to_map (M := gmap Z _) l) !! i)) <$> subs !! i).
    { intros Hr. destruct (IH subs) as (subs' & Hs & Hl); [done|intros; eapply Ha; [by constructor|done]|].
      exists subs'. split; [done|]. intros i. rewrite Hl. destruct (decide (i = id)) as [->|Hne].
      - rewrite lookup_insert_eq, (not_elem_of_list_to_map_1 l id) by done.
        destruct (subs !! id) as [si|]; [|done]. unfold fmap, option_fmap, option_map. by rewrite (Hr si).
      - by rewrite lookup_insert_ne. }
    destruct (subs !! id) as [s|] eqn:Hl; [|by apply Hskip].
    destruct (sb_active s =? 1)%Z eqn:Hact; [|apply Hskip; intros ? [= <-]; cbn; by rewrite Hact].
    assert (sb_receiver_alive s = true) as Hal by (eapply Ha; [constructor|done|by apply Z.eqb_eq]).
    rewrite Hal. set (s' := mkSubscriber _ _ _ _ _ _).
    destruct (IH (<[id := s']> subs)) as (subs' & Hs & Hl'); [done| |].
    { intros i si Hi. destruct (decide (i = id)) as [->|Hne]; [done|].
      rewrite lookup_insert_ne by done. apply Ha. by constructor. }
    exists subs'. split; [done|]. intros i. rewrite Hl'. destruct (decide (i = id)) as [->|Hne].
    + rewrite !lookup_insert_eq, Hl, (not_elem_of_list_to_map_1 l id) by done. cbn.
      by rewrite Hact, Hal.
    + by rewrite !lookup_insert_ne.
Qed.

(** A dropped receiver among the batches fails the publication. *)
Lemma send_batches_dead subs l id s :
  NoDup l.*1 → id ∈ l.*1 → subs !! id = Some s → sb_active s = 1%Z → sb_receiver_alive s = false →
  ∃ e, (send_batches subs l).2 = Err e.
Proof.
  intros Hnd Hin Hs Hact Hdead. revert subs Hs. induction l as [|[i kvs] l IH]; intros subs Hs; cbn.
  - by apply elem_of_nil in Hin.
  - cbn in Hnd, Hin. apply NoDup_cons in Hnd as [Hi Hnd]. destruct (decide (i = id)) as [->|Hne].
    + rewrite Hs, Hact, Hdead. by eexists.
    + apply elem_of_cons in Hin as [?|Hin]; [congruence|].
      destruct (subs !! i) as [si|] eqn:Ei; [|by apply IH].
      destruct (sb_active si =? 1)%Z; [|by apply IH]. destruct (sb_receiver_alive si); [|by eexists].
      apply IH; [done|done|]. by rewrite lookup_insert_ne.
Qed.

(** The enumeration of a drained map: all its pairs, in some order. *)
Definition enumerates (order : gmap Z (list KvUpdate) → list (Z * list KvUpdate)) : Prop :=
  ∀ m, order m ≡ₚ map_to_list m.

Lemma enumerates_keys order m :
  enumerates order → NoDup (order m).*1 ∧ (∀ id, id ∈ (order m).*1 ↔ is_Some (m !! id)) ∧
  list_to_map (order m) = m.
Proof.
  intros Ho. pose proof (Ho m) as Hp.
  assert (NoDup (order m).*1) as Hnd.
  { rewrite Hp. apply NoDup_fst_map_to_list. }
  split_and!; [done| |].
  - intros id. rewrite Hp, list_elem_of_fmap. split.
    + intros ([k v] & -> & Hin%elem_of_map_to_list). by eexists.
    + intros [v Hv]. exists (id, v). split; [done|]. by apply elem_of_map_to_list.
  - rewrite (list_to_map_proper _ (map_to_list m)) by done. apply list_to_map_to_list.
Qed.

(** C31: publishing requests when every active subscriber still listens hands to
    each active subscriber one message, or none when it would be empty: to a
    subscriber whose patterns have no ignored positions, exactly the entries whose
    serialized key begins with one of its prefixes, and to any other those that the
    walk of the trie finds, in which an ignored position consumes no byte of the key;
    always in the order of the requests.  The others and the index stay as they are. *)
Theorem publish_delivers order p subs reqs_vec :
  enumerates order → pub_inv p subs → (∀ id s, pu_subscribers p !! id = Some s → alive s) →
  ∃ p', publish_updates order p reqs_vec = (p', Ok ()) ∧ pub_inv p' subs ∧
    ∀ id, pu_subscribers p' !! id =
      (λ s, receive s (match updates_for s reqs_vec with [] => None | l => Some l end)) <$> pu_subscribers p !! id ∧
      ∀ s, pu_subscribers p !! id = Some s → no_ignored s → updates_for s reqs_vec = prefix_updates s reqs_vec.
Proof.
  intros Ho Hinv Ha. unfold publish_updates.
  destruct (enumerates_keys order (batch_updates (pu_indexer p) reqs_vec) Ho) as (Hnd & _ & Hmap).
  destruct (send_batches_ok (pu_subscribers p) (order (batch_updates (pu_indexer p) reqs_vec)))
    as (subs' & -> & Hl); [done|by intros id s _; apply Ha|].
  rewrite Hmap in Hl. eexists. split; [done|].
  assert (∀ id, subs' !! id = (λ s, receive s (match updates_for s reqs_vec with [] => None | l => Some l end))
                              <$> pu_subscribers p !! id) as Hl'.
  { intros id. rewrite Hl. destruct (pu_subscribers p !! id) as [s|] eqn:E; [|done]. cbn.
    by rewrite (batch_updates_for p subs id s). }
  split; [|intros id; split; [done|intros s _; apply plain_updates]].
  assert (∀ s o, sb_matches (receive s o) = sb_matches s ∧ sb_id (receive s o) = sb_id s) as Hsame.
  { intros s [kvs|]; cbn; [|done]. by destruct (sb_active s =? 1)%Z. }
  destruct Hinv as [Ht Hs Hi]. split; cbn; [done| |].
  - intros path id. rewrite Hs, Hl'. destruct (pu_subscribers p !! id) as [s|]; cbn; [|naive_solver].
    split; intros (s' & [= <-] & Hp); eexists; (split; [done|]);
      by rewrite ?(proj1 (Hsame _ _)) in *.
  - intros id s'. rewrite Hl'. destruct (pu_subscribers p !! id) as [s|] eqn:E; cbn; [|done].
    intros [= <-]. rewrite (proj2 (Hsame _ _)). by apply Hi.
Qed.

(** A subscription whose matches fail to parse stays listed with its receiver
    gone: from then on every publication that touches one of its matches fails,
    whatever the order in which subscribers are served. *)
Theorem failed_subscription_poisons order p subs ms p' e reqs_vec :
  enumerates order → pub_inv p subs → (0 ≤ pu_next_id p)%Z → Subscriber_new p ms = (p', Err e) →
  updates_for (mkSubscriber (pu_next_id p) ms [] false 1 (Closer_new 1)) reqs_vec ≠ [] →
  ∃ e', (publish_updates order p' reqs_vec).2 = Err e'.
Proof.
  intros Ho Hinv H0 Hn Hu. pose proof (pub_inv_subscriber_new _ _ _ _ _ Hinv Hn H0 ltac:(done)) as Hinv'.
  assert (pu_subscribers p' !! pu_next_id p = Some (mkSubscriber (pu_next_id p) ms [] false 1 (Closer_new 1))) as Hl.
  { unfold Subscriber_new in Hn. destruct (u64_add _ _) as [next| |]; [|by simplify_eq..].
    destruct (push_matches _ _ _) as [t [u|e'|]]; simplify_eq. cbn. by rewrite lookup_insert_eq. }
  destruct (enumerates_keys order (batch_updates (pu_indexer p') reqs_vec) Ho) as (Hnd & Hk & _).
  assert ((pu_next_id p) ∈ (order (batch_updates (pu_indexer p') reqs_vec)).*1) as Hin.
  { apply Hk. rewrite (batch_updates_for p' _ _ _ _ Hinv' Hl). destruct (updates_for _ _); [done|]. by eexists. }
  destruct (send_batches_dead _ _ _ _ Hnd Hin Hl) as [e' He']; [done|done|].
  exists e'. unfold publish_updates. by destruct (send_batches _ _).
Qed.

(** A running subscriber with nothing in its channel, as all are between two
    updates. *)
Definition idle (s : Subscriber) : Prop :=
  concat (sb_queue s) = [] ∧ sb_receiver_alive s = true ∧ sb_closer s = Closer_new 1.

(** A running subscriber with updates in its channel. *)
Definition busy (s : Subscriber) : Prop :=
  concat (sb_queue s) ≠ [] ∧ sb_receiver_alive s = true ∧ sb_closer s = Closer_new 1.

Definition signalled (s : Subscriber) : Subscriber :=
  mkSubscriber (sb_id s) (sb_matches s) (sb_queue s) (sb_receiver_alive s) (sb_active s)
    (Closer_signal (sb_closer s)).

Lemma close_idle res s : idle s → Closer_wait (sb_closer (subscriber_close res (signalled s)).1) = None.
Proof. intros (Hq & Ha & Hc). unfold subscriber_close, signalled. cbn. by rewrite Ha, Hc, Hq. Qed.

Lemma close_busy res s :
  (∀ kvs, res kvs ≠ Panic) → busy s → is_Some (Closer_wait (sb_closer (subscriber_close res (signalled s)).1)).
Proof.
  intros Hr (Hq & Ha & Hc). unfold subscriber_close, signalled. cbn. rewrite Ha, Hc. cbn.
  destruct (concat (sb_queue s)) as [|kv kvs]; [done|]. cbn.
  specialize (Hr (kv :: kvs)). destruct (res (kv :: kvs)); cbn; try done; by eexists.
Qed.

Lemma cleanup_loop_spec res l t subs :
  (∀ kvs, res kvs ≠ Panic) → trie_holds t subs → (∀ id s, (id, s) ∈ l → idle s ∨ busy s) →
  match cleanup_loop res t l with
  | Some t' => (∀ id s, (id, s) ∈ l → busy s) ∧
      ∃ subs', trie_holds t' subs' ∧ ∀ path j, (path, j) ∈ subs' ↔
        (path, j) ∈ subs ∧ ¬ ∃ s m, (j, s) ∈ l ∧ m ∈ sb_matches s ∧ path_of m = Ok path
  | None => ∃ id s, (id, s) ∈ l ∧ idle s
  end.
Proof.
  intros Hr. revert t subs. induction l as [|[id s] l IH]; intros t subs Ht Hib; cbn [cleanup_loop].
  - split; [set_solver|]. exists subs. split; [done|]. set_solver.
  - fold (signalled s). destruct (Hib id s ltac:(constructor)) as [Hidle|Hbusy].
    { rewrite close_idle by done. exists id, s. split; [constructor|done]. }
    destruct (close_busy res s) as [c ->]; [done..|].
    destruct (delete_matches_holds t subs (sb_matches s) id Ht) as (subs1 & H1 & Hs1).
    specialize (IH _ _ H1 ltac:(intros; eapply Hib; by constructor)).
    destruct (cleanup_loop _ _ l) as [t'|].
    + destruct IH as [Hb (subs' & H' & Hs')]. split.
      { intros i si [[= -> ->]|Hin]%elem_of_cons; [done|by eapply Hb]. }
      exists subs'. split; [done|]. intros path j. rewrite Hs', Hs1. setoid_rewrite elem_of_cons.
      naive_solver.
    + destruct IH as (i & si & Hin & Hidle). exists i, si. split; [by constructor|done].
Qed.

(** Closing the publisher waits for ever when one subscriber has nothing in its
    channel; otherwise closing ends, and the index announces nothing to anyone. *)
Theorem cleanup_ends res order p subs :
  (∀ m, order m ≡ₚ map_to_list m) → (∀ kvs, res kvs ≠ Panic) → pub_inv p subs →
  (∀ id s, pu_subscribers p !! id = Some s → idle s ∨ busy s) →
  match cleanup_subscribers res order p with
  | Some p' => (∀ id s, pu_subscribers p !! id = Some s → busy s) ∧ ∀ key, Trie_get (pu_indexer p') key = ∅
  | None => ∃ id s, pu_subscribers p !! id = Some s ∧ idle s
  end.
Proof.
  intros Ho Hr [Ht Hs Hi] Hib. unfold cleanup_subscribers.
  assert (∀ id s, (id, s) ∈ order (pu_subscribers p) ↔ pu_subscribers p !! id = Some s) as Hord.
  { intros id s. by rewrite Ho, elem_of_map_to_list. }
  pose proof (cleanup_loop_spec res (order (pu_subscribers p)) _ _ Hr Ht
                ltac:(intros id s Hin; apply Hord in Hin; by eapply Hib)) as Hloop.
  destruct (cleanup_loop _ _ _) as [t'|]; cbn.
  - destruct Hloop as [Hb (subs' & Ht' & Hs')]. split; [intros id s Hl; by eapply Hb, Hord|]. intros key.
    rewrite (trie_get_holds _ _ _ Ht'). apply set_eq. intros id. rewrite concerned_spec.
    split; [|set_solver]. intros (path & Hin & _). apply Hs' in Hin as [Hin Hnot]. exfalso. apply Hnot.
    apply Hs in Hin as (s & Hl & (m & Hm & Hp)%live_paths_parse). exists s, m. by rewrite Hord.
  - destruct Hloop as (id & s & Hin & Hidle). exists id, s. by rewrite <- Hord.
Qed.

(* ------------------------------------------------------------------ *)
(** ** On a concrete publisher *)

Module PublisherExamples.

Definition order (m : gmap Z (list KvUpdate)) : list (Z * list KvUpdate) := map_to_list m.

Lemma order_enumerates : enumerates order.
Proof. by intros m. Qed.

Definition entry (k v : list Z) : Entry * ValuePointer :=
  (Entry_set_version (Entry_new k v) 9, ValuePointer_default).
Definition reqs : list (list request) := [[[entry [97; 98] [1]; entry [98] [2]; entry [97] [3]]]]%Z.

Definition p1 : Publisher := (Subscriber_new Publisher_new [mkMatch [97]%Z []]).1.

Lemma p1_inv : pub_inv p1 [([Some 97%Z], 0%Z)].
Proof.
  apply (pub_inv_subscriber_new Publisher_new [] [mkMatch [97]%Z []] p1 (Ok 0%Z) pub_inv_new); [|done|done].
  vm_compute. reflexivity.
Qed.

Lemma publish_delivers_witness :
  ∃ p', publish_updates order p1 reqs = (p', Ok ()) ∧ pub_inv p' [([Some 97%Z], 0%Z)] ∧
    ∀ id, pu_subscribers p' !! id =
      (λ s, receive s (match updates_for s reqs with [] => None | l => Some l end)) <$> pu_subscribers p1 !! id ∧
      ∀ s, pu_subscribers p1 !! id = Some s → no_ignored s → updates_for s reqs = prefix_updates s reqs.
Proof.
  apply (publish_delivers order p1 [([Some 97%Z], 0%Z)] reqs order_enumerates p1_inv).
  intros id s. destruct (decide (id = 0%Z)) as [->|Hne].
  - vm_compute. by intros [= <-].
  - intros Hl. apply p1_inv in Hl as [Hl _]. change (pu_next_id p1) with 1%Z in Hl. lia.
Defined.

(** With a second subscriber for [a?c], the middle byte ignored: the entry of the key
    [abc] goes to the first only, since the walk compares [c] with [b]. *)
Example ignored_position_misses :
  let p := (Subscriber_new p1 [mkMatch [97; 0; 99]%Z [49]%Z]).1 in
  let p' := (publish_updates order p [[[entry [97; 98; 99] [1]]]]%Z).1 in
  (length ∘ sb_queue) <$> (pu_subscribers p' !! 0%Z) = Some 1 ∧
  (length ∘ sb_queue) <$> (pu_subscribers p' !! 1%Z) = Some 0.
Proof. vm_compute. split; reflexivity. Qed.

(** The second match does not parse; the first stays announced. *)
Definition bad_matches : list Match := [mkMatch [97]%Z []; mkMatch [98]%Z (bytes_of_string "x")].
Definition p2 : Publisher := (Subscriber_new p1 bad_matches).1.

Lemma failed_subscription_poisons_witness : ∃ e', (publish_updates order p2 reqs).2 = Err e'.
Proof.
  apply (failed_subscription_poisons order p1 [([Some 97%Z], 0%Z)] bad_matches p2 ParseError reqs
           order_enumerates p1_inv ltac:(vm_compute; discriminate)).
  - vm_compute. reflexivity.
  - vm_compute. discriminate.
Defined.

(** One idle subscriber. *)
Lemma cleanup_ends_witness :
  match cleanup_subscribers (λ _, Ok ()) map_to_list p1 with
  | Some p' => (∀ id s, pu_subscribers p1 !! id = Some s → busy s) ∧ ∀ key, Trie_get (pu_indexer p') key = ∅
  | None => ∃ id s, pu_subscribers p1 !! id = Some s ∧ idle s
  end.
Proof.
  apply (cleanup_ends (λ _, Ok ()) map_to_list p1 [([Some 97%Z], 0%Z)]);
    [done|done|exact p1_inv|].
  intros id s. destruct (decide (id = 0%Z)) as [->|Hne].
  - vm_compute. intros [= <-]. left. split_and!; reflexivity.
  - intros Hl. apply p1_inv in Hl as [Hl _]. change (pu_next_id p1) with 1%Z in Hl. lia.
Defined.

Example idle_subscriber_blocks : cleanup_subscribers (λ _, Ok ()) map_to_list p1 = None.
Proof. vm_compute. reflexivity. Qed.

End PublisherExamples.
