(* ===== verification/KeyRegistry.v ===== *)
(** * KeyRegistry: the data keys and the file that keeps them

    [KeyRegistry], [KeyRegistryConfig] and [KeyRegistryIter] of
    src/src/key_registry.rs, over the ciphers of Storage.v.  The registry file is
    its bytes, [None] when it does not exist; a handle appends at the end, where
    the reader stops.  The clock is an argument, in nanoseconds since the epoch,
    and so are the nonces and the keys that are drawn.  The protobuf coding of a
    data key is a class with its round trip as a law. *)
From stdpp Require Import base list gmap strings.
From Stdlib Require Import ZArith Lia.
From S2P Require Import Prelude Text Pb Storage.

Local Open Scope nat_scope.

(** ** Data *)

Record DataKey : Type := mkDataKey {
  dk_key_id : Z;
  dk_data : list Z;
  dk_iv : list Z;
  dk_created_at : Z
}.

(** The fields have the widths of the protobuf message. *)
Definition data_key_wf (d : DataKey) : Prop :=
  in_width 64 (dk_key_id d) ∧ in_width 64 (dk_created_at d) ∧ is_bytes (dk_data d) ∧ is_bytes (dk_iv d).

Class DataKeyCodec : Type := {
  data_key_encode : DataKey → list Z;
  data_key_decode : list Z → option DataKey
}.

Class DataKeyCodecLaws `{DataKeyCodec} : Prop := {
  data_key_roundtrip : ∀ d, data_key_wf d → (Z.of_nat (length (dk_data d) + length (dk_iv d)) < 2 ^ 32)%Z →
    data_key_decode (data_key_encode d) = Some d
}.

Record KeyRegistryInner : Type := mkKeyRegistryInner {
  ki_data_keys : gmap Z DataKey;
  ki_last_created : Z;
  ki_next_key_id : Z;
  ki_fp : option (list Z);
  ki_cipher : option AesCipher;
  ki_rotation : Z
}.

Record KeyRegistryConfig : Type := mkKeyRegistryConfig {
  kc_encrypt_key : list Z;
  kc_data_key_rotation_duration : Z;
  kc_read_only : bool
}.

Definition NANOS : Z := 1000000000.

Definition KeyRegistryConfig_default : KeyRegistryConfig :=
  mkKeyRegistryConfig [] (10 * 24 * 60 * 60 * NANOS) false.

Definition SANITYTEXT : list Z := bytes_of_string "Hello Badger".

Definition with_fp (r : KeyRegistryInner) (fp : option (list Z)) : KeyRegistryInner :=
  mkKeyRegistryInner (ki_data_keys r) (ki_last_created r) (ki_next_key_id r) fp (ki_cipher r) (ki_rotation r).

(** [PhyTs::now], in seconds, and [SystemTime] of a [PhyTs]. *)
Definition PhyTs_now (now : Z) : outcome Z :=
  if (0 <=? now)%Z then Ok (now / NANOS)%Z else Err (EMsg "SystemTimeError").

Definition PhyTs_into (secs : Z) : outcome Z :=
  if (secs <=? 2 ^ 63 - 1)%Z then Ok (secs * NANOS)%Z else Panic.

(** [CipherKeyId::add_assign] *)
Definition next_id (id : Z) : outcome Z := u64_add id 1.

Section Code.
Context `{!ChecksumCodec, !Aead, !DataKeyCodec}.

(* ------------------------------------------------------------------ *)
(** ** Writing *)

(** [KeyRegistryInner::new] *)
Definition KeyRegistryInner_new (encrypt_key : list Z) (rotation : Z) : outcome KeyRegistryInner :=
  let keys_len := length encrypt_key in
  if (0 <? keys_len) && negb ((keys_len =? 16) || (keys_len =? 32)) then Err (EDB InvalidEncryptionKey)
  else
    let cipher := if 0 <? keys_len
                  then match AesCipher_new encrypt_key 0 with Ok c => Some c | _ => None end
                  else None in
    Ok (mkKeyRegistryInner ∅ 0 0 None cipher rotation).

(** The text of a data key, encrypted or decrypted when there is a cipher;
    [Nonce::from_slice] panics on another length. *)
Definition with_data (d : DataKey) (data : list Z) : DataKey :=
  mkDataKey (dk_key_id d) data (dk_iv d) (dk_created_at d).

(** The record of a data key in the file. *)
Definition key_record (e_data_key : list Z) : list Z :=
  put_u32 (u32 (Z.of_nat (length e_data_key))) ++ put_u32 (crc32_hash e_data_key) ++ e_data_key.

(** [store_data_key]: the bytes put into the buffer and the data key after it. *)
Definition store_data_key (cipher : option AesCipher) (d : DataKey) : outcome (list Z * DataKey) :=
  _ ← assert_or_panic (length (dk_iv d) =? NONCE_SIZE);
  e ← match cipher with
      | Some c => ok_or (with_data d <$> AesCipher_encrypt c (dk_iv d) (dk_data d))
                    "Error while encrypting datakey in storeDataKey"
      | None => Ok d
      end;
  let buf := key_record (data_key_encode e) in
  d' ← match cipher with
       | Some c => ok_or (with_data e <$> AesCipher_decrypt c (dk_iv e) (dk_data e))
                     "Error while decrypting datakey in storeDataKey"
       | None => Ok e
       end;
  Ok (buf, d').

(** The loop of [write_to_file] over the keys, in the order of the map. *)
Fixpoint store_all (cipher : option AesCipher) (l : list (Z * DataKey)) : outcome (list Z * list (Z * DataKey)) :=
  match l with
  | [] => Ok ([], [])
  | (id, d) :: l' =>
      '(buf, d') ← store_data_key cipher d;
      '(rest, l'') ← store_all cipher l';
      Ok (buf ++ rest, (id, d') :: l'')
  end.

Definition e_sanity (cipher : option AesCipher) (nonce : list Z) : list Z :=
  match cipher with
  | Some c => default SANITYTEXT (AesCipher_encrypt c nonce SANITYTEXT)
  | None => SANITYTEXT
  end.

Definition registry_header (cipher : option AesCipher) (nonce : list Z) : list Z :=
  let e := e_sanity cipher nonce in
  nonce ++ put_u32 (u32 (Z.of_nat (length e))) ++ e.

(** [write_to_file]: the bytes of the new file, renamed into place. *)
Definition write_to_file (order : gmap Z DataKey → list (Z * DataKey)) (draw : nat) (r : KeyRegistryInner) :
    outcome (KeyRegistryInner * list Z) :=
  '(bufs, keys) ← store_all (ki_cipher r) (order (ki_data_keys r));
  Ok (mkKeyRegistryInner (list_to_map keys) (ki_last_created r) (ki_next_key_id r) (ki_fp r) (ki_cipher r)
        (ki_rotation r),
      registry_header (ki_cipher r) (nonce_at draw) ++ bufs).

(* ------------------------------------------------------------------ *)
(** ** Reading *)

(** [read_exact]: [None] at an unexpected end of the file. *)
Definition read_exact (n : nat) (r : list Z) : option (list Z * list Z) :=
  if n <=? length r then Some (take n r, drop n r) else None.

(** [valid]: the header is read and the sanity text compared. *)
Definition registry_valid (cipher : option AesCipher) (r : list Z) : outcome (list Z) :=
  '(nonce, r) ← ok_or (read_exact NONCE_SIZE r) "Error while reading IV for key registry.";
  '(len, r) ← ok_or (read_exact 4 r) "Error while reading saintytext.len for key registry.";
  '(e, r) ← ok_or (read_exact (Z.to_nat (be_decode len)) r) "Error while reading sanity text.";
  text ← match cipher with
         | Some c => ok_or (AesCipher_decrypt c nonce e) "Cannot decrypt saintytext during valid"
         | None => Ok e
         end;
  if bool_decide (text = SANITYTEXT) then Ok r else Err (EDB EncryptionKeyMismatch).

(** [KeyRegistryIter::next]: a record whose checksum, coding or cipher text is
    wrong is skipped; a short one ends the iteration. *)
Fixpoint iter_next (fuel : nat) (cipher : option AesCipher) (r : list Z) : outcome (option (DataKey * list Z)) :=
  match fuel with
  | 0 => Ok None
  | S fuel =>
      match read_exact 8 r with
      | None => Ok None
      | Some (hd, r) =>
          let len := Z.to_nat (be_decode (take 4 hd)) in
          let crc := be_decode (drop 4 hd) in
          match read_exact len r with
          | None => Ok None
          | Some (e, r) =>
              if negb (crc32_hash e =? crc)%Z then iter_next fuel cipher r
              else
                match data_key_decode e with
                | None => iter_next fuel cipher r
                | Some d =>
                    match cipher with
                    | None => Ok (Some (d, r))
                    | Some c =>
                        o ← decrypt_with_slice c (dk_iv d) (dk_data d);
                        match o with
                        | Some data => Ok (Some (with_data d data, r))
                        | None => iter_next fuel cipher r
                        end
                    end
                end
          end
      end
  end.

(** The loop of [read] over the iterator. *)
Definition read_key (r : KeyRegistryInner) (d : DataKey) : KeyRegistryInner :=
  mkKeyRegistryInner (<[dk_key_id d := d]> (ki_data_keys r)) (Z.max (ki_last_created r) (dk_created_at d))
    (Z.max (ki_next_key_id r) (dk_key_id d)) (ki_fp r) (ki_cipher r) (ki_rotation r).

Fixpoint read_keys (fuel : nat) (reg : KeyRegistryInner) (r : list Z) : outcome KeyRegistryInner :=
  match fuel with
  | 0 => Ok reg
  | S fuel =>
      o ← iter_next (S (length r)) (ki_cipher reg) r;
      match o with
      | Some (d, r) => read_keys fuel (read_key reg d) r
      | None => Ok reg
      end
  end.

(** Every record has a header of 8 bytes, so a turn per byte is enough. *)
Definition registry_read (reg : KeyRegistryInner) (file : list Z) : outcome KeyRegistryInner :=
  r ← registry_valid (ki_cipher reg) file;
  read_keys (S (length r)) reg r.

(** [KeyRegistryConfig::open]: the registry and the file. *)
Definition registry_open (order : gmap Z DataKey → list (Z * DataKey)) (draw : nat) (cfg : KeyRegistryConfig)
    (file : option (list Z)) : outcome (KeyRegistryInner * option (list Z)) :=
  reg ← KeyRegistryInner_new (kc_encrypt_key cfg) (kc_data_key_rotation_duration cfg);
  match file, kc_read_only cfg with
  | None, true => Ok (reg, None)
  | _, _ =>
      '(reg, content) ← match file with
                        | None => write_to_file order draw reg
                        | Some content => Ok (reg, content)
                        end;
      reg ← registry_read reg content;
      let reg := if kc_read_only cfg then reg else with_fp reg (Some content) in
      Ok (reg, Some content)
  end.

(* ------------------------------------------------------------------ *)
(** ** Handing out keys *)

(** The closure [valid_key]: [Some key] when the last key is young enough. *)
Definition valid_key (now : Z) (r : KeyRegistryInner) : outcome (option (option DataKey)) :=
  last ← PhyTs_into (ki_last_created r);
  Ok (if (last <=? now)%Z && (now - last <? ki_rotation r)%Z
      then Some (ki_data_keys r !! ki_next_key_id r) else None).

(** The part under the write lock, after the second check failed. *)
Definition rotate_key (now : Z) (draw : nat) (key : list Z) (r : KeyRegistryInner) :
    KeyRegistryInner * outcome (option DataKey) :=
  match next_id (ki_next_key_id r) with
  | Ok key_id =>
      let r := mkKeyRegistryInner (ki_data_keys r) (ki_last_created r) key_id (ki_fp r) (ki_cipher r) (ki_rotation r) in
      match PhyTs_now now with
      | Ok created_at =>
          match store_data_key (ki_cipher r) (mkDataKey key_id key (nonce_at draw) created_at) with
          | Ok (buf, d) =>
              (mkKeyRegistryInner (<[key_id := d]> (ki_data_keys r)) created_at key_id
                 ((λ f, f ++ buf) <$> ki_fp r) (ki_cipher r) (ki_rotation r),
               Ok (Some d))
          | Err e => (r, Err e)
          | Panic => (r, Panic)
          end
      | Err e => (r, Err e)
      | Panic => (r, Panic)
      end
  | Err e => (r, Err e)
  | Panic => (r, Panic)
  end.

(** [latest_datakey]: [inner_r] is the registry under the read lock, [inner_w] the
    one under the write lock, which another task may have changed. *)
Definition latest_datakey (inner_r inner_w : KeyRegistryInner) (now1 now2 now3 : Z) (draw : nat) (key : list Z) :
    KeyRegistryInner * outcome (option DataKey) :=
  match ki_cipher inner_r with
  | None => (inner_r, Ok None)
  | Some _ =>
      match valid_key now1 inner_r with
      | Ok (Some key) => (inner_r, Ok key)
      | Ok None =>
          match valid_key now2 inner_w with
          | Ok (Some key) => (inner_w, Ok key)
          | Ok None =>
              match ki_cipher inner_w with
              | Some _ => rotate_key now3 draw key inner_w
              | None => (inner_w, Panic)
              end
          | Err e => (inner_w, Err e)
          | Panic => (inner_w, Panic)
          end
      | Err e => (inner_r, Err e)
      | Panic => (inner_r, Panic)
      end
  end.

(** [latest_cipher] *)
Definition latest_cipher (inner_r inner_w : KeyRegistryInner) (now1 now2 now3 : Z) (draw : nat) (key : list Z) :
    KeyRegistryInner * outcome (option AesCipher) :=
  let '(r, o) := latest_datakey inner_r inner_w now1 now2 now3 draw key in
  (r, o' ← o;
      match o' with
      | Some d => c ← AesCipher_new (dk_data d) (dk_key_id d); Ok (Some c)
      | None => Ok None
      end).

(** [get_data_key] and [get_cipher] *)
Definition get_data_key (r : KeyRegistryInner) (id : Z) : outcome (option DataKey) :=
  if (id =? 0)%Z then Ok None
  else
    match ki_data_keys r !! id with
    | Some s => Ok (Some s)
    | None => Err (EDB InvalidDataKeyID)
    end.

Definition get_cipher (r : KeyRegistryInner) (id : Z) : outcome (option AesCipher) :=
  o ← get_data_key r id;
  match o with
  | Some d => c ← AesCipher_new (dk_data d) id; Ok (Some c)
  | None => Ok None
  end.

End Code.

(* ------------------------------------------------------------------ *)
(** ** Reading back what was written *)

(** What the code takes for granted of the ciphers: texts of bytes, with a tag of
    at most 16 bytes; and of the coding of a key: a few bytes besides its fields. *)
Class AeadBytes `{Aead} : Prop := {
  encrypt_bytes : ∀ c n d e, AesCipher_encrypt c n d = Some e → is_bytes d →
    is_bytes e ∧ length e ≤ length d + 16;
  nonce_bytes : ∀ i, is_bytes (nonce_at i)
}.

Class DataKeyShort `{DataKeyCodec} : Prop := {
  data_key_encode_short : ∀ d, length (data_key_encode d) ≤ length (dk_data d) + length (dk_iv d) + 64
}.

Section Laws.
Context `{!ChecksumCodec, !ChecksumLaws, !Aead, !AeadLaws, !AeadBytes, !DataKeyCodec, !DataKeyCodecLaws, !DataKeyShort}.

Lemma read_exact_app n r x a b : read_exact n r = Some (a, b) → read_exact n (r ++ x) = Some (a, b ++ x).
Proof.
  unfold read_exact. destruct (n <=? length r) eqn:E; [|done]. intros [= <- <-]. apply Nat.leb_le in E.
  rewrite length_app, (proj2 (Nat.leb_le _ _)) by lia. by rewrite take_app_le, drop_app_le.
Qed.

Lemma read_exact_exact a r : read_exact (length a) (a ++ r) = Some (a, r).
Proof.
  unfold read_exact. rewrite length_app, (proj2 (Nat.leb_le _ _)) by lia.
  by rewrite take_app_length, drop_app_length.
Qed.

(** A header that is accepted is accepted whatever follows it. *)
Lemma registry_valid_app cipher r x r0 :
  registry_valid cipher r = Ok r0 → registry_valid cipher (r ++ x) = Ok (r0 ++ x).
Proof.
  unfold registry_valid.
  destruct (read_exact NONCE_SIZE r) as [[nonce r1]|] eqn:E1; [|done]. rewrite (read_exact_app _ _ x _ _ E1). cbn.
  destruct (read_exact 4 r1) as [[len r2]|] eqn:E2; [|done]. rewrite (read_exact_app _ _ x _ _ E2). cbn.
  destruct (read_exact (Z.to_nat (be_decode len)) r2) as [[e r3]|] eqn:E3; [|done].
  rewrite (read_exact_app _ _ x _ _ E3). cbn.
  destruct (match cipher with Some c => _ | None => _ end) as [text| |]; cbn; [|done..].
  case_bool_decide; [|done]. by intros [= ->].
Qed.

(** The record of a stored key is read back as the key. *)
Lemma store_data_key_spec cipher d buf d' :
  data_key_wf d → length (dk_data d) ≤ 32 → store_data_key cipher d = Ok (buf, d') →
  d' = d ∧ 8 ≤ length buf ∧
  ∀ fuel rest, iter_next (S fuel) cipher (buf ++ rest) = Ok (Some (d, rest)).
Proof.
  intros (Hid & Hcr & Hdata & Hiv) Hlen Hs. unfold store_data_key in Hs.
  destruct (length (dk_iv d) =? NONCE_SIZE) eqn:En; [|done]. cbn in Hs. apply Nat.eqb_eq in En.
  assert (∃ e, (match cipher with
      | Some c => ok_or (with_data d <$> AesCipher_encrypt c (dk_iv d) (dk_data d))
                    "Error while encrypting datakey in storeDataKey"
      | None => Ok d end) = Ok e ∧ data_key_wf e ∧ length (dk_data e) ≤ 48 ∧ dk_iv e = dk_iv d ∧
      with_data e (dk_data d) = d ∧
      match cipher with
      | Some c => AesCipher_decrypt c (dk_iv e) (dk_data e) = Some (dk_data d)
      | None => e = d end) as (e & He & Hwf & Hle & Hive & Hback & Hdec).
  { destruct cipher as [c|].
    - destruct (AesCipher_encrypt c (dk_iv d) (dk_data d)) as [ct|] eqn:Ec; [|done].
      destruct (encrypt_bytes _ _ _ _ Ec Hdata) as [Hb Hl]. exists (with_data d ct).
      split_and!; cbn; try done; [lia|by destruct d|].
      destruct c; [by apply aes128_roundtrip|by apply aes256_roundtrip].
    - exists d. split_and!; try done; [lia|by destruct d]. }
  rewrite He in Hs. cbn in Hs.
  assert (buf = key_record (data_key_encode e) ∧ d' = d) as [-> ->].
  { destruct cipher as [c|]; cbn in Hs.
    - rewrite Hdec in Hs. cbn in Hs. rewrite Hback in Hs. by simplify_eq.
    - by simplify_eq. }
  split; [done|]. pose proof (data_key_encode_short e) as Hshort. rewrite Hive, En in Hshort.
  set (b := data_key_encode e) in *. unfold NONCE_SIZE in Hshort.
  assert (length (put_u32 (u32 (Z.of_nat (length b)))) = 4) as L1 by apply length_be_encode.
  assert (length (put_u32 (crc32_hash b)) = 4) as L2 by apply length_be_encode.
  split; [unfold key_record; rewrite !length_app; lia|]. intros fuel rest.
  cbn [iter_next]. unfold key_record. rewrite <- !app_assoc. rewrite (app_assoc (put_u32 _) (put_u32 _)).
  assert (read_exact 8 ((put_u32 (u32 (Z.of_nat (length b))) ++ put_u32 (crc32_hash b)) ++ b ++ rest) =
    Some (put_u32 (u32 (Z.of_nat (length b))) ++ put_u32 (crc32_hash b), b ++ rest)) as ->.
  { rewrite <- (read_exact_exact (put_u32 (u32 (Z.of_nat (length b))) ++ put_u32 (crc32_hash b)) (b ++ rest)).
    by rewrite length_app, L1, L2. }
  rewrite take_app_length', drop_app_length' by done.
  unfold put_u32. rewrite !(be_decode_encode_id 4).
  2: { apply crc32_hash_range. }
  2: { unfold u32, in_width. pose proof (Z.mod_pos_bound (Z.of_nat (length b)) (2 ^ 32)). lia. }
  replace (Z.to_nat (u32 (Z.of_nat (length b)))) with (length b)
    by (unfold u32; rewrite Z.mod_small by lia; lia).
  rewrite read_exact_exact, Z.eqb_refl. cbn [negb]. unfold b.
  rewrite data_key_roundtrip by (done || (rewrite Hive, En; unfold NONCE_SIZE; lia)).
  destruct cipher as [c|]; [|by subst e].
  unfold decrypt_with_slice. rewrite Hive in *. rewrite En. cbn.
  rewrite Hdec. cbn. by rewrite Hback.
Qed.

Lemma e_sanity_short cipher nonce : length (e_sanity cipher nonce) ≤ 28.
Proof.
  unfold e_sanity. destruct cipher as [c|]; [|cbn; lia].
  destruct (AesCipher_encrypt c nonce SANITYTEXT) as [e|] eqn:E; [|cbn; lia].
  apply encrypt_bytes in E as [_ Hl]; [exact Hl|].
  vm_compute. repeat constructor; discriminate.
Qed.

(** An accepted header has no bytes left. *)
Lemma registry_valid_header cipher i r0 :
  registry_valid cipher (registry_header cipher (nonce_at i)) = Ok r0 → r0 = [].
Proof.
  unfold registry_valid, registry_header. pose proof (e_sanity_short cipher (nonce_at i)) as Hs.
  set (e := e_sanity cipher (nonce_at i)) in *.
  rewrite <- (length_nonce_at i) at 1. rewrite read_exact_exact. cbn [ok_or mbind outcome_bind].
  replace 4 with (length (put_u32 (u32 (Z.of_nat (length e))))) at 1 by apply length_put_u32.
  rewrite read_exact_exact. cbn [ok_or mbind outcome_bind].
  unfold put_u32. rewrite (be_decode_encode_id 4).
  2: { unfold u32, in_width. pose proof (Z.mod_pos_bound (Z.of_nat (length e)) (2 ^ 32)). lia. }
  replace (Z.to_nat (u32 (Z.of_nat (length e)))) with (length e) by (unfold u32; rewrite Z.mod_small by lia; lia).
  pose proof (read_exact_exact e []) as ->%(eq_trans (f_equal _ (eq_sym (app_nil_r e)))).
  cbn [ok_or mbind outcome_bind].
  destruct (match cipher with Some c => _ | None => _ end) as [text| |]; cbn; [|done..].
  case_bool_decide; [|done]. by intros [= <-].
Qed.

Definition stored (cipher : option AesCipher) (d : DataKey) (buf : list Z) : Prop :=
  data_key_wf d ∧ length (dk_data d) ≤ 32 ∧ store_data_key cipher d = Ok (buf, d).

Lemma read_key_cipher reg d : ki_cipher (read_key reg d) = ki_cipher reg.
Proof. done. Qed.

Lemma read_keys_stored keys bufs reg fuel :
  Forall2 (stored (ki_cipher reg)) keys bufs → length (concat bufs) < fuel →
  read_keys fuel reg (concat bufs) = Ok (foldl read_key reg keys).
Proof.
  remember (ki_cipher reg) as cipher eqn:Hc. intros Hst2. revert reg Hc fuel.
  induction Hst2 as [|d buf keys bufs (Hwf & Hlen & Hst) _ IH]; intros reg Hc fuel Hf;
    (destruct fuel as [|fuel]; [cbn in Hf; lia|]).
  - done.
  - cbn [concat] in *. rewrite length_app in Hf.
    destruct (store_data_key_spec cipher d buf d Hwf Hlen Hst) as (_ & H8 & Hnext).
    cbn [read_keys]. rewrite <- Hc, Hnext. cbn [mbind outcome_bind]. apply IH; [done|lia].
Qed.

(* ------------------------------------------------------------------ *)
(** ** The life of a registry *)

Definition fresh (cfg : KeyRegistryConfig) (cipher : option AesCipher) : KeyRegistryInner :=
  mkKeyRegistryInner ∅ 0 0 None cipher (kc_data_key_rotation_duration cfg).

(** The registry of a configuration, with the keys it handed out. *)
Inductive served (cfg : KeyRegistryConfig) : KeyRegistryInner → list DataKey → Prop :=
| served_open order draw r f :
    order ∅ = [] → kc_read_only cfg = false →
    registry_open order draw cfg None = Ok (r, f) → served cfg r []
| served_key r handed now1 now2 now3 draw key r' o :
    served cfg r handed → is_bytes key → length key ≤ 32 → (now3 < 2 ^ 64 * NANOS)%Z →
    latest_datakey r r now1 now2 now3 draw key = (r', Ok o) →
    served cfg r' (option_list o ++ handed).

Record reg_inv (cfg : KeyRegistryConfig) (r : KeyRegistryInner) (keys : list DataKey) : Prop := {
  ri_new : KeyRegistryInner_new (kc_encrypt_key cfg) (kc_data_key_rotation_duration cfg)
           = Ok (fresh cfg (ki_cipher r));
  ri_file : ∃ hdr bufs, ki_fp r = Some (hdr ++ concat bufs) ∧ registry_valid (ki_cipher r) hdr = Ok [] ∧
              Forall2 (stored (ki_cipher r)) keys bufs;
  ri_keys : ki_data_keys r = ki_data_keys (foldl read_key (fresh cfg (ki_cipher r)) keys);
  ri_next : ki_next_key_id r = ki_next_key_id (foldl read_key (fresh cfg (ki_cipher r)) keys);
  ri_ids : ∀ id d, ki_data_keys r !! id = Some d → dk_key_id d = id ∧ (1 ≤ id ≤ ki_next_key_id r)%Z;
  ri_pos : (0 ≤ ki_next_key_id r)%Z;
  ri_last : match last keys with
            | Some d => ki_last_created r = dk_created_at d ∧ ki_data_keys r !! ki_next_key_id r = Some d
            | None => ki_last_created r = 0%Z ∧ ki_data_keys r = ∅
            end
}.

Lemma KeyRegistryInner_new_fresh cfg r :
  KeyRegistryInner_new (kc_encrypt_key cfg) (kc_data_key_rotation_duration cfg) = Ok r →
  r = fresh cfg (ki_cipher r).
Proof. unfold KeyRegistryInner_new. destruct (_ && _); [done|]. by intros [= <-]. Qed.

Lemma reg_inv_open cfg order draw r f :
  order ∅ = [] → kc_read_only cfg = false → registry_open order draw cfg None = Ok (r, f) → reg_inv cfg r [].
Proof.
  intros Ho Hro. unfold registry_open. rewrite Hro.
  destruct (KeyRegistryInner_new _ _) as [r0| |] eqn:Hn; cbn; [|done..].
  pose proof (KeyRegistryInner_new_fresh cfg r0 Hn) as Hr0. set (c := ki_cipher r0) in *.
  unfold write_to_file. rewrite Hr0. cbn. rewrite Ho. cbn. rewrite app_nil_r. unfold registry_read. cbn.
  destruct (registry_valid c _) as [rest| |] eqn:Hv; cbn [mbind outcome_bind]; [|done..].
  pose proof (registry_valid_header _ _ _ Hv) as ->. cbn. intros [= <- <-].
  split; cbn; try done; try lia.
  - by rewrite Hn, Hr0.
  - exists (registry_header c (nonce_at draw)), []. cbn. rewrite app_nil_r. split_and!; done.
Qed.

Lemma foldl_read_key_app reg keys d :
  foldl read_key reg (keys ++ [d]) = read_key (foldl read_key reg keys) d.
Proof. by rewrite foldl_app. Qed.

Lemma foldl_read_key_cipher reg keys : ki_cipher (foldl read_key reg keys) = ki_cipher reg.
Proof. revert reg. induction keys as [|d keys IH]; intros reg; [done|]. cbn. by rewrite IH. Qed.

Lemma reg_inv_rotate cfg r keys now draw key r' o :
  reg_inv cfg r keys → is_bytes key → length key ≤ 32 → (now < 2 ^ 64 * NANOS)%Z →
  rotate_key now draw key r = (r', Ok o) →
  ∃ d, o = Some d ∧ dk_key_id d = (ki_next_key_id r + 1)%Z ∧ dk_data d = key ∧
       reg_inv cfg r' (keys ++ [d]) ∧
       ki_data_keys r' = <[(ki_next_key_id r + 1)%Z := d]> (ki_data_keys r) ∧ ki_cipher r' = ki_cipher r.
Proof.
  intros [Hn (hdr & bufs & Hfp & Hv & Hf2) Hk Hnx Hids Hpos _] Hb Hl Hnow. unfold rotate_key, next_id.
  destruct (u64_add (ki_next_key_id r) 1) as [id| |] eqn:Hid; [|done..].
  unfold u64_add in Hid. destruct (_ <=? _)%Z eqn:Hmax; [|done]. injection Hid as <-. apply Z.leb_le in Hmax.
  destruct (PhyTs_now now) as [created| |] eqn:Hc; [|done..]. cbn.
  unfold PhyTs_now in Hc. destruct (0 <=? now)%Z eqn:Hnn; [|done]. injection Hc as <-. apply Z.leb_le in Hnn.
  set (d := mkDataKey _ key (nonce_at draw) _).
  destruct (store_data_key (ki_cipher r) d) as [[buf d']| |] eqn:Hst; [|done..].
  assert (data_key_wf d) as Hwf.
  { unfold data_key_wf, d, in_width, NANOS, U64_MAX in *. cbn [dk_key_id dk_created_at dk_data dk_iv].
    split_and!; [lia|lia|apply Z.div_pos; lia|apply Z.div_lt_upper_bound; lia|done|apply nonce_bytes]. }
  destruct (store_data_key_spec _ _ _ _ Hwf Hl Hst) as (-> & _ & _). intros [= <- <-].
  exists d. split_and!; try done. split; cbn; try lia.
  - done.
  - exists hdr, (bufs ++ [buf]). rewrite Hfp, concat_app. cbn. rewrite app_nil_r, app_assoc. split_and!; [done..|].
    apply Forall2_app; [done|]. constructor; [|constructor]. by split_and!.
  - rewrite foldl_read_key_app. cbn. by rewrite <- Hk.
  - rewrite foldl_read_key_app. cbn. rewrite <- Hnx. lia.
  - intros i d0 [[<- <-]|[Hne Hl0]]%lookup_insert_Some; [cbn; lia|]. apply Hids in Hl0. lia.
  - rewrite last_snoc. cbn. by rewrite lookup_insert_eq.
Qed.

Lemma served_inv cfg r handed :
  served cfg r handed →
  ∃ keys, reg_inv cfg r keys ∧ ∀ d, d ∈ handed → ki_data_keys r !! dk_key_id d = Some d.
Proof.
  induction 1 as [order draw r f Ho Hro Hopen|r handed now1 now2 now3 draw key r' o Hs (keys & Hinv & Hh) Hb Hl Hnow Hlat].
  - exists []. split; [by eapply reg_inv_open|]. by intros d Hd%elem_of_nil.
  - assert (∀ o', r' = r → Some o' = Some (ki_data_keys r !! ki_next_key_id r) → o = o' →
      ∃ keys, reg_inv cfg r' keys ∧ ∀ d, d ∈ option_list o ++ handed → ki_data_keys r' !! dk_key_id d = Some d) as Hsame.
    { intros o' -> [= ->] ->. exists keys. split; [done|].
      intros d [Hd|Hd]%elem_of_app; [|by apply Hh].
      destruct (ki_data_keys r !! ki_next_key_id r) as [d0|] eqn:E; [|by apply elem_of_nil in Hd].
      apply list_elem_of_singleton in Hd as ->. by rewrite (proj1 (ri_ids _ _ _ Hinv _ _ E)). }
    unfold latest_datakey in Hlat. destruct (ki_cipher r) as [c|] eqn:Hc.
    + destruct (valid_key now1 r) as [[k|]| |] eqn:Hv; [|..|done|done].
      { unfold valid_key in Hv. destruct (PhyTs_into _) as [last| |]; cbn in Hv; [|done..].
        destruct (_ && _); simplify_eq. by eapply Hsame. }
      destruct (valid_key now2 r) as [[k|]| |] eqn:Hv2; [|..|done|done].
      { unfold valid_key in Hv2. destruct (PhyTs_into _) as [last| |]; cbn in Hv2; [|done..].
        destruct (_ && _); simplify_eq. by eapply Hsame. }
      destruct (reg_inv_rotate _ _ _ _ _ _ _ _ Hinv Hb Hl Hnow Hlat) as (d & -> & Hid & _ & Hinv' & Hkeys & _).
      exists (keys ++ [d]). split; [done|]. rewrite Hkeys. cbn.
      intros d0 [->|Hd]%elem_of_cons; [by rewrite Hid, lookup_insert_eq|].
      apply Hh in Hd. rewrite lookup_insert_ne; [done|]. apply (ri_ids _ _ _ Hinv) in Hd. lia.
    + injection Hlat as <- <-. exists keys. split; [done|]. cbn. done.
Qed.

(** C32: a registry whose configuration is opened again finds the keys it had: the
    same map of keys and the same next identifier, and every key it ever handed
    out is found by its identifier. *)
Theorem registry_reopens cfg r handed order draw :
  served cfg r handed → kc_read_only cfg = false →
  ∃ f r', ki_fp r = Some f ∧ registry_open order draw cfg (Some f) = Ok (r', Some f) ∧
    ki_data_keys r' = ki_data_keys r ∧ ki_next_key_id r' = ki_next_key_id r ∧ ki_fp r' = Some f ∧
    ∀ d, d ∈ handed → get_data_key r' (dk_key_id d) = Ok (Some d).
Proof.
  intros Hs Hro. destruct (served_inv _ _ _ Hs) as (keys & [Hn (hdr & bufs & Hfp & Hv & Hf2) Hk Hnx Hids Hpos _] & Hh).
  exists (hdr ++ concat bufs).
  assert (registry_open order draw cfg (Some (hdr ++ concat bufs)) =
    Ok (with_fp (foldl read_key (fresh cfg (ki_cipher r)) keys) (Some (hdr ++ concat bufs)), Some (hdr ++ concat bufs))) as Ho.
  { assert (registry_read (fresh cfg (ki_cipher r)) (hdr ++ concat bufs) =
              Ok (foldl read_key (fresh cfg (ki_cipher r)) keys)) as Hread.
    { unfold registry_read. change (ki_cipher (fresh _ _)) with (ki_cipher r).
      rewrite (registry_valid_app _ _ (concat bufs) _ Hv). apply read_keys_stored; [done|cbn; lia]. }
    unfold registry_open. rewrite Hn, Hro. cbn [mbind outcome_bind]. by rewrite Hread. }
  eexists. split; [done|]. split; [exact Ho|]. cbn. split_and!; try done.
  intros d Hd. apply Hh in Hd as Hl. unfold get_data_key. cbn. rewrite <- Hk, Hl.
  apply Hids in Hl. by rewrite (proj2 (Z.eqb_neq _ _)) by lia.
Qed.
(** With an encryption key, the data key handed out is the newest one and
    younger than the rotation period by the clock read, or a new one; none is
    handed out exactly when the registry has none yet and the rotation period is
    longer than the time since the epoch. *)
Theorem data_key_age cfg r handed now1 now2 now3 draw key r' o :
  served cfg r handed → is_bytes key → length key ≤ 32 → (now3 < 2 ^ 64 * NANOS)%Z → ki_cipher r ≠ None →
  latest_datakey r r now1 now2 now3 draw key = (r', Ok o) →
  match o with
  | Some d =>
      let young now := (dk_created_at d * NANOS ≤ now < dk_created_at d * NANOS + ki_rotation r)%Z in
      ki_data_keys r' !! ki_next_key_id r' = Some d ∧
      (young now1 ∨ young now2 ∨ dk_data d = key ∧ dk_key_id d = (ki_next_key_id r + 1)%Z)
  | None => ki_data_keys r = ∅ ∧ ((0 ≤ now1 < ki_rotation r)%Z ∨ (0 ≤ now2 < ki_rotation r)%Z)
  end.
Proof.
  intros Hs Hb Hl Hnow Hc Hlat. destruct (served_inv _ _ _ Hs) as (keys & Hinv & _).
  pose proof (ri_last _ _ _ Hinv) as Hlast.
  assert (∀ now k, valid_key now r = Ok (Some k) →
    match k with
    | Some d => ki_data_keys r !! ki_next_key_id r = Some d ∧
                (dk_created_at d * NANOS ≤ now < dk_created_at d * NANOS + ki_rotation r)%Z
    | None => ki_data_keys r = ∅ ∧ (0 ≤ now < ki_rotation r)%Z
    end) as Hvalid.
  { intros now k. unfold valid_key, PhyTs_into. destruct (_ <=? 2 ^ 63 - 1)%Z; cbn; [|done].
    destruct (_ && _) eqn:Hy; [|done]. intros [= <-]. apply andb_prop in Hy as [H1'%Z.leb_le H2'%Z.ltb_lt].
    destruct (last keys) as [d|]; destruct Hlast as [Hcr Hd].
    - rewrite Hd. rewrite Hcr in *. split; [done|lia].
    - rewrite Hd, lookup_empty, Hcr in *. split; [done|lia]. }
  unfold latest_datakey in Hlat. destruct (ki_cipher r) as [c|]; [|done].
  destruct (valid_key now1 r) as [[k|]| |] eqn:Hv; [|..|done|done].
  { injection Hlat as <- <-. apply Hvalid in Hv. destruct k; naive_solver. }
  destruct (valid_key now2 r) as [[k|]| |] eqn:Hv2; [|..|done|done].
  { injection Hlat as <- <-. apply Hvalid in Hv2. destruct k; naive_solver. }
  destruct (reg_inv_rotate _ _ _ _ _ _ _ _ Hinv Hb Hl Hnow Hlat) as (d & -> & Hid & Hdk & Hinv' & Hkeys & _).
  pose proof (ri_last _ _ _ Hinv') as Hl'. rewrite last_snoc in Hl'. cbn. split; [apply Hl'|]. auto.
Qed.

End Laws.

(* ------------------------------------------------------------------ *)
(** ** A coding of data keys, and concrete registries *)

(** The two texts are separated by a mark that is no byte. *)
Fixpoint until_mark (l : list Z) : option (list Z * list Z) :=
  match l with
  | [] => None
  | c :: l' => if (c =? 256)%Z then Some ([], l') else p ← until_mark l'; Some (c :: p.1, p.2)
  end.

#[export] Instance toy_data_key : DataKeyCodec | 100 := {|
  data_key_encode d := put_u64 (dk_key_id d) ++ put_u64 (dk_created_at d) ++ dk_data d ++ 256%Z :: dk_iv d;
  data_key_decode l :=
    p ← until_mark (drop 16 l);
    Some (mkDataKey (be_decode (take 8 l)) p.1 p.2 (be_decode (take 8 (drop 8 l))))
|}.

Lemma until_mark_app a b : is_bytes a → until_mark (a ++ 256%Z :: b) = Some (a, b).
Proof.
  induction 1 as [|c a Hc _ IH]; [done|]. cbn. unfold in_width in Hc.
  rewrite (proj2 (Z.eqb_neq _ _)) by lia. by rewrite IH.
Qed.

#[export] Instance toy_data_key_laws : DataKeyCodecLaws (H := toy_data_key) | 100.
Proof.
  split. intros [id data iv created] (Hid & Hcr & Hd & Hiv) _.
  cbn [data_key_decode data_key_encode toy_data_key dk_key_id dk_data dk_iv dk_created_at] in *.
  set (rest := data ++ 256%Z :: iv).
  assert (drop 16 (put_u64 id ++ put_u64 created ++ rest) = rest) as ->.
  { rewrite app_assoc, drop_app_length'; [done|]. by rewrite length_app, !length_put_u64. }
  rewrite (drop_app_length' (put_u64 id)), (take_app_length' (put_u64 created)), (take_app_length' (put_u64 id))
    by by rewrite length_put_u64.
  unfold rest. rewrite until_mark_app by done. cbn [mbind option_bind fst snd].
  unfold put_u64. by rewrite !be_decode_encode_id.
Qed.

#[export] Instance toy_data_key_short : DataKeyShort (H := toy_data_key) | 100.
Proof.
  split. intros d. cbn [data_key_encode toy_data_key].
  rewrite !length_app, !length_put_u64, length_cons. lia.
Qed.

#[export] Instance toy_aead_bytes : AeadBytes (H := toy_aead) | 100.
Proof.
  split.
  - intros [k i|k i] n d e; cbn; unfold toy_encrypt; intros [= <-] Hd; split; cbn; try lia;
      (constructor; [unfold in_width; lia|done]).
  - intros i. cbn [nonce_at toy_aead]. apply Forall_replicate. unfold in_width.
    pose proof (Z.mod_pos_bound (Z.of_nat i) 256). lia.
Qed.

Module KeyRegistryExamples.

Definition order (m : gmap Z DataKey) : list (Z * DataKey) := map_to_list m.
Definition config : KeyRegistryConfig := mkKeyRegistryConfig (replicate 16 5%Z) (10 * 24 * 60 * 60 * NANOS) false.
Definition now : Z := 1700000000 * NANOS.
Definition later : Z := 1800000000 * NANOS.

Definition opened : KeyRegistryInner :=
  match registry_open order 1 config None with Ok (r, _) => r | _ => fresh config None end.
Definition key1 : list Z := replicate 16 7%Z.
Definition rotated : KeyRegistryInner := (latest_datakey opened opened now now now 2 key1).1.
Definition d1 : DataKey := mkDataKey 1 key1 (nonce_at 2) 1700000000.

Lemma bytes_key1 : is_bytes key1.
Proof. apply Forall_replicate. unfold in_width. lia. Qed.

Lemma opened_served : served config opened [].
Proof.
  eapply (served_open config order 1); [reflexivity|reflexivity|]. vm_compute. reflexivity.
Qed.

Lemma rotated_served : served config rotated [d1].
Proof.
  apply (served_key config opened [] now now now 2 key1 rotated (Some d1) opened_served bytes_key1).
  - vm_compute. lia.
  - vm_compute. reflexivity.
  - vm_compute. reflexivity.
Qed.

Lemma registry_reopens_witness :
  ∃ f r', ki_fp rotated = Some f ∧ registry_open order 3 config (Some f) = Ok (r', Some f) ∧
    ki_data_keys r' = ki_data_keys rotated ∧ ki_next_key_id r' = ki_next_key_id rotated ∧ ki_fp r' = Some f ∧
    ∀ d, d ∈ [d1] → get_data_key r' (dk_key_id d) = Ok (Some d).
Proof. exact (registry_reopens config rotated [d1] order 3 rotated_served eq_refl). Defined.

(** A later call with the first key too old. *)
Definition key2 : list Z := replicate 16 9%Z.
Definition d2 : DataKey := mkDataKey 2 key2 (nonce_at 4) 1800000000.
Definition rotated2 : KeyRegistryInner := (latest_datakey rotated rotated later later later 4 key2).1.

Lemma data_key_age_witness :
  ki_data_keys rotated2 !! ki_next_key_id rotated2 = Some d2 ∧
  ((dk_created_at d2 * NANOS ≤ later < dk_created_at d2 * NANOS + ki_rotation rotated)%Z ∨
   (dk_created_at d2 * NANOS ≤ later < dk_created_at d2 * NANOS + ki_rotation rotated)%Z ∨
   dk_data d2 = key2 ∧ dk_key_id d2 = (ki_next_key_id rotated + 1)%Z).
Proof.
  apply (data_key_age config rotated [d1] later later later 4 key2 rotated2 (Some d2) rotated_served).
  - apply Forall_replicate. unfold in_width. lia.
  - vm_compute. lia.
  - vm_compute. reflexivity.
  - vm_compute. discriminate.
  - vm_compute. reflexivity.
Defined.

(** A rotation period longer than the time since the epoch: no key is ever made,
    and the files are written in clear. *)
Definition never : KeyRegistryConfig := mkKeyRegistryConfig (replicate 16 5%Z) (2 ^ 64 * NANOS) false.

Example never_rotating_does_not_encrypt :
  match registry_open order 1 never None with
  | Ok (r, _) => (latest_cipher r r now now now 2 key1).2 = Ok None ∧ ki_cipher r ≠ None
  | _ => False
  end.
Proof. vm_compute. split; [reflexivity|discriminate]. Qed.

(** The last record of a file is torn, the registry is opened and a new key is
    made: when it is opened again the new key is not found. *)
Definition torn : option (list Z) := (λ f, take (length f - 4) f) <$> ki_fp rotated2.

Example torn_record_swallows_the_next :
  match registry_open order 5 config torn with
  | Ok (r, _) =>
      let r' := (latest_datakey r r later later later 6 key2).1 in
      get_data_key r' 2 = Ok (Some (mkDataKey 2 key2 (nonce_at 6) 1800000000)) ∧
      match registry_open order 7 config (ki_fp r') with
      | Ok (r'', _) => get_data_key r'' 2 = Err (EDB InvalidDataKeyID)
      | _ => False
      end
  | _ => False
  end.
Proof. vm_compute. split; reflexivity. Qed.

End KeyRegistryExamples.
