(* ===== verification/Pool.v ===== *)
(** * Pool: tasks of the thread pool

    [spawn], [spawn_fifo] and [AsyncRayonHandle] of src/src/util/rayon.rs as a step
    relation.  A spawned function runs on some thread of the pool at some time; its
    result, or the payload of its panic, goes through a channel for one value to the
    holder of the handle, who polls it.  The two ways to spawn differ in the order in
    which the pool prefers tasks; here a thread may take any waiting task, which
    covers both.  The pool is global and never torn down, so a task is not dropped
    before it ran. *)
From stdpp Require Import base list relations strings.
From Stdlib Require Import Lia.
From S2P Require Import Prelude.

Local Open Scope nat_scope.

Section Pool.
Context {R : Type}.

(** [thread::Result]: what [catch_unwind] makes of a call. *)
Inductive thread_result : Type :=
| Returned (r : R)
| Panicked (payload : string).

(** The channel of a task, seen from its receiver: empty, with the value, with the
    value already received, with the sender gone without a value, or dropped with
    its handle. *)
Inductive Oneshot : Type :=
| Empty
| Sent (result : thread_result)
| Received
| SenderGone
| HandleDropped.

Inductive Stage : Type := Waiting | Running | Ended.

(** A task: what its function does when it is called, where it is, and its channel. *)
Record PoolTask : Type := mkPoolTask {
  pt_func : thread_result;
  pt_stage : Stage;
  pt_rx : Oneshot
}.

(** The tasks spawned so far; a handle is the number of its task. *)
#[local] Abbreviation Tasks := (list PoolTask).

(** [spawn] and [spawn_fifo]: a new channel, and a task that waits for a thread. *)
Definition spawn (func : thread_result) (p : Tasks) : nat * Tasks :=
  (length p, p ++ [mkPoolTask func Waiting Empty]).

(** [tx.send]: without a receiver the value is lost, and the error is ignored. *)
Definition send_result (result : thread_result) (c : Oneshot) : Oneshot :=
  match c with HandleDropped => HandleDropped | _ => Sent result end.

(** The body of the task: the function is called, its panic caught, and the result
    sent. *)
Definition end_task (t : PoolTask) : PoolTask :=
  mkPoolTask (pt_func t) Ended (send_result (pt_func t) (pt_rx t)).

(** [AsyncRayonHandle::poll] *)
Inductive Poll : Type := Pending | Ready (r : R) | Unwind (payload : string).

Definition AsyncRayonHandle_poll (c : Oneshot) : Poll * Oneshot :=
  match c with
  | Empty => (Pending, Empty)
  | Sent (Returned r) => (Ready r, Received)
  | Sent (Panicked payload) => (Unwind payload, Received)
  | Received => (Unwind "called after complete", Received)
  | SenderGone | HandleDropped => (Unwind "Unreachable error: Tokio channel closed", c)
  end.

Inductive pool_step : Tasks → Tasks → Prop :=
| ps_spawn p func : pool_step p (spawn func p).2
| ps_start p i t :
    p !! i = Some t → pt_stage t = Waiting →
    pool_step p (<[i := mkPoolTask (pt_func t) Running (pt_rx t)]> p)
| ps_end p i t :
    p !! i = Some t → pt_stage t = Running → pool_step p (<[i := end_task t]> p)
| ps_poll p i t :
    p !! i = Some t → pt_rx t ≠ HandleDropped →
    pool_step p (<[i := mkPoolTask (pt_func t) (pt_stage t) (AsyncRayonHandle_poll (pt_rx t)).2]> p)
| ps_drop p i t :
    p !! i = Some t → pool_step p (<[i := mkPoolTask (pt_func t) (pt_stage t) HandleDropped]> p).

(** ** Every handle gets the result of its own function *)

(** A value in the channel is the one of the function, and it is there from the end
    of the task until it is received. *)
Definition task_inv (t : PoolTask) : Prop :=
  match pt_rx t with
  | Empty => pt_stage t ≠ Ended
  | Sent result => pt_stage t = Ended ∧ result = pt_func t
  | Received => pt_stage t = Ended
  | SenderGone => False
  | HandleDropped => True
  end.

Lemma pool_inv_step p p' : Forall task_inv p → pool_step p p' → Forall task_inv p'.
Proof.
  intros Hp Hs. destruct Hs as [p func|p i t Hi Hst|p i t Hi Hst|p i t Hi Hr|p i t Hi];
    [apply Forall_app; split; [done|by repeat constructor]|..];
    (apply Forall_insert; [done|]); pose proof (Forall_lookup_1 _ _ _ _ Hp Hi) as Ht;
    destruct t as [f s c]; cbn in *; unfold task_inv in *; cbn in *.
  - subst s. by destruct c as [|[]| | |]; naive_solver.
  - subst s. destruct c; naive_solver.
  - destruct c as [|[]| | |]; naive_solver.
  - done.
Qed.

Lemma pool_inv_reachable p : rtc pool_step [] p → Forall task_inv p.
Proof.
  intros Hr. remember ([] : Tasks) as p0 eqn:E.
  assert (Forall task_inv p0) as Hi by (subst; constructor). clear E.
  induction Hr; [done|]. eauto using pool_inv_step.
Qed.

(** The function of a handle stays the same. *)
Lemma func_kept p p' i t :
  p !! i = Some t → pool_step p p' → ∃ t', p' !! i = Some t' ∧ pt_func t' = pt_func t.
Proof.
  intros Hi Hs.
  assert (∀ j u u', p !! j = Some u → pt_func u' = pt_func u →
    ∃ t', <[j := u']> p !! i = Some t' ∧ pt_func t' = pt_func t) as Hins.
  { intros j u u' Hj Hu. destruct (decide (i = j)) as [<-|Hne].
    - exists u'. rewrite list_lookup_insert_eq by by eapply lookup_lt_Some. split; [done|]. congruence.
    - exists t. by rewrite list_lookup_insert_ne. }
  destruct Hs as [p func|p j u Hj _|p j u Hj _|p j u Hj _|p j u Hj]; [|by eapply Hins..].
  exists t. cbn. by rewrite lookup_app_l by by eapply lookup_lt_Some.
Qed.

Lemma func_kept_rtc p p' i t :
  p !! i = Some t → rtc pool_step p p' → ∃ t', p' !! i = Some t' ∧ pt_func t' = pt_func t.
Proof.
  intros Hi Hr. revert t Hi. induction Hr as [p|p p1 p' Hs _ IH]; intros t Hi; [by exists t|].
  destruct (func_kept _ _ _ _ Hi Hs) as (t1 & H1 & <-). exact (IH _ H1).
Qed.

Definition answer (result : thread_result) : Poll :=
  match result with Returned r => Ready r | Panicked payload => Unwind payload end.

(** A task that has not ended can be brought to its end. *)
Lemma task_ends p i t :
  p !! i = Some t → pt_rx t = Empty → pt_stage t ≠ Ended →
  ∃ p' t', rtc pool_step p p' ∧ p' !! i = Some t' ∧ pt_rx t' = Sent (pt_func t).
Proof.
  intros Hi Hc Hs. pose proof (lookup_lt_Some _ _ _ Hi) as Hlt.
  assert (∀ q u, q !! i = Some u → pt_stage u = Running → pt_rx u = Empty →
    ∃ p' t', pool_step q p' ∧ p' !! i = Some t' ∧ pt_rx t' = Sent (pt_func u)) as Hrun.
  { intros q u Hq Hst Hu. exists (<[i := end_task u]> q), (end_task u). split_and!.
    - by apply ps_end.
    - apply list_lookup_insert_eq. by eapply lookup_lt_Some.
    - cbn. by rewrite Hu. }
  destruct (pt_stage t) eqn:Hst; [|..|done].
  2: { destruct (Hrun p t Hi Hst Hc) as (p' & t' & ? & ? & ?). exists p', t'. split_and!; [by apply rtc_once|done..]. }
  set (u := mkPoolTask (pt_func t) Running (pt_rx t)).
  destruct (Hrun (<[i := u]> p) u) as (p' & t' & ? & ? & ?);
    [by apply list_lookup_insert_eq|done|done|].
  exists p', t'. split_and!; [|done..]. eapply rtc_l; [by apply ps_start|]. by apply rtc_once.
Qed.

(** Whatever the order in which the threads of the pool take tasks, end them and
    the handles are polled or dropped: a handle that was neither answered nor dropped
    is pending until its task ended and is then answered with what its own function
    returned, or unwinds with its panic, and never finds its channel closed; and from
    every such state the pool can get it answered. *)
Theorem handle_answered (p : Tasks) (func : thread_result) (p' : Tasks) (t : PoolTask) :
  rtc pool_step [] p → rtc pool_step (spawn func p).2 p' →
  p' !! (spawn func p).1 = Some t → pt_rx t ≠ Received → pt_rx t ≠ HandleDropped →
  (AsyncRayonHandle_poll (pt_rx t)).1 = (match pt_stage t with Ended => answer func | _ => Pending end) ∧
  ∃ p'' t', rtc pool_step p' p'' ∧ p'' !! (spawn func p).1 = Some t' ∧
    (AsyncRayonHandle_poll (pt_rx t')).1 = answer func.
Proof.
  intros Hp Hp' Ht Hr Hd. unfold spawn in *. cbn [fst snd] in *.
  assert (rtc pool_step [] p') as Hall.
  { etrans; [exact Hp|]. eapply rtc_l; [apply (ps_spawn p func)|exact Hp']. }
  pose proof (Forall_lookup_1 _ _ _ _ (pool_inv_reachable _ Hall) Ht) as Hi.
  assert (pt_func t = func) as Hf.
  { destruct (func_kept_rtc _ p' (length p) (mkPoolTask func Waiting Empty)
      ltac:(by apply list_lookup_middle) Hp') as (t1 & H1 & H2). cbn in H2. congruence. }
  unfold task_inv in Hi. destruct (pt_rx t) as [|res| | |] eqn:Hc; try done.
  - split; [by destruct (pt_stage t)|].
    destruct (task_ends p' (length p) t Ht Hc Hi) as (p2 & t2 & Hs & Hl & Hc2).
    exists p2, t2. split_and!; [done..|]. rewrite Hc2, Hf. by destruct func.
  - destruct Hi as [-> ->]. rewrite Hf. split; [by destruct func|].
    exists p', t. split_and!; [apply rtc_refl|done|]. rewrite Hc, Hf. by destruct func.
Qed.

End Pool.

Arguments thread_result R : clear implicits.
Arguments PoolTask R : clear implicits.
Arguments Oneshot R : clear implicits.

Module PoolExamples.

(** Two tasks, the second of which panics and ends first. *)
Definition first : thread_result nat := Returned 5.
Definition second : thread_result nat := Panicked "out of range".

Definition both_spawned : list (PoolTask nat) := [mkPoolTask first Waiting Empty; mkPoolTask second Waiting Empty].
Definition second_running : list (PoolTask nat) := [mkPoolTask first Waiting Empty; mkPoolTask second Running Empty].
Definition second_ended : list (PoolTask nat) := [mkPoolTask first Waiting Empty; mkPoolTask second Ended (Sent second)].

Lemma second_ends : rtc pool_step both_spawned second_ended.
Proof.
  eapply rtc_l; [apply (ps_start both_spawned 1 (mkPoolTask second Waiting Empty)); done|].
  apply rtc_once. apply (ps_end second_running 1 (mkPoolTask second Running Empty)); done.
Qed.

(** A handle that is dropped early loses the result; one that is polled again after
    its answer panics. *)
Example dropped_and_polled_twice :
  pt_rx (end_task (mkPoolTask first Running HandleDropped)) = HandleDropped ∧
  AsyncRayonHandle_poll (AsyncRayonHandle_poll (Sent first)).2 = (Unwind "called after complete", Received).
Proof. done. Qed.

Lemma handle_answered_witness :
  (AsyncRayonHandle_poll (Sent second)).1 = Unwind "out of range" ∧
  ∃ p'' t', rtc pool_step second_ended p'' ∧ p'' !! 1 = Some t' ∧
    (AsyncRayonHandle_poll (pt_rx t')).1 = Unwind "out of range".
Proof.
  apply (handle_answered [mkPoolTask first Waiting Empty] second second_ended
           (mkPoolTask second Ended (Sent second)));
    [apply rtc_once; apply (ps_spawn [] first)|apply second_ends|done|done|done].
Defined.

End PoolExamples.
