(* ===== verification/Throttle.v ===== *)
(** * Throttle: a bounded number of tasks, with their first error

    [Throttle] and [ThrottlePermit] of src/src/util/mod.rs as a step relation.  A
    permit is held by a running task until it is done; a task that fails sends its
    error to a channel of capacity one before it gives its permit back.  [acquire]
    takes a permit or an error, whichever is ready; [finish] takes all permits and
    then looks for an error. *)
From stdpp Require Import base list relations strings.
From Stdlib Require Import ZArith Lia.
From S2P Require Import Prelude.

Local Open Scope nat_scope.

(** What the owner of the throttle does: it starts tasks, waits in [finish], or got
    the answer of [acquire] or [finish]. *)
Inductive OwnerPc : Type := Starting | Finishing | Answered (r : outcome unit).

(** A running task is the result of its future; a failed one may wait for room in
    the channel. *)
Record Throttle : Type := mkThrottle {
  th_max : nat;
  th_free : nat;
  th_errors : list error;
  th_running : list (outcome unit);
  th_owner : OwnerPc
}.

Definition Throttle_new (max : nat) : Throttle := mkThrottle max max [] [] Starting.

Definition THROTTLE_CAPACITY : nat := 1.

Inductive throttle_step : Throttle → Throttle → Prop :=
(** [acquire] with a permit: a task is started, whose future gives [r]; with an
    error the caller gives up. *)
| th_acquire max free errs run r :
    0 < free →
    throttle_step (mkThrottle max free errs run Starting) (mkThrottle max (free - 1) errs (r :: run) Starting)
| th_acquire_error max free e errs run :
    throttle_step (mkThrottle max free (e :: errs) run Starting) (mkThrottle max free errs run (Answered (Err e)))
| th_start_finish max free errs run :
    throttle_step (mkThrottle max free errs run Starting) (mkThrottle max free errs run Finishing)
(** [done_with_future]: success, an error that the channel has room for, or a panic,
    which drops the permit. *)
| th_done max free errs run1 u run2 o :
    throttle_step (mkThrottle max free errs (run1 ++ Ok u :: run2) o) (mkThrottle max (S free) errs (run1 ++ run2) o)
| th_fail max free errs run1 e run2 o :
    length errs < THROTTLE_CAPACITY →
    throttle_step (mkThrottle max free errs (run1 ++ Err e :: run2) o)
      (mkThrottle max (S free) (errs ++ [e]) (run1 ++ run2) o)
| th_panic max free errs run1 run2 o :
    throttle_step (mkThrottle max free errs (run1 ++ Panic :: run2) o) (mkThrottle max (S free) errs (run1 ++ run2) o)
(** [done_with_error]: a task that still has its permit reports an error. *)
| th_report max free errs run e o :
    run ≠ [] → length errs < THROTTLE_CAPACITY →
    throttle_step (mkThrottle max free errs run o) (mkThrottle max free (errs ++ [e]) run o)
(** [finish] once all permits are back. *)
| th_finish max errs run :
    throttle_step (mkThrottle max max errs run Finishing)
      (mkThrottle max max (tail errs) run (Answered (match errs with e :: _ => Err e | [] => Ok () end))).

Definition is_err (r : outcome unit) : bool := match r with Err _ => true | _ => false end.

Definition failing (run : list (outcome unit)) : nat := length (filter (λ r, is_err r = true) run).

(** Permits are neither lost nor made up. *)
Definition th_inv (t : Throttle) : Prop :=
  th_free t + length (th_running t) = th_max t ∧ length (th_errors t) ≤ THROTTLE_CAPACITY.

Lemma th_inv_step t t' : th_inv t → throttle_step t t' → th_inv t'.
Proof.
  intros [Hf He] Hs. destruct Hs; unfold th_inv, THROTTLE_CAPACITY in *; cbn in *;
    rewrite ?length_app in *; cbn in *; split; try lia. destruct errs; cbn in *; lia.
Qed.

Lemma th_inv_reachable max t : rtc throttle_step (Throttle_new max) t → th_inv t.
Proof.
  intros Hr. remember (Throttle_new max) as t0 eqn:E.
  assert (th_inv t0) as Hi by (subst; split; cbn; unfold THROTTLE_CAPACITY; lia). clear E.
  induction Hr; [done|]. eauto using th_inv_step.
Qed.

Lemma failing_app a b : failing (a ++ b) = failing a + failing b.
Proof. unfold failing. by rewrite filter_app, length_app. Qed.

Lemma failing_cons r run : failing (r :: run) = (if is_err r then 1 else 0) + failing run.
Proof. unfold failing. rewrite filter_cons. destruct r; done. Qed.

(** The errors that are in the channel or will be sent to it. *)
Definition pending_errors (t : Throttle) : nat := length (th_errors t) + failing (th_running t).

(** With two errors on their way, [finish] waits for a task that waits for room. *)
Lemma finishing_stuck t t' :
  th_inv t → th_owner t = Finishing → 2 ≤ pending_errors t → throttle_step t t' →
  th_owner t' = Finishing ∧ 2 ≤ pending_errors t'.
Proof.
  intros [Hf He] Ho Hp Hs. unfold pending_errors, THROTTLE_CAPACITY in *.
  destruct Hs; cbn [th_owner th_errors th_running th_free th_max] in *; try discriminate Ho;
    rewrite ?failing_app, ?failing_cons, ?length_app in *; cbn [is_err length] in *; try (split; [done|lia]).
  exfalso. destruct run as [|r run]; cbn in *; lia.
Qed.

(** One task after the other gives its permit back while there is at most one
    error. *)
Lemma finishing_drains run : ∀ max free errs,
  length errs + failing run ≤ 1 →
  ∃ errs', rtc throttle_step (mkThrottle max free errs run Finishing)
             (mkThrottle max (free + length run) errs' [] Finishing) ∧
    errs' = errs ++ omap (λ r, match r with Err e => Some e | _ => None end) run.
Proof.
  induction run as [|r run IH]; intros max free errs Hp.
  - exists errs. cbn. rewrite Nat.add_0_r, app_nil_r. split; [apply rtc_refl|done].
  - rewrite failing_cons in Hp. destruct r as [u|e|]; cbn [is_err] in Hp.
    + destruct (IH max (S free) errs ltac:(lia)) as (errs' & Hr & He). exists errs'. split; [|done].
      eapply rtc_l; [apply (th_done _ _ _ [] u run)|]. cbn [app length]. by rewrite Nat.add_succ_r, <- Nat.add_succ_l.
    + destruct errs as [|e0 errs]; [|cbn in Hp; lia].
      destruct (IH max (S free) [e] ltac:(cbn in *; lia)) as (errs' & Hr & He). exists errs'. split; [|done].
      eapply rtc_l; [apply (th_fail _ _ [] [] e run); unfold THROTTLE_CAPACITY; cbn; lia|].
      cbn [app length]. by rewrite Nat.add_succ_r, <- Nat.add_succ_l.
    + destruct (IH max (S free) errs ltac:(lia)) as (errs' & Hr & He). exists errs'. split; [|done].
      eapply rtc_l; [apply (th_panic _ _ _ [] run)|]. cbn [app length]. by rewrite Nat.add_succ_r, <- Nat.add_succ_l.
Qed.

(** The errors of a throttle, in the channel first. *)
Definition all_errors (t : Throttle) : list error :=
  th_errors t ++ omap (λ r, match r with Err e => Some e | _ => None end) (th_running t).

(** [finish] on any throttle in use: with at most one error in the channel or
    still to come it can end, with that error or with success; with two or more it
    never ends, since the second task holds its permit while it waits for room in
    the channel and [finish] reads the channel only when it has all permits. *)
Theorem throttle_finish max t :
  rtc throttle_step (Throttle_new max) t → th_owner t = Finishing →
  (pending_errors t ≤ 1 →
     ∃ t', rtc throttle_step t t' ∧
       th_owner t' = Answered (match all_errors t with e :: _ => Err e | [] => Ok () end)) ∧
  (2 ≤ pending_errors t → ∀ t', rtc throttle_step t t' → th_owner t' = Finishing).
Proof.
  intros Hinv%th_inv_reachable Ho. split.
  - intros Hp. destruct t as [max' free errs run o]. cbn in Ho. subst o. destruct Hinv as [Hf _]. cbn in Hf.
    destruct (finishing_drains run max' free errs Hp) as (errs' & Hr & ->). rewrite Hf in Hr.
    eexists. split; [eapply rtc_r; [exact Hr|apply th_finish]|]. done.
  - intros Hp t' Hr. induction Hr as [t|t t1 t' Hs Hr IH]; [done|].
    destruct (finishing_stuck t t1 Hinv Ho Hp Hs) as [Ho1 Hp1].
    apply IH; [by eapply th_inv_step|done|done].
Qed.

Module ThrottleExamples.

(** Three tables are opened at once and two of them fail. *)
Definition two_errors : Throttle :=
  mkThrottle 3 0 [] [Err (EMsg "table 3"); Ok (); Err (EMsg "table 1")] Finishing.

Lemma two_errors_reachable : rtc throttle_step (Throttle_new 3) two_errors.
Proof.
  eapply rtc_l; [apply (th_acquire _ _ _ _ (Err (EMsg "table 1"))); lia|].
  eapply rtc_l; [apply (th_acquire _ _ _ _ (Ok ())); lia|].
  eapply rtc_l; [apply (th_acquire _ _ _ _ (Err (EMsg "table 3"))); lia|].
  eapply rtc_l; [apply th_start_finish|]. apply rtc_refl.
Qed.

Lemma throttle_finish_witness :
  (pending_errors two_errors ≤ 1 →
     ∃ t', rtc throttle_step two_errors t' ∧
       th_owner t' = Answered (match all_errors two_errors with e :: _ => Err e | [] => Ok () end)) ∧
  (2 ≤ pending_errors two_errors → ∀ t', rtc throttle_step two_errors t' → th_owner t' = Finishing).
Proof. exact (throttle_finish 3 two_errors two_errors_reachable eq_refl). Defined.

End ThrottleExamples.
