(* ===== verification/Write.v ===== *)
(** * Write: requests written to the value log and the memtables

    [WriteReq] and the operations of [DB] in src/src/write.rs, over the value log
    (Vlog.v), the memtables (MemTable.v) and the publisher (Publisher.v).

    The writer owns the value log, the memtable and the list of full memtables; the
    directory of memtable files is the map of Memtable.v.  The result of a request,
    sent to its caller when the request is dropped, is a field of it.  When a write
    to the value log fails the state of the log is the one before the call.  Heights
    of skip-list nodes, nonces and the latest cipher are arguments.  The last part
    models the task [do_writes] as a step relation: which requests are in the
    channel, in the batch being collected and in the batch being written. *)
From stdpp Require Import base list gmap strings.
From Stdlib Require Import ZArith Lia.
From S2P Require Import Prelude Util VarInt Kv Iter Pb Storage Vlog Arena SkipList.
From S2P Require Import SkipListInv SkipListPush SkipListSpec MemTable Text Trie Closer Publisher.

Local Open Scope nat_scope.

(** ** Data *)

Record WriteReq : Type := mkWriteReq {
  wr_entries_vptrs : req;
  wr_result : outcome unit
}.

(** [WriteReq::new] and [set_result] *)
Definition WriteReq_new (entries : list Entry) : WriteReq :=
  mkWriteReq ((λ x, (x, ValuePointer_default)) <$> entries) (Ok ()).

Definition set_result (r : WriteReq) (result : outcome unit) : WriteReq :=
  mkWriteReq (wr_entries_vptrs r) result.

(** What the writer reads and changes of the database. *)
Record Writer : Type := mkWriter {
  w_vlog : ValueLog;
  w_memtable : MemTable;
  w_mem_config : MemTableConfig;
  w_immut : list MemTable;
  w_flush : list MemTable;
  w_dir : gmap Z (list Z);
  w_publisher : Publisher
}.

Definition with_vlog (w : Writer) (vl : ValueLog) : Writer :=
  mkWriter vl (w_memtable w) (w_mem_config w) (w_immut w) (w_flush w) (w_dir w) (w_publisher w).

Definition with_memtable (w : Writer) (mt : MemTable) : Writer :=
  mkWriter (w_vlog w) mt (w_mem_config w) (w_immut w) (w_flush w) (w_dir w) (w_publisher w).

Definition with_publisher (w : Writer) (p : Publisher) : Writer :=
  mkWriter (w_vlog w) (w_memtable w) (w_mem_config w) (w_immut w) (w_flush w) (w_dir w) p.

Section WriteCode.
Context `{!VarInt, !VarIntRead, !ChecksumCodec, !Aead}.
Context (page retries threshold : nat) (kr : Registry) (latest : option AesCipher).
Context (nonce : Z → list Z) (flips : Entry → list bool).

(** The entry as it goes into the memtable: a value in the value log is replaced by
    its pointer. *)
Definition store_pointer (x : Entry * ValuePointer) : Entry :=
  if ValuePointer_is_empty x.2
  then Entry_set_meta x.1 (Meta_remove (Entry_meta x.1) Meta_VALUE_POINTER)
  else
    let e := Entry_set_meta x.1 (Meta_insert (Entry_meta x.1) Meta_VALUE_POINTER) in
    Entry_set_value e (ValuePointer_serialize x.2).

(** [write_to_memtable]: the memtable, the entries as they are left, and the
    result. *)
Fixpoint write_to_memtable (mt : MemTable) (r : req) : MemTable * req * outcome unit :=
  match r with
  | [] => (mt, [], Ok ())
  | x :: r' =>
      let e := store_pointer x in
      match MemTable_push page retries (flips e) mt e with
      | Ok mt' => let '(mt'', r'', o) := write_to_memtable mt' r' in (mt'', (e, x.2) :: r'', o)
      | Err err => (mt, (e, x.2) :: r', Err err)
      | Panic => (mt, (e, x.2) :: r', Panic)
      end
  end.

(** [ensure_boom_for_write]: a full memtable is replaced by a new one, sent to the
    flusher and listed for the readers. *)
Definition ensure_boom_for_write (w : Writer) : outcome Writer :=
  if negb (MemTable_is_full (w_memtable w)) then Ok w
  else
    let fid := mc_next_fid (w_mem_config w) in
    '(new_memtable, cfg) ← MemTable_new page retries (w_mem_config w) kr (nonce fid) (w_dir w);
    let old_memtable := w_memtable w in
    Ok (mkWriter (w_vlog w) new_memtable cfg (w_immut w ++ [old_memtable]) (w_flush w ++ [old_memtable])
          (<[fid := lf_bytes (mt_wal new_memtable)]> (w_dir w)) (w_publisher w)).

(** The loop of [write_requests] over the requests. *)
Fixpoint write_loop (w : Writer) (reqs : list WriteReq) : Writer * list WriteReq * outcome unit :=
  match reqs with
  | [] => (w, [], Ok ())
  | r :: reqs' =>
      if length (wr_entries_vptrs r) =? 0 then
        let '(w', rs, o) := write_loop w reqs' in (w', r :: rs, o)
      else
        match ensure_boom_for_write w with
        | Ok w1 =>
            let '(mt, es, o) := write_to_memtable (w_memtable w1) (wr_entries_vptrs r) in
            let w2 := with_memtable w1 mt in
            let r2 := mkWriteReq es (wr_result r) in
            match o with
            | Ok _ => let '(w', rs, o') := write_loop w2 reqs' in (w', r2 :: rs, o')
            | _ => (w2, r2 :: reqs', o)
            end
        | Err e => (w, r :: reqs', Err e)
        | Panic => (w, r :: reqs', Panic)
        end
  end.

Definition handle_err (e : error) (reqs : list WriteReq) : list WriteReq :=
  (λ r, set_result r (Err e)) <$> reqs.

(** [write_requests] *)
Definition write_requests (w : Writer) (reqs : list WriteReq) : Writer * list WriteReq * outcome unit :=
  match reqs with
  | [] => (w, [], Ok ())
  | _ =>
      match ValueLog_write threshold latest (w_vlog w) (wr_entries_vptrs <$> reqs) with
      | Ok (vl, es) =>
          let reqs := zip_with (λ r e, mkWriteReq e (wr_result r)) reqs es in
          match write_loop (with_vlog w vl) reqs with
          | (w, reqs, Ok _) =>
              (with_publisher w (send_updates (w_publisher w) (wr_entries_vptrs <$> reqs)), reqs, Ok ())
          | (w, reqs, Err e) => (w, handle_err e reqs, Err e)
          | (w, reqs, Panic) => (w, reqs, Panic)
          end
      | Err e => (w, handle_err e reqs, Err e)
      | Panic => (w, reqs, Panic)
      end
  end.

End WriteCode.

(* ------------------------------------------------------------------ *)
(** ** What a batch of requests leaves *)

Section WriteLemmas.
Context `{!VarInt, !VarIntLaws, !VarIntRead, !ChecksumCodec, !Aead, !AeadLaws}.
Context (page retries threshold : nat) (kr : Registry) (latest c : option AesCipher).
Context (nonce : Z → list Z) (flips : Entry → list bool).
Hypothesis kr_gives : registry_gives kr c.
Hypothesis nonce_length : ∀ fid, length (nonce fid) = 12.

Abbreviation to_memtable := (write_to_memtable page (S retries) flips).
Abbreviation ensure := (ensure_boom_for_write page (S retries) kr nonce).
Abbreviation loop := (write_loop page (S retries) kr nonce flips).

(** The entries of a request fit: there is room for them beyond the size at which a
    memtable is full. *)
Definition req_fits (cfg : MemTableConfig) (es : list Entry) : Prop :=
  Forall entry_storable es ∧
  (Z.max 112 (Z.of_nat (mc_memtable_size cfg)) + sum_of entry_cost es ≤ Z.of_nat (mc_arena_size cfg))%Z.

(** The full memtables and the current one hold the entries of [groups], oldest
    first; the files of the directory have earlier identifiers. *)
Record writer_ok (w : Writer) (groups : list (list Entry)) : Prop := {
  wo_config : config_ok page (w_mem_config w);
  wo_holds : Forall2 (λ mt es, mt_holds mt (foldl insert_entry [] es)) (w_immut w ++ [w_memtable w]) groups;
  wo_arena : (Z.of_nat (mc_arena_size (w_mem_config w)) ≤ ar_size (sk_arena (mt_skip_list (w_memtable w))))%Z;
  wo_size : mt_memtable_size (w_memtable w) = mc_memtable_size (w_mem_config w);
  wo_fids : ∀ fid, is_Some (w_dir w !! fid) → (fid < mc_next_fid (w_mem_config w))%Z;
  wo_next : (0 ≤ mc_next_fid (w_mem_config w))%Z
}.

Definition stored_req (r : req) : req := (λ x, (store_pointer x, x.2)) <$> r.

Lemma push_entries_size es mt mt' :
  push_entries page (S retries) mt es = Ok mt' → mt_memtable_size mt' = mt_memtable_size mt.
Proof.
  revert mt. induction es as [|e es IH]; intros mt; unfold push_entries; cbn [fold_outcome]; [by intros [= ->]|].
  unfold MemTable_push. destruct (log_write_entry page _ e.1) as [[wal off]| |]; [|done..].
  cbn [mbind outcome_bind]. destruct (Meta_contains _ _); cbn [mbind outcome_bind].
  - intros Hr. by apply (IH _ Hr).
  - destruct (push _ _ _ _ _ _) as [sk| |]; [|done..]. cbn [mbind outcome_bind]. intros Hr. by apply (IH _ Hr).
Qed.

Lemma write_to_memtable_push r mt mt' :
  push_entries page (S retries) mt ((λ x, (store_pointer x, flips (store_pointer x))) <$> r) = Ok mt' →
  to_memtable mt r = (mt', stored_req r, Ok ()).
Proof.
  revert mt. induction r as [|x r IH]; intros mt; unfold push_entries; [by intros [= ->]|].
  rewrite fmap_cons. cbn [fold_outcome write_to_memtable fst snd].
  destruct (MemTable_push page (S retries) (flips (store_pointer x)) mt (store_pointer x)) as [mt1| |];
    [|done..]. cbn [mbind outcome_bind]. intros Hr. by rewrite (IH mt1 Hr).
Qed.

(** One request: all its entries are appended to the group of the memtable. *)
Lemma write_to_memtable_holds r cfg mt es :
  0 < page → mt_holds mt (foldl insert_entry [] es) → req_fits cfg (store_pointer <$> r) →
  (ar_ptr_offset (sk_arena (mt_skip_list mt)) ≤ Z.max 112 (Z.of_nat (mc_memtable_size cfg)))%Z →
  (Z.of_nat (mc_arena_size cfg) ≤ ar_size (sk_arena (mt_skip_list mt)))%Z →
  ∃ mt', to_memtable mt r = (mt', stored_req r, Ok ()) ∧
    mt_holds mt' (foldl insert_entry [] (es ++ (store_pointer <$> r))) ∧
    mt_memtable_size mt' = mt_memtable_size mt ∧
    ar_size (sk_arena (mt_skip_list mt')) = ar_size (sk_arena (mt_skip_list mt)).
Proof.
  intros Hp Hh [Hst Hsum] Hptr Hsize.
  set (l := (λ x, (store_pointer x, flips (store_pointer x))) <$> r).
  assert (l.*1 = store_pointer <$> r) as Hl1.
  { unfold l. rewrite <- list_fmap_compose. done. }
  assert (∀ l : list (Entry * list bool), sum_of (λ e, entry_cost e.1) l = sum_of entry_cost l.*1) as Hsl.
  { clear. intros l. induction l as [|x l IH]; [done|]. cbn. by rewrite IH. }
  destruct (push_entries_holds page retries l mt _ Hp Hh) as (mt' & Hpush & Hh' & _ & Hsz).
  - rewrite <- Hl1 in Hst. exact (proj1 (Forall_fmap _ _ _) Hst).
  - unfold fits. rewrite Hsl, Hl1. lia.
  - exists mt'. split_and!; [by apply write_to_memtable_push| |by eapply push_entries_size|done].
    by rewrite foldl_app, <- Hl1.
Qed.

(** How the groups grow: new entries go behind the last group, and new groups begin
    empty. *)
Inductive grows : list (list Entry) → list Entry → list (list Entry) → Prop :=
| grows_refl gs : grows gs [] gs
| grows_group gs es gs' : grows (gs ++ [[]]) es gs' → grows gs es gs'
| grows_last gs g a es gs' : grows (gs ++ [g ++ a]) es gs' → grows (gs ++ [g]) (a ++ es) gs'.

Lemma grows_concat gs es gs' : grows gs es gs' → concat gs' = concat gs ++ es.
Proof.
  induction 1 as [gs|gs es gs' _ IH|gs g a es gs' _ IH]; [by rewrite app_nil_r|..];
    rewrite IH, !concat_app; cbn [concat]; rewrite !app_nil_r; [done|]. by rewrite <- !app_assoc.
Qed.

(** Making room: the groups stay, and a new one may begin. *)
Lemma ensure_ok w groups :
  writer_ok w groups → (mc_next_fid (w_mem_config w) + 1 < 2 ^ 32)%Z →
  ∃ w' groups' , ensure w = Ok w' ∧ writer_ok w' groups' ∧ (groups' = groups ∨ groups' = groups ++ [[]]) ∧
    (ar_ptr_offset (sk_arena (mt_skip_list (w_memtable w'))) ≤ Z.max 112 (Z.of_nat (mc_memtable_size (w_mem_config w))))%Z ∧
    mc_memtable_size (w_mem_config w') = mc_memtable_size (w_mem_config w) ∧
    mc_arena_size (w_mem_config w') = mc_arena_size (w_mem_config w) ∧
    (mc_next_fid (w_mem_config w') ≤ mc_next_fid (w_mem_config w) + 1)%Z ∧
    w_vlog w' = w_vlog w ∧ w_publisher w' = w_publisher w.
Proof.
  intros [Hcfg Hh Har Hsz Hf Hn] Hmax. unfold ensure_boom_for_write.
  destruct (MemTable_is_full (w_memtable w)) eqn:Hfull; cbn [negb].
  - assert (w_dir w !! mc_next_fid (w_mem_config w) = None) as Hdir.
    { destruct (w_dir w !! mc_next_fid (w_mem_config w)) eqn:E; [|done].
      specialize (Hf _ (mk_is_Some _ _ E)). lia. }
    destruct (MemTable_new_holds page (S retries) (w_mem_config w) kr c (nonce (mc_next_fid (w_mem_config w)))
      (w_dir w) Hcfg kr_gives (nonce_length _) Hdir) as (sk & cfg' & Hnew & Hmt & Hptr & Hsize).
    rewrite Hnew. cbn [mbind outcome_bind].
    assert (cfg' = mkMemTableConfig (mc_read_only (w_mem_config w)) (mc_memtable_size (w_mem_config w))
      (mc_arena_size (w_mem_config w)) (mc_num_memtables (w_mem_config w)) (mc_next_fid (w_mem_config w) + 1)) as ->.
    { unfold MemTable_new in Hnew. destruct (MemTable_open _ _ _ _ _ _ _) as [[m [|]]| |]; [|done..].
      cbn in Hnew. injection Hnew as _ <-. f_equal. unfold u32. apply Z.mod_small. lia. }
    eexists _, (groups ++ [[]]). split; [done|]. split; [|split].
    + split; cbn; try done; try lia.
      * apply Forall2_app; [done|]. by constructor.
      * intros fid. rewrite lookup_insert_is_Some. intros [<-|[_ Hs]]; [lia|]. apply Hf in Hs. lia.
    + by right.
    + cbn. rewrite Hptr. split_and!; try done; lia.
  - exists w, groups. unfold MemTable_is_full in Hfull.
    destruct (Z.of_nat (mt_memtable_size (w_memtable w)) <=? _)%Z eqn:Hlt; [done|]. apply Z.leb_gt in Hlt.
    unfold SkipList_mem_size, arena_len in Hlt. rewrite Hsz in Hlt. split_and!; try done; [by left|lia..].
Qed.

Lemma writer_ok_append w mt groups es :
  writer_ok w groups →
  (∀ es0, mt_holds (w_memtable w) (foldl insert_entry [] es0) → mt_holds mt (foldl insert_entry [] (es0 ++ es))) →
  mt_memtable_size mt = mt_memtable_size (w_memtable w) →
  ar_size (sk_arena (mt_skip_list mt)) = ar_size (sk_arena (mt_skip_list (w_memtable w))) →
  ∃ gs g, groups = gs ++ [g] ∧ writer_ok (with_memtable w mt) (gs ++ [g ++ es]).
Proof.
  intros [Hcfg Hh Har Hsz Hf Hn] Hmt Hms Has.
  apply Forall2_app_inv_l in Hh as (g1 & g2 & Hg1 & Hg2 & ->).
  apply Forall2_cons_inv_l in Hg2 as (g & g3 & Hg & Hg3 & ->). apply Forall2_nil_inv_l in Hg3 as ->.
  exists g1, g. split; [done|]. split; cbn; try done; [|by rewrite Has|by rewrite Hms].
  apply Forall2_app; [done|]. constructor; [by apply Hmt|constructor].
Qed.

Definition stored_write (r : WriteReq) : WriteReq := mkWriteReq (stored_req (wr_entries_vptrs r)) (wr_result r).

Lemma write_loop_ok reqs : ∀ w groups,
  writer_ok w groups →
  Forall (λ r, req_fits (w_mem_config w) (store_pointer <$> wr_entries_vptrs r)) reqs →
  (mc_next_fid (w_mem_config w) + Z.of_nat (length reqs) < 2 ^ 32)%Z →
  ∃ w' groups', loop w reqs = (w', stored_write <$> reqs, Ok ()) ∧ writer_ok w' groups' ∧
    grows groups (concat ((λ r, store_pointer <$> wr_entries_vptrs r) <$> reqs)) groups' ∧
    w_vlog w' = w_vlog w ∧ w_publisher w' = w_publisher w.
Proof.
  induction reqs as [|r reqs IH]; intros w groups Hok Hfit Hmax.
  { exists w, groups. cbn. split_and!; try done. constructor. }
  apply Forall_cons in Hfit as [Hr Hfit]. cbn [length] in Hmax. cbn [write_loop].
  destruct (length (wr_entries_vptrs r) =? 0) eqn:Hz.
  - apply Nat.eqb_eq, nil_length_inv in Hz.
    destruct (IH w groups Hok Hfit) as (w' & groups' & -> & Hok' & Hc & Hv); [lia|].
    exists w', groups'. rewrite !fmap_cons.
    assert (stored_write r = r) as -> by (destruct r; cbn in Hz; by subst).
    split_and!; [done|done| |apply Hv..]. rewrite Hz. cbn. exact Hc.
  - destruct (ensure_ok w groups Hok) as (w1 & g1 & -> & Hok1 & Hc1 & Hptr & Hms & Has & Hnx & Hv1 & Hp1); [lia|].
    cbn [mbind outcome_bind].
    assert (∀ es, req_fits (w_mem_config w) es → req_fits (w_mem_config w1) es) as Hcfg.
    { unfold req_fits. by rewrite Hms, Has. }
    assert (Hlast : ∃ es0, mt_holds (w_memtable w1) (foldl insert_entry [] es0)).
    { pose proof (wo_holds _ _ Hok1) as Hh. apply Forall2_app_inv_l in Hh as (? & ? & _ & Hh & _).
      apply Forall2_cons_inv_l in Hh as (g & ? & Hg & _). by exists g. }
    destruct Hlast as [es0 Hes0].
    destruct (write_to_memtable_holds (wr_entries_vptrs r) (w_mem_config w1) (w_memtable w1) es0
      (page_pos _ _ (wo_config _ _ Hok1)) Hes0 (Hcfg _ Hr)) as (mt & Hw & _ & Hsz & Hasz).
    { by rewrite Hms. }
    { apply (wo_arena _ _ Hok1). }
    rewrite Hw.
    destruct (writer_ok_append w1 mt g1 (store_pointer <$> wr_entries_vptrs r) Hok1) as (gs & g & -> & Hok2); [|done..|].
    { intros es1 Hes1. destruct (write_to_memtable_holds (wr_entries_vptrs r) (w_mem_config w1) (w_memtable w1) es1
        (page_pos _ _ (wo_config _ _ Hok1)) Hes1 (Hcfg _ Hr)) as (mt1 & Hw1 & Hh1 & _);
        [by rewrite Hms|apply (wo_arena _ _ Hok1)|]. rewrite Hw in Hw1. by simplify_eq. }
    destruct (IH (with_memtable w1 mt) _ Hok2) as (w' & g' & -> & Hok' & Hc' & Hv' & Hp').
    { eapply Forall_impl; [exact Hfit|]. intros x Hx. by apply Hcfg. }
    { cbn. lia. }
    exists w', g'. split_and!; [done|done| |by rewrite Hv'|by rewrite Hp'].
    rewrite fmap_cons. cbn [concat]. destruct Hc1 as [<-|E]; [by apply grows_last|].
    apply grows_group. rewrite <- E. by apply grows_last.
Qed.

Lemma write_reqs_length th lat reqs : ∀ vl vl' es, write_reqs th lat vl reqs = Ok (vl', es) → length es = length reqs.
Proof.
  induction reqs as [|r reqs IH]; intros vl vl' es; cbn [write_reqs].
  - destruct (rotate lat vl); cbn; [|done..]. by intros [= <- <-].
  - destruct (write_req th lat vl r) as [[vl1 r1]| |]; cbn [mbind outcome_bind]; [|done..].
    destruct (write_reqs th lat vl1 reqs) as [[vl2 rs]| |] eqn:E; cbn [mbind outcome_bind]; [|done..].
    intros [= <- <-]. cbn. by rewrite (IH _ _ _ E).
Qed.

Lemma stored_zip (reqs : list WriteReq) (es : list req) :
  stored_write <$> zip_with (λ r e, mkWriteReq e (wr_result r)) reqs es =
  zip_with (λ r e, mkWriteReq (stored_req e) (wr_result r)) reqs es.
Proof. revert es. induction reqs as [|r reqs IH]; intros [|e es]; cbn; [done..|]. by f_equal. Qed.

(** A batch that is accepted and fits. *)
Lemma write_requests_ok w groups (reqs : list WriteReq) vl' (es : list req) :
  writer_ok w groups → reqs ≠ [] →
  ValueLog_write threshold latest (w_vlog w) (wr_entries_vptrs <$> reqs) = Ok (vl', es) →
  Forall (λ r : req, req_fits (w_mem_config w) (store_pointer <$> r)) es →
  (mc_next_fid (w_mem_config w) + Z.of_nat (length reqs) < 2 ^ 32)%Z →
  ∃ w' groups',
    write_requests page (S retries) threshold kr latest nonce flips w reqs =
      (w', zip_with (λ r e, mkWriteReq (stored_req e) (wr_result r)) reqs es, Ok ()) ∧
    w_vlog w' = vl' ∧ w_publisher w' = send_updates (w_publisher w) (stored_req <$> es) ∧
    writer_ok w' groups' ∧ grows groups (concat ((λ r : req, store_pointer <$> r) <$> es)) groups' ∧
    ∀ key_ts, KeyTs_storable key_ts →
      Forall2 (λ mt g, ∃ r, MemTable_get mt key_ts true = Ok r ∧ newest_version g key_ts r)
        (w_immut w' ++ [w_memtable w']) groups'.
Proof.
  intros Hok Hne Hvl Hfit Hmax. unfold write_requests. rewrite Hvl. destruct reqs as [|r0 reqs0] eqn:Hr; [done|].
  rewrite <- Hr in *.
  assert (length es = length reqs) as Hlen.
  { unfold ValueLog_write in Hvl. destruct (validate_write _ _); cbn in Hvl; [|done..].
    destruct (get_latest_logfile _); cbn in Hvl; [|done..]. apply write_reqs_length in Hvl.
    by rewrite Hvl, length_fmap. }
  set (reqs1 := zip_with (λ r e, mkWriteReq e (wr_result r)) reqs es).
  assert (wr_entries_vptrs <$> reqs1 = es) as Hes.
  { unfold reqs1. rewrite fmap_zip_with_r; [done|done|lia]. }
  destruct (write_loop_ok reqs1 (with_vlog w vl') groups) as (w' & g' & Hl & Hok' & Hc & Hv & Hp).
  - by destruct Hok.
  - rewrite <- Hes in Hfit. exact (proj1 (Forall_fmap wr_entries_vptrs _ _) Hfit).
  - unfold reqs1. rewrite length_zip_with. cbn [w_mem_config with_vlog]. lia.
  - rewrite Hl. exists (with_publisher w' (send_updates (w_publisher w') (wr_entries_vptrs <$> (stored_write <$> reqs1)))), g'.
    split; [|split; [exact Hv|split; [|split; [|split]]]].
    + f_equal. f_equal. apply stored_zip.
    + cbn. rewrite Hp. cbn. f_equal. rewrite <- Hes, <- !list_fmap_compose. done.
    + by destruct Hok'.
    + rewrite <- Hes, <- list_fmap_compose. exact Hc.
    + intros key_ts Hk. cbn. eapply Forall2_impl; [exact (wo_holds _ _ Hok')|]. intros mt g Hg.
      rewrite (MemTable_get_holds mt _ key_ts Hg Hk). eexists. split; [done|]. apply ceil_newest.
Qed.

(** C15: a batch of requests that the value log accepts and that fits the
    memtables is written: each request in turn goes whole into the memtable, after
    full memtables were set aside; the memtables then hold the entries they held
    and the new ones behind them, values in the value log replaced by their
    pointers; every memtable answers with the newest version it holds; and the
    requests the publisher and the callers get carry the replaced values. *)
Theorem write_requests_applies w groups (reqs : list WriteReq) vl' (es : list req) :
  writer_ok w groups → reqs ≠ [] →
  ValueLog_write threshold latest (w_vlog w) (wr_entries_vptrs <$> reqs) = Ok (vl', es) →
  Forall (λ r : req, req_fits (w_mem_config w) (store_pointer <$> r)) es →
  (mc_next_fid (w_mem_config w) + Z.of_nat (length reqs) < 2 ^ 32)%Z →
  ∃ w' groups',
    write_requests page (S retries) threshold kr latest nonce flips w reqs =
      (w', zip_with (λ r e, mkWriteReq (stored_req e) (wr_result r)) reqs es, Ok ()) ∧
    w_vlog w' = vl' ∧ w_publisher w' = send_updates (w_publisher w) (stored_req <$> es) ∧
    writer_ok w' groups' ∧ concat groups' = concat groups ++ concat ((λ r : req, store_pointer <$> r) <$> es) ∧
    ∀ key_ts, KeyTs_storable key_ts →
      Forall2 (λ mt g, ∃ r, MemTable_get mt key_ts true = Ok r ∧ newest_version g key_ts r)
        (w_immut w' ++ [w_memtable w']) groups'.
Proof.
  intros Hok Hne Hvl Hfit Hmax.
  destruct (write_requests_ok w groups reqs vl' es Hok Hne Hvl Hfit Hmax) as (w' & g' & Hw & Hv & Hp & Hok' & Hg & Hget).
  exists w', g'. split_and!; try done. by apply grows_concat.
Qed.
End WriteLemmas.

(* ------------------------------------------------------------------ *)
(** ** What subscribers see of a batch *)

(** The updates for a subscriber are those its matches announce, but a value that
    is in the value log is sent as the bytes of its pointer. *)
Theorem subscribers_see_pointers s (es : list req) :
  updates_for s [stored_req <$> es] =
    (λ x, kv_of (store_pointer x)) <$> filter (λ x, concerns s x = true) (concat es) ∧
  ∀ x, kv_value (kv_of (store_pointer x)) =
       if ValuePointer_is_empty x.2 then Entry_value x.1 else ValuePointer_serialize x.2.
Proof.
  split.
  - unfold updates_for. cbn [concat]. rewrite app_nil_r.
    induction es as [|r es IH]; [done|]. rewrite fmap_cons. cbn [concat]. rewrite !filter_app, !fmap_app, IH. f_equal.
    clear. induction r as [|x r IH]; [done|]. unfold stored_req in *. rewrite fmap_cons, !filter_cons.
    assert (concerns s (store_pointer x, x.2) = concerns s x) as ->.
    { unfold concerns. cbn. unfold store_pointer. by destruct (ValuePointer_is_empty x.2). }
    case_decide; [rewrite !fmap_cons; f_equal|]; exact IH.
  - intros x. unfold store_pointer. by destruct (ValuePointer_is_empty x.2).
Qed.

(** ** A concrete batch *)

Module WriteExamples.

#[local] Existing Instances VlogExamples.leb_read VlogExamples.leb_read_laws.

Definition config : MemTableConfig := mkMemTableConfig false 150 2000 5 1.
Definition registry : Registry := mkRegistry (λ _, Ok None) (Ok None).
Definition nonce (fid : Z) : list Z := replicate 12 7%Z.
Definition flips (e : Entry) : list bool := [].

Definition mem0 : MemTable * MemTableConfig :=
  match MemTable_new 16 1 config registry (nonce 1) ∅ with
  | Ok r => r
  | _ => (mkMemTable (mkSkipList 0 0 (mkArena 0 0 ∅ ∅)) (LogFile_new 0 None [] 0) 0 0 0 false, config)
  end.

Definition w0 : Writer := mkWriter VlogExamples.vlog mem0.1 mem0.2 [] [] {[1%Z := []]} Publisher_new.

(** One short value and one that goes to the value log, in two requests. *)
Definition short : Entry := mkEntry (mkKeyTs [97]%Z 5) (mkValueMeta [1]%Z 0 0 64) 0 0 0.
Definition long : Entry := mkEntry (mkKeyTs [98]%Z 5) (mkValueMeta [1; 2; 3]%Z 0 0 64) 0 0 0.
Definition reqs : list WriteReq := [WriteReq_new [short]; WriteReq_new [long]].

Definition vlog_written : ValueLog * list req :=
  match ValueLog_write 2 None (w_vlog w0) (wr_entries_vptrs <$> reqs) with
  | Ok r => r
  | _ => (VlogExamples.vlog, [])
  end.

Lemma write_config_ok : config_ok 16 config.
Proof. split_and!; [by exists 4%Z|cbn; lia|done|done]. Qed.

Lemma w0_ok : writer_ok 16 w0 [[]].
Proof.
  destruct (MemTable_new_holds 16 1 config registry None (nonce 1) ∅ write_config_ok) as
    (sk & cfg' & Hnew & Hh & Hptr & Hsize); [done|done|done|].
  assert (mem0 = (mkMemTable sk (LogFile_new 1 None (nonce 1) 300) VLOG_HEADER_SIZE 0 150 false, cfg')) as Hm.
  { unfold mem0. change 300 with (2 * mc_memtable_size config). by rewrite Hnew. }
  assert (mem0.2 = mkMemTableConfig false 150 2000 5 2) as Hcfg by (vm_compute; reflexivity).
  split; unfold w0; cbn [w_mem_config w_immut w_memtable w_dir]; rewrite ?Hcfg.
  - split_and!; [by exists 4%Z|cbn; lia|done|done].
  - constructor; [|constructor]. rewrite Hm. exact Hh.
  - rewrite Hm. cbn [fst mt_skip_list]. cbn in Hsize |- *. lia.
  - by rewrite Hm.
  - intros fid [x Hx]. apply lookup_singleton_Some in Hx as [<- _]. done.
  - done.
Qed.

Lemma vlog_written_eq :
  ValueLog_write 2 None VlogExamples.vlog (wr_entries_vptrs <$> reqs) = Ok vlog_written.
Proof. vm_compute. reflexivity. Qed.

Definition long_ptr : ValuePointer := mkValuePointer 1 21 20.

Lemma stored_entries_eq :
  (λ r : req, store_pointer <$> r) <$> vlog_written.2 =
  [[mkEntry (mkKeyTs [97]%Z 5) (mkValueMeta [1]%Z 0 0 64) 0 0 2];
   [mkEntry (mkKeyTs [98]%Z 5) (mkValueMeta (ValuePointer_serialize long_ptr) 0 0 66) 0 0 2]].
Proof. vm_compute. reflexivity. Qed.

Lemma registry_ok : registry_gives registry None.
Proof. done. Qed.

Lemma vlog_written_pair :
  ValueLog_write 2 None (w_vlog w0) (wr_entries_vptrs <$> reqs) = Ok (vlog_written.1, vlog_written.2).
Proof. rewrite <- surjective_pairing. exact vlog_written_eq. Qed.

Lemma w0_config : w_mem_config w0 = mkMemTableConfig false 150 2000 5 2.
Proof. vm_compute. reflexivity. Qed.

Lemma reqs_fit : Forall (λ r : req, req_fits (w_mem_config w0) (store_pointer <$> r)) vlog_written.2.
Proof.
  rewrite w0_config.
  refine (proj1 (Forall_fmap (λ r : req, store_pointer <$> r) (req_fits _) vlog_written.2) _).
  rewrite stored_entries_eq.
  repeat constructor; vm_compute; repeat constructor; discriminate.
Qed.

Lemma fid_ok : (mc_next_fid (w_mem_config w0) + Z.of_nat (length reqs) < 2 ^ 32)%Z.
Proof. rewrite w0_config. vm_compute. reflexivity. Qed.

Lemma write_requests_applies_witness :
  ∃ w' groups',
    write_requests 16 1 2 registry None nonce flips w0 reqs =
      (w', zip_with (λ r e, mkWriteReq (stored_req e) (wr_result r)) reqs vlog_written.2, Ok ()) ∧
    w_vlog w' = vlog_written.1 ∧ w_publisher w' = send_updates Publisher_new (stored_req <$> vlog_written.2) ∧
    writer_ok 16 w' groups' ∧ concat groups' = concat ((λ r : req, store_pointer <$> r) <$> vlog_written.2) ∧
    ∀ key_ts, KeyTs_storable key_ts →
      Forall2 (λ mt g, ∃ r, MemTable_get mt key_ts true = Ok r ∧ newest_version g key_ts r)
        (w_immut w' ++ [w_memtable w']) groups'.
Proof.
  exact (write_requests_applies 16 0 2 registry None None nonce flips registry_ok (λ _, eq_refl) w0 [[]] reqs
           vlog_written.1 vlog_written.2 w0_ok (λ E, nil_cons (eq_sym E)) vlog_written_pair reqs_fit fid_ok).
Defined.

End WriteExamples.
