(* ===== verification/ReadBack.v ===== *)
(** * ReadBack: what a transaction committed is what a later read gets

    The way of a write through the database: [Txn::commit_and_send]
    (src/src/txn/mod.rs) puts one batch in the channel, [DB::write_requests]
    (src/src/write.rs) writes it to the value log and to the memtables, and
    [DB::get] with [get_memtable] (src/src/read.rs) reads it.  The parts are those of
    [Txn], [Write], [Vlog] and [MemTable]; here they are put together. *)
From stdpp Require Import base list gmap strings.
From Stdlib Require Import ZArith Lia.
From S2P Require Import Prelude Util VarInt Kv Iter Pb Storage Oracle Txn Vlog Arena SkipList.
From S2P Require Import SkipListInv SkipListPush SkipListSpec MemTable Text Trie Closer Publisher Write.

Local Open Scope nat_scope.

Section ReadCode.
Context `{!VarInt, !VarIntRead, !ChecksumCodec, !Aead}.

(** [mem.get(key_ts, true)] of a memtable *)
Definition mem_lookup (mt : MemTable) (key_ts : KeyTs) : option found :=
  match MemTable_get mt key_ts true with Ok r => r | _ => None end.

(** [get_memtable]: the memtable that is written, and the full ones, newest first *)
Definition get_memtable (w : Writer) : MemTable * list MemTable := (w_memtable w, reverse (w_immut w)).

(** [DB::get] on the memtables of a writer *)
Definition store_get (w : Writer) (level_get : KeyTs → outcome (option found)) (key_ts : KeyTs) :
    outcome (option found) :=
  let '(mut_mem, immut_mem) := get_memtable w in
  DB_get false (Some (mem_lookup mut_mem)) (mem_lookup <$> immut_mem) level_get key_ts.

End ReadCode.

(* ------------------------------------------------------------------ *)
(** ** Flags *)

Lemma Meta_contains_bit m n : (0 <= n)%Z → Meta_contains m (Z.shiftl 1 n) = Z.testbit m n.
Proof.
  intros Hn. unfold Meta_contains. rewrite Z.shiftl_1_l. destruct (Z.testbit m n) eqn:E.
  - apply Z.eqb_eq, Z.bits_inj'. intros i Hi. rewrite Z.land_spec, Z.pow2_bits_eqb by done.
    destruct (Z.eqb_spec n i) as [->|]; [by rewrite E|by rewrite andb_false_r].
  - apply Z.eqb_neq. intros Heq. apply (f_equal (λ z, Z.testbit z n)) in Heq.
    rewrite Z.land_spec, E, Z.pow2_bits_true in Heq by done. done.
Qed.

Lemma is_fin_bit e : is_fin e = Z.testbit (Entry_meta e) 7.
Proof. unfold is_fin, Meta_FIN_TXN. by apply Meta_contains_bit. Qed.

Lemma store_pointer_keeps x :
  e_key_ts (store_pointer x) = e_key_ts x.1 ∧
  ∀ i, (0 <= i)%Z → i ≠ 1%Z → Z.testbit (Entry_meta (store_pointer x)) i = Z.testbit (Entry_meta x.1) i.
Proof.
  unfold store_pointer. destruct (ValuePointer_is_empty x.2); (split; [done|]); intros i Hi Hne;
    unfold Entry_meta; cbn; unfold Meta_remove, Meta_insert, Meta_VALUE_POINTER; rewrite Z.shiftl_1_l;
    rewrite ?Z.ldiff_spec, ?Z.lor_spec, Z.pow2_bits_false by lia;
    [by rewrite andb_true_r|by rewrite orb_false_r].
Qed.

Lemma store_pointer_fin x : is_fin (store_pointer x) = is_fin x.1.
Proof. rewrite !is_fin_bit. by apply store_pointer_keeps. Qed.

(** An entry of a transaction is never taken for a missing value. *)
Lemma store_pointer_present x :
  Meta_contains (Entry_meta x.1) Meta_TXN = true → value_absent (e_value_meta (store_pointer x)) = false.
Proof.
  intros Ht. unfold value_absent, Meta_is_empty. apply andb_false_iff. left. apply Z.eqb_neq. intros E.
  unfold Meta_TXN in Ht. rewrite Meta_contains_bit in Ht by done.
  destruct (store_pointer_keeps x) as [_ Hb]. rewrite <- (Hb 6%Z) in Ht by done.
  unfold Entry_meta in Ht. rewrite E in Ht. done.
Qed.

(** ** The newest version wins *)

Lemma elem_of_concat {A} (x : A) ls : x ∈ concat ls ↔ ∃ l, x ∈ l ∧ l ∈ ls.
Proof.
  rewrite list_elem_of_In, in_concat. split; intros (l & H1 & H2); exists l; rewrite ?list_elem_of_In in *; done.
Qed.

Section Newest.
Context `{!VarInt, !VarIntLaws, !VarIntRead, !ChecksumCodec, !Aead, !AeadLaws}.

(** An entry that a read of [key_ts] may give. *)
Definition candidate (key_ts : KeyTs) (e : Entry) : Prop :=
  is_fin e = false ∧ Entry_key e = kt_key key_ts ∧ (Entry_version e <= kt_ts key_ts)%Z.

Lemma answer_from mt g key_ts f :
  (∃ r, MemTable_get mt key_ts true = Ok r ∧ newest_version g key_ts r) → mem_lookup mt key_ts = Some f →
  ∃ e, e ∈ g ∧ candidate key_ts e ∧ f = (Entry_version e, e_value_meta e) ∧
    ∀ d, d ∈ g → candidate key_ts d → (Entry_version d <= f.1)%Z.
Proof.
  unfold mem_lookup. intros (r & -> & Hn) ->. destruct f as [v vm]. destruct Hn as (e & He & <- & Hv & Hmax).
  unfold last_version in He. apply last_Some_elem_of, list_elem_of_filter in He as ((Hf & Hk) & Hin).
  exists e. unfold candidate, Entry_key, Entry_version. rewrite Hk. cbn [kt_key kt_ts]. by split_and!.
Qed.

Lemma answer_some mt g key_ts e :
  (∃ r, MemTable_get mt key_ts true = Ok r ∧ newest_version g key_ts r) → e ∈ g → candidate key_ts e →
  is_Some (mem_lookup mt key_ts).
Proof.
  unfold mem_lookup. intros (r & -> & Hn) Hin Hc. destruct r as [f|]; [by eexists|]. by destruct (Hn e Hin Hc).
Qed.

(** A version that no other source reaches is the answer. *)
Lemma store_get_unique w groups level_get key_ts lv x :
  Forall2 (λ mt g, ∃ r, MemTable_get mt key_ts true = Ok r ∧ newest_version g key_ts r)
    (w_immut w ++ [w_memtable w]) groups →
  level_get key_ts = Ok lv → (∀ f, lv = Some f → (f.1 < Entry_version x)%Z) →
  x ∈ concat groups → candidate key_ts x → (0 < Entry_version x)%Z → value_absent (e_value_meta x) = false →
  (∀ d, d ∈ concat groups → candidate key_ts d →
     (Entry_version d < Entry_version x)%Z ∨ Entry_version d = Entry_version x ∧ e_value_meta d = e_value_meta x) →
  store_get w level_get key_ts = Ok (Some (Entry_version x, e_value_meta x)).
Proof.
  intros Hmem Hlv Hlow Hin Hc Hpos Hab Huniq. unfold store_get, get_memtable.
  set (mems := option_list (Some (mem_lookup (w_memtable w))) ++ (mem_lookup <$> reverse (w_immut w))).
  assert (∀ f, f ∈ omap (λ mem, mem key_ts) mems ↔
            ∃ mt, mt ∈ w_immut w ++ [w_memtable w] ∧ mem_lookup mt key_ts = Some f) as Hmems.
  { intros f. rewrite list_elem_of_omap. unfold mems. cbn [option_list app]. split.
    - intros (m & [->|(mt & -> & Hmt)%list_elem_of_fmap]%elem_of_cons & E).
      + exists (w_memtable w). set_solver.
      + exists mt. rewrite elem_of_reverse in Hmt. set_solver.
    - intros (mt & [Hmt|Hmt%list_elem_of_singleton]%elem_of_app & E).
      + exists (mem_lookup mt). split; [|done]. right. apply list_elem_of_fmap. exists mt. by rewrite elem_of_reverse.
      + subst mt. exists (mem_lookup (w_memtable w)). split; [by left|done]. }
  assert (∀ f, f ∈ omap (λ mem, mem key_ts) mems →
            (f.1 <= kt_ts key_ts)%Z ∧ ((f.1 < Entry_version x)%Z ∨ f = (Entry_version x, e_value_meta x))) as Hans.
  { intros f (mt & Hmt & E)%Hmems. apply list_elem_of_lookup in Hmt as [i Hi].
    destruct (Forall2_lookup_l _ _ _ _ _ Hmem Hi) as (g & Hg & Hr).
    destruct (answer_from mt g key_ts f Hr E) as (e & He & Hce & -> & _). cbn [fst].
    split; [apply Hce|]. destruct (Huniq e) as [?|[-> ->]]; [|done|by left|by right].
    apply elem_of_concat. exists g. split; [done|]. by eapply list_elem_of_lookup_2. }
  assert ((Entry_version x, e_value_meta x) ∈ mem_answers key_ts mems) as Hx.
  { apply elem_of_concat in Hin as (g & Hxg & Hg). apply list_elem_of_lookup in Hg as [i Hi].
    destruct (Forall2_lookup_r _ _ _ _ _ Hmem Hi) as (mt & Hmt & Hr).
    destruct (answer_some mt g key_ts x Hr Hxg Hc) as [f Hf].
    assert (f ∈ omap (λ mem, mem key_ts) mems) as Hfm
      by (apply Hmems; exists mt; split; [by eapply list_elem_of_lookup_2|done]).
    destruct (answer_from mt g key_ts f Hr Hf) as (_ & _ & _ & _ & Hmax).
    destruct (Hans f Hfm) as [_ [Hlt| ->]]; [specialize (Hmax x Hxg Hc); lia|].
    by apply list_elem_of_filter. }
  destruct (DB_get_spec (Some (mem_lookup (w_memtable w))) (mem_lookup <$> reverse (w_immut w)) level_get key_ts lv Hlv)
    as (r & -> & Hn).
  { apply Forall_forall. intros f [Hf|Hf]%elem_of_app.
    - apply list_elem_of_filter in Hf as [_ Hf]. by apply Hans.
    - destruct lv as [f'|]; [|by apply not_elem_of_nil in Hf]. apply list_elem_of_singleton in Hf as ->.
      specialize (Hlow f' eq_refl). destruct Hc as (_ & _ & ?). lia. }
  fold mems in Hn. f_equal. destruct r as [f|]; cbn [is_newest] in Hn.
  - destruct Hn as [Hf Hmax]. f_equal.
    specialize (Hmax _ ltac:(apply elem_of_app; left; exact Hx)). cbn [fst] in Hmax.
    apply elem_of_app in Hf as [[_ Hf]%list_elem_of_filter|Hf].
    + destruct (Hans f Hf) as [_ [?| ->]]; [lia|done].
    + destruct lv as [f'|]; [|by apply not_elem_of_nil in Hf]. apply list_elem_of_singleton in Hf as ->.
      specialize (Hlow f' eq_refl). lia.
  - specialize (Hn _ ltac:(apply elem_of_app; left; exact Hx)). cbn [fst] in Hn. lia.
Qed.

(** C12: A point read on the memtables of the database and its levels: for each
    memtable, from the one being written to the oldest full one, let its answer be
    the newest version of the key at or below the read timestamp among the entries it
    was given, dropped when it has neither a value nor a flag.  When the levels
    answer, with a version that is not above the read timestamp, the read returns the
    newest of these answers and theirs, or nothing when there is none above 0; when
    the levels fail, it fails in the same way, unless a memtable had exactly the
    version asked for, which is returned before the levels are asked. *)
Theorem store_get_newest page w groups level_get key_ts :
  writer_ok page w groups → KeyTs_storable key_ts →
  ∃ answers : list (option found), Forall2 (λ g a, newest_version g key_ts a) (reverse groups) answers ∧
    let cands := base.filter (λ f : found, value_absent f.2 = false) (omap id answers) in
    match level_get key_ts with
    | Ok lv => (∀ f, lv = Some f → (f.1 <= kt_ts key_ts)%Z) →
        ∃ r, store_get w level_get key_ts = Ok r ∧ is_newest (cands ++ option_list lv) r
    | o => store_get w level_get key_ts = o ∨
           ∃ f, f ∈ cands ∧ f.1 = kt_ts key_ts ∧ store_get w level_get key_ts = Ok (Some f)
    end.
Proof.
  intros Hok Hk. set (answers := (λ mt, mem_lookup mt key_ts) <$> reverse (w_immut w ++ [w_memtable w])).
  assert (Forall2 (λ g a, newest_version g key_ts a) (reverse groups) answers) as Hans.
  { unfold answers. apply Forall2_fmap_r, Forall2_flip. apply Forall2_reverse.
    eapply Forall2_impl; [exact (wo_holds _ _ _ Hok)|]. intros mt g Hg. cbn. unfold mem_lookup.
    rewrite (MemTable_get_holds mt _ key_ts Hg Hk). apply ceil_newest. }
  exists answers. split; [done|].
  set (mems := option_list (Some (mem_lookup (w_memtable w))) ++ (mem_lookup <$> reverse (w_immut w))).
  assert (omap id answers = omap (λ mem, mem key_ts) mems) as E.
  { unfold answers, mems. rewrite reverse_snoc, fmap_cons. cbn [option_list app omap list_omap id].
    assert (∀ l, omap id ((λ mt, mem_lookup mt key_ts) <$> l) = omap (λ mem, mem key_ts) (mem_lookup <$> l)) as ->; [|done].
    induction l as [|mt l IH]; [done|]. rewrite !fmap_cons. cbn [omap list_omap id].
    change (id (mem_lookup mt key_ts)) with (mem_lookup mt key_ts). by rewrite IH. }
  cbv zeta. rewrite E. fold (mem_answers key_ts mems).
  assert (Forall (λ f : found, (f.1 <= kt_ts key_ts)%Z) (mem_answers key_ts mems)) as Hle.
  { apply Forall_forall. unfold mem_answers. rewrite <- E. intros f [_ Hf]%list_elem_of_filter.
    apply list_elem_of_omap in Hf as (a & Ha & [= ->]). apply list_elem_of_lookup in Ha as [i Ha].
    destruct (Forall2_lookup_r _ _ _ _ _ Hans Ha) as (g & _ & Hn). destruct f as [v vm].
    by destruct Hn as (_ & _ & _ & Hv & _). }
  destruct (level_get key_ts) as [lv|e|] eqn:Hlv.
  1: intros Hlow; apply (DB_get_spec (Some (mem_lookup (w_memtable w))) (mem_lookup <$> reverse (w_immut w))); [done|]; apply Forall_app; split; [done|];
     destruct lv as [f|]; [apply Forall_singleton; by apply Hlow|constructor].
  all: unfold store_get, get_memtable, DB_get; fold mems;
    pose proof (get_from_mems_spec key_ts mems [] (0%Z, None)) as Hs; cbn [app] in Hs;
    destruct (get_from_mems key_ts mems (0%Z, None)) as [f|best];
    [right; destruct Hs as [Hf He]; [split; [set_solver|done]|done|]; by exists f|left; by rewrite Hlv].
Qed.

End Newest.

(* ------------------------------------------------------------------ *)
(** ** The whole way *)

Section ReadBack.
Context `{!VarInt, !VarIntLaws, !VarIntRead, !VarIntReadLaws, !ChecksumCodec, !ChecksumLaws, !Aead, !AeadLaws}.
Context (page retries threshold : nat) (kr : Registry) (latest cip : option AesCipher).
Context (nonce : Z → list Z) (flips : Entry → list bool).
Hypothesis kr_gives : registry_gives kr cip.
Hypothesis nonce_length : ∀ fid, length (nonce fid) = 12.

(** A committed write as it reaches the value log. *)
Definition logged (opt : DbOpt) (ts : Z) (e : Entry) : Entry :=
  Entry_try_set_value_threshold (as_committed opt ts e) threshold.

Lemma threshold_keeps e n :
  e_key_ts (Entry_try_set_value_threshold e n) = e_key_ts e ∧
  e_value_meta (Entry_try_set_value_threshold e n) = e_value_meta e.
Proof. destruct (try_set_threshold_same e n) as (_ & _ & ? & ? & _). done. Qed.

Lemma logged_facts opt ts e :
  e_key_ts (logged opt ts e) = mkKeyTs (Entry_key e) ts ∧
  is_fin (logged opt ts e) = is_fin e ∧
  Meta_contains (Entry_meta (logged opt ts e)) Meta_TXN = true.
Proof.
  unfold logged. destruct (threshold_keeps (as_committed opt ts e) threshold) as [E1 E2].
  unfold is_fin, Entry_meta. rewrite E1, E2. unfold as_committed. cbn [e_key_ts e_value_meta Entry_set_meta
    Entry_with_value_meta Entry_set_version Entry_with_key_ts vm_meta].
  destruct (threshold_keeps e (op_value_threshold opt)) as [F1 F2]. unfold Entry_key, Entry_meta. rewrite F1, F2.
  unfold Meta_FIN_TXN, Meta_TXN, Meta_insert. rewrite !Meta_contains_bit, !Z.lor_spec by done.
  split_and!; [done|by rewrite orb_false_r|by rewrite orb_true_r].
Qed.

Lemma as_committed_key opt ts e : Entry_key (as_committed opt ts e) = Entry_key e.
Proof.
  unfold as_committed, Entry_key. cbn. by destruct (threshold_keeps e (op_value_threshold opt)) as [-> _].
Qed.

(** What the value log did with a single request. *)
Lemma log_one_request vl entries vl' rs :
  vl_ok vl → (vl_max_fid vl + 2 < 2 ^ 32)%Z →
  ValueLog_write threshold latest vl [wr_entries_vptrs (WriteReq_new entries)] = Ok (vl', rs) →
  ∃ r, rs = [r] ∧ r.*1 = (λ e, Entry_try_set_value_threshold e threshold) <$> entries ∧ Forall (saved vl') r.
Proof.
  intros Hok Hmax Hw.
  destruct (vlog_write_stores threshold latest vl [wr_entries_vptrs (WriteReq_new entries)])
    as (vl1 & rs1 & Hw1 & Hfst & Hsaved & _ & _); [done| |cbn [length]; lia|].
  { unfold ValueLog_write in Hw. destruct (validate_write _ _) as [[]| |]; [done|by cbn in Hw..]. }
  rewrite Hw in Hw1. injection Hw1 as <- <-. pose proof (f_equal length Hfst) as Hl. rewrite !length_fmap in Hl.
  destruct rs as [|r [|? ?]]; [done| |done]. clear Hl.
  exists r. rewrite !fmap_cons in Hfst. cbn in Hfst. injection Hfst as Hfst.
  split_and!; [done| |exact (proj1 (Forall_singleton _ _) Hsaved)].
  rewrite Hfst. unfold WriteReq_new. cbn [wr_entries_vptrs]. by rewrite <- !list_fmap_compose.
Qed.

(** The entry of the batch with a user's key is one. *)
Lemma logged_unique opt ts es batch (r : list (Entry * ValuePointer)) k e y :
  (∀ c, c ∈ batch ↔ ∃ e, last_write es (Entry_key c) = Some e ∧ c = as_committed opt ts e) →
  r.*1 = (λ e, Entry_try_set_value_threshold e threshold) <$> batch ++ [fin_entry ts] →
  last_write es k = Some e → y ∈ r → is_fin y.1 = false → Entry_key y.1 = k → y.1 = logged opt ts e.
Proof.
  intros Hb Hr He Hy Hf Hk.
  assert (y.1 ∈ r.*1) as Hin by (by apply list_elem_of_fmap_2). rewrite Hr in Hin.
  apply list_elem_of_fmap in Hin as (z & Hz & Hin). destruct (threshold_keeps z threshold) as [E1 E2].
  apply elem_of_app in Hin as [Hin|Hin%list_elem_of_singleton].
  - apply Hb in Hin as (e' & He' & ->). rewrite Hz. unfold logged. f_equal. f_equal.
    rewrite Hz in Hk. unfold Entry_key in Hk at 1. rewrite E1 in Hk. unfold Entry_key in He' at 1. rewrite Hk in He'.
    congruence.
  - exfalso. subst z. rewrite Hz in Hf. unfold is_fin, Entry_meta in Hf. rewrite E2 in Hf. done.
Qed.

(** Positions in the batch: two pairs with the same user key are one. *)
Lemma logged_pointer opt ts es batch (r : list (Entry * ValuePointer)) k e vp vp' :
  NoDup (Entry_key <$> batch) →
  r.*1 = (λ e, Entry_try_set_value_threshold e threshold) <$> batch ++ [fin_entry ts] →
  last_write es k = Some e → is_fin e = false →
  (logged opt ts e, vp) ∈ r → (logged opt ts e, vp') ∈ r → vp = vp'.
Proof.
  intros Hnd Hr He Hf Hv1 Hv2.
  assert (∀ i p, r !! i = Some (logged opt ts e, p) → (Entry_key <$> batch) !! i = Some (Entry_key e)) as Hpos.
  { intros i p Hi. destruct (logged_facts opt ts e) as (Hk & Hfin & _).
    assert (r.*1 !! i = Some (logged opt ts e)) as Hi1 by (by rewrite list_lookup_fmap, Hi).
    rewrite Hr, list_lookup_fmap in Hi1. apply fmap_Some in Hi1 as (z & Hz & Ez).
    destruct (threshold_keeps z threshold) as [E1 E2]. rewrite <- Ez in E1, E2.
    apply lookup_app_Some in Hz as [Hz|[_ Hz]].
    - rewrite list_lookup_fmap, Hz. cbn. f_equal. unfold Entry_key. by rewrite <- E1, Hk.
    - exfalso. apply list_lookup_singleton_Some in Hz as [_ <-]. rewrite Hf in Hfin.
      unfold is_fin, Entry_meta in Hfin. rewrite E2 in Hfin. done. }
  apply list_elem_of_lookup in Hv1 as [i Hi], Hv2 as [j Hj].
  assert (i = j) as -> by (eapply NoDup_lookup; eauto). congruence.
Qed.

(** C1: What a transaction committed is what a later read gets.  The commit of a
    transaction puts one batch in the channel; when the value log takes it and it
    fits the memtables, writing it succeeds, and from then on a point read of any key
    the transaction wrote, at the commit timestamp or later, returns that key's last
    write with the commit timestamp, as long as no other version of the key in the
    memtables or the levels is as new: the value itself when it is below the
    threshold, or else the pointer to the place in the value log that holds it. *)
Theorem committed_is_read hash_one opt banned config read_ts es txn db db' txn' ts entries w groups vl' rs :
  modify_all hash_one opt banned (Txn_new config true read_ts) es = Ok txn → es ≠ [] →
  Forall (λ e, Entry_version e = 0%Z ∧ is_fin e = false) es →
  commit_and_send db txn = (db', txn', Ok ts) → (0 < ts)%Z → wd_chan db' = wd_chan db ++ [entries] →
  writer_ok page w groups → vl_ok (w_vlog w) → (vl_max_fid (w_vlog w) + 2 < 2 ^ 32)%Z →
  (mc_next_fid (w_mem_config w) + 1 < 2 ^ 32)%Z →
  ValueLog_write threshold latest (w_vlog w) [wr_entries_vptrs (WriteReq_new entries)] = Ok (vl', rs) →
  Forall (λ r : req, req_fits (w_mem_config w) (store_pointer <$> r)) rs →
  ∃ w' reqs', write_requests page (S retries) threshold kr latest nonce flips w [WriteReq_new entries] =
      (w', reqs', Ok ()) ∧
    ∀ k e, last_write es k = Some e →
      (∀ d, d ∈ concat groups → Entry_key d = k → (Entry_version d < ts)%Z) →
      ∃ vp, saved (w_vlog w') (logged opt ts e, vp) ∧
        ∀ rts level_get lv, (ts <= rts)%Z → KeyTs_storable (mkKeyTs k rts) →
          level_get (mkKeyTs k rts) = Ok lv → (∀ f, lv = Some f → (f.1 < ts)%Z) →
          store_get w' level_get (mkKeyTs k rts) =
            Ok (Some (ts, e_value_meta (store_pointer (logged opt ts e, vp)))).
Proof.
  intros Hm Hne Hes Hcommit Hts Hchan Hok Hvl Hvmax Hfmax Hw Hfit.
  destruct (commit_sends hash_one opt banned config read_ts es txn db db' txn' (Ok ts) Hm Hne) as
    (batch & Hch & Hnd & Hb & _); [|done|].
  { eapply Forall_impl; [exact Hes|]. by intros e [? _]. }
  rewrite Hchan in Hch. apply app_inj_tail in Hch as [_ ->].
  destruct (log_one_request _ _ _ _ Hvl Hvmax Hw) as (r & -> & Hr & Hsaved).
  destruct (write_requests_ok page retries threshold kr latest cip nonce flips kr_gives nonce_length w groups
    [WriteReq_new (batch ++ [fin_entry ts])] vl' [r] Hok) as (w' & groups' & Hwr & Hvl' & _ & _ & Hcat & Hget);
    [done|exact Hw|done|cbn [length]; lia|].
  apply grows_concat in Hcat. cbn [fmap list_fmap concat] in Hcat. rewrite app_nil_r in Hcat.
  eexists w', _. split; [exact Hwr|]. intros k e He Hold.
  destruct (last_write_key _ _ _ He) as [Hke Hin]. rewrite Forall_forall in Hes. destruct (Hes e Hin) as [_ Hfe].
  destruct (logged_facts opt ts e) as (Hkey & Hfin & Htxn).
  assert (logged opt ts e ∈ r.*1) as (p & Hp1 & Hp)%list_elem_of_fmap.
  { rewrite Hr. apply list_elem_of_fmap. exists (as_committed opt ts e). split; [done|]. apply elem_of_app. left.
    apply Hb. exists e. by rewrite as_committed_key, Hke. }
  destruct p as [c vp]. cbn [fst] in Hp1. subst c. exists vp. split.
  { rewrite Hvl'. rewrite Forall_forall in Hsaved. by apply Hsaved. }
  intros rts level_get lv Hrts Hst Hlv Hlow.
  destruct (store_pointer_keeps (logged opt ts e, vp)) as [Hkx _]. cbn [fst] in Hkx. rewrite Hkey in Hkx.
  set (x := store_pointer (logged opt ts e, vp)) in *.
  assert (Entry_version x = ts) as Hvx by (unfold Entry_version; by rewrite Hkx).
  rewrite <- Hvx at 1. eapply store_get_unique; rewrite ?Hvx; [by apply Hget|exact Hlv|done| | |done| |].
  - rewrite Hcat. apply elem_of_app. right. by apply list_elem_of_fmap_2.
  - unfold candidate, Entry_key. rewrite Hvx, Hkx. cbn [kt_key kt_ts]. split_and!; [|done|done].
    unfold x. rewrite store_pointer_fin. cbn [fst]. by rewrite Hfin.
  - by apply store_pointer_present.
  - intros d Hd (Hfd & Hkd & Hvd). rewrite Hcat in Hd. cbn [kt_key] in Hkd. apply elem_of_app in Hd as [Hd|Hd].
    { left. by apply Hold. }
    apply list_elem_of_fmap in Hd as ([c' vp'] & -> & Hy). right.
    rewrite store_pointer_fin in Hfd. destruct (store_pointer_keeps (c', vp')) as [Hkd' _].
    unfold Entry_key in Hkd. rewrite Hkd' in Hkd. cbn [fst] in *.
    pose proof (logged_unique opt ts es batch r k e (c', vp') Hb Hr He Hy Hfd Hkd) as Hc. cbn [fst] in Hc. subst c'.
    rewrite (logged_pointer opt ts es batch r k e vp' vp Hnd Hr He Hfe Hy Hp). done.
Qed.

End ReadBack.

(** ** A concrete commit *)

Module ReadBackExamples.

#[local] Existing Instances VlogExamples.leb_read VlogExamples.leb_read_laws.
Import WriteExamples.

(** Two keys; the second value goes to the value log. *)
Definition opt : DbOpt := mkDbOpt 2 10 1000 4096 None.
Definition writes : list Entry :=
  [Entry_new [97]%Z [9]%Z; Entry_new [98]%Z [1; 2; 3; 4]%Z; Entry_new [97]%Z [3]%Z].

Definition txn0 : Txn := Txn_new TxnConfig_default true 7.
Definition txn : Txn := TxnExamples.ok_or (modify_all TxnExamples.hash opt ∅ txn0 writes) txn0.
Definition committed : WriteDb * Txn * outcome Z := commit_and_send TxnExamples.db txn.

Definition entries : list Entry := default [] (last (wd_chan committed.1.1)).

Definition logged_batch : ValueLog * list req :=
  match ValueLog_write 2 None (w_vlog w0) [wr_entries_vptrs (WriteReq_new entries)] with
  | Ok r => r
  | _ => (VlogExamples.vlog, [])
  end.

Lemma logged_batch_eq :
  ValueLog_write 2 None (w_vlog w0) [wr_entries_vptrs (WriteReq_new entries)] =
  Ok (logged_batch.1, logged_batch.2).
Proof. vm_compute. reflexivity. Qed.

Lemma logged_batch_fits :
  Forall (λ r : req, req_fits (w_mem_config w0) (store_pointer <$> r)) logged_batch.2.
Proof.
  rewrite w0_config. repeat constructor; vm_compute; repeat constructor; discriminate.
Qed.

Lemma vlog_ok : vl_ok (w_vlog w0).
Proof.
  split; [discriminate|]. split; [vm_compute; lia|]. exists VlogExamples.log. split; [reflexivity|]. split; [reflexivity|vm_compute; lia].
Qed.

Definition level (_ : KeyTs) : outcome (option found) := Ok (Some (3%Z, mkValueMeta [2]%Z 0 0 0)).

Lemma committed_is_read_witness :
  ∃ w' reqs', write_requests 16 1 2 registry None nonce flips w0 [WriteReq_new entries] = (w', reqs', Ok ()) ∧
    ∃ vp, store_get w' level (mkKeyTs [97]%Z 9) =
      Ok (Some (8%Z, e_value_meta (store_pointer (logged 2 opt 8 (Entry_new [97]%Z [3]%Z), vp)))).
Proof.
  destruct (committed_is_read 16 0 2 registry None None nonce flips registry_ok (λ _, eq_refl)
    TxnExamples.hash opt ∅ TxnConfig_default 7 writes txn TxnExamples.db committed.1.1 committed.1.2 8 entries w0
    [[]] logged_batch.1 logged_batch.2) as (w' & reqs' & Hw & Hread).
  - vm_compute. reflexivity.
  - discriminate.
  - repeat (apply Forall_cons; split; [split; reflexivity|]). apply Forall_nil. exact I.
  - vm_compute. reflexivity.
  - reflexivity.
  - vm_compute. reflexivity.
  - exact w0_ok.
  - exact vlog_ok.
  - vm_compute. reflexivity.
  - vm_compute. reflexivity.
  - exact logged_batch_eq.
  - exact logged_batch_fits.
  - exists w', reqs'. split; [exact Hw|].
    destruct (Hread [97]%Z (Entry_new [97]%Z [3]%Z)) as (vp & _ & Hget); [vm_compute; reflexivity|intros d Hd; destruct (not_elem_of_nil d Hd)|].
    exists vp. apply (Hget 9%Z level (Some (3%Z, mkValueMeta [2]%Z 0 0 0))).
    + discriminate.
    + repeat split; vm_compute; congruence.
    + reflexivity.
    + intros f [= <-]. reflexivity.
Defined.

(** A read of the empty database, for which the levels have a version. *)
Lemma store_get_newest_witness :
  ∃ r, store_get w0 level (mkKeyTs [97]%Z 9) = Ok r ∧ is_newest [(3, mkValueMeta [2] 0 0 0)]%Z r.
Proof.
  destruct (store_get_newest 16 w0 [[]] level (mkKeyTs [97]%Z 9)) as (answers & Ha & Hr).
  - exact w0_ok.
  - repeat split; vm_compute; congruence.
  - apply Forall2_cons_inv_l in Ha as (a & l & Ha & ->%Forall2_nil_inv_l & ->).
    assert (a = None) as -> by (destruct a as [[v vm]|]; [destruct Ha as (e & He & _); discriminate He|reflexivity]).
    destruct Hr as (r & Hr & Hn); [intros f [= <-]; vm_compute; congruence|]. by exists r.
Defined.

End ReadBackExamples.
