(* ===== verification/Snapshot.v ===== *)
(** * Snapshot: transactions read from a snapshot

    [DB::update] and [DB::get_update_txn] (src/src/txn/mod.rs), and the database as
    transactions see it: the oracle with its two tasks and any number of transactions
    ([Oracle]), and the writer that applies the batches of commits in flight
    ([Write]), interleaved await by await.  The theorem is that a reader whose wait
    for its read timestamp is over reads the same whenever it reads, unless the read
    overlaps the rotation of a full memtable, when it can miss versions
    ([read_misses_rotated]).  The flusher and compactions are not part of this model:
    the levels are a function that stays the same. *)
From stdpp Require Import base list gmap strings relations.
From Stdlib Require Import ZArith Lia.
From S2P Require Import Prelude Util VarInt Kv Iter Pb Storage WaterMark Oracle Txn Vlog Arena SkipList.
From S2P Require Import SkipListInv SkipListPush SkipListSpec MemTable Text Trie Closer Publisher Write ReadBack.

Local Open Scope nat_scope.

(** ** Transactions of a database *)

(** [DB::get_update_txn], with [Txn::new] *)
Definition get_update_txn (closed : bool) (db : WriteDb) (notify : nat) : outcome (Txn * WriteDb) :=
  if closed then Err (EDB DBClosed)
  else if tx_managed_txns (or_config (wd_oracle db)) then Panic
  else
    '(read_ts, o) ← get_latest_read_ts (wd_oracle db) notify;
    Ok (Txn_new (or_config (wd_oracle db)) true read_ts, mkWriteDb o (wd_block_writes db) (wd_chan db)).

(** The function [run] of [DB::update]: the caller's update, then the commit.
    [result] is what the writer answers. *)
Definition update_run (f : Txn → Txn * outcome unit) (result : outcome unit) (db : WriteDb) (txn : Txn) :
    WriteDb * Txn * outcome unit :=
  match f txn with
  | (txn, Ok _) => Txn_commit db txn result
  | (txn, Err e) => (db, txn, Err e)
  | (txn, Panic) => (db, txn, Panic)
  end.

(** [DB::update]: the transaction is discarded also when the update or the commit
    failed; a panic leaves at once. *)
Definition DB_update (closed : bool) (db : WriteDb) (notify : nat) (f : Txn → Txn * outcome unit)
    (result : outcome unit) (num_iters : Z) : WriteDb * outcome unit :=
  match get_update_txn closed db notify with
  | Ok (txn, db) =>
      match update_run f result db txn with
      | (db, _, Panic) => (db, Panic)
      | (db, txn, r) =>
          match Txn_discard (wd_oracle db) txn num_iters with
          | (o, Ok _) => (mkWriteDb o (wd_block_writes db) (wd_chan db), r)
          | (o, d) => (mkWriteDb o (wd_block_writes db) (wd_chan db), d)
          end
      end
  | Err e => (db, Err e)
  | Panic => (db, Panic)
  end.

(** ** The database under transactions *)

(** Where the writer is between the awaits of [write_requests]: before the check of
    the memtable for a request, with the full memtable replaced and in its hands
    only, with it sent to the flusher, or ready to write the request. *)
Inductive WritePc : Type :=
| PCheck
| PReplaced (old : MemTable)
| PSent (old : MemTable)
| PApply.

(** The oracle with its transactions, the writer, and the requests of its batch that
    are in the value log and not yet in a memtable. *)
Record World : Type := mkWorld {
  wo_sys : Sys;
  wo_writer : Writer;
  wo_pc : WritePc;
  wo_todo : list req
}.

Definition with_flush (w : Writer) (old : MemTable) : Writer :=
  mkWriter (w_vlog w) (w_memtable w) (w_mem_config w) (w_immut w) (w_flush w ++ [old]) (w_dir w) (w_publisher w).

Definition with_immut (w : Writer) (old : MemTable) : Writer :=
  mkWriter (w_vlog w) (w_memtable w) (w_mem_config w) (w_immut w ++ [old]) (w_flush w) (w_dir w) (w_publisher w).

Section WorldSteps.
Context `{!VarInt, !VarIntRead, !ChecksumCodec, !Aead}.
Context (page retries threshold : nat) (kr : Registry) (latest : option AesCipher).
Context (nonce : Z → list Z) (flips : Entry → list bool).

(** The replacement of the full memtable in [ensure_boom_for_write]. *)
Definition replace_memtable (w : Writer) : outcome Writer :=
  let fid := mc_next_fid (w_mem_config w) in
  '(new_memtable, cfg) ← MemTable_new page (S retries) (w_mem_config w) kr (nonce fid) (w_dir w);
  Ok (mkWriter (w_vlog w) new_memtable cfg (w_immut w) (w_flush w)
        (<[fid := lf_bytes (mt_wal new_memtable)]> (w_dir w)) (w_publisher w)).

(** The entries of a commit in flight: they have the commit timestamp. *)
Definition in_flight (s : Sys) (entries : list Entry) : Prop :=
  ∃ l c, l ∈ sys_txns s ∧ lv_commit l = Some c ∧ Forall (λ e, Entry_version e = c) entries.

(** The steps of the oracle and its transactions, and those of the writer from one
    await to the next.  A commit waits for the answer to its request, so it does not
    finish while the request is not in a memtable.  A request goes into the memtable
    under one write lock. *)
Inductive world_step : World → World → Prop :=
| ws_sys s s' w pc todo :
    sys_step s s' → Forall (λ r : req, in_flight s' r.*1) todo →
    world_step (mkWorld s w pc todo) (mkWorld s' w pc todo)
| ws_vlog s w batches vl' es :
    batches ≠ [] → Forall (in_flight s) batches →
    ValueLog_write threshold latest (w_vlog w) (wr_entries_vptrs <$> (WriteReq_new <$> batches)) = Ok (vl', es) →
    world_step (mkWorld s w PCheck []) (mkWorld s (with_vlog w vl') PCheck es)
| ws_skip s w todo :
    world_step (mkWorld s w PCheck ([] :: todo)) (mkWorld s w PCheck todo)
| ws_room s w r todo :
    r ≠ [] → MemTable_is_full (w_memtable w) = false →
    world_step (mkWorld s w PCheck (r :: todo)) (mkWorld s w PApply (r :: todo))
| ws_replace s w w' r todo :
    r ≠ [] → MemTable_is_full (w_memtable w) = true →
    (mc_next_fid (w_mem_config w) + 1 < 2 ^ 32)%Z → replace_memtable w = Ok w' →
    world_step (mkWorld s w PCheck (r :: todo)) (mkWorld s w' (PReplaced (w_memtable w)) (r :: todo))
| ws_send s w old todo :
    world_step (mkWorld s w (PReplaced old) todo) (mkWorld s (with_flush w old) (PSent old) todo)
| ws_list s w old todo :
    world_step (mkWorld s w (PSent old) todo) (mkWorld s (with_immut w old) PApply todo)
| ws_apply s w mt r r' todo :
    req_fits (w_mem_config w) (store_pointer <$> r) →
    write_to_memtable page (S retries) flips (w_memtable w) r = (mt, r', Ok ()) →
    world_step (mkWorld s w PApply (r :: todo)) (mkWorld s (with_memtable w mt) PCheck todo).

(** A read takes the list of full memtables in one state ([get_memtable]) and looks
    into the memtable behind its lock in a later one. *)
Definition read_between (W1 W2 : World) (level_get : KeyTs → outcome (option found)) (key_ts : KeyTs) :
    outcome (option found) :=
  DB_get false (Some (mem_lookup (w_memtable (wo_writer W2)))) (mem_lookup <$> (get_memtable (wo_writer W1)).2)
    level_get key_ts.

(** A read that does not overlap the rotation of a memtable: when it looks into the
    memtable, no full one is in the hands of the writer only, and the list of full
    ones is still the one it took. *)
Definition clean_read (W1 W2 : World) : Prop :=
  match wo_pc W2 with PReplaced _ | PSent _ => False | _ => True end ∧
  w_immut (wo_writer W1) = w_immut (wo_writer W2).

End WorldSteps.

(* ------------------------------------------------------------------ *)
(** ** Lemmas: reads do not see later versions *)

Section LaterVersions.
Context `{!VarInt, !VarIntLaws, !VarIntRead, !ChecksumCodec, !Aead, !AeadLaws}.

(** An answer is determined by the entries. *)
Lemma newest_version_unique es key_ts r1 r2 :
  newest_version es key_ts r1 → newest_version es key_ts r2 → r1 = r2.
Proof.
  assert (∀ v vm e, last_version es (mkKeyTs (kt_key key_ts) v) = Some e → e_value_meta e = vm →
    (v <= kt_ts key_ts)%Z → e ∈ es ∧ is_fin e = false ∧ Entry_key e = kt_key key_ts ∧ Entry_version e = v) as Hin.
  { intros v vm e He _ _. unfold last_version in He.
    apply last_Some_elem_of, list_elem_of_filter in He as ((Hf & Hk) & Hin).
    unfold Entry_key, Entry_version. by rewrite Hk. }
  destruct r1 as [[v1 m1]|], r2 as [[v2 m2]|]; cbn [newest_version]; [| | |done].
  - intros (e1 & He1 & <- & Hv1 & Hm1) (e2 & He2 & <- & Hv2 & Hm2).
    destruct (Hin _ _ _ He1 eq_refl Hv1) as (I1 & F1 & K1 & V1), (Hin _ _ _ He2 eq_refl Hv2) as (I2 & F2 & K2 & V2).
    assert (v1 = v2) as ->.
    { apply Z.le_antisymm; [rewrite <- V1; apply Hm2|rewrite <- V2; apply Hm1]; try done; split_and!; lia || done. }
    congruence.
  - intros (e & He & <- & Hv & _) Hn. destruct (Hin _ _ _ He eq_refl Hv) as (I & F & K & V).
    destruct (Hn e I). split_and!; lia || done.
  - intros Hn (e & He & <- & Hv & _). destruct (Hin _ _ _ He eq_refl Hv) as (I & F & K & V).
    destruct (Hn e I). split_and!; lia || done.
Qed.

(** Entries that a read may not give do not change its answer. *)
Lemma newest_version_app es a key_ts r :
  Forall (λ e, ¬ candidate key_ts e) a → newest_version (es ++ a) key_ts r → newest_version es key_ts r.
Proof.
  intros Ha. assert (∀ d, d ∈ es → d ∈ es ++ a) as Hsub by set_solver.
  destruct r as [[v vm]|]; cbn [newest_version].
  - intros (e & He & Hvm & Hv & Hmax). exists e. split_and!; [|done|done|by auto].
    rewrite <- He. unfold last_version. rewrite filter_app.
    assert (base.filter (λ e, is_fin e = false ∧ e_key_ts e = mkKeyTs (kt_key key_ts) v) a = []) as ->;
      [|by rewrite app_nil_r].
    apply elem_of_nil_inv. intros d ((Hf & Hk) & Hd)%list_elem_of_filter. rewrite Forall_forall in Ha.
    apply (Ha d Hd). unfold candidate, Entry_key, Entry_version. by rewrite Hk.
  - intros Hn d Hd. by apply Hn, Hsub.
Qed.

(** What a memtable with given entries answers. *)
Definition answer (es : list Entry) (key_ts : KeyTs) : option found :=
  e ← kv_ceil KeyTs_cmp key_ts (foldl insert_entry [] es);
  if decide (kt_key e.1 = kt_key key_ts) then Some (kt_ts e.1, e.2) else None.

Lemma mem_lookup_answer mt es key_ts :
  mt_holds mt (foldl insert_entry [] es) → KeyTs_storable key_ts → mem_lookup mt key_ts = answer es key_ts.
Proof. intros Hh Hk. unfold mem_lookup. by rewrite (MemTable_get_holds mt _ key_ts Hh Hk). Qed.

Lemma answer_app es a key_ts :
  Forall (λ e, ¬ candidate key_ts e) a → answer (es ++ a) key_ts = answer es key_ts.
Proof.
  intros Ha. eapply newest_version_unique; [|apply ceil_newest].
  eapply newest_version_app; [exact Ha|]. apply ceil_newest.
Qed.

(** The answers of the memtables, the newest first. *)
Definition answers (groups : list (list Entry)) (key_ts : KeyTs) : list found :=
  omap (λ g, answer g key_ts) (reverse groups).

Lemma answers_snoc groups g key_ts :
  answers (groups ++ [g]) key_ts = option_list (answer g key_ts) ++ answers groups key_ts.
Proof. unfold answers. rewrite reverse_snoc. cbn. by destruct (answer g key_ts). Qed.

Lemma grows_answers groups es groups' key_ts :
  grows groups es groups' → Forall (λ e, ¬ candidate key_ts e) es → answers groups' key_ts = answers groups key_ts.
Proof.
  induction 1 as [gs|gs es gs' _ IH|gs g a es gs' _ IH]; intros Hes; [done|..].
  - rewrite IH by done. rewrite answers_snoc. by rewrite <- (app_nil_l (answers gs key_ts)) at 2.
  - apply Forall_app in Hes as [Ha Hes]. rewrite IH, !answers_snoc by done. by rewrite answer_app.
Qed.

Lemma get_from_mems_answers key_ts mems best : ∀ mems',
  omap (λ m, m key_ts) mems = omap (λ m, m key_ts) mems' → get_from_mems key_ts mems best = get_from_mems key_ts mems' best.
Proof.
  assert (∀ mems best, get_from_mems key_ts mems best =
    get_from_mems key_ts ((λ f _, Some f) <$> omap (λ m, m key_ts) mems) best) as Hsame.
  { induction mems0 as [|m ms IH]; intros b; [done|]. cbn. destruct (m key_ts) as [[t v]|] eqn:E; cbn.
    - destruct (value_absent v); [apply IH|]. destruct (Z.eqb t (kt_ts key_ts)); [done|apply IH].
    - apply IH. }
  intros mems' E. rewrite (Hsame mems), (Hsame mems'). by rewrite E.
Qed.

(** A point read is determined by the answers of the groups. *)
Lemma store_get_answers page w w' groups groups' level_get key_ts :
  writer_ok page w groups → writer_ok page w' groups' → KeyTs_storable key_ts →
  answers groups' key_ts = answers groups key_ts → store_get w' level_get key_ts = store_get w level_get key_ts.
Proof.
  intros Hw Hw' Hk E. unfold store_get, get_memtable, DB_get.
  assert (∀ w groups, writer_ok page w groups →
    omap (λ m, m key_ts) (option_list (Some (mem_lookup (w_memtable w))) ++ (mem_lookup <$> reverse (w_immut w))) =
    answers groups key_ts) as Ha.
  { clear Hw Hw' E w w' groups groups'. intros w groups [_ Hh _ _ _ _].
    assert (omap (λ m, m key_ts) (mem_lookup <$> reverse (w_immut w ++ [w_memtable w])) = answers groups key_ts) as Ha.
    { unfold answers. apply Forall2_reverse in Hh. induction Hh as [|mt g mts gs Hmt _ IH]; [done|].
      cbn. rewrite (mem_lookup_answer mt g key_ts Hmt Hk). destruct (answer g key_ts); [f_equal|]; exact IH. }
    rewrite reverse_snoc in Ha. exact Ha. }
  erewrite get_from_mems_answers; [reflexivity|]. rewrite (Ha _ _ Hw'), (Ha _ _ Hw). done.
Qed.

End LaterVersions.

(* ------------------------------------------------------------------ *)
(** ** Repeatable reads *)

Section Repeatable.
Context `{!VarInt, !VarIntLaws, !VarIntRead, !ChecksumCodec, !Aead, !AeadLaws}.
Context (page retries threshold : nat) (kr : Registry) (latest cip : option AesCipher).
Context (nonce : Z → list Z) (flips : Entry → list bool).
Hypothesis kr_gives : registry_gives kr cip.
Hypothesis nonce_length : ∀ fid, length (nonce fid) = 12.

Abbreviation step := (world_step page retries threshold kr latest nonce flips).

(** The value log leaves the keys of a request as they are. *)
Lemma write_entries_keys r : ∀ st st' r',
  write_entries threshold st r = Ok (st', r') → (λ x, e_key_ts x.1) <$> r' = (λ x, e_key_ts x.1) <$> r.
Proof.
  induction r as [|[e vp] r IH]; intros st st' r'; cbn [write_entries]; [by intros [= <- <-]|].
  intros ([st1 y] & Hy & ([st2 ys] & Hys & [= <- <-])%bind_Ok)%bind_Ok. rewrite !fmap_cons. f_equal; [|by eapply IH].
  unfold write_one in Hy. destruct st as [[lf off] n].
  destruct (try_set_threshold_same e threshold) as (_ & _ & _ & Hk & _).
  destruct (_ <? _); [by simplify_eq|]. apply bind_Ok in Hy as ([buf len] & _ & (lf' & _ & [= _ <-])%bind_Ok). exact Hk.
Qed.

Lemma write_reqs_keys reqs : ∀ vl vl' es,
  write_reqs threshold latest vl reqs = Ok (vl', es) →
  (λ r : req, (λ x, e_key_ts x.1) <$> r) <$> es = (λ r : req, (λ x, e_key_ts x.1) <$> r) <$> reqs.
Proof.
  induction reqs as [|r reqs IH]; intros vl vl' es; cbn [write_reqs].
  - intros (vl1 & _ & [= <- <-])%bind_Ok. done.
  - intros ([vl1 r1] & Hr1 & ([vl2 rs] & Hrs & [= <- <-])%bind_Ok)%bind_Ok. rewrite !fmap_cons. f_equal; [|by eapply IH].
    unfold write_req in Hr1. apply bind_Ok in Hr1 as (lf & _ & Hr1).
    apply bind_Ok in Hr1 as ([[[a b] c] d] & Hd & Hr1). apply bind_Ok in Hr1 as (vl3 & _ & [= _ <-]). by eapply write_entries_keys.
Qed.

(** Requests keep the timestamps of their entries on their way through the value
    log. *)
Lemma logged_in_flight s vl batches vl' es :
  Forall (in_flight s) batches →
  ValueLog_write threshold latest vl (wr_entries_vptrs <$> (WriteReq_new <$> batches)) = Ok (vl', es) →
  Forall (λ r : req, in_flight s r.*1) es.
Proof.
  intros Hb Hw. unfold ValueLog_write in Hw.
  apply bind_Ok in Hw as (u & _ & (lf & _ & Hw)%bind_Ok). apply write_reqs_keys in Hw.
  revert es Hw. induction Hb as [|entries batches (l & c & Hl & Hc & Hv) _ IH]; intros [|r es] Hw; try done.
  rewrite !fmap_cons in Hw. injection Hw as Hk Hw. constructor; [|by apply IH].
  exists l, c. split_and!; [done..|]. clear - Hk Hv. revert r Hk.
  induction Hv as [|e entries He _ IH]; intros [|x r] Hk; try done.
  rewrite !fmap_cons in Hk. injection Hk as Hx Hk. rewrite fmap_cons. constructor; [|by apply IH].
  unfold Entry_version in *. by rewrite Hx.
Qed.

(** The writer once the rotation under way is over. *)
Definition settle (W : World) : Writer :=
  match wo_pc W with
  | PReplaced old | PSent old => with_immut (wo_writer W) old
  | _ => wo_writer W
  end.

(** The memtables, the one in the hands of the writer included, hold the entries of
    [groups]; a checked memtable has room; and what is left to write belongs to
    commits in flight. *)
Record world_ok (W : World) (groups : list (list Entry)) : Prop := {
  wk_writer : writer_ok page (settle W) groups;
  wk_room : wo_pc W ≠ PCheck →
    (ar_ptr_offset (sk_arena (mt_skip_list (w_memtable (wo_writer W)))) ≤
     Z.max 112 (Z.of_nat (mc_memtable_size (w_mem_config (wo_writer W)))))%Z;
  wk_todo : Forall (λ r : req, in_flight (wo_sys W) r.*1) (wo_todo W)
}.

Lemma writer_ok_ext w w' groups :
  w_memtable w' = w_memtable w → w_mem_config w' = w_mem_config w → w_immut w' = w_immut w → w_dir w' = w_dir w →
  writer_ok page w groups → writer_ok page w' groups.
Proof. intros E1 E2 E3 E4 [? ? ? ? ? ?]. split; rewrite ?E1, ?E2, ?E3, ?E4; done. Qed.

(** A memtable that is not full has room for a request. *)
Lemma not_full_room w groups :
  writer_ok page w groups → MemTable_is_full (w_memtable w) = false →
  (ar_ptr_offset (sk_arena (mt_skip_list (w_memtable w))) ≤ Z.max 112 (Z.of_nat (mc_memtable_size (w_mem_config w))))%Z.
Proof.
  intros Hok Hfull. unfold MemTable_is_full in Hfull.
  destruct (Z.of_nat (mt_memtable_size (w_memtable w)) <=? _)%Z eqn:Hlt; [done|]. apply Z.leb_gt in Hlt.
  unfold SkipList_mem_size, arena_len in Hlt. rewrite (wo_size _ _ _ Hok) in Hlt. lia.
Qed.

(** Replacing, sending and listing a full memtable is [ensure_boom_for_write]. *)
Lemma replace_ensure w w' :
  MemTable_is_full (w_memtable w) = true → replace_memtable page retries kr nonce w = Ok w' →
  ensure_boom_for_write page (S retries) kr nonce w =
    Ok (with_immut (with_flush w' (w_memtable w)) (w_memtable w)).
Proof.
  intros Hfull Hr. unfold ensure_boom_for_write. rewrite Hfull. cbn [negb].
  apply bind_Ok in Hr as ([mt cfg] & -> & [= <-]). done.
Qed.

(** One request goes behind the entries of the memtable. *)
Lemma apply_ok w groups mt r r' :
  writer_ok page w groups → req_fits (w_mem_config w) (store_pointer <$> r) →
  (ar_ptr_offset (sk_arena (mt_skip_list (w_memtable w))) ≤ Z.max 112 (Z.of_nat (mc_memtable_size (w_mem_config w))))%Z →
  write_to_memtable page (S retries) flips (w_memtable w) r = (mt, r', Ok ()) →
  ∃ gs g, groups = gs ++ [g] ∧ writer_ok page (with_memtable w mt) (gs ++ [g ++ (store_pointer <$> r)]).
Proof.
  intros Hok Hfit Hptr Hw.
  assert (∀ es0, mt_holds (w_memtable w) (foldl insert_entry [] es0) →
    mt_holds mt (foldl insert_entry [] (es0 ++ (store_pointer <$> r))) ∧
    mt_memtable_size mt = mt_memtable_size (w_memtable w) ∧
    ar_size (sk_arena (mt_skip_list mt)) = ar_size (sk_arena (mt_skip_list (w_memtable w)))) as Hall.
  { intros es0 Hes0.
    destruct (write_to_memtable_holds page retries flips r (w_mem_config w) (w_memtable w) es0
      (page_pos _ _ (wo_config _ _ _ Hok)) Hes0 Hfit Hptr (wo_arena _ _ _ Hok)) as (mt' & Hw' & Hh & Hsz & Har).
    rewrite Hw in Hw'. by simplify_eq. }
  pose proof (wo_holds _ _ _ Hok) as Hh. apply Forall2_app_inv_l in Hh as (? & ? & _ & Hh & _).
  apply Forall2_cons_inv_l in Hh as (g0 & ? & Hg & _). destruct (Hall g0 Hg) as (_ & Hsz & Har).
  apply writer_ok_append; [done|by apply Hall|done|done].
Qed.

(** One step: what the memtables answer at or below the committed mark stays. *)
Lemma world_step_reads config max_version W W' groups r :
  tx_managed_txns config = false → (0 <= max_version < U64_MAX)%Z →
  reachable config max_version (wo_sys W) → world_ok W groups →
  (r <= wm_done_until (or_txn_mark (sys_oracle (wo_sys W))))%Z → step W W' →
  reachable config max_version (wo_sys W') ∧ (r <= wm_done_until (or_txn_mark (sys_oracle (wo_sys W'))))%Z ∧
  ∃ groups', world_ok W' groups' ∧ ∀ k, answers groups' (mkKeyTs k r) = answers groups (mkKeyTs k r).
Proof.
  intros Hcfg Hd Hr Hok Hle Hs. destruct Hok as [Hw Hroom Htodo]. destruct Hs as [s s' w pc todo Hs Hfl|s w batches vl' es Hne Hfl Hvl
    |s w todo|s w rq todo Hne Hfull|s w w' rq todo Hne Hfull Hfid Hrep|s w old todo|s w old todo|s w mt rq rq' todo Hfit Hap];
    cbn [wo_sys wo_writer wo_pc wo_todo settle] in *.
  - destruct (rtc_step_mono config max_version Hd Hcfg s s' Hr (rtc_once _ _ Hs)) as [Hr' Hm].
    split_and!; [done|lia|]. exists groups. by split; [split|].
  - split_and!; [done|done|]. exists groups. split; [|done]. split; cbn; [by apply (writer_ok_ext w)|done|].
    by eapply logged_in_flight.
  - split_and!; [done|done|]. exists groups. apply Forall_cons in Htodo as [_ Htodo]. by split; [split|].
  - split_and!; [done|done|]. exists groups. split; [|done]. split; cbn; [done| |done]. intros _. by eapply not_full_room.
  - split_and!; [done|done|].
    destruct (ensure_ok page retries kr cip nonce kr_gives nonce_length w groups Hw Hfid)
      as (w1 & g1 & He & Hok1 & Hg & Hptr & Hms & _). rewrite (replace_ensure w w' Hfull Hrep) in He. injection He as <-.
    cbn [with_immut with_flush w_memtable w_mem_config] in Hptr, Hms.
    exists g1. split; [split; cbn; [|by rewrite Hms|done]|].
    + by apply (writer_ok_ext (with_immut (with_flush w' (w_memtable w)) (w_memtable w))).
    + intros k. destruct Hg as [->| ->]; [done|]. by rewrite answers_snoc.
  - split_and!; [done|done|]. exists groups. split; [|done]. split; cbn; [by apply (writer_ok_ext (with_immut w old))|by intros _; apply Hroom|done].
  - split_and!; [done|done|]. exists groups. split; [|done]. split; cbn; [done|by intros _; apply Hroom|done].
  - split_and!; [done|done|]. apply Forall_cons in Htodo as [Hrq Htodo].
    destruct (apply_ok w groups mt rq rq' Hw Hfit (Hroom ltac:(done)) Hap) as (gs & g & -> & Hok').
    exists (gs ++ [g ++ (store_pointer <$> rq)]). split; [by split|]. intros k. rewrite !answers_snoc. f_equal. f_equal.
    apply answer_app, Forall_forall. intros e (x & -> & Hx)%list_elem_of_fmap (_ & _ & Hv). cbn [kt_ts] in Hv.
    destruct Hrq as (l & c & [i Hl]%list_elem_of_lookup & Hc & Hve). rewrite Forall_forall in Hve.
    specialize (Hve x.1 (list_elem_of_fmap_2 fst _ _ Hx)).
    pose proof (reachable_in_flight config max_version Hd Hcfg s i l c Hr Hl Hc).
    unfold Entry_version in Hv, Hve. destruct (store_pointer_keeps x) as [Hk _]. rewrite Hk in Hv. lia.
Qed.

Lemma world_steps_reads config max_version W W' groups r :
  tx_managed_txns config = false → (0 <= max_version < U64_MAX)%Z →
  reachable config max_version (wo_sys W) → world_ok W groups →
  (r <= wm_done_until (or_txn_mark (sys_oracle (wo_sys W))))%Z → rtc step W W' →
  reachable config max_version (wo_sys W') ∧ (r <= wm_done_until (or_txn_mark (sys_oracle (wo_sys W'))))%Z ∧
  ∃ groups', world_ok W' groups' ∧ ∀ k, answers groups' (mkKeyTs k r) = answers groups (mkKeyTs k r).
Proof.
  intros Hcfg Hd Hr Hok Hle Hs. revert groups Hr Hok Hle. induction Hs as [W|W W1 W' Hs1 _ IH]; intros groups Hr Hok Hle.
  { split_and!; [done|done|]. by exists groups. }
  destruct (world_step_reads config max_version W W1 groups _ Hcfg Hd Hr Hok Hle Hs1) as (Hr1 & Hle1 & g1 & Hok1 & Ha1).
  destruct (IH g1 Hr1 Hok1 Hle1) as (Hr' & Hle' & g' & Hok' & Ha'). split_and!; [done|done|].
  exists g'. split; [done|]. intros k. by rewrite Ha', Ha1.
Qed.

(** What a clean read gives is determined by the answers of the memtables. *)
Lemma clean_read_store W1 W2 level_get key_ts :
  clean_read W1 W2 → read_between W1 W2 level_get key_ts = store_get (settle W2) level_get key_ts.
Proof.
  intros [Hpc E]. unfold read_between, store_get, settle, get_memtable. cbn [snd].
  rewrite E. by destruct (wo_pc W2).
Qed.

(** C2: A transaction reads from a snapshot: once the committed mark has reached
    its read timestamp, which is what its beginning waits for, two reads of a key
    give the same result, whatever other transactions begin, read, commit, finish or
    are discarded and whatever the writer does of its batches before, during and
    between the two reads, await by await - as long as neither read overlaps the
    rotation of a full memtable and the levels answer the same. *)
Theorem repeatable_reads config max_version W1 W2 W3 W4 groups hash_one opt banned level_get now txn k :
  tx_managed_txns config = false → (0 <= max_version < U64_MAX)%Z →
  reachable config max_version (wo_sys W1) → world_ok W1 groups →
  (tn_read_ts txn <= wm_done_until (or_txn_mark (sys_oracle (wo_sys W1))))%Z →
  rtc step W1 W2 → rtc step W2 W3 → rtc step W3 W4 → clean_read W1 W2 → clean_read W3 W4 →
  KeyTs_storable (mkKeyTs k (tn_read_ts txn)) →
  Txn_get hash_one opt banned (read_between W3 W4 level_get) now txn k =
  Txn_get hash_one opt banned (read_between W1 W2 level_get) now txn k.
Proof.
  intros Hcfg Hd Hr Hok Hle H12 H23 H34 C12 C34 Hk.
  assert (read_between W3 W4 level_get (mkKeyTs k (tn_read_ts txn)) =
          read_between W1 W2 level_get (mkKeyTs k (tn_read_ts txn))) as E.
  { rewrite !clean_read_store by done.
    destruct (world_steps_reads config max_version W1 W2 groups _ Hcfg Hd Hr Hok Hle H12) as (Hr2 & Hle2 & g2 & Hok2 & _).
    destruct (world_steps_reads config max_version W2 W4 g2 _ Hcfg Hd Hr2 Hok2 Hle2) as (_ & _ & g4 & Hok4 & Ha4);
      [by etrans|].
    eapply store_get_answers; [apply (wk_writer _ _ Hok2)|apply (wk_writer _ _ Hok4)|done|apply Ha4]. }
  unfold Txn_get. assert (∀ h, tn_read_ts (push_read_hash txn h) = tn_read_ts txn) as Hp by done.
  destruct (length k =? 0), (tn_discarded txn), (is_banned opt banned k), (get_pending txn k), (tn_update txn);
    rewrite ?Hp, ?E; done.
Qed.

(** Without other steps in between, the steps of the writer are the loop of
    [write_requests] over its requests. *)
Lemma loop_runs s reqs : ∀ w w' rs,
  Forall (λ r, req_fits (w_mem_config w) (store_pointer <$> wr_entries_vptrs r)) reqs →
  ∀ groups, writer_ok page w groups → (mc_next_fid (w_mem_config w) + Z.of_nat (length reqs) < 2 ^ 32)%Z →
  write_loop page (S retries) kr nonce flips w reqs = (w', rs, Ok ()) →
  rtc step (mkWorld s w PCheck (wr_entries_vptrs <$> reqs)) (mkWorld s w' PCheck []).
Proof.
  induction reqs as [|r reqs IH]; intros w w' rs Hfit groups Hok Hmax Hl; [by injection Hl as <- _|].
  apply Forall_cons in Hfit as [Hr Hfit]. rewrite fmap_cons. cbn [length] in Hmax. cbn [write_loop] in Hl.
  destruct (length (wr_entries_vptrs r) =? 0) eqn:Hz.
  { apply Nat.eqb_eq, nil_length_inv in Hz. rewrite Hz. eapply rtc_l; [apply ws_skip|].
    destruct (write_loop _ _ _ _ _ w reqs) as [[w1 rs1] o] eqn:E. injection Hl as -> <- ->.
    by eapply (IH w w' rs1 Hfit groups Hok); [lia|]. }
  assert (wr_entries_vptrs r ≠ []) as Hne by (intros E; by rewrite E in Hz).
  destruct (ensure_ok page retries kr cip nonce kr_gives nonce_length w groups Hok)
    as (w1 & g1 & He & Hok1 & _ & Hptr & Hms & Has & Hnx & _); [lia|]. rewrite He in Hl.
  assert (rtc step (mkWorld s w PCheck (wr_entries_vptrs r :: (wr_entries_vptrs <$> reqs)))
                   (mkWorld s w1 PApply (wr_entries_vptrs r :: (wr_entries_vptrs <$> reqs)))) as Hens.
  { destruct (MemTable_is_full (w_memtable w)) eqn:Hfull.
    - unfold ensure_boom_for_write in He. rewrite Hfull in He. cbn [negb] in He.
      apply bind_Ok in He as ([mt cfg] & Hnew & [= <-]).
      eapply rtc_l; [eapply (ws_replace _ _ _ _ _ _ _ s w); [done|done|lia|]|].
      { unfold replace_memtable. rewrite Hnew. reflexivity. }
      eapply rtc_l; [apply ws_send|]. apply rtc_once. apply ws_list.
    - unfold ensure_boom_for_write in He. rewrite Hfull in He. injection He as <-.
      apply rtc_once. by apply ws_room. }
  etrans; [exact Hens|].
  assert (∀ es, req_fits (w_mem_config w) es → req_fits (w_mem_config w1) es) as Hcfg
    by (unfold req_fits; by rewrite Hms, Has).
  destruct (write_to_memtable page (S retries) flips (w_memtable w1) (wr_entries_vptrs r)) as [[mt es] o] eqn:Hw.
  destruct o as [[]|e|]; [|done..].
  destruct (write_loop _ _ _ _ _ (with_memtable w1 mt) reqs) as [[w2 rs2] o2] eqn:E. injection Hl as -> <- ->.
  eapply rtc_l; [eapply ws_apply; [by apply Hcfg|exact Hw]|].
  destruct (apply_ok w1 g1 mt (wr_entries_vptrs r) es Hok1 (Hcfg _ Hr)) as (gs & g & _ & Hok2); [by rewrite Hms|done|].
  eapply (IH _ _ rs2); [|exact Hok2|cbn; lia|exact E].
  eapply Forall_impl; [exact Hfit|]. intros x Hx. by apply Hcfg.
Qed.

Lemma write_requests_runs s w groups batches vl' es w' rs :
  writer_ok page w groups → batches ≠ [] → Forall (in_flight s) batches →
  ValueLog_write threshold latest (w_vlog w) (wr_entries_vptrs <$> (WriteReq_new <$> batches)) = Ok (vl', es) →
  Forall (λ r : req, req_fits (w_mem_config w) (store_pointer <$> r)) es →
  (mc_next_fid (w_mem_config w) + Z.of_nat (length batches) < 2 ^ 32)%Z →
  write_requests page (S retries) threshold kr latest nonce flips w (WriteReq_new <$> batches) = (w', rs, Ok ()) →
  ∃ w1, w' = with_publisher w1 (w_publisher w') ∧ rtc step (mkWorld s w PCheck []) (mkWorld s w1 PCheck []).
Proof.
  intros Hok Hne Hfl Hvl Hfit Hmax Hw. unfold write_requests in Hw. rewrite Hvl in Hw.
  destruct (WriteReq_new <$> batches) as [|r0 reqs0] eqn:Hr; [by destruct batches|]. rewrite <- Hr in *.
  assert (length es = length (WriteReq_new <$> batches)) as Hlen.
  { unfold ValueLog_write in Hvl. apply bind_Ok in Hvl as (u & _ & (lf & _ & Hvl)%bind_Ok).
    apply write_reqs_length in Hvl. by rewrite Hvl, length_fmap. }
  set (reqs1 := zip_with (λ r e, mkWriteReq e (wr_result r)) (WriteReq_new <$> batches) es) in *.
  assert (wr_entries_vptrs <$> reqs1 = es) as Hes by (unfold reqs1; rewrite fmap_zip_with_r; [done|done|lia]).
  destruct (write_loop _ _ _ _ _ (with_vlog w vl') reqs1) as [[w1 rs1] [u|e|]] eqn:El; [|done..].
  injection Hw as <- _. exists w1. split; [done|]. eapply rtc_l; [by eapply ws_vlog|]. rewrite <- Hes. destruct u.
  eapply (loop_runs s reqs1 (with_vlog w vl') w1 rs1); [|by apply (writer_ok_ext w)| |exact El].
  - rewrite <- Hes in Hfit. exact (proj1 (Forall_fmap wr_entries_vptrs _ _) Hfit).
  - unfold reqs1. rewrite length_zip_with, length_fmap. cbn [w_mem_config with_vlog]. lia.
Qed.

End Repeatable.

(* ------------------------------------------------------------------ *)
(** ** [DB::update] gives its read mark back *)

Lemma cleanup_read_chan o o' : cleanup_committed_txns o = Ok o' → or_read_chan o' = or_read_chan o.
Proof.
  unfold cleanup_committed_txns. destruct (negb _); [by intros [= <-]|]. intros (u & _ & Hr)%bind_Ok.
  by destruct (_ =? _)%Z; injection Hr as <-.
Qed.

Lemma commit_ts_read_chan o t ts o' t' :
  tx_managed_txns (or_config o) = false → get_latest_commit_ts o t = Ok (ts, o', t') →
  or_read_chan o' = or_read_chan (done_read o t).1 ∧ t' = (done_read o t).2.
Proof.
  intros Hm. unfold get_latest_commit_ts. destruct (has_conflict o t); [done|].
  rewrite Hm. cbn [negb]. intros ([[ts1 o1] t1] & Hc & (u & _ & H2)%bind_Ok)%bind_Ok.
  destruct (done_read o t) as [o2 t2] eqn:E. apply bind_Ok in Hc as (o3 & Hcl & (nx & _ & [= <- <- <-])%bind_Ok).
  pose proof (done_read_marks _ _ _ _ E) as (_ & _ & Hcf). apply cleanup_marks in Hcl as Hcm.
  destruct Hcm as (_ & _ & Hcf'). cbn [or_config send_txn set_inner] in H2. rewrite Hcf', Hcf, Hm in H2.
  apply bind_Ok in H2 as (o4 & [= <-] & [= <- <- <-]). cbn. by rewrite (cleanup_read_chan _ _ Hcl).
Qed.

(** What a commit that does not panic does to the mark of its transaction. *)
Lemma Txn_commit_read db txn result db' txn' r :
  tx_managed_txns (or_config (wd_oracle db)) = false → Txn_commit db txn result = (db', txn', r) → r ≠ Panic →
  tn_done_read txn = false →
  tn_discarded txn' = tn_discarded txn ∧ tn_config txn' = tn_config txn ∧ tn_read_ts txn' = tn_read_ts txn ∧
  or_read_chan (wd_oracle db') = or_read_chan (wd_oracle db) ++
    (if tn_done_read txn' then [Mark_new (tn_read_ts txn) true] else []).
Proof.
  intros Hm. unfold Txn_commit. destruct (match tn_pending_writes txn with Some s => size s =? 0 | None => true end).
  { intros [= <- <- <-] _ Hd. by rewrite Hd, app_nil_r. }
  destruct (commit_pre_check txn) as [u|e|]; [|by intros [= <- <- <-] _ Hd; rewrite Hd, app_nil_r|by intros [= <- <- <-]].
  unfold commit_and_send. destruct (get_latest_commit_ts (wd_oracle db) (oracle_view txn)) as [[[ts o] ot]|e|] eqn:E;
    [|by intros [= <- <- <-] _ Hd; rewrite Hd, app_nil_r|by intros [= <- <- <-]].
  destruct (commit_ts_read_chan _ _ _ _ _ Hm E) as [Hch ->]. intros H Hp Hd.
  assert (or_read_chan o = or_read_chan (wd_oracle db) ++ [Mark_new (tn_read_ts txn) true]) as Hch'.
  { rewrite Hch. unfold done_read, oracle_view. cbn [ot_done_read]. by rewrite Hd. }
  assert (ot_done_read (done_read (wd_oracle db) (oracle_view txn)).2 = true) as Hdone.
  { unfold done_read, oracle_view. cbn [ot_done_read]. by rewrite Hd. }
  assert (∀ ts, or_read_chan (done_commit o ts) = or_read_chan o) as Hdc.
  { intros ts0. unfold done_commit. by destruct (negb _). }
  revert H. unfold commit_entries. destruct (forallb _ _).
  1: destruct (negb (ts =? 0)%Z); cbn [assert_or_panic mbind outcome_bind]; [|by intros [= <- <- <-]].
  all: unfold send_entires_to_write_channel; cbn [wd_block_writes wd_chan wd_oracle];
       destruct (wd_block_writes db); intros [= <- <- <-]; cbn; rewrite ?Hdone, ?Hdc, Hch'; done.
Qed.

(** What a commit that does not panic answers: nothing was written and nothing sent;
    an error of its own and nothing sent; or its batch was sent, and the answer is
    that of the writer. *)
Definition commit_answers (db : WriteDb) (txn : Txn) (result : outcome unit) (db' : WriteDb) (r : outcome unit) : Prop :=
  (wd_chan db' = wd_chan db ∧ from_option size 0 (tn_pending_writes txn) = 0 ∧ r = Ok ()) ∨
  (∃ e, wd_chan db' = wd_chan db ∧ r = Err e ∧ (commit_pre_check txn = Err e ∨ (commit_and_send db txn).2 = Err e)) ∨
  (∃ entries, wd_chan db' = wd_chan db ++ [entries] ∧ r = result).

Lemma Txn_commit_answers db txn result db' txn' r :
  Txn_commit db txn result = (db', txn', r) → r ≠ Panic → commit_answers db txn result db' r.
Proof.
  unfold Txn_commit, commit_answers. destruct (tn_pending_writes txn) as [p|]; [|intros [= <- _ <-] _; by left].
  destruct (size p =? 0) eqn:Ez; [intros [= <- _ <-] _; left; split_and!; [done|by apply Nat.eqb_eq|done]|].
  destruct (commit_pre_check txn) as [u|e|]; [|intros [= <- _ <-] _; right; left; by eauto 6|by intros [= <- _ <-]].
  destruct (commit_and_send db txn) as [[db1 txn1] [ts|e|]] eqn:E; [| |by intros [= <- _ <-]].
  - intros [= <- _ <-] _. right; right. cbn [wd_chan]. revert E. unfold commit_and_send.
    destruct (get_latest_commit_ts _ _) as [[[ts1 o] ot]| |]; [|done..]. destruct (commit_entries txn ts1) as [es| |]; [|done..].
    unfold send_entires_to_write_channel. cbn [wd_block_writes]. destruct (wd_block_writes db); [done|].
    intros [= <- _ _]. by exists es.
  - intros [= <- _ <-] _. right; left. exists e. split_and!; [|done|by right]. revert E. unfold commit_and_send.
    destruct (get_latest_commit_ts _ _) as [[[ts1 o] ot]| |]; [|by intros [= <- _ _]|done].
    destruct (commit_entries txn ts1) as [es| |]; [|by intros [= <- _ _]|done].
    unfold send_entires_to_write_channel. cbn [wd_block_writes]. destruct (wd_block_writes db); [by intros [= <- _ _]|done].
Qed.

(** C20: [DB::update] on a database that hands out its own timestamps, with an update
    that does not touch the marks of its transaction, when nothing panics: whether
    the update, the commit or the writer fails or all succeed, exactly one begin mark
    and one done mark of its read timestamp are sent to the read water mark, so that a
    finished update never holds back the discarding of old versions.  When the update
    fails, its error is returned and nothing is sent to the writer; otherwise the
    answer is that of the commit: success without a batch when there were no writes,
    the error of the commit with nothing sent, or the answer of the writer to the one
    batch that was sent. *)
Theorem update_releases closed db notify f result num_iters db' r :
  (∀ txn, let txn' := (f txn).1 in
     tn_discarded txn' = tn_discarded txn ∧ tn_config txn' = tn_config txn ∧
     tn_read_ts txn' = tn_read_ts txn ∧ tn_done_read txn' = tn_done_read txn) →
  closed = false → tx_managed_txns (or_config (wd_oracle db)) = false →
  DB_update closed db notify f result num_iters = (db', r) → r ≠ Panic →
  let read_ts := (oc_next_txn_ts (or_inner (wd_oracle db)) - 1)%Z in
  or_read_chan (wd_oracle db') =
    or_read_chan (wd_oracle db) ++ [Mark_new read_ts false; Mark_new read_ts true] ∧
  ∃ txn0 db0, get_update_txn closed db notify = Ok (txn0, db0) ∧ wd_chan db0 = wd_chan db ∧
    match f txn0 with
    | (_, Err e) => r = Err e ∧ wd_chan db' = wd_chan db
    | (txn1, Ok _) => commit_answers db0 txn1 result db' r
    | (_, Panic) => False
    end.
Proof.
  intros Hf -> Hm. unfold DB_update, get_update_txn. rewrite Hm.
  unfold get_latest_read_ts. rewrite Hm.
  destruct (TxnTs_sub (oc_next_txn_ts (or_inner (wd_oracle db))) 1) as [rts|e|] eqn:Ets; cbn [mbind outcome_bind];
    [|by unfold TxnTs_sub in Ets; case_match|by intros [= <- <-]].
  assert (rts = (oc_next_txn_ts (or_inner (wd_oracle db)) - 1)%Z) as ->
    by (unfold TxnTs_sub in Ets; by case_match; simplify_eq).
  set (read_ts := (oc_next_txn_ts (or_inner (wd_oracle db)) - 1)%Z).
  set (o1 := wait_for_mark _ _ _). set (txn0 := Txn_new _ true read_ts).
  assert (or_read_chan o1 = or_read_chan (wd_oracle db) ++ [Mark_new read_ts false] ∧ or_config o1 = or_config (wd_oracle db))
    as [Hch1 Hcf1] by (unfold o1, wait_for_mark; by case_match).
  destruct (Hf txn0) as (F1 & F2 & F3 & F4). unfold update_run.
  destruct (f txn0) as [txn1 [u|e|]] eqn:Ef; cbn [fst] in *; [| |by intros [= <- <-]].
  - destruct (Txn_commit _ txn1 result) as [[db2 txn2] r2] eqn:Ec. intros Hd Hp.
    assert (r2 ≠ Panic) as Hr2 by (intros ->; by simplify_eq).
    assert (tx_managed_txns (or_config o1) = false) as Hm1 by by rewrite Hcf1.
    destruct (Txn_commit_read (mkWriteDb o1 _ _) _ _ _ _ _ Hm1 Ec Hr2 F4) as (G1 & G2 & G3 & G4).
    cbn [wd_oracle] in G4. pose proof (Txn_commit_answers _ _ _ _ _ _ Ec Hr2) as Hans.
    unfold Txn_discard, done_read in Hd. rewrite G1, G2, F1, F2 in Hd. cbn [tn_discarded txn0 Txn_new tn_config] in Hd.
    rewrite Hm in Hd. cbn [negb oracle_view ot_done_read ot_read_ts] in Hd. rewrite G3, F3 in Hd. rewrite F3 in G4.
    destruct (0 <? num_iters)%Z; [destruct r2; by simplify_eq|].
    assert (r2 = r ∧ wd_chan db' = wd_chan db2 ∧
            or_read_chan (wd_oracle db') = or_read_chan o1 ++ [Mark_new read_ts true]) as (-> & Hch & Hrd).
    { destruct (tn_done_read txn2); destruct r2; try done; injection Hd as <- <-; cbn; rewrite ?G4, ?app_nil_r; by split_and!. }
    split; [by rewrite Hrd, Hch1, <- app_assoc|]. eexists txn0, _. split; [done|]. split; [done|]. rewrite Ef.
    unfold commit_answers in *. by rewrite Hch.
  - cbn. intros Hd Hp. unfold Txn_discard, done_read in Hd. rewrite F1, F2 in Hd.
    cbn [tn_discarded txn0 Txn_new tn_config wd_oracle] in Hd. rewrite Hm in Hd.
    cbn [negb oracle_view ot_done_read ot_read_ts] in Hd. rewrite F4, F3 in Hd. cbn [txn0 Txn_new tn_done_read] in Hd.
    destruct (0 <? num_iters)%Z; [by simplify_eq|]. injection Hd as <- <-. cbn. rewrite Hch1, <- app_assoc.
    split; [done|]. eexists txn0, _. split; [done|]. split; [done|]. by rewrite Ef.
Qed.

(** ** Examples *)

Module SnapshotExamples.

#[local] Existing Instances VlogExamples.leb_read VlogExamples.leb_read_laws.
Import WriteExamples ReadBackExamples.

Abbreviation example_step := (world_step 16 0 2 registry None nonce flips).

(** A reader at 7, and the commit with timestamp 8 that the writer takes from the
    channel, logs, checks the memtable for and writes. *)
Definition taken : World := mkWorld OracleExamples.s2 w0 PCheck [].
Definition w_logged : Writer := with_vlog w0 logged_batch.1.
Definition in_log : World := mkWorld OracleExamples.s2 w_logged PCheck logged_batch.2.
Definition checked : World := mkWorld OracleExamples.s2 w_logged PApply logged_batch.2.

Definition w_applied : Writer :=
  with_memtable w_logged (write_to_memtable 16 1 flips (w_memtable w_logged) (concat logged_batch.2)).1.1.
Definition done : World := mkWorld OracleExamples.s2 w_applied PCheck [].

Definition reader : Txn := Txn_new TxnConfig_default false 7.

Lemma one_request : logged_batch.2 = [concat logged_batch.2].
Proof. vm_compute. reflexivity. Qed.

Lemma request_nonempty : concat logged_batch.2 ≠ [].
Proof. intros E. apply (f_equal length) in E. vm_compute in E. discriminate. Qed.

Lemma entries_in_flight : in_flight OracleExamples.s2 entries.
Proof.
  exists (mkLive OracleExamples.r2.2 (Some 8%Z)), 8%Z.
  split; [apply list_elem_of_here|]. split; [reflexivity|].
  assert (Entry_version <$> entries = replicate 3 8%Z) as E by (vm_compute; reflexivity).
  apply (proj1 (Forall_fmap Entry_version (λ v, v = 8%Z) entries)). rewrite E. repeat constructor.
Qed.

Lemma taken_steps : rtc example_step taken checked.
Proof.
  eapply rtc_l; [apply (ws_vlog 16 0 2 registry None nonce flips OracleExamples.s2 w0 [entries] logged_batch.1 logged_batch.2)|].
  - discriminate.
  - apply Forall_singleton. exact entries_in_flight.
  - exact logged_batch_eq.
  - apply rtc_once. unfold checked. rewrite one_request. apply ws_room; [exact request_nonempty|].
    vm_compute. reflexivity.
Qed.

Lemma checked_steps : rtc example_step checked done.
Proof.
  apply rtc_once. unfold checked. rewrite one_request.
  eapply (ws_apply 16 0 2 registry None nonce flips OracleExamples.s2 w_logged _ (concat logged_batch.2)).
  - pose proof logged_batch_fits as Hf. rewrite one_request in Hf. apply Forall_cons in Hf as [Hf _]. exact Hf.
  - vm_compute. reflexivity.
Qed.

Lemma reader_storable : KeyTs_storable (mkKeyTs [97]%Z 7).
Proof. repeat split; vm_compute; congruence. Qed.

(** The second read takes the list of full memtables before and looks into the
    memtable after the request was written. *)
Lemma repeatable_reads_witness :
  Txn_get TxnExamples.hash opt ∅ (read_between checked done level) 0 reader [97]%Z =
  Txn_get TxnExamples.hash opt ∅ (read_between taken taken level) 0 reader [97]%Z.
Proof.
  apply (repeatable_reads 16 0 2 registry None None nonce flips registry_ok (λ _, eq_refl) TxnConfig_default 7
    taken taken checked done [[]] TxnExamples.hash opt ∅ level 0 reader [97]%Z).
  - reflexivity.
  - vm_compute. split; congruence.
  - exact OracleExamples.s2_reachable.
  - split; [exact w0_ok|by intros []|constructor].
  - vm_compute. congruence.
  - apply rtc_refl.
  - exact taken_steps.
  - exact checked_steps.
  - split; reflexivity.
  - split; reflexivity.
  - exact reader_storable.
Defined.

(** The write itself is there: a reader at the commit timestamp finds it. *)
Lemma writer_applied :
  (Txn_get TxnExamples.hash opt ∅ (read_between done done level) 0 (Txn_new TxnConfig_default false 8) [97]%Z).2 =
    Ok (mkItemInner (mkKeyTs [97]%Z 8) (mkValueMeta [3]%Z 0 0 64) NoPrefetched) ∧
  (Txn_get TxnExamples.hash opt ∅ (read_between done done level) 0 reader [97]%Z).2 =
    Ok (mkItemInner (mkKeyTs [97]%Z 3) (mkValueMeta [2]%Z 0 0 0) NoPrefetched).
Proof. vm_compute. split; reflexivity. Qed.

(** A read that does overlap a rotation can miss a version it has read before: the
    key 98 was written with version 5, and the memtable that holds it is full and
    replaced for the next request, but not listed yet. *)
Definition w_full : Writer := (write_requests 16 1 2 registry None nonce flips w0 reqs).1.1.
Definition w_replaced : Writer :=
  match replace_memtable 16 0 registry nonce w_full with Ok w => w | _ => w_full end.
Definition before_rotation : World := mkWorld OracleExamples.s2 w_full PCheck [concat logged_batch.2].
Definition in_rotation : World :=
  mkWorld OracleExamples.s2 w_replaced (PReplaced (w_memtable w_full)) [concat logged_batch.2].

Lemma read_misses_rotated :
  example_step before_rotation in_rotation ∧
  fst <$> match read_between before_rotation before_rotation (λ _, Ok None) (mkKeyTs [98]%Z 7) with Ok o => o | _ => None end
    = Some 5%Z ∧
  read_between in_rotation in_rotation (λ _, Ok None) (mkKeyTs [98]%Z 7) = Ok None.
Proof.
  split; [|split; vm_compute; reflexivity].
  apply ws_replace; [exact request_nonempty|vm_compute; reflexivity|vm_compute; reflexivity|].
  assert (match replace_memtable 16 0 registry nonce w_full with Ok _ => true | _ => false end = true) as Hok by (vm_compute; reflexivity).
  unfold w_replaced. by destruct (replace_memtable 16 0 registry nonce w_full).
Qed.

(** An update that sets one key. *)
Definition set_one (txn : Txn) : Txn * outcome unit :=
  match Txn_set TxnExamples.hash opt ∅ txn [97]%Z [1]%Z with
  | Ok txn' => (txn', Ok ())
  | Err e => (txn, Err e)
  | Panic => (txn, Panic)
  end.

Lemma set_one_keeps txn :
  let txn' := (set_one txn).1 in
  tn_discarded txn' = tn_discarded txn ∧ tn_config txn' = tn_config txn ∧
  tn_read_ts txn' = tn_read_ts txn ∧ tn_done_read txn' = tn_done_read txn.
Proof.
  unfold set_one, Txn_set. destruct (modify _ _ _ _ _) as [txn'|e|] eqn:E; [|done..].
  apply modify_inv in E as (_ & ->). unfold written. by destruct (insert_pending _ _ _).
Qed.

Definition db0 : WriteDb := mkWriteDb OracleExamples.o0 false [].

(** The writer answers with an error, which the caller gets. *)
Definition failed : outcome unit := Err (EMsg "no space left").

Lemma update_releases_witness :
  or_read_chan (wd_oracle (DB_update false db0 0 set_one failed 0).1) = [Mark_new 7 false; Mark_new 7 true] ∧
  ∃ txn0 db1, get_update_txn false db0 0 = Ok (txn0, db1) ∧ wd_chan db1 = [] ∧
    match set_one txn0 with
    | (_, Err e) => failed = Err e ∧ wd_chan (DB_update false db0 0 set_one failed 0).1 = []
    | (txn1, Ok _) => commit_answers db1 txn1 failed (DB_update false db0 0 set_one failed 0).1 failed
    | (_, Panic) => False
    end.
Proof.
  apply (update_releases false db0 0 set_one failed 0 (DB_update false db0 0 set_one failed 0).1 failed).
  - exact set_one_keeps.
  - reflexivity.
  - reflexivity.
  - vm_compute. reflexivity.
  - discriminate.
Defined.

(** Two transactions that read and write one key both commit: the second has read
    nothing of the first, whose update is lost. *)
Definition increment (read_ts : Z) : Txn :=
  let txn := (Txn_get TxnExamples.hash opt ∅ (λ _, Ok None) 0 (Txn_new TxnConfig_default true read_ts) [97]%Z).1 in
  (set_one txn).1.

Lemma lost_update :
  let '(db1, _, r1) := commit_and_send TxnExamples.db (increment 7) in
  let '(_, _, r2) := commit_and_send db1 (increment 7) in
  tn_read_key_hash (increment 7) = [TxnExamples.hash [97]%Z] ∧ r1 = Ok 8%Z ∧ r2 = Ok 9%Z.
Proof. vm_compute. split_and!; reflexivity. Qed.

End SnapshotExamples.
