(* ===== verification/WriterTask.v ===== *)
(** * WriterTask: the tasks that write batches and flush memtables

    [do_writes] of src/src/write.rs and, with [ensure_boom_for_write], the task
    [flush_memtable] of src/src/level/flush.rs, as step relations over what the
    tasks share.  The first relation follows the requests: the channel, the batch
    being collected, the batch being written by a spawned task, and the
    notification that lets one batch be written at a time.  The second follows the
    memtables, by their identifiers, between the writer, the flusher and the
    readers.  A [select!] takes any branch that is ready. *)
From stdpp Require Import base list relations.
From Stdlib Require Import ZArith Lia.
From S2P Require Import Prelude.

Local Open Scope nat_scope.

(* ------------------------------------------------------------------ *)
(** ** The batches of [do_writes] *)

Definition KV_WRITES_ENTRIES_CHANNEL_CAPACITY : nat := 1000.

(** Where the task stands: in the outer [select!], in the inner loop, draining the
    channel after it was told to close, waiting for the batch in flight before the
    last one, writing the last one, or done. *)
Inductive Phase : Type := Outer | Inner | Draining | LastWait | LastWrite | Returned.

Section Task.
Context {A : Type}.

Record Task : Type := mkTask {
  tk_phase : Phase;
  tk_chan : list A;
  tk_batch : list A;
  tk_in_flight : list (list A);
  tk_permit : bool;
  tk_close : bool;
  tk_users : nat;
  tk_written : list (list A);
  tk_sent : list A
}.

(** The start: one notification is stored, [users] handles of the database. *)
Definition task_start (users : nat) : Task := mkTask Outer [] [] [] true false users [] [].

(** The sender of the channel is in the database, which lives as long as one of
    its handles: those of users, of the task itself and of a batch in flight. *)
Definition handles (t : Task) : nat :=
  tk_users t + (match tk_phase t with Returned => 0 | _ => 1 end) +
  length (tk_in_flight t).

Definition LIMIT : nat := 3 * KV_WRITES_ENTRIES_CHANNEL_CAPACITY.

Inductive task_step : Task → Task → Prop :=
(** A user sends a request, drops its handle, or closes the database. *)
| step_send p c b f n k u w s r :
    0 < u →
    task_step (mkTask p c b f n k u w s) (mkTask p (c ++ [r]) b f n k u w (s ++ [r]))
| step_drop p c b f n k u w s :
    task_step (mkTask p c b f n k (S u) w s) (mkTask p c b f n k u w s)
| step_signal p c b f n k u w s :
    task_step (mkTask p c b f n k u w s) (mkTask p c b f n true u w s)
(** The outer [select!]: a request, or the signal to close. *)
| step_recv_outer c b f n k u w s r :
    task_step (mkTask Outer (r :: c) b f n k u w s) (mkTask Inner c (b ++ [r]) f n k u w s)
| step_close_outer c b f n u w s :
    task_step (mkTask Outer c b f n true u w s) (mkTask Draining c b f n false u w s)
(** The inner loop: a request while the batch is below its limit, the batch is
    handed to a task of its own when the notification is there, or the signal. *)
| step_recv_inner c b f n k u w s r :
    length b < LIMIT →
    task_step (mkTask Inner (r :: c) b f n k u w s) (mkTask Inner c (b ++ [r]) f n k u w s)
| step_spawn c b f k u w s :
    task_step (mkTask Inner c b f true k u w s) (mkTask Outer c [] (f ++ [b]) false k u w s)
| step_close_inner c b f n u w s :
    length b < LIMIT →
    task_step (mkTask Inner c b f n true u w s) (mkTask Draining c b f n false u w s)
(** The spawned task writes its batch and notifies. *)
| step_written p c b f1 x f2 n k u w s :
    task_step (mkTask p c b (f1 ++ x :: f2) n k u w s) (mkTask p c b (f1 ++ f2) true k u (w ++ [x]) s)
(** Closing: the channel is drained until it is closed, then the last batch is
    written. *)
| step_drain c b f n k u w s r :
    task_step (mkTask Draining (r :: c) b f n k u w s) (mkTask Draining c (b ++ [r]) f n k u w s)
| step_drained b f n k u w s :
    handles (mkTask Draining [] b f n k u w s) = 0 →
    task_step (mkTask Draining [] b f n k u w s) (mkTask LastWait [] b f n k u w s)
| step_last_wait b f k u w s :
    task_step (mkTask LastWait [] b f true k u w s) (mkTask LastWrite [] b f false k u w s)
| step_last b f n k u w s :
    task_step (mkTask LastWrite [] b f n k u w s) (mkTask Returned [] [] f true k u (w ++ [b]) s).

Lemma LIMIT_pos : 1 ≤ LIMIT.
Proof. unfold LIMIT, KV_WRITES_ENTRIES_CHANNEL_CAPACITY. lia. Qed.

#[local] Opaque LIMIT KV_WRITES_ENTRIES_CHANNEL_CAPACITY.

(** What holds in every reachable state. *)
Record task_inv (t : Task) : Prop := {
  ti_order : concat (tk_written t) ++ concat (tk_in_flight t) ++ tk_batch t ++ tk_chan t = tk_sent t;
  ti_permit : length (tk_in_flight t) = if tk_permit t then 0 else 1;
  ti_phase : tk_phase t = Outer ∨ tk_phase t = Inner ∨ tk_phase t = Draining;
  ti_outer : tk_phase t = Outer → tk_batch t = [];
  ti_limit : tk_phase t ≠ Draining → length (tk_batch t) ≤ LIMIT
}.

Lemma task_inv_start users : task_inv (task_start users).
Proof. split; cbn; try done; [auto|lia]. Qed.

Ltac task_cbn := cbn [tk_phase tk_chan tk_batch tk_in_flight tk_permit tk_written tk_sent] in *.

(** With one batch in flight at most, writing it empties the list. *)
Lemma one_in_flight (f1 f2 : list (list A)) x n :
  length (f1 ++ x :: f2) = (if n : bool then 0 else 1) → f1 = [] ∧ f2 = [] ∧ n = false.
Proof.
  rewrite length_app. cbn. destruct n; [lia|]. intros H.
  destruct f1, f2; cbn in H; try lia. done.
Qed.

Lemma task_inv_step t t' : task_inv t → task_step t t' → task_inv t'.
Proof.
  intros [Ho Hp Hph Hout Hlim] Hs. pose proof LIMIT_pos as Hpos.
  destruct Hs; task_cbn;
    try (destruct Hph as [?|[?|?]]; discriminate); try (unfold handles in *; cbn in *; lia).
  9: { apply one_in_flight in Hp as (-> & -> & ->). split; task_cbn; try done.
       rewrite <- Ho, concat_app. cbn. by rewrite ?app_nil_r, <- ?app_assoc. }
  all: split; task_cbn; try done.
  all: try (rewrite <- Ho, ?concat_app; cbn; rewrite ?app_nil_r, <- ?app_assoc; done).
  all: try (rewrite length_app; cbn; intros _; lia).
  all: auto.
  all: try (rewrite length_app, Hp; done).
  all: intros _; rewrite ?(Hout eq_refl); cbn; lia.
Qed.

Lemma task_inv_reachable users t : rtc task_step (task_start users) t → task_inv t.
Proof.
  intros Hr. remember (task_start users) as t0 eqn:E.
  assert (task_inv t0) as Hi by (subst; apply task_inv_start). clear E.
  induction Hr; [done|]. eauto using task_inv_step.
Qed.

(** C30: in every interleaving of users, the writer task and the tasks that write
    batches, every request sent is in exactly one place and in the order it was
    sent: written, in the batch in flight, in the batch being collected or in the
    channel; at most one batch is being written; and a batch collected before
    closing has at most three times the capacity of the channel. *)
Theorem writer_batches users t :
  rtc task_step (task_start users) t →
  concat (tk_written t) ++ concat (tk_in_flight t) ++ tk_batch t ++ tk_chan t = tk_sent t ∧
  length (tk_in_flight t) ≤ 1 ∧
  (tk_phase t ≠ Draining → length (tk_batch t) ≤ 3 * KV_WRITES_ENTRIES_CHANNEL_CAPACITY).
Proof.
  intros [Ho Hp Hph Hout Hlim]%task_inv_reachable. split_and!; [done| |exact Hlim].
  rewrite Hp. destruct (tk_permit t); lia.
Qed.

Lemma draining_step t t' :
  task_inv t → tk_phase t = Draining → task_step t t' →
  tk_phase t' = Draining ∧ (∃ more, tk_batch t' = tk_batch t ++ more) ∧
  concat (tk_written t') ++ concat (tk_in_flight t') = concat (tk_written t) ++ concat (tk_in_flight t).
Proof.
  intros [Ho Hp _ _ _] Hd Hs. destruct Hs; task_cbn; try discriminate Hd.
  all: try (split_and!; [done|by exists []; rewrite app_nil_r|done]).
  - apply one_in_flight in Hp as (-> & -> & ->). split_and!; [done|by exists []; rewrite app_nil_r|].
    rewrite concat_app. cbn. by rewrite !app_nil_r.
  - split_and!; [done|by exists [r]|done].
  - unfold handles in *. cbn in *. lia.
Qed.

(** Once told to close, the task never returns, and no request it has collected
    or collects from then on is ever written: the channel it drains stays open
    because the task holds a handle of the database that owns the sender. *)
Theorem writer_never_closes users t t' :
  rtc task_step (task_start users) t → tk_phase t = Draining → rtc task_step t t' →
  tk_phase t' = Draining ∧ (∃ more, tk_batch t' = tk_batch t ++ more) ∧
  concat (tk_written t') ++ concat (tk_in_flight t') = concat (tk_written t) ++ concat (tk_in_flight t).
Proof.
  intros Hinv%task_inv_reachable Hd Hr. induction Hr as [t|t t1 t' Hs Hr IH].
  - split_and!; [done|by exists []; rewrite app_nil_r|done].
  - destruct (draining_step t t1 Hinv Hd Hs) as (Hd1 & (m1 & Hb1) & Hw1).
    destruct (IH (task_inv_step _ _ Hinv Hs) Hd1) as (Hd' & (m2 & Hb2) & Hw2).
    split_and!; [done| |congruence]. exists (m1 ++ m2). by rewrite Hb2, Hb1, <- app_assoc.
Qed.

(** Requests are written one by one from the outer loop. *)
Lemma outer_drains c : ∀ k u w s,
  ∃ w' , rtc task_step (mkTask Outer c [] [] true k u w s) (mkTask Outer [] [] [] true k u w' s) ∧
    concat w' = concat w ++ c.
Proof.
  induction c as [|r c IH]; intros k u w s; [exists w; split; [done|by rewrite app_nil_r]|].
  destruct (IH k u (w ++ [[r]]) s) as (w' & Hr & Hw). exists w'. split.
  - eapply rtc_l; [apply step_recv_outer|]. eapply rtc_l; [apply step_spawn|].
    eapply rtc_l; [apply (step_written _ _ _ [] [r] [])|]. exact Hr.
  - rewrite Hw, concat_app. cbn. by rewrite <- app_assoc.
Qed.

(** As long as the task was not told to close, nothing is stuck: the steps of
    the writer and of the batch in flight lead from every reachable state to one
    where all requests sent so far are written, in their order. *)
Theorem writer_drains users t :
  rtc task_step (task_start users) t → tk_phase t ≠ Draining →
  ∃ t', rtc task_step t t' ∧ concat (tk_written t') = tk_sent t ∧ tk_sent t' = tk_sent t.
Proof.
  intros [Ho Hp Hph Hout _]%task_inv_reachable Hnd.
  destruct t as [p c b f n k u w s]. task_cbn.
  assert (∃ w1, rtc task_step (mkTask p c b f n k u w s) (mkTask p c b [] true k u w1 s) ∧
            concat w1 = concat w ++ concat f) as (w1 & Hr1 & Hw1).
  { destruct n; [destruct f; [|done]; exists w; split; [done|by rewrite app_nil_r]|].
    destruct f as [|x [|]]; try done. exists (w ++ [x]). split.
    - apply rtc_once. apply (step_written _ _ _ [] x []).
    - by rewrite concat_app. }
  destruct Hph as [Hph|[Hph|Hph]]; [subst p..|done].
  - rewrite (Hout eq_refl) in *. destruct (outer_drains c k u w1 s) as (w' & Hr & Hw).
    eexists. split; [etrans; [exact Hr1|exact Hr]|]. task_cbn. split; [|done].
    by rewrite Hw, Hw1, <- Ho, <- app_assoc.
  - destruct (outer_drains c k u (w1 ++ [b]) s) as (w' & Hr & Hw).
    eexists. split.
    + etrans; [exact Hr1|]. eapply rtc_l; [apply step_spawn|].
      eapply rtc_l; [apply (step_written _ _ _ [] b [])|]. exact Hr.
    + task_cbn. split; [|done]. rewrite Hw, concat_app, Hw1, <- Ho. cbn. by rewrite app_nil_r, <- !app_assoc.
Qed.

End Task.

Arguments Task : clear implicits.

(* ------------------------------------------------------------------ *)
(** ** Full memtables between the writer, the flusher and the readers *)

(** [ensure_boom_for_write]: between two of its awaits the old memtable is
    replaced, then sent to the flusher, then listed for the readers. *)
Inductive WriterPc : Type := WIdle | WReplaced (old : nat) | WSent (old : nat).

(** [flush_memtable]: waiting, writing a table of level 0, about to take the front of
    the list, or stopped by its assertion. *)
Inductive FlusherPc : Type := FWaiting | FFlushing (m : nat) | FFlushed (m : nat) | FCrashed.

Record Rot : Type := mkRot {
  rt_current : nat;
  rt_next : nat;
  rt_writer : WriterPc;
  rt_chan : list nat;
  rt_immut : list nat;
  rt_flusher : FlusherPc;
  rt_level0 : list nat
}.

Definition rot_start : Rot := mkRot 0 1 WIdle [] [] FWaiting [].

(** [pop_front] and the assertion that it is the memtable just flushed. *)
Definition flusher_pop (m : nat) (immut : list nat) : list nat * FlusherPc :=
  match immut with
  | [] => ([], FWaiting)
  | s :: rest => if s =? m then (rest, FWaiting) else (rest, FCrashed)
  end.

(** With [listed_first] the flusher takes from the list only while the writer is not
    between sending and listing a memtable; the code has no such order. *)
Inductive rot_step (listed_first : bool) : Rot → Rot → Prop :=
| rot_replace cur nx c im f l0 :
    rot_step listed_first (mkRot cur nx WIdle c im f l0) (mkRot nx (S nx) (WReplaced cur) c im f l0)
| rot_send cur nx old c im f l0 :
    rot_step listed_first (mkRot cur nx (WReplaced old) c im f l0) (mkRot cur nx (WSent old) (c ++ [old]) im f l0)
| rot_list cur nx old c im f l0 :
    rot_step listed_first (mkRot cur nx (WSent old) c im f l0) (mkRot cur nx WIdle c (im ++ [old]) f l0)
| rot_recv cur nx w m c im l0 :
    rot_step listed_first (mkRot cur nx w (m :: c) im FWaiting l0) (mkRot cur nx w c im (FFlushing m) l0)
| rot_flush cur nx w c im m l0 :
    rot_step listed_first (mkRot cur nx w c im (FFlushing m) l0) (mkRot cur nx w c im (FFlushed m) (l0 ++ [m]))
| rot_pop cur nx w c im m l0 :
    (listed_first = true → ∀ old, w ≠ WSent old) →
    rot_step listed_first (mkRot cur nx w c im (FFlushed m) l0)
      (mkRot cur nx w c (flusher_pop m im).1 (flusher_pop m im).2 l0).

(** A reader looks in the memtable, in the listed ones and in level 0. *)
Definition visible (r : Rot) (m : nat) : Prop :=
  m = rt_current r ∨ m ∈ rt_immut r ∨ m ∈ rt_level0 r.

Definition unlisted (r : Rot) : list nat := match rt_writer r with WSent old => [old] | _ => [] end.
Definition in_hand (r : Rot) : list nat :=
  match rt_flusher r with FFlushing m | FFlushed m => [m] | _ => [] end.

Record rot_inv (r : Rot) : Prop := {
  ro_listed : rt_immut r ++ unlisted r = in_hand r ++ rt_chan r;
  ro_all : ∀ m, m < rt_next r → visible r m ∨ m ∈ unlisted r ∨ rt_writer r = WReplaced m;
  ro_alive : rt_flusher r ≠ FCrashed;
  ro_flushed : ∀ m, rt_flusher r = FFlushed m → m ∈ rt_level0 r
}.

Lemma rot_inv_step r r' : rot_inv r → rot_step true r r' → rot_inv r'.
Proof.
  intros [Hl Ha Hc Hf] Hs. destruct Hs as [cur nx c im f l0|cur nx old c im f l0|cur nx old c im f l0
    |cur nx w m c im l0|cur nx w c im m l0|cur nx w c im m l0 Hg]; unfold visible, unlisted, in_hand in *; cbn in *.
  - split; try done. unfold visible, unlisted. cbn. intros m Hm.
    destruct (decide (m = nx)) as [->|Hne]; [auto|].
    destruct (Ha m ltac:(lia)) as [[->|Hv]|[Hv|Hv]]; [auto|auto|by apply elem_of_nil in Hv|done].
  - split; try done.
    + unfold in_hand, unlisted. cbn. rewrite app_nil_r in Hl. by rewrite Hl, app_assoc.
    + unfold visible, unlisted; cbn. intros m Hm. destruct (Ha m Hm) as [Hv|[Hv|Hv]]; [auto|by apply elem_of_nil in Hv|].
      injection Hv as ->. right; left. by apply list_elem_of_singleton.
  - split; try done.
    + unfold in_hand, unlisted. cbn. by rewrite app_nil_r.
    + unfold visible, unlisted; cbn. intros m Hm.
      destruct (Ha m Hm) as [[Hv|[Hv|Hv]]|[Hv|Hv]]; rewrite ?elem_of_app; auto 6. done.
  - by split.
  - split; try done.
    + intros m' Hm'. unfold visible, unlisted. cbn. rewrite elem_of_app.
      destruct (Ha m' Hm') as [[Hv|[Hv|Hv]]|[Hv|Hv]]; auto 6.
    + cbn. intros m' [= <-]. rewrite elem_of_app, list_elem_of_singleton. auto.
  - assert (match w with WSent old => [old] | _ => [] end = []) as Hw.
    { destruct w as [| |old]; [done..|]. by destruct (Hg eq_refl old). }
    rewrite Hw, app_nil_r in Hl. subst im. cbn. rewrite Nat.eqb_refl. cbn. split; try done.
    + unfold unlisted, in_hand. cbn. by rewrite Hw, app_nil_r.
    + intros m' Hm'. unfold visible, unlisted. cbn. specialize (Ha m' Hm'). rewrite Hw in Ha |- *.
      destruct Ha as [[Hv|[Hv|Hv]]|[Hv|Hv]]; auto.
      apply elem_of_cons in Hv as [->|Hv]; [|auto]. left; right; right. by apply Hf.
Qed.

(** If the flusher only took memtables off the list while the writer is not
    between sending and listing one, its assertion would always hold, and whenever
    the writer is done every memtable would be visible to readers. *)
Theorem rotation_safe_when_listed_first r :
  rtc (rot_step true) rot_start r →
  rt_flusher r ≠ FCrashed ∧ (rt_writer r = WIdle → ∀ m, m < rt_next r → visible r m).
Proof.
  intros Hr. assert (rot_inv r) as [Hl Ha Hc _].
  { remember rot_start as r0 eqn:E. assert (rot_inv r0) as Hi.
    { subst. split; try done. intros m Hm. cbn in Hm. left; left. cbn. lia. }
    clear E. induction Hr; [done|]. eauto using rot_inv_step. }
  split; [done|]. intros Hw m Hm. specialize (Ha m Hm). unfold unlisted in Ha. rewrite Hw in Ha.
  destruct Ha as [Hv|[Hv|Hv]]; [done|by apply elem_of_nil in Hv|done].
Qed.

(** The code has no such order: the flusher can take a memtable off the list
    before the writer puts it there, which leaves it listed for ever and stops the
    flusher at the next one; and between replacing and listing, a memtable is
    visible to no reader. *)
Theorem rotation_race :
  (∃ r, rtc (rot_step false) rot_start r ∧ rt_flusher r = FCrashed) ∧
  (∃ r m, rtc (rot_step false) rot_start r ∧ m < rt_next r ∧ ¬ visible r m).
Proof.
  split.
  - eexists. split.
    + unfold rot_start.
      eapply rtc_l; [apply rot_replace|]. eapply rtc_l; [apply rot_send|]. eapply rtc_l; [apply rot_recv|].
      eapply rtc_l; [apply rot_flush|]. eapply rtc_l; [by apply rot_pop|]. cbn.
      eapply rtc_l; [apply rot_list|]. eapply rtc_l; [apply rot_replace|]. eapply rtc_l; [apply rot_send|].
      eapply rtc_l; [apply rot_recv|]. eapply rtc_l; [apply rot_flush|]. eapply rtc_l; [by apply rot_pop|].
      apply rtc_refl.
    + reflexivity.
  - exists (mkRot 1 2 (WReplaced 0) [] [] FWaiting []), 0. split_and!.
    + apply rtc_once, rot_replace.
    + cbn. lia.
    + intros [H|[H|H]]; cbn in H; [lia|by apply elem_of_nil in H..].
Qed.

(* ------------------------------------------------------------------ *)
(** ** Witnesses *)

Module WriterTaskExamples.

(** Two requests; the first is being written when the database is closed. *)
Definition closed : Task nat := mkTask Draining [] [8] [[7]] false false 1 [] [7; 8].

Lemma closed_reachable : rtc task_step (task_start 1) closed.
Proof.
  unfold task_start, closed.
  eapply rtc_l; [apply (step_send _ _ _ _ _ _ _ _ _ 7); lia|].
  eapply rtc_l; [apply step_recv_outer|]. eapply rtc_l; [apply step_spawn|].
  eapply rtc_l; [apply (step_send _ _ _ _ _ _ _ _ _ 8); lia|].
  eapply rtc_l; [apply step_signal|]. eapply rtc_l; [apply step_close_outer|].
  eapply rtc_l; [apply step_drain|]. apply rtc_refl.
Qed.

Definition idle_closed : Task nat := mkTask Draining [] [8] [] true false 1 [[7]] [7; 8].

Lemma writer_batches_witness :
  concat (tk_written closed) ++ concat (tk_in_flight closed) ++ tk_batch closed ++ tk_chan closed = tk_sent closed ∧
  length (tk_in_flight closed) ≤ 1 ∧
  (tk_phase closed ≠ Draining → length (tk_batch closed) ≤ 3 * KV_WRITES_ENTRIES_CHANNEL_CAPACITY).
Proof. exact (writer_batches 1 closed closed_reachable). Defined.

Lemma writer_never_closes_witness :
  tk_phase idle_closed = Draining ∧ (∃ more, tk_batch idle_closed = tk_batch closed ++ more) ∧
  concat (tk_written idle_closed) ++ concat (tk_in_flight idle_closed) =
    concat (tk_written closed) ++ concat (tk_in_flight closed).
Proof.
  apply (writer_never_closes 1 closed idle_closed closed_reachable eq_refl).
  apply rtc_once. exact (step_written _ _ _ [] [7] [] _ _ _ _ _).
Defined.

(** Two requests in the channel. *)
Definition queued : Task nat := mkTask Outer [7; 8] [] [] true false 1 [] [7; 8].

Lemma writer_drains_witness :
  ∃ t', rtc task_step queued t' ∧ concat (tk_written t') = tk_sent queued ∧ tk_sent t' = tk_sent queued.
Proof.
  apply (writer_drains 1 queued); [|discriminate].
  eapply rtc_l; [apply (step_send _ _ _ _ _ _ _ _ _ 7); lia|].
  eapply rtc_l; [apply (step_send _ _ _ _ _ _ _ _ _ 8); lia|]. apply rtc_refl.
Defined.

Definition rotated : Rot := mkRot 1 2 WIdle [0] [0] FWaiting [].

Lemma rotation_safe_witness :
  rt_flusher rotated ≠ FCrashed ∧ (rt_writer rotated = WIdle → ∀ m, m < rt_next rotated → visible rotated m).
Proof.
  apply (rotation_safe_when_listed_first rotated). unfold rot_start, rotated.
  eapply rtc_l; [apply rot_replace|]. eapply rtc_l; [apply rot_send|]. eapply rtc_l; [apply rot_list|]. apply rtc_refl.
Defined.

End WriterTaskExamples.
