(* ===== verification/LevelsOpen.v ===== *)
(** * LevelsOpen: opening the levels of a database

    [Level], [LevelsControllerConfig], [LevelsControllerInner] and [TableInfo] of
    src/src/level/levels.rs, over the level handlers of Level.v and the manifest of
    Manifest.v, and [max_txn_ts] of src/src/txn/oracle.rs.

    The work of the task that opens one table (its cipher, its mapped file, the
    table) is one argument, a function of the identifier and of its manifest entry;
    the tasks run to their end in the order of the manifest, and the first error is
    the one reported (Throttle.v has the interleavings).  The enumeration of the
    manifest's tables is [iter_tables]. *)
From stdpp Require Import base list gmap strings sorting.
From Stdlib Require Import ZArith Lia.
From S2P Require Import Prelude Util VarInt Kv Iter Pb Storage Block Table TableSeek Txn Manifest Level.

Local Open Scope nat_scope.

(** ** Levels as numbers of 8 bits *)

Definition u8_add (a b : Z) : outcome Z := if (a + b <=? 255)%Z then Ok (a + b)%Z else Panic.
Definition u8_sub (a b : Z) : outcome Z := if (b <=? a)%Z then Ok (a - b)%Z else Panic.

(** [Level::from(u32)] and [from(usize)]: the value is cut to 8 bits. *)
Definition Level_from (value : Z) : Z := u8 value.

Definition Level_add (l rhs : Z) : outcome Z := u8_add l rhs.
Definition Level_sub (l rhs : Z) : outcome Z := u8_sub l rhs.

(** [Step for Level], which drives the loops [for l in a..b]. *)
Definition steps_between (a b : Z) : option nat := if (a <=? b)%Z then Some (Z.to_nat (b - a)) else None.

Definition forward_checked (start : Z) (count : nat) : option Z :=
  if count <? 255 then
    if (start + Z.of_nat count <=? 255)%Z then Some (start + Z.of_nat count)%Z else None
  else None.

Definition backward_checked (start : Z) (count : nat) : option Z :=
  if count <? 255 then
    if (Z.of_nat count <=? start)%Z then Some (start - Z.of_nat count)%Z else None
  else None.

(** The values of [for l in a..b]: the iterator of a range steps forward by one
    while the start is below the end. *)
Fixpoint level_range_go (fuel : nat) (a b : Z) : option (list Z) :=
  if (a <? b)%Z then
    match fuel with
    | 0 => None
    | S fuel =>
        n ← forward_checked a 1;
        rest ← level_range_go fuel n b;
        Some (a :: rest)
    end
  else Some [].

Definition level_range (a b : Z) : option (list Z) := level_range_go 256 a b.

(* ------------------------------------------------------------------ *)
(** ** Configuration *)

Record LevelsControllerConfig : Type := mkLevelsConfig {
  ll_read_only : bool;
  ll_memtable_size : Z;
  ll_num_level_zero_tables_stall : nat;
  ll_num_level_zero_tables : nat;
  ll_max_level : Z;
  ll_base_level_size : Z;
  ll_level_size_multiplier : Z;
  ll_table_size_multiplier : Z;
  ll_num_compactors : nat;
  ll_compactl0_on_close : bool;
  ll_lmax_compaction : bool;
  ll_num_versions_to_keep : nat
}.

Definition LevelsControllerConfig_default : LevelsControllerConfig :=
  mkLevelsConfig false (Z.shiftl 64 20) 15 5 6 (Z.shiftl 10 20) 10 2 4 false false 1.

Definition check_levels_controller_config (c : LevelsControllerConfig) : outcome LevelsControllerConfig :=
  if ll_num_compactors c =? 1 then Err (EMsg "Cannot have 1 compactor. Need at least 2")
  else
    Ok (mkLevelsConfig (ll_read_only c) (ll_memtable_size c) (ll_num_level_zero_tables_stall c)
          (ll_num_level_zero_tables c) (ll_max_level c) (ll_base_level_size c) (ll_level_size_multiplier c)
          (ll_table_size_multiplier c) (ll_num_compactors c)
          (if ll_read_only c then false else ll_compactl0_on_close c) (ll_lmax_compaction c)
          (ll_num_versions_to_keep c)).

(* ------------------------------------------------------------------ *)
(** ** Opening *)

Record LevelsController (T : Type) : Type := mkLevelsController {
  lc_manifest : ManifestInfo;
  lc_next_file_id : Z;
  lc_level_0_stalls_ms : Z;
  lc_levels : list (LevelHandler T);
  lc_compact_slots : nat;
  lc_config : LevelsControllerConfig
}.

Arguments mkLevelsController {T}.
Arguments lc_manifest {T}.
Arguments lc_next_file_id {T}.
Arguments lc_level_0_stalls_ms {T}.
Arguments lc_levels {T}.
Arguments lc_compact_slots {T}.
Arguments lc_config {T}.

Section OpenCode.
Context {T : Type} `{!LevelTable T, !TableOrder}.

(** The error [ChecksumError], which makes a table be ignored. *)
Definition is_checksum_error (e : error) : bool :=
  match e with EMsg m => bool_decide (m = "checksum mismatch"%string) | EDB _ => false end.

(** The future of one table: its cipher, its file, then the table itself. *)
Definition open_task {F : Type} (get_cipher : Z → outcome (option AesCipher)) (map_file : Z → outcome F)
    (open : CompressionType → Z → F → option AesCipher → outcome T) (id : Z) (tm : TableManifest) :
    outcome (option T) :=
  cipher ← get_cipher (tm_keyid tm);
  f ← map_file id;
  match open (tm_compression tm) id f cipher with
  | Ok t => Ok (Some t)
  | Err e => if is_checksum_error e then Ok None else Err (EMsg "Opening table")
  | Panic => Panic
  end.

(** Awaiting a spawned task: its panic is an error of the one that awaits it. *)
Definition join_task {A : Type} (o : outcome A) : outcome A :=
  match o with Panic => Err (EMsg "JoinError") | _ => o end.

Context (task : Z → TableManifest → outcome (option T)).

(** The slot of a table among the [max_level] lists: tables of deeper levels go to
    the last one. *)
Definition task_slot (max_level level : Z) : outcome nat :=
  if (level <? max_level)%Z then Ok (Z.to_nat level)
  else usub (Z.to_nat max_level) 1.

(** One turn of the loop over the manifest's tables: the largest identifier, and
    the tables opened so far. *)
Definition open_step (max_level : Z) (st : Z * list (list T)) (x : Z * TableManifest) :
    outcome (Z * list (list T)) :=
  let '(max_file_id, slots) := st in
  let '(file_id, tm) := x in
  o ← join_task (task file_id tm);
  slot ← task_slot max_level (tm_level tm);
  tables ← idx slots slot;
  let tables := match o with Some t => tables ++ [t] | None => tables end in
  Ok (Z.max max_file_id file_id, <[slot := tables]> slots).

Definition open_tables_by_manifest (cfg : LevelsControllerConfig) (manifest : ManifestInfo) (files : gset Z) :
    outcome (Z * list (list T)) :=
  _ ← revert_to_manifest (dom (mi_tables manifest)) files;
  fold_outcome (open_step (ll_max_level cfg)) (0%Z, replicate (Z.to_nat (ll_max_level cfg)) [])
    (iter_tables (mi_tables manifest)).

(** The handlers, from level 0 on. *)
Fixpoint build_handlers (level : Z) (level_tables : list (list T)) : outcome (list (LevelHandler T)) :=
  match level_tables with
  | [] => Ok []
  | tables :: rest =>
      next ← Level_add level 1;
      handlers ← build_handlers next rest;
      Ok (init_tables (LevelHandler_new level) tables :: handlers)
  end.

(** [LevelsControllerConfig::build]; [sync_dir] is the answer of the system call on
    the directory of the levels. *)
Definition levels_build (cfg : LevelsControllerConfig) (manifest : ManifestInfo) (files : gset Z) (sync_dir : outcome unit) :
    outcome (LevelsController T) :=
  _ ← assert_or_panic (ll_num_level_zero_tables cfg <? ll_num_level_zero_tables_stall cfg);
  '(max_file_id, level_tables) ← open_tables_by_manifest cfg manifest files;
  next_file_id ← u32_add max_file_id 1;
  levels ← build_handlers LEVEL0 level_tables;
  let lc := mkLevelsController manifest next_file_id 0 levels (Z.to_nat (ll_max_level cfg)) cfg in
  _ ← levels_validate (lc_levels lc);
  _ ← sync_dir;
  Ok lc.

(** [get_reserve_file_id]: an atomic counter, which wraps around. *)
Definition get_reserve_file_id (lc : LevelsController T) : Z * LevelsController T :=
  (lc_next_file_id lc,
   mkLevelsController (lc_manifest lc) (u32 (lc_next_file_id lc + 1)) (lc_level_0_stalls_ms lc) (lc_levels lc)
     (lc_compact_slots lc) (lc_config lc)).

Definition last_level_handler (lc : LevelsController T) : outcome (LevelHandler T) := unwrap (last (lc_levels lc)).

Definition level_handler (lc : LevelsController T) (level : Z) : outcome (LevelHandler T) :=
  idx (lc_levels lc) (Z.to_nat level).

End OpenCode.

(* ------------------------------------------------------------------ *)
(** ** Information on tables, and the highest version *)

Class TableStats (T : Type) : Type := {
  key_count : T → Z;
  on_disk_size : T → Z;
  get_stale_data_size : T → outcome Z;
  index_len : T → nat;
  bloom_filter_len : T → nat;
  uncompressed_size : T → Z
}.

Record TableInfo : Type := mkTableInfo {
  in_table_id : Z;
  in_level : Z;
  in_left : KeyTs;
  in_right : KeyTs;
  in_key_count : Z;
  in_on_disk_size : Z;
  in_stale_data_size : Z;
  in_index_len : nat;
  in_bloom_filter_len : nat;
  in_uncompressed_size : Z;
  in_max_version : Z
}.

Definition info_cmp (a b : TableInfo) : comparison :=
  match Z.compare (in_level a) (in_level b) with
  | Eq => Z.compare (in_table_id a) (in_table_id b)
  | ord => ord
  end.

Section InfoCode.
Context {T : Type} `{!LevelTable T, !TableStats T}.

Definition table_info (level : Z) (t : T) : outcome TableInfo :=
  stale ← get_stale_data_size t;
  Ok (mkTableInfo (table_id t) level (smallest t) (biggest t) (key_count t) (on_disk_size t) stale (index_len t)
        (bloom_filter_len t) (uncompressed_size t) (max_version t)).

Definition level_infos (h : LevelHandler T) : outcome (list TableInfo) :=
  map_outcome (table_info (hd_level h)) (ht_tables (hd_inner h)).

Definition get_table_info (levels : list (LevelHandler T)) : outcome (list TableInfo) :=
  infos ← map_outcome level_infos levels;
  Ok (sort_by info_cmp (concat infos)).

(** [max_txn_ts]; [mems] are the highest versions of the memtables. *)
Definition max_txn_ts (mems : list Z) (levels : list (LevelHandler T)) : outcome Z :=
  infos ← get_table_info levels;
  Ok (foldl (λ v i, Z.max v (in_max_version i)) (foldl Z.max 0%Z mems) infos).

End InfoCode.

(* ------------------------------------------------------------------ *)
(** ** What opening gives *)

Lemma level_range_go_spec fuel a b :
  (0 ≤ a)%Z → (b ≤ 255)%Z → Z.to_nat (b - a) ≤ fuel → level_range_go fuel a b = Some (seqZ a (b - a)).
Proof.
  revert a. induction fuel as [|fuel IH]; intros a Ha Hb Hf; cbn [level_range_go].
  - rewrite (proj2 (Z.ltb_ge _ _)) by lia. by rewrite seqZ_nil by lia.
  - destruct (a <? b)%Z eqn:E; [|rewrite seqZ_nil; [done|apply Z.ltb_ge in E; lia]].
    apply Z.ltb_lt in E. unfold forward_checked. cbn [Nat.ltb Nat.leb].
    rewrite (proj2 (Z.leb_le _ _)) by lia. cbn [mbind option_bind].
    rewrite IH by lia. cbn. rewrite (seqZ_cons a) by lia. do 2 f_equal. f_equal; lia.
Qed.

(** A loop over levels visits them all, once and in order. *)
Lemma level_range_spec a b : (0 ≤ a)%Z → (b ≤ 255)%Z → level_range a b = Some (seqZ a (b - a)).
Proof. intros. unfold level_range. apply level_range_go_spec; lia. Qed.

Section OpenLemmas.
Context {T : Type} `{!LevelTable T, !TableOrder, !TableOrderLaws}.
Context (task : Z → TableManifest → outcome (option T)).

(** The tables of a level in the order of the manifest: those whose level is [i], or
    at least [i] when it is the last level, without the ones that are left out. *)
Definition opened_in (max_level : Z) (i : nat) (l : list (Z * TableManifest)) : list T :=
  omap (λ x : Z * TableManifest,
    match task x.1 x.2 with
    | Ok o => if Z.to_nat (Z.min (tm_level x.2) (max_level - 1)) =? i then o else None
    | _ => None
    end) l.

Lemma task_slot_min max_level level slot :
  task_slot max_level level = Ok slot → slot = Z.to_nat (Z.min level (max_level - 1)).
Proof.
  unfold task_slot, usub. destruct (level <? max_level)%Z eqn:E; [intros [= <-]; f_equal; lia|].
  destruct (_ <=? _) eqn:E1; [|done]. intros [= <-]. apply Z.ltb_ge in E. apply Nat.leb_le in E1. lia.
Qed.

Lemma opened_in_snoc max_level i l x slot o :
  task_slot max_level (tm_level x.2) = Ok slot → task x.1 x.2 = Ok o →
  opened_in max_level i (l ++ [x]) = opened_in max_level i l ++ (if slot =? i then option_list o else []).
Proof.
  intros ->%task_slot_min Ht. unfold opened_in. rewrite omap_app. f_equal. cbn. rewrite Ht.
  destruct (_ =? i); [|done]. by destruct o.
Qed.

Lemma open_step_fold max_level n l : ∀ st,
  fold_outcome (open_step task max_level) (0%Z, replicate n []) l = Ok st →
  length st.2 = n ∧ (∀ i, i < n → st.2 !! i = Some (opened_in max_level i l)) ∧
  (∀ x, x ∈ l → (x.1 ≤ st.1)%Z) ∧ Forall (λ x, ∃ o, task x.1 x.2 = Ok o) l.
Proof.
  induction l as [|x l IH] using rev_ind; intros st.
  - intros [= <-]. cbn. split_and!; [apply length_replicate| |by intros x Hx%elem_of_nil|constructor].
    intros i Hi. by apply lookup_replicate.
  - rewrite fold_outcome_app. destruct (fold_outcome _ _ l) as [[mx slots]| |] eqn:Hl; cbn [mbind outcome_bind]; [|done..].
    destruct (IH _ eq_refl) as (Hlen & Hslots & Hmax & Hall). cbn [fst snd] in *.
    destruct x as [id tm]. cbn [fold_outcome open_step].
    destruct (task id tm) as [o| |] eqn:Ht; cbn [mbind outcome_bind]; [|done..].
    destruct (task_slot max_level (tm_level tm)) as [slot| |] eqn:Hs; cbn [mbind outcome_bind]; [|done..].
    unfold idx, unwrap. destruct (slots !! slot) as [tables|] eqn:Hsl; cbn [mbind outcome_bind]; [|done].
    intros [= <-]. cbn [fst snd]. rewrite length_insert. apply lookup_lt_Some in Hsl as Hlt.
    split_and!; [done| | |].
    + intros i Hi. rewrite (opened_in_snoc max_level i l (id, tm) slot o Hs Ht).
      destruct (decide (i = slot)) as [->|Hne].
      * rewrite list_lookup_insert_eq by done. rewrite Hslots in Hsl by lia. injection Hsl as <-.
        rewrite Nat.eqb_refl. destruct o; [done|]. cbn. by rewrite app_nil_r.
      * rewrite list_lookup_insert_ne by done. rewrite (proj2 (Nat.eqb_neq slot i)) by done.
        rewrite app_nil_r. by apply Hslots.
    + intros y [Hy|Hy%list_elem_of_singleton]%elem_of_app; [apply Hmax in Hy; lia|subst; cbn; lia].
    + apply Forall_app; split; [done|]. constructor; [by exists o|constructor].
Qed.

Lemma build_handlers_spec (l : list (list T)) : ∀ level hs,
  build_handlers level l = Ok hs →
  hs = imap (λ i ts, init_tables (LevelHandler_new (level + Z.of_nat i)%Z) ts) l.
Proof.
  induction l as [|ts l IH]; intros level hs; cbn [build_handlers]; [by intros [= <-]|].
  unfold Level_add, u8_add. destruct (_ <=? 255)%Z; cbn [mbind outcome_bind]; [|done].
  destruct (build_handlers (level + 1) l) as [hs'| |] eqn:Hb; cbn [mbind outcome_bind]; [|done..].
  intros [= <-]. cbn. rewrite (IH _ _ Hb). f_equal; [by rewrite Z.add_0_r|].
  apply imap_ext. intros i x _. cbn. do 2 f_equal. lia.
Qed.

Lemma levels_validate_ok (levels : list (LevelHandler T)) :
  levels_validate levels = Ok () → Forall (λ h, LevelHandler_validate h = Ok ()) levels.
Proof.
  unfold levels_validate. induction levels as [|h levels IH]; cbn [fold_outcome]; [constructor|].
  destruct (LevelHandler_validate h) as [[]| |] eqn:Hv; cbn [mbind outcome_bind]; [|done..].
  intros Hr. constructor; [done|by apply IH].
Qed.

(** C33: a levels controller that could be built has every table of the manifest in
    a file, hands out identifiers above all of them, and has as many levels as
    configured; level [i] holds exactly the tables whose level in the manifest is [i],
    the last one also those of deeper levels, without the tables whose opening left
    them out; and below level 0 the tables of a level, when their own bounds are well
    formed, are ordered by key and disjoint. *)
Theorem levels_build_opens cfg manifest files sync_dir (lc : LevelsController T) :
  levels_build task cfg manifest files sync_dir = Ok lc →
  let l := iter_tables (mi_tables manifest) in
  dom (mi_tables manifest) ⊆ files ∧
  (∀ id, id ∈ dom (mi_tables manifest) → (id < lc_next_file_id lc)%Z) ∧
  length (lc_levels lc) = Z.to_nat (ll_max_level cfg) ∧
  ∀ i h, lc_levels lc !! i = Some h →
    hd_level h = Z.of_nat i ∧ ht_tables (hd_inner h) ≡ₚ opened_in (ll_max_level cfg) i l ∧
    (0 < i → Forall table_wf (opened_in (ll_max_level cfg) i l) → ordered (ht_tables (hd_inner h))).
Proof.
  unfold levels_build, open_tables_by_manifest. cbv zeta.
  destruct (assert_or_panic _); cbn [mbind outcome_bind]; [|done..].
  unfold revert_to_manifest. case_bool_decide as Hsub; cbn [mbind outcome_bind]; [|done].
  destruct (fold_outcome _ _ _) as [st| |] eqn:Hf; cbn [mbind outcome_bind]; [|done..].
  destruct (open_step_fold _ _ _ _ Hf) as (Hlen & Hslots & Hmax & _). destruct st as [mx slots]. cbn [fst snd] in *.
  destruct (u32_add mx 1) as [nid| |] eqn:Hn; cbn [mbind outcome_bind]; [|done..].
  unfold u32_add in Hn. destruct (_ <=? _)%Z; [|done]. injection Hn as <-.
  destruct (build_handlers LEVEL0 slots) as [hs| |] eqn:Hb; cbn [mbind outcome_bind lc_levels]; [|done..].
  destruct (levels_validate hs) as [[]| |] eqn:Hv; cbn [mbind outcome_bind]; [|done..].
  destruct sync_dir; cbn [mbind outcome_bind]; [|done..]. intros [= <-]. cbn [lc_next_file_id lc_levels]. apply build_handlers_spec in Hb as ->.
  split_and!; [done| |by rewrite length_imap|].
  - intros id Hid. apply elem_of_dom in Hid as [tm Htm].
    assert ((id, tm) ∈ iter_tables (mi_tables manifest)) as Hin by (by rewrite iter_tables_perm, elem_of_map_to_list).
    apply Hmax in Hin. cbn in Hin. lia.
  - intros i h Hh. apply levels_validate_ok in Hv. pose proof (Forall_lookup_1 _ _ _ _ Hv Hh) as Hval.
    rewrite list_lookup_imap in Hh. destruct (slots !! i) as [ts|] eqn:Hs; [|done]. injection Hh as <-.
    rewrite Hslots in Hs by (rewrite <- Hlen; by eapply lookup_lt_Some). injection Hs as <-.
    set (ts := opened_in _ i _) in *. cbn [init_tables hd_level hd_inner] in *.
    pose proof (tables_init_perm (LEVEL0 + Z.of_nat i) ts) as Hperm.
    split_and!; [unfold LEVEL0; cbn; lia|exact Hperm|].
    intros Hi Hwf. unfold LevelHandler_validate in Hval. cbn [init_tables hd_level hd_inner LevelHandler_new] in *.
    rewrite (proj2 (Z.eqb_neq _ _)) in Hval by (unfold LEVEL0; lia).
    apply (Permutation_Forall (symmetry Hperm)) in Hwf. destruct (ht_tables _) as [|x xs]; [repeat constructor|].
    apply Forall_cons in Hwf as [Hx _]. by apply validate_loop_ok.
Qed.

(** Identifiers handed out are distinct as long as the counter does not wrap. *)
Fixpoint reserve (n : nat) (lc : LevelsController T) : list Z * LevelsController T :=
  match n with
  | 0 => ([], lc)
  | S n => let '(id, lc1) := get_reserve_file_id lc in
           let '(ids, lc2) := reserve n lc1 in (id :: ids, lc2)
  end.

Lemma reserve_fresh n : ∀ lc,
  (0 ≤ lc_next_file_id lc)%Z → (lc_next_file_id lc + Z.of_nat n < 2 ^ 32)%Z →
  (reserve n lc).1 = seqZ (lc_next_file_id lc) (Z.of_nat n).
Proof.
  induction n as [|n IH]; intros lc Hge Hn; [done|].
  cbn [reserve get_reserve_file_id]. set (lc1 := mkLevelsController _ _ _ _ _ _).
  assert (lc_next_file_id lc1 = lc_next_file_id lc + 1)%Z as Hnext.
  { unfold lc1. cbn. unfold u32. apply Z.mod_small. lia. }
  specialize (IH lc1). destruct (reserve n lc1) as [ids lc2]. cbn in *.
  rewrite IH by lia. rewrite (seqZ_cons (lc_next_file_id lc)) by lia. f_equal. f_equal; lia.
Qed.

End OpenLemmas.

Section InfoLemmas.
Context {T : Type} `{!LevelTable T, !TableStats T}.

Lemma map_outcome_elem {A B} (f : A → outcome B) l r :
  map_outcome f l = Ok r → ∀ x, x ∈ l → ∃ y, f x = Ok y ∧ y ∈ r.
Proof.
  revert r. induction l as [|a l IH]; intros r; cbn; [by intros _ x Hx%elem_of_nil|].
  destruct (f a) as [b| |] eqn:Ha; cbn; [|done..]. destruct (map_outcome f l) as [r'| |]; cbn; [|done..].
  intros [= <-] x [->|Hx]%elem_of_cons; [exists b; split; [done|constructor]|].
  destruct (IH _ eq_refl x Hx) as (y & Hy & Hin). exists y. split; [done|by constructor].
Qed.

(** The highest version found when a database is opened is at least the one of every
    memtable and of every table of every level. *)
Theorem max_txn_ts_covers mems (levels : list (LevelHandler T)) v :
  max_txn_ts mems levels = Ok v →
  (∀ m, m ∈ mems → (m ≤ v)%Z) ∧
  ∀ h t, h ∈ levels → t ∈ ht_tables (hd_inner h) → (max_version t ≤ v)%Z.
Proof.
  unfold max_txn_ts, get_table_info. destruct (map_outcome level_infos levels) as [infos| |] eqn:Hi; cbn; [|done..].
  intros [= <-].
  destruct (foldl_max_spec id mems 0) as (_ & Hm & _).
  destruct (foldl_max_spec in_max_version (sort_by info_cmp (concat infos)) (foldl Z.max 0%Z mems)) as (H1 & H2 & _).
  split.
  - intros m Hin. etrans; [exact (Hm m Hin)|exact H1].
  - intros h t Hh Ht. destruct (map_outcome_elem _ _ _ Hi h Hh) as (inf & Hl & Hin).
    destruct (map_outcome_elem _ _ _ Hl t Ht) as (info & Hinfo & Hini).
    unfold table_info in Hinfo. destruct (get_stale_data_size t); cbn in Hinfo; [|done..].
    assert (max_version t = in_max_version info) as -> by (by simplify_eq).
    apply H2. rewrite (sort_by_perm id info_cmp). apply list_elem_of_In, in_concat. exists inf.
    split; by apply list_elem_of_In.
Qed.

End InfoLemmas.

(* ------------------------------------------------------------------ *)
(** ** A concrete database *)

Module LevelsOpenExamples.

Import LevelExamples.

#[local] Existing Instances ManifestExamples.list_order ManifestExamples.list_order_laws.

Definition tm (level : Z) : TableManifest := mkTableManifest level 0 CNone.

(** Two tables of level 1 and one of a level that is deeper than configured. *)
Definition manifest : ManifestInfo :=
  mkManifestInfo [] {[1%Z := tm 1; 2%Z := tm 1; 3%Z := tm 9]} 3 0.

Definition task (id : Z) (m : TableManifest) : outcome (option MetaTable) :=
  Ok (if (id =? 1)%Z then Some ta else if (id =? 2)%Z then Some tb else Some tc).

Definition controller : outcome (LevelsController MetaTable) :=
  levels_build task LevelsControllerConfig_default manifest {[1; 2; 3; 4]}%Z (Ok ()).

Definition built : LevelsController MetaTable :=
  match controller with
  | Ok lc => lc
  | _ => mkLevelsController ManifestInfo_default 0 0 [] 0 LevelsControllerConfig_default
  end.

Lemma levels_build_opens_witness :
  lc_next_file_id built = 4%Z ∧ length (lc_levels built) = 6 ∧
  ∀ i h, lc_levels built !! i = Some h →
    ht_tables (hd_inner h) ≡ₚ opened_in task 6 i (iter_tables (mi_tables manifest)).
Proof.
  assert (levels_build task LevelsControllerConfig_default manifest {[1; 2; 3; 4]}%Z (Ok ()) = Ok built) as Hb
    by (vm_compute; reflexivity).
  split; [vm_compute; reflexivity|].
  destruct (levels_build_opens task LevelsControllerConfig_default manifest {[1; 2; 3; 4]}%Z (Ok ()) built Hb)
    as (_ & _ & Hlen & Hl).
  split; [exact Hlen|]. intros i h Hh. apply (Hl i h Hh).
Defined.

End LevelsOpenExamples.
