(* ===== verification/Flush.v ===== *)
(** * Flush: a full memtable becomes a table of level 0

    [handle_memtable_flush], [push_level0_table] and the turn of [flush_memtable]
    of src/src/level/flush.rs, over the memtables of [MemTable], the builder and
    the tables of [Table], the manifest of [Manifest] and the levels of
    [LevelsOpen].  The interleaving with the writer is in [WriterTask]; here a
    flush runs by itself, and waiting for room in level 0 is an answer. *)
From stdpp Require Import base list gmap sets strings.
From Stdlib Require Import ZArith Lia.
From S2P Require Import Prelude Util VarInt Kv Bloom Iter Pb Storage Block Table TableBuild TableSeek.
From S2P Require Import WaterMark Oracle Txn Manifest Level Compact Vlog Arena SkipList SkipListInv SkipListPush.
From S2P Require Import SkipListSpec MemTable TableIter TableMerge Mmap Discard CompactRun LevelsOpen.

Local Open Scope nat_scope.

(** ** Data *)

(** What a flush reads and changes of the database. *)
Record Store : Type := mkStore {
  st_manifest : ManifestInner;
  st_levels : LevelsController Table
}.

(** A flush ends, or waits until a compaction makes room in level 0, or fails and
    is tried again. *)
Inductive Flushed : Type := Done | Stalled (table : Table).

(** A turn of [flush_memtable] takes a memtable off the list, waits with its table
    for room in level 0, or sleeps a second and tries again. *)
Inductive Turn : Type := Popped (immut : list MemTable) | Waits (table : Table) | Retries.

Definition with_levels (lc : LevelsController Table) (levels : list (LevelHandler Table)) : LevelsController Table :=
  mkLevelsController (lc_manifest lc) (lc_next_file_id lc) (lc_level_0_stalls_ms lc) levels (lc_compact_slots lc)
    (lc_config lc).

Section FlushCode.
Context `{!VarInt, !ChecksumCodec, !Compressor, !Aead, !TableIndexFb, !ManifestCodec, !TableOrder}.
Context (config : TableConfig).

(** The change of the manifest for a new table of level 0. *)
Definition level0_change (table : Table) : ManifestChange :=
  new_create (t_table_id table) LEVEL0 (match t_cipher table with Some c => cipher_key_id c | None => 0%Z end)
    (CompressionType_into (tc_compression (t_config table))).

(** One try of [push_level0] on the first level. *)
Definition try_level0 (lc : LevelsController Table) (table : Table) : outcome (bool * LevelsController Table) :=
  handler ← idx (lc_levels lc) 0;
  '(taken, handler) ← push_level0 handler table (ll_num_level_zero_tables_stall (lc_config lc));
  Ok (taken, with_levels lc (<[0 := handler]> (lc_levels lc))).

(** [push_level0_table]: the manifest first, then the level. *)
Definition push_level0_table (st : Store) (table : Table) : Store * outcome Flushed :=
  let '(manifest, pushed) := push_changes (st_manifest st) [level0_change table] in
  let st := mkStore manifest (st_levels st) in
  match pushed with
  | Ok _ =>
      match try_level0 (st_levels st) table with
      | Ok (true, lc) => (mkStore manifest lc, Ok Done)
      | Ok (false, _) => (st, Ok (Stalled table))
      | Err e => (st, Err e)
      | Panic => (st, Panic)
      end
  | Err e => (st, Err e)
  | Panic => (st, Panic)
  end.

(** [handle_memtable_flush]; [cipher] is the answer of [latest_cipher].  The
    iterator of a skip list takes one turn per node. *)
Definition handle_memtable_flush (st : Store) (cipher : outcome (option AesCipher)) (mt : MemTable) :
    Store * outcome Flushed :=
  let built :=
    cipher ← cipher;
    o ← build_l0_table (list_fuel (mt_skip_list mt)) (SkipList_iter (mt_skip_list mt)) [] config cipher;
    unwrap o in
  match built with
  | Ok table_builder =>
      if TableBuilder_is_empty table_builder then (st, Ok Done)
      else
        let '(file_id, lc) := get_reserve_file_id (st_levels st) in
        let st := mkStore (st_manifest st) lc in
        match TableBuilder_build table_builder file_id with
        | Ok table => push_level0_table st table
        | Err e => (st, Err e)
        | Panic => (st, Panic)
        end
  | Err e => (st, Err e)
  | Panic => (st, Panic)
  end.

(** One turn of [flush_memtable] on a memtable: after a failure it is tried again,
    after a success the front of the immutable memtables is taken off, which must
    be this one. *)
Definition flush_turn (st : Store) (cipher : outcome (option AesCipher)) (mt : MemTable) (immut : list MemTable) :
    Store * outcome Turn :=
  match handle_memtable_flush st cipher mt with
  | (st, Ok Done) =>
      match immut with
      | [] => (st, Ok (Popped []))
      | s :: rest =>
          (st, _ ← assert_or_panic (lf_fid (mt_wal s) =? lf_fid (mt_wal mt))%Z; Ok (Popped rest))
      end
  | (st, Ok (Stalled table)) => (st, Ok (Waits table))
  | (st, Err _) => (st, Ok Retries)
  | (st, Panic) => (st, Panic)
  end.

End FlushCode.

(* ------------------------------------------------------------------ *)
(** ** What a flush leaves *)

Section FlushLemmas.
Context `{!VarInt, !VarIntLaws, !VarIntRead, !ChecksumCodec, !ChecksumLaws, !Compressor, !CompressorLaws}.
Context `{!Aead, !AeadLaws, !TableIndexFb, !TableIndexFbLaws, !ManifestCodec, !TableOrder}.

Lemma l0_kept_nil (kvs : list kv) : l0_kept [] kvs = kvs.
Proof. unfold l0_kept. induction kvs as [|e kvs IH]; [done|]. by rewrite filter_cons, IH. Qed.

Abbreviation shown m := (shown_kvs KeyTs_serialize m).

(** The builder of a flush has the entries of the memtable. *)
Lemma flush_builds config cipher mt m :
  mt_holds mt m → Forall pointer_ok (shown m) → items_fit config (l0_item <$> shown m) →
  ∃ tb, build_l0_table (list_fuel (mt_skip_list mt)) (SkipList_iter (mt_skip_list mt)) [] config cipher = Ok (Some tb) ∧
    push_items (TableBuilder_new config cipher) (l0_item <$> shown m) = Ok tb ∧
    tb_config tb = config ∧ tb_cipher tb = cipher ∧ (TableBuilder_is_empty tb = true ↔ m = []).
Proof.
  intros (Hrep & Hwf & _ & _) Hp Hfit.
  assert (Forall (λ e : KeyTs * ValueMeta, ValueMeta_wf e.2) m) as Hvm by (eapply Forall_impl; [exact Hwf|by intros ? []]).
  destruct (iter_rep_yields kb_cmp KeyTs_cmp KeyTs_serialize KeyTs_storable _ _ Hrep Hvm) as [Hy _].
  assert (length (shown m) < list_fuel (mt_skip_list mt)) as Hfuel.
  { destruct Hrep as (l & I & Hl). rewrite (inv_fuel _ _ _ _ _ I). unfold shown_kvs. rewrite length_fmap.
    assert (length m = length l) as ->; [|lia]. apply (f_equal length) in Hl. unfold stored_kvs in Hl.
    by rewrite !length_fmap in Hl. }
  destruct (push_items_inv config cipher _ Hfit) as (tb & gs & cur & Hpush & I & Heq & _).
  exists tb. split_and!.
  - unfold build_l0_table. rewrite (build_l0_loop_yields _ (shown m)) by (rewrite ?l0_kept_nil; done).
    by rewrite l0_kept_nil, Hpush.
  - done.
  - apply (ti_cfg _ _ _ _ _ _ I).
  - apply (ti_cipher _ _ _ _ _ _ I).
  - unfold TableBuilder_is_empty. rewrite (ti_hashes _ _ _ _ _ _ I), Heq, !length_fmap, Nat.eqb_eq.
    unfold shown_kvs. rewrite length_fmap. by rewrite length_zero_iff_nil.
Qed.

(** A manifest that may be written takes a new table at level 0. *)
Lemma push_create_level0 mf id key_id c :
  mi_tables (mn_info mf) !! id = None → mf_read_only (mn_config mf) = false →
  mi_deletions (mn_info mf) ≤ mn_deletions_rewrite_threshold mf →
  ∃ mf', push_changes mf [new_create id LEVEL0 key_id (CompressionType_into c)] = (mf', Ok ()) ∧
    mi_tables (mn_info mf') =
      <[id := mkTableManifest LEVEL0 key_id (CompressionType_from (CompressionType_into c))]> (mi_tables (mn_info mf)).
Proof.
  intros Hid Hro Hdel. unfold push_changes, new_create.
  cbn [apply_change_set apply_manifest_change mc_op mc_id mc_level mc_key_id mc_compression]. rewrite Hid.
  change (Z.to_nat LEVEL0) with 0. change (Level_from_u32 LEVEL0) with LEVEL0.
  destruct (mi_levels (mn_info mf)) as [|ids rest]; cbn [length Nat.leb app idx unwrap lookup list_lookup mbind outcome_bind].
  all: cbn [mi_deletions]; rewrite (proj2 (Nat.ltb_ge _ _)), Hro by lia; by eexists.
Qed.

Lemma Table_open_fields config id file cipher ic bc t :
  Table_open config id file cipher ic bc = Ok t → t_table_id t = id ∧ t_cipher t = cipher ∧ t_config t = config.
Proof.
  unfold Table_open. destruct (_ && _); [done|].
  destruct (init_index file cipher) as [[[ti a] b]| |]; cbn [mbind outcome_bind]; [|done..].
  destruct (get_smallest_biggest _ _ _ _) as [[s b']| |]; cbn [mbind outcome_bind]; [|done..].
  intros Hv. apply bind_Ok in Hv as (u & _ & [= <-]). done.
Qed.

(** Opening the file of a flush gives the table. *)
Lemma flush_table config cipher id m file :
  m ≠ [] → items_fit config (l0_item <$> shown m) → tc_block_size config ≠ 0 ∨ tc_compression config = CNone →
  build_table config cipher (l0_item <$> shown m) = Ok file → in_width 32 (Z.of_nat (length file)) →
  ∃ t, Table_open config id file cipher (λ _, None) None = Ok t ∧ t_table_id t = id ∧ t_cipher t = cipher ∧
    t_config t = config ∧ drain (S (length m)) (Table_iter t) = Ok (Some (shown m)) ∧
    max_version t = max_ts (shown m).
Proof.
  intros Hne Hfit Hcfg Hbuild Hlen.
  assert (it_kv <$> (l0_item <$> shown m) = shown m) as Hid by (rewrite <- list_fmap_compose; apply list_fmap_id).
  destruct (build_table_open config cipher id (λ _, None) None (l0_item <$> shown m) file)
    as (t & gs & k0 & v0 & kl & vl & ib & Ho & Hr & Hcat & _ & _ & _ & _ & _ & Hci & _ & Hm & _); try done.
  { by destruct m. }
  exists t. rewrite Hid in *. destruct (Table_open_fields _ _ _ _ _ _ _ Ho) as (E1 & E2 & E3).
  split_and!; [done..| |].
  - rewrite <- Hcat. apply drain_yields; [by apply table_iter_yields|]. rewrite Hcat. unfold shown_kvs.
    rewrite length_fmap. lia.
  - cbn [max_version Table_level]. rewrite Hci. by cbn [CheapTableIndex_from ci_max_version].
Qed.

(** C35: Flushing a memtable moves its entries into level 0: the flush builds a table
    that is listed last in level 0 and in the manifest, under the reserved
    identifier and with the key and the compression it was written with; reading
    the table through gives exactly the entries of the memtable, and it has their
    highest version.  An empty memtable changes nothing; with too many tables in
    level 0 the flush waits with the table, which the manifest already lists. *)
Theorem flush_keeps config cipher st mt m h :
  mt_holds mt m → Forall pointer_ok (shown m) → items_fit config (l0_item <$> shown m) →
  tc_block_size config ≠ 0 ∨ tc_compression config = CNone →
  lc_levels (st_levels st) !! 0 = Some h → hd_level h = LEVEL0 →
  mi_tables (mn_info (st_manifest st)) !! lc_next_file_id (st_levels st) = None →
  mf_read_only (mn_config (st_manifest st)) = false →
  mi_deletions (mn_info (st_manifest st)) ≤ mn_deletions_rewrite_threshold (st_manifest st) →
  let id := lc_next_file_id (st_levels st) in
  (m = [] → handle_memtable_flush config st (Ok cipher) mt = (st, Ok Done)) ∧
  (∀ file, m ≠ [] → build_table config cipher (l0_item <$> shown m) = Ok file → in_width 32 (Z.of_nat (length file)) →
   ∃ st' t,
     handle_memtable_flush config st (Ok cipher) mt =
       (st', Ok (if length (ht_tables (hd_inner h)) <? ll_num_level_zero_tables_stall (lc_config (st_levels st))
                 then Done else Stalled t)) ∧
     t_table_id t = id ∧ drain (S (length m)) (Table_iter t) = Ok (Some (shown m)) ∧
     max_version t = max_ts (shown m) ∧
     lc_next_file_id (st_levels st') = u32 (id + 1) ∧
     mi_tables (mn_info (st_manifest st')) =
       <[id := mkTableManifest LEVEL0 (match cipher with Some c => cipher_key_id c | None => 0%Z end)
                 (CompressionType_from (CompressionType_into (tc_compression config)))]>
         (mi_tables (mn_info (st_manifest st))) ∧
     (∃ h', lc_levels (st_levels st') = <[0 := h']> (lc_levels (st_levels st)) ∧
        ht_tables (hd_inner h') = ht_tables (hd_inner h) ++
          (if length (ht_tables (hd_inner h)) <? ll_num_level_zero_tables_stall (lc_config (st_levels st))
           then [t] else []))).
Proof.
  intros Hmt Hp Hfit Hcfg Hh Hl0 Hid Hro Hdel id.
  destruct (flush_builds config cipher mt m Hmt Hp Hfit) as (tb & Hl & Hpush & Htc & Hcc & Hemp).
  unfold handle_memtable_flush. cbn [mbind outcome_bind]. rewrite Hl. cbn [mbind outcome_bind unwrap]. split.
  { intros Hm%Hemp. by rewrite Hm. }
  intros file Hne Hbuild Hlen. destruct (TableBuilder_is_empty tb) eqn:E; [by destruct Hne; apply Hemp|].
  destruct (flush_table config cipher id m file Hne Hfit Hcfg Hbuild Hlen) as (t & Ho & Et & Ec & Ecf & Hdr & Hmax).
  assert (TableBuilder_build tb id = Ok t) as Hb.
  { unfold TableBuilder_build. unfold build_table in Hbuild. rewrite Hpush in Hbuild. cbn [mbind outcome_bind] in Hbuild.
    rewrite Hbuild. cbn [mbind outcome_bind]. by rewrite Htc, Hcc. }
  unfold get_reserve_file_id. fold id. rewrite Hb. unfold push_level0_table. cbn [st_manifest st_levels].
  destruct (push_create_level0 (st_manifest st) id (match cipher with Some c => cipher_key_id c | None => 0%Z end)
              (tc_compression config) Hid Hro Hdel) as (mf & Hmf & Htabs).
  unfold level0_change. rewrite Et, Ec, Ecf, Hmf. unfold try_level0. cbn [lc_levels lc_config].
  unfold idx. rewrite Hh. cbn [unwrap mbind outcome_bind]. unfold push_level0. rewrite Hl0. cbn [Z.eqb assert_or_panic mbind outcome_bind LEVEL0].
  destruct (Nat.ltb_spec (length (ht_tables (hd_inner h))) (ll_num_level_zero_tables_stall (lc_config (st_levels st)))) as [Hs|Hs].
  - rewrite (proj2 (Nat.leb_gt _ _)) by done. cbn [mbind outcome_bind].
    eexists _, t. split_and!; [reflexivity|done..|]. cbn [st_levels with_levels lc_levels]. by eexists.
  - rewrite (proj2 (Nat.leb_le _ _)) by done. cbn [mbind outcome_bind].
    eexists _, t. split_and!; [reflexivity|done..|]. exists h. rewrite app_nil_r. split; [|done].
    cbn [st_levels lc_levels]. by rewrite list_insert_id.
Qed.

End FlushLemmas.

(* ------------------------------------------------------------------ *)
(** ** A concrete flush *)

Module FlushExamples.

#[local] Existing Instances VlogExamples.leb_read VlogExamples.leb_read_laws.
#[local] Existing Instances ManifestExamples.list_order ManifestExamples.list_order_laws ManifestExamples.toy_manifest.

Definition held : list (KeyTs * ValueMeta) := foldl insert_entry [] MemTableExamples.written.*1.
Definition items : list item := l0_item <$> shown_kvs KeyTs_serialize held.
Definition file : list Z := BuildExamples.get_file (build_table BuildExamples.plain_config None items).

Definition level0 : LevelHandler Table := LevelHandler_new LEVEL0.
Definition store : Store :=
  mkStore ManifestExamples.opened
    (mkLevelsController ManifestInfo_default 7 0 [level0] 6 LevelsControllerConfig_default).

Lemma memtable_held :
  ∃ mt : MemTable, mt_holds mt held.
Proof.
  destruct (MemTable_new_holds 16 1 MemTableExamples.config MemTableExamples.no_keys None (replicate 12 7%Z) ∅
              MemTableExamples.config_is_ok) as (sk & cfg' & _ & Hh & Hptr & Hsize); [done..|].
  destruct (push_entries_holds 16 0 MemTableExamples.written _ [] ltac:(lia) Hh) as (mt & _ & Hh' & _).
  - eapply Forall_impl; [apply MemTableExamples.written_ok|]. by intros e [].
  - unfold fits. cbn [mt_skip_list]. rewrite Hptr.
    change (Z.of_nat (mc_arena_size MemTableExamples.config)) with 2000%Z in Hsize.
    assert (sum_of (λ e : Entry * list bool, entry_cost e.1) MemTableExamples.written <= 1000)%Z by (vm_compute; discriminate).
    lia.
  - by exists mt.
Qed.

Lemma flush_keeps_witness :
  ∃ mt st' t, mt_holds mt held ∧
    handle_memtable_flush BuildExamples.plain_config store (Ok None) mt = (st', Ok Done) ∧
    drain 3 (Table_iter t) = Ok (Some (shown_kvs KeyTs_serialize held)) ∧
    mi_tables (mn_info (st_manifest st')) !! 7%Z = Some (mkTableManifest LEVEL0 0 CNone).
Proof.
  destruct memtable_held as (mt & Hmt). exists mt.
  destruct (flush_keeps BuildExamples.plain_config None store mt held level0 Hmt) as [_ Hf].
  - vm_compute. repeat (apply Forall_cons; split; [by eexists|]). constructor.
  - split; [|vm_compute; reflexivity].
    repeat (apply Forall_cons; split; [vm_compute; repeat constructor; congruence|]). constructor.
  - by right.
  - reflexivity.
  - reflexivity.
  - vm_compute. reflexivity.
  - vm_compute. reflexivity.
  - vm_compute. apply le_0_n.
  - destruct (Hf file) as (st' & t & Hh & _ & Hd & _ & _ & Ht & _).
    + discriminate.
    + vm_compute. reflexivity.
    + vm_compute. split; [discriminate|reflexivity].
    + exists st', t. split_and!; [exact Hmt|exact Hh|exact Hd|]. rewrite Ht. apply lookup_insert_eq.
Defined.

End FlushExamples.
