(* ===== verification/Config.v ===== *)
(** * Config: the configuration of a database

    [Config] of src/src/config.rs with the parts it checks and derives: the limits
    of a batch and the size of a memtable's arena, the threshold of the value log
    (src/src/vlog/threshold.rs), the file size of the value log
    (src/src/vlog/mod.rs), the sizes of the caches (src/src/util/cache.rs), the
    directories.  The configurations of the components are those of their own
    files; a directory is a number. *)
From stdpp Require Import base list gmap sets strings.
From Stdlib Require Import ZArith Lia SpecFloat.
From S2P Require Import Prelude Float64 Util VarInt Kv Iter Pb Storage Block Table TableBuild WaterMark Oracle Txn Manifest Level.
From S2P Require Import Vlog Arena SkipList SkipListInv SkipListPush SkipListSpec MemTable Text Trie Closer Publisher.
From S2P Require Import KeyRegistry Write LevelsOpen.

Local Open Scope Z_scope.

(** ** The threshold of the value log *)

Definition MAX_VALUE_THRESHOLD : Z := Z.shiftl 1 20.

Record VlogThresholdConfig : Type := mkThresholdConfig {
  vt_max_value_threshold : Z;
  vt_vlog_percentile : f64;
  vt_value_threshold : Z
}.

Definition VlogThresholdConfig_default : VlogThresholdConfig :=
  mkThresholdConfig MAX_VALUE_THRESHOLD f64_zero MAX_VALUE_THRESHOLD.

(** [check_threshold_config] *)
Definition check_threshold_config (c : VlogThresholdConfig) (max_batch_size : Z) : outcome VlogThresholdConfig :=
  let c := mkThresholdConfig (Z.min MAX_VALUE_THRESHOLD max_batch_size) (vt_vlog_percentile c) (vt_value_threshold c) in
  if f64_ltb (vt_vlog_percentile c) f64_zero || f64_ltb f64_one (vt_vlog_percentile c)
  then Err (EMsg "vlog_percentile must be within range of 0.0-1.0")
  else if MAX_VALUE_THRESHOLD <? vt_value_threshold c then Err (EMsg "Invalid ValueThreshold")
  else if max_batch_size <? vt_value_threshold c then Err (EMsg "Valuethreshold greater than max batch size")
  else Ok c.

(** ** The value log and the caches *)

(** [1 << 30 - 1] is [1 << 29]: the subtraction binds first. *)
Definition DEFAULT_VLOG_FILE_SIZE : Z := Z.shiftl 1 (30 - 1).

Definition check_vlog_config (vlog_file_size : Z) : outcome unit :=
  if negb ((Z.shiftl 1 20 <=? vlog_file_size) && (vlog_file_size <? Z.shiftl 2 30)) then Err (EDB ValuelogSize)
  else Ok ().

Record BlockCacheConfig : Type := mkBlockCacheConfig { bc_block_cache_size : Z; bc_block_size : Z }.

Definition BlockCacheConfig_default : BlockCacheConfig := mkBlockCacheConfig (Z.shiftl 256 20) (4 * 1024).

(** Division of [usize] values panics on zero. *)
Definition cache_div (a b : Z) : outcome Z := if b =? 0 then Panic else Ok (a / b).

(** [BlockCacheConfig::try_build]: the capacity of the cache, if there is one. *)
Definition block_cache_build (c : BlockCacheConfig) : outcome (option Z) :=
  if 0 <? bc_block_cache_size c then
    n ← cache_div (bc_block_cache_size c) (bc_block_size c);
    Ok (Some (Z.max n 1))
  else Ok None.

Record IndexCacheConfig : Type := mkIndexCacheConfig { ic_index_cache_size : Z; ic_index_size : Z }.

(** [0.05] and [(memtable_size as f64 * 0.05) as usize] *)
Definition FIVE_PERCENT : f64 := S754_finite false 7205759403792794 (-57).
Definition index_size_of (memtable_size : Z) : Z := f64_to U64_MAX (f64_mul (f64_of memtable_size) FIVE_PERCENT).

Definition DEFAULT_INDEX_SIZE : Z := index_size_of (Z.shiftl 64 20).

Definition IndexCacheConfig_default : IndexCacheConfig := mkIndexCacheConfig (Z.shiftl 16 20) DEFAULT_INDEX_SIZE.

Definition index_cache_init (c : IndexCacheConfig) (memtable_size : Z) : IndexCacheConfig :=
  if ic_index_size c =? DEFAULT_INDEX_SIZE
  then mkIndexCacheConfig (ic_index_cache_size c) (index_size_of memtable_size) else c.

Definition index_cache_build (c : IndexCacheConfig) : outcome Z :=
  n ← cache_div (ic_index_cache_size c) (ic_index_size c);
  Ok (Z.max n 1).

(** ** The configuration *)

Record Dirs : Type := mkDirs {
  di_manifest : nat;
  di_key_registry : nat;
  di_memtable : nat;
  di_level : nat;
  di_value : nat
}.

Definition dir_list (d : Dirs) : list nat := [di_manifest d; di_key_registry d; di_memtable d; di_level d; di_value d].

Record LockGuardConfig : Type := mkLockGuardConfig {
  lg_dirs : gset nat;
  lg_bypass_lock_guard : bool;
  lg_read_only : bool
}.

Record Config : Type := mkConfig {
  cf_sync_writes : bool;
  cf_num_versions_to_keep : Z;
  cf_read_only : bool;
  cf_num_memtables : nat;
  cf_name_space_offset : option nat;
  cf_verify_value_checksum : bool;
  cf_memtable : MemTableConfig;
  cf_block_cache : BlockCacheConfig;
  cf_index_cache : IndexCacheConfig;
  cf_level_controller : LevelsControllerConfig;
  cf_table : TableConfig;
  cf_vlog : ValueLogConfig;
  cf_vlog_read_only : bool;
  cf_key_registry : KeyRegistryConfig;
  cf_lock_guard : LockGuardConfig;
  cf_vlog_threshold : VlogThresholdConfig;
  cf_txn : TxnConfig;
  cf_manifest : ManifestConfig;
  cf_dirs : Dirs;
  cf_max_batch_count : Z;
  cf_max_batch_size : Z
}.

(** The default; [bloom] is what the false-positive rate 0.01 gives. *)
Definition TableConfig_default (bloom : option (nat * nat)) : TableConfig :=
  mkTableConfig (Z.to_nat (Z.shiftl 2 20))
    (Z.to_nat (f64_to U64_MAX (f64_mul (f64_of (Z.shiftl 2 20)) (S754_finite false 8556839292003942 (-53)))))
    NoVerification Crc32c bloom (Z.to_nat (4 * 1024)) CNone 1.

Definition Config_default (bloom : option (nat * nat)) : Config :=
  mkConfig false 1 false 5 None false MemTableConfig_default BlockCacheConfig_default IndexCacheConfig_default
    LevelsControllerConfig_default (TableConfig_default bloom)
    (mkValueLogConfig (Z.to_nat DEFAULT_VLOG_FILE_SIZE) (Z.to_nat 1000000)) false KeyRegistryConfig_default
    (mkLockGuardConfig ∅ false false) VlogThresholdConfig_default TxnConfig_default (mkManifestConfig false 0)
    (mkDirs 0 0 0 0 0) 0 0.

(** [set_dir] and [set_read_only] *)
Definition set_dir (c : Config) (dir : nat) : Config :=
  mkConfig (cf_sync_writes c) (cf_num_versions_to_keep c) (cf_read_only c) (cf_num_memtables c)
    (cf_name_space_offset c) (cf_verify_value_checksum c) (cf_memtable c) (cf_block_cache c) (cf_index_cache c)
    (cf_level_controller c) (cf_table c) (cf_vlog c) (cf_vlog_read_only c) (cf_key_registry c) (cf_lock_guard c)
    (cf_vlog_threshold c) (cf_txn c) (cf_manifest c)
    (mkDirs dir dir (di_memtable (cf_dirs c)) dir (di_value (cf_dirs c))) (cf_max_batch_count c) (cf_max_batch_size c).

Definition set_read_only (c : Config) (read_only : bool) : Config :=
  let mt := cf_memtable c in
  let kr := cf_key_registry c in
  mkConfig (cf_sync_writes c) (cf_num_versions_to_keep c) read_only (cf_num_memtables c)
    (cf_name_space_offset c) (cf_verify_value_checksum c)
    (mkMemTableConfig read_only (mc_memtable_size mt) (mc_arena_size mt) (mc_num_memtables mt) (mc_next_fid mt))
    (cf_block_cache c) (cf_index_cache c) (cf_level_controller c) (cf_table c) (cf_vlog c) read_only
    (mkKeyRegistryConfig (kc_encrypt_key kr) (kc_data_key_rotation_duration kr) read_only)
    (mkLockGuardConfig (lg_dirs (cf_lock_guard c)) (lg_bypass_lock_guard (cf_lock_guard c)) read_only)
    (cf_vlog_threshold c) (cf_txn c) (mkManifestConfig read_only (mf_external_magic_version (cf_manifest c)))
    (cf_dirs c) (cf_max_batch_count c) (cf_max_batch_size c).

(** ** Checking and deriving *)

Definition usize_mul (a b : Z) : outcome Z := if a * b <=? U64_MAX then Ok (a * b) else Panic.

(** [check_set_config] *)
Definition check_set_config (c : Config) : outcome Config :=
  let mt := cf_memtable c in
  let memtable_size := Z.of_nat (mc_memtable_size mt) in
  lc ← check_levels_controller_config (cf_level_controller c);
  p ← usize_mul 15 memtable_size;
  let max_batch_size := p / 100 in
  let max_batch_count := max_batch_size / SKL_MAX_NODE_SIZE in
  a ← u64_add memtable_size max_batch_size;
  b ← usize_mul max_batch_count SKL_MAX_NODE_SIZE;
  arena_size ← u64_add a b;
  vt ← check_threshold_config (cf_vlog_threshold c) max_batch_size;
  _ ← check_vlog_config (Z.of_nat (vc_vlog_file_size (cf_vlog c)));
  let need_cache := negb (bool_decide (tc_compression (cf_table c) = CNone)) ||
                    (0 <? Z.of_nat (length (kc_encrypt_key (cf_key_registry c)))) in
  _ ← assert_or_panic (negb (need_cache && (bc_block_cache_size (cf_block_cache c) =? 0)));
  Ok (mkConfig (cf_sync_writes c) (cf_num_versions_to_keep c) (cf_read_only c) (cf_num_memtables c)
        (cf_name_space_offset c) (cf_verify_value_checksum c)
        (mkMemTableConfig (mc_read_only mt) (mc_memtable_size mt) (Z.to_nat arena_size) (mc_num_memtables mt)
           (mc_next_fid mt))
        (mkBlockCacheConfig (bc_block_cache_size (cf_block_cache c)) (Z.of_nat (tc_block_size (cf_table c))))
        (cf_index_cache c) lc (cf_table c) (cf_vlog c) (cf_vlog_read_only c) (cf_key_registry c) (cf_lock_guard c) vt
        (cf_txn c) (cf_manifest c) (cf_dirs c) max_batch_count max_batch_size).

(** [create_dirs]: the directories there are afterwards. *)
Fixpoint create_dirs (read_only : bool) (dirs : list nat) (existing : gset nat) : outcome (gset nat) :=
  match dirs with
  | [] => Ok existing
  | d :: dirs =>
      if bool_decide (d ∈ existing) then create_dirs read_only dirs existing
      else if read_only then Err (EMsg "Cannot find directory for read-only open")
      else create_dirs read_only dirs ({[d]} ∪ existing)
  end.

(** [init_lock_guard] *)
Definition init_lock_guard (lg : LockGuardConfig) (dirs : list nat) : LockGuardConfig :=
  mkLockGuardConfig (foldl (λ s d, {[d]} ∪ s) (lg_dirs lg) dirs) (lg_bypass_lock_guard lg) (lg_read_only lg).

(** [Config::init]: the configuration and the directories. *)
Definition Config_init (c : Config) (existing : gset nat) : outcome (Config * gset nat) :=
  c ← check_set_config c;
  dirs ← create_dirs (cf_read_only c) (dir_list (cf_dirs c)) existing;
  Ok (mkConfig (cf_sync_writes c) (cf_num_versions_to_keep c) (cf_read_only c) (cf_num_memtables c)
        (cf_name_space_offset c) (cf_verify_value_checksum c) (cf_memtable c) (cf_block_cache c)
        (index_cache_init (cf_index_cache c) (Z.of_nat (mc_memtable_size (cf_memtable c)))) (cf_level_controller c)
        (cf_table c) (cf_vlog c) (cf_vlog_read_only c) (cf_key_registry c)
        (init_lock_guard (cf_lock_guard c) (dir_list (cf_dirs c))) (cf_vlog_threshold c) (cf_txn c) (cf_manifest c)
        (cf_dirs c) (cf_max_batch_count c) (cf_max_batch_size c), dirs).

(** What a transaction reads of the configuration. *)
Definition db_opt (c : Config) : DbOpt :=
  mkDbOpt (Z.to_nat (vt_value_threshold (cf_vlog_threshold c))) (Z.to_nat (cf_max_batch_count c))
    (Z.to_nat (cf_max_batch_size c)) (vc_vlog_file_size (cf_vlog c)) (cf_name_space_offset c).

(* ------------------------------------------------------------------ *)
(** ** What a checked configuration guarantees *)

Definition max_batch_size_of (c : Config) : Z := 15 * Z.of_nat (mc_memtable_size (cf_memtable c)) / 100.

(** The conditions under which a configuration is accepted. *)
Record config_valid (c : Config) (existing : gset nat) : Prop := {
  cv_compactors : ll_num_compactors (cf_level_controller c) ≠ 1%nat;
  cv_memtable : 15 * Z.of_nat (mc_memtable_size (cf_memtable c)) ≤ U64_MAX;
  cv_percentile : f64_ltb (vt_vlog_percentile (cf_vlog_threshold c)) f64_zero = false ∧
                  f64_ltb f64_one (vt_vlog_percentile (cf_vlog_threshold c)) = false;
  cv_threshold : vt_value_threshold (cf_vlog_threshold c) ≤ Z.min MAX_VALUE_THRESHOLD (max_batch_size_of c);
  cv_vlog : 2 ^ 20 ≤ Z.of_nat (vc_vlog_file_size (cf_vlog c)) < 2 ^ 31;
  cv_cache : tc_compression (cf_table c) = CNone ∧ kc_encrypt_key (cf_key_registry c) = [] ∨
             bc_block_cache_size (cf_block_cache c) ≠ 0;
  cv_dirs : cf_read_only c = true → ∀ d, d ∈ dir_list (cf_dirs c) → d ∈ existing
}.

Lemma check_levels_ok c :
  (∃ c', check_levels_controller_config c = Ok c') ↔ ll_num_compactors c ≠ 1%nat.
Proof.
  unfold check_levels_controller_config. destruct (Nat.eqb_spec (ll_num_compactors c) 1) as [E|E].
  - split; [by intros []|done].
  - split; [done|]. by eexists.
Qed.

Lemma check_threshold_ok c m :
  (∃ c', check_threshold_config c m = Ok c') ↔
  (f64_ltb (vt_vlog_percentile c) f64_zero = false ∧ f64_ltb f64_one (vt_vlog_percentile c) = false) ∧
  vt_value_threshold c ≤ Z.min MAX_VALUE_THRESHOLD m.
Proof.
  unfold check_threshold_config. cbn [vt_vlog_percentile vt_value_threshold].
  destruct (f64_ltb (vt_vlog_percentile c) f64_zero), (f64_ltb f64_one (vt_vlog_percentile c)); cbn [orb];
    try (split; [by intros []|by intros [[] _]]).
  destruct (Z.ltb_spec MAX_VALUE_THRESHOLD (vt_value_threshold c)) as [H1|H1]; [split; [by intros []|lia]|].
  destruct (Z.ltb_spec m (vt_value_threshold c)) as [H2|H2]; [split; [by intros []|lia]|].
  split; [intros _; split; [done|lia]|]. intros _. by eexists.
Qed.

Lemma create_dirs_ok ro dirs existing :
  match create_dirs ro dirs existing with
  | Ok dirs' => dirs' = list_to_set dirs ∪ existing ∧ (ro = true → ∀ d, d ∈ dirs → d ∈ existing)
  | _ => ro = true ∧ ∃ d, d ∈ dirs ∧ d ∉ existing
  end.
Proof.
  revert existing. induction dirs as [|d dirs IH]; intros existing; cbn [create_dirs].
  { split; [set_solver|by intros _ d Hd%elem_of_nil]. }
  case_bool_decide as Hd.
  - specialize (IH existing). destruct (create_dirs ro dirs existing); [|set_solver..].
    destruct IH as [-> H2]. split; [set_solver|]. intros E d' [->|Hd']%elem_of_cons; [done|by apply H2].
  - destruct ro; [split; [done|]; exists d; split; [constructor|done]|].
    specialize (IH ({[d]} ∪ existing)). destruct (create_dirs false dirs _); [|by destruct IH..].
    destruct IH as [-> H2]. split; [set_solver|done].
Qed.

Lemma foldl_union_dirs dirs (s : gset nat) : foldl (λ s d, {[d]} ∪ s) s dirs = list_to_set dirs ∪ s.
Proof. revert s. induction dirs as [|d dirs IH]; intros s; cbn; [set_solver|]. rewrite IH. set_solver. Qed.

(** What [check_set_config] derives, when it accepts. *)
Record derived (c c' : Config) : Prop := {
  dv_memtable_size : mc_memtable_size (cf_memtable c') = mc_memtable_size (cf_memtable c);
  dv_batch_size : cf_max_batch_size c' = max_batch_size_of c;
  dv_batch_count : cf_max_batch_count c' = max_batch_size_of c / SKL_MAX_NODE_SIZE;
  dv_arena : Z.of_nat (mc_arena_size (cf_memtable c')) =
    Z.of_nat (mc_memtable_size (cf_memtable c)) + cf_max_batch_size c' + cf_max_batch_count c' * SKL_MAX_NODE_SIZE;
  dv_threshold : vt_value_threshold (cf_vlog_threshold c') = vt_value_threshold (cf_vlog_threshold c);
  dv_max_threshold : vt_max_value_threshold (cf_vlog_threshold c') = Z.min MAX_VALUE_THRESHOLD (max_batch_size_of c);
  dv_block_size : bc_block_size (cf_block_cache c') = Z.of_nat (tc_block_size (cf_table c))
}.

Lemma check_set_config_inv c c' :
  check_set_config c = Ok c' → derived c c' ∧ cf_read_only c' = cf_read_only c ∧ cf_dirs c' = cf_dirs c ∧
    cf_lock_guard c' = cf_lock_guard c ∧ cf_vlog c' = cf_vlog c ∧ cf_name_space_offset c' = cf_name_space_offset c ∧
    cf_memtable c' = mkMemTableConfig (mc_read_only (cf_memtable c)) (mc_memtable_size (cf_memtable c))
      (mc_arena_size (cf_memtable c')) (mc_num_memtables (cf_memtable c)) (mc_next_fid (cf_memtable c)) ∧ 15 * Z.of_nat (mc_memtable_size (cf_memtable c)) ≤ U64_MAX.
Proof.
  unfold check_set_config. intros Hc. cbv zeta in Hc.
  apply bind_Ok in Hc as (lc & _ & Hc). apply bind_Ok in Hc as (p & Hp & Hc).
  apply bind_Ok in Hc as (a & Ha & Hc). apply bind_Ok in Hc as (b & Hb & Hc).
  apply bind_Ok in Hc as (ar & Har & Hc). apply bind_Ok in Hc as (vt & Hvt & Hc).
  apply bind_Ok in Hc as ([] & _ & Hc). apply bind_Ok in Hc as ([] & _ & [= <-]).
  unfold usize_mul, u64_add in *. repeat case_match; simplify_eq. bool_to_prop.
  unfold check_threshold_config in Hvt. repeat case_match; simplify_eq.
  split_and!; try done. split; try done. cbn. fold (max_batch_size_of c).
  assert (0 ≤ max_batch_size_of c) as Hb by (apply Z.div_pos; lia).
  pose proof (Z.div_pos _ SKL_MAX_NODE_SIZE Hb ltac:(done)). unfold SKL_MAX_NODE_SIZE in *. lia.
Qed.

Lemma check_set_config_total c existing : config_valid c existing → ∃ c', check_set_config c = Ok c'.
Proof.
  intros [H1 H2 H3 H4 H5 H6 _]. unfold check_set_config. cbv zeta.
  destruct (proj2 (check_levels_ok _) H1) as (lc & ->). cbn [mbind outcome_bind].
  assert (usize_mul 15 (Z.of_nat (mc_memtable_size (cf_memtable c))) = Ok (15 * Z.of_nat (mc_memtable_size (cf_memtable c)))) as ->
    by (unfold usize_mul; by rewrite (proj2 (Z.leb_le _ _))).
  cbn [mbind outcome_bind]. fold (max_batch_size_of c). set (ms := Z.of_nat (mc_memtable_size (cf_memtable c))) in *.
  assert (0 ≤ max_batch_size_of c ∧ 100 * max_batch_size_of c ≤ 15 * ms) as [Hb0 Hb1].
  { unfold max_batch_size_of. fold ms. split; [apply Z.div_pos; lia|apply Z.mul_div_le; lia]. }
  assert (0 ≤ max_batch_size_of c / SKL_MAX_NODE_SIZE * SKL_MAX_NODE_SIZE ≤ max_batch_size_of c) as Hc.
  { pose proof (Z.div_pos _ SKL_MAX_NODE_SIZE Hb0 ltac:(done)).
    pose proof (Z.mul_div_le (max_batch_size_of c) SKL_MAX_NODE_SIZE ltac:(done)). unfold SKL_MAX_NODE_SIZE in *. lia. }
  assert (0 ≤ ms) by lia. unfold u64_add, usize_mul, U64_MAX in *.
  rewrite (proj2 (Z.leb_le _ _)) by lia. cbn [mbind outcome_bind].
  rewrite (proj2 (Z.leb_le _ _)) by lia. cbn [mbind outcome_bind].
  rewrite (proj2 (Z.leb_le _ _)) by lia. cbn [mbind outcome_bind].
  destruct (proj2 (check_threshold_ok (cf_vlog_threshold c) (max_batch_size_of c)) (conj H3 H4)) as (vt & ->).
  cbn [mbind outcome_bind]. unfold check_vlog_config.
  change (Z.shiftl 1 20) with (2 ^ 20). change (Z.shiftl 2 30) with (2 ^ 31).
  rewrite (proj2 (Z.leb_le _ _)), (proj2 (Z.ltb_lt _ (2 ^ 31))) by lia. cbn [andb negb mbind outcome_bind].
  destruct H6 as [[-> ->]|H6]; [cbn; by eexists|].
  rewrite (proj2 (Z.eqb_neq _ _)) by done. rewrite andb_false_r. cbn [negb assert_or_panic mbind outcome_bind]. by eexists.
Qed.

Lemma check_set_config_valid c c' existing :
  check_set_config c = Ok c' → (cf_read_only c = true → ∀ d, d ∈ dir_list (cf_dirs c) → d ∈ existing) →
  config_valid c existing.
Proof.
  intros Hc Hd. destruct (check_set_config_inv c c' Hc) as (_ & _ & _ & _ & _ & _ & _ & Hm).
  unfold check_set_config in Hc. cbv zeta in Hc.
  apply bind_Ok in Hc as (lc & Hlc & Hc). apply bind_Ok in Hc as (p & Hp & Hc).
  apply bind_Ok in Hc as (a & _ & Hc). apply bind_Ok in Hc as (b & _ & Hc).
  apply bind_Ok in Hc as (ar & _ & Hc). apply bind_Ok in Hc as (vt & Hvt & Hc).
  apply bind_Ok in Hc as ([] & Hv & Hc). apply bind_Ok in Hc as ([] & Hn & _).
  unfold usize_mul in Hp. case_match; simplify_eq. fold (max_batch_size_of c) in Hvt.
  destruct (proj1 (check_threshold_ok _ _) (ex_intro _ _ Hvt)) as [Hpc Hth].
  split; try done.
  - apply check_levels_ok. by exists lc.
  - unfold check_vlog_config in Hv. destruct (negb _) eqn:E; [done|]. apply negb_false_iff, andb_true_iff in E as [E1 E2].
    apply Z.leb_le in E1. apply Z.ltb_lt in E2. exact (conj E1 E2).
  - destruct (Z.eqb_spec (bc_block_cache_size (cf_block_cache c)) 0) as [E|E]; [left|by right].
    rewrite andb_true_r in Hn. case_bool_decide as Ec; [|done]. split; [done|].
    cbn [negb orb] in Hn. destruct (kc_encrypt_key _); [done|]. done.
Qed.

Lemma Config_init_ok c existing :
  (∃ r, Config_init c existing = Ok r) ↔ config_valid c existing.
Proof.
  unfold Config_init. split.
  - intros (r & Hr). apply bind_Ok in Hr as (c1 & Hc & Hr). apply bind_Ok in Hr as (dirs & Hd & _).
    destruct (check_set_config_inv c c1 Hc) as (_ & Hro & Hdirs & _).
    pose proof (create_dirs_ok (cf_read_only c1) (dir_list (cf_dirs c1)) existing) as Hcd. rewrite Hd in Hcd.
    rewrite Hro, Hdirs in Hcd. apply (check_set_config_valid c c1); [done|]. apply Hcd.
  - intros Hv. destruct (check_set_config_total c existing Hv) as (c1 & Hc). rewrite Hc. cbn [mbind outcome_bind].
    destruct (check_set_config_inv c c1 Hc) as (_ & Hro & Hdirs & _). rewrite Hro, Hdirs.
    pose proof (create_dirs_ok (cf_read_only c) (dir_list (cf_dirs c)) existing) as Hcd.
    destruct (create_dirs _ _ _); cbn [mbind outcome_bind]; [by eexists|..];
      destruct Hcd as (Hr & d & Hin & Hnot); by destruct Hnot; apply (cv_dirs _ _ Hv).
Qed.

Lemma Config_init_result c existing c' dirs :
  Config_init c existing = Ok (c', dirs) →
  derived c c' ∧ dirs = list_to_set (dir_list (cf_dirs c)) ∪ existing ∧
  lg_dirs (cf_lock_guard c') = list_to_set (dir_list (cf_dirs c)) ∪ lg_dirs (cf_lock_guard c).
Proof.
  unfold Config_init. intros Hr. apply bind_Ok in Hr as (c1 & Hc & Hr). apply bind_Ok in Hr as (ds & Hd & [= <- <-]).
  destruct (check_set_config_inv c c1 Hc) as ([] & Hro & Hdirs & Hlg & _).
  pose proof (create_dirs_ok (cf_read_only c1) (dir_list (cf_dirs c1)) existing) as Hcd. rewrite Hd in Hcd.
  rewrite Hdirs in *. split_and!; [by split|apply Hcd|]. cbn [cf_lock_guard init_lock_guard lg_dirs].
  rewrite foldl_union_dirs. by rewrite Hlg.
Qed.

(** The lock guard covers the five directories and keeps its options; the database
    stays as read-only as it was. *)
Lemma Config_init_locks c existing c' dirs :
  Config_init c existing = Ok (c', dirs) →
  (∀ p, p ∈ dir_list (cf_dirs c) → p ∈ lg_dirs (cf_lock_guard c')) ∧
  lg_bypass_lock_guard (cf_lock_guard c') = lg_bypass_lock_guard (cf_lock_guard c) ∧
  lg_read_only (cf_lock_guard c') = lg_read_only (cf_lock_guard c) ∧ cf_read_only c' = cf_read_only c.
Proof.
  intros Hr. split.
  - destruct (Config_init_result c existing c' dirs Hr) as (_ & _ & ->). intros p Hp.
    apply elem_of_union_l. by apply elem_of_list_to_set.
  - unfold Config_init in Hr. apply bind_Ok in Hr as (c1 & Hc & Hr). apply bind_Ok in Hr as (ds & _ & [= <- _]).
    destruct (check_set_config_inv c c1 Hc) as (_ & Hro & _ & Hlg & _). cbn. by rewrite Hlg.
Qed.

(** C36: A configuration is accepted exactly when its parts fit together: more or
    fewer than one compactor, a memtable size whose product with 15 does not
    overflow, a percentile that is not below 0 or above 1 (a NaN passes), a value
    threshold within a megabyte and the batch size, a value-log file between a
    megabyte and two gigabytes, a block cache when compression or encryption is
    on, and for a read-only database existing directories.  The accepted
    configuration has the batch limits and the arena size derived from the
    memtable size, all directories exist, and the lock guard covers them. *)
Theorem config_init_accepts c existing :
  match Config_init c existing with
  | Ok (c', dirs) =>
      config_valid c existing ∧ derived c c' ∧ dirs = list_to_set (dir_list (cf_dirs c)) ∪ existing ∧
      lg_dirs (cf_lock_guard c') = list_to_set (dir_list (cf_dirs c)) ∪ lg_dirs (cf_lock_guard c)
  | _ => ¬ config_valid c existing
  end.
Proof.
  pose proof (Config_init_ok c existing) as Hok. destruct (Config_init c existing) as [[c' dirs]|e|] eqn:Hr.
  - split; [apply Hok; by eexists|]. by apply (Config_init_result c existing).
  - by intros [r [=]]%Hok.
  - by intros [r [=]]%Hok.
Qed.

(* ------------------------------------------------------------------ *)
(** ** Batches and the arena *)

Section Batches.
Context `{!VarInt, !VarIntLaws}.

(** The entry a write leaves in the memtable: the same key length and expiry, and the
    value or, from the threshold on, its pointer. *)
Definition stored_as (threshold : nat) (e e' : Entry) : Prop :=
  length (Entry_key e') = length (Entry_key e) ∧
  length (Entry_value e') = (if (length (Entry_value e) <? threshold)%nat then length (Entry_value e) else 12%nat) ∧
  entry_storable e'.

(** A node takes 104 bytes and the key and the value rounded up, with their version,
    flags and expiry: at most 22 bytes more than a transaction counts. *)
Lemma stored_cost threshold e e' :
  stored_as threshold e e' →
  entry_cost e' ≤ SKL_MAX_NODE_SIZE + Z.of_nat (Entry_estimate_size e threshold + 10) + 22.
Proof.
  intros (Hk & Hv & (_ & (_ & Hx & _) & _)). unfold entry_cost, node_cost.
  pose proof (round8_bounds (Z.of_nat (length (KeyTs_serialize (e_key_ts e'))))) as [H1 _].
  pose proof (round8_bounds (Z.of_nat (length (ValueMeta_serialize (e_value_meta e'))))) as [H2 _].
  rewrite length_KeyTs_serialize in *. unfold ValueMeta_serialize in *. rewrite !length_app in *. cbn [length] in *.
  rewrite length_encode_var in * by done. pose proof (required_space_pos _ Hx) as Hr.
  unfold Entry_estimate_size; unfold KeyTs_len, Entry_key, Entry_value in *. destruct (_ <? threshold)%nat; lia.
Qed.

Lemma stored_costs threshold es es' :
  Forall2 (stored_as threshold) es es' →
  sum_of entry_cost es' ≤
    126 * Z.of_nat (length es) + Z.of_nat (sum_list_with (λ e, Entry_estimate_size e threshold + 10)%nat es).
Proof.
  induction 1 as [|e e' es es' He _ IH]; [done|]. cbn [sum_of sum_list_with length].
  apply stored_cost in He. unfold SKL_MAX_NODE_SIZE in He. lia.
Qed.

(** C37: The room of the arena beyond the size at which a memtable is full is the two
    limits of a batch: a transaction that was accepted under the limits and leaves
    22 bytes for each of its entries unused fits into any memtable that is not
    full. *)
Theorem batch_fits_arena hash_one banned c c' config read_ts es txn' es' :
  check_set_config c = Ok c' → 112 ≤ Z.of_nat (mc_memtable_size (cf_memtable c)) →
  modify_all hash_one (db_opt c') banned (Txn_new config true read_ts) es = Ok txn' →
  Forall2 (stored_as (op_value_threshold (db_opt c'))) es es' →
  22 * Z.of_nat (length es) ≤
    (cf_max_batch_size c' - Z.of_nat (tn_size txn')) +
    SKL_MAX_NODE_SIZE * (cf_max_batch_count c' - Z.of_nat (tn_count txn')) →
  req_fits (cf_memtable c') es'.
Proof.
  intros Hc H112 Hm Hst Hroom. destruct (check_set_config_inv c c' Hc) as (D & _).
  destruct (modify_all_inv hash_one (db_opt c') banned _ _ _ Hm (Txn_new_wf _ _ _)) as (_ & Hcount & Hsize & _).
  pose proof (stored_costs _ _ _ Hst) as Hsum. unfold writes_size in Hsize.
  assert (tn_count (Txn_new config true read_ts) = 1%nat) as E1
    by (unfold Txn_new; by destruct (tx_read_only config && true)).
  rewrite E1 in Hcount. split.
  - clear -Hst. induction Hst as [|e e' es es' (_ & _ & He) _ IH]; by constructor.
  - rewrite (dv_memtable_size _ _ D), (dv_arena _ _ D). unfold SKL_MAX_NODE_SIZE in *. lia.
Qed.

End Batches.

(* ------------------------------------------------------------------ *)
(** ** Concrete configurations *)

Module ConfigExamples.

#[local] Existing Instances VlogExamples.leb_read VlogExamples.leb_read_laws.

(** A memtable of 25230 bytes, the rest as in the default where it is not large;
    the value log takes files of [1000 + rest] bytes. *)
Definition small (rest : nat) : Config :=
  mkConfig false 1 false 5 None false (mkMemTableConfig false 25230 0 5 1) BlockCacheConfig_default
    IndexCacheConfig_default LevelsControllerConfig_default BuildExamples.plain_config
    (mkValueLogConfig (1000 + rest) 1000) false KeyRegistryConfig_default (mkLockGuardConfig ∅ false false)
    (mkThresholdConfig 0 f64_zero 1000) TxnConfig_default (mkManifestConfig false 0) (mkDirs 0 0 1 0 1) 0 0.

Definition rest_ok (rest : nat) : Prop := 2 ^ 20 ≤ 1000 + Z.of_nat rest < 2 ^ 31.

Lemma small_valid rest : rest_ok rest → config_valid (small rest) ∅.
Proof.
  intros Hr. split; [done|vm_compute; discriminate|done|vm_compute; discriminate| |by left|done].
  cbn [small cf_vlog vc_vlog_file_size]. rewrite Nat2Z.inj_add. exact Hr.
Qed.

Definition small_opt (rest : nat) : DbOpt := mkDbOpt 1000 36 3784 (1000 + rest) None.
Definition small_memtable : MemTableConfig := mkMemTableConfig false 25230 (Z.to_nat 32758) 5 1.

Lemma small_checked rest :
  rest_ok rest → ∃ c', check_set_config (small rest) = Ok c' ∧ db_opt c' = small_opt rest ∧ cf_memtable c' = small_memtable.
Proof.
  intros Hr. destruct (check_set_config_total (small rest) ∅ (small_valid rest Hr)) as (c' & Hc). exists c'. split; [done|].
  destruct (check_set_config_inv _ _ Hc) as (D & _ & _ & _ & Hv & Hn & Hm & _).
  assert (max_batch_size_of (small rest) = 3784) as E by (vm_compute; reflexivity).
  split.
  - unfold db_opt. rewrite Hv, Hn, (dv_threshold _ _ D), (dv_batch_size _ _ D), (dv_batch_count _ _ D), E. reflexivity.
  - rewrite Hm. unfold small_memtable. f_equal. apply Nat2Z.inj. rewrite (dv_arena _ _ D), (dv_batch_size _ _ D), (dv_batch_count _ _ D), E.
    vm_compute. reflexivity.
Qed.

(** What almost fills a memtable: 31 entries of 808 bytes each. *)
Definition filler (i : nat) : Entry :=
  mkEntry (mkKeyTs [1; Z.of_nat i] 1) (mkValueMeta (replicate 685 7) 0 0 64) 0 0 0.

(** The writes of a transaction, with keys of nine bytes, and their form in the
    memtable. *)
Definition write (i : nat) : Entry := Entry_new (2 :: Z.of_nat i :: replicate 7 0) (replicate 86 9).
Definition written (i : nat) : Entry := Entry_set_meta (Entry_set_version (write i) 8) Meta_TXN.
Definition txn0 : Txn := Txn_new TxnConfig_default true 7.
Definition no_keys : Registry := mkRegistry (λ _, Ok None) (Ok None).

Lemma writes_accepted rest :
  ∃ txn', modify_all (λ _, 0) (small_opt rest) ∅ txn0 (write <$> seq 0 34) = Ok txn'.
Proof.
  assert (match modify_all (λ _, 0) (small_opt rest) ∅ txn0 (write <$> seq 0 34) with Ok _ => True | _ => False end) as H
    by (vm_compute; exact I).
  destruct (modify_all _ _ _ _ _) as [txn'| |]; [|done..]. by exists txn'.
Qed.

Lemma few_writes_accepted rest :
  ∃ txn', modify_all (λ _, 0) (small_opt rest) ∅ txn0 (write <$> seq 0 10) = Ok txn' ∧
    tn_size txn' = 1091%nat ∧ tn_count txn' = 11%nat.
Proof.
  assert (match modify_all (λ _, 0) (small_opt rest) ∅ txn0 (write <$> seq 0 10) with
          | Ok t => tn_size t = 1091%nat ∧ tn_count t = 11%nat | _ => False end) as H by (vm_compute; split; reflexivity).
  destruct (modify_all _ _ _ _ _) as [txn'| |]; [|done..]. by exists txn'.
Qed.

Lemma written_stored i : (i < 10)%nat → stored_as 1000 (write i) (written i).
Proof.
  intros Hi. split_and!; [done|done|]. split_and!; [done| |vm_compute; reflexivity].
  split_and!; try done. apply Forall_replicate. done.
Qed.

Lemma batch_fits_arena_witness :
  ∃ c', check_set_config (small (Z.to_nat (2 ^ 20))) = Ok c' ∧ req_fits (cf_memtable c') (written <$> seq 0 10).
Proof.
  assert (rest_ok (Z.to_nat (2 ^ 20))) as Hr by (unfold rest_ok; rewrite Z2Nat.id; lia).
  revert Hr. generalize (Z.to_nat (2 ^ 20)). intros rest Hr.
  destruct (small_checked rest Hr) as (c' & Hc & Ho & Hm). destruct (few_writes_accepted rest) as (txn' & Ht & Hs & Hn).
  exists c'. split; [exact Hc|].
  apply (batch_fits_arena (λ _, 0) ∅ (small rest) c' TxnConfig_default 7 (write <$> seq 0 10) txn' (written <$> seq 0 10)).
  - exact Hc.
  - vm_compute. discriminate.
  - rewrite Ho. exact Ht.
  - rewrite Ho. cbn [op_value_threshold small_opt].
    apply Forall2_fmap, Forall_Forall2_diag, Forall_forall. intros i Hi%elem_of_seq. apply written_stored. lia.
  - apply (f_equal op_max_batch_size) in Ho as E1. apply (f_equal op_max_batch_count) in Ho as E2.
    cbn [op_max_batch_size op_max_batch_count db_opt small_opt] in E1, E2. rewrite Hs, Hn, length_fmap, length_seq.
    unfold SKL_MAX_NODE_SIZE. lia.
Defined.

Definition filled (cfg : MemTableConfig) : outcome MemTable :=
  '(mt, _) ← MemTable_new 4096 1 cfg no_keys (replicate 12 7) ∅;
  push_entries 4096 1 mt ((λ i, (filler i, [])) <$> seq 0 31).

(** Whether the memtable is full, and the answer of the writer to the batch. *)
Definition take_batch (mt : MemTable) : bool * outcome unit :=
  (MemTable_is_full mt,
   (write_to_memtable 4096 1 (λ _, []) mt ((λ i, (written i, ValuePointer_default)) <$> seq 0 34)).2).

Lemma overflowing_panics : (mt ← filled small_memtable; Ok (take_batch mt)) = Ok (false, Panic).
Proof. vm_compute. reflexivity. Qed.

(** The arena is too small for the batches a transaction may send: under an
    accepted configuration a transaction accepts 34 writes, within both limits, that
    a memtable which is not full cannot take: the arena has no room for the last
    of them, and the writer panics. *)
Theorem accepted_batch_panics :
  ∃ c c' txn' mt, check_set_config c = Ok c' ∧
    modify_all (λ _, 0) (db_opt c') ∅ txn0 (write <$> seq 0 34) = Ok txn' ∧
    filled (cf_memtable c') = Ok mt ∧ take_batch mt = (false, Panic).
Proof.
  assert (rest_ok (Z.to_nat (2 ^ 20))) as Hr by (unfold rest_ok; rewrite Z2Nat.id; lia).
  revert Hr. generalize (Z.to_nat (2 ^ 20)). intros rest Hr.
  destruct (small_checked rest Hr) as (c' & Hc & Ho & Hm). destruct (writes_accepted rest) as (txn' & Ht).
  pose proof (proj1 (bind_Ok _ _ _) overflowing_panics) as (mt & Hf & Hov).
  assert (∀ x y : bool * outcome unit, Ok x = Ok y → x = y) as Hinj by (by intros x y [=]).
  exists (small rest), c', txn', mt. rewrite Ho, Hm. exact (conj Hc (conj Ht (conj Hf (Hinj _ _ Hov)))).
Qed.

End ConfigExamples.
