(* ===== verification/Cache.v ===== *)
(** * Cache: the caches of table indexes and of blocks

    [BlockCacheConfig::try_build], [IndexCacheConfig::build], [BlockCache] and
    [IndexCache] (src/src/util/cache.rs), and the code that goes through them:
    [TableInner::get_index], [get_block], [verify], [may_contain_key] and
    [TableConfig::open] (src/src/table/mod.rs), as written without the feature
    [async_cache].

    The caches themselves are another crate's.  They are a class with the
    behaviour the code relies on: a lookup answers nothing or what was last
    inserted under the key, and anything may be dropped at any time.  All tables of
    a database share one cache of each kind, so the caches are a state that the
    operations thread; the theorem at the end is that no client can tell them
    from reading the files. *)
From stdpp Require Import base list gmap strings.
From Stdlib Require Import ZArith Lia.
From S2P Require Import Prelude Kv Bloom Pb VarInt Storage Block Table TableBuild Config.

Local Open Scope nat_scope.

(** ** The cache of the crate *)

Class CacheLib (C K V : Type) : Type := {
  cache_new : Z → C;
  cache_get : C → K → option V * C;
  cache_insert : C → K → V → C
}.

#[export] Hint Mode CacheLib ! - - : typeclass_instances.

Class CacheLaws (C K V : Type) `{!CacheLib C K V} : Type := {
  cache_holds : C → K → V → Prop;
  holds_new n k v : ¬ cache_holds (cache_new n) k v;
  holds_get c k v c' : cache_get c k = (Some v, c') → cache_holds c k v;
  holds_get_keep c k r c' k' v : cache_get c k = (r, c') → cache_holds c' k' v → cache_holds c k' v;
  holds_insert c k v k' v' : cache_holds (cache_insert c k v) k' v' →
    (k' = k ∧ v' = v) ∨ cache_holds c k' v'
}.

(** [BlockCacheKey::serialize] *)
Definition BlockCacheKey_serialize (key : Z * Z) : list Z := put_u32 (key.1) ++ put_u32 (key.2).

(** ** The state: both caches *)

Section CacheCode.
Context `{!VarInt, !ChecksumCodec, !Compressor, !Aead, !TableIndexFb}.
Context {CI CB : Type} `{!CacheLib CI Z TableIndexBuf, !CacheLib CB (Z * nat) Block}.

Record Caches : Type := mkCaches {
  cs_index : CI;
  cs_block : option CB
}.

(** What runs on the shared caches: the result, and the caches after it. *)
Definition cached (A : Type) : Type := Caches → outcome A * Caches.

#[export] Instance cached_ret : MRet cached := λ A a cs, (Ok a, cs).

#[export] Instance cached_bind : MBind cached := λ A B f m cs,
  match m cs with
  | (Ok a, cs') => f a cs'
  | (Err e, cs') => (Err e, cs')
  | (Panic, cs') => (Panic, cs')
  end.

Definition lift {A} (o : outcome A) : cached A := λ cs, (o, cs).

(** Building the caches as [DB::open] does. *)
Definition caches_build (bc : BlockCacheConfig) (ic : IndexCacheConfig) : outcome Caches :=
  block_cache ← block_cache_build bc;
  index_cache ← index_cache_build ic;
  Ok (mkCaches (cache_new index_cache) (cache_new <$> block_cache)).

(** [IndexCache::get], [IndexCache::insert] *)
Definition IndexCache_get (key : Z) : cached (option TableIndexBuf) := λ cs,
  let '(r, c) := cache_get (cs_index cs) key in (Ok r, mkCaches c (cs_block cs)).

Definition IndexCache_insert (key : Z) (val : TableIndexBuf) : cached bool := λ cs,
  (Ok true, mkCaches (cache_insert (cs_index cs) key val) (cs_block cs)).

(** [BlockCache::get], [BlockCache::insert], where there is a block cache *)
Definition BlockCache_get (key : Z * nat) : cached (option Block) := λ cs,
  match cs_block cs with
  | Some block_cache =>
      let '(r, c) := cache_get block_cache key in (Ok r, mkCaches (cs_index cs) (Some c))
  | None => (Ok None, cs)
  end.

Definition BlockCache_insert (key : Z * nat) (block : Block) : cached bool := λ cs,
  match cs_block cs with
  | Some block_cache => (Ok true, mkCaches (cs_index cs) (Some (cache_insert block_cache key block)))
  | None => (Ok false, cs)
  end.

(** ** Tables over the caches *)

(** The index of the file. *)
Definition read_index (t : Table) : outcome TableIndexBuf :=
  data ← read_slice_ref (t_file t) (t_index_start t) (t_index_len t);
  plain ← try_decrypt (t_cipher t) data;
  TableIndexBuf_from_vec plain.

Definition cached_get_index (t : Table) : cached TableIndexBuf :=
  o ← IndexCache_get (t_table_id t);
  match o with
  | Some s => mret s
  | None =>
      index_buf ← lift (read_index t);
      _ ← IndexCache_insert (t_table_id t) index_buf;
      mret index_buf
  end.

(** The block of the file at an index that was read. *)
Definition block_at (t : Table) (table_index_buf : TableIndexBuf) (block_index : nat) : outcome Block :=
  block ← idx (tib_offsets table_index_buf) block_index;
  let block_offset := bob_offset block in
  raw_data ← load_block (t_config t) (t_cipher t) (t_file t) (Z.to_nat block_offset)
               (Z.to_nat (bob_len block));
  block ← Block_deserialize (t_table_id t) block_index block_offset raw_data;
  _ ← (if verifies_blocks (tc_checksum_verify_mode (t_config t)) then Block_verify block
       else Ok ());
  Ok block.

Definition cached_get_block (t : Table) (block_index : nat) (use_cache : bool) : cached Block :=
  if ci_offsets_len (t_cheap_index t) <=? block_index then lift (Err (EMsg "block out of index"))
  else
    o ← BlockCache_get (t_table_id t, block_index);
    match o with
    | Some blk => mret blk
    | None =>
        table_index_buf ← cached_get_index t;
        block ← lift (block_at t table_index_buf block_index);
        if use_cache then _ ← BlockCache_insert (t_table_id t, block_index) block; mret block
        else mret block
    end.

(** [TableInner::verify]; the loop over the blocks goes through the caches. *)
Definition cached_verify_step (t : Table) (i : nat) : cached unit :=
  block ← cached_get_block t i true;
  lift (if verifies_blocks (tc_checksum_verify_mode (t_config t)) then Ok () else Block_verify block).

Fixpoint cached_verify_loop (t : Table) (l : list nat) : cached unit :=
  match l with
  | [] => mret ()
  | i :: l' => _ ← cached_verify_step t i; cached_verify_loop t l'
  end.

Definition cached_verify (t : Table) : cached unit :=
  cached_verify_loop t (seq 0 (ci_offsets_len (t_cheap_index t))).

(** The table [open] makes, before it is verified.  Its caches are the shared
    state, so the lookup functions of the record are empty. *)
Definition open_inner (config : TableConfig) (table_id : Z) (file : list Z)
    (cipher : option AesCipher) : outcome Table :=
  if (tc_block_size config =? 0) && negb (bool_decide (tc_compression config = CNone))
  then Err (EMsg "Block size cannot be zero")
  else
    '(table_index, index_start, index_len) ← init_index file cipher;
    '(smallest, biggest) ← get_smallest_biggest config table_index file cipher;
    Ok (mkTable table_id file (length file) smallest biggest
          (CheapTableIndex_from table_index) None (λ _, None) cipher
          index_start index_len config).

Definition cached_open (config : TableConfig) (table_id : Z) (file : list Z)
    (cipher : option AesCipher) : cached Table :=
  inner ← lift (open_inner config table_id file cipher);
  _ ← match tc_checksum_verify_mode config with
      | OnTableRead | OnTableAndBlockRead => mret ()
      | _ => cached_verify inner
      end;
  mret inner.

Definition cached_may_contain_key (t : Table) (key : KeyTs) : cached bool :=
  if ci_bloom_filter_len (t_cheap_index t) =? 0 then mret true
  else
    table_index_buf ← cached_get_index t;
    lift (bloom ← unwrap (tib_bloom_filter table_index_buf); Ok (may_contain_key bloom (kt_key key))).

(** ** Clients *)

(** What clients ask of tables.  A table is opened under an id; the others name
    the id of a table that was opened. *)
Inductive table_op : Type :=
| OpOpen (config : TableConfig) (id : Z) (file : list Z) (cipher : option AesCipher)
| OpIndex (id : Z)
| OpBlock (id : Z) (block_index : nat) (use_cache : bool)
| OpMayContain (id : Z) (key : KeyTs).

Inductive response : Type :=
| ROpened (t : Table)
| RIndex (ib : TableIndexBuf)
| RBlock (b : Block)
| RMay (b : bool).

Definition cached_step (op : table_op) (tables : gmap Z Table) : cached response :=
  match op with
  | OpOpen config id file cipher => t ← cached_open config id file cipher; mret (ROpened t)
  | OpIndex id => t ← lift (unwrap (tables !! id)); ib ← cached_get_index t; mret (RIndex ib)
  | OpBlock id i use_cache =>
      t ← lift (unwrap (tables !! id)); b ← cached_get_block t i use_cache; mret (RBlock b)
  | OpMayContain id key =>
      t ← lift (unwrap (tables !! id)); b ← cached_may_contain_key t key; mret (RMay b)
  end.

(** The same on the files alone. *)
Definition plain_step (op : table_op) (tables : gmap Z Table) : outcome response :=
  match op with
  | OpOpen config id file cipher =>
      t ← Table_open config id file cipher (λ _, None) None; Ok (ROpened t)
  | OpIndex id => t ← unwrap (tables !! id); ib ← get_index t; Ok (RIndex ib)
  | OpBlock id i _ => t ← unwrap (tables !! id); b ← get_block t i; Ok (RBlock b)
  | OpMayContain id key => t ← unwrap (tables !! id); b ← Table_may_contain_key t key; Ok (RMay b)
  end.

Definition register (r : outcome response) (tables : gmap Z Table) : gmap Z Table :=
  match r with
  | Ok (ROpened t) => <[t_table_id t := t]> tables
  | _ => tables
  end.

Fixpoint cached_run (ops : list table_op) (tables : gmap Z Table) (cs : Caches) :
    list (outcome response) * Caches :=
  match ops with
  | [] => ([], cs)
  | op :: ops' =>
      let '(r, cs') := cached_step op tables cs in
      let '(rs, cs'') := cached_run ops' (register r tables) cs' in
      (r :: rs, cs'')
  end.

Fixpoint plain_run (ops : list table_op) (tables : gmap Z Table) : list (outcome response) :=
  match ops with
  | [] => []
  | op :: ops' =>
      let r := plain_step op tables in
      r :: plain_run ops' (register r tables)
  end.

Definition opened_ids (ops : list table_op) : list Z :=
  omap (λ op, match op with OpOpen _ id _ _ => Some id | _ => None end) ops.

End CacheCode.

Arguments Caches : clear implicits.
Arguments cached : clear implicits.

(* ------------------------------------------------------------------ *)
(** ** Lemmas: the caches cannot be seen *)

(** Keys of the block cache have different bytes. *)
Lemma BlockCacheKey_serialize_inj a b :
  in_width 32 a.1 → in_width 32 a.2 → in_width 32 b.1 → in_width 32 b.2 →
  BlockCacheKey_serialize a = BlockCacheKey_serialize b → a = b.
Proof.
  destruct a as [a1 a2], b as [b1 b2]; cbn [fst snd]. intros Ha1 Ha2 Hb1 Hb2 E.
  pose proof (get_put_u32 a1 (put_u32 a2) Ha1) as G1. unfold BlockCacheKey_serialize in E. cbn [fst snd] in E.
  rewrite E, get_put_u32 in G1 by done. assert (b1 = a1 ∧ put_u32 b2 = put_u32 a2) as [-> G2] by (split; congruence). f_equal.
  apply (f_equal be_decode) in G2. unfold put_u32 in G2. by rewrite !be_decode_encode_id in G2.
Qed.

Section CacheProofs.
Context `{!VarInt, !ChecksumCodec, !Compressor, !Aead, !TableIndexFb}.
Context {CI CB : Type} `{!CacheLib CI Z TableIndexBuf, !CacheLib CB (Z * nat) Block}.
Context `{!CacheLaws CI Z TableIndexBuf, !CacheLaws CB (Z * nat) Block}.

Local Abbreviation caches_of := (Caches CI CB).
Local Abbreviation cached_of := (cached CI CB).

(** A table whose record carries no cache of its own. *)
Definition plain (t : Table) : Prop := t_index_cache t = (λ _, None) ∧ t_block_cache t = None.

(** The tables that were ever made, by id. *)
Definition known_ok (G : gmap Z Table) : Prop :=
  map_Forall (λ id t, t_table_id t = id ∧ plain t) G.

(** What the caches hold is what the file of the table with that id holds. *)
Record coherent (G : gmap Z Table) (cs : caches_of) : Prop := {
  co_index id ib : cache_holds (cs_index cs) id ib → ∃ t, G !! id = Some t ∧ get_index t = Ok ib;
  co_block c id i b : cs_block cs = Some c → cache_holds c (id, i) b →
    ∃ t, G !! id = Some t ∧ get_block t i = Ok b
}.

(** A computation over the caches that answers as [o] and keeps them coherent. *)
Definition simulates (G : gmap Z Table) {A} (m : cached_of A) (o : outcome A) : Prop :=
  ∀ cs, coherent G cs → ∃ cs', m cs = (o, cs') ∧ coherent G cs'.

Lemma sim_lift G {A} (o : outcome A) : simulates G (lift o) o.
Proof. intros cs Hc. by exists cs. Qed.

Lemma sim_ret G {A} (a : A) : simulates G (mret a) (Ok a).
Proof. intros cs Hc. by exists cs. Qed.

Lemma sim_bind G {A B} (m : cached_of A) o (f : A → cached_of B) g :
  simulates G m o → (∀ a, o = Ok a → simulates G (f a) (g a)) →
  simulates G (m ≫= f) (o ≫= g).
Proof.
  intros Hm Hf cs Hc. destruct (Hm cs Hc) as (cs' & E & Hc').
  unfold mbind, cached_bind. rewrite E. destruct o as [a|e|]; [|by exists cs'..].
  by apply Hf.
Qed.

Lemma sim_bind_keep G {A} (m : cached_of A) o (f : A → cached_of A) :
  simulates G m o → (∀ a, o = Ok a → simulates G (f a) (Ok a)) → simulates G (m ≫= f) o.
Proof.
  intros Hm Hf. pose proof (sim_bind G m o f Ok Hm Hf) as H'. by destruct o.
Qed.

Lemma get_index_plain t : plain t → get_index t = read_index t.
Proof. intros [Hi _]. unfold get_index. by rewrite Hi. Qed.

Lemma get_block_plain t i : plain t →
  get_block t i = if ci_offsets_len (t_cheap_index t) <=? i then Err (EMsg "block out of index")
                  else ib ← get_index t; block_at t ib i.
Proof. intros [_ Hb]. unfold get_block. by rewrite Hb. Qed.

Lemma coherent_get_index G cs id r c :
  coherent G cs → cache_get (cs_index cs) id = (r, c) → coherent G (mkCaches c (cs_block cs)).
Proof.
  intros [Hi Hb] E. split; cbn [cs_index cs_block]; [|done].
  intros id' ib Hh. eapply Hi, holds_get_keep; done.
Qed.

Lemma coherent_insert_index G cs id t ib :
  coherent G cs → G !! id = Some t → get_index t = Ok ib →
  coherent G (mkCaches (cache_insert (cs_index cs) id ib) (cs_block cs)).
Proof.
  intros [Hi Hb] Ht E. split; cbn [cs_index cs_block]; [|done].
  intros id' ib' [[-> ->]|Hh]%holds_insert; [by exists t|by apply Hi].
Qed.

Lemma coherent_get_block G cs c k r c' :
  coherent G cs → cs_block cs = Some c → cache_get c k = (r, c') →
  coherent G (mkCaches (cs_index cs) (Some c')).
Proof.
  intros [Hi Hb] Ec E. split; cbn [cs_index cs_block]; [done|].
  intros ? id i b [= <-] Hh. eapply Hb, holds_get_keep; done.
Qed.

Lemma coherent_insert_block G cs c id i t b :
  coherent G cs → cs_block cs = Some c → G !! id = Some t → get_block t i = Ok b →
  coherent G (mkCaches (cs_index cs) (Some (cache_insert c (id, i) b))).
Proof.
  intros [Hi Hb] Ec Ht E. split; cbn [cs_index cs_block]; [done|].
  intros ? id' i' b' [= <-] [[[= -> ->] ->]|Hh]%holds_insert; [by exists t|by eapply Hb].
Qed.

(** ** The operations *)

Section Operations.
Context (G : gmap Z Table) (HG : known_ok G) (t : Table) (Ht : G !! t_table_id t = Some t).

Lemma plain_t : plain t.
Proof. by apply HG in Ht as [_ ?]. Qed.

Lemma sim_get_index : simulates G (cached_get_index t) (get_index t).
Proof.
  intros cs Hc. unfold cached_get_index, IndexCache_get, mbind, cached_bind.
  destruct (cache_get (cs_index cs) (t_table_id t)) as [[s|] c] eqn:E.
  - eexists. split; [|by eapply coherent_get_index].
    apply holds_get in E. destruct (co_index _ _ Hc _ _ E) as (t' & Ht' & Hs).
    simplify_eq. by rewrite Hs.
  - apply (coherent_get_index _ _ _ _ _ Hc) in E. unfold lift. rewrite <- get_index_plain by apply plain_t.
    destruct (get_index t) as [ib|e|] eqn:Eg; eexists; (split; [reflexivity|]); [|done..].
    exact (coherent_insert_index _ _ _ _ _ E Ht Eg).
Qed.

Lemma sim_insert_block i b (use_cache : bool) :
  get_block t i = Ok b →
  simulates G (if use_cache then _ ← BlockCache_insert (t_table_id t, i) b; mret b else mret b) (Ok b).
Proof.
  intros Hb. destruct use_cache; [|apply sim_ret]. intros cs Hc.
  unfold mbind, cached_bind, BlockCache_insert. destruct (cs_block cs) as [c|] eqn:Ec; [|by exists cs].
  eexists. split; [reflexivity|]. by eapply coherent_insert_block.
Qed.

Lemma sim_read_block i (use_cache : bool) :
  (ci_offsets_len (t_cheap_index t) <=? i) = false →
  simulates G (table_index_buf ← cached_get_index t;
               block ← lift (block_at t table_index_buf i);
               if use_cache then _ ← BlockCache_insert (t_table_id t, i) block; mret block
               else mret block)
    (get_block t i).
Proof.
  intros Hlen. pose proof (get_block_plain t i plain_t) as Hg. rewrite Hlen in Hg.
  rewrite Hg. apply sim_bind; [apply sim_get_index|]. intros ib Hib.
  rewrite Hib in Hg. cbn [mbind outcome_bind] in Hg. rewrite <- Hg.
  apply sim_bind_keep; [apply sim_lift|]. intros b Hb. by apply sim_insert_block.
Qed.

Lemma sim_get_block i use_cache : simulates G (cached_get_block t i use_cache) (get_block t i).
Proof.
  unfold cached_get_block. pose proof (get_block_plain t i plain_t) as Hg.
  destruct (ci_offsets_len (t_cheap_index t) <=? i) eqn:Hlen; [rewrite Hg; apply sim_lift|].
  intros cs Hc. unfold mbind at 1, cached_bind at 1, BlockCache_get at 1.
  destruct (cs_block cs) as [c|] eqn:Ec; [|by apply sim_read_block].
  destruct (cache_get c (t_table_id t, i)) as [[b|] c'] eqn:E.
  - eexists. split; [|by eapply coherent_get_block].
    apply holds_get in E. destruct (co_block _ _ Hc _ _ _ _ Ec E) as (t' & Ht' & Hb).
    simplify_eq. by rewrite Hb.
  - apply sim_read_block; [done|]. by eapply coherent_get_block.
Qed.

Lemma sim_may_contain key : simulates G (cached_may_contain_key t key) (Table_may_contain_key t key).
Proof.
  unfold cached_may_contain_key, Table_may_contain_key. case_match; [apply sim_ret|].
  apply sim_bind; [apply sim_get_index|]. intros ib _. apply sim_lift.
Qed.

Lemma sim_verify : simulates G (cached_verify t) (Table_verify t).
Proof.
  unfold cached_verify, Table_verify. generalize (seq 0 (ci_offsets_len (t_cheap_index t))).
  intros l. induction l as [|i l IH]; cbn [cached_verify_loop fold_outcome]; [apply sim_ret|].
  apply sim_bind; [|by intros []].
  unfold cached_verify_step, verify_step. apply sim_bind; [apply sim_get_block|].
  intros b _. apply sim_lift.
Qed.

End Operations.

(** ** Opening, and sequences of operations *)

Lemma open_inner_plain config id file cipher t :
  open_inner config id file cipher = Ok t → t_table_id t = id ∧ plain t.
Proof.
  unfold open_inner. case_match; [done|].
  intros ([[ib a] l] & _ & ([sm bg] & _ & [= <-])%bind_Ok)%bind_Ok. by split.
Qed.

Lemma Table_open_inner config id file cipher :
  Table_open config id file cipher (λ _, None) None =
  (inner ← open_inner config id file cipher;
   _ ← match tc_checksum_verify_mode config with
       | OnTableRead | OnTableAndBlockRead => Ok ()
       | _ => Table_verify inner
       end;
   Ok inner).
Proof.
  unfold Table_open, open_inner. case_match; [done|].
  destruct (init_index file cipher) as [[[ib a] l]|e|]; [|done..]. cbn [mbind outcome_bind].
  by destruct (get_smallest_biggest config ib file cipher) as [[sm bg]|e|].
Qed.

Lemma known_ok_insert G id t :
  known_ok G → t_table_id t = id → plain t → known_ok (<[id := t]> G).
Proof. intros HG Hid Hp. by apply map_Forall_insert_2. Qed.

Lemma coherent_insert G cs id t :
  coherent G cs → G !! id = None → coherent (<[id := t]> G) cs.
Proof.
  intros [Hi Hb] Hn. split.
  - intros id' ib (t' & Ht' & Hg)%Hi. exists t'. split; [|done].
    rewrite lookup_insert_ne; [done|congruence].
  - intros c id' i b Ec (t' & Ht' & Hg)%(Hb _ _ _ _ Ec). exists t'. split; [|done].
    rewrite lookup_insert_ne; [done|congruence].
Qed.

(** Opening under an id that was never used: the table is known afterwards. *)
Lemma sim_open G config id file cipher :
  known_ok G → G !! id = None →
  ∃ G', known_ok G' ∧ G ⊆ G' ∧ dom G' ⊆ dom G ∪ {[id]} ∧
    (∀ cs, coherent G cs → coherent G' cs) ∧
    (∀ t, open_inner config id file cipher = Ok t → G' !! id = Some t) ∧
    simulates G' (cached_open config id file cipher)
      (Table_open config id file cipher (λ _, None) None).
Proof.
  intros HG Hn. rewrite Table_open_inner.
  destruct (open_inner config id file cipher) as [t|e|] eqn:E.
  2-3: exists G; split_and!; [done..|set_solver|done|done|];
       unfold cached_open; rewrite E; apply sim_bind; [apply sim_lift|done].
  pose proof (open_inner_plain _ _ _ _ _ E) as [Hid Hp].
  assert (known_ok (<[id := t]> G)) as HG' by by apply known_ok_insert.
  exists (<[id := t]> G). split_and!; [done|by apply insert_subseteq|set_solver| | |].
  - intros cs Hc. by apply coherent_insert.
  - intros ? [= <-]. apply lookup_insert_eq.
  - unfold cached_open. rewrite E. apply sim_bind; [apply sim_lift|]. intros ? [= <-].
    apply sim_bind; [|intros; apply sim_ret].
    assert (<[id := t]> G !! t_table_id t = Some t) as Ht by (rewrite Hid; apply lookup_insert_eq).
    pose proof (sim_verify _ HG' t Ht) as Hv.
    destruct (tc_checksum_verify_mode config); auto using sim_ret.
Qed.

Definition op_id (op : table_op) : option Z :=
  match op with OpOpen _ id _ _ => Some id | _ => None end.

Lemma register_read op tables : op_id op = None → register (plain_step op tables) tables = tables.
Proof.
  destruct op as [|id|id i uc|id key]; [done|intros _; cbn [plain_step]..];
    destruct (tables !! id) as [t|]; try done; cbn [unwrap mbind outcome_bind].
  - by destruct (get_index t).
  - by destruct (get_block t i).
  - by destruct (Table_may_contain_key t key).
Qed.

(** One operation, whatever the table. *)
Lemma sim_step G (tables : gmap Z Table) op :
  known_ok G → tables ⊆ G → (∀ id, op_id op = Some id → G !! id = None) →
  ∃ G', known_ok G' ∧ register (plain_step op tables) tables ⊆ G' ∧
    dom G' ⊆ dom G ∪ list_to_set (option_list (op_id op)) ∧
    (∀ cs, coherent G cs → coherent G' cs) ∧
    simulates G' (cached_step op tables) (plain_step op tables).
Proof.
  intros HG Hsub Hfresh. destruct op as [config id file cipher|id|id i uc|id key].
  { destruct (sim_open G config id file cipher) as (G' & HG' & Hss & Hd & Hc & Hin & Hs);
      [done|by apply Hfresh|].
    exists G'. split_and!; [done| |set_solver|done|].
    - cbn [plain_step]. destruct (Table_open _ _ _ _ _ _) as [t|e|] eqn:E; cbn [mbind outcome_bind register];
        [|by etrans..].
      rewrite Table_open_inner in E. apply bind_Ok in E as (t' & Eo & ([] & _ & [= ->])%bind_Ok).
      destruct (open_inner_plain _ _ _ _ _ Eo) as [Hid _]. rewrite Hid.
      apply insert_subseteq_l; [by apply Hin|]. by etrans.
    - apply sim_bind; [done|]. intros; apply sim_ret. }
  all: exists G; split_and!; [done| |set_solver|done|].
  1,3,5: by rewrite register_read.
  all: cbn [cached_step plain_step]; destruct (tables !! id) as [t|] eqn:E; [|apply sim_lift].
  all: pose proof (lookup_weaken _ _ _ _ E Hsub) as Ht; pose proof (HG _ _ Ht) as [Hid _]; subst id.
  all: apply sim_bind; [apply sim_lift|]; intros ? [= <-]; apply sim_bind; [|intros; apply sim_ret].
  - by apply sim_get_index.
  - by apply sim_get_block.
  - by apply sim_may_contain.
Qed.

Lemma opened_ids_cons op ops : opened_ids (op :: ops) = option_list (op_id op) ++ opened_ids ops.
Proof. by destruct op. Qed.

Lemma cached_run_sim ops G (tables : gmap Z Table) cs :
  known_ok G → tables ⊆ G → coherent G cs →
  NoDup (opened_ids ops) → (∀ id, id ∈ opened_ids ops → G !! id = None) →
  (cached_run ops tables cs).1 = plain_run ops tables.
Proof.
  revert G tables cs. induction ops as [|op ops IH]; intros G tables cs HG Hsub Hc Hnd Hfr; [done|].
  rewrite opened_ids_cons in Hnd, Hfr. apply NoDup_app in Hnd as (_ & Hdis & Hnd).
  destruct (sim_step G tables op) as (G' & HG' & Hsub' & Hd & Hc' & Hs); [done|done| |].
  { intros id Hid. apply Hfr. rewrite Hid. set_solver. }
  destruct (Hs cs (Hc' _ Hc)) as (cs' & E & Hcs'). cbn [cached_run plain_run]. rewrite E.
  specialize (IH G' (register (plain_step op tables) tables) cs' HG' Hsub' Hcs' Hnd).
  destruct (cached_run ops _ cs') as [rs cs''] eqn:Er. cbn [fst] in *. f_equal. apply IH.
  intros id Hid. apply not_elem_of_dom. intros [Hin|Hin]%Hd%elem_of_union.
  - apply elem_of_dom in Hin as [t Ht]. rewrite Hfr in Ht; [done|set_solver].
  - apply elem_of_list_to_set in Hin. by apply (Hdis id).
Qed.

Lemma caches_build_coherent bc ic (cs : caches_of) : caches_build bc ic = Ok cs → coherent ∅ cs.
Proof.
  unfold caches_build. intros (b & _ & (n & _ & [= <-])%bind_Ok)%bind_Ok. split; cbn [cs_index cs_block].
  - intros id ib Hh. by apply holds_new in Hh.
  - intros c id i bl Ec Hh. destruct b as [m|]; [|done]. cbn in Ec. injection Ec as <-.
    by apply holds_new in Hh.
Qed.

(** C16: With the caches that a database builds, every sequence of openings and
    reads of tables, from any number of clients, gets the answers it would get
    from the files alone, errors and panics included, as long as no table id is
    used for two tables: whatever the caches drop, whether reads ask for blocks to
    be kept or not, and also after an opening that failed half-way. *)
Theorem caches_transparent bc ic (cs : caches_of) ops :
  caches_build bc ic = Ok cs → NoDup (opened_ids ops) →
  (cached_run ops ∅ cs).1 = plain_run ops ∅.
Proof.
  intros Hb Hnd. apply (cached_run_sim ops ∅); [apply map_Forall_empty|done| |done|done].
  by eapply caches_build_coherent.
Qed.

(** At every moment the lookups of the caches are what the theorems on tables ask
    for: coherent with the file of the table. *)
Lemma coherent_lookups G (cs : caches_of) config id file cipher t :
  coherent G cs → known_ok G → G !! id = Some t →
  Table_open config id file cipher (λ _, None) None = Ok t →
  caches_coherent config id file cipher (λ k, (cache_get (cs_index cs) k).1)
    ((λ c k, (cache_get c k).1) <$> cs_block cs).
Proof.
  intros Hc HG Ht Ho t0 Ho'. rewrite Ho in Ho'. injection Ho' as <-. split.
  - intros s Hs. destruct (cache_get _ id) as [r c] eqn:E. cbn in Hs. subst r.
    apply holds_get in E. destruct (co_index _ _ Hc _ _ E) as (t' & Ht' & ?). by simplify_eq.
  - intros f i b Hf Hb. destruct (cs_block cs) as [c|] eqn:Ec; [|done]. cbn in Hf. injection Hf as <-.
    destruct (cache_get c (id, i)) as [r c'] eqn:E. cbn in Hb. subst r.
    apply holds_get in E. destruct (co_block _ _ Hc _ _ _ _ Ec E) as (t' & Ht' & ?). by simplify_eq.
Qed.

End CacheProofs.

(** ** A cache with a bound *)

(** The entries, the most recently used first, and how many are kept. *)
Record Lru (K V : Type) : Type := mkLru {
  lru_capacity : nat;
  lru_entries : list (K * V)
}.

Arguments mkLru {K V}.
Arguments lru_capacity {K V}.
Arguments lru_entries {K V}.

Section LruCache.
Context {K V : Type} `{EqDecision K}.

Definition lru_find (k : K) (l : list (K * V)) : option V := (λ p, p.2.2) <$> list_find (λ e, e.1 = k) l.

Definition lru_use (c : Lru K V) (k : K) (v : V) : Lru K V :=
  mkLru (lru_capacity c) (take (lru_capacity c) ((k, v) :: filter (λ e, e.1 ≠ k) (lru_entries c))).

#[export] Instance lru_lib : CacheLib (Lru K V) K V | 100 := {|
  cache_new n := mkLru (Z.to_nat n) [];
  cache_get c k := match lru_find k (lru_entries c) with
                   | Some v => (Some v, lru_use c k v)
                   | None => (None, c)
                   end;
  cache_insert := lru_use
|}.

Lemma lru_find_elem k l v : lru_find k l = Some v → (k, v) ∈ l.
Proof.
  unfold lru_find. destruct (list_find _ l) as [[i [k' v']]|] eqn:E; [|done]. cbn.
  apply list_find_Some in E as (Hi & Hk & _). cbn in Hk. intros [= <-]. subst k'.
  by eapply list_elem_of_lookup_2.
Qed.

Lemma lru_use_elem c k v e : e ∈ lru_entries (lru_use c k v) → e = (k, v) ∨ e ∈ lru_entries c.
Proof.
  unfold lru_use. cbn [lru_entries]. intros He%(subseteq_take _ _ _).
  apply elem_of_cons in He as [He|He]; [by left|right]. by apply list_elem_of_filter in He as [_ He].
Qed.

#[export] Instance lru_laws : CacheLaws (Lru K V) K V | 100.
Proof.
  refine {| cache_holds c k v := (k, v) ∈ lru_entries c |}.
  - intros n k v. apply not_elem_of_nil.
  - intros c k v c'. cbn [cache_get lru_lib]. destruct (lru_find _ _) eqn:E; [|done].
    intros [= <- _]. by apply lru_find_elem.
  - intros c k r c' k' v. cbn [cache_get lru_lib]. destruct (lru_find _ _) eqn:E; [|by intros [= _ <-]].
    intros [= _ <-] [[= -> ->]|?]%lru_use_elem; [by apply lru_find_elem|done].
  - intros c k v k' v' [[= -> ->]|?]%lru_use_elem; auto.
Defined.

End LruCache.

(** ** Witnesses *)

Module CacheExamples.
Import BuildExamples.

Definition caches : Type := Caches (Lru Z TableIndexBuf) (Lru (Z * nat) Block).

(** Room for two blocks and for one index. *)
Definition bcfg : BlockCacheConfig := mkBlockCacheConfig 160 80.
Definition icfg : IndexCacheConfig := mkIndexCacheConfig 10 100.

Definition built : caches := mkCaches (cache_new 1) (Some (cache_new 2)).

Definition file_b : list Z := get_file (build_table config cipher [mk 9 3 [7]%Z false]).

Definition ops : list table_op :=
  [OpOpen config 1 file cipher; OpOpen config 2 file_b cipher;
   OpBlock 1 0 true; OpBlock 2 0 false; OpBlock 1 0 true; OpBlock 1 9 true;
   OpIndex 2; OpMayContain 1 (mkKeyTs [1; 2; 3]%Z 100); OpIndex 7].

Lemma caches_transparent_witness :
  (cached_run ops ∅ built).1 = plain_run ops ∅ ∧ length (plain_run ops ∅) = 9.
Proof.
  split; [|reflexivity].
  apply (caches_transparent bcfg icfg built ops); [reflexivity|].
  repeat constructor; set_solver.
Defined.

(** Both files under one id: the second table is given a block of the first. *)
Definition same_id : list table_op :=
  [OpOpen config 1 file cipher; OpOpen config 1 file_b cipher; OpBlock 1 0 true].

Definition block_data (o : option (outcome response)) : list Z :=
  match o with Some (Ok (RBlock b)) => bk_data b | _ => [] end.

Lemma same_id_is_stale :
  block_data ((cached_run same_id ∅ built).1 !! 2) ≠ block_data (plain_run same_id ∅ !! 2).
Proof. vm_compute. discriminate. Qed.

End CacheExamples.
