(* ===== verification/VlogOpen.v ===== *)
(** * VlogOpen: opening the value log

    [ValueLog::new], [ValueLog::open] and [populate_files_map] of
    src/src/vlog/mod.rs over the log files (Vlog.v) and [LogFile::open]
    (MemTable.v).

    The directory is the list of its log files in the order [read_dir] gives
    them, each its identifier, as [VlogId::parse] reads it from the name, and its
    bytes.  A deleted file has no bytes: its map is gone, and reading it, undefined
    in the code, is [Panic].  The files of an open log are mapped, so that its
    bytes are those the next [open] finds. *)
From stdpp Require Import base list list_numbers gmap strings sets.
From Stdlib Require Import ZArith Lia.
From S2P Require Import Prelude Util VarInt Kv Pb Storage Vlog MemTable.

Local Open Scope nat_scope.

(** The loop of [populate_files_map]: the files seen, the log and the files
    deleted. *)
Record Populate : Type := mkPopulate {
  pp_found : gset Z;
  pp_vlog : ValueLog;
  pp_deleted : list Z
}.

Definition with_files (vl : ValueLog) (files : gmap Z LogFile) (max_fid : Z) : ValueLog :=
  mkValueLog files max_fid (vl_writable_log_offset vl) (vl_num_entries_written vl) (vl_config vl).

(** [LogFile::delete] *)
Definition log_delete (lf : LogFile) : LogFile :=
  mkLogFile (lf_fid lf) (lf_cipher lf) (lf_base_nonce lf) [].

(** [ValueLog::new] *)
Definition ValueLog_new (cfg : ValueLogConfig) : ValueLog := mkValueLog ∅ 0 0 0 cfg.

Section VlogOpenCode.
Context `{!VarInt, !VarIntRead, !ChecksumCodec, !Aead}.
Context (kr : Registry).

(** One file of the directory.  An empty file is taken for a new one. *)
Definition populate_file (st : Populate) (file : Z * list Z) : outcome Populate :=
  let '(fid, bytes) := file in
  let vl := pp_vlog st in
  if bool_decide (fid ∈ pp_found st) then Err (EMsg "Duplicate file found. Please delete one.")
  else
    '(log_file, _, _) ← LogFile_open kr (nonce_at (Z.to_nat fid)) fid bytes
                          (2 * vc_vlog_file_size (vl_config vl));
    let empty := length (lf_bytes log_file) =? VLOG_HEADER_SIZE in
    let log_file := if empty then log_delete log_file else log_file in
    Ok (mkPopulate ({[fid]} ∪ pp_found st)
          (with_files vl (<[fid := log_file]> (vl_fid_logfile vl)) (Z.max (vl_max_fid vl) fid))
          (if empty then pp_deleted st ++ [fid] else pp_deleted st)).

Definition populate_files_map (vl : ValueLog) (dir : list (Z * list Z)) : outcome (ValueLog * list Z) :=
  st ← fold_outcome populate_file (mkPopulate ∅ vl []) dir;
  Ok (pp_vlog st, pp_deleted st).

(** [ValueLog::open]: the log and the files it deleted.  The last file is read to
    its valid end and cut there, and a new file is begun. *)
Definition ValueLog_open (read_only : bool) (vl : ValueLog) (dir : list (Z * list Z)) :
    outcome (ValueLog * list Z) :=
  '(vl, deleted) ← populate_files_map vl dir;
  if read_only then Ok (vl, deleted)
  else
    vl ← (if size (vl_fid_logfile vl) =? 0 then Ok vl
          else
            last_logfile ← get_latest_logfile vl;
            it ← LogFileIter_new last_logfile VLOG_HEADER_SIZE;
            '(_, file_len) ← drain_log (S (length (lf_bytes last_logfile))) it [];
            Ok (with_files vl (<[vl_max_fid vl := log_truncate last_logfile file_len]> (vl_fid_logfile vl))
                  (vl_max_fid vl)));
    latest ← kr_latest_cipher kr;
    vl ← create_vlog_file latest vl;
    Ok (vl, deleted).

End VlogOpenCode.

(* ------------------------------------------------------------------ *)
(** ** Lemmas: files that were written and closed *)

(** A file of the map that is still in the directory. *)
Definition present (x : Z * LogFile) : Prop := lf_bytes x.2 ≠ [].

#[global] Instance present_dec x : Decision (present x).
Proof. unfold present. apply _. Defined.

Section OpenLemmas.
Context `{!VarInt, !VarIntLaws, !VarIntRead, !VarIntReadLaws, !ChecksumCodec, !ChecksumLaws, !Aead, !AeadLaws}.
Context (kr : Registry).

Definition file_header (lf : LogFile) : list Z := put_u64 (cipher_id (lf_cipher lf)) ++ lf_base_nonce lf.

(** The bytes of the file say what the file is. *)
Definition closed_file (fid : Z) (lf : LogFile) : Prop :=
  lf_fid lf = fid ∧ length (lf_base_nonce lf) = 12 ∧
  kr_get_cipher kr (cipher_id (lf_cipher lf)) = Ok (lf_cipher lf) ∧ in_width 64 (cipher_id (lf_cipher lf)) ∧
  ∃ rest, lf_bytes lf = file_header lf ++ rest.

Lemma length_file_header lf : length (lf_base_nonce lf) = 12 → length (file_header lf) = VLOG_HEADER_SIZE.
Proof. intros Hn. unfold file_header. by rewrite length_app, length_put_u64, Hn. Qed.

Lemma closed_file_opens n fid lf fsize :
  closed_file fid lf → LogFile_open kr n fid (lf_bytes lf) fsize = Ok (lf, 0, false).
Proof.
  intros (Hfid & Hn & Hget & Hw & rest & Hb). rewrite Hb. unfold file_header.
  rewrite LogFile_open_bytes by done. destruct lf; cbn in *; subst. done.
Qed.

(** A file the opening finds: one without entries is deleted. *)
Definition opened_file (lf : LogFile) : LogFile :=
  if length (lf_bytes lf) =? VLOG_HEADER_SIZE then log_delete lf else lf.

Definition on_disk (L : list (Z * LogFile)) : list (Z * list Z) := prod_map id lf_bytes <$> L.

Lemma populate_one st fid lf :
  closed_file fid lf → fid ∉ pp_found st →
  ∃ st', populate_file kr st (fid, lf_bytes lf) = Ok st' ∧ pp_found st' = {[fid]} ∪ pp_found st ∧
    pp_vlog st' = with_files (pp_vlog st) (<[fid := opened_file lf]> (vl_fid_logfile (pp_vlog st)))
                    (Z.max (vl_max_fid (pp_vlog st)) fid).
Proof.
  intros Hf Hni. unfold populate_file. rewrite bool_decide_false by done.
  rewrite (closed_file_opens _ _ lf _ Hf). cbn [mbind outcome_bind]. by eexists.
Qed.

Lemma populate_spec L : ∀ st,
  Forall (λ x, closed_file x.1 x.2) L → NoDup L.*1 → (∀ fid, fid ∈ L.*1 → fid ∉ pp_found st) →
  ∃ st', fold_outcome (populate_file kr) st (on_disk L) = Ok st' ∧
    (∀ fid lf, (fid, lf) ∈ L → vl_fid_logfile (pp_vlog st') !! fid = Some (opened_file lf)) ∧
    (∀ fid, fid ∉ L.*1 → vl_fid_logfile (pp_vlog st') !! fid = vl_fid_logfile (pp_vlog st) !! fid) ∧
    vl_max_fid (pp_vlog st') = foldl (λ m x, Z.max m (fst x)) (vl_max_fid (pp_vlog st)) L ∧
    vl_config (pp_vlog st') = vl_config (pp_vlog st).
Proof.
  induction L as [|[fid lf] L IH]; intros st Hcl Hnd Hfr.
  { exists st. split_and!; [done|by intros ?? ?%elem_of_nil|done|done|done]. }
  apply Forall_cons in Hcl as [Hf Hcl]. rewrite fmap_cons in Hnd, Hfr. apply NoDup_cons in Hnd as [Hni Hnd].
  cbn [fst snd] in *. unfold on_disk. rewrite fmap_cons. cbn [prod_map fst snd id fold_outcome].
  destruct (populate_one st fid lf Hf) as (st1 & -> & Hfound & Hvl); [apply Hfr; left|].
  cbn [mbind outcome_bind].
  destruct (IH st1 Hcl Hnd) as (st' & Hr & Hin & Hout & Hmax & Hcfg).
  { intros i Hi. rewrite Hfound, elem_of_union, elem_of_singleton.
    intros [->|Hi']; [done|]. by eapply Hfr; [right|]. }
  rewrite Hvl in *. exists st'. split_and!; [done| | |done|done].
  - intros i l [[= -> ->]|Hi]%elem_of_cons; [|by apply Hin].
    rewrite Hout by done. cbn. by rewrite lookup_insert_eq.
  - intros i [Hne Hi]%not_elem_of_cons. rewrite Hout by done. cbn. by rewrite lookup_insert_ne.
Qed.

(** A file of the map is closed or deleted. *)
Definition file_ok (max_fid fid : Z) (lf : LogFile) : Prop :=
  (lf_bytes lf = [] ∨ closed_file fid lf) ∧ (0 <= fid <= max_fid)%Z.

(** The files of an open log, as the next opening finds them in some order. *)
Definition disk_of (vl : ValueLog) (dir : list (Z * list Z)) : Prop :=
  ∃ L, L ≡ₚ filter present (map_to_list (vl_fid_logfile vl)) ∧ dir = on_disk L.

Lemma populate_disk vl dir lfm :
  (∀ fid lf, vl_fid_logfile vl !! fid = Some lf → file_ok (vl_max_fid vl) fid lf) →
  vl_fid_logfile vl !! vl_max_fid vl = Some lfm → lf_bytes lfm ≠ [] → disk_of vl dir →
  ∃ vl' deleted, populate_files_map kr (ValueLog_new (vl_config vl)) dir = Ok (vl', deleted) ∧
    vl_fid_logfile vl' = opened_file <$> filter present (vl_fid_logfile vl) ∧ vl_max_fid vl' = vl_max_fid vl ∧
    vl_config vl' = vl_config vl.
Proof.
  intros Hall Hm Hnd (L & HL & ->).
  assert (∀ fid lf, (fid, lf) ∈ L ↔ vl_fid_logfile vl !! fid = Some lf ∧ present (fid, lf)) as Hel.
  { intros fid lf. rewrite HL, list_elem_of_filter, elem_of_map_to_list. tauto. }
  destruct (populate_spec L (mkPopulate ∅ (ValueLog_new (vl_config vl)) [])) as (st & Hr & Hin & Hout & Hmax & Hc).
  { apply Forall_forall. intros [fid lf] [Hx Hp]%Hel. by destruct (Hall _ _ Hx) as [[?|?] _]. }
  { rewrite HL. eapply (sublist_NoDup _ (map_to_list (vl_fid_logfile vl)).*1); [|apply fmap_sublist, sublist_filter].
    apply NoDup_fst_map_to_list. }
  { intros fid _. cbn. set_solver. }
  unfold populate_files_map. rewrite Hr. cbn [mbind outcome_bind]. do 2 eexists. split_and!; [done| | |done].
  - apply map_eq. intros fid. rewrite lookup_fmap.
    destruct (filter present (vl_fid_logfile vl) !! fid) as [lf|] eqn:Ef; cbn.
    + apply map_lookup_filter_Some in Ef. by apply Hin, Hel.
    + rewrite Hout; [done|]. intros ([i lf] & -> & [Hi Hp]%Hel)%list_elem_of_fmap. cbn in *.
      apply map_lookup_filter_None in Ef as [Ef|Ef]; [congruence|]. by eapply Ef.
  - rewrite Hmax. cbn. destruct (foldl_max_spec (fst : Z * LogFile → Z) L 0) as (_ & Hle & Hat).
    assert ((vl_max_fid vl, lfm) ∈ L) as Hl by by apply Hel. specialize (Hle _ Hl). cbn in Hle.
    destruct Hat as [Hat|([i lf] & [Hi _]%Hel & Hat)]; rewrite Hat in *; cbn in *; destruct (Hall _ _ Hm); [lia|].
    destruct (Hall _ _ Hi). lia.
Qed.

End OpenLemmas.

(* ------------------------------------------------------------------ *)
(** ** Lemmas: the latest file of a log without a cipher *)

Section PlainLog.
Context `{!VarInt, !VarIntLaws, !VarIntRead, !VarIntReadLaws, !ChecksumCodec, !ChecksumLaws, !Aead, !AeadLaws}.
Context (kr : Registry).

(** The file holds the entries [es] up to the write offset. *)
Definition plain_log (lf : LogFile) (off : nat) (es : list Entry) : Prop :=
  lf_cipher lf = None ∧ Forall entry_fits es ∧ log_holds (file_header lf) lf es ∧
  off = VLOG_HEADER_SIZE + length (log_content es) ∧ VLOG_HEADER_SIZE < length (lf_bytes lf).

Lemma same_file_header lf lf' : same_file lf lf' → file_header lf' = file_header lf.
Proof. intros (_ & Hc & Hn). unfold file_header. by rewrite Hc, Hn. Qed.

Lemma entry_fits_written e th : entry_fits e → entry_fits (without_txn (Entry_try_set_value_threshold e th)).
Proof. unfold Entry_try_set_value_threshold. case_match; done. Qed.

Lemma plain_append lf off es e :
  plain_log lf off es → entry_fits e →
  let end_offset := off + length (entry_bytes e) in
  ∃ lf', write_slice (if length (lf_bytes lf) <=? end_offset then log_truncate lf end_offset else lf) off
           (entry_bytes e) = Ok lf' ∧ same_file lf lf' ∧ plain_log lf' end_offset (es ++ [e]).
Proof.
  intros (Hc & Hfit & (Hpre & n & Hb) & Hoff & Hlen) He end_offset. rewrite app_assoc in Hb.
  assert (length (file_header lf ++ log_content es) = off) as Hl by (rewrite length_app; lia).
  set (lf1 := if length (lf_bytes lf) <=? end_offset then log_truncate lf end_offset else lf).
  assert (∃ m, lf_bytes lf1 = (file_header lf ++ log_content es) ++ replicate m 0%Z ∧
    length (entry_bytes e) <= m ∧ same_file lf lf1 ∧ VLOG_HEADER_SIZE < length (lf_bytes lf1))
    as (m & Hb1 & Hm & Hs1 & Hl1).
  { unfold lf1. case_if.
    - exists (end_offset - off). rewrite <- Hl.
      assert (lf_bytes (log_truncate lf end_offset) = (file_header lf ++ log_content es) ++
        replicate (end_offset - length (file_header lf ++ log_content es)) 0%Z) as Ht by by eapply log_truncate_zeros.
      split_and!; [done|unfold end_offset; lia|done|]. rewrite Ht, length_app, length_replicate, Hl.
      unfold end_offset. rewrite length_entry_bytes. lia.
    - exists n. rewrite Hb, length_app, length_replicate in E. split_and!; [done|unfold end_offset in E; lia|done|done]. }
  destruct (write_slice_appends _ lf1 es e m Hpre Hb1 Hm) as (lf' & Hw & Hs' & Hh' & Hl').
  rewrite <- Hoff in Hw. exists lf'. pose proof (same_file_trans _ _ _ Hs1 Hs') as Hs. split_and!; [done|done|].
  split_and!.
  - destruct Hs as (_ & -> & _). done.
  - by apply Forall_app_2, Forall_singleton.
  - by rewrite (same_file_header _ _ Hs).
  - unfold end_offset. rewrite log_content_snoc, length_app. lia.
  - by rewrite Hl'.
Qed.

Lemma write_one_plain th lf off w x es lf' off' w' y :
  plain_log lf off es → entry_fits x.1 → write_one th (lf, off, w) x = Ok (lf', off', w', y) →
  same_file lf lf' ∧ ∃ es', plain_log lf' off' es'.
Proof.
  intros Hp Hfit. destruct x as [e vptr]. unfold write_one. cbn [fst] in Hfit.
  case_if; [intros [= <- <- <- <-]; split; [done|by exists es]|].
  rewrite encode_entry_plain by apply Hp. cbn [mbind outcome_bind].
  destruct (plain_append lf off es (without_txn (Entry_try_set_value_threshold e th)) Hp) as (lf1 & -> & Hs & Hp').
  { by apply entry_fits_written. }
  cbn [mbind outcome_bind]. intros [= <- <- <- <-]. split; [done|]. by eexists.
Qed.

Lemma write_entries_plain th r : ∀ lf off w es lf' off' w' r',
  plain_log lf off es → Forall (λ x, entry_fits x.1) r → write_entries th (lf, off, w) r = Ok (lf', off', w', r') →
  same_file lf lf' ∧ ∃ es', plain_log lf' off' es'.
Proof.
  induction r as [|x r IH]; intros lf off w es lf' off' w' r' Hp Hfit; cbn [write_entries].
  { intros [= <- <- <- <-]. split; [done|by exists es]. }
  apply Forall_cons in Hfit as [Hx Hfit].
  destruct (write_one th (lf, off, w) x) as [[[[lf1 off1] w1] y]| |] eqn:E1; cbn [mbind outcome_bind]; [|done..].
  destruct (write_one_plain _ _ _ _ _ _ _ _ _ _ Hp Hx E1) as (Hs1 & es1 & Hp1).
  destruct (write_entries th (lf1, off1, w1) r) as [[[[lf2 off2] w2] ys]| |] eqn:E2; cbn [mbind outcome_bind]; [|done..].
  intros [= <- <- <- <-]. destruct (IH _ _ _ _ _ _ _ _ Hp1 Hfit E2) as (Hs2 & Hp2).
  split; [by eapply same_file_trans|done].
Qed.

(** ** The invariant of a log without a cipher *)

Definition vlog_inv (vl : ValueLog) : Prop :=
  (∀ fid lf, vl_fid_logfile vl !! fid = Some lf → file_ok kr (vl_max_fid vl) fid lf) ∧
  (∃ lf es, vl_fid_logfile vl !! vl_max_fid vl = Some lf ∧ plain_log lf (vl_writable_log_offset vl) es) ∧
  VLOG_HEADER_SIZE < 2 * vc_vlog_file_size (vl_config vl).

Lemma latest_closed vl lf es :
  (∀ fid lf, vl_fid_logfile vl !! fid = Some lf → file_ok kr (vl_max_fid vl) fid lf) →
  vl_fid_logfile vl !! vl_max_fid vl = Some lf → plain_log lf (vl_writable_log_offset vl) es →
  closed_file kr (vl_max_fid vl) lf ∧ (0 <= vl_max_fid vl)%Z.
Proof.
  intros Hall Hlf (_ & _ & _ & _ & Hlen). destruct (Hall _ _ Hlf) as [[Hb|Hc] Hr]; [rewrite Hb in Hlen; cbn in Hlen; lia|].
  split; [done|lia].
Qed.

Lemma vlog_inv_ok vl : vlog_inv vl → vl_ok vl.
Proof.
  intros (Hall & (lf & es & Hlf & Hp) & _). destruct (latest_closed _ _ _ Hall Hlf Hp) as [(Hfid & Hn & _) Hr].
  destruct Hp as (_ & _ & _ & Hoff & _). split_and!; [lia|lia|]. exists lf. split_and!; [done|done|lia].
Qed.

(** A file whose entries were changed is as closed as before. *)
Lemma closed_same fid lf lf' es off :
  closed_file kr fid lf → same_file lf lf' → plain_log lf' off es → closed_file kr fid lf'.
Proof.
  intros (Hfid & Hn & Hg & Hw & _) (Hf' & Hc' & Hn') (_ & _ & (_ & n & Hb) & _).
  split_and!; [congruence|by rewrite Hn'|by rewrite Hc'|by rewrite Hc'|]. by eexists.
Qed.

(** Cutting a file at its end, after the header, keeps the header. *)
Lemma closed_truncate fid lf n :
  closed_file kr fid lf → VLOG_HEADER_SIZE <= n → closed_file kr fid (log_truncate lf n).
Proof.
  intros (Hfid & Hnn & Hg & Hw & rest & Hb) Hn. split_and!; [done..|].
  change (file_header (log_truncate lf n)) with (file_header lf). cbn [log_truncate lf_bytes]. rewrite Hb.
  rewrite take_app_ge by (by rewrite length_file_header). rewrite <- app_assoc. by eexists.
Qed.

(** A new file. *)
Lemma create_inv vl :
  registry_gives kr None → (∀ fid lf, vl_fid_logfile vl !! fid = Some lf → file_ok kr (vl_max_fid vl) fid lf) →
  (0 <= vl_max_fid vl)%Z → (vl_max_fid vl + 1 < 2 ^ 32)%Z →
  VLOG_HEADER_SIZE < 2 * vc_vlog_file_size (vl_config vl) →
  ∃ vl' lf, create_vlog_file None vl = Ok vl' ∧ vlog_inv vl' ∧ vl_max_fid vl' = (vl_max_fid vl + 1)%Z ∧
    vl_fid_logfile vl' = <[(vl_max_fid vl + 1)%Z := lf]> (vl_fid_logfile vl) ∧ vl_config vl' = vl_config vl.
Proof.
  intros (_ & Hget & Hw) Hall Hpos Hmax Hsz. unfold create_vlog_file. rewrite u32_add_Ok by lia.
  cbn [mbind outcome_bind]. set (fid := (vl_max_fid vl + 1)%Z). set (nonce := nonce_at (Z.to_nat fid)).
  set (lf := LogFile_new fid None nonce _).
  assert (length nonce = 12) as Hn by apply length_nonce_at.
  assert (closed_file kr fid lf) as Hcl by (split_and!; [done|done|done|done|by eexists]).
  eexists _, lf. split_and!; [done| |done|done|done]. split_and!; cbn [vl_fid_logfile vl_max_fid vl_config].
  - intros i l [[<- <-]|[Hne Hl]]%lookup_insert_Some.
    + split; [by right|lia].
    + destruct (Hall _ _ Hl) as [? ?]. split; [done|lia].
  - exists lf, []. rewrite lookup_insert_eq. split_and!; [done|]. split_and!; [done|done|by apply new_log_holds|done|].
    change (lf_bytes lf) with (file_header lf ++ replicate (2 * vc_vlog_file_size (vl_config vl) - length (file_header lf)) 0%Z).
    rewrite length_app, length_replicate, length_file_header by done. lia.
  - done.
Qed.

(** The latest file after a change behind the write offset. *)
Lemma update_inv vl lf lf' es off cnt :
  vlog_inv vl → vl_fid_logfile vl !! vl_max_fid vl = Some lf → same_file lf lf' → plain_log lf' off es →
  vlog_inv (mkValueLog (<[vl_max_fid vl := lf']> (vl_fid_logfile vl)) (vl_max_fid vl) off cnt (vl_config vl)).
Proof.
  intros (Hall & (lf0 & es0 & Hlf0 & Hp0) & Hsz) Hlf Hs Hp. assert (lf0 = lf) as -> by congruence.
  destruct (latest_closed _ _ _ Hall Hlf Hp0) as [Hcl Hpos]. split_and!; cbn [vl_fid_logfile vl_max_fid vl_config].
  - intros i l [[<- <-]|[Hne Hl]]%lookup_insert_Some; [|by apply Hall].
    split; [right; by eapply closed_same|lia].
  - exists lf', es. by rewrite lookup_insert_eq.
  - done.
Qed.

(** Cutting the latest file at the write offset: what a new file is added to. *)
Lemma truncated_files vl lf :
  vlog_inv vl → vl_fid_logfile vl !! vl_max_fid vl = Some lf →
  ∀ i l, <[vl_max_fid vl := log_truncate lf (vl_writable_log_offset vl)]> (vl_fid_logfile vl) !! i = Some l →
    file_ok kr (vl_max_fid vl) i l.
Proof.
  intros (Hall & (lf0 & es0 & Hlf0 & Hp0) & Hsz) Hlf. assert (lf0 = lf) as -> by congruence.
  destruct (latest_closed _ _ _ Hall Hlf Hp0) as [Hcl Hpos].
  intros i l [[<- <-]|[Hne Hl]]%lookup_insert_Some; [|by apply Hall].
  split; [|lia]. right. apply closed_truncate; [done|]. destruct Hp0 as (_ & _ & _ & -> & _). lia.
Qed.

Lemma rotate_inv vl vl' : registry_gives kr None → vlog_inv vl → rotate None vl = Ok vl' → vlog_inv vl'.
Proof.
  intros Hkr Hinv. unfold rotate. case_if; [|by intros [= <-]].
  pose proof Hinv as (_ & (lf & es & Hlf & Hp) & Hsz). unfold get_latest_logfile. rewrite Hlf. cbn [mbind outcome_bind].
  pose proof (truncated_files vl lf Hinv Hlf) as Hfiles. pose proof (vlog_inv_ok _ Hinv) as (Hpos & _).
  set (vl1 := mkValueLog _ _ _ _ _). intros Hc.
  destruct (create_inv vl1 Hkr Hfiles Hpos) as (vl2 & lf2 & Hc2 & Hinv2 & _); [|done|rewrite Hc2 in Hc; by injection Hc as <-].
  unfold create_vlog_file in Hc. destruct (u32_add (vl_max_fid vl1) 1) as [f| |] eqn:Ef; [|done..].
  apply u32_add_inv in Ef. cbn in *. lia.
Qed.

Lemma write_req_inv th vl r vl' r' :
  registry_gives kr None → vlog_inv vl → Forall (λ x, entry_fits x.1) r → write_req th None vl r = Ok (vl', r') →
  vlog_inv vl'.
Proof.
  intros Hkr Hinv Hfit. pose proof Hinv as (_ & (lf & es & Hlf & Hp) & _). unfold write_req, get_latest_logfile.
  rewrite Hlf. cbn [mbind outcome_bind].
  destruct (write_entries _ _ r) as [[[[lf' off'] w'] r1]| |] eqn:Ew; cbn [mbind outcome_bind]; [|done..].
  destruct (write_entries_plain _ _ _ _ _ _ _ _ _ _ Hp Hfit Ew) as (Hs & es' & Hp').
  set (vl1 := mkValueLog _ _ _ _ _). destruct (rotate None vl1) as [vl2| |] eqn:Er; cbn [mbind outcome_bind]; [|done..].
  intros [= <- <-]. eapply rotate_inv; [done| |done]. by eapply update_inv.
Qed.

Lemma write_reqs_inv th reqs : ∀ vl vl' reqs',
  registry_gives kr None → vlog_inv vl → Forall (Forall (λ x, entry_fits x.1)) reqs →
  write_reqs th None vl reqs = Ok (vl', reqs') → vlog_inv vl'.
Proof.
  induction reqs as [|r reqs IH]; intros vl vl' reqs' Hkr Hinv Hfit; cbn [write_reqs].
  { destruct (rotate None vl) as [vl1| |] eqn:Er; cbn [mbind outcome_bind]; [|done..].
    intros [= <- <-]. by eapply rotate_inv. }
  apply Forall_cons in Hfit as [Hr Hfit].
  destruct (write_req th None vl r) as [[vl1 r1]| |] eqn:Ew; cbn [mbind outcome_bind]; [|done..].
  destruct (write_reqs th None vl1 reqs) as [[vl2 rs]| |] eqn:Er; cbn [mbind outcome_bind]; [|done..].
  intros [= <- <-]. eapply IH; [done| |done|done]. by eapply write_req_inv.
Qed.

(** Reading the latest file finds the end of its entries. *)
Lemma drain_latest lf off es :
  plain_log lf off es →
  ∃ it, LogFileIter_new lf VLOG_HEADER_SIZE = Ok it ∧
    drain_log (S (length (lf_bytes lf))) it [] = Ok ([], off).
Proof.
  intros (Hc & Hfit & (Hpre & n & Hb) & -> & _). unfold LogFileIter_new.
  rewrite Hb, slice_from_app by done. eexists. split; [done|]. rewrite <- Hb.
  pose proof (length_log_content es Hfit). rewrite (drain_plain es n); [done|done|done|done| |done].
  rewrite Hb, !length_app. lia.
Qed.

(** An entry behind a pointer outlives what an opening does to the files. *)
Lemma opened_saved vl lf vl' lf' y :
  vl_fid_logfile vl !! vl_max_fid vl = Some lf →
  vl_fid_logfile vl' = <[(vl_max_fid vl + 1)%Z := lf']>
    (<[vl_max_fid vl := log_truncate lf (vl_writable_log_offset vl)]>
      (opened_file <$> filter present (vl_fid_logfile vl))) →
  vl_max_fid vl' = (vl_max_fid vl + 1)%Z → saved vl y → saved vl' y.
Proof.
  intros Hlf Hfiles Hmax [?|(Hb & fid & l & o & buf & Hf & Hp & He & Hr & Hle & Hlast & Hho)]; [by left|].
  assert (0 < length buf) as Hpos.
  { unfold encode_entry in He. destruct (log_try_encrypt _ _ _); cbn [mbind outcome_bind] in He; [|done..].
    injection He as _ Hl. lia. }
  right. split; [done|]. rewrite Hfiles, Hmax. destruct (decide (fid = vl_max_fid vl)) as [->|Hne].
  - assert (l = lf) as -> by congruence. specialize (Hlast eq_refl).
    exists (vl_max_fid vl), (log_truncate lf (vl_writable_log_offset vl)), o, buf.
    rewrite lookup_insert_ne, lookup_insert_eq by lia. split_and!; [done|done| | |lia|lia|done].
    + by rewrite (encode_entry_same lf).
    + by apply truncate_keeps.
  - exists fid, l, o, buf. rewrite !lookup_insert_ne by lia. split_and!; [|done..|lia|lia|done].
    rewrite lookup_fmap. pose proof Hr as (pre & post & Hbytes & Hpre).
    assert (VLOG_HEADER_SIZE < length (lf_bytes l)) as Hlen by (rewrite Hbytes, !length_app; lia).
    assert (filter present (vl_fid_logfile vl) !! fid = Some l) as ->.
    { apply map_lookup_filter_Some. split; [done|]. unfold present. cbn. intros Hn. rewrite Hn in Hlen. cbn in Hlen. lia. }
    cbn. unfold opened_file. by guard_false.
Qed.

Lemma opened_file_ok max_fid fid lf : file_ok kr max_fid fid lf → file_ok kr max_fid fid (opened_file lf).
Proof. intros [Hc Hr]. split; [|done]. unfold opened_file. case_if; [by left|done]. Qed.

(** Opening a log again: the entries are where they were, and writing goes on in a
    new file. *)
Lemma reopen_inv vl dir :
  registry_gives kr None → vlog_inv vl → (vl_max_fid vl + 1 < 2 ^ 32)%Z → disk_of vl dir →
  ∃ vl' deleted, ValueLog_open kr false (ValueLog_new (vl_config vl)) dir = Ok (vl', deleted) ∧ vlog_inv vl' ∧
    (∀ y, saved vl y → saved vl' y) ∧ vl_max_fid vl' = (vl_max_fid vl + 1)%Z ∧ vl_config vl' = vl_config vl.
Proof.
  intros Hkr Hinv Hlim Hdir. pose proof (vlog_inv_ok _ Hinv) as (Hpos & Hwo & _).
  pose proof Hinv as (Hall & (lf & es & Hlf & Hp) & Hsz).
  assert (VLOG_HEADER_SIZE < length (lf_bytes lf)) as Hlen by apply Hp.
  assert (lf_bytes lf ≠ []) as Hne by (intros Hn; rewrite Hn in Hlen; cbn in Hlen; lia).
  destruct (populate_disk kr vl dir lf Hall Hlf Hne Hdir) as (vl1 & del & Hpop & Hfiles & Hmax & Hcfg).
  assert (vl_fid_logfile vl1 !! vl_max_fid vl1 = Some lf) as Hlf1.
  { rewrite Hfiles, Hmax, lookup_fmap. assert (filter present (vl_fid_logfile vl) !! vl_max_fid vl = Some lf) as ->.
    { by apply map_lookup_filter_Some. }
    cbn. unfold opened_file. by guard_false. }
  destruct (drain_latest lf _ es Hp) as (it & Hit & Hdrain).
  unfold ValueLog_open. rewrite Hpop. cbn [mbind outcome_bind].
  assert ((size (vl_fid_logfile vl1) =? 0) = false) as ->.
  { apply Nat.eqb_neq. intros Hs%map_size_empty_iff. by rewrite Hs in Hlf1. }
  unfold get_latest_logfile. rewrite Hlf1. cbn [mbind outcome_bind]. rewrite Hit. cbn [mbind outcome_bind].
  rewrite Hdrain. cbn [mbind outcome_bind]. rewrite (proj1 Hkr). cbn [mbind outcome_bind].
  set (vl2 := with_files _ _ _).
  destruct (create_inv vl2 Hkr) as (vl3 & lf3 & -> & Hinv3 & Hmax3 & Hfiles3 & Hcfg3).
  { intros i l. unfold vl2. cbn [with_files vl_fid_logfile vl_max_fid]. rewrite Hmax, Hfiles.
    intros [[<- <-]|[Hi (l0 & <- & [Hl0 _]%map_lookup_filter_Some)%lookup_fmap_Some]]%lookup_insert_Some.
    - apply (truncated_files vl lf Hinv Hlf). apply lookup_insert_eq.
    - by apply opened_file_ok, Hall. }
  { cbn. lia. }
  { cbn. lia. }
  { cbn. by rewrite Hcfg. }
  cbn [mbind outcome_bind]. do 2 eexists. split_and!; [done|done| |cbn in Hmax3; congruence|].
  - intros y. apply opened_saved with (lf := lf) (lf' := lf3); [done| |cbn in Hmax3; congruence].
    rewrite Hfiles3. unfold vl2. cbn [with_files vl_fid_logfile vl_max_fid]. by rewrite Hmax, Hfiles.
  - rewrite Hcfg3. done.
Qed.

End PlainLog.

(* ------------------------------------------------------------------ *)
(** ** Theorems *)

Section VlogOpenTheorems.
Context `{!VarInt, !VarIntLaws, !VarIntRead, !VarIntReadLaws, !ChecksumCodec, !ChecksumLaws, !Aead, !AeadLaws}.
Context (kr : Registry) (Hkr : registry_gives kr None).

(** Opening an empty directory begins the first file. *)
Theorem vlog_opens_empty cfg :
  VLOG_HEADER_SIZE < 2 * vc_vlog_file_size cfg →
  ∃ vl, ValueLog_open kr false (ValueLog_new cfg) [] = Ok (vl, []) ∧ vlog_inv kr vl ∧ vl_max_fid vl = 1%Z.
Proof.
  intros Hsz. unfold ValueLog_open. cbn [populate_files_map fold_outcome mbind outcome_bind pp_vlog pp_deleted].
  change (size (vl_fid_logfile (ValueLog_new cfg)) =? 0) with true. cbn [mbind outcome_bind].
  rewrite (proj1 Hkr). cbn [mbind outcome_bind].
  destruct (create_inv kr (ValueLog_new cfg) Hkr) as (vl & lf & -> & Hinv & Hmax & _);
    [by intros ?? ?|cbn; lia|cbn; lia|done|]. by exists vl.
Qed.

(** C39: The value log survives an orderly restart, one before which the write buffers
    of its files were flushed: after requests that pass the size check were written to
    a log without a cipher, opening its directory again, whatever the order of its
    files, succeeds; every entry written then and before either is
    inline or stands whole at its pointer, files without entries are given up, and
    writing goes on in a new file with a larger identifier, in a log that can again
    be written and opened. *)
Theorem vlog_survives_reopen threshold vl reqs :
  vlog_inv kr vl → validate_write vl reqs = Ok () → Forall (Forall (λ x, entry_fits x.1)) reqs →
  (vl_max_fid vl + Z.of_nat (length reqs) + 1 < 2 ^ 32)%Z →
  ∃ vl' reqs', ValueLog_write threshold None vl reqs = Ok (vl', reqs') ∧
    ∀ dir, disk_of vl' dir → (vl_max_fid vl' + 1 < 2 ^ 32)%Z →
      ∃ vl'' deleted, ValueLog_open kr false (ValueLog_new (vl_config vl')) dir = Ok (vl'', deleted) ∧
        Forall (Forall (saved vl'')) reqs' ∧ (∀ y, saved vl y → saved vl'' y) ∧
        vl_max_fid vl'' = (vl_max_fid vl' + 1)%Z ∧ vlog_inv kr vl''.
Proof.
  intros Hinv Hval Hfit Hlim. pose proof (vlog_inv_ok kr vl Hinv) as Hok.
  destruct (write_reqs_spec threshold None reqs vl Hok Hlim) as (vl' & reqs' & Hw & _ & Hsv & Hall & _).
  pose proof (write_reqs_inv kr threshold reqs vl vl' reqs' Hkr Hinv Hfit Hw) as Hinv'.
  exists vl', reqs'. split.
  { unfold ValueLog_write, get_latest_logfile. rewrite Hval. cbn [mbind outcome_bind].
    destruct Hok as (_ & _ & lf & -> & _). done. }
  intros dir Hdir Hlim'. destruct (reopen_inv kr vl' dir Hkr Hinv' Hlim' Hdir) as (vl'' & del & Ho & Hi & Hs & Hm & _).
  exists vl'', del. split_and!; [done| |auto|done|done].
  eapply Forall_impl; [exact Hall|]. intros r Hr. eapply Forall_impl; [exact Hr|]. auto.
Qed.

(** A file of the directory that is shorter than the header of a log file and is
    the last one makes the opening panic. *)
Theorem short_last_file_panics vl fid bytes :
  vl_fid_logfile vl = ∅ → vl_max_fid vl = 0%Z → (0 <= fid)%Z → 0 < length bytes < VLOG_HEADER_SIZE →
  ValueLog_open kr false vl [(fid, bytes)] = Panic.
Proof.
  intros Hf Hm Hpos Hlen. unfold ValueLog_open, populate_files_map. cbn [fold_outcome].
  unfold populate_file. cbn [pp_found pp_vlog pp_deleted]. rewrite bool_decide_false by set_solver.
  unfold LogFile_open. rewrite (proj2 (Nat.eqb_neq (length bytes) 0)) by lia. rewrite andb_false_r.
  cbn [mbind outcome_bind]. guard_true. cbn [mbind outcome_bind lf_bytes]. guard_false.
  cbn [mbind outcome_bind pp_vlog pp_deleted]. rewrite Hf, Hm, Z.max_r by lia.
  unfold get_latest_logfile. cbn [with_files vl_fid_logfile vl_max_fid].
  rewrite map_size_insert_None, lookup_insert_eq by done. cbn [Nat.eqb mbind outcome_bind].
  unfold LogFileIter_new. cbn [lf_bytes]. unfold slice_from. by guard_false.
Qed.

End VlogOpenTheorems.

(** ** Witnesses *)

Module VlogOpenExamples.

#[local] Existing Instances VlogExamples.leb_read VlogExamples.leb_read_laws.

Definition cfg : ValueLogConfig := mkValueLogConfig 32 10.
Definition big : Entry := mkEntry (mkKeyTs [97]%Z 5) (mkValueMeta [1; 2; 3]%Z 9 3 64) 0 0 0.

(** The first opening of an empty directory. *)
Definition vl0 : ValueLog :=
  match ValueLog_open MemTableExamples.no_keys false (ValueLog_new cfg) [] with Ok (vl, _) => vl | _ => ValueLog_new cfg end.

Lemma no_keys_gives : registry_gives MemTableExamples.no_keys None.
Proof. split; [reflexivity|]. split; [reflexivity|]. split; vm_compute; congruence. Defined.

Lemma vl0_inv : vlog_inv MemTableExamples.no_keys vl0.
Proof.
  destruct (vlog_opens_empty MemTableExamples.no_keys no_keys_gives cfg) as (vl & Ho & Hinv & _).
  - vm_compute. lia.
  - unfold vl0. rewrite Ho. exact Hinv.
Defined.

Lemma big_fits : entry_fits big.
Proof. split_and!; vm_compute; intuition congruence. Defined.

Lemma vlog_survives_reopen_witness :
  ∃ vl' reqs', ValueLog_write 2 None vl0 [[(big, ValuePointer_default)]; [(big, ValuePointer_default)]] =
      Ok (vl', reqs') ∧
    ∀ dir, disk_of vl' dir → (vl_max_fid vl' + 1 < 2 ^ 32)%Z →
      ∃ vl'' deleted, ValueLog_open MemTableExamples.no_keys false (ValueLog_new (vl_config vl')) dir =
          Ok (vl'', deleted) ∧ Forall (Forall (saved vl'')) reqs'.
Proof.
  destruct (vlog_survives_reopen MemTableExamples.no_keys no_keys_gives 2 vl0
    [[(big, ValuePointer_default)]; [(big, ValuePointer_default)]]) as (vl' & reqs' & Hw & Hre).
  - exact vl0_inv.
  - vm_compute. reflexivity.
  - repeat (apply Forall_cons; split; [|]); try apply Forall_nil; try exact I; exact big_fits.
  - vm_compute. reflexivity.
  - exists vl', reqs'. split; [exact Hw|]. intros dir Hd Hl.
    destruct (Hre dir Hd Hl) as (vl'' & del & Ho & Hs & _). exists vl'', del. split; [exact Ho|exact Hs].
Defined.

(** A key registry with one key. *)
Definition key : AesCipher := Aes128 (replicate 16 3%Z) 1.
Definition one_key : Registry :=
  mkRegistry (λ id, Ok (if Z.eqb id 1 then Some key else None)) (Ok (Some key)).

(** The file is not full after the entry. *)
Definition room : ValueLogConfig := mkValueLogConfig 64 10.

Definition written_with_key : outcome (ValueLog * list req) :=
  '(vl, _) ← ValueLog_open one_key false (ValueLog_new room) [];
  ValueLog_write 2 (Some key) vl [[(big, ValuePointer_default)]].

Definition reopened_with_key : outcome (nat * nat) :=
  '(vl, _) ← written_with_key;
  '(vl', _) ← ValueLog_open one_key false (ValueLog_new room)
                (on_disk (map_to_list (vl_fid_logfile vl)));
  match vl_fid_logfile vl !! 1%Z, vl_fid_logfile vl' !! 1%Z with
  | Some lf, Some lf' => Ok (vl_writable_log_offset vl, length (lf_bytes lf'))
  | _, _ => Panic
  end.

(** With a key the bytes of an entry are longer than the lengths in its header, the
    checksum does not match, and opening cuts the file behind its header. *)
Lemma encrypted_vlog_lost : reopened_with_key = Ok (42, 20).
Proof. vm_compute. reflexivity. Qed.

End VlogOpenExamples.
