(* ===== verification/Lock.v ===== *)
(** * Lock: the locks on the directories of a database

    [DBLockGuardConfig::try_build], [DirLockGuard::acquire_lock] and the drop of a
    guard (src/src/util/lock.rs) with [open_with_libc] and [flock]
    (src/src/util/sys.rs).

    The operating system keeps, for every directory, the open descriptions that
    hold a lock on it, and the file [LOCK] of the directory.  A path is canonical
    or unknown ([None]: the directory does not exist).  [flock] with [LOCK_NB]
    fails when another open description holds a lock that excludes the one asked
    for; two descriptions of one process exclude each other like those of two
    processes. *)
From stdpp Require Import base list gmap strings sets relations.
From Stdlib Require Import ZArith Lia.
From S2P Require Import Prelude Text.

Local Open Scope nat_scope.

(** A lock held: the directory, the open description, and whether it excludes
    readers. *)
Record Held : Type := mkHeld {
  he_dir : nat;
  he_fd : nat;
  he_exclusive : bool
}.

Record Os : Type := mkOs {
  os_held : list Held;
  os_pid_files : gmap nat (list Z);
  os_next_fd : nat
}.

Record DirLockGuard : Type := mkDirLockGuard {
  dg_dir_fd : nat;
  dg_abs_pid_path : nat;
  dg_read_only : bool
}.

Section LockCode.
Context (canonicalize : nat → option nat).

(** [open_with_libc]: a new open description *)
Definition open_with_libc (os : Os) : nat * Os :=
  (os_next_fd os, mkOs (os_held os) (os_pid_files os) (S (os_next_fd os))).

Definition excludes (dir fd : nat) (exclusive : bool) (h : Held) : bool :=
  (he_dir h =? dir) && negb (he_fd h =? fd) && (exclusive || he_exclusive h).

(** [flock] with [LOCK_SH] or [LOCK_EX], and [LOCK_NB] *)
Definition flock (dir fd : nat) (exclusive : bool) (os : Os) : outcome Os :=
  if existsb (excludes dir fd exclusive) (os_held os) then Err (EMsg "another process is using it")
  else Ok (mkOs (mkHeld dir fd exclusive :: filter (λ h, he_fd h ≠ fd) (os_held os)) (os_pid_files os) (os_next_fd os)).

(** [flock] with [LOCK_UN]; closing the description does the same. *)
Definition unlock (fd : nat) (os : Os) : Os :=
  mkOs (filter (λ h, he_fd h ≠ fd) (os_held os)) (os_pid_files os) (os_next_fd os).

(** Writing the decimal [pid] into the file, which is created but not truncated. *)
Definition write_pid (dir : nat) (pid : Z) (os : Os) : Os :=
  let old := default [] (os_pid_files os !! dir) in
  let text := decimal pid in
  mkOs (os_held os) (<[dir := text ++ drop (length text) old]> (os_pid_files os)) (os_next_fd os).

Definition remove_pid (dir : nat) (os : Os) : Os :=
  mkOs (os_held os) (delete dir (os_pid_files os)) (os_next_fd os).

(** [DirLockGuard::acquire_lock]: the result and the system afterwards. *)
Definition acquire_lock (pid : Z) (path : nat) (read_only : bool) (os : Os) : outcome DirLockGuard * Os :=
  match canonicalize path with
  | None => (Panic, os)
  | Some dir =>
      let '(dir_fd, os) := open_with_libc os in
      match flock dir dir_fd (negb read_only) os with
      | Ok os =>
          let os := if read_only then os else write_pid dir pid os in
          (Ok (mkDirLockGuard dir_fd dir read_only), os)
      | _ => (Err (EMsg "cannot acquire dir lock. Another process is using this Badger database"), os)
      end
  end.

(** [Drop for DirLockGuard] *)
Definition drop_guard (os : Os) (g : DirLockGuard) : Os :=
  unlock (dg_dir_fd g) (if dg_read_only g then os else remove_pid (dg_abs_pid_path g) os).

(** The loop of [try_build]; when a lock is refused the guards taken so far are
    dropped. *)
Fixpoint acquire_all (pid : Z) (read_only : bool) (paths : list nat) (lock_guards : list DirLockGuard) (os : Os) :
    outcome (list DirLockGuard) * Os :=
  match paths with
  | [] => (Ok lock_guards, os)
  | path :: paths =>
      match acquire_lock pid path read_only os with
      | (Ok g, os) => acquire_all pid read_only paths (lock_guards ++ [g]) os
      | (Err e, os) => (Err e, foldl drop_guard os lock_guards)
      | (Panic, os) => (Panic, foldl drop_guard os lock_guards)
      end
  end.

(** [DBLockGuardConfig::try_build]; [dirs] are the paths of the set in some order. *)
Definition try_build (pid : Z) (bypass_lock_guard read_only : bool) (dirs : list nat) (os : Os) :
    outcome (option (list DirLockGuard)) * Os :=
  if negb bypass_lock_guard then
    match acquire_all pid read_only dirs [] os with
    | (Ok gs, os) => (Ok (Some gs), os)
    | (Err e, os) => (Err e, os)
    | (Panic, os) => (Panic, os)
    end
  else (Ok None, os).

(** ** Processes that share the directories *)

Record Sys : Type := mkSys {
  sy_os : Os;
  sy_guards : list (Z * DirLockGuard)
}.

(** A process takes a lock, is refused one, drops a guard, or dies: its
    descriptions are closed and its files stay. *)
Inductive lock_step : Sys → Sys → Prop :=
| step_acquire s pid path read_only g os' :
    acquire_lock pid path read_only (sy_os s) = (Ok g, os') →
    lock_step s (mkSys os' ((pid, g) :: sy_guards s))
| step_refused s pid path read_only e os' :
    acquire_lock pid path read_only (sy_os s) = (Err e, os') →
    lock_step s (mkSys os' (sy_guards s))
| step_drop s pid g gs1 gs2 :
    sy_guards s = gs1 ++ (pid, g) :: gs2 →
    lock_step s (mkSys (drop_guard (sy_os s) g) (gs1 ++ gs2))
| step_crash s pid :
    lock_step s
      (mkSys (foldl (λ os x, unlock (dg_dir_fd x.2) os) (sy_os s) (filter (λ x, x.1 = pid) (sy_guards s)))
         (filter (λ x, x.1 ≠ pid) (sy_guards s))).

Definition sys_start (pid_files : gmap nat (list Z)) : Sys := mkSys (mkOs [] pid_files 0) [].

End LockCode.

(* ------------------------------------------------------------------ *)
(** ** Lemmas *)

Lemma filter_true {A} (P : A → Prop) `{!∀ x, Decision (P x)} (l : list A) : (∀ x, x ∈ l → P x) → filter P l = l.
Proof.
  induction l as [|x l IH]; intros HP; [done|]. rewrite filter_cons_True by (apply HP; left).
  f_equal. apply IH. intros y Hy. apply HP. by right.
Qed.

Section LockLemmas.
Context (canonicalize : nat → option nat).

Definition held_of (g : DirLockGuard) : Held :=
  mkHeld (dg_abs_pid_path g) (dg_dir_fd g) (negb (dg_read_only g)).

Definition guard_fd (x : Z * DirLockGuard) : nat := dg_dir_fd x.2.

Definition compatible (x y : Z * DirLockGuard) : Prop :=
  guard_fd x ≠ guard_fd y → dg_abs_pid_path x.2 = dg_abs_pid_path y.2 →
  dg_read_only x.2 = true ∧ dg_read_only y.2 = true.

Definition pid_written (os : Os) (x : Z * DirLockGuard) : Prop :=
  dg_read_only x.2 = false → ∃ stale, os_pid_files os !! dg_abs_pid_path x.2 = Some (decimal x.1 ++ stale).

(** The locks held are those of the guards, which are compatible, and a writer's
    directory names it. *)
Record lock_inv (s : Sys) : Prop := {
  li_held : ∀ h, h ∈ os_held (sy_os s) ↔ ∃ x, x ∈ sy_guards s ∧ h = held_of x.2;
  li_fds : NoDup (guard_fd <$> sy_guards s);
  li_fresh : ∀ x, x ∈ sy_guards s → guard_fd x < os_next_fd (sy_os s);
  li_compatible : ∀ x y, x ∈ sy_guards s → y ∈ sy_guards s → compatible x y;
  li_pid : ∀ x, x ∈ sy_guards s → pid_written (sy_os s) x
}.

Lemma guard_fd_inj gs x y :
  NoDup (guard_fd <$> gs) → x ∈ gs → y ∈ gs → guard_fd x = guard_fd y → x = y.
Proof.
  intros Hnd [i Hi]%list_elem_of_lookup [j Hj]%list_elem_of_lookup Heq.
  assert (i = j) as ->; [|congruence]. apply (NoDup_lookup _ _ _ (guard_fd x) Hnd).
  - by rewrite list_lookup_fmap, Hi.
  - rewrite list_lookup_fmap, Hj. cbn. by f_equal.
Qed.

(** Fewer guards, with their locks and files as before. *)
Lemma lock_inv_shrink s os' gs' :
  lock_inv s → gs' `sublist_of` sy_guards s → os_next_fd os' = os_next_fd (sy_os s) →
  (∀ h, h ∈ os_held os' ↔ h ∈ os_held (sy_os s) ∧ he_fd h ∈ guard_fd <$> gs') →
  (∀ x, x ∈ gs' → dg_read_only x.2 = false →
     os_pid_files os' !! dg_abs_pid_path x.2 = os_pid_files (sy_os s) !! dg_abs_pid_path x.2) →
  lock_inv (mkSys os' gs').
Proof.
  intros [Hh Hnd Hfr Hc Hp] Hsub Hnext Hheld Hfiles.
  assert (∀ x, x ∈ gs' → x ∈ sy_guards s) as Hin by (intros x Hx; by eapply elem_of_sublist).
  split; cbn [sy_os sy_guards].
  - intros h. rewrite Hheld, Hh. split.
    + intros [(x & Hx & ->) (y & Hfd & Hy)%list_elem_of_fmap]. exists x. split; [|done].
      assert (x = y) as ->; [|done]. apply (guard_fd_inj _ _ _ Hnd Hx); [by apply Hin|done].
    + intros (x & Hx & ->). split; [by exists x; auto|]. change (he_fd (held_of x.2)) with (guard_fd x).
      by apply list_elem_of_fmap_2.
  - eapply sublist_NoDup; [|by apply fmap_sublist]. done.
  - intros x Hx. rewrite Hnext. auto.
  - auto.
  - intros x Hx Hro. destruct (Hp x (Hin x Hx) Hro) as [stale Hs]. exists stale. by rewrite Hfiles.
Qed.

Lemma unlock_all_held fds os :
  os_held (foldl (λ os fd, unlock fd os) os fds) = filter (λ h, he_fd h ∉ fds) (os_held os) ∧
  os_pid_files (foldl (λ os fd, unlock fd os) os fds) = os_pid_files os ∧
  os_next_fd (foldl (λ os fd, unlock fd os) os fds) = os_next_fd os.
Proof.
  revert os. induction fds as [|fd fds IH]; intros os; cbn [foldl].
  - split_and!; [|done..]. symmetry. apply filter_true. intros h _. set_solver.
  - destruct (IH (unlock fd os)) as (-> & -> & ->). split_and!; [|done..]. cbn [unlock os_held].
    rewrite list_filter_filter. apply list_filter_iff. intros h. rewrite not_elem_of_cons. tauto.
Qed.

Lemma acquire_lock_spec s pid path ro dir :
  lock_inv s → canonicalize path = Some dir →
  match acquire_lock canonicalize pid path ro (sy_os s) with
  | (Ok g, os') =>
      g = mkDirLockGuard (os_next_fd (sy_os s)) dir ro ∧
      (∀ x, x ∈ sy_guards s → dg_abs_pid_path x.2 = dir → dg_read_only x.2 = true ∧ ro = true) ∧
      os_held os' = held_of g :: os_held (sy_os s) ∧ os_next_fd os' = S (os_next_fd (sy_os s)) ∧
      os_pid_files os' = (if ro then os_pid_files (sy_os s)
                          else <[dir := decimal pid ++ drop (length (decimal pid))
                                          (default [] (os_pid_files (sy_os s) !! dir))]> (os_pid_files (sy_os s)))
  | (Err _, os') =>
      (∃ x, x ∈ sy_guards s ∧ dg_abs_pid_path x.2 = dir ∧ (dg_read_only x.2 = false ∨ ro = false)) ∧
      os_held os' = os_held (sy_os s) ∧ os_next_fd os' = S (os_next_fd (sy_os s)) ∧
      os_pid_files os' = os_pid_files (sy_os s)
  | (Panic, _) => False
  end.
Proof.
  intros Hinv Hcan. unfold acquire_lock. rewrite Hcan. cbn [open_with_libc]. unfold flock. cbn [os_held].
  set (fd := os_next_fd (sy_os s)).
  destruct (existsb _ _) eqn:Ee; cbn [os_pid_files os_next_fd].
  - apply existsb_exists in Ee as (h & Hin%list_elem_of_In & He). apply (li_held _ Hinv) in Hin as (x & Hx & ->).
    unfold excludes in He. cbn [held_of he_dir he_fd he_exclusive] in He. bool_to_prop.
    split_and!; [|done..]. exists x. split_and!; [done|done|].
    destruct (dg_read_only x.2), ro; cbn in *; auto; naive_solver.
  - assert (∀ h, h ∈ os_held (sy_os s) → he_fd h < fd) as Hlt.
    { intros h (x & Hx & ->)%(li_held _ Hinv). by apply (li_fresh _ Hinv). }
    assert (filter (λ h, he_fd h ≠ fd) (os_held (sy_os s)) = os_held (sy_os s)) as ->.
    { apply filter_true. intros h Hi%Hlt. lia. }
    split_and!; [done| |by destruct ro|by destruct ro|by destruct ro].
    intros x Hx Hd. assert (excludes dir fd (negb ro) (held_of x.2) = false) as He.
    { apply not_true_iff_false. intros Ht. assert (existsb (excludes dir fd (negb ro)) (os_held (sy_os s)) = true); [|congruence].
      apply existsb_exists. exists (held_of x.2). split; [|done]. apply list_elem_of_In, (li_held _ Hinv). by exists x. }
    unfold excludes in He. cbn [held_of he_dir he_fd he_exclusive] in He. rewrite (proj2 (Nat.eqb_eq _ _) Hd) in He.
    pose proof (li_fresh _ Hinv x Hx). unfold guard_fd in *. rewrite (proj2 (Nat.eqb_neq _ _)) in He by lia.
    by destruct (dg_read_only x.2), ro.
Qed.

Lemma lock_inv_acquire s pid path ro g os' :
  lock_inv s → acquire_lock canonicalize pid path ro (sy_os s) = (Ok g, os') →
  lock_inv (mkSys os' ((pid, g) :: sy_guards s)).
Proof.
  intros Hinv Ha. destruct (canonicalize path) as [dir|] eqn:Ec; [|unfold acquire_lock in Ha; by rewrite Ec in Ha].
  pose proof (acquire_lock_spec s pid path ro dir Hinv Ec) as Hs. rewrite Ha in Hs.
  destruct Hs as (-> & Hco & Hheld & Hnext & Hfiles). pose proof Hinv as [Hh Hnd Hfr Hc Hp].
  split; cbn [sy_os sy_guards].
  - intros h. rewrite Hheld. setoid_rewrite elem_of_cons. rewrite Hh. naive_solver.
  - rewrite fmap_cons. apply NoDup_cons. split; [|done].
    intros (x & Hfd & Hx)%list_elem_of_fmap. apply Hfr in Hx. unfold guard_fd in *. cbn in Hfd. lia.
  - rewrite Hnext. intros x [->|Hx]%elem_of_cons; [unfold guard_fd; cbn; lia|]. apply Hfr in Hx. lia.
  - intros x y [->|Hx]%elem_of_cons [->|Hy]%elem_of_cons; [done| | |by apply Hc].
    + intros _ Hd. cbn in *. destruct (Hco y Hy (eq_sym Hd)). done.
    + intros _ Hd. cbn in *. by destruct (Hco x Hx Hd).
  - intros x [->|Hx]%elem_of_cons Hro.
    + cbn in *. rewrite Hfiles, Hro, lookup_insert_eq. by eexists.
    + destruct (Hp x Hx Hro) as [stale Hs]. exists stale. rewrite Hfiles. destruct ro; [done|].
      rewrite lookup_insert_ne; [done|]. intros ->. by destruct (Hco x Hx eq_refl).
Qed.

Lemma lock_inv_drop s pid g gs1 gs2 :
  lock_inv s → sy_guards s = gs1 ++ (pid, g) :: gs2 → lock_inv (mkSys (drop_guard (sy_os s) g) (gs1 ++ gs2)).
Proof.
  intros Hinv Hg. pose proof Hinv as [Hh Hnd Hfr Hc Hp]. rewrite Hg in *.
  assert (∀ x, x ∈ gs1 ++ gs2 → guard_fd x ≠ dg_dir_fd g) as Hother.
  { intros x Hx Heq. rewrite fmap_app, fmap_cons in Hnd. apply NoDup_app in Hnd as (_ & Hd & [Hni _]%NoDup_cons).
    change (dg_dir_fd g) with (guard_fd (pid, g)) in Heq. apply elem_of_app in Hx as [Hx|Hx].
    - apply (Hd (guard_fd x)); [by apply list_elem_of_fmap_2|]. rewrite Heq. left.
    - apply Hni. rewrite <- Heq. by apply list_elem_of_fmap_2. }
  assert ((pid, g) ∈ gs1 ++ (pid, g) :: gs2) as Hin by (apply elem_of_app; right; left).
  apply (lock_inv_shrink s); [done| |by destruct (dg_read_only g) eqn:E; unfold drop_guard; rewrite E| |].
  - rewrite Hg. apply sublist_app; [done|]. by apply sublist_cons.
  - intros h. assert (os_held (drop_guard (sy_os s) g) = filter (λ h, he_fd h ≠ dg_dir_fd g) (os_held (sy_os s))) as ->.
    { unfold drop_guard. by destruct (dg_read_only g). }
    rewrite list_elem_of_filter. split.
    + intros [Hne (x & Hx & ->)%Hh]. split; [apply Hh; by exists x|]. cbn in Hne.
      change (he_fd (held_of x.2)) with (guard_fd x). apply list_elem_of_fmap_2. set_solver.
    + intros [Hi (x & -> & Hx)%list_elem_of_fmap]. split; [|done]. by apply Hother.
  - intros x Hx Hro. unfold drop_guard. destruct (dg_read_only g) eqn:Eg; [done|]. cbn.
    rewrite lookup_delete_ne; [done|]. intros Hd. assert (x ∈ gs1 ++ (pid, g) :: gs2) as Hx' by set_solver.
    destruct (Hc (pid, g) x Hin Hx'); [by apply not_eq_sym, Hother|done|]. cbn in *. congruence.
Qed.

Lemma lock_inv_crash s pid :
  lock_inv s →
  lock_inv (mkSys (foldl (λ os x, unlock (dg_dir_fd x.2) os) (sy_os s) (filter (λ x, x.1 = pid) (sy_guards s)))
              (filter (λ x, x.1 ≠ pid) (sy_guards s))).
Proof.
  intros Hinv. set (dead := filter (λ x, x.1 = pid) (sy_guards s)).
  assert (foldl (λ os x, unlock (dg_dir_fd x.2) os) (sy_os s) dead =
    foldl (λ os fd, unlock fd os) (sy_os s) (guard_fd <$> dead)) as ->.
  { clearbody dead. generalize (sy_os s). induction dead as [|x d IH]; intros os; [done|]. cbn. apply IH. }
  destruct (unlock_all_held (guard_fd <$> dead) (sy_os s)) as (Hheld & Hfiles & Hnext).
  pose proof Hinv as [Hh Hnd Hfr Hc Hp].
  apply (lock_inv_shrink s); [done|apply sublist_filter|done| |by intros x _ _; rewrite Hfiles].
  intros h. rewrite Hheld, list_elem_of_filter. split.
  - intros [Hni (x & Hx & ->)%Hh]. split; [apply Hh; by exists x|].
    change (he_fd (held_of x.2)) with (guard_fd x) in *. apply list_elem_of_fmap_2, list_elem_of_filter.
    split; [|done]. intros Hp'. apply Hni, list_elem_of_fmap_2. by apply list_elem_of_filter.
  - intros [Hi (x & Hfd & [Hne Hx]%list_elem_of_filter)%list_elem_of_fmap]. split; [|done].
    rewrite Hfd. intros (y & Hxy & [Hy Hyin]%list_elem_of_filter)%list_elem_of_fmap.
    assert (x = y); [|congruence]. by apply (guard_fd_inj _ _ _ Hnd Hx).
Qed.

Lemma lock_inv_refused s pid path ro e os' :
  lock_inv s → acquire_lock canonicalize pid path ro (sy_os s) = (Err e, os') → lock_inv (mkSys os' (sy_guards s)).
Proof.
  intros Hinv Ha. destruct (canonicalize path) as [dir|] eqn:Ec; [|unfold acquire_lock in Ha; by rewrite Ec in Ha].
  pose proof (acquire_lock_spec s pid path ro dir Hinv Ec) as Hs. rewrite Ha in Hs.
  destruct Hs as (_ & Hheld & Hnext & Hfiles). destruct Hinv as [Hh Hnd Hfr Hc Hp]. split; cbn [sy_os sy_guards].
  - by rewrite Hheld.
  - done.
  - intros x Hx%Hfr. lia.
  - done.
  - intros x Hx Hro. rewrite Hfiles. by apply Hp.
Qed.

Lemma lock_inv_reachable files s : rtc (lock_step canonicalize) (sys_start files) s → lock_inv s.
Proof.
  assert (lock_inv (sys_start files)) as H0.
  { split; cbn; [|constructor|..]; set_solver. }
  revert H0. generalize (sys_start files). intros s0 H0 Hr. induction Hr as [|s1 s2 s3 Hs _ IH]; [done|].
  apply IH. destruct Hs; [by eapply lock_inv_acquire|by eapply lock_inv_refused|by eapply lock_inv_drop|by apply lock_inv_crash].
Qed.

(** Guards of one process, newest first. *)
Definition owned (pid : Z) (gs : list DirLockGuard) : list (Z * DirLockGuard) := rev (pair pid <$> gs).

Lemma lock_inv_drop_all pid lg : ∀ os gs0,
  lock_inv (mkSys os (owned pid lg ++ gs0)) → lock_inv (mkSys (foldl drop_guard os lg) gs0).
Proof.
  induction lg as [|g lg IH]; intros os gs0 Hinv; [done|]. cbn [foldl]. apply IH.
  unfold owned in Hinv. rewrite fmap_cons in Hinv. cbn [rev] in Hinv. rewrite <- app_assoc in Hinv.
  by apply (lock_inv_drop _ pid g _ _ Hinv).
Qed.

(** A path and the guard taken for it. *)
Definition guards_path (read_only : bool) (path : nat) (g : DirLockGuard) : Prop :=
  canonicalize path = Some (dg_abs_pid_path g) ∧ dg_read_only g = read_only.

(** Why a lock is refused: another guard, or two paths of one directory. *)
Definition refused (read_only : bool) (all : list nat) (gs0 : list (Z * DirLockGuard)) : Prop :=
  (∃ x path, x ∈ gs0 ∧ path ∈ all ∧ canonicalize path = Some (dg_abs_pid_path x.2) ∧
     (dg_read_only x.2 = false ∨ read_only = false)) ∨
  (read_only = false ∧ ∃ i j p q, i ≠ j ∧ all !! i = Some p ∧ all !! j = Some q ∧ canonicalize p = canonicalize q).

Lemma acquire_all_spec pid ro gs0 paths : ∀ done lg os,
  lock_inv (mkSys os (owned pid lg ++ gs0)) → Forall2 (guards_path ro) done lg →
  Forall (λ p, is_Some (canonicalize p)) paths →
  match acquire_all canonicalize pid ro paths lg os with
  | (Ok gs, os') => Forall2 (guards_path ro) (done ++ paths) gs ∧ lock_inv (mkSys os' (owned pid gs ++ gs0))
  | (Err _, os') => lock_inv (mkSys os' gs0) ∧ refused ro (done ++ paths) gs0
  | (Panic, _) => False
  end.
Proof.
  induction paths as [|path paths IH]; intros done lg os Hinv Hdone Hcan; cbn [acquire_all].
  { rewrite app_nil_r. done. }
  apply Forall_cons in Hcan as [[dir Hdir] Hcan].
  pose proof (acquire_lock_spec (mkSys os (owned pid lg ++ gs0)) pid path ro dir Hinv Hdir) as Hs. cbn [sy_os] in Hs.
  destruct (acquire_lock canonicalize pid path ro os) as [[g|e|] os1] eqn:Ha; [| |done].
  - specialize (IH (done ++ [path]) (lg ++ [g]) os1). rewrite <- app_assoc in IH. apply IH; [| |done].
    + unfold owned. rewrite fmap_app, rev_app_distr. cbn. by eapply (lock_inv_acquire (mkSys os _)).
    + apply Forall2_app; [done|]. constructor; [|done]. destruct Hs as (-> & _). done.
  - split.
    { apply (lock_inv_drop_all pid). by eapply (lock_inv_refused (mkSys os _)). }
    destruct Hs as ((x & [Hx|Hx]%elem_of_app & Hxd & Hc) & _).
    + right. unfold owned in Hx. apply list_elem_of_In, in_rev, list_elem_of_In, list_elem_of_fmap in Hx as (g & -> & Hg).
      apply list_elem_of_lookup in Hg as [i Hg]. destruct (Forall2_lookup_r _ _ _ _ _ Hdone Hg) as (p & Hp & Hcp & Hro).
      cbn in Hxd, Hc. split; [destruct Hc; congruence|]. exists i, (length done), p, path.
      apply lookup_lt_Some in Hp as Hlt. split_and!; [lia|by rewrite lookup_app_l| |congruence].
      by rewrite lookup_app_r, Nat.sub_diag by lia.
    + left. exists x, path. split_and!; [done|set_solver|congruence|done].
Qed.

End LockLemmas.

(* ------------------------------------------------------------------ *)
(** ** Theorems *)

Section LockTheorems.
Context (canonicalize : nat → option nat).

(** C38: Mutual exclusion: however processes take, fail to take and drop locks and
    die, two guards on one directory are both read-only; the pid file of a writer's
    directory begins with the digits of its process, and keeps behind them what a
    longer older file had there ([stale_pid_file]); and a lock on a path with a
    canonical name is granted exactly when no guard is on the directory, or all those
    that are and the new one are read-only. *)
Theorem lock_exclusive files s :
  rtc (lock_step canonicalize) (sys_start files) s →
  (∀ x y, x ∈ sy_guards s → y ∈ sy_guards s → dg_dir_fd x.2 ≠ dg_dir_fd y.2 →
     dg_abs_pid_path x.2 = dg_abs_pid_path y.2 → dg_read_only x.2 = true ∧ dg_read_only y.2 = true) ∧
  (∀ pid g, (pid, g) ∈ sy_guards s → dg_read_only g = false →
     ∃ stale, os_pid_files (sy_os s) !! dg_abs_pid_path g = Some (decimal pid ++ stale)) ∧
  (∀ pid path dir read_only, canonicalize path = Some dir →
     (∃ g os', acquire_lock canonicalize pid path read_only (sy_os s) = (Ok g, os')) ↔
     ∀ x, x ∈ sy_guards s → dg_abs_pid_path x.2 = dir → dg_read_only x.2 = true ∧ read_only = true).
Proof.
  intros Hr. pose proof (lock_inv_reachable _ _ _ Hr) as Hinv. split_and!.
  - apply (li_compatible _ Hinv).
  - intros pid g Hg. by apply (li_pid _ Hinv (pid, g)).
  - intros pid path dir ro Hdir. pose proof (acquire_lock_spec _ s pid path ro dir Hinv Hdir) as Hs.
    destruct (acquire_lock _ _ _ _ _) as [[g|e|] os']; [| |done].
    + split; [intros _; apply Hs|intros _; by do 2 eexists].
    + split; [by intros (? & ? & ?)|]. intros Hall. destruct Hs as ((x & Hx & Hd & Hc) & _).
      destruct (Hall x Hx Hd). destruct Hc; congruence.
Qed.

(** Locking a database is all or nothing: with directories that exist,
    [try_build] either gives one guard for every path, or fails and leaves exactly
    the locks there were, because another guard excludes one of them or because two
    paths of the set name one directory that is to be written. *)
Theorem try_build_all_or_nothing pid bypass read_only paths files s :
  rtc (lock_step canonicalize) (sys_start files) s → Forall (λ p, is_Some (canonicalize p)) paths →
  match try_build canonicalize pid bypass read_only paths (sy_os s) with
  | (Ok (Some gs), os') =>
      bypass = false ∧ Forall2 (guards_path canonicalize read_only) paths gs ∧
      (∀ h, h ∈ os_held os' ↔ h ∈ os_held (sy_os s) ∨ h ∈ held_of <$> gs)
  | (Ok None, os') => bypass = true ∧ os' = sy_os s
  | (Err _, os') =>
      (∀ h, h ∈ os_held os' ↔ h ∈ os_held (sy_os s)) ∧ refused canonicalize read_only paths (sy_guards s)
  | (Panic, _) => False
  end.
Proof.
  intros Hr Hcan. pose proof (lock_inv_reachable _ _ _ Hr) as Hinv. unfold try_build. destruct bypass; [done|].
  cbn [negb]. destruct s as [os gs0].
  pose proof (acquire_all_spec canonicalize pid read_only gs0 paths [] [] os Hinv (List.Forall2_nil _) Hcan) as Hs.
  cbn [sy_os sy_guards app] in *. destruct (acquire_all _ _ _ _ _ _) as [[gs|e|] os']; [| |done].
  - destruct Hs as [Hg Hinv']. split_and!; [done|done|]. intros h.
    rewrite (li_held _ Hinv' h), (li_held _ Hinv h). cbn [sy_guards]. unfold owned. rewrite list_elem_of_fmap.
    setoid_rewrite elem_of_app. setoid_rewrite list_elem_of_In. setoid_rewrite <- in_rev.
    setoid_rewrite <- list_elem_of_In. setoid_rewrite list_elem_of_fmap. naive_solver.
  - destruct Hs as [Hinv' Href]. split; [|done]. intros h. by rewrite (li_held _ Hinv' h), (li_held _ Hinv h).
Qed.

End LockTheorems.

(** ** Witnesses *)

Module LockExamples.

(** Paths 0 and 1 name the same directory. *)
Definition canonical (p : nat) : option nat := Some (p / 2).

(** Process 7 reads, process 12 writes directory 5 where 98765 was left behind. *)
Definition files : gmap nat (list Z) := {[5 := decimal 98765]}.
Definition r7 := acquire_lock canonical 7 0 true (sy_os (sys_start files)).
Definition g7 : DirLockGuard := mkDirLockGuard 0 0 true.
Definition s7 : Sys := mkSys r7.2 [(7%Z, g7)].
Definition r12 := acquire_lock canonical 12 10 false (sy_os s7).
Definition g12 : DirLockGuard := mkDirLockGuard 1 5 false.
Definition s12 : Sys := mkSys r12.2 [(12%Z, g12); (7%Z, g7)].

Lemma s12_reachable : rtc (lock_step canonical) (sys_start files) s12.
Proof.
  eapply rtc_l; [apply (step_acquire canonical (sys_start files) 7 0 true g7 r7.2); reflexivity|].
  eapply rtc_l; [apply (step_acquire canonical s7 12 10 false g12 r12.2); reflexivity|]. apply rtc_refl.
Defined.

Lemma lock_exclusive_witness :
  (∃ stale, os_pid_files (sy_os s12) !! 5 = Some (decimal 12 ++ stale)) ∧
  ¬ (∃ g os', acquire_lock canonical 13 11 true (sy_os s12) = (Ok g, os')).
Proof.
  destruct (lock_exclusive canonical files s12 s12_reachable) as (_ & Hp & Ha). split.
  - apply (Hp 12%Z g12); [left|reflexivity].
  - rewrite (Ha 13%Z 11 5 true eq_refl). intros Hall. destruct (Hall (12%Z, g12)); [left|reflexivity|done].
Defined.

(** The file of the writer is not its number. *)
Lemma stale_pid_file : os_pid_files (sy_os s12) !! 5 = Some (bytes_of_string "12765").
Proof. vm_compute. reflexivity. Qed.

(** Two spellings of one directory lock each other out. *)
Lemma try_build_witness :
  refused canonical false [0; 1] [] ∧ (try_build canonical 9 false false [0; 1] (sy_os (sys_start files))).1 =
    Err (EMsg "cannot acquire dir lock. Another process is using this Badger database").
Proof.
  pose proof (try_build_all_or_nothing canonical 9 false false [0; 1] files (sys_start files)) as Ht.
  vm_compute (try_build canonical 9 false false [0; 1] (sy_os (sys_start files))).
  split; [|reflexivity]. apply Ht.
  - apply rtc_refl.
  - repeat (apply Forall_cons; split; [eexists; reflexivity|]). apply Forall_nil. exact I.
Defined.

End LockExamples.
