(* ===== verification/Schedule.v ===== *)
(** * Schedule: which compaction runs next

    [pick_compact_levels], the turns of [pre_compact], [start_compact] and
    [compact] of src/src/level/compaction.rs, over the plans of Compact.v and the
    compactions of CompactRun.v.

    The tasks are started by [spawn_compact], one per number below
    [num_compactors].  A turn of a task is one tick of its timer; the timer, the
    first random pause and the signal to close only decide when and whether a turn
    comes.  Two levels with the same adjusted score come in their old order, one of
    the orders [sort_unstable_by] may give. *)
From stdpp Require Import base list list_numbers gmap strings sets.
From Stdlib Require Import ZArith Lia Sorted SpecFloat.
From S2P Require Import Prelude Float64 Util VarInt Kv Iter Pb Storage Block Table Txn Manifest Level Compact.
From S2P Require Import Mmap Discard CompactRun LevelsOpen.

Local Open Scope nat_scope.

(** [const MIN_SCORE: f64 = 0.01] *)
Definition MIN_SCORE : f64 := f64_div (f64_of 1) (f64_of 100).

Definition with_adjusted (p : CompactPriority) (adjusted : f64) : CompactPriority :=
  mkPriority (cp_level p) (cp_score p) adjusted (cp_drop_prefixes p) (cp_targets p).

(** [push_priority] *)
Definition priority_of (targets : CompactTargets) (level : Z) (score : f64) : CompactPriority :=
  mkPriority level score score [] targets.

Section ScheduleCode.
Context {T : Type} `{!LevelTable T}.
Context (cfg : LevelsControllerConfig) (table_size : Z).

Definition targets_config : LevelsConfig :=
  Compact.mkLevelsConfig (ll_max_level cfg) (Z.to_nat (ll_base_level_size cfg))
    (Z.to_nat (ll_level_size_multiplier cfg)) (ll_table_size_multiplier cfg) (ll_memtable_size cfg) table_size.

Definition total_size (h : LevelHandler T) : nat := ht_total_size (hd_inner h).

Definition controller_targets (levels : list (LevelHandler T)) : outcome CompactTargets :=
  level_targets targets_config (total_size <$> levels).

(** [CompactStatus::del_size] *)
Definition del_size (st : CompactStatus) (level : Z) : outcome Z :=
  s ← idx (st_levels st) (Z.to_nat level);
  Ok (ls_del_size s).

(** The score of a level from 1 on: its size without what is being deleted, against
    its target. *)
Definition level_score (st : CompactStatus) (targets : CompactTargets) (levels : list (LevelHandler T)) (index : nat) :
    outcome CompactPriority :=
  h ← idx levels index;
  let level := Level_from (Z.of_nat index) in
  del ← del_size st level;
  sz ← usub (total_size h) (Z.to_nat (u64 del));
  target ← idx (tg_target_size targets) index;
  Ok (priority_of targets level (f64_div (f64_of (Z.of_nat sz)) (f64_of (Z.of_nat target)))).

Definition level0_score (targets : CompactTargets) (h : LevelHandler T) : CompactPriority :=
  priority_of targets LEVEL0
    (f64_div (f64_of (Z.of_nat (length (ht_tables (hd_inner h))))) (f64_of (Z.of_nat (ll_num_level_zero_tables cfg)))).

(** One turn of the loop that divides the score of a level by that of the next. *)
Definition adjust_step (st : list CompactPriority * nat) (level : nat) : outcome (list CompactPriority * nat) :=
  let '(prios, pre_level) := st in
  pre ← idx prios pre_level;
  prios ← (if f64_leb f64_one (cp_adjusted pre) then
             p ← idx prios level;
             let by_ := if f64_leb MIN_SCORE (cp_score p) then cp_adjusted p else MIN_SCORE in
             Ok (<[pre_level := with_adjusted pre (f64_div (cp_adjusted pre) by_)]> prios)
           else Ok prios);
  Ok (prios, level).

Definition more_urgent (a b : CompactPriority) : comparison :=
  default Gt (f64_partial_cmp (cp_adjusted b) (cp_adjusted a)).

Definition pick_compact_levels (st : CompactStatus) (levels : list (LevelHandler T)) : outcome (list CompactPriority) :=
  targets ← controller_targets levels;
  level0 ← idx levels 0;
  scores ← map_outcome (level_score st targets levels) (seq 1 (length levels - 1));
  let prios := level0_score targets level0 :: scores in
  _ ← assert_or_panic (length prios =? length levels);
  '(prios, _) ← fold_outcome adjust_step (prios, 0)
                  (seq (tg_base_level targets) (length levels - tg_base_level targets));
  kept ← usub (length prios) 1;
  Ok (sort_by more_urgent (filter (λ p, f64_leb f64_one (cp_score p) = true) (take kept prios))).

(** The closure [move_l0_to_front] *)
Definition move_l0_to_front (prios : list CompactPriority) : list CompactPriority :=
  match list_find (λ p, cp_level p = LEVEL0) prios with
  | Some (index, front) => if 0 <? index then front :: take index prios ++ drop (S index) prios else prios
  | None => prios
  end.

(** ** Turns *)

Section Turns.
Context {W : Type} (levels_of : W → list (LevelHandler T)) (status_of : W → CompactStatus).
Context (start_compact : CompactPriority → W → outcome (bool * W)).

(** [for priority in prios] *)
Fixpoint try_prios (prios : list CompactPriority) (w : W) : outcome W :=
  match prios with
  | [] => Ok w
  | p :: prios =>
      if f64_ltb (cp_adjusted p) f64_one then Ok w
      else
        '(done, w) ← start_compact p w;
        if (done : bool) then Ok w else try_prios prios w
  end.

(** One tick of task [compact_task_id], with the number of ticks since the last
    compaction of the last level. *)
Definition compact_tick (compact_task_id : nat) (count : nat) (w : W) : outcome (nat * W) :=
  let count := S count in
  if ll_lmax_compaction cfg && (compact_task_id =? 2) && (200 <=? count) then
    last_level ← unwrap (last (levels_of w));
    targets ← controller_targets (levels_of w);
    '(_, w) ← start_compact (mkPriority (hd_level last_level) f64_zero f64_zero [] targets) w;
    Ok (0, w)
  else
    prios ← pick_compact_levels (status_of w) (levels_of w);
    let prios := if compact_task_id =? 0 then move_l0_to_front prios else prios in
    w ← try_prios prios w;
    Ok (count, w).

End Turns.

End ScheduleCode.

(** [compact] on the controller, with the status of the compactions. *)
Section CompactCode.
Context `{!VarInt, !ChecksumCodec, !Compressor, !Aead, !TableIndexFb, !ManifestCodec, !TableOrder, !TableAge Table}.
Context (turns d : nat).
Context (cfg : LevelsControllerConfig) (fuel page : nat).

Definition compact (compact_task_id : nat) (priority : CompactPriority) (config : TableConfig)
    (cipher : option AesCipher) (now discard_ts : Z) (w : CompactWorld) (st : CompactStatus) :
    outcome (CompactWorld * CompactStatus) :=
  let table_size := Z.of_nat (tc_table_size config) in
  _ ← assert_or_panic (cp_level priority <? ll_max_level cfg)%Z;
  priority ← (if tg_base_level (cp_targets priority) =? 0 then
                targets ← controller_targets cfg table_size (cw_levels w);
                Ok (mkPriority (cp_level priority) (cp_score priority) (cp_adjusted priority)
                      (cp_drop_prefixes priority) targets)
              else Ok priority);
  this_level ← idx (cw_levels w) (Z.to_nat (cp_level priority));
  next_level ← (if Z.eqb (cp_level priority) LEVEL0
                then idx (cw_levels w) (tg_base_level (cp_targets priority)) else Ok this_level);
  '(plan, st) ← plan_fix (targets_config cfg table_size) (cw_levels w) now discard_ts
                  (CompactPlan_new compact_task_id priority this_level next_level) st;
  w ← run_compact turns d fuel page (ll_num_versions_to_keep cfg) w (cp_level priority) plan config cipher now discard_ts;
  Ok (w, st).

(** [start_compact]: whether the compaction was done; a panic ends the task. *)
Definition compaction_done {A} (r : outcome A) : outcome bool :=
  match r with
  | Ok _ => Ok true
  | Err _ => Ok false
  | Panic => Panic
  end.

End CompactCode.

(* ------------------------------------------------------------------ *)
(** ** Lemmas: targets *)

Lemma target_loop_total lcfg i : ∀ size base target,
  lc_level_size_multiplier lcfg ≠ 0 → i < length target →
  ∃ base' target', target_loop lcfg i size base target = Ok (base', target') ∧
    length target' = length target ∧ (base' = base ∨ base' <= i).
Proof.
  induction i as [|i IH]; intros size base target Hm Hi; cbn [target_loop].
  { exists base, target. split_and!; [done|done|by left]. }
  unfold udiv. rewrite (proj2 (Nat.eqb_neq (lc_level_size_multiplier lcfg) 0)) by done. cbn [mbind outcome_bind].
  match goal with |- context [target_loop lcfg i ?s ?b ?t] => destruct (IH s b t Hm) as (base' & target' & -> & Hl & Hb) end.
  { rewrite length_insert. lia. }
  exists base', target'. rewrite length_insert in Hl. split_and!; [done|done|].
  destruct Hb as [->|Hb]; [|right; lia]. case_match; [right; lia|by left].
Qed.

Lemma length_file_loop lcfg n : ∀ i base size, length (file_loop lcfg n i base size) = n.
Proof.
  induction n as [|n IH]; intros i base size; cbn [file_loop]; [done|].
  repeat case_match; cbn [length]; by rewrite IH.
Qed.

Lemma skip_empty_bound sizes : ∀ level base,
  skip_empty sizes level base <= Nat.max base (level + length sizes - 1).
Proof.
  induction sizes as [|s sizes IH]; intros level base; cbn [skip_empty length]; [lia|].
  case_match; [lia|]. specialize (IH (S level) level). lia.
Qed.

(** The targets of a controller: one size per level, and a base level among them. *)
Lemma level_targets_total lcfg sizes :
  lc_level_size_multiplier lcfg ≠ 0 → 0 < length sizes < 255 →
  ∃ targets, level_targets lcfg sizes = Ok targets ∧ length (tg_target_size targets) = length sizes ∧
    length (tg_file_size targets) = length sizes ∧ tg_base_level targets < length sizes.
Proof.
  intros Hm Hlen. unfold level_targets, assert_or_panic. guard_true. clear E. cbn [mbind outcome_bind].
  destruct (last sizes) as [s|] eqn:El; [|apply last_None in El; by rewrite El in Hlen; cbn in Hlen; lia].
  cbn [unwrap mbind outcome_bind].
  destruct (target_loop_total lcfg (length sizes - 1) s 0 (replicate (length sizes) 0) Hm)
    as (base & target & -> & Hl & Hb); [rewrite length_replicate; lia|]. rewrite length_replicate in Hl.
  cbn [mbind outcome_bind]. pose proof (skip_empty_bound (drop base sizes) base base) as Hs. rewrite length_drop in Hs.
  set (b := skip_empty _ base base) in *. assert (b <= length sizes - 1) as Hble by lia.
  case_match eqn:E; [|eexists; split_and!; [done|done|by apply length_file_loop|cbn; lia]].
  apply Nat.ltb_lt in E.
  destruct (lookup_lt_is_Some_2 sizes b) as [s0 Hs0]; [lia|]. rewrite (idx_Ok _ _ _ Hs0). cbn [mbind outcome_bind].
  destruct (lookup_lt_is_Some_2 sizes (b + 1)) as [s1 Hs1]; [lia|]. rewrite (idx_Ok _ _ _ Hs1).
  destruct (lookup_lt_is_Some_2 target (b + 1)) as [t1 Ht1]; [lia|]. rewrite (idx_Ok _ _ _ Ht1).
  case_match; cbn [mbind outcome_bind]; eexists; split_and!; try done; try apply length_file_loop; cbn; [case_match; lia|lia].
Qed.

(* ------------------------------------------------------------------ *)
(** ** Lemmas: picking *)

(** A priority without its adjusted score. *)
Definition unadjusted (p : CompactPriority) : CompactPriority := with_adjusted p f64_zero.

Lemma adjust_step_spec prios pre level :
  pre < length prios → level < length prios →
  ∃ prios', adjust_step (prios, pre) level = Ok (prios', level) ∧ unadjusted <$> prios' = unadjusted <$> prios.
Proof.
  intros Hp Hl. unfold adjust_step.
  destruct (lookup_lt_is_Some_2 prios pre Hp) as [p Hpp]. rewrite (idx_Ok _ _ _ Hpp). cbn [mbind outcome_bind].
  case_match; [|by eexists].
  destruct (lookup_lt_is_Some_2 prios level Hl) as [q Hq]. rewrite (idx_Ok _ _ _ Hq). cbn [mbind outcome_bind].
  eexists. split; [done|]. rewrite list_fmap_insert. apply list_insert_id. by rewrite list_lookup_fmap, Hpp.
Qed.

Lemma adjust_fold n : ∀ prios pre level,
  pre < length prios → level + n <= length prios →
  ∃ prios' last, fold_outcome adjust_step (prios, pre) (seq level n) = Ok (prios', last) ∧
    unadjusted <$> prios' = unadjusted <$> prios.
Proof.
  induction n as [|n IH]; intros prios pre level Hp Hl; cbn [seq fold_outcome]; [by exists prios, pre|].
  destruct (adjust_step_spec prios pre level Hp) as (prios1 & -> & Hu); [lia|]. cbn [mbind outcome_bind].
  assert (length prios1 = length prios) as Hlen.
  { apply (f_equal length) in Hu. by rewrite !length_fmap in Hu. }
  destruct (IH prios1 level (S level)) as (prios2 & l & -> & Hu2); [lia|lia|].
  exists prios2, l. by rewrite Hu2.
Qed.

Section SortLemmas.
Context {A : Type} (cmp : A → A → comparison) (P : A → Prop) (R : A → A → Prop).
Context (HR : ∀ a b, P a → P b → if decide (cmp a b = Gt) then R b a else R a b).

Lemma insert_by_Sorted x l : P x → Forall P l → Sorted R l → Sorted R (insert_by cmp x l).
Proof.
  intros Hx. induction l as [|y l IH]; cbn [insert_by]; intros Hl Hs; [by repeat constructor|].
  apply Forall_cons in Hl as [Hy Hl]. pose proof (HR x y Hx Hy) as Hxy.
  apply Sorted_inv in Hs as [Hs Hhd]. specialize (IH Hl Hs).
  destruct (cmp x y) eqn:E; rewrite ?decide_False, ?decide_True in Hxy by done; [by repeat constructor..|].
  constructor; [done|]. destruct l as [|z l]; cbn [insert_by] in *; [by constructor|].
  apply HdRel_inv in Hhd. destruct (cmp x z); by constructor.
Qed.

Lemma sort_by_Sorted l : Forall P l → Sorted R (sort_by cmp l).
Proof.
  induction 1 as [|x l Hx Hl IH]; cbn; [constructor|]. apply insert_by_Sorted; [done| |done].
  pose proof (sort_by_perm id cmp l) as Hp. by rewrite Hp.
Qed.

End SortLemmas.

Section PickLemmas.
Context {T : Type} `{!LevelTable T}.
Context (cfg : LevelsControllerConfig) (table_size : Z).

(** A controller as it is built: levels that are numbered, each with its slot in
    the status. *)
Record controller_ok (st : CompactStatus) (levels : list (LevelHandler T)) : Prop := {
  co_multiplier : (0 < ll_level_size_multiplier cfg)%Z;
  co_levels : 0 < length levels < 255;
  co_numbered : ∀ i h, levels !! i = Some h → hd_level h = Z.of_nat i;
  co_slots : length (st_levels st) = length levels;
  co_del : ∀ i h s, levels !! i = Some h → st_levels st !! i = Some s →
    (0 <= ls_del_size s <= Z.of_nat (total_size h))%Z ∧ (ls_del_size s < 2 ^ 64)%Z
}.

Definition size_left (st : CompactStatus) (levels : list (LevelHandler T)) (i : nat) : nat :=
  default 0 (total_size <$> levels !! i) - Z.to_nat (default 0%Z (ls_del_size <$> st_levels st !! i)).

(** The score of a level. *)
Definition score_of (st : CompactStatus) (targets : CompactTargets) (levels : list (LevelHandler T)) (i : nat) : f64 :=
  if i =? 0
  then f64_div (f64_of (Z.of_nat (default 0 ((λ h, length (ht_tables (hd_inner h))) <$> levels !! 0))))
         (f64_of (Z.of_nat (ll_num_level_zero_tables cfg)))
  else f64_div (f64_of (Z.of_nat (size_left st levels i))) (f64_of (Z.of_nat (default 0 (tg_target_size targets !! i)))).

Definition priority_at (st : CompactStatus) (targets : CompactTargets) (levels : list (LevelHandler T)) (i : nat) :
    CompactPriority := priority_of targets (Z.of_nat i) (score_of st targets levels i).

Lemma controller_targets_total st levels :
  controller_ok st levels →
  ∃ targets, controller_targets cfg table_size levels = Ok targets ∧
    length (tg_target_size targets) = length levels ∧ length (tg_file_size targets) = length levels ∧
    tg_base_level targets < length levels.
Proof.
  intros [Hm Hl _ _ _]. unfold controller_targets. rewrite <- (length_fmap total_size levels).
  apply level_targets_total; [cbn; lia|by rewrite length_fmap].
Qed.

Lemma level_score_at st targets levels i :
  controller_ok st levels → length (tg_target_size targets) = length levels → 0 < i < length levels →
  level_score st targets levels i = Ok (priority_at st targets levels i).
Proof.
  intros [Hm Hl Hn Hs Hd] Ht Hi. unfold level_score.
  destruct (lookup_lt_is_Some_2 levels i) as [h Hh]; [lia|]. rewrite (idx_Ok _ _ _ Hh). cbn [mbind outcome_bind].
  assert (Level_from (Z.of_nat i) = Z.of_nat i) as -> by (unfold Level_from, u8; apply Z.mod_small; lia).
  unfold del_size. rewrite Nat2Z.id.
  destruct (lookup_lt_is_Some_2 (st_levels st) i) as [s Hsl]; [lia|]. rewrite (idx_Ok _ _ _ Hsl). cbn [mbind outcome_bind].
  destruct (Hd _ _ _ Hh Hsl) as [Hr Hw]. assert (u64 (ls_del_size s) = ls_del_size s) as ->.
  { unfold u64. apply Z.mod_small. lia. }
  rewrite usub_Ok by lia. cbn [mbind outcome_bind].
  destruct (lookup_lt_is_Some_2 (tg_target_size targets) i) as [t Htl]; [lia|]. rewrite (idx_Ok _ _ _ Htl).
  cbn [mbind outcome_bind]. unfold priority_at, score_of, size_left. rewrite Hh, Hsl, Htl.
  rewrite (proj2 (Nat.eqb_neq i 0)) by lia. done.
Qed.

Lemma pick_unsorted st levels :
  controller_ok st levels →
  ∃ targets prios, controller_targets cfg table_size levels = Ok targets ∧
    length (tg_file_size targets) = length levels ∧
    unadjusted <$> prios = (λ i, unadjusted (priority_at st targets levels i)) <$> seq 0 (length levels) ∧
    pick_compact_levels cfg table_size st levels =
      Ok (sort_by more_urgent
            (filter (λ p, f64_leb f64_one (cp_score p) = true) (take (length levels - 1) prios))).
Proof.
  intros Hok. destruct (controller_targets_total st levels Hok) as (targets & Htg & Htl & Hfl & Hb).
  unfold pick_compact_levels. rewrite Htg. cbn [mbind outcome_bind].
  pose proof (co_levels _ _ Hok) as Hlen. destruct (lookup_lt_is_Some_2 levels 0) as [h0 H0]; [lia|].
  rewrite (idx_Ok _ _ _ H0). cbn [mbind outcome_bind].
  rewrite (map_outcome_Ok _ (priority_at st targets levels)).
  2:{ intros i Hi%elem_of_seq. apply level_score_at; [done|done|lia]. }
  cbn [mbind outcome_bind length]. rewrite length_fmap, length_seq. unfold assert_or_panic. guard_true.
  cbn [mbind outcome_bind]. set (prios := level0_score cfg targets h0 :: _).
  assert (prios = priority_at st targets levels <$> seq 0 (length levels)) as Hp.
  { destruct (length levels) as [|n] eqn:En; [lia|]. unfold prios. cbn [seq]. rewrite fmap_cons.
    replace (S n - 1) with n by lia. f_equal. unfold level0_score, priority_at, score_of. by rewrite H0. }
  assert (length prios = length levels) as Hpl by (by rewrite Hp, length_fmap, length_seq).
  destruct (adjust_fold (length levels - tg_base_level targets) prios 0 (tg_base_level targets))
    as (prios' & l & -> & Hu); [lia|lia|]. cbn [mbind outcome_bind].
  assert (length prios' = length levels) as Hpl'.
  { apply (f_equal length) in Hu. rewrite !length_fmap in Hu. lia. }
  rewrite Hpl', usub_Ok by lia. cbn [mbind outcome_bind]. exists targets, prios'.
  split_and!; [done|done| |done]. by rewrite Hu, Hp, <- list_fmap_compose.
Qed.

End PickLemmas.

Lemma more_urgent_total a b :
  cp_adjusted a ≠ S754_nan → cp_adjusted b ≠ S754_nan →
  if decide (more_urgent a b = Gt) then f64_leb (cp_adjusted a) (cp_adjusted b) = true
  else f64_leb (cp_adjusted b) (cp_adjusted a) = true.
Proof.
  intros Ha Hb. unfold more_urgent. destruct (f64_compare_some _ _ Hb Ha) as [c Hc].
  pose proof (f64_compare_swap (cp_adjusted b) (cp_adjusted a)) as Hs. rewrite Hc in *. cbn in *.
  case_decide; apply f64_leb_compare; destruct c; try done; auto.
Qed.

(* ------------------------------------------------------------------ *)
(** ** Lemmas: turns *)

Section TurnLemmas.
Context {T : Type} `{!LevelTable T}.
Context (cfg : LevelsControllerConfig) (table_size : Z).
Context {W : Type} (start_compact : CompactPriority → W → outcome (bool * W)).

(** Compactions that were tried in a row, only the last of which was done. *)
Inductive attempts : list CompactPriority → bool → W → W → Prop :=
| attempts_nil w : attempts [] false w w
| attempts_failed p ps b w w1 w2 :
    start_compact p w = Ok (false, w1) → attempts ps b w1 w2 → attempts (p :: ps) b w w2
| attempts_done p w w1 : start_compact p w = Ok (true, w1) → attempts [p] true w w1.

Lemma try_prios_spec prios : ∀ w w',
  try_prios start_compact prios w = Ok w' →
  ∃ ps rest b, prios = ps ++ rest ∧ attempts ps b w w' ∧
    Forall (λ p, f64_ltb (cp_adjusted p) f64_one = false) ps ∧
    (b = false → ∀ p, head rest = Some p → f64_ltb (cp_adjusted p) f64_one = true).
Proof.
  induction prios as [|p prios IH]; intros w w'; cbn [try_prios].
  { intros [= <-]. exists [], [], false. split_and!; [done|constructor|constructor|done]. }
  destruct (f64_ltb (cp_adjusted p) f64_one) eqn:Ea.
  { intros [= <-]. exists [], (p :: prios), false. split_and!; [done|constructor|constructor|]. by intros _ q [= <-]. }
  destruct (start_compact p w) as [[[] w1]| |] eqn:Es; cbn [mbind outcome_bind]; [| |done..].
  - intros [= <-]. exists [p], prios, true. split_and!; [done|by constructor|by constructor|done].
  - intros (ps & rest & b & -> & Hat & Hall & Hend)%IH. exists (p :: ps), rest, b.
    split_and!; [done|by econstructor|by constructor|done].
Qed.

Lemma move_l0_perm prios : move_l0_to_front prios ≡ₚ prios.
Proof.
  unfold move_l0_to_front. destruct (list_find _ prios) as [[i p]|] eqn:Ef; [|done].
  apply list_find_Some in Ef as (Hi & _). case_match; [|done].
  rewrite <- (take_drop_middle prios i p Hi) at 3. by rewrite Permutation_middle.
Qed.

End TurnLemmas.

(* ------------------------------------------------------------------ *)
(** ** Theorems *)

Section ScheduleTheorems.
Context {T : Type} `{!LevelTable T}.
Context (cfg : LevelsControllerConfig) (table_size : Z).

(** The levels to compact: picking returns, and lists every level but the last
    whose score is at least 1, once, with that score and the current targets, and
    no other level; unless a score is not a number the most urgent comes first. *)
Theorem pick_lists_due_levels st (levels : list (LevelHandler T)) :
  controller_ok cfg st levels →
  ∃ targets prios, controller_targets cfg table_size levels = Ok targets ∧
    pick_compact_levels cfg table_size st levels = Ok prios ∧
    (∀ p, p ∈ prios → ∃ i, i < length levels - 1 ∧ cp_level p = Z.of_nat i ∧
       cp_score p = score_of cfg st targets levels i ∧ f64_leb f64_one (cp_score p) = true ∧ cp_targets p = targets) ∧
    (∀ i, i < length levels - 1 → f64_leb f64_one (score_of cfg st targets levels i) = true →
       ∃ p, p ∈ prios ∧ cp_level p = Z.of_nat i) ∧
    NoDup (cp_level <$> prios) ∧
    (Forall (λ p, cp_adjusted p ≠ S754_nan) prios →
     Sorted (λ a b, f64_leb (cp_adjusted b) (cp_adjusted a) = true) prios).
Proof.
  intros Hok. destruct (pick_unsorted cfg table_size st levels Hok) as (targets & prios & Htg & _ & Hu & ->).
  set (kept := filter _ _). pose proof (sort_by_perm id more_urgent kept) as Hperm.
  change (λ a b, more_urgent (id a) (id b)) with more_urgent in Hperm.
  assert (∀ i p, prios !! i = Some p → i < length levels ∧ unadjusted p = unadjusted (priority_at cfg st targets levels i)) as Hat.
  { intros i p Hp. assert ((unadjusted <$> prios) !! i = Some (unadjusted p)) as Hi by (by rewrite list_lookup_fmap, Hp).
    rewrite Hu, list_lookup_fmap in Hi. apply fmap_Some in Hi as (j & [-> Hj]%lookup_seq & ->). done. }
  assert (∀ p, p ∈ kept ↔ ∃ i, i < length levels - 1 ∧ prios !! i = Some p ∧ f64_leb f64_one (cp_score p) = true) as Hk.
  { intros p. unfold kept. rewrite list_elem_of_filter, list_elem_of_lookup. setoid_rewrite lookup_take_Some. naive_solver. }
  exists targets, (sort_by more_urgent kept). split_and!; [done|done| | | |].
  - intros p Hp. rewrite Hperm in Hp. apply Hk in Hp as (i & Hi & Hp & Hs). destruct (Hat _ _ Hp) as [_ Hup].
    unfold unadjusted, with_adjusted, priority_at, priority_of in Hup. cbn in Hup. injection Hup as Hl Hsc _ Ht.
    exists i. split_and!; done.
  - intros i Hi Hs. destruct (lookup_lt_is_Some_2 prios i) as [p Hp].
    { apply (f_equal length) in Hu. rewrite !length_fmap, length_seq in Hu. lia. }
    destruct (Hat _ _ Hp) as [_ Hup]. unfold unadjusted, with_adjusted, priority_at, priority_of in Hup.
    cbn in Hup. injection Hup as Hl Hsc _ Ht. exists p. split; [|done]. rewrite Hperm. apply Hk. exists i.
    by rewrite Hsc.
  - rewrite Hperm. assert (NoDup (cp_level <$> prios)) as Hnd.
    { assert (cp_level <$> prios = Z.of_nat <$> seq 0 (length levels)) as ->.
      { replace (cp_level <$> prios) with (cp_level <$> (unadjusted <$> prios)) by by rewrite <- list_fmap_compose.
        rewrite Hu, <- list_fmap_compose. done. }
      apply NoDup_fmap_2; [apply _|apply NoDup_seq]. }
    eapply sublist_NoDup; [exact Hnd|]. apply fmap_sublist. etrans; [apply sublist_filter|apply sublist_take].
  - intros Hnan. apply (sort_by_Sorted more_urgent (λ p, cp_adjusted p ≠ S754_nan)); [|by rewrite Hperm in Hnan].
    intros a b. apply more_urgent_total.
Qed.

(** What a turn tries: in a turn that returns, whatever the compactions do, they
    are tried one after the other and at most the last one was done; each is either
    for a level below the last that is due, with an adjusted score not below 1, or,
    for the second task every 200 turns, for the last level; all have a level below
    the number of levels and targets with a file size for every level. *)
Theorem turn_tries_due_levels {W} (levels_of : W → list (LevelHandler T)) status_of start task count count' (w w' : W) :
  controller_ok cfg (status_of w) (levels_of w) →
  compact_tick cfg table_size levels_of status_of start task count w = Ok (count', w') →
  ∃ ps b, attempts start ps b w w' ∧
    Forall (λ p, (0 <= cp_level p < Z.of_nat (length (levels_of w)))%Z ∧
      length (tg_file_size (cp_targets p)) = length (levels_of w) ∧
      (f64_leb f64_one (cp_score p) = true ∧ f64_ltb (cp_adjusted p) f64_one = false ∧
         (cp_level p < Z.of_nat (length (levels_of w)) - 1)%Z ∧ count' = S count ∨
       task = 2 ∧ 200 <= S count ∧ count' = 0 ∧ cp_level p = (Z.of_nat (length (levels_of w)) - 1)%Z)) ps.
Proof.
  intros Hok. unfold compact_tick. destruct (_ && _ && _) eqn:Ec.
  - apply andb_true_iff in Ec as [[_ Ht%Nat.eqb_eq]%andb_true_iff Hc%Nat.leb_le].
    destruct (last (levels_of w)) as [h|] eqn:El; cbn [unwrap mbind outcome_bind]; [|done].
    destruct (controller_targets_total cfg table_size _ _ Hok) as (targets & -> & _ & Hfl & _). cbn [mbind outcome_bind].
    destruct (start _ w) as [[b w1]| |] eqn:Es; cbn [mbind outcome_bind]; [|done..]. intros [= <- <-].
    exists [mkPriority (hd_level h) f64_zero f64_zero [] targets], b. split.
    { destruct b; [by constructor|econstructor; [done|constructor]]. }
    pose proof (co_levels _ _ _ Hok) as Hl. rewrite last_lookup in El. apply (co_numbered _ _ _ Hok) in El.
    constructor; [|constructor]. cbn [cp_level cp_targets cp_score cp_adjusted]. split_and!; [lia|lia|done|]. right. split_and!; [done|lia|done|lia].
  - destruct (pick_lists_due_levels _ _ Hok) as (targets & prios & Htg & -> & Hin & _). cbn [mbind outcome_bind].
    set (order := if task =? 0 then _ else _). destruct (try_prios start order w) as [w1| |] eqn:Et; cbn [mbind outcome_bind]; [|done..].
    intros [= <- <-]. destruct (try_prios_spec start order w w1 Et) as (ps & rest & b & Ho & Hat & Hall & _).
    exists ps, b. split; [done|]. rewrite Forall_forall in Hall |- *. intros p Hp.
    assert (p ∈ prios) as Hpp.
    { assert (order ≡ₚ prios) as <- by (unfold order; case_match; [apply move_l0_perm|done]). rewrite Ho. set_solver. }
    destruct (Hin p Hpp) as (i & Hi & Hlv & _ & Hsc & Htg').
    destruct (controller_targets_total cfg table_size _ _ Hok) as (tg & Htg2 & _ & Hfl & _).
    assert (tg = targets) as -> by congruence. rewrite Hlv, Htg'. split_and!; [lia|lia|done|]. left.
    split_and!; [done|by apply Hall|lia|done].
Qed.

End ScheduleTheorems.

(** ** Witnesses *)

Module ScheduleExamples.

Import LevelExamples.

(** Four levels: level 0 at its limit, levels 1 and 2 over their targets. *)
Definition cfg : LevelsControllerConfig := LevelsOpen.mkLevelsConfig false 64 15 5 4 10 10 2 4 false true 1.

Definition table (id size : Z) : MetaTable :=
  mkMetaTable id (Z.to_nat size) 0 (mkKeyTs [97]%Z 1) (mkKeyTs [98]%Z 1) [].

Definition level (l : Z) (sizes : list Z) : LevelHandler MetaTable :=
  init_tables (LevelHandler_new l) (imap (λ i s, table (Z.of_nat i) s) sizes).

Definition levels : list (LevelHandler MetaTable) :=
  [level 0 (replicate 5 4%Z); level 1 [40%Z]; level 2 [45%Z]; level 3 [200%Z]].

Definition status : CompactStatus := CompactStatus_new 4.

Lemma controller_is_ok : controller_ok cfg status levels.
Proof.
  split.
  - vm_compute. reflexivity.
  - vm_compute. lia.
  - intros [|[|[|[|i]]]] h [= <-]; reflexivity.
  - reflexivity.
  - intros [|[|[|[|i]]]] h s [= <-] [= <-]; vm_compute; intuition congruence.
Defined.

Lemma pick_lists_due_levels_witness :
  ∃ prios p, pick_compact_levels cfg 64 status levels = Ok prios ∧ p ∈ prios ∧ cp_level p = 2%Z.
Proof.
  destruct (pick_lists_due_levels cfg 64 status levels controller_is_ok) as (tg & prios & Ht & Hp & _ & Hall & _).
  vm_compute in Ht. injection Ht as <-. exists prios. destruct (Hall 2) as (p & Hin & Hl).
  - vm_compute. lia.
  - vm_compute. reflexivity.
  - exists p. split; [exact Hp|]. split; [exact Hin|exact Hl].
Defined.

(** Compactions that fail are only noted. *)
Definition World : Type := list Z.
Definition note (p : CompactPriority) (w : World) : outcome (bool * World) := Ok (false, w ++ [cp_level p]).
Definition tick (task count : nat) : outcome (nat * World) :=
  compact_tick cfg 64 (λ _, levels) (λ _, status) note task count [].

Lemma turn_tries_due_levels_witness :
  ∃ ps b, attempts note ps b [] [2; 1]%Z ∧ Forall (λ p, (0 <= cp_level p < 4)%Z) ps.
Proof.
  destruct (turn_tries_due_levels cfg 64 (λ _ : World, levels) (λ _, status) note 1 0 1 [] [2; 1]%Z)
    as (ps & b & Hat & Hall).
  - exact controller_is_ok.
  - vm_compute. reflexivity.
  - exists ps, b. split; [exact Hat|]. eapply Forall_impl; [exact Hall|]. intros p [Hr _]. exact Hr.
Defined.

(** Worker 0 stands still: with level 0 at its limit and levels 1 and 2 several
    times over their targets, the adjusted score of level 0 is below 1, so worker 0,
    which looks at level 0 first, tries nothing in its turn; another worker tries
    levels 2 and 1, and the second one tries the last level in its 200th turn. *)
Theorem worker_zero_idles : tick 0 0 = Ok (1, []) ∧ tick 1 0 = Ok (1, [2; 1]%Z) ∧ tick 2 199 = Ok (0, [3]%Z).
Proof. split_and!; vm_compute; reflexivity. Qed.

End ScheduleExamples.
