(* ===== verification/Histogram.v ===== *)
(** * Histogram: the value threshold that follows the sizes of values

    [Histogram] (src/src/vlog/histogram.rs) and the task that moves the threshold
    of the value log with it (src/src/vlog/threshold.rs).

    The logarithm and the exponential of the machine's library are an interface.
    The buckets are a map without its zero entries; the counters are atomics that
    wrap around. *)
From stdpp Require Import base list list_numbers gmap strings.
From Stdlib Require Import ZArith Lia SpecFloat.
From S2P Require Import Prelude Float64 Util Config.

Local Open Scope Z_scope.

(** [f64::ln] and [f64::exp] *)
Class Libm : Type := { f64_ln : f64 → f64; f64_exp : f64 → f64 }.

Definition PRECISION : f64 := f64_of 100.
Definition BUCKETS : Z := Z.shiftl 1 16.
Definition U16_MAX : Z := 2 ^ 16 - 1.
Definition HALF : f64 := f64_div (f64_of 1) (f64_of 2).

Record Histogram : Type := mkHistogram {
  hi_vals : gmap Z Z;
  hi_sum : Z;
  hi_count : Z
}.

Definition Histogram_default : Histogram := mkHistogram ∅ 0 0.

Definition bucket (h : Histogram) (i : Z) : Z := default 0 (hi_vals h !! i).

Section HistogramCode.
Context `{!Libm}.

Definition compress (value : f64) : outcome Z :=
  let compressed := f64_add (f64_mul PRECISION (f64_ln (f64_add f64_one (SFabs value)))) HALF in
  _ ← assert_or_panic (f64_leb compressed (f64_of U16_MAX));
  Ok (f64_to U16_MAX compressed).

Definition decompress (compressed : Z) : f64 :=
  SFsub 53 1024 (f64_exp (f64_div (f64_of compressed) PRECISION)) f64_one.

(** [measure]: the new count of the bucket.  A whole number is its own rounding. *)
Definition measure (h : Histogram) (raw_value : Z) : outcome (Z * Histogram) :=
  let value_float := f64_of raw_value in
  let sum := u64 (hi_sum h + f64_to U64_MAX value_float) in
  let count := u64 (hi_count h + 1) in
  compressed ← compress value_float;
  let n := u64 (bucket h compressed + 1) in
  Ok (n, mkHistogram (<[compressed := n]> (hi_vals h)) sum count).

(** The loop of [percentile] over the buckets from [idx]. *)
Fixpoint percentile_loop (buckets : nat) (h : Histogram) (target : f64) (idx : Z) (sum : f64) : f64 :=
  match buckets with
  | O => S754_nan
  | S buckets =>
      let sum := f64_add sum (f64_of (bucket h idx)) in
      if f64_leb target sum then decompress idx else percentile_loop buckets h target (idx + 1) sum
  end.

Definition percentile_target (count : Z) (p : f64) : f64 :=
  let target := f64_mul (f64_of count) (f64_div p (f64_of 100)) in
  if f64_eqb target f64_zero then f64_one else target.

Definition percentile (h : Histogram) (p : f64) : outcome f64 :=
  _ ← assert_or_panic (f64_leb p (f64_of 100));
  if hi_count h =? 0 then Ok S754_nan
  else Ok (percentile_loop (Z.to_nat BUCKETS) h (percentile_target (hi_count h) p) 0 f64_zero).

(** [clear]: the buckets keep their counts. *)
Definition hist_clear (h : Histogram) : Histogram := mkHistogram (hi_vals h) 0 0.

(** ** The threshold *)

Record VlogThreshold : Type := mkThreshold {
  th_config : VlogThresholdConfig;
  th_value_threshold : Z;
  th_histogram : Histogram;
  th_clear_notify : bool
}.

Fixpoint measure_all (h : Histogram) (values : list Z) : outcome Histogram :=
  match values with
  | [] => Ok h
  | v :: values => '(_, h) ← measure h v; measure_all h values
  end.

Definition threshold_bounds (c : VlogThresholdConfig) : list Z := [vt_value_threshold c; vt_max_value_threshold c].

(** [VlogThreshold::new] *)
Definition VlogThreshold_new (c : VlogThresholdConfig) : outcome VlogThreshold :=
  h ← measure_all Histogram_default (threshold_bounds c);
  Ok (mkThreshold c (vt_value_threshold c) h false).

(** [clear]: the task is notified, which is remembered once. *)
Definition threshold_clear (t : VlogThreshold) : VlogThreshold :=
  mkThreshold (th_config t) (vt_value_threshold (th_config t)) (th_histogram t) true.

(** The turn of the task that takes the sizes of written values. *)
Definition on_values (t : VlogThreshold) (values : list Z) : outcome VlogThreshold :=
  h ← measure_all (th_histogram t) values;
  p ← percentile h (vt_vlog_percentile (th_config t));
  Ok (mkThreshold (th_config t) (f64_to U64_MAX p) h (th_clear_notify t)).

(** The turn that takes a notification. *)
Definition on_clear (t : VlogThreshold) : outcome VlogThreshold :=
  h ← measure_all (hist_clear (th_histogram t)) (threshold_bounds (th_config t));
  Ok (mkThreshold (th_config t) (th_value_threshold t) h false).

Inductive ThresholdTurn : Type :=
| Values (values : list Z)
| Notified.

Inductive threshold_step : VlogThreshold → ThresholdTurn → VlogThreshold → Prop :=
| step_values t values t' : on_values t values = Ok t' → threshold_step t (Values values) t'
| step_notified t t' : th_clear_notify t = true → on_clear t = Ok t' → threshold_step t Notified t'.

End HistogramCode.

(* ------------------------------------------------------------------ *)
(** ** Lemmas *)

Section HistogramLemmas.
Context `{!Libm}.

Definition in_bucket (i : Z) (v : Z) : Prop := compress (f64_of v) = Ok i.

#[global] Instance in_bucket_dec i v : Decision (in_bucket i v).
Proof. unfold in_bucket. destruct (compress (f64_of v)) as [j| |]; [|right; done..]. destruct (decide (j = i)); [left; congruence|right; congruence]. Defined.

Definition number_in (i : Z) (vs : list Z) : Z := Z.of_nat (length (filter (in_bucket i) vs)).

(** The buckets count the values [vs], and the counter stands at [n]. *)
Definition hist_has (vs : list Z) (n : Z) (h : Histogram) : Prop :=
  hi_count h = n ∧ (∀ i, bucket h i = number_in i vs) ∧ Forall (λ v, ∃ i, in_bucket i v) vs.

Lemma number_in_app i vs ws : number_in i (vs ++ ws) = number_in i vs + number_in i ws.
Proof. unfold number_in. rewrite filter_app, length_app. lia. Qed.

Lemma number_in_le i vs : 0 ≤ number_in i vs ≤ Z.of_nat (length vs).
Proof. unfold number_in. pose proof (length_filter (in_bucket i) vs). lia. Qed.

Lemma measure_has vs n h v r h' :
  hist_has vs n h → 0 ≤ n → n + 1 < 2 ^ 64 → Z.of_nat (length vs) + 1 < 2 ^ 64 →
  measure h v = Ok (r, h') → hist_has (vs ++ [v]) (n + 1) h'.
Proof.
  intros (Hn & Hb & Hc) Hpos Hlim Hlen. unfold measure. destruct (compress (f64_of v)) as [c| |] eqn:Ec; [|done..].
  cbn [mbind outcome_bind]. intros [= <- <-]. pose proof (number_in_le c vs) as Hle.
  split_and!; cbn [hi_count hi_vals].
  - rewrite Hn. unfold u64. apply Z.mod_small. lia.
  - intros i. pose proof (Hb i) as Hi. unfold bucket in Hi |- *. cbn [hi_vals]. rewrite number_in_app. unfold number_in at 2.
    destruct (decide (i = c)) as [->|Hne].
    + rewrite lookup_insert_eq, filter_cons_True by done. cbn [default from_option id]. unfold bucket. rewrite Hi. unfold u64. rewrite Z.mod_small by lia. cbn. lia.
    + rewrite lookup_insert_ne by done. rewrite Hi, filter_cons_False by (unfold in_bucket; congruence). cbn. lia.
  - apply Forall_app. split; [done|]. constructor; [by exists c|done].
Qed.

Lemma measure_all_has values : ∀ vs n h h',
  hist_has vs n h → 0 ≤ n → n + Z.of_nat (length values) < 2 ^ 64 →
  Z.of_nat (length vs) + Z.of_nat (length values) < 2 ^ 64 →
  measure_all h values = Ok h' → hist_has (vs ++ values) (n + Z.of_nat (length values)) h'.
Proof.
  induction values as [|v values IH]; intros vs n h h' Hh Hn Hlim Hlen; cbn [measure_all].
  { intros [= <-]. rewrite app_nil_r. cbn. by rewrite Z.add_0_r. }
  destruct (measure h v) as [[r h1]| |] eqn:Em; cbn [mbind outcome_bind]; [|done..]. cbn [length] in *.
  pose proof (measure_has vs n h v r h1 Hh Hn ltac:(lia) ltac:(lia) Em) as H1. intros Hr.
  specialize (IH (vs ++ [v]) (n + 1) h1 h' H1 ltac:(lia) ltac:(lia)). rewrite length_app in IH. cbn [length] in IH.
  specialize (IH ltac:(lia) Hr). rewrite <- app_assoc in IH. cbn [app] in IH.
  replace (n + Z.of_nat (S (length values))) with (n + 1 + Z.of_nat (length values)) by lia. done.
Qed.

(** For at most 100 values the target of percentile 1 is reached by one value. *)
Lemma small_targets n b :
  1 ≤ n ≤ 100 → 1 ≤ b ≤ 100 →
  f64_leb (percentile_target n f64_one) (f64_of b) = true ∧ f64_leb (percentile_target n f64_one) f64_zero = false ∧
  f64_add f64_zero (f64_of b) = f64_of b.
Proof.
  intros Hn Hb.
  assert (forallb (λ n, let t := percentile_target n f64_one in
    forallb (λ b, f64_leb t (f64_of b)) (seqZ 1 100) && negb (f64_leb t f64_zero)) (seqZ 1 100) = true) as H1
    by (vm_compute; reflexivity).
  rewrite forallb_forall in H1.
  assert (∀ x, 1 ≤ x ≤ 100 → In x (seqZ 1 100)) as Hin by (intros x Hx; apply list_elem_of_In, elem_of_seqZ; lia).
  specialize (H1 n (Hin n Hn)).
  cbn zeta in H1. apply andb_true_iff in H1 as [H1 H3]. rewrite forallb_forall in H1.
  specialize (H1 b (Hin b Hb)).
  apply negb_true_iff in H3. split_and!; [done|done|].
  destruct (f64_of b) as [[]| | |]; try done. destruct (percentile_target n f64_one) as [|[]| |[]]; done.
Qed.

(** Empty buckets are passed over. *)
Lemma percentile_loop_empty h target k : ∀ n idx,
  (∀ i, idx ≤ i < idx + Z.of_nat n → bucket h i = 0) → f64_leb target f64_zero = false →
  percentile_loop (n + k) h target idx f64_zero = percentile_loop k h target (idx + Z.of_nat n) f64_zero.
Proof.
  induction n as [|n IH]; intros idx He Ht; [cbn; by rewrite Z.add_0_r|]. cbn [Nat.add percentile_loop].
  rewrite He by lia. change (f64_add f64_zero (f64_of 0)) with f64_zero. rewrite Ht, IH; [f_equal; lia| |done].
  intros i Hi. apply He. lia.
Qed.

Lemma in_bucket_range i v : in_bucket i v → 0 ≤ i < BUCKETS.
Proof.
  unfold in_bucket, compress. destruct (assert_or_panic _); cbn [mbind outcome_bind]; [|done..]. intros [= <-].
  match goal with |- context [f64_to U16_MAX ?f] => pose proof (f64_to_bounds U16_MAX f) end.
  unfold U16_MAX, BUCKETS in *. change (Z.shiftl 1 16) with (2 ^ 16). lia.
Qed.

Lemma in_bucket_counted i v vs : v ∈ vs → in_bucket i v → 1 ≤ number_in i vs.
Proof.
  intros Hv Hi. unfold number_in. assert (v ∈ filter (in_bucket i) vs) as Hf by by apply list_elem_of_filter.
  destruct (filter (in_bucket i) vs); [by apply elem_of_nil in Hf|cbn; lia].
Qed.

Lemma counted_in_bucket i vs : number_in i vs ≠ 0 → ∃ v, v ∈ vs ∧ in_bucket i v.
Proof.
  unfold number_in. destruct (filter (in_bucket i) vs) as [|v l] eqn:E; [done|]. intros _. exists v.
  assert (v ∈ filter (in_bucket i) vs) as [? ?]%list_elem_of_filter by (rewrite E; left). done.
Qed.

(** The smallest bucket in use. *)
Lemma smallest_bucket vs :
  vs ≠ [] → Forall (λ v, ∃ i, in_bucket i v) vs →
  ∃ v i, v ∈ vs ∧ in_bucket i v ∧ ∀ w j, w ∈ vs → in_bucket j w → i ≤ j.
Proof.
  induction vs as [|v vs IH]; [done|]. intros _ Hall. apply Forall_cons in Hall as [[i Hi] Hall].
  destruct (decide (vs = [])) as [->|Hne].
  { exists v, i. split_and!; [left|done|]. intros w j Hw%list_elem_of_singleton Hj. subst w. unfold in_bucket in *.
    assert (i = j) by congruence. lia. }
  destruct (IH Hne Hall) as (u & k & Hu & Hk & Hmin). destruct (Z.le_gt_cases i k) as [Hle|Hgt].
  - exists v, i. split_and!; [left|done|]. intros w j [->|Hw]%elem_of_cons Hj; [unfold in_bucket in *; assert (i = j) by congruence; lia|].
    specialize (Hmin w j Hw Hj). lia.
  - exists u, k. split_and!; [by right|done|]. intros w j [->|Hw]%elem_of_cons Hj; [unfold in_bucket in *; assert (i = j) by congruence; lia|].
    by apply (Hmin w j).
Qed.

Lemma percentile_smallest vs n h i v :
  hist_has vs n h → 1 ≤ n ≤ 100 → (length vs <= 100)%nat → v ∈ vs → in_bucket i v →
  (∀ w j, w ∈ vs → in_bucket j w → i ≤ j) → percentile h f64_one = Ok (decompress i).
Proof.
  intros (Hn & Hb & Hc) Hlim Hlen Hv Hi Hmin. unfold percentile.
  change (assert_or_panic (f64_leb f64_one (f64_of 100))) with (Ok ()). cbn [mbind outcome_bind].
  rewrite Hn, (proj2 (Z.eqb_neq n 0)) by lia. f_equal. pose proof (in_bucket_range i v Hi) as Hr.
  pose proof (in_bucket_counted i v vs Hv Hi) as Hcnt. pose proof (number_in_le i vs) as Hle.
  destruct (small_targets n (number_in i vs) Hlim ltac:(lia)) as (H1 & H2 & H3).
  replace (Z.to_nat BUCKETS) with (Z.to_nat i + S (Z.to_nat (BUCKETS - i - 1)))%nat by lia.
  rewrite percentile_loop_empty; [|intros j Hj|done].
  - rewrite Z2Nat.id, Z.add_0_l by lia. cbn [percentile_loop]. by rewrite Hb, H3, H1.
  - rewrite Hb. destruct (decide (number_in j vs = 0)) as [|Hne]; [done|].
    destruct (counted_in_bucket j vs Hne) as (w & Hw & Hjw). specialize (Hmin w j Hw Hjw). lia.
Qed.

End HistogramLemmas.

(* ------------------------------------------------------------------ *)
(** ** Theorems *)

Section HistogramTheorems.
Context `{!Libm}.

(** The threshold follows the smallest value: with the largest percentile the
    configuration admits, 1, after at most 100 sizes have been measured the turn
    that takes new sizes sets the threshold to the value of the lowest bucket any
    of them is in, whatever the logarithm and the exponential. *)
Theorem threshold_follows_smallest t vs values t' :
  hist_has vs (Z.of_nat (length vs)) (th_histogram t) → vt_vlog_percentile (th_config t) = f64_one →
  (length vs + length values <= 100)%nat → vs ++ values ≠ [] → on_values t values = Ok t' →
  ∃ v i, v ∈ vs ++ values ∧ compress (f64_of v) = Ok i ∧
    (∀ w j, w ∈ vs ++ values → compress (f64_of w) = Ok j → i ≤ j) ∧
    th_value_threshold t' = f64_to U64_MAX (decompress i).
Proof.
  intros Hh Hp Hlen Hne. unfold on_values. destruct (measure_all (th_histogram t) values) as [h| |] eqn:Em; [|done..].
  cbn [mbind outcome_bind]. apply (measure_all_has values vs (Z.of_nat (length vs))) in Em; [|done|lia|lia|lia].
  pose proof Em as (_ & _ & Hall). destruct (smallest_bucket _ Hne Hall) as (v & i & Hv & Hi & Hmin).
  assert (length (vs ++ values) ≠ 0%nat) as Hl0 by (by destruct (vs ++ values)). rewrite length_app in Hl0.
  rewrite Hp, (percentile_smallest _ _ h i v Em); [|lia|rewrite length_app; lia|done|done|done].
  cbn [mbind outcome_bind]. intros [= <-]. exists v, i. split_and!; done.
Qed.

(** Clearing resets the counter but not the buckets: after a notification the
    histogram has the buckets of all values ever measured and the two bounds, and a
    counter of 2. *)
Theorem clear_keeps_buckets t vs n t' :
  hist_has vs n (th_histogram t) → Z.of_nat (length vs) + 2 < 2 ^ 64 → on_clear t = Ok t' →
  hist_has (vs ++ threshold_bounds (th_config t)) 2 (th_histogram t').
Proof.
  intros (_ & Hb & Hc) Hl. unfold on_clear. destruct (measure_all _ _) as [h| |] eqn:Em; [|done..].
  cbn [mbind outcome_bind]. intros [= <-]. cbn [th_histogram].
  apply (measure_all_has _ vs 0 _ _) in Em; [exact Em|done|lia|cbn; lia|cbn; lia].
Qed.

End HistogramTheorems.

(** ** Witnesses *)

Module HistogramExamples.

(** One bucket per hundredth. *)
#[export] Instance linear_libm : Libm | 100 := {| f64_ln f := f; f64_exp f := f |}.

Definition config : VlogThresholdConfig := mkThresholdConfig 9 f64_one 5.

Lemma default_has : hist_has [] 0 Histogram_default.
Proof. split; [reflexivity|]. split; [intros i; reflexivity|apply Forall_nil; exact I]. Defined.

Definition fresh : VlogThreshold :=
  match VlogThreshold_new config with Ok t => t | _ => mkThreshold config 0 Histogram_default false end.

Definition after (t : VlogThreshold) (values : list Z) : VlogThreshold :=
  match on_values t values with Ok t => t | _ => t end.

(** Of 5, 9, 8 and 3 the threshold becomes 3. *)
Lemma threshold_follows_smallest_witness :
  th_value_threshold (after fresh [8; 3]) = 3 ∧ ∃ v i, v ∈ [5; 9; 8; 3] ∧ compress (f64_of v) = Ok i ∧
    th_value_threshold (after fresh [8; 3]) = f64_to U64_MAX (decompress i).
Proof.
  split; [vm_compute; reflexivity|].
  destruct (threshold_follows_smallest fresh [5; 9] [8; 3] (after fresh [8; 3])) as (v & i & Hv & Hc & _ & Hr).
  - assert (measure_all Histogram_default (threshold_bounds config) = Ok (th_histogram fresh)) as Hm by (vm_compute; reflexivity).
    apply (measure_all_has _ [] 0 _ _ default_has) in Hm; [exact Hm|lia|vm_compute; reflexivity|vm_compute; reflexivity].
  - reflexivity.
  - vm_compute. lia.
  - discriminate.
  - vm_compute. reflexivity.
  - exists v, i. split; [exact Hv|]. split; [exact Hc|exact Hr].
Defined.

(** A value measured before [clear] still decides the threshold after it. *)
Lemma cleared_value_decides :
  match on_clear (threshold_clear (after fresh [1])) with
  | Ok t => th_value_threshold (after t [7; 7]) = 1
  | _ => False
  end.
Proof. vm_compute. reflexivity. Qed.

End HistogramExamples.
