(* ===== verification/DbOpen.v ===== *)
(** * DbOpen: opening a database

    [DB::open] and [DBInner] of src/src/db.rs: the configuration (Config.v), the
    locks of the directories (Lock.v), the manifest (Manifest.v), the key registry
    (KeyRegistry.v), the memtables (MemTable.v), the levels (LevelsOpen.v), the
    oracle (Oracle.v), the discard statistics (Discard.v) and the value log
    (VlogOpen.v), in the order of the code.

    The disk is the content of the files each part looks at, and the answer of the
    synchronisation of the levels' directory.  What the registry
    answers to the parts while the database opens, the opening of one table file
    and the random choices are arguments.  The background tasks that are started at
    the end are in WriterTask.v, Flush.v, Schedule.v and Publisher.v. *)
From stdpp Require Import base list list_numbers gmap strings sets relations.
From Stdlib Require Import ZArith Lia.
From S2P Require Import Prelude Float64 Util VarInt Kv Iter Pb Storage Block Table WaterMark Oracle Txn Manifest Level.
From S2P Require Import TableBuild Vlog Arena SkipList MemTable Mmap Discard KeyRegistry LevelsOpen Config VlogOpen Lock.

Local Open Scope nat_scope.

Record Disk : Type := mkDisk {
  dk_dirs : gset nat;
  dk_manifest : option (list Z);
  dk_registry : option (list Z);
  dk_memtables : gmap Z (list Z);
  dk_tables : gset Z;
  dk_sync : outcome unit;
  dk_discard : list Z;
  dk_vlog : list (Z * list Z)
}.

Record DBInner (T : Type) : Type := mkDBInner {
  db_key_registry : KeyRegistryInner;
  db_memtable : option MemTable;
  db_immut_memtable : list MemTable;
  db_block_cache : option Z;
  db_index_cache : Z;
  db_level_controller : LevelsController T;
  db_oracle : Oracle;
  db_vlog : ValueLog;
  db_banned_namespaces : gset Z;
  db_is_closed : bool;
  db_block_writes : bool;
  db_opt_ : Config;
  db_lock_guard : option (list DirLockGuard)
}.

Arguments mkDBInner {T}.
Arguments db_memtable {T}.
Arguments db_immut_memtable {T}.
Arguments db_level_controller {T}.
Arguments db_oracle {T}.
Arguments db_vlog {T}.
Arguments db_opt_ {T}.
Arguments db_lock_guard {T}.

Section DbOpenCode.
Context `{!VarInt, !VarIntRead, !ChecksumCodec, !Aead, !DataKeyCodec, !ManifestCodec, !TableOrder}.
Context {T : Type} `{!LevelTable T, !TableStats T}.
Context (page retries : nat) (nonce : list Z) (flips : list (list bool)).
Context (order : gmap Z DataKey → list (Z * DataKey)) (draw : nat).
Context (serve : KeyRegistryInner → Registry).
Context (open_table : KeyRegistryInner → TableConfig → Z → TableManifest → outcome (option T)).
Context (canonicalize : nat → option nat).

(** [init_global_rayon_pool]: the thread pool of the process can be built once. *)
Definition init_global_rayon_pool (pool_built : bool) : outcome bool :=
  if pool_built then Err (EMsg "The global thread pool has already been initialized.") else Ok true.

(** [DB::open] after the locks were taken. *)
Definition open_parts (pool_built : bool) (opt : Config) (lock_guard : option (list DirLockGuard)) (disk : Disk) :
    outcome (DBInner T) :=
  _ ← init_global_rayon_pool pool_built;
  manifest ← Manifest_open (cf_manifest opt) (dk_manifest disk);
  block_cache ← block_cache_build (cf_block_cache opt);
  index_cache ← index_cache_build (cf_index_cache opt);
  '(key_registry, _) ← registry_open order draw (cf_key_registry opt) (dk_registry disk);
  '(immut_memtable, memtable_cfg) ←
    MemTable_open_many page retries (cf_memtable opt) (serve key_registry) nonce flips (dk_memtables disk)
      (elements (dom (dk_memtables disk)));
  memtable ← (if negb (cf_read_only opt) then
                '(m, _) ← MemTable_new page retries memtable_cfg (serve key_registry) nonce (dk_memtables disk);
                Ok (Some m)
              else Ok None);
  level_controller ← levels_build (open_table key_registry (cf_table opt)) (cf_level_controller opt)
                       (mn_info manifest) (dk_tables disk) (dk_sync disk);
  max_version ← max_txn_ts (mt_max_version <$> immut_memtable) (lc_levels level_controller);
  oracle ← Oracle_new (cf_txn opt) max_version;
  _ ← DiscardStats_new (dk_discard disk);
  '(vlog, _) ← ValueLog_open (serve key_registry) (cf_vlog_read_only opt) (ValueLog_new (cf_vlog opt)) (dk_vlog disk);
  _ ← assert_or_panic (0 <? cf_num_memtables opt);
  Ok (mkDBInner key_registry memtable immut_memtable block_cache index_cache level_controller oracle vlog ∅ false
        false opt lock_guard).

(** [DB::open]: the database, and the locks afterwards; when it fails the guards
    are dropped. *)
Definition DB_open (pid : Z) (pool_built : bool) (opt : Config) (disk : Disk) (os : Os) : outcome (DBInner T) * Os :=
  match Config_init opt (dk_dirs disk) with
  | Ok (opt, _) =>
      let lg := cf_lock_guard opt in
      match try_build canonicalize pid (lg_bypass_lock_guard lg) (lg_read_only lg) (elements (lg_dirs lg)) os with
      | (Ok lock_guard, os) =>
          match open_parts pool_built opt lock_guard disk with
          | Ok db => (Ok db, os)
          | Err e => (Err e, foldl drop_guard os (default [] lock_guard))
          | Panic => (Panic, foldl drop_guard os (default [] lock_guard))
          end
      | (Err e, os) => (Err e, os)
      | (Panic, os) => (Panic, os)
      end
  | Err e => (Err e, os)
  | Panic => (Panic, os)
  end.

End DbOpenCode.

(* ------------------------------------------------------------------ *)
(** ** Lemmas *)

Section DbOpenLemmas.
Context `{!VarInt, !VarIntRead, !ChecksumCodec, !Aead, !DataKeyCodec, !ManifestCodec, !TableOrder}.
Context {T : Type} `{!LevelTable T, !TableStats T}.
Context (page retries : nat) (nonce : list Z) (flips : list (list bool)).
Context (order : gmap Z DataKey → list (Z * DataKey)) (draw : nat).
Context (serve : KeyRegistryInner → Registry).
Context (open_table : KeyRegistryInner → TableConfig → Z → TableManifest → outcome (option T)).

(** Versions of the database are below the next timestamp. *)
Definition versions_below (db : DBInner T) : Prop :=
  (∀ m, m ∈ db_immut_memtable db → (mt_max_version m < oc_next_txn_ts (or_inner (db_oracle db)))%Z) ∧
  (∀ h t, h ∈ lc_levels (db_level_controller db) → t ∈ ht_tables (hd_inner h) →
     (max_version t < oc_next_txn_ts (or_inner (db_oracle db)))%Z).

Lemma Oracle_new_next cfg v o : Oracle_new cfg v = Ok o → oc_next_txn_ts (or_inner o) = (v + 1)%Z.
Proof. unfold Oracle_new, TxnTs_add. destruct (_ <=? _)%Z; [|done]. cbn [mbind outcome_bind]. by intros [= <-]. Qed.

Lemma open_parts_spec pool opt lg disk db :
  open_parts page retries nonce flips order draw serve open_table pool opt lg disk = Ok db →
  pool = false ∧ db_opt_ db = opt ∧ db_lock_guard db = lg ∧ versions_below db ∧
  (is_Some (db_memtable db) ↔ cf_read_only opt = false) ∧ 0 < cf_num_memtables opt.
Proof.
  unfold open_parts, init_global_rayon_pool. destruct pool; [done|]. cbn [mbind outcome_bind].
  intros (manifest & _ & Hres)%bind_Ok. apply bind_Ok in Hres as (bc & _ & Hres). apply bind_Ok in Hres as (ic & _ & Hres).
  apply bind_Ok in Hres as ([reg regf] & _ & Hres). apply bind_Ok in Hres as ([immut mcfg] & _ & Hres).
  apply bind_Ok in Hres as (mem & Hmem & Hres). apply bind_Ok in Hres as (lc & _ & Hres). apply bind_Ok in Hres as (v & Hv & Hres).
  apply bind_Ok in Hres as (orc & Ho & Hres). apply bind_Ok in Hres as (ds & _ & Hres). apply bind_Ok in Hres as ([vl dels] & _ & Hres).
  apply bind_Ok in Hres as (u & Hn & Hres). injection Hres as <-. apply Oracle_new_next in Ho.
  destruct (max_txn_ts_covers _ _ _ Hv) as [Hm Hl].
  unfold versions_below. cbn [db_immut_memtable db_oracle db_level_controller db_memtable]. rewrite Ho.
  split; [done|]. split; [done|]. split; [done|]. split; [|split].
  - split; [intros m Hin|intros h t Hh Ht].
    + assert (mt_max_version m ≤ v)%Z by (by apply Hm, list_elem_of_fmap_2). lia.
    + specialize (Hl h t Hh Ht). lia.
  - destruct (cf_read_only opt); cbn [negb] in Hmem; [injection Hmem as <-; split; [by intros []|done]|].
    apply bind_Ok in Hmem as ([m ?] & _ & [= <-]). done.
  - unfold assert_or_panic in Hn. destruct (0 <? cf_num_memtables opt) eqn:E; [|done]. by apply Nat.ltb_lt.
Qed.

End DbOpenLemmas.

(* ------------------------------------------------------------------ *)
(** ** Theorems *)

Section DbOpenTheorems.
Context `{!VarInt, !VarIntRead, !ChecksumCodec, !Aead, !DataKeyCodec, !ManifestCodec, !TableOrder}.
Context {T : Type} `{!LevelTable T, !TableStats T}.
Context (page retries : nat) (nonce : list Z) (flips : list (list bool)).
Context (order : gmap Z DataKey → list (Z * DataKey)) (draw : nat).
Context (serve : KeyRegistryInner → Registry).
Context (open_table : KeyRegistryInner → TableConfig → Z → TableManifest → outcome (option T)).
Context (canonicalize : nat → option nat).

(** C40: Opening a database, in every state the processes can reach and when all paths
    can be made canonical.  A database that opens gives timestamps above the versions
    of all its tables and immutable memtables, and has a memtable to write to exactly
    when its configuration is not read-only; unless its configuration bypasses the
    lock guard, it holds a lock on each of the five directories of its configuration
    (of the manifest, the key registry, the memtables, the levels and the value log),
    exclusive unless the lock guard is read-only.  A database that does not open
    leaves the locks as they were. *)
Theorem db_open_locks_and_timestamps pid pool opt disk files s :
  rtc (lock_step canonicalize) (sys_start files) s → (∀ p, is_Some (canonicalize p)) →
  match DB_open page retries nonce flips order draw serve open_table canonicalize pid pool opt disk (sy_os s) with
  | (Ok db, os') =>
      versions_below db ∧ (is_Some (db_memtable db) ↔ cf_read_only opt = false) ∧
      (lg_bypass_lock_guard (cf_lock_guard opt) = false → ∀ p, p ∈ dir_list (cf_dirs opt) →
         ∃ dir fd, canonicalize p = Some dir ∧
           mkHeld dir fd (negb (lg_read_only (cf_lock_guard opt))) ∈ os_held os')
  | (_, os') => ∀ h, h ∈ os_held os' ↔ h ∈ os_held (sy_os s)
  end.
Proof.
  intros Hr Hcan. unfold DB_open. destruct (Config_init opt (dk_dirs disk)) as [[c dirs]| |] eqn:Ec; [|done..].
  destruct (Config_init_locks _ _ _ _ Ec) as (Hdirs & Hbp & Hlro & Hcro). rewrite <- Hbp, <- Hlro, <- Hcro.
  set (lg := cf_lock_guard c) in *. pose proof (lock_inv_reachable _ _ _ Hr) as Hinv. destruct s as [os gs0]. cbn [sy_os] in *.
  assert (match try_build canonicalize pid (lg_bypass_lock_guard lg) (lg_read_only lg) (elements (lg_dirs lg)) os with
    | (Ok g, os') => lock_inv (mkSys os' (owned pid (default [] g) ++ gs0)) ∧
        (lg_bypass_lock_guard lg = false → Forall2 (guards_path canonicalize (lg_read_only lg)) (elements (lg_dirs lg)) (default [] g))
    | (Err _, os') => lock_inv (mkSys os' gs0) | (Panic, _) => False end) as Ht.
  { unfold try_build. destruct (lg_bypass_lock_guard lg); [done|]. cbn [negb].
    pose proof (acquire_all_spec canonicalize pid (lg_read_only lg) gs0 (elements (lg_dirs lg)) [] [] os Hinv
      (List.Forall2_nil _)) as Ha. cbn [app] in Ha. destruct (acquire_all _ _ _ _ _ _) as [[gs|e|] os'].
    - destruct Ha as [Hg Hi]; [by apply Forall_forall|]. cbn. done.
    - destruct Ha as [Hi _]; [by apply Forall_forall|]. done.
    - by apply Ha, Forall_forall. }
  assert (∀ os', lock_inv (mkSys os' gs0) → ∀ h, h ∈ os_held os' ↔ h ∈ os_held os) as Hsame.
  { intros os' Hi h. by rewrite (li_held _ Hi h), (li_held _ Hinv h). }
  destruct (try_build _ _ _ _ _ _) as [[g|e|] os1]; [|by apply Hsame|done]. destruct Ht as [Hi Hgs].
  destruct (open_parts _ _ _ _ _ _ _ _ _ _ _ _) as [db|e|] eqn:Eo; [|by apply Hsame, (lock_inv_drop_all pid)..].
  apply open_parts_spec in Eo as (_ & Hopt & Hlg & Hver & Hmem & _). 
  split_and!; [done|done|]. intros Hb p Hp%Hdirs. specialize (Hgs Hb). apply elem_of_elements in Hp.
  apply list_elem_of_lookup in Hp as [i Hpi]. destruct (Forall2_lookup_l _ _ _ _ _ Hgs Hpi) as (x & Hx & Hd & Hro).
  exists (dg_abs_pid_path x), (dg_dir_fd x). split; [done|]. apply (li_held _ Hi). exists (pid, x). split.
  - cbn [sy_guards]. apply elem_of_app. left. unfold owned. apply list_elem_of_In. rewrite <- in_rev. apply list_elem_of_In.
    apply list_elem_of_fmap_2. by eapply list_elem_of_lookup_2.
  - unfold held_of. cbn. by rewrite Hro.
Qed.

End DbOpenTheorems.

(** ** Witnesses *)

Module DbOpenExamples.
Import LevelExamples.

#[local] Existing Instances VlogExamples.leb_read ManifestExamples.toy_manifest ManifestExamples.list_order.

#[local] Instance meta_stats : TableStats MetaTable := {|
  key_count _ := 1%Z; on_disk_size _ := 1%Z; get_stale_data_size _ := Ok 0%Z; index_len _ := 0;
  bloom_filter_len _ := 0; uncompressed_size _ := 1%Z
|}.

(** A database to be read, with the table [ta] in level 0; its value log takes
    files of [1000 + rest] bytes. *)
Definition reading (rest : nat) : Config :=
  mkConfig false 1 true 5 None false (mkMemTableConfig true 100 0 5 1) BlockCacheConfig_default
    IndexCacheConfig_default LevelsControllerConfig_default BuildExamples.plain_config
    (mkValueLogConfig (1000 + rest) 1000) true (mkKeyRegistryConfig [] 0 true) (mkLockGuardConfig ∅ false true)
    (mkThresholdConfig 0 f64_zero 0) TxnConfig_default (mkManifestConfig true 0) (mkDirs 0 0 1 0 1) 0 0.

Definition info : ManifestInfo := mkManifestInfo [] {[1%Z := mkTableManifest 0 0 CNone]} 1 0.

Definition disk : Disk :=
  mkDisk {[0; 1]} (Some (help_rewrite (mkManifestConfig true 0) info).1) None ∅ {[1%Z]} (Ok ()) (replicate 32 0%Z) [].

Definition open_ta (_ : KeyRegistryInner) (_ : TableConfig) (_ : Z) (_ : TableManifest) : outcome (option MetaTable) :=
  Ok (Some ta).

Definition opened (rest : nat) : outcome (DBInner MetaTable) * Os :=
  DB_open 16 1 (replicate 12 7%Z) [] map_to_list 0 (λ _, MemTableExamples.no_keys) open_ta Some 42 false (reading rest)
    disk (sy_os (sys_start ∅)).

Lemma reading_opens rest :
  (2 ^ 20 ≤ 1000 + Z.of_nat rest < 2 ^ 31)%Z →
  match opened rest with
  | (Ok db, os) =>
      oc_next_txn_ts (or_inner (db_oracle db)) = (max_version ta + 1)%Z
  | _ => False
  end.
Proof.
  intros Hr. assert (check_vlog_config (Z.of_nat (1000 + rest)) = Ok ()) as Hc.
  { unfold check_vlog_config. rewrite Nat2Z.inj_add.
    change (Z.shiftl 1 20) with (2 ^ 20)%Z. change (Z.shiftl 2 30) with (2 ^ 31)%Z.
    by rewrite (proj2 (Z.leb_le _ _)), (proj2 (Z.ltb_lt _ _)) by lia. }
  unfold opened, DB_open, Config_init, check_set_config. cbn [cf_vlog reading vc_vlog_file_size]. rewrite Hc.
  vm_compute. reflexivity.
Qed.

(** Process 42 opens the database, holds shared locks on both directories, and has
    its next timestamp above the version of the table. *)
Lemma db_open_witness :
  ∃ rest db os, opened rest = (Ok db, os) ∧ versions_below db ∧ db_memtable db = None ∧
    ∃ fd, mkHeld 1 fd false ∈ os_held os.
Proof.
  exists (Z.to_nat (2 ^ 20)). assert (2 ^ 20 ≤ 1000 + Z.of_nat (Z.to_nat (2 ^ 20)) < 2 ^ 31)%Z as Hr by lia.
  revert Hr. generalize (Z.to_nat (2 ^ 20)). intros rest Hr. pose proof (reading_opens rest Hr) as Hopen.
  pose proof (db_open_locks_and_timestamps 16 1 (replicate 12 7%Z) [] map_to_list 0 (λ _, MemTableExamples.no_keys)
    open_ta Some 42 false (reading rest) disk ∅ (sys_start ∅)) as Ht. fold (opened rest) in Ht.
  destruct (opened rest) as [[db| |] os]; [|contradiction..]. destruct Ht as (Hv & Hm & Hl).
  - apply rtc_refl.
  - intros p. by exists p.
  - exists db, os. split; [reflexivity|]. split; [exact Hv|]. split.
    + destruct (db_memtable db) as [m|] eqn:E; [|reflexivity]. exfalso. destruct Hm as [Hm _].
      cbn [reading cf_read_only] in Hm. discriminate Hm. by exists m.
    + destruct (Hl eq_refl 1) as (dir & fd & Hc & Hin); [cbn; set_solver|]. exists fd.
      injection Hc as <-. exact Hin.
Defined.

End DbOpenExamples.
